(* ===== verification/_CoqProject ===== *)
-Q . S2P
Prelude.v
PyText.v
LedgerCodec.v
LedgerOrdinals.v
LedgerStore.v
LedgerWriter.v
LedgerMerge.v
Classifier.v
ClassifierSafety.v
ClassifierOrder.v
ClassifierResults.v
AccessModel.v
AccessValidation.v
AccessProofs.v
AccessPolicy.v
TeamsCatalog.v
AccessResolution.v
TeamsConnector.v
Messages.v
ToolPairs.v
FreshTail.v
AssemblyTail.v
Frontier.v
LineageLoad.v
Chunking.v
Lifecycle.v
Publication.v
Matching.v
MatchingProofs.v
Reservation.v
Decompositions.v
Calendar.v
RollupStore.v
RollupProofs.v
Truncation.v
SpendGuard.v
CircuitBreaker.v
SummaryOutcome.v
Escalation.v
EscalationProofs.v
RollupBuilder.v
RollupBuilds.v
RollupLiveness.v
Scheduler.v
SchedulerProofs.v
SchedulerResults.v
LeafSummary.v
LeafPrep.v
LeafPrepProofs.v
LeafPrepResults.v
LeafPromotion.v
LeafMatch.v
