(* ===== verification/Prelude.v ===== *)
(** * LCM-X: a verification library for the lossless context engine

    LCM-X is the context engine of a chat host.  Every message of a session is
    kept for good in one SQLite file; what is sent to the provider is a budgeted
    view of it: summaries of old messages, then the newest messages whole.  The
    host calls the engine once per turn with its own list of rows, which may
    repeat, rewrite or reorder what the engine stored.  The engine must add
    exactly the new rows, whatever the host replays, and emit a request the
    provider accepts, within a token budget.  A Teams layer decides which
    principal may see which session.

    This library models the parts of that program whose behaviour its own code
    decides, and proves what makes them correct.  All source paths below are
    relative to src/.

    ** The parts and how they interact

    - The exactly-once ledger (ingest_ledger.py, tables in store.py) records which
      stored row is which occurrence of a conversation, in what order, and what
      the engine emitted to the host.  The ingest classifier
      (ingest_classifier.py) reads it, without writing, and gives every row of a
      host view the verdict replay, new or skip; the engine (engine.py) then runs
      ledger transactions that bind the new rows.
    - A host view shows stored rows as occurrences; where the ledger has no entry,
      rows are recognized by stamps and forms (recognition_matching.py): a bounded
      maximum matching, the rows reserved as shown, and the splits of a composite
      text into texts already held.
    - Before a request is sent, tool calls and results are repaired
      (tool_pairs.py), a fresh tail is protected (fresh_tail.py) and a tail is
      selected under a token cap (assembly_plan.py), all over the rows and token
      counts of message_analysis.py and tokens.py.
    - Each conversation has a lifecycle row (lifecycle_state.py): the session it is
      bound to and the frontier up to which its rows are summarized.  Publishing a
      leaf (compaction.py, dag.py) inserts the summary node and advances that
      frontier in one transaction that proves it skipped no row.
    - A summary is asked of a chain of model routes (escalation.py), each behind a
      circuit breaker and all behind a spend guard, at two levels; the third level cuts
      the text deterministically.  A leaf that a model refuses for its size is retried
      with fewer rows (engine.py).
    - Between turns a worker prepares leaves (leaf_prep.py): it reads the rows above the
      frontier, summarizes whole chunks of them and caches the results.  A compaction
      that meets the same rows promotes a cached leaf instead of calling a model: the
      publication re-validates it in its transaction (compaction.py).
    - Summaries of a day, a week or a month are rolled up (rollup_store.py): builders
      claim a row under a lease, and every change of a summary node is written by a
      trigger to an outbox that maintenance drains into stale rows.  Passes of
      maintenance (rollup_builder.py) are jobs of a background scheduler
      (maintenance_scheduler.py) that all engines of a process share.
    - Summaries form a graph; the canonical frontier of a set of summary nodes
      (rollup_periods.py) covers each stored leaf once.  Messages are cut into
      chunks for embedding (chunking.py).
    - An access context (access_context/) states the authority of a call; a policy
      (access_policy/) is resolved for the engine and asked at every hook; the
      Teams catalog (teams/catalog.py) holds principals, grants and revision
      counters; the management connector (teams/connector.py) changes it on behalf
      of an administrator, once per request id.

    ** The files

    Shared:
    - [Prelude] (this file): results of code that raises, [next(...)] over a list,
      sorted sets of strings, bytes and big-endian integers, maxima and counting.
    - [PyText]: [str.strip()] and values read from decoded messages.

    Ledger and classifier:
    - [LedgerCodec]: frame, digest preimage, view entries and prefix chains
      (ingest_ledger.py, store.py).
    - [LedgerOrdinals]: [plan_ordinals], its gap division and its re-spacing.
    - [LedgerStore]: the six tables as lists of rows in rowid order, the indexes as
      checks that raise, one definition per writer of ingest_ledger.py.
    - [LedgerWriter]: the engine's transactions over those writers (binding new
      tails, pending rows and rebinds, the life of an emission).
    - [LedgerMerge]: adoption of a provisional lineage.
    - [Classifier]: the data and the whole pass of ingest_classifier.py, each step
      of [_Pass] a definition over an explicit pass state; [ClassifierSafety],
      [ClassifierOrder], [ClassifierResults]: its invariants, the longest-chain
      computation and the theorems about [classify].

    Identity recognition:
    - [Matching]: [_match_occurrences], its search over types of rows and the hand
      out; [MatchingProofs]: the assignment its counters stand for, and the theorems;
      [Reservation]: [_reserve_shown] and [_reroute_for_null]; [Decompositions]:
      [_decompositions] and the recursive walk it bounds.

    Context assembly:
    - [Messages]: rows, call ids and token counts; [ToolPairs]: the repair;
      [FreshTail]: the boundaries; [AssemblyTail]: the selection and its cost.

    Summaries and chunks:
    - [Lifecycle]: the lifecycle table, every statement that changes it, the bind
      loop among the writes of other processes; [Publication]: the publishing
      transaction and the transactions it interleaves with.
    - [Frontier]: [canonical_frontier]; [LineageLoad]: [load_source_lineage] and the
      two together; [Chunking]: spans, windows, policies.

    Summarization and rollups:
    - [Truncation]: the last level and the token estimate; [SpendGuard],
      [CircuitBreaker]: the two guards; [SummaryOutcome]: what an attempt means
      (summary_outcome.py, summary_attempt.py); [Escalation]: budget, chain of routes
      and levels; [EscalationProofs]: its weakest preconditions and theorems.
    - [Calendar]: days, weeks and months; [RollupStore]: tables, triggers and every
      operation of the store; [RollupProofs]: their interleavings and the theorems;
      [RollupBuilder]: the builds over the store and the maintenance pass
      (rollup_builder.py); [RollupBuilds], [RollupLiveness]: a build among other
      processes, and alone.
    - [LeafSummary]: chunks of rows, the rescue and the escalation as its attempt;
      [LeafPrep]: queue, cache and worker of leaf_prep.py and the revalidation of a leaf;
      [LeafPrepProofs], [LeafPrepResults]: the cache and the worker among other threads;
      [LeafPromotion]: the theorems; [LeafMatch]: the turn's side: the job of a turn, the
      match with the host's rows, and what its publication leaves cached.
    - [Scheduler]: the background scheduler, a function per critical section;
      [SchedulerProofs]: its invariant; [SchedulerResults]: the theorems.

    Access:
    - [AccessModel], [AccessValidation], [AccessProofs]: the context, its
      derivation, its staged validation and the public projection of a denial.
    - [AccessPolicy]: the policy interface, a class whose laws each of the three
      policies discharges; [AccessResolution]: which of them an engine gets;
      [TeamsCatalog]: the tables and every accessor; [TeamsConnector]: [execute].

    ** What the theorems show

    - Ordinals: new labels are strictly between their neighbours, distinct and
      within 64 bits, in the order asked for, and a re-spacing keeps the order of
      the rows it moves; the transactions place rows where the placements say and
      keep every other row ([plan_ordinals_sound], [apply_respace_relabels],
      [write_tail_bindings_places], [bind_pending_places],
      [merge_provisional_appends]).
    - Codecs: decoding inverts encoding, on valid input the two agree both ways,
      and different identity tuples have different preimages.
    - Classifier: it terminates with one verdict per row; a stored occurrence is
      replayed at most once; every replay carries the evidence its rank claims;
      an accepted unit is on every longest consistent chain; segments of an
      executed plan stay whole.
    - Recognition: the matching is valid whatever its budget, and maximum while the
      budget lasts; what is reserved can be shown, and nothing more could be without
      moving more than one row; the bounded decomposition lists the splits of a text
      exactly, so one split is known to be unique.
    - Assembly: after repair calls and results are paired, repair is the identity
      exactly on paired requests and conserves every other row; the fresh tail is
      the longest suffix within its limits and never cuts a tool group; a selected
      tail, repaired, fits the cap it was selected under.
    - Frontier: the computed frontier is the declarative one, independent of the
      order of the candidates, and covers every leaf exactly once, from the lineage
      the bounded loader returns; the loader returns exactly the reachable closure
      or raises because it exceeds the limit.
    - Publication: a committed leaf accounts for exactly the rows between the old
      frontier and the new one; over any interleaving the publications of a
      conversation tile its rows, no row is summarized by two leaves of a session,
      and a leaf prepared behind the frontier is refused.  Binding never acts on a
      stale read, resumes the right frontier, and a bound frontier never falls.
    - Summarization: a summary is shorter than its source or is the bounded cut of it,
      and no call is left without a result but by a time limit; calls of the model stay
      within the guard's rate; the breaker refuses what its history says; the cut fits
      its budget under either counter.
    - Rollups: over any interleaving of writers, builders and maintenance a claim is
      settled at most once, what is published is built from the current nodes of its
      period, a ready row lags only while the outbox says so, and draining ends and
      loses no day.  A build ends its claim whatever fails or interferes; the day it
      publishes has the nodes its sources were read from, a week or month rests on ready
      days only; alone, with sources and a summary, it makes its day ready.
    - Leaves: the rescue ends within its attempts, with a summary of a prefix of the rows
      that cuts no tool group.  Whatever the turn threads and other writers do, the cache
      stays bounded, a cached leaf accounts without a gap for rows that were read above
      the frontier and belongs to a generation no discard ended; a published promotion
      stands for the committed rows, one that nothing disturbs is accepted, and the rest of
      its chain is ready at the frontier it leaves ([promotion_settles]).
    - Scheduler: accepted work is kept until it runs, a key an operator holds neither
      waits nor runs, an owner's drain waits for what was accepted, a shutdown is final,
      and a worker left alone runs its backlog in order.
    - Chunks: windows cover the text without cutting a sentence; a chunk is the
      text its offsets name under every policy.
    - Access: a derived context never exceeds its parent; validation allows exactly
      when every stage does; a public denial does not tell which late stage
      failed; authorization is the conjunction the policy documents; resolution
      fails closed; a withdrawn delegate is refused.
    - Teams: whatever workers interleave, tenants never mix and counters never go
      back; a request id has at most one durable effect over concurrent calls,
      failing statements and deaths; a replay gets the same answer.

    ** Style of the model

    A Python function is a function, a method of a mutable object a function on a
    state record that returns the new state.  An exception is [Err] of [result],
    and [let!] sequences code that may raise.  A SQLite table is a list of rows in
    rowid order, or a finite map by primary key where the order is never read; a
    transaction is a function from the state before to the state after, or an
    error that leaves the state alone.  Where several processes interleave
    (catalog, connector, resolution, lifecycle, publication, rollups, scheduler) a step takes the state it read and the state
    it writes apart, and theorems are about every interleaving.  A build of a rollup is
    a program of accesses, and an argument says what the others did before each of them
    (any steps of the store's system); so is a job of the leaf worker, among any critical
    sections of the turn threads and any writes to the database.  A loop over an
    index is structural recursion where it can be, otherwise it runs on fuel, and a
    theorem says the fuel given is enough: the length of the list left for the
    repair and the windows, one more than the length of the text for sentences, one
    more than the number of nodes with sources for lineages, one more than the work
    limit for the loader, one round per key for a matching search (a key enters its
    queue once), what is left of the budget for a re-routing, the visits the budget
    allows times the texts for a decomposition, the span of the search for a month and
    for the bisection of a cut, one round more than the text's tokens for a capped summary, the day budget for a drain, the span of sizes for the doubling of a chunk, the leaves of a conversation for its chain and the entries of the cache for an eviction, the length of the queue for a rotation of it, the code's eight attempts and its fallback for a bind, the
    number of runs or segments left in the classifier.
    Integers of the program are unbounded and are [Z]; the ordinals' 64-bit bounds
    are explicit.

    ** Arguments and assumptions

    Code outside src/ is an argument: keyed hashes (the theorems that need it
    assume injectivity on the inputs at hand), the token encoder (counts are not
    negative), SQLite's choice of rows under a LIMIT without ORDER BY (it returns
    that many rows), the host's handlers, credential check and audit sink, the
    clock.  Strings are sequences of code points below 256, UTF-8 bytes where they
    are hashed, code points where they are cut.  Times are integers, and quotients of small integers that the code
    computes in floating point are exact; shares of a context window are compared in
    hundredths.  One worker prepares leaves; the decoding and redaction of a row, what a
    chunk of host rows consumes and the hashes of rows and settings are its arguments.
    The digits of a replayed summary's label are ASCII.  In the
    connector a transaction still open when a call ends is lost with its
    connection, a rollback succeeds, and a handler run is one step apart from a
    death in the middle of it.  Hypotheses of this kind are named, and each theorem
    that has one comes with a witness that instantiates it.

    ** Findings

    Modelling showed places where the code and its words differ; each is a closed
    theorem or follows from one: a handler that committed through a catalog
    accessor and then failed can be repeated ([committing_failure_repeats]); an
    effect discarded because its record could not be written is answered with
    success ([discarded_effect_answered]); the tail selection never keeps anything
    older than a row it skips, though its helper's comment says it keeps scanning
    ([select_tail_suffix]); a chunk may repeat the end of the one before and be
    followed without overlap ([overlap_alone]); a delayed request that a full scheduler
    refuses takes an accepted follow-up with it ([saturated_delay_drops_follow_up]).

    ** Not modelled

    The message store's SQL and full-text index, schema migrations, payload files,
    embeddings, the prompts and the transport of language models, retrieval and
    evidence ranking, the rendering of recent summaries, the driver of a compaction (its
    candidates and its budgets) around the leaves modelled here,
    commands and tools, recorders, adapters and benchmarks: effects of SQLite, of
    the file system, of providers, or text for people.  [select_prefix]
    (assembly_plan.py) strips context blocks with patterns of another module, and
    [parse_recent_period] (rollup_periods.py) is calendar arithmetic of the
    standard library.  The legacy reconciliation of replayed history works on host
    dictionaries beside the ledger and is left to a later extension. *)

From Stdlib Require Export ZArith Lia.
From Stdlib Require Import Strings.Byte.
From stdpp Require Export base gmap sets list strings sorting.
From stdpp Require Import options.

Declare Scope lcm_scope.
Delimit Scope lcm_scope with lcm.
#[global] Open Scope lcm_scope.
#[global] Open Scope Z_scope.

(** ** Results of code that raises *)

Inductive result (E A : Type) : Type :=
| Ok (a : A)
| Err (e : E).
Arguments Ok {E A} _.
Arguments Err {E A} _.

#[global] Instance result_eq_dec {E A} `{EqDecision E, EqDecision A} : EqDecision (result E A).
Proof. solve_decision. Defined.

Definition rbind {E A B} (m : result E A) (k : A → result E B) : result E B :=
  match m with Ok a => k a | Err e => Err e end.

(** [let! x := m in k] sequences code that may raise; [raise_if b e k] is an
    early [if b: raise e]. *)
Notation "'let!' x ':=' m 'in' k" := (rbind m (λ x, k))
  (at level 10, x pattern, m at level 100, k at level 200) : lcm_scope.

Definition raise_if {E A} (b : bool) (e : E) (k : result E A) : result E A :=
  if b then Err e else k.

Fixpoint rmap {E A B} (f : A → result E B) (l : list A) : result E (list B) :=
  match l with
  | [] => Ok []
  | x :: l => let! y := f x in let! ys := rmap f l in Ok (y :: ys)
  end.

Lemma rbind_Ok {E A B} (m : result E A) (k : A → result E B) b :
  rbind m k = Ok b ↔ ∃ a, m = Ok a ∧ k a = Ok b.
Proof. destruct m; simpl; split; [eauto| by intros (? & [= ->] & ?) | done | by intros (? & ? & ?)]. Qed.

Lemma raise_if_Ok {E A} (c : bool) (e : E) (k : result E A) a :
  raise_if c e k = Ok a ↔ c = false ∧ k = Ok a.
Proof. destruct c; simpl; split; [done | by intros [? ?] | done | by intros [_ ?]]. Qed.

Lemma rmap_Ok {E A B} (f : A → result E B) l ys :
  rmap f l = Ok ys ↔ Forall2 (λ x y, f x = Ok y) l ys.
Proof.
  revert ys; induction l as [|x l IH]; intros ys; simpl.
  - split; [naive_solver | by inversion 1].
  - rewrite rbind_Ok. setoid_rewrite rbind_Ok. split.
    + intros (y & ? & zs & ?%IH & [= <-]). by constructor.
    + inversion 1; subst. naive_solver.
Qed.

Lemma Ok_inj {E A} (a b : A) : @Ok E A a = Ok b → a = b.
Proof. by intros [= ->]. Qed.

(** [inv_ok] splits a hypothesis saying that sequenced code returned. *)
Ltac inv_ok :=
  repeat match goal with
  | H : rbind _ _ = Ok _ |- _ => let v := fresh "v" in let Hb := fresh "Hb" in apply rbind_Ok in H as (v & Hb & H)
  | H : raise_if _ _ _ = Ok _ |- _ => let Hr := fresh "Hr" in apply raise_if_Ok in H as [Hr H]
  | H : Ok _ = Ok _ |- _ => apply Ok_inj in H; try subst
  | H : Err _ = Ok _ |- _ => discriminate H
  | H : Ok _ = Err _ |- _ => discriminate H
  end.

(** [next((x for x in l if P(x)), None)] *)
Definition find_first {A} (P : A → Prop) `{!∀ x, Decision (P x)} (l : list A) : option A :=
  snd <$> list_find P l.

Lemma find_first_Some {A} (P : A → Prop) `{!∀ x, Decision (P x)} (l : list A) x :
  find_first P l = Some x → x ∈ l ∧ P x.
Proof.
  unfold find_first. destruct (list_find P l) as [[i y]|] eqn:E; [|done]. intros [= <-].
  apply list_find_Some in E as (E & HP & _). split; [by eapply list_elem_of_lookup_2|done].
Qed.

Lemma find_first_is_Some {A} (P : A → Prop) `{!∀ x, Decision (P x)} (l : list A) x :
  x ∈ l → P x → is_Some (find_first P l).
Proof.
  intros Hx HP. unfold find_first. destruct (list_find P l) as [[i y]|] eqn:E; [by eexists|].
  apply list_find_None in E. rewrite Forall_forall in E. by destruct (E x Hx).
Qed.

(** ** [sorted(set_of_str)] *)

Definition string_le (a b : string) : Prop := String.leb a b = true.
#[global] Instance string_le_dec : RelDecision string_le.
Proof. unfold string_le. intros a b. apply _. Defined.

Definition sorted_strings (s : gset string) : list string := merge_sort string_le (elements s).

Lemma sorted_strings_elem s x : x ∈ sorted_strings s ↔ x ∈ s.
Proof. unfold sorted_strings. by rewrite merge_sort_Permutation, elem_of_elements. Qed.

Lemma sorted_strings_set s : list_to_set (sorted_strings s) = s.
Proof. apply set_eq. intros x. by rewrite elem_of_list_to_set, sorted_strings_elem. Qed.

Lemma sorted_strings_NoDup s : NoDup (sorted_strings s).
Proof. unfold sorted_strings. rewrite merge_sort_Permutation. apply NoDup_elements. Qed.

(** ** Bytes and big-endian integers *)

Abbreviation byte := Byte.byte.
Abbreviation bytes := (list Byte.byte).

#[global] Instance byte_eq_dec : EqDecision byte := Byte.byte_eq_dec.

Definition byte_to_Z (b : byte) : Z := Z.of_N (Byte.to_N b).
Definition byte_of_Z (z : Z) : byte := default Byte.x00 (Byte.of_N (Z.to_N (z mod 256))).

Lemma byte_to_Z_range b : 0 <= byte_to_Z b < 256.
Proof. unfold byte_to_Z. pose proof (Byte.to_N_bounded b). lia. Qed.

Lemma byte_of_to_Z b : byte_of_Z (byte_to_Z b) = b.
Proof.
  unfold byte_of_Z. rewrite Z.mod_small by apply byte_to_Z_range.
  unfold byte_to_Z. by rewrite N2Z.id, Byte.of_to_N.
Qed.

Lemma byte_to_of_Z z : byte_to_Z (byte_of_Z z) = z mod 256.
Proof.
  unfold byte_of_Z. pose proof (Z.mod_pos_bound z 256 ltac:(lia)) as Hz.
  destruct (Byte.of_N _) as [b|] eqn:Hb; simpl.
  - unfold byte_to_Z. apply Byte.to_of_N in Hb as ->. lia.
  - apply Byte.of_N_None_iff in Hb. lia.
Qed.

#[global] Instance byte_to_Z_inj : Inj (=) (=) byte_to_Z.
Proof. intros x y Hxy. by rewrite <-(byte_of_to_Z x), Hxy, byte_of_to_Z. Qed.

(** [int.to_bytes(n, "big")] of a value already reduced modulo [256^n]. *)
Fixpoint be_bytes (n : nat) (z : Z) : bytes :=
  match n with
  | O => []
  | S n => be_bytes n (z / 256) ++ [byte_of_Z z]
  end.

Definition be_value (bs : bytes) : Z := foldl (λ acc b, acc * 256 + byte_to_Z b) 0 bs.

Lemma be_value_snoc bs b : be_value (bs ++ [b]) = be_value bs * 256 + byte_to_Z b.
Proof. unfold be_value. by rewrite foldl_app. Qed.

Lemma length_be_bytes n z : length (be_bytes n z) = n.
Proof. revert z; induction n; intros z; simpl; [done|]. rewrite length_app, IHn. simpl; lia. Qed.

Lemma be_value_bytes n z : be_value (be_bytes n z) = z mod 256 ^ Z.of_nat n.
Proof.
  revert z; induction n as [|n IH]; intros z; simpl be_bytes.
  - by rewrite Z.mod_1_r.
  - rewrite be_value_snoc, IH, byte_to_of_Z.
    rewrite Nat2Z.inj_succ, Z.pow_succ_r by lia.
    rewrite (Z.rem_mul_r z 256 (256 ^ Z.of_nat n)) by (try apply Z.pow_nonzero; lia).
    lia.
Qed.

Lemma be_value_range bs : 0 <= be_value bs < 256 ^ Z.of_nat (length bs).
Proof.
  induction bs as [|b bs IH] using rev_ind; [done|].
  rewrite be_value_snoc, length_app. simpl length. pose proof (byte_to_Z_range b).
  replace (Z.of_nat (length bs + 1)) with (Z.succ (Z.of_nat (length bs))) by lia.
  rewrite Z.pow_succ_r by lia. lia.
Qed.

Lemma be_bytes_value bs : be_bytes (length bs) (be_value bs) = bs.
Proof.
  induction bs as [|b bs IH] using rev_ind; [done|].
  rewrite length_app, Nat.add_1_r. simpl. rewrite be_value_snoc.
  pose proof (byte_to_Z_range b).
  rewrite Z.div_add_l, Z.div_small, Z.add_0_r, IH by lia. f_equal. f_equal.
  rewrite <-(byte_of_to_Z b) at 2. unfold byte_of_Z. f_equal. f_equal. f_equal.
  rewrite <-Zplus_mod_idemp_l, Z.mod_mul by lia. done.
Qed.

#[global] Arguments be_bytes : simpl never.
#[global] Arguments be_value : simpl never.
#[global] Arguments Z.testbit : simpl never.
#[global] Arguments Z.land : simpl never.
#[global] Arguments Z.lor : simpl never.
#[global] Arguments Z.shiftl : simpl never.
#[global] Arguments Z.pow : simpl never.
#[global] Arguments Z.modulo : simpl never.
#[global] Arguments Z.div : simpl never.
#[global] Arguments Z.add : simpl never.
#[global] Arguments Z.sub : simpl never.
#[global] Arguments Z.mul : simpl never.

(** ** Items *)

Lemma NoDup_fst_fun {A B} (l : list (A * B)) a b b' : NoDup l.*1 → (a, b) ∈ l → (a, b') ∈ l → b = b'.
Proof.
  intros Hnd [i Hi]%list_elem_of_lookup [j Hj]%list_elem_of_lookup.
  assert (i = j) as ->; [|congruence].
  apply (NoDup_lookup l.*1 i j a); [done|by rewrite list_lookup_fmap, Hi|by rewrite list_lookup_fmap, Hj].
Qed.

(** ** Maxima *)

Lemma foldr_max_in l x : foldr Z.max x l ∈ x :: l.
Proof.
  induction l as [|y l IH]; simpl; [by left|].
  destruct (Z.max_spec y (foldr Z.max x l)) as [[_ ->]|[_ ->]]; [|right; by left].
  apply elem_of_cons in IH as [->|IH]; [by left|by right; right].
Qed.

Lemma foldr_max_ge l x y : y ∈ x :: l → y <= foldr Z.max x l.
Proof.
  induction l as [|z l IH]; simpl; [intros ->%list_elem_of_singleton; lia|].
  intros [->|[->|H]%elem_of_cons]%elem_of_cons; [|lia|].
  - assert (x <= foldr Z.max x l) by (apply IH; by left). lia.
  - assert (y <= foldr Z.max x l) by (apply IH; by right). lia.
Qed.

(** ** Counting *)

(** The number of elements that satisfy [p]. *)
Fixpoint tally {A} (p : A → bool) (l : list A) : nat :=
  match l with [] => 0 | x :: l => Nat.b2n (p x) + tally p l end.

Section tally.
Context {A : Type}.
Implicit Types (p q : A → bool) (l : list A).

Lemma tally_app p l1 l2 : tally p (l1 ++ l2) = (tally p l1 + tally p l2)%nat.
Proof. induction l1 as [|x l1 IH]; cbn; [done|]. rewrite IH. lia. Qed.

Lemma tally_le p q l : (∀ x, x ∈ l → p x = true → q x = true) → (tally p l ≤ tally q l)%nat.
Proof.
  induction l as [|x l IH]; intros H; cbn; [done|]. specialize (IH (λ y Hy, H y (list_elem_of_further _ _ _ Hy))).
  destruct (p x) eqn:Hp; [rewrite (H x (list_elem_of_here _ _) Hp); cbn; lia|cbn; lia].
Qed.

Lemma tally_ext p q l : (∀ x, x ∈ l → p x = q x) → tally p l = tally q l.
Proof.
  intros H. apply Nat.le_antisymm; apply tally_le; intros x Hx; rewrite (H x Hx); done.
Qed.

Lemma tally_zero p l : (∀ x, x ∈ l → p x = false) → tally p l = 0%nat.
Proof. induction l as [|x l IH]; intros H; cbn; [done|]. rewrite (H x), IH by (try apply list_elem_of_here; intros; apply H; by right). done. Qed.

Lemma tally_pos p l : (0 < tally p l)%nat ↔ ∃ x, x ∈ l ∧ p x = true.
Proof.
  induction l as [|x l IH]; cbn; [split; [lia|by intros (x & ?%not_elem_of_nil & _)]|]. split.
  - destruct (p x) eqn:Hp; cbn; [exists x; split; [by left|done]|]. intros (y & Hy & Hpy)%IH. exists y. split; [by right|done].
  - intros (y & [->|Hy]%elem_of_cons & Hp); [rewrite Hp; cbn; lia|]. assert (0 < tally p l)%nat by (apply IH; by exists y). lia.
Qed.

(** One element changes. *)
Lemma tally_change p q l x :
  NoDup l → x ∈ l → (∀ y, y ∈ l → y ≠ x → p y = q y) →
  (tally q l + Nat.b2n (p x) = tally p l + Nat.b2n (q x))%nat.
Proof.
  induction l as [|z l IH]; intros Hnd Hx H; [by apply not_elem_of_nil in Hx|].
  apply NoDup_cons in Hnd as [Hz Hnd]. cbn. apply elem_of_cons in Hx as [->|Hx].
  - rewrite (tally_ext p q l); [lia|]. intros y Hy. apply H; [by right|]. by intros ->.
  - rewrite (H z) by (try (by left); by intros ->). specialize (IH Hnd Hx (λ y Hy, H y (list_elem_of_further _ _ _ Hy))). lia.
Qed.

Lemma tally_length p l : tally p l = length (filter (λ x, p x = true) l).
Proof. induction l as [|x l IH]; cbn [tally]; [done|]. rewrite IH, filter_cons. by destruct (p x). Qed.

End tally.

Section classes.
Context {A : Type}.
Implicit Types (p q : A → bool) (l : list A).

(** Counting by classes: [c] sends what is counted into [ts]. *)
Lemma tally_classes {T} `{EqDecision T} (c : A → T) p (ts : list T) l :
  NoDup ts → (∀ x, x ∈ l → p x = true → c x ∈ ts) →
  tally p l = sum_list ((λ t, tally (λ x, bool_decide (c x = t) && p x) l) <$> ts).
Proof.
  intros Hnd. induction l as [|x l IH]; intros H; cbn.
  - induction ts as [|t ts IHt]; [done|]. cbn. apply IHt; [by inversion Hnd|]. intros y []%not_elem_of_nil.
  - rewrite IH by (intros y Hy; apply H; by right). specialize (H x (list_elem_of_here _ _)). clear IH.
    assert (∀ (f : T → nat) ts, sum_list ((λ t, Nat.b2n (bool_decide (c x = t) && p x) + f t)%nat <$> ts)
              = (tally (λ t, bool_decide (c x = t) && p x) ts + sum_list (f <$> ts))%nat) as ->.
    { intros f us. induction us as [|t us IHu]; [done|]. cbn. rewrite IHu. lia. }
    f_equal. destruct (p x); cbn.
    + specialize (H eq_refl). induction ts as [|t ts IHt]; [by apply not_elem_of_nil in H|]. cbn.
      apply NoDup_cons in Hnd as [Ht Hnd]. apply elem_of_cons in H as [<-|H].
      * rewrite bool_decide_eq_true_2 by done. rewrite tally_zero; [done|]. intros u Hu.
        rewrite bool_decide_eq_false_2; [done|]. by intros <-.
      * rewrite (bool_decide_eq_false_2 (c x = t)) by (by intros <-). cbn. by apply IHt.
    + symmetry. apply tally_zero. intros t _. by rewrite andb_false_r.
Qed.

Lemma sum_list_le {T} (f g : T → nat) ts :
  (∀ t, t ∈ ts → (f t ≤ g t)%nat) → (sum_list (f <$> ts) ≤ sum_list (g <$> ts))%nat.
Proof.
  induction ts as [|t ts IH]; intros H; cbn; [done|]. specialize (H t (list_elem_of_here _ _)) as Ht.
  specialize (IH (λ u Hu, H u (list_elem_of_further _ _ _ Hu))). lia.
Qed.

Lemma sum_list_squeeze {T} (f g : T → nat) ts t :
  (∀ u, u ∈ ts → (f u ≤ g u)%nat) → (sum_list (g <$> ts) ≤ sum_list (f <$> ts))%nat → t ∈ ts → (g t ≤ f t)%nat.
Proof.
  induction ts as [|u ts IH]; intros Hle Hsum Ht; [by apply not_elem_of_nil in Ht|]. cbn in Hsum.
  pose proof (Hle u (list_elem_of_here _ _)). assert (∀ v, v ∈ ts → (f v ≤ g v)%nat) as Hle' by (intros v Hv; apply Hle; by right).
  pose proof (sum_list_le f g ts Hle'). apply elem_of_cons in Ht as [->|Ht]; [lia|]. apply IH; [done|lia|done].
Qed.

(** Comparing counts of two lists class by class. *)
Lemma tally_le_classes {T} `{EqDecision T} (c : A → T) p q l1 l2 :
  (∀ t, tally (λ x, bool_decide (c x = t) && p x) l1 ≤ tally (λ x, bool_decide (c x = t) && q x) l2)%nat →
  (tally p l1 ≤ tally q l2)%nat.
Proof.
  intros H. pose (ts := remove_dups (c <$> l1 ++ l2)).
  assert (∀ x, x ∈ l1 ++ l2 → c x ∈ ts) as Hin by (intros x Hx; apply elem_of_remove_dups, list_elem_of_fmap; eauto).
  rewrite (tally_classes c p ts l1), (tally_classes c q ts l2)
    by (try apply NoDup_remove_dups; intros x Hx _; apply Hin, elem_of_app; auto).
  by apply sum_list_le.
Qed.

End classes.
