(* ===== verification/PyText.v ===== *)
(** Python text operations the components share: [str.strip()], membership of a
    character and [str(n)], on strings of code points below 256. *)

From Stdlib Require Import Ascii.
From S2P Require Import Prelude.
From stdpp Require Export pretty.
From stdpp Require Import options.

#[local] Open Scope Z_scope.

(** [c.isspace()] below code point 256. *)
Definition is_space (a : ascii) : bool :=
  let n := Z.of_N (N_of_ascii a) in
  bool_decide (9 <= n <= 13) || bool_decide (28 <= n <= 32) || bool_decide (n = 133) || bool_decide (n = 160).

Fixpoint lstrip (s : string) : string :=
  match s with String a s' => if is_space a then lstrip s' else s | EmptyString => s end.

Fixpoint rev_string (s : string) : string :=
  match s with String a s' => rev_string s' +:+ String a EmptyString | EmptyString => EmptyString end.

(** [s.strip()] *)
Definition strip (s : string) : string := rev_string (lstrip (rev_string (lstrip s))).

(** [d in s] for one character. *)
Fixpoint has_char (d : ascii) (s : string) : bool :=
  match s with String a s => bool_decide (a = d) || has_char d s | EmptyString => false end.

(** A value read from a decoded message: absent (or [None]), a string, an integer. *)
Inductive field := Absent | Str (s : string) | Int (z : Z).
#[global] Instance field_eq_dec : EqDecision field.
Proof. solve_decision. Defined.

(** [bool(v)] *)
Definition truthy (v : field) : bool :=
  match v with
  | Absent => false
  | Str s => bool_decide (s ≠ EmptyString)
  | Int z => bool_decide (z ≠ 0)
  end.

(** [str(v)] of a truthy value. *)
Definition to_str (v : field) : string :=
  match v with Absent => EmptyString | Str s => s | Int z => pretty z end.

(** [str(v or "").strip()] *)
Definition stripped (v : field) : string := if truthy v then strip (to_str v) else EmptyString.

(** ** Stripping twice is stripping once *)

Lemma app_string_assoc (s t u : string) : (s +:+ t) +:+ u = s +:+ (t +:+ u).
Proof. induction s as [|a s IH]; [done|]. exact (f_equal (String a) IH). Qed.

Lemma app_string_nil_r (s : string) : s +:+ EmptyString = s.
Proof. induction s as [|a s IH]; [done|]. exact (f_equal (String a) IH). Qed.

Lemma rev_string_app s t : rev_string (s +:+ t) = rev_string t +:+ rev_string s.
Proof.
  induction s as [|a s IH].
  - by rewrite app_string_nil_r.
  - change (rev_string (s +:+ t) +:+ String a EmptyString = rev_string t +:+ (rev_string s +:+ String a EmptyString)).
    by rewrite IH, app_string_assoc.
Qed.

Lemma rev_string_involutive s : rev_string (rev_string s) = s.
Proof. induction s as [|a s IH]; [done|]. cbn [rev_string]. by rewrite rev_string_app, IH. Qed.

(** [s] starts with a character that [strip] keeps, or is empty. *)
Definition head_kept (s : string) : Prop :=
  match s with String a _ => is_space a = false | EmptyString => True end.

Lemma lstrip_head_kept s : head_kept (lstrip s).
Proof. induction s as [|a s IH]; [done|]. cbn. by destruct (is_space a) eqn:Ha. Qed.

Lemma lstrip_fixed s : head_kept s → lstrip s = s.
Proof. destruct s as [|a s]; [done|]. cbn. by intros ->. Qed.

Lemma lstrip_idemp s : lstrip (lstrip s) = lstrip s.
Proof. apply lstrip_fixed, lstrip_head_kept. Qed.

(** What [lstrip] removes, it removes from the front: a last character that is
    kept stays the last one. *)
Lemma lstrip_snoc s a : is_space a = false → lstrip (s +:+ String a EmptyString) = lstrip s +:+ String a EmptyString.
Proof.
  intros Ha. induction s as [|b s IH].
  - change ((if is_space a then EmptyString else String a EmptyString) = String a EmptyString). by rewrite Ha.
  - change (String b s +:+ String a EmptyString) with (String b (s +:+ String a EmptyString)).
    cbn [lstrip]. by destruct (is_space b).
Qed.

Lemma head_kept_rev_lstrip_rev s : head_kept s → head_kept (rev_string (lstrip (rev_string s))).
Proof.
  destruct s as [|a s]; [done|]. cbn [head_kept rev_string]. intros Ha.
  rewrite lstrip_snoc, rev_string_app by done. done.
Qed.

Lemma strip_idemp s : strip (strip s) = strip s.
Proof.
  unfold strip at 1. rewrite (lstrip_fixed (strip s)) by apply head_kept_rev_lstrip_rev, lstrip_head_kept.
  unfold strip. by rewrite rev_string_involutive, lstrip_idemp.
Qed.

Lemma strip_stripped v : strip (stripped v) = stripped v.
Proof. unfold stripped. destruct (truthy v); [apply strip_idemp|done]. Qed.

Lemma stripped_Str_fixed s : strip s = s → stripped (Str s) = s.
Proof. unfold stripped, truthy, to_str. intros Hs. by case_bool_decide; [|destruct s]. Qed.



Example strip_example : strip "  a b "%string = "a b"%string.
Proof. reflexivity. Qed.
