(* ===== verification/LedgerCodec.v ===== *)
(** The ledger's wire formats (ingest_ledger.py, store.py): the framed digest
    preimage of an identity tuple, the view-vector codec and the prefix chains.

    A Python [str] is represented by its UTF-8 bytes, so [str.encode("utf-8")]
    is [str_bytes].  The keyed BLAKE2b of [hashlib] is the section variable
    [blake2b]. *)

From S2P Require Import Prelude.
From stdpp Require Import options.

(** ** Errors of the ledger *)

Inductive ledger_error :=
| LedgerError
| BoundsOrderError  (* the LedgerError of bounds that decrease in view order *)
| LedgerFormatError
| LedgerTransactionError
| IntegrityError
| OverflowError.

#[global] Instance ledger_error_eq_dec : EqDecision ledger_error.
Proof. solve_decision. Defined.

Definition ORDINAL_STEP : Z := Z.shiftl 1 20.
Definition MIN_GAP : Z := Z.shiftl 1 10.
Definition MAX_ORDINAL : Z := Z.shiftl 1 63 - 1.

(** ** Digest preimages *)

Definition str_bytes (s : string) : bytes := String.list_byte_of_string s.

(** A part of [ledger_digest]: [None], [bytes], [str] or [int]. *)
Inductive part :=
| PNone
| PBytes (b : bytes)
| PStr (s : string)
| PInt (z : Z).

Definition tag_n : byte := Byte.x6e.
Definition tag_b : byte := Byte.x62.
Definition tag_s : byte := Byte.x73.
Definition tag_i : byte := Byte.x69.

Definition fits_i64 (z : Z) : bool := bool_decide (- 2 ^ 63 <= z < 2 ^ 63).

(** [int.to_bytes(8, "big", signed=True)] *)
Definition i64_bytes (z : Z) : result ledger_error bytes :=
  raise_if (negb (fits_i64 z)) OverflowError (Ok (be_bytes 8 (z mod 2 ^ 64))).

Definition i64_value (bs : bytes) : Z :=
  let v := be_value bs in if bool_decide (v < 2 ^ 63) then v else v - 2 ^ 64.

Definition part_frame (p : part) : result ledger_error (byte * bytes) :=
  match p with
  | PNone => Ok (tag_n, [])
  | PBytes b => Ok (tag_b, b)
  | PStr s => Ok (tag_s, str_bytes s)
  | PInt z => let! b := i64_bytes z in Ok (tag_i, b)
  end.

(** [len(payload).to_bytes(8, "big")] raises when the length does not fit. *)
Definition part_bytes (p : part) : result ledger_error bytes :=
  let! (tag, payload) := part_frame p in
  let n := Z.of_nat (length payload) in
  raise_if (bool_decide (2 ^ 64 <= n)) OverflowError
    (Ok (tag :: be_bytes 8 n ++ payload)).

Definition ledger_preimage (ps : list part) : result ledger_error bytes :=
  let! frames := rmap part_bytes ps in Ok (concat frames).

Section digest.
  Variable blake2b : bytes → bytes → bytes.

  (** The bytes fed to [digest.update], hashed under the salt as key. *)
Definition ledger_digest (salt : bytes) (ps : list part) : result ledger_error bytes :=
    let! pre := ledger_preimage ps in Ok (blake2b salt pre).

End digest.

(** ** View vectors *)

Record ViewEntry := {
  identity_digest : bytes;
  stamp_digest : option bytes;
  uidset_digest : option bytes;
  ref : option Z;
  is_descriptor : bool
}.

#[global] Instance ViewEntry_eq_dec : EqDecision ViewEntry.
Proof. solve_decision. Defined.

Definition zeros (n : nat) : bytes := replicate n Byte.x00.

Definition is_16 (b : bytes) : bool := bool_decide (length b = 16%nat).
Definition opt_16 (o : option bytes) : bool := if o is Some b then is_16 b else true.

Definition entry_flags (e : ViewEntry) : Z :=
  Z.lor (Z.lor (Z.lor (Z.b2z (bool_decide (is_Some (stamp_digest e))))
                      (Z.shiftl (Z.b2z (bool_decide (is_Some (uidset_digest e)))) 1))
               (Z.shiftl (Z.b2z (is_descriptor e)) 2))
        (Z.shiftl (Z.b2z (bool_decide (ref e = None))) 3).

(** [struct.Struct(">16sB16s16sq")] *)
Definition ENTRY_SIZE : nat := 57.

Definition encode_entry (e : ViewEntry) : result ledger_error bytes :=
  raise_if (negb (is_16 (identity_digest e) && opt_16 (stamp_digest e)
                  && opt_16 (uidset_digest e))) LedgerFormatError
  (raise_if (bool_decide (ref e = None) && is_descriptor e) LedgerFormatError
  (match i64_bytes (default 0 (ref e)) with
   | Err _ => Err LedgerFormatError
   | Ok q =>
       Ok (identity_digest e ++ [byte_of_Z (entry_flags e)]
           ++ default (zeros 16) (stamp_digest e)
           ++ default (zeros 16) (uidset_digest e) ++ q)
   end)).

Definition encode_entries (es : list ViewEntry) : result ledger_error bytes :=
  let! bs := rmap encode_entry es in Ok (Byte.x01 :: concat bs).

(** One record of [_ENTRY.iter_unpack] and the checks of the loop body. *)
Definition decode_entry (b : bytes) : result ledger_error ViewEntry :=
  let identity := take 16 b in
  let flags := byte_to_Z (default Byte.x00 (b !! 16%nat)) in
  let stamp := take 16 (drop 17 b) in
  let uidset := take 16 (drop 33 b) in
  let r := i64_value (drop 49 b) in
  let f k := Z.testbit flags k in
  raise_if (bool_decide (Z.land flags (Z.lnot 15) ≠ 0)
            || (f 3 && (bool_decide (r ≠ 0) || f 2))
            || (negb (f 0) && bool_decide (stamp ≠ zeros 16))
            || (negb (f 1) && bool_decide (uidset ≠ zeros 16))) LedgerFormatError
  (Ok {| identity_digest := identity;
         stamp_digest := if f 0 then Some stamp else None;
         uidset_digest := if f 1 then Some uidset else None;
         ref := if f 3 then None else Some r;
         is_descriptor := f 2 |}).

(** Consecutive chunks of [n > 0] bytes of a blob of [k * n] bytes. *)
Fixpoint chunks (k n : nat) (b : bytes) : list bytes :=
  match k with
  | O => []
  | S k => take n b :: chunks k n (drop n b)
  end.

Definition decode_entries (blob : bytes) : result ledger_error (list ViewEntry) :=
  match blob with
  | [] => Err LedgerFormatError
  | v :: body =>
      raise_if (bool_decide (v ≠ Byte.x01)
                || bool_decide (Nat.modulo (length body) ENTRY_SIZE ≠ 0%nat)) LedgerFormatError
      (rmap decode_entry (chunks (Nat.div (length body) ENTRY_SIZE) ENTRY_SIZE body))
  end.

(** ** Prefix chains *)

Section chain.
  Variable blake2b : bytes → bytes → bytes.

Fixpoint chain_from (salt : bytes) (previous : part) (es : list ViewEntry)
      : result ledger_error bytes :=
    match es with
    | [] => Ok []
    | e :: es =>
        let! d := ledger_digest blake2b salt
          [previous; PBytes (identity_digest e); PBytes (default [] (stamp_digest e));
           PBytes (default [] (uidset_digest e))] in
        let! rest := chain_from salt (PBytes d) es in
        Ok (d ++ rest)
    end.

Definition prefix_chain (salt : bytes) (es : list ViewEntry) : result ledger_error bytes :=
    chain_from salt (PStr "chain") es.
End chain.

(** The loop of [common_prefix_len] over offsets [0, 16, ..] below the shorter
    length, with its early return. *)
Fixpoint common_from (n : nat) (a b : bytes) : nat :=
  match n with
  | O => 0
  | S n => if bool_decide (take 16 a = take 16 b)
           then S (common_from n (drop 16 a) (drop 16 b)) else 0
  end%nat.

Definition common_prefix_len (a b : bytes) : result ledger_error nat :=
  raise_if (bool_decide (Nat.modulo (length a) 16 ≠ 0%nat)
            || bool_decide (Nat.modulo (length b) 16 ≠ 0%nat)) LedgerFormatError
  (Ok (common_from (Nat.div (Nat.min (length a) (length b)) 16) a b)).

(** ** Round trip of the view-vector codec *)

Lemma i64_bytes_Ok z b : i64_bytes z = Ok b → length b = 8%nat ∧ i64_value b = z.
Proof.
  unfold i64_bytes. intros H; inv_ok. rewrite length_be_bytes. split; [done|].
  unfold fits_i64 in *. case_bool_decide; [|done].
  unfold i64_value. rewrite be_value_bytes. change (256 ^ Z.of_nat 8) with (2 ^ 64).
  rewrite Z.mod_mod by lia.
  destruct (decide (0 <= z)).
  - rewrite Z.mod_small by lia. rewrite bool_decide_eq_true_2; lia.
  - assert (z mod 2 ^ 64 = z + 2 ^ 64) as ->.
    { rewrite <-(Z.mod_add z 1) by lia. rewrite Z.mod_small; lia. }
    rewrite bool_decide_eq_false_2; lia.
Qed.

Lemma i64_bytes_value b : length b = 8%nat → i64_bytes (i64_value b) = Ok b.
Proof.
  intros Hb. pose proof (be_value_range b) as Hr. rewrite Hb in Hr.
  change (256 ^ Z.of_nat 8) with (2 ^ 64) in Hr.
  unfold i64_bytes, fits_i64, i64_value.
  assert ((if bool_decide (be_value b < 2 ^ 63) then be_value b else be_value b - 2 ^ 64) mod 2 ^ 64
          = be_value b) as Hm.
  { case_bool_decide; [by rewrite Z.mod_small by lia|].
    rewrite <-(Z.mod_add _ 1) by lia. rewrite Z.mod_small; lia. }
  rewrite Hm, bool_decide_eq_true_2 by (case_bool_decide; lia). cbn [raise_if negb andb orb].
  rewrite <-Hb. by rewrite be_bytes_value.
Qed.

Lemma is_16_spec b : is_16 b = true ↔ length b = 16%nat.
Proof. unfold is_16. apply bool_decide_eq_true. Qed.

Lemma drop_app_len {A} (l k : list A) n : length l = n → drop n (l ++ k) = k.
Proof. intros <-. apply drop_app_length. Qed.

Lemma take_app_len {A} (l k : list A) n : length l = n → take n (l ++ k) = l.
Proof. intros <-. apply take_app_length. Qed.

Lemma encode_entry_length e b : encode_entry e = Ok b → length b = ENTRY_SIZE.
Proof.
  unfold encode_entry. intros H. inv_ok.
  destruct (i64_bytes _) as [q|] eqn:Hq; inv_ok.
  apply i64_bytes_Ok in Hq as [Hq _].
  rewrite !length_app, Hq. simpl.
  apply negb_false_iff, andb_prop in Hr as [[Hi Hs]%andb_prop Hu].
  apply is_16_spec in Hi. rewrite Hi.
  destruct (stamp_digest e), (uidset_digest e); simpl in *;
    repeat match goal with H : is_16 _ = true |- _ => apply is_16_spec in H; rewrite H end; done.
Qed.

Lemma chunks_concat (bs : list bytes) n :
  Forall (λ b, length b = n) bs → chunks (length bs) n (concat bs) = bs.
Proof.
  induction 1 as [|b bs Hb _ IH]; simpl; [done|].
  by rewrite take_app_len, drop_app_len, IH.
Qed.

Lemma chunks_spec k n (b : bytes) :
  length b = (k * n)%nat →
  concat (chunks k n b) = b ∧ length (chunks k n b) = k ∧ Forall (λ c, length c = n) (chunks k n b).
Proof.
  revert b; induction k as [|k IH]; intros b Hb; simpl.
  - split_and!; [by destruct b| done | constructor].
  - destruct (IH (drop n b)) as (Hc & Hl & HF); [rewrite length_drop; simpl in Hb; lia|].
    split_and!.
    + by rewrite Hc, take_drop.
    + by rewrite Hl.
    + constructor; [|done]. rewrite length_take. simpl in Hb. lia.
Qed.

(** The flag byte carries exactly the four bits. *)
Definition flag_byte (a b c d : bool) : byte :=
  byte_of_Z (Z.lor (Z.lor (Z.lor (Z.b2z a) (Z.shiftl (Z.b2z b) 1)) (Z.shiftl (Z.b2z c) 2))
                   (Z.shiftl (Z.b2z d) 3)).

Lemma flag_byte_bits a b c d :
  let v := byte_to_Z (flag_byte a b c d) in
  Z.testbit v 0 = a ∧ Z.testbit v 1 = b ∧ Z.testbit v 2 = c ∧ Z.testbit v 3 = d
  ∧ Z.land v (Z.lnot 15) = 0.
Proof. destruct a, b, c, d; vm_compute; done. Qed.

Lemma flag_byte_inv (x : byte) :
  Z.land (byte_to_Z x) (Z.lnot 15) = 0 →
  x = flag_byte (Z.testbit (byte_to_Z x) 0) (Z.testbit (byte_to_Z x) 1)
                (Z.testbit (byte_to_Z x) 2) (Z.testbit (byte_to_Z x) 3).
Proof. destruct x; vm_compute; first [done | discriminate]. Qed.

(** The fields of a packed record read back. *)
Lemma record_fields (i s u q : bytes) (x : byte) :
  length i = 16%nat → length s = 16%nat → length u = 16%nat →
  let b := i ++ [x] ++ s ++ u ++ q in
  take 16 b = i ∧ b !! 16%nat = Some x ∧ take 16 (drop 17 b) = s
  ∧ take 16 (drop 33 b) = u ∧ drop 49 b = q.
Proof.
  intros Hi Hs Hu b. unfold b. split_and!.
  - by apply take_app_len.
  - rewrite lookup_app_r by lia. by rewrite Hi.
  - rewrite (assoc_L (++)), drop_app_len by (rewrite length_app, Hi; done). by apply take_app_len.
  - rewrite !(assoc_L (++)), <-(assoc_L (++) _ u q).
    rewrite drop_app_len by (rewrite !length_app, Hi, Hs; done). by apply take_app_len.
  - rewrite !(assoc_L (++)). apply drop_app_len. rewrite !length_app, Hi, Hs, Hu. done.
Qed.

Lemma decode_encode_entry e b : encode_entry e = Ok b → decode_entry b = Ok e.
Proof.
  unfold encode_entry. intros H. inv_ok.
  destruct (i64_bytes _) as [q|] eqn:Hq; inv_ok.
  apply i64_bytes_Ok in Hq as [Hq Hv].
  apply negb_false_iff, andb_prop in Hr as [[Hi Hs]%andb_prop Hu].
  apply is_16_spec in Hi.
  destruct (record_fields (identity_digest e) (default (zeros 16) (stamp_digest e))
    (default (zeros 16) (uidset_digest e)) q (byte_of_Z (entry_flags e)))
    as (E1 & E2 & E3 & E4 & E5); [done| | |].
  { destruct (stamp_digest e); simpl in *; [by apply is_16_spec|done]. }
  { destruct (uidset_digest e); simpl in *; [by apply is_16_spec|done]. }
  unfold decode_entry. rewrite E1, E2, E3, E4, E5, Hv. cbn [default from_option id].
  destruct (flag_byte_bits (bool_decide (is_Some (stamp_digest e)))
    (bool_decide (is_Some (uidset_digest e))) (is_descriptor e) (bool_decide (ref e = None)))
    as (F0 & F1 & F2 & F3 & F4).
  change (byte_of_Z (entry_flags e)) with (flag_byte (bool_decide (is_Some (stamp_digest e)))
    (bool_decide (is_Some (uidset_digest e))) (is_descriptor e) (bool_decide (ref e = None))).
  rewrite F0, F1, F2, F3, F4. clear -Hr0.
  destruct e as [i s u r d]; destruct s, u, r, d; simpl in *; by repeat case_bool_decide.
Qed.

Lemma record_split (b : bytes) :
  length b = ENTRY_SIZE →
  ∃ i x s u q, b = i ++ [x] ++ s ++ u ++ q ∧ length i = 16%nat ∧ length s = 16%nat
               ∧ length u = 16%nat ∧ length q = 8%nat.
Proof.
  unfold ENTRY_SIZE. intros Hb.
  destruct (lookup_lt_is_Some_2 b 16%nat) as [x Hx]; [lia|].
  exists (take 16 b), x, (take 16 (drop 17 b)), (take 16 (drop 33 b)), (drop 49 b).
  rewrite !length_take, !length_drop, Hb. repeat split; [|lia..].
  rewrite <-(take_drop_middle b 16%nat x Hx) at 1. f_equal. simpl. f_equal.
  rewrite <-(take_drop 16 (drop 17 b)) at 1. f_equal. rewrite drop_drop.
  rewrite <-(take_drop 16 (drop (17 + 16) b)) at 1. by rewrite drop_drop.
Qed.

Lemma bool_decide_if_Some {A} (f : bool) (x : A) :
  bool_decide (is_Some (if f then Some x else None)) = f.
Proof. destruct f; [apply bool_decide_eq_true_2; eauto|apply bool_decide_eq_false_2; by intros []]. Qed.

Lemma opt_16_if (f : bool) b : length b = 16%nat → opt_16 (if f then Some b else None) = true.
Proof. intros. destruct f; [by apply is_16_spec|done]. Qed.

(** An absent field is packed as its default, and the decoder insists on it. *)
Lemma default_if {A} `{EqDecision A} (f : bool) (x d : A) :
  negb f && bool_decide (x ≠ d) = false → default d (if f then Some x else None) = x.
Proof. destruct f; simpl; [done|]. intros H%bool_decide_eq_false. symmetry. by apply dec_stable. Qed.

Lemma encode_decode_entry b e :
  length b = ENTRY_SIZE → decode_entry b = Ok e → encode_entry e = Ok b.
Proof.
  intros Hb H. unfold decode_entry in H. inv_ok.
  apply orb_false_elim in Hr as [[[Hf H3]%orb_false_elim H0]%orb_false_elim H1].
  destruct (record_split b Hb) as (i & x & s & u & q & -> & Hi & Hs & Hu & Hq).
  destruct (record_fields i s u q x Hi Hs Hu) as (E1 & E2 & E3 & E4 & E5).
  rewrite E1, E2, E3, E4, E5 in *; cbn [default from_option id] in *.
  apply bool_decide_eq_false, dec_stable, flag_byte_inv in Hf as Hland.
  unfold encode_entry; cbn [identity_digest stamp_digest uidset_digest ref is_descriptor].
  assert (is_16 i = true) as -> by by apply is_16_spec.
  rewrite !opt_16_if by done. cbn [raise_if negb andb orb].
  rewrite !default_if by done. unfold entry_flags; cbn [identity_digest stamp_digest uidset_digest ref is_descriptor]. rewrite !bool_decide_if_Some.
  revert Hland H3.
  set (f0 := Z.testbit _ 0). set (f1 := Z.testbit _ 1).
  set (f2 := Z.testbit _ 2). set (f3 := Z.testbit _ 3). intros Hland H3.
  assert (default 0 (if f3 then None else Some (i64_value q)) = i64_value q) as ->.
  { destruct f3; [|done]. apply orb_false_elim in H3 as [H3%bool_decide_eq_false _].
    symmetry. by apply dec_stable. }
  rewrite i64_bytes_value by done.
  assert (bool_decide ((if f3 then None else Some (i64_value q)) = None) = f3) as ->
    by (destruct f3; [by apply bool_decide_eq_true|by apply bool_decide_eq_false]).
  assert (f3 && f2 = false) as ->.
  { destruct f3, f2; try done. by rewrite orb_true_r in H3. }
  cbn [raise_if negb andb orb]. do 2 f_equal. by rewrite Hland at 1.
Qed.

Lemma encode_entries_body es b :
  encode_entries es = Ok b ↔ ∃ rs, rmap encode_entry es = Ok rs ∧ b = Byte.x01 :: concat rs.
Proof.
  unfold encode_entries. rewrite rbind_Ok. split; [intros (rs & ? & ?%Ok_inj)|intros (rs & ? & ->)]; eauto.
Qed.

Lemma rmap_length {E A B} (f : A → result E B) l ys : rmap f l = Ok ys → length ys = length l.
Proof. intros H%rmap_Ok%Forall2_length. done. Qed.

Lemma length_concat_const (bs : list bytes) n :
  Forall (λ b, length b = n) bs → length (concat bs) = (length bs * n)%nat.
Proof. induction 1; simpl; [done|]. rewrite length_app. lia. Qed.

Lemma encode_records es rs :
  rmap encode_entry es = Ok rs →
  Forall (λ b, length b = ENTRY_SIZE) rs ∧ length rs = length es.
Proof.
  intros H. split; [|by eapply rmap_length]. apply rmap_Ok in H.
  induction H; constructor; eauto using encode_entry_length.
Qed.

Lemma decode_encoded es b :
  encode_entries es = Ok b → decode_entries b = Ok es.
Proof.
  intros (rs & Hrs & ->)%encode_entries_body.
  destruct (encode_records es rs Hrs) as [HF Hl].
  unfold decode_entries. rewrite (length_concat_const rs ENTRY_SIZE HF).
  rewrite bool_decide_eq_false_2 by (intros H; by apply H).
  rewrite bool_decide_eq_false_2 by (rewrite Nat.Div0.mod_mul; lia). cbn [raise_if negb andb orb].
  rewrite Nat.div_mul by done. rewrite chunks_concat by done.
  apply rmap_Ok. apply rmap_Ok in Hrs. apply Forall2_flip.
  eapply Forall2_impl; [done|]. intros e r. apply decode_encode_entry.
Qed.

(** Decoding what [encode_entries] wrote gives back the view vector,
    and the blob is one version byte and 57 bytes per entry. *)
Theorem decode_encode_entries es b :
  encode_entries es = Ok b → decode_entries b = Ok es ∧ length b = S (ENTRY_SIZE * length es).
Proof.
  intros H. split; [by apply decode_encoded|]. apply encode_entries_body in H as (rs & Hrs & ->).
  destruct (encode_records es rs Hrs) as [HF <-]. cbn [length].
  rewrite (length_concat_const rs ENTRY_SIZE HF). lia.
Qed.

(** The format is canonical: a blob [decode_entries] accepts is the one
    [encode_entries] writes for the decoded vector. *)
Theorem encode_decode_entries b es :
  decode_entries b = Ok es → encode_entries es = Ok b.
Proof.
  unfold decode_entries. destruct b as [|v body]; [done|]. intros H. inv_ok.
  apply orb_false_elim in Hr as [Hv%bool_decide_eq_false%dec_stable Hm%bool_decide_eq_false].
  apply dec_stable in Hm. subst v.
  destruct (chunks_spec (Nat.div (length body) ENTRY_SIZE) ENTRY_SIZE body) as (Hc & _ & HF).
  { pose proof (Nat.div_mod_eq (length body) ENTRY_SIZE). lia. }
  apply encode_entries_body. eexists; split; [|by rewrite Hc].
  apply rmap_Ok in H. apply rmap_Ok. revert HF. clear -H.
  induction H; intros HF; [constructor|]. inversion HF; subst.
  constructor; eauto using encode_decode_entry.
Qed.

(** ** The preimage framing is unambiguous *)

#[global] Instance str_bytes_inj : Inj (=) (=) str_bytes.
Proof.
  intros x y H. unfold str_bytes in H.
  by rewrite <-(String.string_of_list_byte_of_string x), H, String.string_of_list_byte_of_string.
Qed.

Lemma i64_bytes_inj x y b : i64_bytes x = Ok b → i64_bytes y = Ok b → x = y.
Proof. intros [_ <-]%i64_bytes_Ok [_ <-]%i64_bytes_Ok. done. Qed.

Lemma part_frame_inj p q f : part_frame p = Ok f → part_frame q = Ok f → p = q.
Proof.
  unfold part_frame, tag_n, tag_b, tag_s, tag_i.
  destruct p, q; intros H1 H2; inv_ok; try congruence.
  - match goal with H : (_, _) = (_, _) |- _ => injection H as H%(inj str_bytes) end. congruence.
  - match goal with H : (_, _) = (_, _) |- _ => injection H as -> end.
    f_equal. by eapply i64_bytes_inj.
Qed.

Lemma be_bytes_inj n x y :
  0 <= x < 256 ^ Z.of_nat n → 0 <= y < 256 ^ Z.of_nat n → be_bytes n x = be_bytes n y → x = y.
Proof.
  intros Hx Hy H%(f_equal be_value). rewrite !be_value_bytes in H.
  by rewrite !Z.mod_small in H.
Qed.

(** A part's bytes are self-delimiting: no part's bytes followed by anything
    are another part's bytes followed by anything else. *)
Lemma part_bytes_delim p q bp bq rp rq :
  part_bytes p = Ok bp → part_bytes q = Ok bq → bp ++ rp = bq ++ rq → p = q ∧ rp = rq.
Proof.
  unfold part_bytes. intros Hp Hq H.
  inv_ok. destruct v as [tp pp], v0 as [tq pq]. inv_ok.
  apply bool_decide_eq_false in Hr, Hr0.
  rewrite <-!app_comm_cons, <-!(assoc_L (++)) in H. apply (inj2 (::)) in H as [-> H].
  apply app_inj_1 in H as [Hlen H]; [|by rewrite !length_be_bytes].
  apply be_bytes_inj in Hlen; [|change (256 ^ Z.of_nat 8) with (2 ^ 64); lia..].
  apply app_inj_1 in H as [-> ->]; [|lia].
  split; [|done]. by eapply part_frame_inj.
Qed.

Lemma part_bytes_nonempty p b : part_bytes p = Ok b → b ≠ [].
Proof. unfold part_bytes. intros H. inv_ok. destruct v. inv_ok. done. Qed.

(** Two identity tuples with the same digest preimage are the same tuple. *)
Theorem ledger_preimage_injective ps qs b :
  ledger_preimage ps = Ok b → ledger_preimage qs = Ok b → ps = qs.
Proof.
  intros (vp & Hp & <-%Ok_inj)%rbind_Ok (vq & Hq & E%Ok_inj)%rbind_Ok.
  revert vp qs vq Hp Hq E. induction ps as [|p ps IH]; intros vp [|q qs] vq Hp Hq E;
    simpl in Hp, Hq; inv_ok; [done|..]; simpl in E.
  - apply part_bytes_nonempty in Hb. by destruct v.
  - apply part_bytes_nonempty in Hb. by destruct v.
  - destruct (part_bytes_delim q p _ _ _ _ Hb Hb1 E) as [-> E2]. f_equal. by eapply IH.
Qed.

(** ** Prefix chains compare vectors entry by entry *)

(** What a chain link commits to besides its predecessor: an absent digest and
    an empty one are not told apart. *)
Definition entry_key (e : ViewEntry) : bytes * bytes * bytes :=
  (identity_digest e, default [] (stamp_digest e), default [] (uidset_digest e)).

(** The reference: the number of leading entries with equal keys. *)
Fixpoint agree (xs ys : list ViewEntry) : nat :=
  match xs, ys with
  | x :: xs, y :: ys => if bool_decide (entry_key x = entry_key y) then S (agree xs ys) else 0%nat
  | _, _ => 0%nat
  end.

(** [hashlib.blake2b(digest_size=16)] returns 16 bytes, and the two vectors at
    hand meet no collision: a digest computed for one vector equals a digest
    computed for the other only when the digested bytes are equal. *)
Section chain_spec.
  Variable blake2b : bytes → bytes → bytes.
  Hypothesis blake2b_16 : ∀ k m, length (blake2b k m) = 16%nat.

Definition link (previous : part) (e : ViewEntry) : list part :=
    [previous; PBytes (identity_digest e); PBytes (default [] (stamp_digest e));
     PBytes (default [] (uidset_digest e))].

  (** The preimages of the links of a chain. *)
Fixpoint link_preimages (salt : bytes) (previous : part) (es : list ViewEntry) : list bytes :=
    match es with
    | [] => []
    | e :: es =>
        match ledger_preimage (link previous e) with
        | Ok m => m :: link_preimages salt (PBytes (blake2b salt m)) es
        | Err _ => []
        end
    end.

Definition no_collision (salt : bytes) (ms ns : list bytes) : Prop :=
    ∀ m n, m ∈ ms → n ∈ ns → blake2b salt m = blake2b salt n → m = n.

Lemma chain_from_length salt previous es c :
    chain_from blake2b salt previous es = Ok c → length c = (length es * 16)%nat.
  Proof using blake2b_16.
    revert previous c; induction es as [|e es IH]; intros previous c H; simpl in H; inv_ok; [done|].
    unfold ledger_digest in Hb. inv_ok.
    rewrite length_app, blake2b_16. simpl. by erewrite IH.
  Qed.

Lemma chain_from_cons salt previous e es c :
    chain_from blake2b salt previous (e :: es) = Ok c →
    ∃ m c', ledger_preimage (link previous e) = Ok m
            ∧ chain_from blake2b salt (PBytes (blake2b salt m)) es = Ok c'
            ∧ c = blake2b salt m ++ c'.
  Proof. simpl. intros H. inv_ok. unfold ledger_digest in Hb. inv_ok. eauto. Qed.

Lemma common_from_agree salt previous xs ys cx cy n :
    no_collision salt (link_preimages salt previous xs) (link_preimages salt previous ys) →
    chain_from blake2b salt previous xs = Ok cx → chain_from blake2b salt previous ys = Ok cy →
    n = Nat.min (length xs) (length ys) → common_from n cx cy = agree xs ys.
  Proof using blake2b_16.
    revert previous ys cx cy n.
    induction xs as [|x xs IH]; intros previous [|y ys] cx cy n Hnc Hx Hy ->; try done.
    apply chain_from_cons in Hx as (mx & cx' & Hmx & Hx & ->).
    apply chain_from_cons in Hy as (my & cy' & Hmy & Hy & ->).
    simpl in Hnc. rewrite Hmx, Hmy in Hnc. simpl.
    rewrite !take_app_len, !drop_app_len by done.
    destruct (decide (mx = my)) as [->|Hne].
    - pose proof (ledger_preimage_injective _ _ _ Hmx Hmy) as [= E1 E2 E3].
      rewrite !bool_decide_eq_true_2 by (unfold entry_key; congruence). f_equal.
      eapply IH; [|done..]. intros a b Ha Hb. apply Hnc; by right.
    - rewrite bool_decide_eq_false_2 by (intros E; by apply Hne, Hnc; [left|left|]).
      rewrite bool_decide_eq_false_2; [done|]. intros E. apply Hne.
      unfold entry_key in E. injection E as E1 E2 E3.
      assert (link previous x = link previous y) as El by (unfold link; congruence).
      rewrite El in Hmx. congruence.
  Qed.

  (** On two prefix chains [common_prefix_len] counts the leading entries with
      equal identity, stamp and uid-set digests. *)
Theorem common_prefix_len_agree salt xs ys cx cy :
    no_collision salt (link_preimages salt (PStr "chain") xs) (link_preimages salt (PStr "chain") ys) →
    prefix_chain blake2b salt xs = Ok cx → prefix_chain blake2b salt ys = Ok cy →
    common_prefix_len cx cy = Ok (agree xs ys).
  Proof using blake2b_16.
    intros Hnc Hx Hy. unfold common_prefix_len.
    pose proof (chain_from_length _ _ _ _ Hx) as Lx. pose proof (chain_from_length _ _ _ _ Hy) as Ly.
    rewrite !bool_decide_eq_false_2 by (rewrite ?Lx, ?Ly, Nat.Div0.mod_mul; lia).
    cbn [raise_if orb]. f_equal. eapply common_from_agree; [done..|].
    rewrite Lx, Ly, Nat.mul_min_distr_r. by rewrite Nat.div_mul.
  Qed.
End chain_spec.

(** ** The theorems on concrete vectors *)

Definition sample_entry : ViewEntry :=
  {| identity_digest := replicate 16 Byte.x2a; stamp_digest := Some (replicate 16 Byte.x01);
     uidset_digest := None; ref := Some (-7); is_descriptor := true |}.

Definition sample_blob : bytes :=
  match encode_entries [sample_entry] with Ok b => b | Err _ => [] end.

Lemma decode_encode_entries_witness : decode_entries sample_blob = Ok [sample_entry].
Proof. refine (proj1 (decode_encode_entries [sample_entry] sample_blob _)). vm_compute. reflexivity. Defined.

Lemma encode_decode_entries_witness : encode_entries [sample_entry] = Ok sample_blob.
Proof. apply (encode_decode_entries sample_blob [sample_entry]). vm_compute. reflexivity. Defined.

Lemma ledger_preimage_injective_witness :
  [PStr "a"; PInt (-1)] = [PStr "a"; PInt (-1)].
Proof.
  refine (ledger_preimage_injective _ _
    (match ledger_preimage [PStr "a"; PInt (-1)] with Ok b => b | Err _ => [] end) _ _);
    vm_compute; reflexivity.
Defined.

(** A concrete 16-byte hash: the message modulo a prime. *)
Definition toy_hash (salt m : bytes) : bytes := be_bytes 16 (be_value m mod (2 ^ 128 - 159)).

(** [no_collision] as a test. *)
Definition no_collision_b (h : bytes → bytes → bytes) (salt : bytes) (ms ns : list bytes) : bool :=
  forallb (λ m, forallb (λ n, bool_decide (h salt m ≠ h salt n) || bool_decide (m = n)) ns) ms.

Lemma no_collision_b_sound h salt ms ns :
  no_collision_b h salt ms ns = true → no_collision h salt ms ns.
Proof.
  unfold no_collision_b. rewrite forallb_forall. intros H m n Hm Hn E.
  apply list_elem_of_In in Hm, Hn. specialize (H m Hm). rewrite forallb_forall in H.
  specialize (H n Hn). apply orb_prop in H as [H%bool_decide_eq_true|H%bool_decide_eq_true]; done.
Qed.

Lemma common_prefix_len_agree_witness :
  ∃ cx cy, prefix_chain toy_hash [] [sample_entry] = Ok cx
           ∧ prefix_chain toy_hash [] [sample_entry; sample_entry] = Ok cy
           ∧ common_prefix_len cx cy = Ok 1%nat.
Proof.
  eexists _, _. split; [vm_compute; reflexivity|]. split; [vm_compute; reflexivity|].
  refine (common_prefix_len_agree toy_hash (λ k m, length_be_bytes 16 _) []
    [sample_entry] [sample_entry; sample_entry] _ _ _ _ _); [|vm_compute; reflexivity..].
  apply no_collision_b_sound. vm_compute. reflexivity.
Defined.
