(* ===== verification/LedgerOrdinals.v ===== *)
(** Sparse ordinals (ingest_ledger.py): [plan_ordinals] chooses labels for new
    rows between existing ones and re-spaces the smallest window of labels when
    a gap is full.  A placement is [(left, right, supersedes)]; groups are the
    placements that share a gap; positions are the (possibly moved) labels of
    the existing rows. *)

From S2P Require Import Prelude LedgerCodec.
From stdpp Require Import options.

Record Placement := {
  left : option Z;
  right : option Z;
  supersedes : option Z
}.

(** [bisect_left] on a sorted list: the first index whose element is not below. *)
Fixpoint bisect_left (l : list Z) (x : Z) : nat :=
  match l with
  | [] => 0%nat
  | y :: l => if bool_decide (y < x) then S (bisect_left l x) else 0%nat
  end.

(** [sorted(set(existing))] *)
Definition sorted_set (l : list Z) : list Z := merge_sort Z.le (remove_dups l).

Definition valid_ordinal (v : Z) : bool := bool_decide (0 < v <= MAX_ORDINAL).

(** ** Grouping the placements by gap *)

Record group_state := {
  previous_left : Z;
  previous_right : Z;
  previous_gap : nat;
  gaps : list nat  (* the gap of each placement so far, in placement order *)
}.

Definition known (original : list Z) (o : option Z) : bool :=
  if o is Some v then bool_decide (v ∈ original) else true.

(** One iteration of the first loop: the checks and the placement's gap. *)
Definition group_step (original : list Z) (s : group_state) (p : Placement)
    : result ledger_error group_state :=
  raise_if (negb (known original (left p) && known original (right p)
                  && known original (supersedes p))) LedgerError
  (let left_bound := default 0 (left p) in
   let right_bound := default (MAX_ORDINAL + 1) (right p) in
   raise_if (bool_decide (right_bound <= left_bound)
             || bool_decide (left_bound < previous_left s)
             || bool_decide (right_bound < previous_right s)) BoundsOrderError
   (let natural : result ledger_error nat :=
      raise_if (match left p, right p with
                | Some l, Some r => bool_decide (r <= l)
                | _, _ => false
                end) LedgerError
      (Ok (match right p with
           | None => length original
           | Some r => bisect_left original r
           end)) in
    let! gap :=
      match supersedes p with
      | Some t => if bool_decide (left_bound <= t < right_bound)
                  then Ok (S (bisect_left original t)) else natural
      | None => natural
      end in
    let g := Nat.max gap (previous_gap s) in
    Ok {| previous_left := left_bound; previous_right := right_bound;
          previous_gap := g; gaps := gaps s ++ [g] |})).

Fixpoint group_all (original : list Z) (s : group_state) (ps : list Placement)
    : result ledger_error group_state :=
  match ps with
  | [] => Ok s
  | p :: ps => let! s := group_step original s p in group_all original s ps
  end.

(** [groups[g]]: the placement indexes of gap [g], in placement order. *)
Definition group (gs : list nat) (g : nat) : list nat :=
  filter (λ i, gs !! i = Some g) (seq 0 (length gs)).

(** ** Placing one gap *)

Record layout := {
  positions : list Z;
  placed : list (option Z)
}.

(** [result[index] = value] *)
Definition set_placed (rs : list (option Z)) (i : nat) (v : Z) : list (option Z) :=
  <[i := Some v]> rs.

(** [positions[gap - 1] if gap else 0] *)
Definition lower_of (pos : list Z) (gap : nat) : Z :=
  match gap with O => 0 | S g => default 0 (pos !! g) end.

(** The in-gap assignment, offsets counted from 1. *)
Fixpoint spread (lower : Z) (upper : option Z) (step n offset : Z) (indexes : list nat)
    (rs : list (option Z)) : list (option Z) :=
  match indexes with
  | [] => rs
  | i :: indexes =>
      let v := match upper with
               | None => lower + step * offset
               | Some u => lower + (u - lower) * offset / (n + 1)
               end in
      spread lower upper step n (offset + 1) indexes (set_placed rs i v)
  end.

(** Rows to label inside the window [start, end_]: movable labels and the
    placements of every gap of the window. *)
Definition window_count (gs : list nat) (start width : nat) : Z :=
  Z.of_nat (width + sum_list_with (λ g, length (group gs g)) (seq start (width + 1)))%nat.

Definition window_step (pos : list Z) (gs : list nat) (start width : nat) : Z :=
  let lower := lower_of pos start in
  let count := window_count gs start width in
  match pos !! (start + width)%nat with
  | Some e => (e - lower) / (count + 1)
  | None => Z.min ORDINAL_STEP ((MAX_ORDINAL - lower) / count)
  end.

(** [range(max(0, gap - width), min(gap, len(positions) - width) + 1)] *)
Definition window_starts (n gap width : nat) : list nat :=
  seq (gap - width) (S (Nat.min gap (n - width)) - (gap - width)).

Definition window_at (pos : list Z) (gs : list nat) (gap width : nat) : option nat :=
  list_find (λ start, MIN_GAP <= window_step pos gs start width)
    (window_starts (length pos) gap width) ≫= λ x, Some x.2.

(** The smallest window wide enough, the leftmost among the smallest. *)
Fixpoint find_window (pos : list Z) (gs : list nat) (gap : nat) (widths : list nat)
    : option (nat * nat) :=
  match widths with
  | [] => None
  | w :: widths =>
      match window_at pos gs gap w with
      | Some start => Some (start, w)
      | None => find_window pos gs gap widths
      end
  end.

(** One gap of the window: its placements, then its right label if movable. *)
Fixpoint label_group (step value : Z) (indexes : list nat) (rs : list (option Z))
    : Z * list (option Z) :=
  match indexes with
  | [] => (value, rs)
  | i :: indexes => label_group step (value + step) indexes (set_placed rs i (value + step))
  end.

Fixpoint respace (gs : list nat) (step value : Z) (end_ : nat) (window : list nat) (s : layout)
    : layout :=
  match window with
  | [] => s
  | g :: window =>
      let '(value, rs) := label_group step value (group gs g) (placed s) in
      if bool_decide (g < end_)%nat
      then respace gs step (value + step) end_ window
             {| positions := <[g := value + step]> (positions s); placed := rs |}
      else respace gs step value end_ window
             {| positions := positions s; placed := rs |}
  end.

Definition place_gap (gs : list nat) (s : layout) (gap : nat) : result ledger_error layout :=
  match group gs gap with
  | [] => Ok s
  | (i0 :: _) as indexes =>
      if bool_decide (is_Some (mjoin (placed s !! i0))) then Ok s
      else
        let pos := positions s in
        let n := Z.of_nat (length indexes) in
        let lower := lower_of pos gap in
        let upper := pos !! gap in
        let step := match upper with
                    | None => ORDINAL_STEP
                    | Some u => (u - lower) / (n + 1)
                    end in
        if bool_decide (0 < step) && bool_decide (lower + step * n <= MAX_ORDINAL)
        then Ok {| positions := pos; placed := spread lower upper step n 1 indexes (placed s) |}
        else
          match find_window pos gs gap (seq 0 (S (length pos))) with
          | None => Err LedgerError
          | Some (start, w) =>
              Ok (respace gs (window_step pos gs start w) (lower_of pos start) (start + w)
                    (seq start (w + 1)) s)
          end
  end.

Fixpoint place_gaps (gs : list nat) (todo : list nat) (s : layout) : result ledger_error layout :=
  match todo with
  | [] => Ok s
  | g :: todo => let! s := place_gap gs s g in place_gaps gs todo s
  end.

(** [{old: new for old, new in zip(original, positions) if old != new}] *)
Definition respaced (original pos : list Z) : list (Z * Z) :=
  filter (λ p, p.1 ≠ p.2) (zip original pos).

Definition plan_ordinals (existing : list Z) (ps : list Placement)
    : result ledger_error (list (option Z) * list (Z * Z)) :=
  let original := sorted_set existing in
  raise_if (negb (forallb valid_ordinal original)) LedgerError
  (let! s := group_all original
       {| previous_left := 0; previous_right := 0; previous_gap := 0; gaps := [] |} ps in
   let! l := place_gaps (gaps s) (seq 0 (S (length original)))
       {| positions := original; placed := replicate (length ps) None |} in
   Ok (placed l, respaced original (positions l))).

Example plan_midpoint :
  plan_ordinals [100; 200] [Build_Placement (Some 100) (Some 200) None]
  = Ok ([Some 150], []).
Proof. vm_compute. reflexivity. Qed.

Example plan_append :
  plan_ordinals [100; 200] [Build_Placement (Some 200) None None; Build_Placement None None None]
  = Err BoundsOrderError.
Proof. vm_compute. reflexivity. Qed.

Example plan_respace :
  plan_ordinals [100; 101; 2 ^ 30] [Build_Placement (Some 100) (Some 101) None]
  = Ok ([Some 357914008], [(101, 715827916)]).
Proof. vm_compute. reflexivity. Qed.

(** ** Well-formed layouts *)

Lemma MIN_GAP_pos : 0 < MIN_GAP. Proof. done. Qed.

(** Labels increase strictly from above zero to the signed 64-bit maximum. *)
Definition wf_positions (pos : list Z) : Prop :=
  ∀ i u, pos !! i = Some u → lower_of pos i < u ∧ u <= MAX_ORDINAL.

(** A label strictly inside gap [g]. *)
Definition between (pos : list Z) (g : nat) (v : Z) : Prop :=
  lower_of pos g < v ∧ v <= MAX_ORDINAL ∧ ∀ u, pos !! g = Some u → v < u.

Definition ordered_in (gs : list nat) (rs : list (option Z)) (g : nat) : Prop :=
  ∀ i j v w, (i < j)%nat → gs !! i = Some g → gs !! j = Some g →
    rs !! i = Some (Some v) → rs !! j = Some (Some w) → v < w.

Definition all_placed (gs : list nat) (rs : list (option Z)) (g : nat) : Prop :=
  ∀ i, gs !! i = Some g → ∃ v, rs !! i = Some (Some v).

Record wf_layout (gs : list nat) (s : layout) : Prop := {
  wf_pos : wf_positions (positions s);
  wf_len : length (placed s) = length gs;
  wf_between : ∀ i g v, gs !! i = Some g → placed s !! i = Some (Some v) → between (positions s) g v;
  wf_order : ∀ g, ordered_in gs (placed s) g;
  wf_uniform : ∀ i g v, gs !! i = Some g → placed s !! i = Some (Some v) → all_placed gs (placed s) g
}.

Lemma lower_of_nonneg pos g : wf_positions pos → 0 <= lower_of pos g.
Proof.
  intros Hwf. induction g as [|g IH]; simpl; [lia|].
  destruct (pos !! g) as [u|] eqn:E; simpl; [|lia].
  destruct (Hwf g u E). lia.
Qed.

(** ** The members of a group *)

Lemma elem_of_group gs g i : i ∈ group gs g ↔ gs !! i = Some g.
Proof.
  unfold group. rewrite list_elem_of_filter, elem_of_seq. split; [naive_solver|].
  intros H. split; [done|]. apply lookup_lt_Some in H. lia.
Qed.

Lemma filter_seq_sorted (P : nat → Prop) `{∀ x, Decision (P x)} s n :
  StronglySorted lt (filter P (seq s n)).
Proof.
  revert s; induction n as [|n IH]; intros s; simpl; [constructor|].
  rewrite filter_cons. case_decide; [|apply IH].
  constructor; [apply IH|]. apply Forall_forall. intros x [_ Hx%elem_of_seq]%list_elem_of_filter. lia.
Qed.

Lemma group_sorted gs g : StronglySorted lt (group gs g).
Proof. apply filter_seq_sorted. Qed.

Lemma group_bound gs g : Forall (λ i, (i < length gs)%nat) (group gs g).
Proof. apply Forall_forall. intros i ?%elem_of_group%lookup_lt_Some. done. Qed.

Lemma sorted_lookup_lt (l : list nat) (p q i j : nat) :
  StronglySorted lt l → l !! p = Some i → l !! q = Some j → (i < j)%nat → (p < q)%nat.
Proof.
  intros Hs. revert p q. induction Hs as [|x l Hl IH HF]; intros p q Hp Hq Hij; [done|].
  destruct p as [|p], q as [|q]; simpl in *; simplify_eq.
  - lia.
  - lia.
  - rewrite Forall_forall in HF. apply list_elem_of_lookup_2, HF in Hp. lia.
  - specialize (IH p q Hp Hq Hij). lia.
Qed.

(** ** Assigning labels to a group *)

Lemma length_set_placed rs i v : length (set_placed rs i v) = length rs.
Proof. apply length_insert. Qed.

Lemma set_placed_eq rs i v : (i < length rs)%nat → set_placed rs i v !! i = Some (Some v).
Proof. apply list_lookup_insert_eq. Qed.

Lemma set_placed_ne rs i j v : i ≠ j → set_placed rs i v !! j = rs !! j.
Proof. apply list_lookup_insert_ne. Qed.

(** Both assignment loops are an assignment of [val k] to the [k]-th index. *)
Fixpoint assign (val : nat → Z) (indexes : list nat) (rs : list (option Z)) : list (option Z) :=
  match indexes with
  | [] => rs
  | i :: indexes => assign (val ∘ S) indexes (set_placed rs i (val O))
  end.

Lemma assign_length val idx rs : length (assign val idx rs) = length rs.
Proof. revert val rs; induction idx as [|i idx IH]; intros; simpl; [done|]. by rewrite IH, length_set_placed. Qed.

Lemma assign_notin val idx rs j : j ∉ idx → assign val idx rs !! j = rs !! j.
Proof.
  revert val rs; induction idx as [|i idx IH]; intros val rs Hj; simpl; [done|].
  apply not_elem_of_cons in Hj as [Hne Hj]. rewrite IH by done. by rewrite set_placed_ne.
Qed.

Lemma assign_in val idx rs k i :
  StronglySorted lt idx → Forall (λ i, (i < length rs)%nat) idx → idx !! k = Some i →
  assign val idx rs !! i = Some (Some (val k)).
Proof.
  revert val rs k; induction idx as [|x idx IH]; intros val rs k Hs Hb Hk; [done|].
  inversion Hs as [|?? Hs' HF]; subst. inversion Hb; subst. destruct k as [|k]; simpl in *.
  - injection Hk as ->. rewrite assign_notin.
    + by apply set_placed_eq.
    + intros Hin. rewrite Forall_forall in HF. apply HF in Hin. lia.
  - apply (IH (val ∘ S) _ k); [done|by rewrite length_set_placed|done].
Qed.

Lemma assign_ext val val' idx rs : (∀ k, val k = val' k) → assign val idx rs = assign val' idx rs.
Proof.
  revert val val' rs; induction idx as [|i idx IH]; intros val val' rs H; simpl; [done|].
  rewrite H. apply IH. intros k. apply H.
Qed.

Definition spread_val (lower : Z) (upper : option Z) (step n offset : Z) (k : nat) : Z :=
  match upper with
  | None => lower + step * (offset + Z.of_nat k)
  | Some u => lower + (u - lower) * (offset + Z.of_nat k) / (n + 1)
  end.

Lemma spread_assign lower upper step n offset idx rs :
  spread lower upper step n offset idx rs = assign (spread_val lower upper step n offset) idx rs.
Proof.
  revert offset rs; induction idx as [|i idx IH]; intros offset rs; simpl; [done|].
  rewrite IH. erewrite assign_ext; [f_equal|].
  - unfold spread_val. by rewrite Z.add_0_r.
  - intros k. unfold spread_val, compose. rewrite Nat2Z.inj_succ.
    by replace (offset + 1 + Z.of_nat k) with (offset + Z.succ (Z.of_nat k)) by lia.
Qed.

Lemma label_group_assign step value idx rs :
  label_group step value idx rs
  = (value + step * Z.of_nat (length idx), assign (λ k, value + step * Z.of_nat (S k)) idx rs).
Proof.
  revert value rs; induction idx as [|i idx IH]; intros value rs; simpl.
  - f_equal. lia.
  - rewrite IH. f_equal; [lia|]. replace (value + step * Z.of_nat 1) with (value + step) by lia.
    apply assign_ext. intros k. unfold compose. lia.
Qed.

(** A whole group assigned with a strictly increasing, in-gap [val]. *)
Lemma assign_group_lookup gs val rs g i h :
  length rs = length gs → gs !! i = Some h →
  (h = g → ∃ k, group gs g !! k = Some i ∧ assign val (group gs g) rs !! i = Some (Some (val k)))
  ∧ (h ≠ g → assign val (group gs g) rs !! i = rs !! i).
Proof.
  intros Hlen Hi. split.
  - intros ->. pose proof Hi as Hk%elem_of_group. apply list_elem_of_lookup in Hk as [k Hk].
    exists k. split; [done|]. eapply assign_in; [apply group_sorted| |done].
    rewrite Hlen. apply group_bound.
  - intros Hne. apply assign_notin. rewrite elem_of_group. congruence.
Qed.

Lemma assign_group_ordered gs val rs g :
  length rs = length gs → (∀ p q, (p < q)%nat → (q < length (group gs g))%nat → val p < val q) →
  ordered_in gs (assign val (group gs g) rs) g.
Proof.
  intros Hlen Hval i j v w Hij Hi Hj Hv Hw.
  destruct (assign_group_lookup gs val rs g i g Hlen Hi) as [Ai _].
  destruct (assign_group_lookup gs val rs g j g Hlen Hj) as [Aj _].
  destruct Ai as (p & Hp & Ep); [done|]. destruct Aj as (q & Hq & Eq); [done|].
  rewrite Ep in Hv. rewrite Eq in Hw. simplify_eq.
  apply Hval; [|by eapply lookup_lt_Some]. eapply sorted_lookup_lt; eauto using group_sorted.
Qed.

(** Filling a gap between fixed neighbours keeps the layout well formed. *)
Lemma fill_wf gs s g val :
  wf_layout gs s →
  (∀ k, (k < length (group gs g))%nat → between (positions s) g (val k)) →
  (∀ p q, (p < q)%nat → (q < length (group gs g))%nat → val p < val q) →
  wf_layout gs {| positions := positions s; placed := assign val (group gs g) (placed s) |}.
Proof.
  intros [Hpos Hlen Hbtw Hord Huni] Hval Hinc.
  assert (∀ i h v, gs !! i = Some h → assign val (group gs g) (placed s) !! i = Some (Some v) →
    between (positions s) h v) as Hb.
  { intros i h v Hi Hv. destruct (assign_group_lookup gs val (placed s) g i h Hlen Hi) as [A B].
    destruct (decide (h = g)) as [->|Hne].
    - destruct A as (k & Hk & E); [done|]. rewrite E in Hv. simplify_eq.
      apply Hval. by eapply lookup_lt_Some.
    - rewrite B in Hv by done. eauto. }
  split; simpl; [done|by rewrite assign_length|exact Hb|..].
  - intros h. destruct (decide (h = g)) as [->|Hne]; [by apply assign_group_ordered|].
    intros i j v w Hij Hi Hj.
    rewrite (proj2 (assign_group_lookup gs val (placed s) g i h Hlen Hi) Hne).
    rewrite (proj2 (assign_group_lookup gs val (placed s) g j h Hlen Hj) Hne).
    by apply (Hord h).
  - intros i h v Hi Hv j Hj.
    destruct (assign_group_lookup gs val (placed s) g i h Hlen Hi) as [Ai Bi].
    destruct (assign_group_lookup gs val (placed s) g j h Hlen Hj) as [Aj Bj].
    destruct (decide (h = g)) as [Heq|Hne].
    + destruct Aj as (k & _ & ->); eauto.
    + rewrite Bj by done. rewrite Bi in Hv by done. exact (Huni i h v Hi Hv j Hj).
Qed.

(** ** Re-spacing a window *)

Definition remaining (gs : list nat) (g k : nat) : Z :=
  Z.of_nat (k - 1 + sum_list_with (λ h, length (group gs h)) (seq g k)).

(** What the window loop has established when it returns. *)
Record respaced_window (gs : list nat) (s s' : layout) (g end_ : nat) : Prop := {
  rw_pos_len : length (positions s') = length (positions s);
  rw_len : length (placed s') = length (placed s);
  rw_pos_out : ∀ j, (j < g ∨ end_ <= j)%nat → positions s' !! j = positions s !! j;
  rw_pos_in : ∀ j u, (g <= j <= end_)%nat → positions s' !! j = Some u →
                lower_of (positions s') j < u ∧ u <= MAX_ORDINAL;
  rw_out : ∀ i h, gs !! i = Some h → (h < g ∨ end_ < h)%nat → placed s' !! i = placed s !! i;
  rw_in : ∀ i h, gs !! i = Some h → (g <= h <= end_)%nat →
            ∃ v, placed s' !! i = Some (Some v) ∧ between (positions s') h v;
  rw_order : ∀ h, (g <= h <= end_)%nat → ordered_in gs (placed s') h
}.

Lemma label_group_facts gs step value g s :
  0 < step → length (placed s) = length gs →
  let m := Z.of_nat (length (group gs g)) in
  let rs := assign (λ k, value + step * Z.of_nat (S k)) (group gs g) (placed s) in
  (∀ i, gs !! i = Some g → ∃ v, rs !! i = Some (Some v) ∧ value < v ∧ v <= value + step * m)
  ∧ ordered_in gs rs g
  ∧ (∀ i h, gs !! i = Some h → h ≠ g → rs !! i = placed s !! i).
Proof.
  intros Hstep Hlen m rs. split_and!.
  - intros i Hi. destruct (assign_group_lookup gs (λ k, value + step * Z.of_nat (S k)) (placed s) g i g Hlen Hi)
      as [(k & Hk & E) _]; [done|].
    eexists; split; [exact E|]. apply lookup_lt_Some in Hk. unfold m. nia.
  - apply assign_group_ordered; [done|]. intros p q ? ?. nia.
  - intros i h Hi Hne. exact (proj2 (assign_group_lookup gs _ (placed s) g i h Hlen Hi) Hne).
Qed.

(** The state after labelling gap [g] and its movable right label. *)
Definition label_gap (gs : list nat) (step value : Z) (g : nat) (s : layout) : layout :=
  {| positions := <[g := value + step * Z.of_nat (length (group gs g)) + step]> (positions s);
     placed := assign (λ k, value + step * Z.of_nat (S k)) (group gs g) (placed s) |}.

Lemma respaced_window_cons gs step value g end_ s s' :
  0 < step → length (placed s) = length gs → (g < end_ <= length (positions s))%nat →
  lower_of (positions s) g = value →
  value + step * Z.of_nat (length (group gs g)) + step <= MAX_ORDINAL →
  respaced_window gs (label_gap gs step value g s) s' (S g) end_ →
  respaced_window gs s s' g end_.
Proof.
  intros Hstep Hlen Hg Hlow Hmax [R1 R2 R3 R4 R5 R6 R7]. simpl in R1, R2, R3, R5.
  destruct (label_group_facts gs step value g s Hstep Hlen) as (Hin & Hord & Hout).
  set (v2 := value + step * Z.of_nat (length (group gs g)) + step) in *.
  assert (positions s' !! g = Some v2) as Eg.
  { rewrite R3 by lia. by rewrite list_lookup_insert_eq by lia. }
  assert (lower_of (positions s') g = value) as El.
  { rewrite <-Hlow. destruct g as [|g]; [done|]. simpl. rewrite R3 by lia.
    by rewrite list_lookup_insert_ne by lia. }
  split.
  - rewrite R1. by rewrite length_insert.
  - rewrite R2. by rewrite assign_length.
  - intros j Hj. rewrite R3 by lia. by rewrite list_lookup_insert_ne by lia.
  - intros j u Hj Hju. destruct (decide (j = g)) as [->|]; [|apply R4; [lia|done]].
    assert (u = v2) as -> by congruence. rewrite El. unfold v2 in *. split; nia.
  - intros i h Hi Hh. rewrite (R5 i h Hi) by lia. apply (Hout i h); [done|lia].
  - intros i h Hi Hh. destruct (decide (h = g)) as [->|]; [|apply R6; [done|lia]].
    rewrite (R5 i g Hi) by lia. destruct (Hin i Hi) as (v & Hv & ? & ?).
    exists v. split; [done|]. split_and!; [by rewrite El|unfold v2 in *; lia|].
    intros u Hju. assert (u = v2) as -> by congruence. unfold v2. lia.
  - intros h Hh. destruct (decide (h = g)) as [->|]; [|apply R7; lia].
    intros i j v w Hij Hi Hj. rewrite (R5 i g Hi), (R5 j g Hj) by lia. by apply Hord.
Qed.

Lemma respace_spec gs step : 0 < step → ∀ k g value end_ s,
  length (placed s) = length gs → end_ = (g + k)%nat → (end_ <= length (positions s))%nat →
  lower_of (positions s) g = value →
  value + step * remaining gs g (S k) <= MAX_ORDINAL →
  (∀ u, positions s !! end_ = Some u → value + step * remaining gs g (S k) < u ∧ u <= MAX_ORDINAL) →
  respaced_window gs s (respace gs step value end_ (seq g (S k)) s) g end_.
Proof.
  intros Hstep k; induction k as [|k IH]; intros g value end_ s Hlen -> Hend Hlow Hmax Hu;
    cbn [respace seq]; rewrite label_group_assign.
  - destruct (label_group_facts gs step value g s Hstep Hlen) as (Hin & Hord & Hout).
    rewrite Nat.add_0_r in *. rewrite bool_decide_eq_false_2 by lia. cbn [respace].
    assert (remaining gs g 1 = Z.of_nat (length (group gs g))) as Hrem by (unfold remaining; simpl; lia).
    rewrite Hrem in *.
    split; simpl; try done.
    + apply assign_length.
    + intros j u Hj Hju. assert (j = g) as -> by lia. destruct (Hu u Hju). rewrite Hlow. lia.
    + intros i h Hi Hh. apply (Hout i h); [done|lia].
    + intros i h Hi Hh. assert (h = g) as -> by lia. destruct (Hin i Hi) as (v & Hv & ? & ?).
      exists v. split; [done|]. split_and!; [lia|lia|]. intros u Hju. destruct (Hu u Hju). lia.
    + intros h Hh. assert (h = g) as -> by lia. done.
  - assert (remaining gs g (S (S k)) = Z.of_nat (length (group gs g)) + 1 + remaining gs (S g) (S k)) as Hrem.
    { unfold remaining. cbn [seq sum_list_with]. lia. }
    rewrite Hrem in *. assert (0 <= remaining gs (S g) (S k)) by (unfold remaining; lia).
    rewrite bool_decide_eq_true_2 by lia.
    apply (respaced_window_cons gs step value); [done..|lia|done|nia|].
    apply IH; simpl.
    + by rewrite assign_length.
    + lia.
    + by rewrite length_insert.
    + by rewrite list_lookup_insert_eq by lia.
    + nia.
    + intros u. rewrite list_lookup_insert_ne by lia. intros Hju. destruct (Hu u Hju). split; nia.
Qed.

(** ** Placing one gap keeps the layout well formed *)

Lemma find_window_Some pos gs gap widths start w :
  find_window pos gs gap widths = Some (start, w) →
  w ∈ widths ∧ start ∈ window_starts (length pos) gap w ∧ MIN_GAP <= window_step pos gs start w.
Proof.
  induction widths as [|w0 widths IH]; [done|]. cbn [find_window].
  destruct (window_at pos gs gap w0) as [s0|] eqn:E.
  - intros [= <- <-]. unfold window_at in E. apply bind_Some in E as ([i x] & E & [= <-]).
    apply list_find_Some in E as (Hl & Hge & _). split_and!; [by left| |done].
    by eapply list_elem_of_lookup_2.
  - intros H%IH. destruct H as (? & ? & ?). split_and!; [by right|done..].
Qed.

Lemma window_count_remaining gs start w :
  window_count gs start w = remaining gs start (S w).
Proof. unfold window_count, remaining. rewrite Nat.add_1_r. f_equal. lia. Qed.

Lemma group_window_pos gs start w gap i :
  gs !! i = Some gap → (start <= gap <= start + w)%nat → 0 < window_count gs start w.
Proof.
  intros Hi%elem_of_group Hgap. unfold window_count.
  assert (length (group gs gap) <= sum_list_with (λ g, length (group gs g)) (seq start (w + 1)))%nat as H.
  { assert (gap ∈ seq start (w + 1)) as Hin by (apply elem_of_seq; lia).
    apply list_elem_of_split in Hin as (l1 & l2 & ->). rewrite sum_list_with_app. simpl. lia. }
  destruct (group gs gap) as [|? ?]; [by apply not_elem_of_nil in Hi|]. simpl in H. lia.
Qed.

Lemma window_step_budget pos gs start w :
  wf_positions pos → (start + w <= length pos)%nat → 0 < window_count gs start w →
  0 < window_step pos gs start w →
  lower_of pos start + window_step pos gs start w * window_count gs start w <= MAX_ORDINAL
  ∧ ∀ u, pos !! (start + w)%nat = Some u →
      lower_of pos start + window_step pos gs start w * window_count gs start w < u ∧ u <= MAX_ORDINAL.
Proof.
  intros Hwf Hle Hc Hstep. unfold window_step in *.
  set (c := window_count gs start w) in *. set (lo := lower_of pos start) in *.
  destruct (pos !! (start + w)%nat) as [u|] eqn:E.
  - destruct (Hwf _ _ E) as [_ Hmax].
    pose proof (Z.mul_div_le (u - lo) (c + 1) ltac:(lia)). split; [nia|]. intros u' [= <-]. nia.
  - split; [|done]. pose proof (Z.mul_div_le (MAX_ORDINAL - lo) c ltac:(lia)). nia.
Qed.

Lemma div_scale_increasing D N p q :
  0 < N → N <= D → p < q → D * p / N < D * q / N.
Proof.
  intros HN HD Hpq. assert (D * p / N + 1 <= D * q / N); [|lia].
  rewrite <-Z.div_add by lia. apply Z.div_le_mono; [lia|]. nia.
Qed.

Lemma spread_between pos gs gap i :
  wf_positions pos → gs !! i = Some gap →
  let n := Z.of_nat (length (group gs gap)) in
  let step := match pos !! gap with
              | None => ORDINAL_STEP
              | Some u => (u - lower_of pos gap) / (n + 1) end in
  0 < step → lower_of pos gap + step * n <= MAX_ORDINAL →
  (∀ k, (k < length (group gs gap))%nat →
     between pos gap (spread_val (lower_of pos gap) (pos !! gap) step n 1 k))
  ∧ ∀ p q, (p < q)%nat → (q < length (group gs gap))%nat →
     spread_val (lower_of pos gap) (pos !! gap) step n 1 p
     < spread_val (lower_of pos gap) (pos !! gap) step n 1 q.
Proof.
  intros Hwf Hi n step Hstep Hmax. unfold spread_val. subst step.
  destruct (pos !! gap) as [u|] eqn:E.
  - destruct (Hwf _ _ E) as [Hlu Hu]. set (lo := lower_of pos gap) in *.
    assert (0 < n + 1) as HN by lia.
    assert (n + 1 <= u - lo) as HD.
    { destruct (Z_lt_le_dec (u - lo) (n + 1)); [|done]. rewrite Z.div_small in Hstep by lia. lia. }
    split.
    + intros k Hk. assert (lo < lo + (u - lo) * (1 + Z.of_nat k) / (n + 1) < u) as [? ?].
      { pose proof (div_scale_increasing (u - lo) (n + 1) 0 (1 + Z.of_nat k) HN HD ltac:(lia)) as H.
        rewrite Z.mul_0_r, Z.div_0_l in H by lia.
        pose proof (Z.div_lt_upper_bound ((u - lo) * (1 + Z.of_nat k)) (n + 1) (u - lo) HN
                      ltac:(unfold n; nia)). lia. }
      split_and!; [done|lia|]. intros u'. rewrite E. intros [= <-]. done.
    + intros p q Hpq Hq.
      pose proof (div_scale_increasing (u - lo) (n + 1) (1 + Z.of_nat p) (1 + Z.of_nat q) HN HD ltac:(lia)).
      lia.
  - split.
    + intros k Hk. split_and!; [nia|unfold n in *; nia|]. by rewrite E.
    + intros p q Hpq Hq. nia.
Qed.

Lemma respaced_wf gs s s' start end_ :
  wf_layout gs s → respaced_window gs s s' start end_ → wf_layout gs s'.
Proof.
  intros [Hpos Hlen Hbtw Hord Huni] [R1 R2 R3 R4 R5 R6 R7].
  assert (∀ h, (h < start ∨ end_ < h)%nat → lower_of (positions s') h = lower_of (positions s) h) as Hlow.
  { intros [|h] Hh; [done|]. simpl. rewrite R3; [done|lia]. }
  assert (∀ i h v, gs !! i = Some h → placed s' !! i = Some (Some v) → between (positions s') h v) as Hb.
  { intros i h v Hi Hv. destruct (decide (start <= h <= end_)%nat).
    - destruct (R6 i h Hi) as (v' & E & ?); [lia|]. rewrite E in Hv. by simplify_eq.
    - rewrite (R5 i h Hi) in Hv by lia. unfold between. rewrite Hlow, R3 by lia. by apply (Hbtw i). }
  split; [|by rewrite R2|done|..].
  - intros j u Hju. destruct (decide (start <= j <= end_)%nat); [by apply R4|].
    rewrite R3 in Hju by lia. rewrite Hlow by lia. by apply Hpos.
  - intros h. destruct (decide (start <= h <= end_)%nat); [by apply R7|].
    intros i j v w Hij Hi Hj. rewrite (R5 i h Hi), (R5 j h Hj) by lia. by apply (Hord h).
  - intros i h v Hi Hv j Hj. destruct (decide (start <= h <= end_)%nat).
    + destruct (R6 j h Hj) as (v' & E & ?); [lia|]. eauto.
    + rewrite (R5 i h Hi) in Hv by lia. rewrite (R5 j h Hj) by lia. exact (Huni i h v Hi Hv j Hj).
Qed.

(** What one iteration of the placing loop establishes. *)
Record gap_done (gs : list nat) (s s' : layout) (gap : nat) : Prop := {
  gd_wf : wf_layout gs s';
  gd_len : length (positions s') = length (positions s);
  gd_gap : all_placed gs (placed s') gap;
  gd_keep : ∀ g, all_placed gs (placed s) g → all_placed gs (placed s') g
}.

Lemma assigned_done gs s gap val :
  wf_layout gs s →
  wf_layout gs {| positions := positions s; placed := assign val (group gs gap) (placed s) |} →
  gap_done gs s {| positions := positions s; placed := assign val (group gs gap) (placed s) |} gap.
Proof.
  intros Hwf Hwf'. pose proof (assign_group_lookup gs val (placed s) gap) as A.
  split; [done|done|..]; simpl.
  - intros i Hi. destruct (A i gap (wf_len _ _ Hwf) Hi) as [(k & _ & E) _]; eauto.
  - intros g Hg i Hi. destruct (A i g (wf_len _ _ Hwf) Hi) as [Aeq Ane].
    destruct (decide (g = gap)) as [->|Hne].
    + destruct Aeq as (k & _ & E); eauto.
    + rewrite Ane by done. by apply Hg.
Qed.

Lemma window_done gs s gap i0 start w :
  wf_layout gs s → gs !! i0 = Some gap → (start <= gap <= start + w)%nat →
  (start + w <= length (positions s))%nat → MIN_GAP <= window_step (positions s) gs start w →
  gap_done gs s (respace gs (window_step (positions s) gs start w) (lower_of (positions s) start)
                   (start + w) (seq start (w + 1)) s) gap.
Proof.
  intros Hwf Hi0 Hgap Hend Hstep. pose proof MIN_GAP_pos.
  pose proof (group_window_pos gs start w gap i0 Hi0 Hgap) as Hc.
  destruct (window_step_budget (positions s) gs start w (wf_pos _ _ Hwf)) as [B1 B2]; [lia|lia|lia|].
  rewrite window_count_remaining in B1, B2. rewrite Nat.add_1_r.
  pose proof (respace_spec gs (window_step (positions s) gs start w) ltac:(lia) w start
    (lower_of (positions s) start) (start + w)%nat s (wf_len _ _ Hwf) eq_refl ltac:(lia) eq_refl B1 B2) as R.
  split; [by eapply respaced_wf|by eapply rw_pos_len|..].
  - intros i Hi. destruct (rw_in _ _ _ _ _ R i gap Hi) as (v & E & _); [lia|]. eauto.
  - intros g Hg i Hi. destruct (decide (start <= g <= start + w)%nat).
    + destruct (rw_in _ _ _ _ _ R i g Hi) as (v & E & _); [lia|]. eauto.
    + rewrite (rw_out _ _ _ _ _ R i g Hi) by lia. by apply Hg.
Qed.

Lemma place_gap_done gs s gap s' :
  wf_layout gs s → (gap <= length (positions s))%nat → place_gap gs s gap = Ok s' →
  gap_done gs s s' gap.
Proof.
  intros Hwf Hgap H. unfold place_gap in H.
  destruct (group gs gap) as [|i0 rest] eqn:Eg.
  { inv_ok. split; [done..| |done]. intros i Hi%elem_of_group. rewrite Eg in Hi. by apply not_elem_of_nil in Hi. }
  assert (gs !! i0 = Some gap) as Hi0 by (apply elem_of_group; rewrite Eg; by left).
  rewrite <-Eg in H. case_bool_decide as Hp.
  { inv_ok. split; [done..| |done]. destruct Hp as [v Hv]. apply (wf_uniform _ _ Hwf i0 gap v); [done|].
    destruct (placed s' !! i0) as [[w|]|]; simpl in Hv; congruence. }
  destruct (bool_decide _ && bool_decide _) eqn:Efit; inv_ok.
  - apply andb_prop in Efit as [H1%bool_decide_eq_true H2%bool_decide_eq_true].
    rewrite spread_assign. apply assigned_done; [done|].
    destruct (spread_between (positions s) gs gap i0 (wf_pos _ _ Hwf) Hi0 H1 H2) as [Hb Hinc].
    by apply fill_wf.
  - destruct (find_window _ _ _ _) as [[start w]|] eqn:Ew; inv_ok.
    apply find_window_Some in Ew as (Hw%elem_of_seq & Hs%elem_of_seq & Hstep).
    apply (window_done _ _ _ i0); [done|done|lia..|done].
Qed.

Lemma place_gaps_done gs todo s s' :
  wf_layout gs s → Forall (λ g, (g <= length (positions s))%nat) todo → place_gaps gs todo s = Ok s' →
  wf_layout gs s' ∧ length (positions s') = length (positions s)
  ∧ (∀ g, g ∈ todo ∨ all_placed gs (placed s) g → all_placed gs (placed s') g).
Proof.
  revert s; induction todo as [|g todo IH]; intros s Hwf Hb H; simpl in H; inv_ok.
  { split_and!; [done|done|]. intros g [Hg|Hg]; [by apply not_elem_of_nil in Hg|done]. }
  inversion Hb as [|?? Hg Hb']; subst.
  destruct (place_gap_done _ _ _ _ Hwf Hg Hb0) as [Hwf' Hlen Hgap Hkeep].
  destruct (IH v Hwf') as (A & B & C); [by rewrite Hlen|done|].
  split_and!; [done|congruence|]. intros h [Hh|Hh].
  - apply elem_of_cons in Hh as [->|Hh]; apply C; auto.
  - apply C; auto.
Qed.

(** ** Sorted labels and [bisect_left] *)

Lemma sorted_set_elem l x : x ∈ sorted_set l ↔ x ∈ l.
Proof. unfold sorted_set. by rewrite merge_sort_Permutation, elem_of_remove_dups. Qed.

Lemma sorted_set_NoDup l : NoDup (sorted_set l).
Proof. unfold sorted_set. rewrite merge_sort_Permutation. apply NoDup_remove_dups. Qed.

Lemma sorted_set_sorted l : StronglySorted Z.lt (sorted_set l).
Proof.
  pose proof (sorted_set_NoDup l) as Hnd.
  assert (StronglySorted Z.le (sorted_set l)) as Hs by (apply StronglySorted_merge_sort; apply _).
  induction Hs as [|x k Hk IH HF]; [constructor|].
  apply NoDup_cons in Hnd as [Hx Hnd]. constructor; [by apply IH|].
  rewrite Forall_forall in HF |- *. intros y Hy. specialize (HF y Hy).
  assert (x ≠ y) by congruence. lia.
Qed.

Lemma sorted_lookup_mono (l : list Z) (a b : nat) (x y : Z) :
  StronglySorted Z.lt l → l !! a = Some x → l !! b = Some y → ((a < b)%nat ↔ x < y).
Proof.
  intros Hs. revert a b. induction Hs as [|z l Hl IH HF]; intros a b Ha Hb; [done|].
  rewrite Forall_forall in HF. destruct a as [|a], b as [|b]; simpl in *; simplify_eq.
  - lia.
  - apply list_elem_of_lookup_2, HF in Hb. lia.
  - apply list_elem_of_lookup_2, HF in Ha. lia.
  - rewrite <-(IH a b Ha Hb). lia.
Qed.

Lemma bisect_left_le l x : (bisect_left l x <= length l)%nat.
Proof. induction l as [|y l IH]; simpl; [lia|]. case_bool_decide; simpl; lia. Qed.

Lemma bisect_left_elem l x : StronglySorted Z.lt l → x ∈ l → l !! bisect_left l x = Some x.
Proof.
  induction 1 as [|y l Hl IH HF]; [by intros ?%not_elem_of_nil|].
  intros [->|Hx]%elem_of_cons; simpl.
  - by rewrite bool_decide_eq_false_2 by lia.
  - rewrite Forall_forall in HF. specialize (HF x Hx). by rewrite bool_decide_eq_true_2 by lia; apply IH.
Qed.

Lemma sorted_wf_positions l : StronglySorted Z.lt l → forallb valid_ordinal l = true → wf_positions l.
Proof.
  intros Hs Hv i u Hu. rewrite forallb_forall in Hv.
  assert (0 < u <= MAX_ORDINAL) as [H0 ?].
  { specialize (Hv u). unfold valid_ordinal in Hv. rewrite bool_decide_eq_true in Hv. apply Hv.
    apply list_elem_of_In. by eapply list_elem_of_lookup_2. }
  split; [|done]. destruct i as [|i]; simpl; [done|].
  destruct (l !! i) as [w|] eqn:E; simpl; [|done].
  apply (sorted_lookup_mono l i (S i) w u Hs E Hu). lia.
Qed.

(** ** What grouping promises *)

(** A placement's gap lies to the right of its left bound, to the left of its
    right bound, and to the right of the row it supersedes when that row is
    inside its bounds; a placement with no right bound and no such row goes last. *)
Definition gap_ok (original : list Z) (p : Placement) (g : nat) : Prop :=
  (g <= length original)%nat
  ∧ (∀ l, left p = Some l → l ∈ original ∧ (bisect_left original l < g)%nat)
  ∧ (∀ t, supersedes p = Some t →
      t ∈ original
      ∧ (default 0 (left p) <= t < default (MAX_ORDINAL + 1) (right p) → (bisect_left original t < g)%nat))
  ∧ (∀ r, right p = Some r → r ∈ original ∧ (g <= bisect_left original r)%nat)
  ∧ (right p = None → supersedes p = None → g = length original).

Lemma known_elem original o v : known original o = true → o = Some v → v ∈ original.
Proof. intros H ->. by apply bool_decide_eq_true in H. Qed.

Lemma bisect_left_lt l x y :
  StronglySorted Z.lt l → x ∈ l → y ∈ l → x < y → (bisect_left l x < bisect_left l y)%nat.
Proof.
  intros Hs Hx Hy Hxy.
  eapply (sorted_lookup_mono l _ _ x y Hs); [by apply bisect_left_elem..|done].
Qed.

Lemma bisect_left_lt_length l x : StronglySorted Z.lt l → x ∈ l → (bisect_left l x < length l)%nat.
Proof. intros Hs Hx. eapply lookup_lt_Some. by apply bisect_left_elem. Qed.

Lemma bisect_left_mono l x y : x <= y → (bisect_left l x <= bisect_left l y)%nat.
Proof.
  intros Hxy. induction l as [|z l IH]; simpl; [lia|]. do 2 case_bool_decide; lia.
Qed.

Lemma bisect_left_all l x : (∀ y, y ∈ l → y < x) → bisect_left l x = length l.
Proof.
  induction l as [|z l IH]; intros H; simpl; [done|].
  rewrite bool_decide_eq_true_2 by (apply H; by left). f_equal. apply IH. intros y Hy. apply H. by right.
Qed.

(** The gap of a placement before clamping. *)
Definition right_of (p : Placement) : Z := default (MAX_ORDINAL + 1) (right p).

Definition below_right (original : list Z) (s : group_state) : Prop :=
  (previous_gap s <= bisect_left original (previous_right s))%nat.

Lemma group_step_inv original s p s' :
  group_step original s p = Ok s' →
  known original (left p) = true ∧ known original (right p) = true ∧ known original (supersedes p) = true
  ∧ default 0 (left p) < right_of p ∧ previous_right s <= right_of p
  ∧ ∃ gap, s' = {| previous_left := default 0 (left p); previous_right := right_of p;
                   previous_gap := Nat.max gap (previous_gap s);
                   gaps := gaps s ++ [Nat.max gap (previous_gap s)] |}
           ∧ ((∃ t, supersedes p = Some t ∧ default 0 (left p) <= t < right_of p
                    ∧ gap = S (bisect_left original t))
              ∨ (∀ t, supersedes p = Some t → ¬ default 0 (left p) <= t < right_of p)
                ∧ gap = match right p with None => length original | Some r => bisect_left original r end).
Proof.
  intros H. unfold group_step in H. inv_ok.
  apply negb_false_iff, andb_prop in Hr as [[Kl Kr]%andb_prop Kt].
  apply orb_false_elim in Hr0 as [[Hlr%bool_decide_eq_false _]%orb_false_elim Hpr%bool_decide_eq_false].
  fold (right_of p) in *. split_and!; [done..|lia|lia|]. eexists; split; [done|].
  destruct (supersedes p) as [t|]; [case_bool_decide as Hin|]; inv_ok.
  - left. eauto.
  - right. split; [|done]. by intros t' [= <-].
  - right. split; [|done]. done.
Qed.

Lemma group_step_ok original s p s' :
  StronglySorted Z.lt original → (∀ x, x ∈ original → x < MAX_ORDINAL + 1) → below_right original s →
  group_step original s p = Ok s' →
  ∃ g, gaps s' = gaps s ++ [g] ∧ previous_gap s' = g ∧ (previous_gap s <= g)%nat
       ∧ gap_ok original p g ∧ below_right original s'.
Proof.
  intros Hs Hmax Hprev (Kl & Kr & Kt & Hlr & Hpr & gap & -> & Hgap)%group_step_inv.
  unfold below_right in *. simpl. eexists; split_and!; [done..|lia| |].
  - assert (bisect_left original (previous_right s) <= length original)%nat by apply bisect_left_le.
    assert (gap <= length original)%nat as Hn.
    { destruct Hgap as [(t & Ht & _ & ->)|[_ ->]].
      - apply bisect_left_lt_length; [done|by apply (known_elem _ (supersedes p))].
      - destruct (right p); [apply bisect_left_le|lia]. }
    split_and!; [lia| | | |].
    + intros l Hl. pose proof (known_elem _ _ _ Kl Hl) as Hin. split; [done|]. rewrite Hl in *. simpl in *.
      assert (bisect_left original l < gap)%nat; [|lia].
      destruct Hgap as [(t & Ht & Htb & ->)|[_ ->]].
      * pose proof (bisect_left_mono original l t). lia.
      * unfold right_of in Hlr. destruct (right p) as [r|] eqn:Er; [|by apply bisect_left_lt_length].
        apply bisect_left_lt; [done|done|by apply (known_elem _ (Some r))|done].
    + intros t Ht. split; [by apply (known_elem _ (supersedes p))|]. fold (right_of p). intros Hin.
      destruct Hgap as [(t' & Ht' & _ & ->)|[Hno _]]; [simplify_eq; lia|]. by destruct (Hno t Ht).
    + intros r Hr. split; [by apply (known_elem _ (right p))|].
      unfold right_of in *. rewrite Hr in *. simpl in *.
      pose proof (bisect_left_mono original (previous_right s) r Hpr).
      destruct Hgap as [(t & Ht & Htb & ->)|[_ ->]]; [|lia].
      pose proof (bisect_left_lt original t r Hs). assert (t ∈ original) by by apply (known_elem _ (supersedes p)).
      assert (r ∈ original) by by apply (known_elem _ (Some r)). assert (t < r) by lia. intuition lia.
    + intros Hr Ht. destruct Hgap as [(t & Ht' & _)|[_ ->]]; [congruence|]. rewrite Hr. lia.
  - pose proof (bisect_left_mono original (previous_right s) (right_of p) Hpr).
    assert (gap <= bisect_left original (right_of p))%nat; [|lia].
    unfold right_of in *. destruct Hgap as [(t & Ht & Htb & ->)|[_ ->]].
    + assert (t ∈ original) as Hin by by apply (known_elem _ (supersedes p)).
      destruct (right p) as [r|] eqn:Er; simpl in *.
      * apply bisect_left_lt; [done|done|by apply (known_elem _ (Some r))|lia].
      * rewrite (bisect_left_all _ _ Hmax). by apply bisect_left_lt_length.
    + destruct (right p) as [r|] eqn:Er; simpl in *; [lia|]. by rewrite (bisect_left_all _ _ Hmax).
Qed.

Lemma group_all_ok original ps s s' :
  StronglySorted Z.lt original → (∀ x, x ∈ original → x < MAX_ORDINAL + 1) → below_right original s →
  group_all original s ps = Ok s' →
  ∃ gs, gaps s' = gaps s ++ gs ∧ Forall2 (gap_ok original) ps gs
        ∧ StronglySorted le gs ∧ Forall (λ g, (previous_gap s <= g)%nat) gs.
Proof.
  intros Hs Hmax. revert s; induction ps as [|p ps IH]; intros s Hprev H; simpl in H; inv_ok.
  { exists []. rewrite app_nil_r. split_and!; constructor. }
  apply group_step_ok in Hb as (g & Eg & Ep & Hle & Hok & Hbr); [|done..].
  destruct (IH v) as (gs & E & HF & Hsort & Hge); [done|done|].
  exists (g :: gs). rewrite Ep in Hge. split_and!.
  - by rewrite E, Eg, <-(assoc_L (++)).
  - by constructor.
  - by constructor.
  - constructor; [done|]. eapply Forall_impl; [done|]. simpl. lia.
Qed.

(** ** The plan as a relabelling *)

(** The new label of an existing ordinal under the returned changes. *)
Definition relabel (moves : list (Z * Z)) (x : Z) : Z :=
  default x (snd <$> (snd <$> list_find (λ m, m.1 = x) moves)).

Lemma relabel_cons m moves x :
  relabel (m :: moves) x = if decide (m.1 = x) then m.2 else relabel moves x.
Proof.
  unfold relabel. simpl. case_decide; [done|].
  by destruct (list_find _ moves) as [[? ?]|].
Qed.

Lemma relabel_notin moves x : x ∉ moves.*1 → relabel moves x = x.
Proof.
  induction moves as [|m moves IH]; [done|]. rewrite fmap_cons, not_elem_of_cons, relabel_cons.
  intros [??]. rewrite decide_False by congruence. by apply IH.
Qed.

Lemma relabel_respaced original pos a x y :
  NoDup original → original !! a = Some x → pos !! a = Some y → relabel (respaced original pos) x = y.
Proof.
  unfold respaced. revert pos a; induction original as [|o original IH]; intros pos a Hnd Ha Hp; [done|].
  apply NoDup_cons in Hnd as [Ho Hnd]. destruct pos as [|p pos]; [done|]. simpl.
  rewrite filter_cons. destruct a as [|a]; simpl in Ha, Hp.
  - injection Ha as ->. injection Hp as ->. case_decide as Hd; simpl in Hd.
    + by rewrite relabel_cons, decide_True.
    + assert (x = y) as -> by (by destruct (decide (x = y))). apply relabel_notin.
      intros Hin. apply Ho. apply list_elem_of_fmap in Hin as ([u v] & -> & [_ Hin]%list_elem_of_filter).
      by apply elem_of_zip_l in Hin.
  - assert (o ≠ x) by (intros ->; by eapply Ho, list_elem_of_lookup_2).
    case_decide; [rewrite relabel_cons, decide_False by done|]; by apply (IH pos a).
Qed.

(** The layout behind a returned plan. *)
Record planned (existing : list Z) (ps : list Placement) (res : list (option Z))
    (moves : list (Z * Z)) (gs : list nat) (s : layout) : Prop := {
  pl_res : res = placed s;
  pl_moves : moves = respaced (sorted_set existing) (positions s);
  pl_valid : forallb valid_ordinal (sorted_set existing) = true;
  pl_wf : wf_layout gs s;
  pl_len : length (positions s) = length (sorted_set existing);
  pl_gaps : Forall2 (gap_ok (sorted_set existing)) ps gs;
  pl_sorted : StronglySorted le gs;
  pl_all : ∀ g, all_placed gs (placed s) g
}.

Lemma valid_below l : forallb valid_ordinal l = true → ∀ x, x ∈ l → x < MAX_ORDINAL + 1.
Proof.
  intros Hv x Hx%list_elem_of_In. rewrite forallb_forall in Hv. specialize (Hv x Hx).
  unfold valid_ordinal in Hv. apply bool_decide_eq_true in Hv. lia.
Qed.

Lemma plan_ordinals_planned existing ps res moves :
  plan_ordinals existing ps = Ok (res, moves) → ∃ gs s, planned existing ps res moves gs s.
Proof.
  unfold plan_ordinals. intros H. inv_ok. injection H as <- <-. apply negb_false_iff in Hr.
  pose proof (sorted_set_sorted existing) as Hs.
  apply group_all_ok in Hb as (gs & Eg & HF & Hsort & _);
    [|done|by apply valid_below|unfold below_right; simpl; lia]. simpl in Eg. rewrite Eg in *.
  pose proof (Forall2_length _ _ _ HF) as Hlen.
  apply place_gaps_done in Hb0 as (Hwf & Hl & Hall).
  - exists gs, v0. split; try done. intros g i Hi. apply (Hall g); [|done]. left.
    apply elem_of_seq. destruct (Forall2_lookup_r _ _ _ _ _ HF Hi) as (p & _ & [Hg _]). lia.
  - split; simpl.
    + by apply sorted_wf_positions.
    + by rewrite length_replicate.
    + intros i g x ? [? _]%lookup_replicate. done.
    + intros g i j x y ? ? ? [? _]%lookup_replicate. done.
    + intros i g x ? [? _]%lookup_replicate. done.
  - apply Forall_forall. intros g Hg%elem_of_seq. simpl. lia.
Qed.

Lemma planned_relabel existing ps res moves gs s x :
  planned existing ps res moves gs s → x ∈ existing →
  ∃ a y, sorted_set existing !! a = Some x ∧ a = bisect_left (sorted_set existing) x
         ∧ positions s !! a = Some y ∧ relabel moves x = y.
Proof.
  intros P Hx%sorted_set_elem. pose proof (sorted_set_sorted existing) as Hs.
  pose proof (bisect_left_elem _ _ Hs Hx) as Ha.
  destruct (lookup_lt_is_Some_2 (positions s) (bisect_left (sorted_set existing) x)) as [y Hy].
  { rewrite (pl_len _ _ _ _ _ _ P). by eapply lookup_lt_Some. }
  eexists _, y; split_and!; [done|done|done|].
  rewrite (pl_moves _ _ _ _ _ _ P). eapply relabel_respaced; [apply sorted_set_NoDup|done..].
Qed.

Lemma wf_positions_mono pos a b x y :
  wf_positions pos → pos !! a = Some x → pos !! b = Some y → (a < b)%nat → x < y.
Proof.
  intros Hwf Ha. revert y. induction b as [|b IH]; intros y Hb Hab; [lia|].
  destruct (Hwf _ _ Hb) as [Hlow _]. simpl in Hlow.
  destruct (lookup_lt_is_Some_2 pos b) as [z Hz]; [apply lookup_lt_Some in Hb; lia|].
  rewrite Hz in Hlow. simpl in Hlow. destruct (decide (a = b)) as [->|]; [congruence|].
  specialize (IH z Hz ltac:(lia)). lia.
Qed.

Lemma wf_positions_lower pos a g x :
  wf_positions pos → pos !! a = Some x → (a < g)%nat → (g <= length pos)%nat → x <= lower_of pos g.
Proof.
  intros Hwf Ha Hag Hg. destruct g as [|g]; [lia|]. simpl.
  destruct (lookup_lt_is_Some_2 pos g) as [z Hz]; [lia|]. rewrite Hz. simpl.
  destruct (decide (a = g)) as [->|]; [by simplify_eq|].
  pose proof (wf_positions_mono pos a g x z Hwf Ha Hz ltac:(lia)). lia.
Qed.

(** The label of a placement of a planned layout. *)
Lemma planned_label existing ps res moves gs s i p :
  planned existing ps res moves gs s → ps !! i = Some p →
  ∃ g v, gs !! i = Some g ∧ gap_ok (sorted_set existing) p g
         ∧ res !! i = Some (Some v) ∧ between (positions s) g v.
Proof.
  intros P Hp. destruct (Forall2_lookup_l _ _ _ _ _ (pl_gaps _ _ _ _ _ _ P) Hp) as (g & Hg & Hok).
  destruct (pl_all _ _ _ _ _ _ P g i Hg) as [v Hv].
  exists g, v. rewrite (pl_res _ _ _ _ _ _ P). split_and!; [done..|].
  eapply wf_between; [apply P|done..].
Qed.

Lemma planned_increasing existing ps res moves gs s i j v w :
  planned existing ps res moves gs s → (i < j)%nat →
  res !! i = Some (Some v) → res !! j = Some (Some w) → v < w.
Proof.
  intros P Hij Hv Hw. rewrite (pl_res _ _ _ _ _ _ P) in Hv, Hw.
  pose proof (pl_wf _ _ _ _ _ _ P) as Hwf.
  destruct (lookup_lt_is_Some_2 gs i) as [g Hg].
  { rewrite <-(wf_len _ _ Hwf). by eapply lookup_lt_Some. }
  destruct (lookup_lt_is_Some_2 gs j) as [h Hh].
  { rewrite <-(wf_len _ _ Hwf). by eapply lookup_lt_Some. }
  assert (g <= h)%nat as Hgh.
  { pose proof (pl_sorted _ _ _ _ _ _ P) as Hs. revert Hs Hg Hh Hij. clear. intros Hs. revert i j.
    induction Hs as [|x l Hl IH HF]; intros [|i] [|j]; simpl; try lia; try done.
    - intros [= ->] Hh _. rewrite Forall_forall in HF. by apply HF, (list_elem_of_lookup_2 _ j).
    - intros. eapply IH; [done..|lia]. }
  destruct (decide (g = h)) as [->|Hne]; [by eapply (wf_order _ _ Hwf h i j)|].
  destruct (wf_between _ _ Hwf i g v Hg Hv) as (_ & _ & Hup).
  destruct (wf_between _ _ Hwf j h w Hh Hw) as (Hlo & _ & _).
  destruct (Forall2_lookup_r _ _ _ _ _ (pl_gaps _ _ _ _ _ _ P) Hh) as (p & _ & [Hhn _]).
  rewrite <-(pl_len _ _ _ _ _ _ P) in Hhn.
  destruct (lookup_lt_is_Some_2 (positions s) g) as [u Hu]; [lia|].
  pose proof (wf_positions_lower (positions s) g h u (wf_pos _ _ Hwf) Hu ltac:(lia) Hhn).
  specialize (Hup u Hu). lia.
Qed.

Lemma planned_length existing ps res moves gs s :
  planned existing ps res moves gs s → length res = length ps.
Proof.
  intros P. rewrite (pl_res _ _ _ _ _ _ P), (wf_len _ _ (pl_wf _ _ _ _ _ _ P)).
  symmetry. eapply Forall2_length, P.
Qed.

Lemma planned_total existing ps res moves gs s :
  planned existing ps res moves gs s → ∃ new, res = Some <$> new.
Proof.
  intros P. assert (∀ o, o ∈ res → is_Some o) as Hall.
  { intros o [i Hi]%list_elem_of_lookup.
    destruct (lookup_lt_is_Some_2 ps i) as [p Hp].
    { rewrite <-(planned_length _ _ _ _ _ _ P). by eapply lookup_lt_Some. }
    destruct (planned_label _ _ _ _ _ _ _ _ P Hp) as (g & v & _ & _ & Hv & _). simplify_eq. eauto. }
  clear P. induction res as [|o res IH]; [by exists []|].
  destruct (Hall o) as [v ->]; [by left|].
  destruct IH as [new ->]; [intros o Ho; apply Hall; by right|]. by exists (v :: new).
Qed.

Lemma between_not_position pos a g v y :
  wf_positions pos → (g <= length pos)%nat → between pos g v → pos !! a = Some y → y ≠ v.
Proof.
  intros Hpos Hg (Hlo & _ & Hup) Hy ->. destruct (decide (a < g)%nat).
  - pose proof (wf_positions_lower pos a g v Hpos Hy ltac:(done) Hg). lia.
  - destruct (lookup_lt_is_Some_2 pos g) as [u Hu]; [apply lookup_lt_Some in Hy; lia|].
    specialize (Hup u Hu). destruct (decide (a = g)) as [->|]; [simplify_eq; lia|].
    pose proof (wf_positions_mono pos g a u v Hpos Hu Hy ltac:(lia)). lia.
Qed.

Lemma planned_relabel_mono existing ps res moves gs s x y :
  planned existing ps res moves gs s → x ∈ existing → y ∈ existing → x < y →
  relabel moves x < relabel moves y.
Proof.
  intros P Hx Hy Hxy.
  destruct (planned_relabel _ _ _ _ _ _ x P Hx) as (a & x' & Ha & _ & Hx' & ->).
  destruct (planned_relabel _ _ _ _ _ _ y P Hy) as (b & y' & Hb & _ & Hy' & ->).
  eapply wf_positions_mono; [apply (wf_pos _ _ (pl_wf _ _ _ _ _ _ P))|done..|].
  by apply (sorted_lookup_mono _ _ _ x y (sorted_set_sorted existing) Ha Hb).
Qed.

(** A new label is a positive signed 64-bit integer no relabelled existing
    ordinal equals. *)
Lemma planned_new existing ps res moves gs s i v :
  planned existing ps res moves gs s → res !! i = Some (Some v) →
  0 < v <= MAX_ORDINAL ∧ ∀ x, x ∈ existing → relabel moves x ≠ v.
Proof.
  intros P Hi. pose proof (wf_pos _ _ (pl_wf _ _ _ _ _ _ P)) as Hpos.
  destruct (lookup_lt_is_Some_2 ps i) as [p Hp].
  { rewrite <-(planned_length _ _ _ _ _ _ P). by eapply lookup_lt_Some. }
  destruct (planned_label _ _ _ _ _ _ _ _ P Hp) as (g & v' & _ & [Hg _] & Hv & Hb).
  simplify_eq. rewrite <-(pl_len _ _ _ _ _ _ P) in Hg.
  pose proof (lower_of_nonneg (positions s) g Hpos). split; [unfold between in Hb; lia|].
  intros x Hx. destruct (planned_relabel _ _ _ _ _ _ x P Hx) as (a & y & _ & _ & Hy & ->).
  by eapply between_not_position.
Qed.

(** C10: a returned plan gives every placement a label; the labels are positive
    signed 64-bit integers that increase strictly in view order; no label
    equals a (re-spaced) existing one; and re-spacing keeps the existing labels
    in range and in their order. *)
Theorem plan_ordinals_sound existing ps res moves :
  plan_ordinals existing ps = Ok (res, moves) →
  (∃ new, res = Some <$> new ∧ length new = length ps
          ∧ (∀ i j v w, (i < j)%nat → new !! i = Some v → new !! j = Some w → v < w)
          ∧ (∀ v, v ∈ new → 0 < v <= MAX_ORDINAL ∧ ∀ x, x ∈ existing → relabel moves x ≠ v))
  ∧ (∀ x, x ∈ existing → 0 < relabel moves x <= MAX_ORDINAL)
  ∧ (∀ x y, x ∈ existing → y ∈ existing → x < y → relabel moves x < relabel moves y).
Proof.
  intros (gs & s & P)%plan_ordinals_planned.
  pose proof (wf_pos _ _ (pl_wf _ _ _ _ _ _ P)) as Hpos. split_and!.
  - destruct (planned_total _ _ _ _ _ _ P) as [new Hres]. exists new.
    assert (∀ i v, new !! i = Some v → res !! i = Some (Some v)) as Hat.
    { intros i v Hi. by rewrite Hres, list_lookup_fmap, Hi. }
    split_and!; [done| | |].
    + by rewrite <-(planned_length _ _ _ _ _ _ P), Hres, length_fmap.
    + intros i j v w Hij Hv%Hat Hw%Hat. by eapply planned_increasing.
    + intros v [i Hi]%list_elem_of_lookup. apply Hat in Hi. by eapply planned_new.
  - intros x Hx. destruct (planned_relabel _ _ _ _ _ _ x P Hx) as (a & y & _ & _ & Hy & ->).
    destruct (Hpos a y Hy). pose proof (lower_of_nonneg (positions s) a Hpos). lia.
  - intros x y. by eapply planned_relabel_mono.
Qed.

Lemma plan_ordinals_sound_witness :
  ∃ res moves, plan_ordinals [100; 101; 2 ^ 30] [Build_Placement (Some 100) (Some 101) None] = Ok (res, moves)
    ∧ ∀ x, x ∈ [100; 101; 2 ^ 30] → 0 < relabel moves x <= MAX_ORDINAL.
Proof.
  eexists _, _. split; [vm_compute; reflexivity|].
  refine (proj1 (proj2 (plan_ordinals_sound [100; 101; 2 ^ 30] [Build_Placement (Some 100) (Some 101) None] _ _ _))).
  vm_compute. reflexivity.
Defined.

(** A placement's label against the relabelled existing ones. *)
Lemma planned_within existing ps res moves gs s i p :
  planned existing ps res moves gs s → ps !! i = Some p →
  ∃ v, res !! i = Some (Some v)
  ∧ (∀ l, left p = Some l → relabel moves l < v)
  ∧ (∀ r, right p = Some r → v < relabel moves r)
  ∧ (∀ t, supersedes p = Some t →
       default 0 (left p) <= t < default (MAX_ORDINAL + 1) (right p) → relabel moves t < v)
  ∧ (right p = None → supersedes p = None → ∀ x, x ∈ existing → relabel moves x < v).
Proof.
  intros P Hp. pose proof (wf_pos _ _ (pl_wf _ _ _ _ _ _ P)) as Hpos.
  destruct (planned_label _ _ _ _ _ _ _ _ P Hp) as (g & v & Hg & (Hn & Hl & Ht & Hr & Hlast) & Hv & Hb).
  rewrite <-(pl_len _ _ _ _ _ _ P) in Hn.
  assert (∀ x, x ∈ sorted_set existing → (bisect_left (sorted_set existing) x < g)%nat →
    relabel moves x < v) as Hafter.
  { intros x Hx Hlt. pose proof (proj1 (sorted_set_elem _ _) Hx) as Hx'.
    destruct (planned_relabel _ _ _ _ _ _ x P Hx') as (a & y & _ & -> & Hy & ->).
    pose proof (wf_positions_lower _ _ _ _ Hpos Hy Hlt Hn). unfold between in Hb. lia. }
  exists v. split_and!; [done| | | |].
  - intros l El. destruct (Hl l El). auto.
  - intros r Er. destruct (Hr r Er) as [Hin Hle].
    destruct (planned_relabel _ _ _ _ _ _ r P (proj1 (sorted_set_elem _ _) Hin)) as (a & y & _ & -> & Hy & ->).
    destruct Hb as (_ & _ & Hup). destruct (lookup_lt_is_Some_2 (positions s) g) as [u Hu].
    { apply lookup_lt_Some in Hy. lia. }
    specialize (Hup u Hu). destruct (decide (g = bisect_left (sorted_set existing) r)) as [->|]; [by simplify_eq|].
    pose proof (wf_positions_mono _ _ _ _ _ Hpos Hu Hy ltac:(lia)). lia.
  - intros t Et Hin. destruct (Ht t Et). auto.
  - intros Er Et x Hx%sorted_set_elem. apply Hafter; [done|]. rewrite (Hlast Er Et).
    apply bisect_left_lt_length; [apply sorted_set_sorted|done].
Qed.

(** A planned row lands strictly between its (re-spaced) left and right
    bounds, and after the row it supersedes when that row is inside them. *)
Theorem plan_ordinals_within existing ps res moves i p v :
  plan_ordinals existing ps = Ok (res, moves) → ps !! i = Some p → res !! i = Some (Some v) →
  (∀ l, left p = Some l → relabel moves l < v)
  ∧ (∀ r, right p = Some r → v < relabel moves r)
  ∧ (∀ t, supersedes p = Some t →
       default 0 (left p) <= t < default (MAX_ORDINAL + 1) (right p) → relabel moves t < v).
Proof.
  intros (gs & s & P)%plan_ordinals_planned Hp Hv.
  destruct (planned_within _ _ _ _ _ _ _ _ P Hp) as (v' & Hv' & Hl & Hr & Ht & _). by simplify_eq.
Qed.

Lemma plan_ordinals_within_witness :
  relabel [(101, 715827916)] 100 < 357914008.
Proof.
  refine (proj1 (plan_ordinals_within [100; 101; 2 ^ 30] [Build_Placement (Some 100) (Some 101) None]
    [Some 357914008] [(101, 715827916)] 0 (Build_Placement (Some 100) (Some 101) None) 357914008 _ _ _) 100 _);
    vm_compute; reflexivity.
Defined.

(** ** The changes of a plan form a valid re-spacing map *)

Lemma respaced_elem original pos old new :
  (old, new) ∈ respaced original pos ↔
  ∃ i, original !! i = Some old ∧ pos !! i = Some new ∧ old ≠ new.
Proof.
  unfold respaced. rewrite list_elem_of_filter. simpl. split.
  - intros [Hne [i Hi]%list_elem_of_lookup]. apply lookup_zip_Some in Hi as [??]. eauto.
  - intros (i & Ho & Hp & Hne). split; [done|]. apply (list_elem_of_lookup_2 _ i).
    apply lookup_zip_Some. by split.
Qed.

Lemma wf_positions_inj pos a b x :
  wf_positions pos → pos !! a = Some x → pos !! b = Some x → a = b.
Proof.
  intros Hwf Ha Hb. destruct (Nat.lt_trichotomy a b) as [H|[H|H]]; [|done|].
  - pose proof (wf_positions_mono _ _ _ _ _ Hwf Ha Hb H). lia.
  - pose proof (wf_positions_mono _ _ _ _ _ Hwf Hb Ha H). lia.
Qed.

Lemma NoDup_zip_filter_l {A B} (P : A * B → Prop) `{!∀ x, Decision (P x)} (l : list A) (k : list B) :
  NoDup l → NoDup (filter P (zip l k)).*1.
Proof.
  intros Hnd. revert k. induction Hnd as [|x l Hx Hl IH]; intros [|y k]; try constructor. simpl.
  rewrite filter_cons. case_decide; [|done]. simpl. constructor; [|done].
  intros ([u v] & -> & [_ Hin]%list_elem_of_filter)%list_elem_of_fmap. by apply elem_of_zip_l in Hin.
Qed.

Lemma NoDup_zip_filter_r {A B} (P : A * B → Prop) `{!∀ x, Decision (P x)} (l : list A) (k : list B) :
  NoDup k → NoDup (filter P (zip l k)).*2.
Proof.
  intros Hnd. revert l. induction Hnd as [|x k Hx Hk IH]; intros [|y l]; try constructor. simpl.
  rewrite filter_cons. case_decide; [|done]. simpl. constructor; [|done].
  intros ([u v] & -> & [_ Hin]%list_elem_of_filter)%list_elem_of_fmap. by apply elem_of_zip_r in Hin.
Qed.

Lemma wf_positions_NoDup pos : wf_positions pos → NoDup pos.
Proof. intros H. apply NoDup_alt. intros i j x. by apply wf_positions_inj. Qed.

Lemma wf_positions_index pos i x : wf_positions pos → pos !! i = Some x → Z.of_nat i < x.
Proof.
  intros Hwf. revert x. induction i as [|i IH]; intros x Hx; destruct (Hwf _ _ Hx) as [Hlow _]; simpl in Hlow; [lia|].
  destruct (lookup_lt_is_Some_2 pos i) as [z Hz]; [apply lookup_lt_Some in Hx; lia|].
  rewrite Hz in Hlow. simpl in Hlow. specialize (IH z Hz). lia.
Qed.

Lemma wf_positions_length pos : wf_positions pos → Z.of_nat (length pos) <= MAX_ORDINAL.
Proof.
  intros Hwf. destruct (length pos) as [|n] eqn:E; [done|].
  destruct (lookup_lt_is_Some_2 pos n) as [z Hz]; [lia|].
  pose proof (wf_positions_index _ _ _ Hwf Hz). destruct (Hwf _ _ Hz). lia.
Qed.

Lemma planned_valid_existing existing ps res moves gs s x :
  planned existing ps res moves gs s → x ∈ existing → 0 < x <= MAX_ORDINAL.
Proof.
  intros P Hx%sorted_set_elem. pose proof (pl_valid _ _ _ _ _ _ P) as Hv.
  rewrite forallb_forall in Hv. setoid_rewrite <-list_elem_of_In in Hv.
  specialize (Hv x Hx). unfold valid_ordinal in Hv. by apply bool_decide_eq_true in Hv.
Qed.

(** What [apply_respace] asks of a map, and what its temporaries need. *)
Record respace_map (existing : list Z) (moves : list (Z * Z)) : Prop := {
  rm_keys : NoDup moves.*1;
  rm_known : ∀ k, k ∈ moves.*1 → k ∈ existing;
  rm_range : ∀ v, v ∈ moves.*2 → 0 < v <= MAX_ORDINAL;
  rm_new : NoDup moves.*2;
  rm_free : ∀ v, v ∈ moves.*2 → v ∈ existing → v ∈ moves.*1;
  rm_length : Z.of_nat (length moves) <= MAX_ORDINAL
}.

Lemma planned_respace_map existing ps res moves gs s :
  planned existing ps res moves gs s → respace_map existing moves.
Proof.
  intros P. pose proof (wf_pos _ _ (pl_wf _ _ _ _ _ _ P)) as Hpos.
  rewrite (pl_moves _ _ _ _ _ _ P). constructor.
  - apply NoDup_zip_filter_l, sorted_set_NoDup.
  - intros k ([old new] & -> & Hin)%list_elem_of_fmap.
    apply respaced_elem in Hin as (i & Hi & _). apply sorted_set_elem.
    by apply (list_elem_of_lookup_2 _ i).
  - intros v ([old new] & -> & Hin)%list_elem_of_fmap.
    apply respaced_elem in Hin as (i & _ & Hi & _). destruct (Hpos _ _ Hi).
    pose proof (lower_of_nonneg _ i Hpos). simpl. lia.
  - by apply NoDup_zip_filter_r, wf_positions_NoDup.
  - intros v ([old new] & -> & Hin)%list_elem_of_fmap Hv. simpl in *.
    apply respaced_elem in Hin as (i & Hi & Hi' & Hne).
    apply sorted_set_elem, list_elem_of_lookup in Hv as [j Hj].
    destruct (lookup_lt_is_Some_2 (positions s) j) as [w Hw].
    { rewrite (pl_len _ _ _ _ _ _ P). by eapply lookup_lt_Some. }
    apply list_elem_of_fmap. exists (new, w). split; [done|].
    apply respaced_elem. exists j. split_and!; [done..|].
    intros <-. pose proof (wf_positions_inj _ _ _ _ Hpos Hi' Hw) as <-. congruence.
  - etrans; [|apply (wf_positions_length _ Hpos)]. apply Nat2Z.inj_le. unfold respaced.
    etrans; [apply length_filter|]. rewrite length_zip. lia.
Qed.
