(* ===== verification/LedgerStore.v ===== *)
(** The ledger tables and their writers (ingest_ledger.py, schema in store.py).

    The SQLite tables are lists of rows in rowid order; a statement is a
    function on them.  A statement that violates an index raises
    [IntegrityError], and a writer that raises returns no new state: its
    transaction is rolled back by the owner. *)

From S2P Require Import Prelude LedgerCodec LedgerOrdinals.
From Stdlib Require Import Floats.SpecFloat.
From stdpp Require Import pretty options.

#[local] Open Scope Z_scope.

(** ** Rows *)

Inductive disposition := Stored | Migrated | Ambiguous | CompositePart | SplitPart.
Inductive emission_kind := Summary | Carrier | Scaffold | Recovery | Projection.
Inductive emission_state := Proposed | Adopted | Refused.
Inductive stamp_kind := AltStamp | CarriedStamp.
Inductive stamp_source := FromLedger | FromLegacy.
Inductive view_kind := IngestView | EmissionView.
Inductive stamp_policy := Normal | StampUnreliable.

#[global] Instance disposition_eq_dec : EqDecision disposition.
Proof. solve_decision. Defined.
#[global] Instance emission_kind_eq_dec : EqDecision emission_kind.
Proof. solve_decision. Defined.
#[global] Instance emission_state_eq_dec : EqDecision emission_state.
Proof. solve_decision. Defined.
#[global] Instance stamp_kind_eq_dec : EqDecision stamp_kind.
Proof. solve_decision. Defined.
#[global] Instance stamp_source_eq_dec : EqDecision stamp_source.
Proof. solve_decision. Defined.
#[global] Instance view_kind_eq_dec : EqDecision view_kind.
Proof. solve_decision. Defined.
#[global] Instance stamp_policy_eq_dec : EqDecision stamp_policy.
Proof. solve_decision. Defined.

Module Binding.
Record t := mk {
  occ_id : Z;
  lineage : string;
  ordinal : option Z;
  store_id : option Z;
  identity_digest : bytes;
  stamp : option string;
  disp : disposition;
  tag : option string;
  key_rank : option Z;
  view_seq : Z
}.
#[global] Instance t_eq_dec : EqDecision t.
Proof. solve_decision. Defined.
End Binding.

Module Emission.
Record t := mk {
  emission_id : Z;
  lineage : string;
  view_seq : Z;
  output_index : Z;
  descriptor_digest : bytes;
  kind : emission_kind;
  state : emission_state;
  recovered_store_id : option Z
}.
#[global] Instance t_eq_dec : EqDecision t.
Proof. solve_decision. Defined.
End Emission.

Module Observation.
Record t := mk {
  lineage : string;
  occ_id : Z;
  stamp : string;
  kind : stamp_kind;
  view_seq : Z;
  source : stamp_source
}.
#[global] Instance t_eq_dec : EqDecision t.
Proof. solve_decision. Defined.
End Observation.

Module View.
Record t := mk {
  lineage : string;
  view_seq : Z;
  kind : view_kind;
  state : option emission_state;
  entries : bytes;
  prefix_chain : bytes
}.
#[global] Instance t_eq_dec : EqDecision t.
Proof. solve_decision. Defined.
End View.

Module Mark.
Record t := mk {
  max_store_id : option Z;
  legacy_proof_digest : option bytes;
  max_leaf_id : option Z;
  policy : stamp_policy
}.
#[global] Instance t_eq_dec : EqDecision t.
Proof. solve_decision. Defined.
End Mark.

(** The columns of [messages] the ledger reads; [observed_at] is a REAL. *)
Module Message.
Record t := mk {
  store_id : Z;
  session_id : string;
  role : string;
  conversation_id : option string;
  observed_at : option spec_float
}.
End Message.

(** A value of [ledger_meta]. *)
Inductive meta_value :=
| MInt (z : Z)
| MText (s : string)
| MBlob (b : bytes).

#[global] Instance meta_value_eq_dec : EqDecision meta_value.
Proof. solve_decision. Defined.

Record ledger := {
  owned : bool;  (* [TransactionOwner.owns_connection] *)
  ledger_meta : gmap string meta_value;
  bindings : list Binding.t;
  last_occ : Z;  (* AUTOINCREMENT: the largest [occ_id] ever given *)
  emissions : list Emission.t;
  last_emission : Z;
  observations : list Observation.t;
  views : list View.t;
  marks : gmap string Mark.t;
  messages : list Message.t
}.

Definition set_meta (m : gmap string meta_value) (d : ledger) : ledger :=
  {| owned := owned d; ledger_meta := m; bindings := bindings d; last_occ := last_occ d;
     emissions := emissions d; last_emission := last_emission d; observations := observations d;
     views := views d; marks := marks d; messages := messages d |}.
Definition set_bindings (b : list Binding.t) (n : Z) (d : ledger) : ledger :=
  {| owned := owned d; ledger_meta := ledger_meta d; bindings := b; last_occ := n;
     emissions := emissions d; last_emission := last_emission d; observations := observations d;
     views := views d; marks := marks d; messages := messages d |}.
Definition set_emissions (e : list Emission.t) (n : Z) (d : ledger) : ledger :=
  {| owned := owned d; ledger_meta := ledger_meta d; bindings := bindings d; last_occ := last_occ d;
     emissions := e; last_emission := n; observations := observations d;
     views := views d; marks := marks d; messages := messages d |}.
Definition set_observations (o : list Observation.t) (d : ledger) : ledger :=
  {| owned := owned d; ledger_meta := ledger_meta d; bindings := bindings d; last_occ := last_occ d;
     emissions := emissions d; last_emission := last_emission d; observations := o;
     views := views d; marks := marks d; messages := messages d |}.
Definition set_views (v : list View.t) (d : ledger) : ledger :=
  {| owned := owned d; ledger_meta := ledger_meta d; bindings := bindings d; last_occ := last_occ d;
     emissions := emissions d; last_emission := last_emission d; observations := observations d;
     views := v; marks := marks d; messages := messages d |}.
Definition set_marks (m : gmap string Mark.t) (d : ledger) : ledger :=
  {| owned := owned d; ledger_meta := ledger_meta d; bindings := bindings d; last_occ := last_occ d;
     emissions := emissions d; last_emission := last_emission d; observations := observations d;
     views := views d; marks := m; messages := messages d |}.

(** ** Statements *)

Definition require_owner {A} (d : ledger) (k : result ledger_error A) : result ledger_error A :=
  raise_if (negb (owned d)) LedgerTransactionError k.

(** [UPDATE t SET .. WHERE p]: the rows and the row count. *)
Definition update_where {A} (p : A → bool) (f : A → A) (l : list A) : list A * Z :=
  (map (λ r, if p r then f r else r) l, Z.of_nat (length (filter (λ r, p r = true) l))).

(** The partial unique index [idx_occ_lineage_ordinal]; NULLs never collide. *)
Definition kept (x : disposition) : bool :=
  match x with Stored | Migrated | Ambiguous => true | CompositePart | SplitPart => false end.

Definition index_key (b : Binding.t) : option (string * Z) :=
  if kept (Binding.disp b)
  then (λ o, (Binding.lineage b, o)) <$> Binding.ordinal b else None.

Definition unique_ordinals (l : list Binding.t) : Prop := NoDup (omap index_key l).

#[global] Instance unique_ordinals_dec l : Decision (unique_ordinals l).
Proof. unfold unique_ordinals. apply _. Defined.

Definition commit_bindings (l : list Binding.t) (d : ledger) : result ledger_error ledger :=
  raise_if (negb (bool_decide (unique_ordinals l))) IntegrityError
    (Ok (set_bindings l (last_occ d) d)).

Definition update_bindings (p : Binding.t → bool) (f : Binding.t → Binding.t) (d : ledger)
    : result ledger_error (ledger * Z) :=
  let '(l, n) := update_where p f (bindings d) in
  let! d := commit_bindings l d in Ok (d, n).

(** [CAST(value AS INTEGER)]: the longest integer prefix of a text, clamped. *)
Definition is_space (c : Z) : bool := bool_decide (c = 32 ∨ 9 <= c <= 13).
Definition char_code (c : Ascii.ascii) : Z := Z.of_nat (Ascii.nat_of_ascii c).

Fixpoint digits_value (acc : Z) (cs : list Z) : Z :=
  match cs with
  | c :: cs => if bool_decide (48 <= c <= 57) then digits_value (acc * 10 + (c - 48)) cs else acc
  | [] => acc
  end.

Fixpoint cast_chars (cs : list Z) : Z :=
  match cs with
  | c :: cs' =>
      if is_space c then cast_chars cs'
      else if bool_decide (c = 45) then - digits_value 0 cs'
      else if bool_decide (c = 43) then digits_value 0 cs'
      else digits_value 0 cs
  | [] => 0
  end.

Definition clamp_i64 (z : Z) : Z := Z.max (- 2 ^ 63) (Z.min (2 ^ 63 - 1) z).

Definition cast_int (v : meta_value) : Z :=
  match v with
  | MInt z => z
  | MText s => clamp_i64 (cast_chars (char_code <$> String.list_ascii_of_string s))
  | MBlob b => clamp_i64 (cast_chars (byte_to_Z <$> b))
  end.

(** ** Writers *)

Definition next_view_seq (d : ledger) : result ledger_error (ledger * Z) :=
  require_owner d
  (match ledger_meta d !! "view_seq" with
   | None => Err LedgerError
   | Some v =>
       let n := cast_int v + 1 in
       Ok (set_meta (<["view_seq" := MInt n]> (ledger_meta d)) d, n)
   end).

(** The columns a caller gives for a new binding. *)
Record binding_row := {
  r_ordinal : option Z;
  r_store_id : option Z;
  r_identity : bytes;
  r_stamp : option string;
  r_disposition : disposition;
  r_tag : option string;
  r_key_rank : option Z;
  r_view_seq : Z
}.

Definition insert_binding (lineage : string) (r : binding_row) (d : ledger)
    : result ledger_error (ledger * Z) :=
  let occ := last_occ d + 1 in
  let l := bindings d ++ [Binding.mk occ lineage (r_ordinal r) (r_store_id r) (r_identity r)
                            (r_stamp r) (r_disposition r) (r_tag r) (r_key_rank r) (r_view_seq r)] in
  raise_if (negb (bool_decide (unique_ordinals l))) IntegrityError (Ok (set_bindings l occ d, occ)).

Fixpoint insert_bindings_loop (lineage : string) (rows : list binding_row) (d : ledger)
    : result ledger_error (ledger * list Z) :=
  match rows with
  | [] => Ok (d, [])
  | r :: rows =>
      let! (d, occ) := insert_binding lineage r d in
      let! (d, occs) := insert_bindings_loop lineage rows d in
      Ok (d, occ :: occs)
  end.

Definition insert_bindings (lineage : string) (rows : list binding_row) (d : ledger)
    : result ledger_error (ledger * list Z) :=
  require_owner d (insert_bindings_loop lineage rows d).

(** [(session_id, conversation_id, observed_at, store_id)], NULLs as [None]. *)
Record recovery_source := {
  rs_session : option string;
  rs_conversation : option string;
  rs_observed : option spec_float;
  rs_max_store : option Z
}.

Definition sql_eq {A} `{EqDecision A} (x : option A) (y : A) : bool :=
  if x is Some x then bool_decide (x = y) else false.

Definition recovery_match (s : recovery_source) (m : Message.t) : bool :=
  bool_decide (Message.role m = "user")
  && sql_eq (rs_session s) (Message.session_id m)
  && match Message.conversation_id m with
     | None => true
     | Some c => sql_eq (rs_conversation s) c || bool_decide (c = "")
     end
  && match rs_observed s, Message.observed_at m with
     | Some x, Some y => SFeqb y x
     | _, _ => false
     end
  && match rs_max_store s with
     | Some k => bool_decide (Message.store_id m <= k)
     | None => false
     end.

(** The only matching message, if exactly one matches. *)
Definition recovered_store (s : recovery_source) (ms : list Message.t) : option Z :=
  match filter (λ m, recovery_match s m = true) ms with
  | [m] => Some (Message.store_id m)
  | _ => None
  end.

Record emission_row := {
  e_output_index : Z;
  e_descriptor : bytes;
  e_kind : emission_kind;
  e_recovery : option recovery_source
}.

Definition emission_key (e : Emission.t) : string * Z * Z :=
  (Emission.lineage e, Emission.view_seq e, Emission.output_index e).

Fixpoint insert_emissions_loop (lineage : string) (view_seq : Z) (rows : list emission_row)
    (d : ledger) : result ledger_error (ledger * list Z) :=
  match rows with
  | [] => Ok (d, [])
  | r :: rows =>
      let id := last_emission d + 1 in
      let recovered := e_recovery r ≫= λ s, recovered_store s (messages d) in
      let e := Emission.mk id lineage view_seq (e_output_index r) (e_descriptor r) (e_kind r)
                 Proposed recovered in
      raise_if (bool_decide (emission_key e ∈ emission_key <$> emissions d)) IntegrityError
      (let! (d, ids) := insert_emissions_loop lineage view_seq rows
                          (set_emissions (emissions d ++ [e]) id d) in
       Ok (d, id :: ids))
  end.

Definition insert_emissions (lineage : string) (view_seq : Z) (rows : list emission_row)
    (d : ledger) : result ledger_error (ledger * list Z) :=
  require_owner d (insert_emissions_loop lineage view_seq rows d).

Definition set_emission_state (lineage : string) (view_seq : Z) (new_state : emission_state)
    (d : ledger) : result ledger_error (ledger * (Z * Z)) :=
  require_owner d
  (raise_if (bool_decide (new_state = Proposed)) LedgerError
   (let '(es, moved) :=
      update_where (λ e, bool_decide (Emission.lineage e = lineage)
                         && bool_decide (Emission.view_seq e = view_seq)
                         && bool_decide (Emission.state e = Proposed))
        (λ e, Emission.mk (Emission.emission_id e) (Emission.lineage e) (Emission.view_seq e)
                (Emission.output_index e) (Emission.descriptor_digest e) (Emission.kind e)
                new_state (Emission.recovered_store_id e)) (emissions d) in
    let d := set_emissions es (last_emission d) d in
    if bool_decide (moved = 0) then Ok (d, (0, 0)) else
    let '(vs, nviews) :=
      update_where (λ v, bool_decide (View.lineage v = lineage)
                         && bool_decide (View.view_seq v = view_seq)
                         && bool_decide (View.kind v = EmissionView)
                         && bool_decide (View.state v = Some Proposed))
        (λ v, View.mk (View.lineage v) (View.view_seq v) (View.kind v) (Some new_state)
                (View.entries v) (View.prefix_chain v)) (views d) in
    Ok (set_views vs d, (moved, nviews)))).

(** ** Re-spacing: two phases through temporary negative labels *)

(** [SELECT ordinal .. WHERE lineage=? AND ordinal IS NOT NULL] *)
Definition occupied (lineage : string) (d : ledger) : list Z :=
  omap (λ b, if bool_decide (Binding.lineage b = lineage) then Binding.ordinal b else None)
    (bindings d).

Definition set_ordinal (o : option Z) (b : Binding.t) : Binding.t :=
  Binding.mk (Binding.occ_id b) (Binding.lineage b) o (Binding.store_id b)
    (Binding.identity_digest b) (Binding.stamp b) (Binding.disp b) (Binding.tag b)
    (Binding.key_rank b) (Binding.view_seq b).

(** [UPDATE occurrence_bindings SET ordinal=new WHERE lineage=? AND ordinal=old] *)
Definition at_ordinal (lineage : string) (o : Z) (b : Binding.t) : bool :=
  bool_decide (Binding.lineage b = lineage) && bool_decide (Binding.ordinal b = Some o).

Definition move_ordinal (lineage : string) (old new : Z) (d : ledger)
    : result ledger_error (ledger * Z) :=
  update_bindings (at_ordinal lineage old) (set_ordinal (Some new)) d.

Definition valid_respace (mapping : list (Z * Z)) (occ : list Z) : bool :=
  forallb valid_ordinal mapping.*2
  && bool_decide (NoDup mapping.*2)
  && forallb (λ v, negb (bool_decide (v ∈ occ) && bool_decide (v ∉ mapping.*1))) mapping.*2.

Fixpoint stage_respace (lineage : string) (temporary : Z) (mapping : list (Z * Z)) (d : ledger)
    : result ledger_error (ledger * Z * list (Z * Z)) :=
  match mapping with
  | [] => Ok (d, 0, [])
  | (old, new) :: mapping =>
      let temporary := temporary - 1 in
      raise_if (bool_decide (temporary < - 2 ^ 63)) LedgerError
      (let! (d, n) := move_ordinal lineage old temporary d in
       let! (d, count, staged) := stage_respace lineage temporary mapping d in
       Ok (d, n + count, (temporary, new) :: staged))
  end.

Fixpoint finish_respace (lineage : string) (staged : list (Z * Z)) (d : ledger)
    : result ledger_error ledger :=
  match staged with
  | [] => Ok d
  | (temporary, new) :: staged =>
      let! (d, _) := move_ordinal lineage temporary new d in
      finish_respace lineage staged d
  end.

Definition apply_respace (lineage : string) (mapping : list (Z * Z)) (d : ledger)
    : result ledger_error (ledger * Z) :=
  require_owner d
  (let occ := occupied lineage d in
   raise_if (negb (valid_respace mapping occ)) LedgerError
   (let! (d, count, staged) := stage_respace lineage (foldr Z.min 0 occ) mapping d in
    let! d := finish_respace lineage staged d in
    Ok (d, count))).

(** [SELECT DISTINCT ordinal .. ORDER BY ordinal] *)
Definition lineage_ordinals (lineage : string) (d : ledger) : list Z :=
  sorted_set (occupied lineage d).

(** ** Views *)

Definition view_key (v : View.t) : string * view_kind * Z :=
  (View.lineage v, View.kind v, View.view_seq v).

Definition of_kind (lineage : string) (kind : view_kind) (v : View.t) : bool :=
  bool_decide (View.lineage v = lineage) && bool_decide (View.kind v = kind).

(** [ORDER BY view_seq DESC] over the views of a lineage and kind. *)
Definition newest_seqs (lineage : string) (kind : view_kind) (vs : list View.t) : list Z :=
  reverse (merge_sort Z.le (View.view_seq <$> filter (λ v, of_kind lineage kind v = true) vs)).

Definition prune_views (lineage : string) (kind : view_kind) (d : ledger) : ledger :=
  let keep := take 2 (newest_seqs lineage kind (views d)) in
  set_views (filter (λ v, ¬ (of_kind lineage kind v = true ∧ View.view_seq v ∉ keep)) (views d)) d.

Section views.
Variable blake2b : bytes → bytes → bytes.

Definition write_view (salt : bytes) (lineage : string) (kind : view_kind)
    (state : option emission_state) (entries : list ViewEntry) (view_seq : option Z)
    (precomputed_chain : option bytes) (d : ledger) : result ledger_error (ledger * Z) :=
  require_owner d
  (let! encoded := encode_entries entries in
   let! chain := match precomputed_chain with
                 | None => prefix_chain blake2b salt entries
                 | Some c => Ok c
                 end in
   let! (d, seq) := match view_seq with None => next_view_seq d | Some s => Ok (d, s) end in
   let v := View.mk lineage seq kind state encoded chain in
   raise_if (bool_decide (view_key v ∈ view_key <$> views d)) IntegrityError
   (Ok (prune_views lineage kind (set_views (views d ++ [v]) d), seq))).

End views.

(** [SELECT * .. ORDER BY view_seq DESC LIMIT 1] *)
Definition newest_view (lineage : string) (kind : view_kind) (d : ledger) : option View.t :=
  match newest_seqs lineage kind (views d) with
  | [] => None
  | s :: _ => snd <$> list_find (λ v, of_kind lineage kind v = true ∧ View.view_seq v = s) (views d)
  end.

(** ** Marks and stamp observations *)

Definition default_mark : Mark.t := Mark.mk None None None Normal.

(** [INSERT .. ON CONFLICT DO UPDATE SET c=excluded.c WHERE c IS NOT excluded.c];
    a new row counts as a change. *)
Definition update_mark {A} `{EqDecision A} (get : Mark.t → A) (set : A → Mark.t → Mark.t)
    (lineage : string) (value : A) (d : ledger) : result ledger_error (ledger * bool) :=
  require_owner d
  (match marks d !! lineage with
   | None => Ok (set_marks (<[lineage := set value default_mark]> (marks d)) d, true)
   | Some m =>
       if bool_decide (get m = value) then Ok (d, false)
       else Ok (set_marks (<[lineage := set value m]> (marks d)) d, true)
   end).

Definition set_max_store (v : option Z) (m : Mark.t) : Mark.t :=
  Mark.mk v (Mark.legacy_proof_digest m) (Mark.max_leaf_id m) (Mark.policy m).
Definition set_max_leaf (v : option Z) (m : Mark.t) : Mark.t :=
  Mark.mk (Mark.max_store_id m) (Mark.legacy_proof_digest m) v (Mark.policy m).
Definition set_legacy_proof (v : option bytes) (m : Mark.t) : Mark.t :=
  Mark.mk (Mark.max_store_id m) v (Mark.max_leaf_id m) (Mark.policy m).
Definition set_policy (v : stamp_policy) (m : Mark.t) : Mark.t :=
  Mark.mk (Mark.max_store_id m) (Mark.legacy_proof_digest m) (Mark.max_leaf_id m) v.

Definition update_store_mark := update_mark Mark.max_store_id set_max_store.
Definition update_leaf_mark := update_mark Mark.max_leaf_id set_max_leaf.
Definition update_legacy_proof_digest := update_mark Mark.legacy_proof_digest set_legacy_proof.
Definition update_stamp_policy := update_mark Mark.policy set_policy.

Inductive stamp_outcome := STAMP_WRITTEN | STAMP_EXISTS | STAMP_CAPPED.

#[global] Instance stamp_outcome_eq_dec : EqDecision stamp_outcome.
Proof. solve_decision. Defined.

Definition observations_of (occ : Z) (kind : stamp_kind) (os : list Observation.t)
    : list Observation.t :=
  filter (λ o, Observation.occ_id o = occ ∧ Observation.kind o = kind) os.

(** [count(DISTINCT occ_id) FROM (SELECT .. WHERE lineage=? GROUP BY occ_id,kind
    HAVING count >= 4)] *)
Definition capped_occurrences (lineage : string) (os : list Observation.t) : nat :=
  let mine := filter (λ o, Observation.lineage o = lineage) os in
  length (remove_dups (Observation.occ_id <$>
    filter (λ o, (4 <= length (observations_of (Observation.occ_id o) (Observation.kind o) mine))%nat)
      mine)).

Definition add_stamp_observation (lineage : string) (occ : Z) (stamp : option string)
    (kind : stamp_kind) (view_seq : Z) (source : stamp_source) (d : ledger)
    : result ledger_error (ledger * stamp_outcome) :=
  require_owner d
  (match stamp with
   | None => Err LedgerError
   | Some stamp =>
       raise_if (negb (existsb (λ b, bool_decide (Binding.lineage b = lineage)
                                     && bool_decide (Binding.occ_id b = occ)) (bindings d))) LedgerError
       (let mine := observations_of occ kind (observations d) in
        if bool_decide (stamp ∈ Observation.stamp <$> mine) then Ok (d, STAMP_EXISTS)
        else if bool_decide (4 <= length mine)%nat then Ok (d, STAMP_CAPPED)
        else
          let d := set_observations
                     (observations d ++ [Observation.mk lineage occ stamp kind view_seq source]) d in
          let! d := (if bool_decide (3 <= capped_occurrences lineage (observations d))%nat
                     then let! (d, _) := update_stamp_policy lineage StampUnreliable d in Ok d
                     else Ok d) in
          Ok (d, STAMP_WRITTEN))
   end).

(** ** Lineage adoption *)

(** [host_uid_key] is the resolved key, [session_id] names the provisional one. *)
Definition starts_with (p s : string) : bool := String.prefix p s.

Definition lineage_key (host_uid_key : option string) (session_id : string)
    : result ledger_error string :=
  match host_uid_key with
  | Some k =>
      raise_if (starts_with "provisional:" k) LedgerError
        (Ok (if bool_decide (k = "") then "provisional:" +:+ session_id else k))
  | None => Ok ("provisional:" +:+ session_id)
  end.

(** [s.removeprefix(p)] *)
Definition removeprefix (p s : string) : string :=
  if String.prefix p s
  then String.substring (String.length p) (String.length s - String.length p) s else s.

(** [ORDER BY ordinal], NULLs first. *)
Definition ordinal_le (a b : Binding.t) : Prop :=
  match Binding.ordinal a, Binding.ordinal b with
  | None, _ => True
  | Some _, None => False
  | Some x, Some y => x <= y
  end.

#[global] Instance ordinal_le_dec a b : Decision (ordinal_le a b).
Proof. unfold ordinal_le. destruct (Binding.ordinal a), (Binding.ordinal b); apply _. Defined.

Definition kept_rows (lineage : string) (d : ledger) : list Binding.t :=
  merge_sort ordinal_le
    (filter (λ b, Binding.lineage b = lineage ∧ kept (Binding.disp b) = true) (bindings d)).

Definition replay_key (b : Binding.t) : option (string * bytes) :=
  (λ s, (s, Binding.identity_digest b)) <$> Binding.stamp b.

(** [keyed[k]] as the rows of key [k] in order; [popleft] drops the first one. *)
Fixpoint pop_key (k : string * bytes) (keyed : list ((string * bytes) * option Z))
    : option (option Z * list ((string * bytes) * option Z)) :=
  match keyed with
  | [] => None
  | (k', s) :: keyed =>
      if bool_decide (k' = k) then Some (s, keyed)
      else (λ x, (x.1, (k', s) :: x.2)) <$> pop_key k keyed
  end.

Fixpoint replay_pairs (source : list Binding.t) (keyed : list ((string * bytes) * option Z))
    : list (option Z * option Z) :=
  match source with
  | [] => []
  | row :: source =>
      match replay_key row ≫= λ k, pop_key k keyed with
      | Some (s, keyed') =>
          if bool_decide (s ≠ Binding.store_id row)
          then (Binding.store_id row, s) :: replay_pairs source keyed'
          else replay_pairs source keyed
      | None => replay_pairs source keyed
      end
  end.

Definition keyed_rows (target : list Binding.t) : list ((string * bytes) * option Z) :=
  omap (λ b, (λ k, (k, Binding.store_id b)) <$> replay_key b) target.

Definition min_opt (l : list Z) : option Z :=
  match l with [] => None | x :: l => Some (foldr Z.min x l) end.
Definition max_opt (l : list Z) : option Z :=
  match l with [] => None | x :: l => Some (foldr Z.max x l) end.

(** Bound rows of the target, stored after the oldest provisional row, that
    belong to the provisional session. *)
Definition late_rows (provisional lineage : string) (d : ledger) : bool :=
  match min_opt (omap Binding.store_id
                   (filter (λ b, Binding.lineage b = provisional) (bindings d))) with
  | None => false
  | Some oldest =>
      existsb (λ b,
        bool_decide (Binding.lineage b = lineage) && kept (Binding.disp b)
        && match Binding.store_id b with
           | Some s => bool_decide (oldest < s)
                       && existsb (λ m, bool_decide (Message.store_id m = s)
                            && bool_decide (Message.session_id m = removeprefix "provisional:" provisional))
                            (messages d)
           | None => false
           end) (bindings d)
  end.

Record merge_result := {
  m_pairs : list (option Z * option Z);
  m_unstamped_skipped : nat;
  m_late : bool;
  m_bindings : nat;
  m_observations : Z;
  m_emissions : Z;
  m_views : Z
}.

Definition rekey_binding (lineage : string) (o : option Z) (b : Binding.t) : Binding.t :=
  Binding.mk (Binding.occ_id b) lineage o (Binding.store_id b)
    (Binding.identity_digest b) (Binding.stamp b) (Binding.disp b) (Binding.tag b)
    (Binding.key_rank b) (Binding.view_seq b).

(** [executemany("UPDATE .. SET lineage=?,ordinal=? WHERE lineage=? AND ordinal=?")] *)
Fixpoint rekey_ordinals (lineage provisional : string) (olds : list Z) (new : list (option Z))
    (d : ledger) : result ledger_error ledger :=
  match olds, new with
  | old :: olds, o :: new =>
      let! (d, _) := update_bindings (at_ordinal provisional old) (rekey_binding lineage o) d in
      rekey_ordinals lineage provisional olds new d
  | _, _ => Ok d
  end.

Definition rekey_unplaced (lineage provisional : string) (d : ledger) : result ledger_error ledger :=
  let! (d, _) := update_bindings (λ b, bool_decide (Binding.lineage b = provisional))
                   (λ b, rekey_binding lineage (Binding.ordinal b) b) d in Ok d.

Definition rekey_observations (lineage provisional : string) (d : ledger) : ledger * Z :=
  let '(os, n) := update_where (λ o, bool_decide (Observation.lineage o = provisional))
    (λ o, Observation.mk lineage (Observation.occ_id o) (Observation.stamp o) (Observation.kind o)
            (Observation.view_seq o) (Observation.source o)) (observations d) in
  (set_observations os d, n).

Definition rekey_emissions (lineage provisional : string) (d : ledger)
    : result ledger_error (ledger * Z) :=
  let '(es, n) := update_where (λ e, bool_decide (Emission.lineage e = provisional))
    (λ e, Emission.mk (Emission.emission_id e) lineage (Emission.view_seq e)
            (Emission.output_index e) (Emission.descriptor_digest e) (Emission.kind e)
            (Emission.state e) (Emission.recovered_store_id e)) (emissions d) in
  raise_if (negb (bool_decide (NoDup (emission_key <$> es)))) IntegrityError
    (Ok (set_emissions es (last_emission d) d, n)).

Definition rekey_views (lineage provisional : string) (d : ledger)
    : result ledger_error (ledger * Z) :=
  let '(vs, n) := update_where (λ v, bool_decide (View.lineage v = provisional))
    (λ v, View.mk lineage (View.view_seq v) (View.kind v) (View.state v) (View.entries v)
            (View.prefix_chain v)) (views d) in
  raise_if (negb (bool_decide (NoDup (view_key <$> vs)))) IntegrityError
    (Ok (set_views vs d, n)).

Definition coalesce {A} (x y : option A) : option A := if x is Some _ then x else y.

Definition merge_mark (t p : Mark.t) : Mark.t :=
  Mark.mk (Mark.max_store_id t)
    (coalesce (Mark.legacy_proof_digest t) (Mark.legacy_proof_digest p))
    (coalesce (Mark.max_leaf_id t) (Mark.max_leaf_id p))
    (if bool_decide (Mark.policy t = StampUnreliable) || bool_decide (Mark.policy p = StampUnreliable)
     then StampUnreliable else Normal).

(** The provisional marks are folded into the target's and deleted. *)
Definition rekey_marks (lineage provisional : string) (m : gmap string Mark.t) : gmap string Mark.t :=
  delete provisional
    (match m !! provisional with
     | None => m
     | Some p =>
         <[lineage := match m !! lineage with
                      | None => Mark.mk None (Mark.legacy_proof_digest p) (Mark.max_leaf_id p) (Mark.policy p)
                      | Some t => merge_mark t p
                      end]> m
     end).

Definition recovered_key (lineage : string) : string := "emission_recovered:" +:+ lineage.

(** [INSERT .. ON CONFLICT DO UPDATE SET value=CAST(max(..) AS TEXT)] *)
Definition raise_recovered (lineage : string) (v : meta_value) (m : gmap string meta_value)
    : gmap string meta_value :=
  <[recovered_key lineage :=
      match m !! recovered_key lineage with
      | None => v
      | Some w => MText (pretty (Z.max (cast_int w) (cast_int v)))
      end]> m.

Definition rekey_meta (lineage provisional : string) (m : gmap string meta_value)
    : gmap string meta_value :=
  let m := match m !! recovered_key provisional with
           | None => m
           | Some v => raise_recovered lineage v m
           end in
  <["adopted_from:" +:+ provisional := MText lineage]> (delete (recovered_key provisional) m).

(** The plan of [merge_provisional]: the old labels of the provisional rows and
    their labels after the target's largest one. *)
Definition merge_labels (provisional lineage : string) (d : ledger)
    : result ledger_error (list Z * list (option Z)) :=
  let olds := lineage_ordinals provisional d in
  let maximum := max_opt (occupied lineage d) in
  let! (new, respace) :=
    plan_ordinals (if maximum is Some m then [m] else [])
      (replicate (length olds) {| left := maximum; right := None; supersedes := None |}) in
  raise_if (negb (bool_decide (respace = []))) LedgerError (Ok (olds, new)).

Definition merge_provisional (provisional lineage : string) (d : ledger)
    : result ledger_error (ledger * merge_result) :=
  require_owner d
  (let target := kept_rows lineage d in
   let source := kept_rows provisional d in
   let pairs := replay_pairs source (keyed_rows target) in
   let digests := Binding.identity_digest <$> target in
   let skipped := length (filter (λ b, Binding.stamp b = None ∧ Binding.identity_digest b ∈ digests) source) in
   let late := late_rows provisional lineage d in
   let n := length (filter (λ b, Binding.lineage b = provisional) (bindings d)) in
   let! (olds, new) := merge_labels provisional lineage d in
   let! d := rekey_ordinals lineage provisional olds new d in
   let! d := rekey_unplaced lineage provisional d in
   let '(d, n_obs) := rekey_observations lineage provisional d in
   let! (d, n_em) := rekey_emissions lineage provisional d in
   let! (d, n_views) := rekey_views lineage provisional d in
   let d := prune_views lineage EmissionView (prune_views lineage IngestView d) in
   let d := set_marks (rekey_marks lineage provisional (marks d)) d in
   let d := set_meta (rekey_meta lineage provisional (ledger_meta d)) d in
   Ok (d, {| m_pairs := pairs; m_unstamped_skipped := skipped; m_late := late; m_bindings := n;
             m_observations := n_obs; m_emissions := n_em; m_views := n_views |})).

(** ** Readers *)

Definition session_key (session_id : string) : string := "session_lineage:" +:+ session_id.

Definition persisted_lineage (session_id : string) (fallback : meta_value) (d : ledger) : meta_value :=
  default fallback (ledger_meta d !! session_key session_id).

Inductive emission_reason := NoView | RefusedView | WithheldRecovered | BelowFloor | Usable.

#[global] Instance emission_reason_eq_dec : EqDecision emission_reason.
Proof. solve_decision. Defined.

Definition provenance_floor (d : ledger) : Z :=
  match ledger_meta d !! "emission_provenance_floor" with
  | Some v => cast_int v
  | None => from_option cast_int 0 (ledger_meta d !! "view_seq")
  end.

Definition emission_candidate (lineage : string) (d : ledger) : option View.t * emission_reason :=
  match newest_view lineage EmissionView d with
  | None => (None, NoView)
  | Some v =>
      if negb (bool_decide (View.state v = Some Proposed) || bool_decide (View.state v = Some Adopted))
      then (None, RefusedView)
      else if (if ledger_meta d !! recovered_key lineage is Some r
               then bool_decide (View.view_seq v <= cast_int r) else false)
      then (None, WithheldRecovered)
      else if bool_decide (View.view_seq v <= provenance_floor d) then (None, BelowFloor)
      else (Some v, Usable)
  end.

(** [ORDER BY ordinal,occ_id]; rows are already in [occ_id] order. *)
Definition bindings_by_digest (lineage : string) (digest : bytes) (d : ledger) : list Binding.t :=
  merge_sort ordinal_le
    (filter (λ b, Binding.lineage b = lineage ∧ Binding.identity_digest b = digest) (bindings d)).

(** ** [apply_respace] is a simultaneous relabelling *)

(** The rows of [lineage] relabelled by [φ]. *)
Definition relabel_rows (lineage : string) (φ : Z → Z) (l : list Binding.t) : list Binding.t :=
  map (λ b, if bool_decide (Binding.lineage b = lineage)
            then set_ordinal (φ <$> Binding.ordinal b) b else b) l.

Definition ordinals_in (lineage : string) (l : list Binding.t) : list Z :=
  omap (λ b, if bool_decide (Binding.lineage b = lineage) then Binding.ordinal b else None) l.

Definition inj_on (φ : Z → Z) (l : list Z) : Prop :=
  ∀ x y, x ∈ l → y ∈ l → φ x = φ y → x = y.

Definition move (a b x : Z) : Z := if bool_decide (x = a) then b else x.

Lemma elem_of_ordinals_in lineage l o :
  o ∈ ordinals_in lineage l ↔ ∃ b, b ∈ l ∧ Binding.lineage b = lineage ∧ Binding.ordinal b = Some o.
Proof.
  unfold ordinals_in. rewrite list_elem_of_omap. split.
  - intros (b & Hb & Ho). case_bool_decide; [|done]. eauto.
  - intros (b & Hb & <- & Ho). exists b. split; [done|]. by rewrite bool_decide_eq_true_2.
Qed.

Lemma set_ordinal_id b : set_ordinal (Binding.ordinal b) b = b.
Proof. by destruct b. Qed.

Lemma relabel_rows_ext lineage φ ψ l :
  (∀ o, o ∈ ordinals_in lineage l → φ o = ψ o) → relabel_rows lineage φ l = relabel_rows lineage ψ l.
Proof.
  intros H. apply map_ext_in. intros b Hb%list_elem_of_In. case_bool_decide as Hl; [|done].
  f_equal. destruct (Binding.ordinal b) as [o|] eqn:Ho; [|done]. simpl. f_equal. apply H.
  apply elem_of_ordinals_in. eauto.
Qed.

Lemma relabel_rows_id lineage l : relabel_rows lineage id l = l.
Proof.
  unfold relabel_rows. rewrite <-(map_id l) at 2. apply map_ext. intros b.
  case_bool_decide; [|done]. by rewrite option_fmap_id, set_ordinal_id.
Qed.

Lemma index_key_relabel lineage φ b :
  index_key (if bool_decide (Binding.lineage b = lineage)
             then set_ordinal (φ <$> Binding.ordinal b) b else b)
  = (λ k, (k.1, if bool_decide (k.1 = lineage) then φ k.2 else k.2)) <$> index_key b.
Proof.
  destruct b as [occ li o st di ds sp tg kr vs]. unfold index_key. simpl.
  case_bool_decide as Hl; simpl; destruct (kept sp); simpl; [|done| |done];
    destruct o; simpl; [|done| |done]; by rewrite ?(bool_decide_eq_true_2 _ Hl), ?(bool_decide_eq_false_2 _ Hl).
Qed.

Lemma omap_index_relabel lineage φ l :
  omap index_key (relabel_rows lineage φ l)
  = (λ k, (k.1, if bool_decide (k.1 = lineage) then φ k.2 else k.2)) <$> omap index_key l.
Proof.
  induction l as [|b l IH]; [done|].
  change (relabel_rows lineage φ (b :: l)) with
    ((if bool_decide (Binding.lineage b = lineage)
      then set_ordinal (φ <$> Binding.ordinal b) b else b) :: relabel_rows lineage φ l).
  cbn [omap list_omap]. rewrite index_key_relabel.
  change (list_omap _ _ index_key) with (omap (M := list) index_key). rewrite IH.
  by destruct (index_key b).
Qed.

Lemma index_key_ordinals_in lineage l o :
  (lineage, o) ∈ omap index_key l → o ∈ ordinals_in lineage l.
Proof.
  rewrite list_elem_of_omap, elem_of_ordinals_in. intros (b & Hb & Hk). exists b. split; [done|].
  unfold index_key in Hk. destruct (kept _); [|done].
  destruct (Binding.ordinal b); [|done]. by injection Hk as -> ->.
Qed.

Lemma unique_relabel lineage φ l :
  unique_ordinals l → inj_on φ (ordinals_in lineage l) → unique_ordinals (relabel_rows lineage φ l).
Proof.
  unfold unique_ordinals. rewrite omap_index_relabel. intros Hn Hinj.
  assert (∀ k, k ∈ omap index_key l → k.1 = lineage → k.2 ∈ ordinals_in lineage l) as Hin.
  { intros [? o] Hk <-. by apply index_key_ordinals_in. }
  clear -Hn Hinj Hin. induction Hn as [|k ks Hk Hn IH]; simpl; constructor.
  - rewrite list_elem_of_fmap. intros (k' & E & Hk'). apply Hk.
    destruct k as [li o], k' as [li' o']; cbn [fst snd] in *.
    pose proof (f_equal fst E) as E1; pose proof (f_equal snd E) as E2. cbn [fst snd] in E1, E2. subst li'.
    case_bool_decide; [|by subst]. subst li.
    rewrite (Hinj o o'); [done| | |done]; [apply (Hin (lineage, o))|apply (Hin (lineage, o'))]; simpl; [by left|done|by right|done].
  - apply IH. intros k' Hk'. apply Hin. by right.
Qed.

Lemma map_fmap {A B} (f : A → B) l : map f l = f <$> l.
Proof. done. Qed.

Lemma update_relabel lineage φ old new l :
  (update_where (at_ordinal lineage old) (set_ordinal (Some new)) (relabel_rows lineage φ l)).1
  = relabel_rows lineage (move old new ∘ φ) l.
Proof.
  unfold update_where, relabel_rows. cbn [fst]. rewrite map_map. apply map_ext.
  intros [occ li o st di ds sp tg kr vs]. unfold at_ordinal, set_ordinal. simpl.
  destruct (decide (li = lineage)) as [->|Hl].
  - rewrite (bool_decide_eq_true_2 (lineage = lineage)) by done. simpl.
    rewrite bool_decide_eq_true_2 by done. destruct o as [o|]; simpl; [|done].
    unfold move. destruct (decide (φ o = old)) as [->|Ho].
    + by rewrite !bool_decide_eq_true_2.
    + rewrite !bool_decide_eq_false_2; [done..|congruence].
  - by rewrite (bool_decide_eq_false_2 (li = lineage)), bool_decide_eq_false_2.
Qed.

(** Rows of the lineage whose label [φ] sends into [keys]. *)
Definition hits (lineage : string) (φ : Z → Z) (keys : list Z) (l : list Binding.t) : Z :=
  Z.of_nat (length (filter (λ o, φ o ∈ keys) (ordinals_in lineage l))).

Lemma at_ordinal_relabel lineage φ old b :
  at_ordinal lineage old (if bool_decide (Binding.lineage b = lineage)
                          then set_ordinal (φ <$> Binding.ordinal b) b else b)
  = bool_decide (Binding.lineage b = lineage)
    && bool_decide (φ <$> Binding.ordinal b = Some old).
Proof.
  unfold at_ordinal. destruct (decide (Binding.lineage b = lineage)) as [Hl|Hl].
  - rewrite (bool_decide_eq_true_2 _ Hl). simpl. by rewrite (bool_decide_eq_true_2 _ Hl).
  - rewrite (bool_decide_eq_false_2 _ Hl). by rewrite (bool_decide_eq_false_2 _ Hl).
Qed.

Lemma update_relabel_count lineage φ old new l :
  (update_where (at_ordinal lineage old) (set_ordinal (Some new)) (relabel_rows lineage φ l)).2
  = hits lineage φ [old] l.
Proof.
  unfold update_where, hits, relabel_rows, ordinals_in. cbn [snd]. f_equal.
  induction l as [|b l IH]; [done|]. cbn [map omap list_omap]. rewrite filter_cons, at_ordinal_relabel.
  destruct (decide (Binding.lineage b = lineage)) as [Hl|Hl].
  - rewrite (bool_decide_eq_true_2 _ Hl). simpl. destruct (Binding.ordinal b) as [o|]; simpl.
    + rewrite filter_cons. destruct (decide (φ o = old)) as [Ho|Ho].
      * rewrite (bool_decide_eq_true_2 (Some (φ o) = Some old)) by congruence.
        rewrite decide_True by done. rewrite decide_True by (rewrite Ho; by left). simpl. by rewrite IH.
      * rewrite (bool_decide_eq_false_2 (Some (φ o) = Some old)) by congruence.
        rewrite decide_False by done. rewrite decide_False; [done|]. by intros ?%list_elem_of_singleton.
    + exact IH.
  - rewrite (bool_decide_eq_false_2 _ Hl). exact IH.
Qed.

Lemma hits_cons lineage φ old t keys l :
  old ∉ keys → t ∉ keys →
  hits lineage φ (old :: keys) l = hits lineage φ [old] l + hits lineage (move old t ∘ φ) keys l.
Proof.
  intros Hold Ht. unfold hits. rewrite <-Nat2Z.inj_add. f_equal.
  induction (ordinals_in lineage l) as [|o os IH]; [done|]. rewrite !filter_cons.
  destruct (decide (φ o = old)) as [Ho|Ho].
  - assert ((move old t ∘ φ) o = t) as E by (unfold compose, move; by rewrite bool_decide_eq_true_2).
    rewrite decide_True by (rewrite Ho; by left). rewrite decide_True by (rewrite Ho; by left).
    rewrite decide_False by (by rewrite E). simpl. by rewrite IH.
  - assert ((move old t ∘ φ) o = φ o) as E by (unfold compose, move; by rewrite bool_decide_eq_false_2).
    rewrite (decide_False (P := φ o ∈ [old])) by (by intros ?%list_elem_of_singleton).
    destruct (decide (φ o ∈ keys)).
    + rewrite decide_True by (by right). rewrite decide_True by (by rewrite E).
      cbn [length]. rewrite IH. lia.
    + rewrite decide_False by (by intros [?|?]%elem_of_cons). rewrite decide_False by (by rewrite E). done.
Qed.

(** The ledger whose rows of [lineage] carry the labels [φ] gives them. *)
Definition relabelled (lineage : string) (φ : Z → Z) (d : ledger) : ledger :=
  set_bindings (relabel_rows lineage φ (bindings d)) (last_occ d) d.

Definition seq_fn (ps : list (Z * Z)) (φ : Z → Z) : Z → Z :=
  foldl (λ φ p, move p.1 p.2 ∘ φ) φ ps.

(** Labels [φ] may be moved along [ps] one by one without a collision. *)
Record movable (lineage : string) (φ : Z → Z) (ps : list (Z * Z)) (d : ledger) : Prop := {
  mv_unique : unique_ordinals (bindings d);
  mv_inj : inj_on φ (occupied lineage d);
  mv_new : NoDup ps.*2;
  mv_free : ∀ x, x ∈ occupied lineage d → φ x ∉ ps.*2;
  mv_keys : ∀ a, a ∈ ps.*1 → a ∉ ps.*2
}.

Lemma movable_cons lineage φ a b ps d :
  movable lineage φ ((a, b) :: ps) d → movable lineage (move a b ∘ φ) ps d.
Proof.
  intros [Hu Hinj Hn Hf Hk]. rewrite !fmap_cons in *. apply NoDup_cons in Hn as [Hb Hn].
  constructor; [done| |done| |].
  - intros x y Hx Hy. unfold compose, move.
    pose proof (Hf x Hx) as Fx. pose proof (Hf y Hy) as Fy. rewrite not_elem_of_cons in Fx, Fy. simpl in *.
    repeat case_bool_decide; intros E; [|by destruct Fy|by destruct Fx|]; apply Hinj; congruence.
  - intros x Hx. unfold compose, move. pose proof (Hf x Hx) as Fx. rewrite not_elem_of_cons in Fx.
    case_bool_decide; naive_solver.
  - intros k Hk'. assert (k ∉ b :: ps.*2) as H by (apply Hk; by right).
    by rewrite not_elem_of_cons in H; destruct H.
Qed.

Lemma move_relabelled lineage φ a b ps d :
  movable lineage φ ((a, b) :: ps) d →
  move_ordinal lineage a b (relabelled lineage φ d)
  = Ok (relabelled lineage (move a b ∘ φ) d, hits lineage φ [a] (bindings d)).
Proof.
  intros Hm. unfold move_ordinal, update_bindings.
  rewrite (surjective_pairing (update_where _ _ _)). unfold relabelled. cbn [bindings set_bindings].
  rewrite update_relabel, update_relabel_count. unfold commit_bindings.
  rewrite bool_decide_eq_true_2; [done|].
  apply unique_relabel; [apply Hm|apply (mv_inj _ _ _ _ (movable_cons _ _ _ _ _ _ Hm))].
Qed.

Lemma finish_respace_ok lineage ps φ d :
  movable lineage φ ps d →
  finish_respace lineage ps (relabelled lineage φ d) = Ok (relabelled lineage (seq_fn ps φ) d).
Proof.
  revert φ. induction ps as [|[a b] ps IH]; intros φ Hm; [done|]. simpl.
  rewrite (move_relabelled _ _ _ _ _ _ Hm). apply IH. by apply movable_cons.
Qed.

(** The moves of the first phase. *)
Fixpoint stage_moves (t : Z) (mapping : list (Z * Z)) : list (Z * Z) :=
  match mapping with
  | [] => []
  | (old, _) :: mapping => (old, t - 1) :: stage_moves (t - 1) mapping
  end.

(** The pairs the first phase hands to the second. *)
Fixpoint staged_moves (t : Z) (mapping : list (Z * Z)) : list (Z * Z) :=
  match mapping with
  | [] => []
  | (_, new) :: mapping => (t - 1, new) :: staged_moves (t - 1) mapping
  end.

Lemma stage_moves_keys t mapping : (stage_moves t mapping).*1 = mapping.*1.
Proof. revert t; induction mapping as [|[a b] m IH]; intros t; [done|]. simpl. by rewrite IH. Qed.

Lemma staged_moves_new t mapping : (staged_moves t mapping).*2 = mapping.*2.
Proof. revert t; induction mapping as [|[a b] m IH]; intros t; [done|]. simpl. by rewrite IH. Qed.

Lemma staged_moves_keys t mapping : (staged_moves t mapping).*1 = (stage_moves t mapping).*2.
Proof. revert t; induction mapping as [|[a b] m IH]; intros t; [done|]. simpl. by rewrite IH. Qed.

Lemma stage_moves_below t mapping v : v ∈ (stage_moves t mapping).*2 → v < t.
Proof.
  revert t; induction mapping as [|[a b] m IH]; intros t; simpl; [by intros ?%elem_of_nil|].
  intros [->|H]%elem_of_cons; [lia|]. apply IH in H. lia.
Qed.

Lemma stage_moves_NoDup t mapping : NoDup (stage_moves t mapping).*2.
Proof.
  revert t; induction mapping as [|[a b] m IH]; intros t; simpl; [constructor|].
  constructor; [|done]. intros H%stage_moves_below. lia.
Qed.

Lemma stage_respace_ok lineage t mapping φ d :
  movable lineage φ (stage_moves t mapping) d → NoDup mapping.*1 →
  - 2 ^ 63 <= t - Z.of_nat (length mapping) →
  stage_respace lineage t mapping (relabelled lineage φ d)
  = Ok (relabelled lineage (seq_fn (stage_moves t mapping) φ) d,
        hits lineage φ mapping.*1 (bindings d), staged_moves t mapping).
Proof.
  revert t φ. induction mapping as [|[a b] m IH]; intros t φ Hm Hn Ht.
  - simpl. do 3 f_equal. unfold hits. simpl. replace (filter _ _) with (@nil Z); [done|].
    symmetry. induction (ordinals_in _ _) as [|o os IH]; [done|]. rewrite filter_cons.
    by rewrite decide_False by by intros ?%elem_of_nil.
  - simpl in Ht. cbn [stage_respace stage_moves staged_moves] in Hm |- *. rewrite bool_decide_eq_false_2 by lia. cbn [raise_if].
    rewrite fmap_cons in Hn. apply NoDup_cons in Hn as [Ha Hn].
    rewrite (move_relabelled _ _ _ _ _ _ Hm). cbn [rbind].
    rewrite (IH (t - 1) _ (movable_cons _ _ _ _ _ _ Hm) Hn) by lia. cbn [rbind].
    change (((a, b) :: m).*1) with (a :: m.*1) in *.
    rewrite (hits_cons lineage φ a (t - 1) m.*1); [done|done|].
    intros Hin. apply (mv_keys _ _ _ _ Hm (t - 1)); simpl; [right|left].
    by rewrite stage_moves_keys.
Qed.

Lemma seq_fn_relabel ps φ x :
  (∀ a, a ∈ ps.*1 → a ∉ ps.*2) → seq_fn ps φ x = relabel ps (φ x).
Proof.
  revert φ. induction ps as [|[a b] ps IH]; intros φ Hk; [done|].
  change (seq_fn ((a, b) :: ps) φ) with (seq_fn ps (move a b ∘ φ)).
  assert (∀ k, k ∈ ps.*1 → k ∉ b :: ps.*2) as Hk' by (intros k ?; apply (Hk k); by right).
  rewrite IH by (intros k H1 H2; apply (Hk' k H1); by right).
  rewrite relabel_cons. unfold compose, move. simpl.
  case_bool_decide as E.
  - rewrite decide_True by done. apply relabel_notin. intros Hb. apply (Hk' b Hb). by left.
  - by rewrite decide_False by congruence.
Qed.

Lemma relabel_elem ms z : z ∈ ms.*1 → relabel ms z ∈ ms.*2.
Proof.
  induction ms as [|[u v] ms IH]; [by intros ?%elem_of_nil|].
  rewrite !fmap_cons, relabel_cons. simpl. intros [->|H]%elem_of_cons.
  - rewrite decide_True by done. by left.
  - case_decide; [by left|]. right. by apply IH.
Qed.

Lemma staged_relabel t mapping y :
  t <= y → relabel (staged_moves t mapping) (relabel (stage_moves t mapping) y) = relabel mapping y.
Proof.
  revert t. induction mapping as [|[a b] m IH]; intros t Hy; [done|]. simpl.
  rewrite !relabel_cons. simpl. destruct (decide (a = y)) as [->|Hne].
  - by rewrite decide_True.
  - rewrite decide_False; [apply IH; lia|].
    destruct (decide (y ∈ (stage_moves (t - 1) m).*1)) as [Hin|Hout].
    + apply relabel_elem, stage_moves_below in Hin. lia.
    + rewrite relabel_notin by done. lia.
Qed.

Lemma foldr_min_le l x : x ∈ l → foldr Z.min 0 l <= x.
Proof. induction l as [|y l IH]; [by intros ?%elem_of_nil|]. intros [->|H%IH]%elem_of_cons; simpl; lia. Qed.

Lemma foldr_min_nonpos l : foldr Z.min 0 l <= 0.
Proof. induction l; simpl; lia. Qed.

Lemma valid_respace_spec mapping occ :
  valid_respace mapping occ = true ↔
  (∀ v, v ∈ mapping.*2 → 0 < v <= MAX_ORDINAL) ∧ NoDup mapping.*2
  ∧ (∀ v, v ∈ mapping.*2 → v ∈ occ → v ∈ mapping.*1).
Proof.
  unfold valid_respace. rewrite !andb_true_iff, !forallb_forall, bool_decide_eq_true.
  setoid_rewrite <-list_elem_of_In. unfold valid_ordinal. setoid_rewrite bool_decide_eq_true.
  split; (intros [[H1 H2] H3] || intros (H1 & H2 & H3)); split_and!; try done.
  - intros v Hv Ho. specialize (H3 v Hv). destruct (decide (v ∈ mapping.*1)); [done|].
    rewrite !bool_decide_eq_true_2 in H3; done.
  - intros v Hv. specialize (H3 v Hv). apply negb_true_iff, andb_false_iff.
    destruct (decide (v ∈ occ)); [right|left]; apply bool_decide_eq_false_2; [|done].
    intros Hn. by apply Hn, H3.
Qed.

Lemma relabelled_id lineage d : relabelled lineage id d = d.
Proof. unfold relabelled. rewrite relabel_rows_id. by destruct d. Qed.

Lemma stage_movable lineage mapping d :
  unique_ordinals (bindings d) → (∀ k, k ∈ mapping.*1 → 0 < k) →
  movable lineage id (stage_moves (foldr Z.min 0 (occupied lineage d)) mapping) d.
Proof.
  intros Hu Hk. pose proof (foldr_min_nonpos (occupied lineage d)).
  constructor; [done|by intros x y _ _|apply stage_moves_NoDup| |].
  - intros x Hx Hin%stage_moves_below. apply foldr_min_le in Hx. unfold id in Hin. lia.
  - intros a Ha Hin%stage_moves_below. rewrite stage_moves_keys in Ha. apply Hk in Ha. lia.
Qed.

Lemma movable_seq lineage φ ps d :
  movable lineage φ ps d → inj_on (seq_fn ps φ) (occupied lineage d).
Proof.
  revert φ. induction ps as [|[a b] ps IH]; intros φ Hm; [by apply Hm|].
  apply (IH (move a b ∘ φ)). by apply movable_cons.
Qed.

Lemma staged_movable lineage mapping d (t := foldr Z.min 0 (occupied lineage d)) :
  unique_ordinals (bindings d) → (∀ k, k ∈ mapping.*1 → 0 < k) →
  valid_respace mapping (occupied lineage d) = true →
  movable lineage (seq_fn (stage_moves t mapping) id) (staged_moves t mapping) d.
Proof.
  intros Hu Hk (Hv & Hn & Hocc)%valid_respace_spec.
  pose proof (stage_movable lineage mapping d Hu Hk) as Hm. fold t in Hm.
  pose proof (foldr_min_nonpos (occupied lineage d)) as Ht. fold t in Ht.
  constructor; [done|by apply movable_seq|by rewrite staged_moves_new| |].
  - intros x Hx Hin. rewrite staged_moves_new in Hin.
    rewrite seq_fn_relabel in Hin by apply Hm. unfold id in Hin.
    destruct (decide (x ∈ (stage_moves t mapping).*1)) as [Hs|Hs].
    + apply relabel_elem, stage_moves_below in Hs. specialize (Hv _ Hin). lia.
    + rewrite relabel_notin in Hin by done. apply Hs. rewrite stage_moves_keys. by apply Hocc.
  - intros a Ha Hin. rewrite staged_moves_keys in Ha. apply stage_moves_below in Ha.
    rewrite staged_moves_new in Hin. apply Hv in Hin. lia.
Qed.

(** When [apply_respace] can be carried out. *)
Record respaceable (lineage : string) (mapping : list (Z * Z)) (d : ledger) : Prop := {
  ra_unique : unique_ordinals (bindings d);
  ra_keys : NoDup mapping.*1;
  ra_positive : ∀ k, k ∈ mapping.*1 → 0 < k;
  ra_valid : valid_respace mapping (occupied lineage d) = true;
  ra_room : - 2 ^ 63 <= foldr Z.min 0 (occupied lineage d) - Z.of_nat (length mapping)
}.

Lemma respaced_twice lineage mapping d (t := foldr Z.min 0 (occupied lineage d)) :
  respaceable lineage mapping d →
  relabelled lineage (seq_fn (staged_moves t mapping) (seq_fn (stage_moves t mapping) id)) d
  = relabelled lineage (relabel mapping) d.
Proof.
  intros R. unfold relabelled. f_equal. apply relabel_rows_ext. intros o Hin.
  assert (movable lineage (seq_fn (stage_moves t mapping) id) (staged_moves t mapping) d) as M2
    by (apply staged_movable; apply R).
  assert (movable lineage id (stage_moves t mapping) d) as M1 by (apply stage_movable; apply R).
  rewrite seq_fn_relabel by apply M2. rewrite seq_fn_relabel by apply M1.
  apply staged_relabel. by apply foldr_min_le.
Qed.

Lemma apply_respace_ok lineage mapping d :
  owned d = true → respaceable lineage mapping d →
  apply_respace lineage mapping d
  = Ok (relabelled lineage (relabel mapping) d, hits lineage id mapping.*1 (bindings d)).
Proof.
  intros Ho R. pose proof (respaced_twice lineage mapping d R) as E. destruct R as [Hu Hn Hk Hv Ht].
  unfold apply_respace, require_owner. rewrite Ho, Hv. cbn [raise_if negb].
  set (t := foldr Z.min 0 (occupied lineage d)) in *.
  pose proof (stage_movable lineage mapping d Hu Hk) as Hm. fold t in Hm.
  pose proof (staged_movable lineage mapping d Hu Hk Hv) as Hm'. fold t in Hm'.
  pose proof (stage_respace_ok lineage t mapping id d Hm Hn Ht) as Hs. rewrite relabelled_id in Hs.
  rewrite Hs. cbn [rbind]. rewrite finish_respace_ok by done. by rewrite E.
Qed.

(** C24: [apply_respace] moves the rows of the lineage to their new labels all at
    once: the two phases never hit the unique index, end at the simultaneous
    relabelling of the map, touch no other lineage and report the moved rows. *)
Theorem apply_respace_relabels lineage mapping d :
  owned d = true → respaceable lineage mapping d →
  ∃ d' n, apply_respace lineage mapping d = Ok (d', n)
  ∧ unique_ordinals (bindings d')
  ∧ n = hits lineage id mapping.*1 (bindings d)
  ∧ Forall2 (λ b b', b' = if bool_decide (Binding.lineage b = lineage)
                          then set_ordinal (relabel mapping <$> Binding.ordinal b) b else b)
      (bindings d) (bindings d').
Proof.
  intros Ho R. eexists _, _. split; [by apply apply_respace_ok|]. split_and!; [|done|].
  - rewrite <-respaced_twice by done. apply unique_relabel; [apply R|].
    apply movable_seq, staged_movable; apply R.
  - cbn. apply Forall2_fmap_r, Forall_Forall2_diag, Forall_true. done.
Qed.

(** ** A ledger for the witnesses *)

Definition sample_row (occ : Z) (lineage : string) (o : Z) (sp : disposition) : Binding.t :=
  Binding.mk occ lineage (Some o) (Some occ) [] None sp None None 1.

Definition sample_ledger : ledger :=
  {| owned := true; ledger_meta := <["view_seq" := MInt 3]> ∅;
     bindings := [sample_row 1 "a" 100 Stored; sample_row 2 "a" 101 Migrated;
                  sample_row 3 "b" 100 Stored; sample_row 4 "a" 101 CompositePart];
     last_occ := 4; emissions := []; last_emission := 0; observations := []; views := [];
     marks := ∅; messages := [] |}.

Lemma apply_respace_relabels_witness :
  ∃ d' n, apply_respace "a" [(100, 101); (101, 100)] sample_ledger = Ok (d', n) ∧ n = 3.
Proof.
  destruct (apply_respace_relabels "a" [(100, 101); (101, 100)] sample_ledger) as (d' & n & H & _ & Hn & _).
  - reflexivity.
  - constructor.
    + apply (bool_decide_unpack _). vm_compute. exact I.
    + apply (bool_decide_unpack _). vm_compute. exact I.
    + apply (proj1 (Forall_forall (λ k, 0 < k) _)). repeat constructor.
    + vm_compute. reflexivity.
    + vm_compute. discriminate.
  - exists d', n. split; [exact H|]. rewrite Hn. vm_compute. reflexivity.
Defined.

(** ** Stamp observations stay bounded *)

(** At most four distinct stamps per occurrence and kind. *)
Definition stamps_wf (os : list Observation.t) : Prop :=
  ∀ occ kind, (length (observations_of occ kind os) <= 4)%nat
              ∧ NoDup (Observation.stamp <$> observations_of occ kind os).

Lemma observations_of_snoc occ kind os o :
  observations_of occ kind (os ++ [o])
  = observations_of occ kind os
    ++ (if decide (Observation.occ_id o = occ ∧ Observation.kind o = kind) then [o] else []).
Proof.
  unfold observations_of. by rewrite filter_app.
Qed.

Lemma stamps_wf_snoc os lineage occ stamp kind seq source :
  stamps_wf os → stamp ∉ Observation.stamp <$> observations_of occ kind os →
  (length (observations_of occ kind os) < 4)%nat →
  stamps_wf (os ++ [Observation.mk lineage occ stamp kind seq source]).
Proof.
  intros Hwf Hs Hlen occ' kind'. destruct (Hwf occ' kind') as [H1 H2].
  rewrite observations_of_snoc. simpl. case_decide as Hd.
  - destruct Hd as [<- <-]. rewrite length_app, fmap_app. simpl. split; [lia|].
    apply NoDup_app. split_and!; [done| |apply NoDup_singleton].
    intros x Hx ->%list_elem_of_singleton. done.
  - by rewrite app_nil_r.
Qed.

(** What each outcome of [add_stamp_observation] means. *)
Definition stamp_outcome_spec (lineage : string) (occ : Z) (stamp : string) (kind : stamp_kind)
    (seq : Z) (source : stamp_source) (d d' : ledger) (r : stamp_outcome) : Prop :=
  let mine := observations_of occ kind (observations d) in
  match r with
  | STAMP_EXISTS => (stamp ∈ Observation.stamp <$> mine) ∧ d' = d
  | STAMP_CAPPED => (stamp ∉ Observation.stamp <$> mine) ∧ length mine = 4%nat ∧ d' = d
  | STAMP_WRITTEN =>
      (stamp ∉ Observation.stamp <$> mine) ∧ (length mine < 4)%nat
      ∧ observations d' = observations d ++ [Observation.mk lineage occ stamp kind seq source]
      ∧ ((3 <= capped_occurrences lineage (observations d'))%nat →
         Mark.policy <$> marks d' !! lineage = Some StampUnreliable)
      ∧ ((capped_occurrences lineage (observations d') < 3)%nat → marks d' = marks d)
  end.

Lemma update_stamp_policy_ok lineage v d :
  owned d = true →
  ∃ m b, update_stamp_policy lineage v d = Ok (set_marks m d, b)
         ∧ Mark.policy <$> m !! lineage = Some v ∧ (∀ l, l ≠ lineage → m !! l = marks d !! l).
Proof.
  intros Ho. unfold update_stamp_policy, update_mark, require_owner. rewrite Ho. cbn [raise_if negb].
  destruct (marks d !! lineage) as [k|] eqn:Ek.
  - case_bool_decide as Hp.
    + exists (marks d), false. split; [by destruct d|]. rewrite Ek. split; [by rewrite <-Hp|done].
    + eexists _, _. split; [done|]. rewrite lookup_insert_eq. split; [done|].
      intros l Hl. by rewrite lookup_insert_ne.
  - eexists _, _. split; [done|]. rewrite lookup_insert_eq. split; [done|].
    intros l Hl. by rewrite lookup_insert_ne.
Qed.

(** An observation is written at most once and at most four times per
    occurrence and kind; the third capped occurrence of a lineage makes its
    stamps unreliable, and nothing else changes the policy. *)
Theorem add_stamp_observation_bounded lineage occ stamp kind seq source d d' r :
  stamps_wf (observations d) →
  add_stamp_observation lineage occ (Some stamp) kind seq source d = Ok (d', r) →
  stamps_wf (observations d') ∧ stamp_outcome_spec lineage occ stamp kind seq source d d' r.
Proof.
  intros Hwf H. unfold add_stamp_observation, require_owner in H. inv_ok.
  apply negb_false_iff in Hr. case_bool_decide as He.
  { inv_ok. injection H as <- <-. done. }
  case_bool_decide as Hc.
  { inv_ok. injection H as <- <-. destruct (Hwf occ kind) as [Hle _]. split; [done|]. split_and!; [done|lia|done]. }
  set (d1 := set_observations _ d) in H.
  assert (stamps_wf (observations d1)) as Hwf' by (apply stamps_wf_snoc; [done..|lia]).
  case_bool_decide as H3.
  - destruct (update_stamp_policy_ok lineage StampUnreliable d1 Hr) as (m & b & Hu & Hm & _).
    rewrite Hu in H. cbn [rbind] in H. inv_ok. injection H as <- <-.
    split; [done|]. split_and!; [done|lia|done|done|]. simpl in *. lia.
  - inv_ok. injection H as <- <-. split; [done|]. split_and!; [done|lia|done| |done]. simpl in *. lia.
Qed.

Lemma add_stamp_observation_bounded_witness :
  ∃ d', add_stamp_observation "a" 1 (Some "5.0") AltStamp 4 FromLedger sample_ledger = Ok (d', STAMP_WRITTEN)
    ∧ stamps_wf (observations d').
Proof.
  eexists. split; [vm_compute; reflexivity|].
  refine (proj1 (add_stamp_observation_bounded "a" 1 "5.0" AltStamp 4 FromLedger sample_ledger _
    STAMP_WRITTEN _ _)); [|vm_compute; reflexivity].
  intros occ kind. split; [apply Nat.le_0_l|constructor].
Defined.

(** ** An emission's state moves once *)

Lemma update_where_noop {A} (p : A → bool) f (l : list A) :
  (∀ x, x ∈ l → p x = false) → update_where p f l = (l, 0).
Proof.
  intros H. unfold update_where. f_equal.
  - rewrite <-(map_id l) at 2. apply map_ext_in. intros x Hx%list_elem_of_In. by rewrite H.
  - replace (filter _ l) with (@nil A); [done|]. symmetry. clear f.
    induction l as [|x l IH]; [done|]. rewrite filter_cons, decide_False.
    + apply IH. intros y Hy. apply H. by right.
    + rewrite H; [done|by left].
Qed.

(** An emission moves from proposed to adopted or refused once: a second
    signal, whatever its state, moves no row, no view and no other lineage. *)
Theorem set_emission_state_once lineage seq s1 s2 d d1 r :
  s2 ≠ Proposed → set_emission_state lineage seq s1 d = Ok (d1, r) →
  set_emission_state lineage seq s2 d1 = Ok (d1, (0, 0))
  ∧ (∀ e, e ∈ emissions d1 → Emission.lineage e = lineage → Emission.view_seq e = seq →
       Emission.state e = s1 ∨ e ∈ emissions d)
  ∧ (∀ e, Emission.lineage e ≠ lineage ∨ Emission.view_seq e ≠ seq ∨ Emission.state e ≠ Proposed →
       e ∈ emissions d → e ∈ emissions d1).
Proof.
  intros Hs2 H. unfold set_emission_state, require_owner in H.
  destruct (owned d) eqn:Ho; [|done]. cbn [raise_if negb] in H. inv_ok.
  apply bool_decide_eq_false in Hr.
  set (p := λ e, bool_decide (Emission.lineage e = lineage) && bool_decide (Emission.view_seq e = seq)
                 && bool_decide (Emission.state e = Proposed)) in *.
  set (f := λ e, Emission.mk _ _ _ _ _ _ _ _) in H.
  assert (∃ vs, d1 = set_views vs (set_emissions (map (λ r, if p r then f r else r) (emissions d)) (last_emission d) d))
    as (vs & ->).
  { unfold update_where in H. case_bool_decide; inv_ok; injection H as <- _; [|eauto].
    exists (views d). by destruct d. }
  clear H. cbn [emissions set_views set_emissions]. split_and!.
  - unfold set_emission_state, require_owner. cbn [owned set_views set_emissions]. rewrite Ho. cbn [raise_if negb].
    rewrite bool_decide_eq_false_2 by done. rewrite update_where_noop; [done|].
    intros e (e0 & -> & He)%list_elem_of_fmap. destruct (p e0) eqn:Ep; [|done].
    unfold f. simpl. by rewrite (bool_decide_eq_false_2 (s1 = Proposed)), andb_false_r.
  - intros e (e0 & -> & He)%list_elem_of_fmap _ _. destruct (p e0); [by left|by right].
  - intros e Hne He. apply list_elem_of_fmap. exists e. split; [|done].
    assert (p e = false) as ->; [|done]. unfold p.
    destruct Hne as [Hne|[Hne|Hne]]; rewrite (bool_decide_eq_false_2 _ Hne), ?andb_false_r; done.
Qed.

Definition emitted_ledger : ledger :=
  set_emissions [Emission.mk 1 "a" 1 0 [] Summary Proposed None] 1 sample_ledger.

Lemma set_emission_state_once_witness :
  ∃ d1, set_emission_state "a" 1 Adopted emitted_ledger = Ok (d1, (1, 0))
    ∧ set_emission_state "a" 1 Refused d1 = Ok (d1, (0, 0)).
Proof.
  eexists. split; [vm_compute; reflexivity|].
  refine (proj1 (set_emission_state_once "a" 1 Adopted Refused emitted_ledger _ (1, 0) _ _));
    [discriminate|vm_compute; reflexivity].
Defined.

(** ** The newest view is the one written last *)

Lemma newest_seqs_fresh lineage kind vs v :
  of_kind lineage kind v = true →
  (∀ w, w ∈ vs → of_kind lineage kind w = true → View.view_seq w < View.view_seq v) →
  newest_seqs lineage kind (vs ++ [v]) = View.view_seq v :: newest_seqs lineage kind vs.
Proof.
  intros Hv Hfresh. unfold newest_seqs. rewrite filter_app, fmap_app.
  rewrite (filter_cons_True _ v []) by done. rewrite filter_nil. simpl.
  set (l := View.view_seq <$> filter _ vs).
  assert (merge_sort Z.le (l ++ [View.view_seq v]) = merge_sort Z.le l ++ [View.view_seq v]) as ->.
  { apply (StronglySorted_unique Z.le).
    - apply StronglySorted_merge_sort; apply _.
    - apply StronglySorted_app. split_and!; [|apply StronglySorted_merge_sort; apply _|repeat constructor].
      intros x y Hx ->%list_elem_of_singleton. rewrite merge_sort_Permutation in Hx.
      apply list_elem_of_fmap in Hx as (w & -> & [Hw Hin]%list_elem_of_filter).
      specialize (Hfresh w Hin Hw). lia.
    - by rewrite !merge_sort_Permutation. }
  by rewrite reverse_snoc.
Qed.

Lemma list_find_unique {A} (P : A → Prop) `{!∀ x, Decision (P x)} l v :
  v ∈ l → P v → (∀ w, w ∈ l → P w → w = v) → snd <$> list_find P l = Some v.
Proof.
  induction l as [|x l IH]; [by intros ?%elem_of_nil|]. intros Hin Hv Hall. simpl.
  case_decide as Hx.
  - simpl. f_equal. apply Hall; [by left|done].
  - apply elem_of_cons in Hin as [->|Hin]; [done|].
    assert (snd <$> list_find P l = Some v) as Hl
      by (apply IH; [done..|]; intros w Hw Hp; apply Hall; [by right|done]).
    destruct (list_find P l) as [[i y]|]; simpl in *; congruence.
Qed.

Lemma newest_seqs_elem lineage kind vs s :
  s ∈ newest_seqs lineage kind vs ↔
  ∃ v, v ∈ vs ∧ of_kind lineage kind v = true ∧ View.view_seq v = s.
Proof.
  unfold newest_seqs. rewrite elem_of_reverse, merge_sort_Permutation, list_elem_of_fmap.
  setoid_rewrite list_elem_of_filter.
  split; [intros (v & -> & ? & ?); eauto|intros (v & ? & ? & <-); eauto].
Qed.

(** Views of one lineage and kind have distinct sequence numbers. *)
Definition views_wf (vs : list View.t) : Prop := NoDup (view_key <$> vs).

Lemma views_wf_unique vs v w :
  views_wf vs → v ∈ vs → w ∈ vs → view_key v = view_key w → v = w.
Proof.
  intros Hwf [i Hi]%list_elem_of_lookup [j Hj]%list_elem_of_lookup E.
  assert (i = j) as ->; [|congruence].
  eapply (NoDup_lookup _ i j (view_key v) Hwf); rewrite list_lookup_fmap; [by rewrite Hi|].
  by rewrite Hj, E.
Qed.

Lemma views_wf_filter P `{!∀ x : View.t, Decision (P x)} vs : views_wf vs → views_wf (filter P vs).
Proof. intros Hn. eapply sublist_NoDup; [exact Hn|]. apply fmap_sublist, sublist_filter. Qed.

(** What pruning keeps of the pruned lineage and kind. *)
Lemma prune_views_elem lineage kind d v :
  v ∈ views (prune_views lineage kind d) ↔
  v ∈ views d ∧ (of_kind lineage kind v = true →
                 View.view_seq v ∈ take 2 (newest_seqs lineage kind (views d))).
Proof.
  unfold prune_views. cbn [views set_views]. rewrite list_elem_of_filter.
  split.
  - intros [H1 H2]. split; [done|]. intros E. apply dec_stable. intros Hn. by apply H1.
  - intros [H1 H2]. split; [|done]. intros [E Hn]. by apply Hn, H2.
Qed.

Lemma prune_views_length lineage kind d :
  views_wf (views d) →
  (length (filter (λ v, of_kind lineage kind v = true) (views (prune_views lineage kind d))) <= 2)%nat.
Proof.
  intros Hwf. set (vs := views (prune_views lineage kind d)).
  assert (views_wf vs) as Hwf' by (apply views_wf_filter; exact Hwf).
  transitivity (length (take 2 (newest_seqs lineage kind (views d)))); [|rewrite length_take; lia].
  rewrite <-(length_fmap View.view_seq). apply submseteq_length, NoDup_submseteq.
  - apply NoDup_fmap_2_strong; [|apply sublist_NoDup with vs; [apply (NoDup_fmap_1 view_key); done|apply sublist_filter]].
    intros v w [Hv Hv']%list_elem_of_filter [Hw Hw']%list_elem_of_filter E.
    apply (views_wf_unique vs); [done..|]. unfold of_kind in Hv, Hw.
    apply andb_prop in Hv as [Hv1%bool_decide_eq_true Hv2%bool_decide_eq_true].
    apply andb_prop in Hw as [Hw1%bool_decide_eq_true Hw2%bool_decide_eq_true].
    unfold view_key. congruence.
  - intros s (v & -> & [Hk Hv]%list_elem_of_filter)%list_elem_of_fmap.
    apply prune_views_elem in Hv as [_ Hv]. by apply Hv.
Qed.

Lemma newest_view_fresh lineage kind d v :
  v ∈ views d → views_wf (views d) → of_kind lineage kind v = true →
  head (newest_seqs lineage kind (views d)) = Some (View.view_seq v) →
  newest_view lineage kind d = Some v.
Proof.
  intros Hin Hwf Hk Hhead. unfold newest_view.
  destruct (newest_seqs lineage kind (views d)) as [|s ss]; [done|]. simpl in Hhead. injection Hhead as ->.
  apply list_find_unique; [done|done|]. intros w Hw [Hkw Hs]. apply (views_wf_unique (views d)); [done..|].
  unfold of_kind in Hk, Hkw.
  apply andb_prop in Hk as [H1%bool_decide_eq_true H2%bool_decide_eq_true].
  apply andb_prop in Hkw as [H3%bool_decide_eq_true H4%bool_decide_eq_true].
  unfold view_key. congruence.
Qed.

Lemma newest_seqs_pruned lineage kind d s ss :
  views_wf (views d) → newest_seqs lineage kind (views d) = s :: ss →
  head (newest_seqs lineage kind (views (prune_views lineage kind d))) = Some s.
Proof.
  intros Hwf E.
  assert (∀ x, x ∈ newest_seqs lineage kind (views (prune_views lineage kind d)) → x <= s) as Hle.
  { intros x (v & Hv & Hk & <-)%newest_seqs_elem. apply prune_views_elem in Hv as [Hv _].
    assert (View.view_seq v ∈ newest_seqs lineage kind (views d)) as Hin by (apply newest_seqs_elem; eauto).
    unfold newest_seqs in Hin, E. apply (f_equal reverse) in E. rewrite reverse_involutive, reverse_cons in E.
    rewrite elem_of_reverse, E in Hin. pose proof (StronglySorted_merge_sort Z.le
      (View.view_seq <$> filter (λ v, of_kind lineage kind v = true) (views d))) as Hs.
    rewrite E in Hs. apply StronglySorted_app in Hs as (Hs & _ & _).
    apply elem_of_app in Hin as [Hin|Hin%list_elem_of_singleton]; [|lia]. by apply Hs; [|left]. }
  assert (s ∈ newest_seqs lineage kind (views (prune_views lineage kind d))) as Hs.
  { assert (s ∈ newest_seqs lineage kind (views d)) as Hin by (rewrite E; by left).
    apply newest_seqs_elem in Hin as (v & Hv & Hk & <-). apply newest_seqs_elem. exists v.
    split_and!; [|done..]. apply prune_views_elem. split; [done|]. intros _. rewrite E. by left. }
  clear E. unfold newest_seqs in *. set (l := merge_sort Z.le _) in *. setoid_rewrite elem_of_reverse in Hle.
  rewrite elem_of_reverse in Hs.
  assert (StronglySorted Z.le l) as Hsort by (apply StronglySorted_merge_sort; apply _).
  destruct (list_eq_nil_dec l) as [->|Hne]; [by apply elem_of_nil in Hs|].
  destruct (exists_last Hne) as (l' & x & El). rewrite El in *. rewrite reverse_snoc. simpl. f_equal.
  apply Z.le_antisymm; [apply Hle, elem_of_app; right; by left|].
  apply StronglySorted_app in Hsort as (Hs1 & _ & _). apply elem_of_app in Hs as [Hs|Hs%list_elem_of_singleton]; [|lia].
  by apply Hs1; [|left].
Qed.

(** ** Text of an integer, read back by CAST *)

Definition codes (s : string) : list Z := char_code <$> String.list_ascii_of_string s.

Definition is_digit (c : Z) : Prop := 48 <= c <= 57.

Lemma pretty_char_code k : (k < 10)%N → char_code (pretty_N_char k) = 48 + Z.of_N k.
Proof.
  intros Hk.
  assert (k = 0 ∨ k = 1 ∨ k = 2 ∨ k = 3 ∨ k = 4 ∨ k = 5 ∨ k = 6 ∨ k = 7 ∨ k = 8 ∨ k = 9)%N as Hin by lia.
  by destruct_or! Hin; subst.
Qed.

Lemma digit_range k : (k < 10)%N → is_digit (48 + Z.of_N k).
Proof. unfold is_digit. lia. Qed.

Lemma codes_cons c s : codes (String c s) = char_code c :: codes s.
Proof. done. Qed.

Lemma pretty_go_digits x s :
  Forall is_digit (codes s) → Forall is_digit (codes (pretty_N_go x s)).
Proof.
  revert s. induction (N.lt_wf_0 x) as [x _ IH]; intros s Hs.
  destruct (decide (x = 0%N)) as [->|Hx]; [by rewrite pretty_N_go_0|].
  rewrite pretty_N_go_step by lia. apply IH; [apply N.div_lt; lia|]. rewrite codes_cons.
  assert (x `mod` 10 < 10)%N by (apply N.mod_lt; lia). rewrite pretty_char_code by done.
  constructor; [by apply digit_range|done].
Qed.

Lemma digits_value_pretty x s :
  digits_value 0 (codes (pretty_N_go x s)) = digits_value (Z.of_N x) (codes s).
Proof.
  revert s. induction (N.lt_wf_0 x) as [x _ IH]; intros s.
  destruct (decide (x = 0%N)) as [->|Hx]; [by rewrite pretty_N_go_0|].
  rewrite pretty_N_go_step by lia. rewrite IH by (apply N.div_lt; lia). rewrite codes_cons.
  assert (x `mod` 10 < 10)%N by (apply N.mod_lt; lia). rewrite pretty_char_code by done.
  cbn [digits_value]. rewrite bool_decide_eq_true_2 by by apply digit_range. f_equal.
  pose proof (N.div_mod x 10 ltac:(lia)). lia.
Qed.

Lemma cast_digits cs : Forall is_digit cs → cast_chars cs = digits_value 0 cs.
Proof.
  intros [|c cs' Hc _]; [done|]. unfold is_digit in Hc. cbn [cast_chars]. unfold is_space.
  by rewrite !bool_decide_eq_false_2 by lia.
Qed.

(** What SQLite writes for an integer CAST to TEXT reads back as that integer. *)
Lemma cast_pretty z : 0 <= z < 2 ^ 63 → cast_int (MText (pretty z)) = z.
Proof.
  intros Hz. unfold cast_int. fold (codes (pretty z)).
  assert (∃ n, z = Z.of_N n) as [n ->] by (exists (Z.to_N z); lia).
  assert (pretty (Z.of_N n) = pretty n) as -> by (by destruct n).
  unfold pretty, pretty_N. case_decide as Hn; [by subst|].
  rewrite cast_digits by (apply pretty_go_digits; constructor).
  rewrite digits_value_pretty. simpl. unfold clamp_i64. lia.
Qed.
