(* ===== verification/LedgerWriter.v ===== *)
(** Ledger transactions as the engine composes them (engine.py over
    ingest_ledger.py): placing new rows among the bound ones, binding the
    pending rows of an ingest, re-binding exact pairs, and the life of an
    emission.  Each definition is the body of one owned transaction; an error
    rolls it back. *)

From S2P Require Import Prelude LedgerCodec LedgerOrdinals LedgerStore.
From stdpp Require Import pretty options.

#[local] Open Scope Z_scope.

(** The lineage a session was adopted into; [session_lineage:*] values are TEXT. *)
Definition session_lineage (session_id lineage : string) (d : ledger) : string :=
  match persisted_lineage session_id (MText lineage) d with MText l => l | _ => lineage end.

(** ** The common step: plan, re-space, insert *)

Definition with_ordinal (r : binding_row) (o : option Z) : binding_row :=
  {| r_ordinal := o; r_store_id := r_store_id r; r_identity := r_identity r; r_stamp := r_stamp r;
     r_disposition := r_disposition r; r_tag := r_tag r; r_key_rank := r_key_rank r;
     r_view_seq := r_view_seq r |}.

(** [dict(ordinal=ordinal, ..) for .., ordinal in zip(.., ordinals)] *)
Definition labelled (rows : list binding_row) (ordinals : list (option Z)) : list binding_row :=
  zip_with with_ordinal rows ordinals.

(** [if respace: apply_respace(conn, lineage, respace)] *)
Definition respace_if (lineage : string) (moves : list (Z * Z)) (d : ledger)
    : result ledger_error ledger :=
  match moves with
  | [] => Ok d
  | _ => let! (d, _) := apply_respace lineage moves d in Ok d
  end.

(** ** A compression's tail rows *)

Record tail_row := {
  t_store : Z;
  t_entry : ViewEntry;
  t_stamp : option string;
  t_remainder : option bytes
}.

Definition tail_binding (seq : Z) (r : tail_row) : binding_row :=
  {| r_ordinal := None; r_store_id := Some (t_store r);
     r_identity := default (identity_digest (t_entry r)) (t_remainder r);
     r_stamp := if t_remainder r is Some _ then None else t_stamp r;
     r_disposition := if t_remainder r is Some _ then CompositePart else Stored;
     r_tag := None; r_key_rank := None; r_view_seq := seq |}.

(** [SELECT min(ordinal) .. WHERE ordinal>? AND disposition IN (..)] *)
Definition next_kept (lineage : string) (left : option Z) (d : ledger) : option Z :=
  match left with
  | None => None
  | Some l => min_opt (filter (λ o, l < o) (omap (λ b,
      if bool_decide (Binding.lineage b = lineage) && kept (Binding.disp b)
      then Binding.ordinal b else None) (bindings d)))
  end.

Definition write_tail_bindings (session_id fallback : string) (rows : list tail_row)
    (left : option Z) (d : ledger) : result ledger_error (ledger * list (Z * Z)) :=
  let lineage := session_lineage session_id fallback d in
  let right := next_kept lineage left d in
  let! (ordinals, moves) :=
    plan_ordinals (lineage_ordinals lineage d)
      (replicate (length rows) {| left := left; right := right; supersedes := None |}) in
  let! (d, _) := apply_respace lineage moves d in
  let! (d, seq) := next_view_seq d in
  let! (d, _) := insert_bindings lineage (labelled (tail_binding seq <$> rows) ordinals) d in
  Ok (d, moves).

(** ** The pending rows of an ingest *)

(** Index in the view, and the bound occurrence's ordinal. *)
Definition bound_rows := list (Z * option Z).

(** [next((bound[j][1] for j in sorted(bound, reverse=True) if j < idx), None)] *)
Definition nearest (better : Z → Z → bool) (ok : Z → bool) (bound : bound_rows) : option (Z * option Z) :=
  foldr (λ b best, if ok b.1
                   then match best with
                        | Some c => if better b.1 c.1 then Some b else best
                        | None => Some b
                        end
                   else best) None bound.

Definition pending_placement (bound : bound_rows) (idx : Z) : Placement :=
  {| left := nearest (λ x y, bool_decide (y < x)) (λ j, bool_decide (j < idx)) bound ≫= snd;
     right := nearest (λ x y, bool_decide (x < y)) (λ j, bool_decide (idx < j)) bound ≫= snd;
     supersedes := None |}.

(** The labels the plan is made against: the whole lineage when some row has a
    right neighbour, otherwise the largest label and the left neighbours. *)
Definition planning_labels (lineage : string) (ps : list Placement) (d : ledger) : list Z :=
  if existsb (λ p, bool_decide (is_Some (right p))) ps then lineage_ordinals lineage d
  else sorted_set (omap id (max_opt (occupied lineage d) :: map left ps)).

Record pending_row := {
  p_index : Z;
  p_store : Z;
  p_entry : ViewEntry;
  p_stamp : option string;
  p_remainder : option bytes
}.

Definition pending_binding (seq : Z) (r : pending_row) : binding_row :=
  {| r_ordinal := None; r_store_id := Some (p_store r);
     r_identity := default (identity_digest (p_entry r)) (p_remainder r);
     r_stamp := if p_remainder r is Some _ then None else p_stamp r;
     r_disposition := if p_remainder r is Some _ then CompositePart else Stored;
     r_tag := None; r_key_rank := None; r_view_seq := seq |}.

(** [rows] are the stored rows, at least one, sorted by view index.  Bounds that decrease in
    view order skip the write ([None]); an empty change map is not applied. *)
Definition bind_pending (lineage : string) (rows : list pending_row) (bound : bound_rows)
    (d : ledger) : result ledger_error (option (ledger * list Z)) :=
  let ps := map (λ r, pending_placement bound (p_index r)) rows in
  match plan_ordinals (planning_labels lineage ps d) ps with
  | Err BoundsOrderError => Ok None
  | Err e => Err e
  | Ok (ordinals, moves) =>
      let! (d, seq) := next_view_seq d in
      let! d := respace_if lineage moves d in
      let! (d, occs) := insert_bindings lineage (labelled (pending_binding seq <$> rows) ordinals) d in
      Ok (Some (d, occs))
  end.

(** ** Re-binding exact pairs of an earlier binding gap *)

Record rebind_row := {
  b_store : Z;
  b_identity : bytes;
  b_stamp : option string
}.

Definition rebind_binding (seq : Z) (r : rebind_row) : binding_row :=
  {| r_ordinal := None; r_store_id := Some (b_store r); r_identity := b_identity r;
     r_stamp := b_stamp r; r_disposition := Migrated; r_tag := None; r_key_rank := None;
     r_view_seq := seq |}.

Definition store_le (a b : Z * option Z) : Prop := a.1 <= b.1.

#[global] Instance store_le_dec a b : Decision (store_le a b).
Proof. unfold store_le. apply _. Defined.

(** [SELECT store_id,ordinal .. WHERE disposition IN (..) ORDER BY store_id];
    a kept row has a store id. *)
Definition kept_by_store (lineage : string) (d : ledger) : list (Z * option Z) :=
  merge_sort store_le
    (omap (λ b, if bool_decide (Binding.lineage b = lineage) && kept (Binding.disp b)
                then (λ s, (s, Binding.ordinal b)) <$> Binding.store_id b else None) (bindings d)).

Fixpoint bisect_right (l : list Z) (x : Z) : nat :=
  match l with
  | [] => 0%nat
  | y :: l => if bool_decide (y <= x) then S (bisect_right l x) else 0%nat
  end.

(** The bounds of a pair among the kept rows, by store id. *)
Definition rebind_bounds (kept : list (Z * option Z)) (sid : Z) : option Z * option Z :=
  (match bisect_left kept.*1 sid with
   | O => None
   | S i => (kept !! i) ≫= snd
   end,
   (kept !! bisect_right kept.*1 sid) ≫= snd).

(** The loop over the planned pairs; a pair whose bounds cross is skipped. *)
Fixpoint rebind_placements (kept : list (Z * option Z)) (last : Z * Z) (rows : list rebind_row)
    : list (rebind_row * Placement) * nat :=
  match rows with
  | [] => ([], 0%nat)
  | r :: rows =>
      let '(l, u) := rebind_bounds kept (b_store r) in
      let bounds := (default 0 l, default (2 ^ 63) u) in
      if bool_decide (bounds.2 <= bounds.1)
         || bool_decide (bounds.1 < last.1) || bool_decide (bounds.2 < last.2)
      then let '(ps, n) := rebind_placements kept last rows in (ps, S n)
      else let '(ps, n) := rebind_placements kept bounds rows in
           ((r, {| left := l; right := u; supersedes := None |}) :: ps, n)
  end.

(** [rows] are the planned pairs; the result is the written rows with their
    occurrence ids, and the number of crossed pairs. *)
Definition write_rebinds (lineage : string) (seq : option Z) (rows : list rebind_row) (d : ledger)
    : result ledger_error (ledger * list (rebind_row * Z) * nat) :=
  match rows with
  | [] => Ok (d, [], 0%nat)
  | _ =>
      let '(pairs, crossed) := rebind_placements (kept_by_store lineage d) (0, 0) rows in
      let! (d, rebind_seq) := match seq with Some s => Ok (d, s) | None => next_view_seq d end in
      match pairs with
      | [] => Ok (d, [], crossed)
      | _ =>
          let! (labels, moves) := plan_ordinals (lineage_ordinals lineage d) (snd <$> pairs) in
          let! d := respace_if lineage moves d in
          let! (d, refs) := insert_bindings lineage
                              (labelled (rebind_binding rebind_seq <$> pairs.*1) labels) d in
          Ok (d, zip pairs.*1 refs, crossed)
      end
  end.

(** ** The life of an emission *)

(** The owned transaction of a compression's output: provenance rows and the
    emission view share one sequence number. *)
Section emission.
Variable blake2b : bytes → bytes → bytes.

(** [entries[i] = entries[i]._replace(ref=emission_id, is_descriptor=True)] *)
Definition mark_descriptor (entries : list ViewEntry) (p : nat * Z) : list ViewEntry :=
  alter (λ e, {| identity_digest := identity_digest e; stamp_digest := stamp_digest e;
                 uidset_digest := uidset_digest e; ref := Some p.2; is_descriptor := true |})
    p.1 entries.

Definition write_emission (salt : bytes) (session_id fallback : string) (entries : list ViewEntry)
    (indices : list nat) (rows : list emission_row) (d : ledger)
    : result ledger_error (ledger * Z) :=
  let lineage := session_lineage session_id fallback d in
  let! (d, seq) := next_view_seq d in
  let! (d, ids) := insert_emissions lineage seq rows d in
  let entries := foldl mark_descriptor entries (zip indices ids) in
  write_view blake2b salt lineage EmissionView (Some Proposed) entries (Some seq) None d.

End emission.

(** The savepoint of one retried emission: provenance only, and the recovered
    mark that withholds every view up to it. *)
Definition retry_emission (session_id fallback : string) (rows : list emission_row) (d : ledger)
    : result ledger_error (ledger * Z) :=
  let lineage := session_lineage session_id fallback d in
  let! (d, seq) := next_view_seq d in
  let! (d, _) := insert_emissions lineage seq rows d in
  Ok (set_meta (raise_recovered lineage (MText (pretty seq)) (ledger_meta d)) d, seq).

Record EmissionHandle := {
  h_lineage : string;
  h_view_seq : Z;
  h_compress_call : Z;
  h_session_id : string;
  h_conversation_key : string
}.

Inductive signal_outcome :=
| SignalUnmatched
| SignalMoved (moved : Z)
| RefusedAfterAdopted.

(** The guards and the transaction of [_signal_emission_state]; the state of
    the persisted lineage is tried first, then that of the handle. *)
Definition signal_matches (h : option EmissionHandle) (compress_calls : Z) (session_id : string)
    (conversation : option string) : bool :=
  match h with
  | None => false
  | Some h =>
      bool_decide (h_compress_call h = compress_calls)
      && bool_decide (h_session_id h = session_id)
      && match conversation with None => true | Some k => bool_decide (h_conversation_key h = k) end
  end.

Definition states_of (lineages : list string) (view_seq : Z) (d : ledger) : list emission_state :=
  remove_dups (Emission.state <$>
    filter (λ e, Emission.lineage e ∈ lineages ∧ Emission.view_seq e = view_seq) (emissions d)).

Definition signal_emission_state (h : option EmissionHandle) (compress_calls : Z)
    (new_state : emission_state) (session_id : string) (conversation : option string) (d : ledger)
    : result ledger_error (ledger * signal_outcome) :=
  match h with
  | Some hd =>
      if negb (signal_matches h compress_calls session_id conversation) then Ok (d, SignalUnmatched)
      else
        let lineage := session_lineage (h_session_id hd) (h_lineage hd) d in
        let! (d, r) := set_emission_state lineage (h_view_seq hd) new_state d in
        let! (d, r) := (if bool_decide (r.1 = 0) && negb (bool_decide (lineage = h_lineage hd))
                        then set_emission_state (h_lineage hd) (h_view_seq hd) new_state d
                        else Ok (d, r)) in
        if bool_decide (r.1 = 0)
        then Ok (d, if bool_decide (new_state = Refused)
                       && bool_decide (Adopted ∈ states_of [lineage; h_lineage hd] (h_view_seq hd) d)
                    then RefusedAfterAdopted else SignalUnmatched)
        else Ok (d, SignalMoved r.1)
  | None => Ok (d, SignalUnmatched)
  end.

(** ** Placing rows never breaks the unique index *)

(** The rows [insert_bindings] appends. *)
Fixpoint new_bindings (lineage : string) (occ : Z) (rows : list binding_row) : list Binding.t :=
  match rows with
  | [] => []
  | r :: rows =>
      Binding.mk (occ + 1) lineage (r_ordinal r) (r_store_id r) (r_identity r) (r_stamp r)
        (r_disposition r) (r_tag r) (r_key_rank r) (r_view_seq r)
      :: new_bindings lineage (occ + 1) rows
  end.

Lemma unique_app_l l k : unique_ordinals (l ++ k) → unique_ordinals l.
Proof. unfold unique_ordinals. rewrite omap_app, NoDup_app. tauto. Qed.

Lemma insert_bindings_loop_ok lineage rows d :
  unique_ordinals (bindings d ++ new_bindings lineage (last_occ d) rows) →
  insert_bindings_loop lineage rows d
  = Ok (set_bindings (bindings d ++ new_bindings lineage (last_occ d) rows)
          (last_occ d + Z.of_nat (length rows)) d,
        Binding.occ_id <$> new_bindings lineage (last_occ d) rows).
Proof.
  revert d. induction rows as [|r rows IH]; intros d Hu.
  - simpl. rewrite app_nil_r, Z.add_0_r. by destruct d.
  - cbn [insert_bindings_loop new_bindings] in *. unfold insert_binding.
    rewrite cons_middle, app_assoc in Hu.
    rewrite bool_decide_eq_true_2 by by eapply unique_app_l. cbn [raise_if negb rbind].
    rewrite IH by done. cbn [rbind bindings last_occ set_bindings].
    rewrite <-app_assoc. simpl. do 2 f_equal. unfold set_bindings. simpl. f_equal. lia.
Qed.

Lemma insert_bindings_ok lineage rows d :
  owned d = true → unique_ordinals (bindings d ++ new_bindings lineage (last_occ d) rows) →
  insert_bindings lineage rows d
  = Ok (set_bindings (bindings d ++ new_bindings lineage (last_occ d) rows)
          (last_occ d + Z.of_nat (length rows)) d,
        Binding.occ_id <$> new_bindings lineage (last_occ d) rows).
Proof.
  intros Ho Hu. unfold insert_bindings, require_owner. rewrite Ho. by apply insert_bindings_loop_ok.
Qed.

Lemma elem_of_new_keys lineage occ rows k :
  k ∈ omap index_key (new_bindings lineage occ rows) →
  k.1 = lineage ∧ Some k.2 ∈ r_ordinal <$> rows.
Proof.
  revert occ. induction rows as [|r rows IH]; intros occ; simpl; [by intros ?%elem_of_nil|].
  unfold index_key at 1. simpl. destruct (kept _); simpl.
  - destruct (r_ordinal r) as [o|]; simpl.
    + intros [->|H]%elem_of_cons; [by split; [|left]|]. destruct (IH _ H). by split; [|right].
    + intros H. destruct (IH _ H). by split; [|right].
  - intros H. destruct (IH _ H). by split; [|right].
Qed.

Definition increasing (os : list (option Z)) : Prop :=
  ∀ i j v w, (i < j)%nat → os !! i = Some (Some v) → os !! j = Some (Some w) → v < w.

Lemma increasing_cons o os : increasing (o :: os) → increasing os.
Proof. intros H i j v w Hij Hi Hj. apply (H (S i) (S j) v w); [lia|done|done]. Qed.

Lemma unique_new lineage occ rows :
  increasing (r_ordinal <$> rows) → unique_ordinals (new_bindings lineage occ rows).
Proof.
  unfold unique_ordinals. revert occ. induction rows as [|r rows IH]; intros occ Hinc; simpl; [constructor|].
  pose proof (increasing_cons _ _ Hinc) as Hinc'.
  unfold index_key at 1. simpl. destruct (kept _); simpl; [|by apply IH].
  destruct (r_ordinal r) as [o|] eqn:Er; simpl; [|by apply IH].
  constructor; [|by apply IH]. intros [_ Hin]%elem_of_new_keys.
  apply list_elem_of_lookup in Hin as [j Hj]. simpl in Hj.
  specialize (Hinc 0%nat (S j) o o ltac:(lia)). simpl in Hinc. rewrite Er in Hinc.
  specialize (Hinc eq_refl Hj). lia.
Qed.

Lemma labelled_ordinals rows os :
  length os = length rows → r_ordinal <$> labelled rows os = os.
Proof.
  unfold labelled. revert os. induction rows as [|r rows IH]; intros [|o os] H; try done.
  simpl. f_equal. apply IH. by injection H.
Qed.

(** The bindings after a plan was applied: the lineage relabelled, then the new rows. *)
Definition placed_rows (lineage : string) (rows : list binding_row) (res : list (option Z))
    (moves : list (Z * Z)) (d : ledger) : list Binding.t :=
  relabel_rows lineage (relabel moves) (bindings d)
  ++ new_bindings lineage (last_occ d) (labelled rows res).

Lemma planned_inj existing ps res moves gs s :
  planned existing ps res moves gs s → inj_on (relabel moves) existing.
Proof.
  intros P x y Hx Hy E. destruct (Z.lt_trichotomy x y) as [H|[H|H]]; [|done|].
  - pose proof (planned_relabel_mono _ _ _ _ _ _ _ _ P Hx Hy H). lia.
  - pose proof (planned_relabel_mono _ _ _ _ _ _ _ _ P Hy Hx H). lia.
Qed.

Lemma ordinals_relabel lineage φ l :
  ordinals_in lineage (relabel_rows lineage φ l) = φ <$> ordinals_in lineage l.
Proof.
  unfold ordinals_in, relabel_rows. induction l as [|b l IH]; [done|].
  cbn [map omap list_omap]. destruct (decide (Binding.lineage b = lineage)) as [E|E].
  - rewrite (bool_decide_eq_true_2 _ E). simpl. rewrite (bool_decide_eq_true_2 _ E).
    destruct (Binding.ordinal b); simpl; [f_equal|]; exact IH.
  - rewrite (bool_decide_eq_false_2 _ E). rewrite (bool_decide_eq_false_2 _ E). exact IH.
Qed.

(** A plan against all labels of the lineage can be carried out. *)
Lemma placed_rows_unique lineage existing ps res moves rows d :
  unique_ordinals (bindings d) → plan_ordinals existing ps = Ok (res, moves) →
  length rows = length ps → (∀ x, x ∈ occupied lineage d → x ∈ existing) →
  unique_ordinals (placed_rows lineage rows res moves d).
Proof.
  intros Hu (gs & s & P)%plan_ordinals_planned Hlen Hex.
  pose proof (planned_length _ _ _ _ _ _ P) as Hl.
  unfold placed_rows, unique_ordinals. rewrite omap_app. apply NoDup_app. split_and!.
  - apply unique_relabel; [done|]. intros x y Hx Hy. apply (planned_inj _ _ _ _ _ _ P); by apply Hex.
  - intros [li o] Hold Hnew. apply elem_of_new_keys in Hnew as [Eli Hin]. simpl in *. subst li.
    rewrite labelled_ordinals in Hin by congruence.
    apply list_elem_of_lookup in Hin as [i Hi].
    destruct (planned_new _ _ _ _ _ _ _ _ P Hi) as [_ Hne].
    apply index_key_ordinals_in in Hold. rewrite ordinals_relabel in Hold.
    apply list_elem_of_fmap in Hold as (x & -> & Hx). by apply (Hne x (Hex x Hx)).
  - apply unique_new. rewrite labelled_ordinals by congruence.
    intros i j v w Hij Hi Hj. by eapply planned_increasing.
Qed.

Lemma foldr_min_positive l : (∀ x, x ∈ l → 0 < x) → foldr Z.min 0 l = 0.
Proof.
  induction l as [|x l IH]; intros H; simpl; [done|].
  rewrite IH by (intros y Hy; apply H; by right). specialize (H x ltac:(left)). lia.
Qed.

Lemma planned_respaceable lineage existing ps res moves gs s d :
  unique_ordinals (bindings d) → planned existing ps res moves gs s →
  (∀ x, x ∈ occupied lineage d ↔ x ∈ existing) → respaceable lineage moves d.
Proof.
  intros Hu P Hex. destruct (planned_respace_map _ _ _ _ _ _ P) as [K1 K2 K3 K4 K5 K6].
  assert (∀ x, x ∈ existing → 0 < x) as Hpos.
  { intros x Hx. by destruct (planned_valid_existing _ _ _ _ _ _ _ P Hx). }
  constructor; [done|done|by eauto| |].
  - apply valid_respace_spec. split_and!; [done|done|]. intros v Hv Ho. apply K5; [done|by apply Hex].
  - rewrite foldr_min_positive; [unfold MAX_ORDINAL in K6; change (Z.shiftl 1 63) with (2 ^ 63) in K6; lia|].
    intros x Hx. apply Hpos. by apply Hex.
Qed.

Lemma bindings_set_meta m d : bindings (set_meta m d) = bindings d.
Proof. done. Qed.

Lemma next_view_seq_ok d v :
  owned d = true → ledger_meta d !! "view_seq" = Some v →
  next_view_seq d = Ok (set_meta (<["view_seq" := MInt (cast_int v + 1)]> (ledger_meta d)) d, cast_int v + 1).
Proof. intros Ho Hv. unfold next_view_seq, require_owner. by rewrite Ho, Hv. Qed.

(** What a write that followed a plan left behind: the old rows keep their
    order, the new rows stand in view order strictly between their bounds, and
    no two kept rows share a label. *)
Record placed (lineage : string) (ps : list Placement) (rows : list binding_row)
    (res : list (option Z)) (moves : list (Z * Z)) (d d' : ledger) : Prop := {
  pd_bindings : bindings d' = placed_rows lineage rows res moves d;
  pd_unique : unique_ordinals (bindings d');
  pd_length : length res = length ps;
  pd_old : ∀ x y, x ∈ occupied lineage d → y ∈ occupied lineage d → x < y →
             relabel moves x < relabel moves y;
  pd_new : increasing res;
  pd_within : ∀ i p, ps !! i = Some p → ∃ v, res !! i = Some (Some v)
    ∧ (∀ l, left p = Some l → relabel moves l < v) ∧ (∀ r, right p = Some r → v < relabel moves r)
}.

Lemma planned_placed lineage existing ps res moves gs s rows d d' :
  unique_ordinals (bindings d) → planned existing ps res moves gs s →
  plan_ordinals existing ps = Ok (res, moves) → length rows = length ps →
  (∀ x, x ∈ occupied lineage d → x ∈ existing) →
  bindings d' = placed_rows lineage rows res moves d →
  placed lineage ps rows res moves d d'.
Proof.
  intros Hu P Hplan Hlen Hex E. constructor; [done| | | | |].
  - rewrite E. by eapply placed_rows_unique.
  - by eapply planned_length.
  - intros x y Hx Hy. eapply planned_relabel_mono; [done|by apply Hex..].
  - intros i j v w Hij Hi Hj. by eapply planned_increasing.
  - intros i p Hp. destruct (planned_within _ _ _ _ _ _ _ _ P Hp) as (v & Hv & Hl & Hr & _). eauto.
Qed.

Lemma lineage_ordinals_elem lineage d x : x ∈ occupied lineage d ↔ x ∈ lineage_ordinals lineage d.
Proof. unfold lineage_ordinals. by rewrite sorted_set_elem. Qed.

Lemma session_lineage_meta session fallback m d :
  m !! session_key session = ledger_meta d !! session_key session →
  session_lineage session fallback (set_meta m d) = session_lineage session fallback d.
Proof. intros E. unfold session_lineage, persisted_lineage. simpl. by rewrite E. Qed.

Definition tail_placements (session_id fallback : string) (n : nat) (left : option Z) (d : ledger)
    : list Placement :=
  replicate n {| left := left; right := next_kept (session_lineage session_id fallback d) left d;
                 supersedes := None |}.

(** Writing a compression's tail rows fails only where the plan fails; when
    the plan succeeds the rows are bound in order right after [left] and before
    the next kept row, the lineage keeps its order, and no label is used twice. *)
Theorem write_tail_bindings_places session fallback rows left d v
    (lineage := session_lineage session fallback d)
    (ps := tail_placements session fallback (length rows) left d) :
  owned d = true → unique_ordinals (bindings d) → ledger_meta d !! "view_seq" = Some v →
  match plan_ordinals (lineage_ordinals lineage d) ps with
  | Err e => write_tail_bindings session fallback rows left d = Err e
  | Ok (res, moves) =>
      ∃ d', write_tail_bindings session fallback rows left d = Ok (d', moves)
            ∧ placed lineage ps (tail_binding (cast_int v + 1) <$> rows) res moves d d'
  end.
Proof.
  intros Ho Hu Hv. unfold write_tail_bindings. fold lineage. fold ps.
  change (replicate (length rows) _) with ps.
  destruct (plan_ordinals (lineage_ordinals lineage d) ps) as [[res moves]|e] eqn:Hplan; [|done].
  cbn [rbind]. pose proof Hplan as (gs & s & P)%plan_ordinals_planned.
  assert (length (tail_binding (cast_int v + 1) <$> rows) = length ps) as Hlen.
  { unfold ps, tail_placements. by rewrite length_fmap, length_replicate. }
  rewrite apply_respace_ok by (done || by eapply planned_respaceable; [|done|]; [|apply lineage_ordinals_elem]).
  cbn [rbind]. erewrite next_view_seq_ok by done. cbn [rbind].
  erewrite insert_bindings_ok; [|done|].
  - eexists. split; [done|]. eapply planned_placed; [done..| |done].
    intros x Hx. by apply lineage_ordinals_elem.
  - refine (placed_rows_unique lineage _ ps res moves _ d Hu Hplan Hlen _).
    intros x Hx. by apply lineage_ordinals_elem.
Qed.

Definition sample_tail : list tail_row :=
  [{| t_store := 9; t_entry := sample_entry; t_stamp := None; t_remainder := None |}].

Lemma write_tail_bindings_places_witness :
  ∃ res moves d', write_tail_bindings "s" "a" sample_tail (Some 100) sample_ledger = Ok (d', moves)
    ∧ placed "a" (tail_placements "s" "a" 1 (Some 100) sample_ledger)
        (tail_binding 4 <$> sample_tail) res moves sample_ledger d'.
Proof.
  assert (unique_ordinals (bindings sample_ledger)) as Hu
    by (apply (bool_decide_unpack _); vm_compute; exact I).
  pose proof (write_tail_bindings_places "s" "a" sample_tail (Some 100) sample_ledger (MInt 3)
    eq_refl Hu eq_refl) as H.
  destruct (plan_ordinals _ _) as [[res moves]|e] eqn:E in H; [|vm_compute in E; discriminate E].
  destruct H as (d' & H1 & H2). exists res, moves, d'. split; [exact H1|exact H2].
Defined.

(** ** Pending rows of an ingest *)


Lemma max_opt_spec l m : max_opt l = Some m → m ∈ l ∧ ∀ x, x ∈ l → x <= m.
Proof. destruct l; [done|]. simpl. intros [= <-]. split; [apply foldr_max_in|apply foldr_max_ge]. Qed.

Lemma pending_no_right (ps : list Placement) :
  existsb (λ p, bool_decide (is_Some (right p))) ps = false → ∀ i p, ps !! i = Some p → right p = None.
Proof.
  intros H i p Hp. destruct (right p) as [r|] eqn:E; [|done]. exfalso.
  rewrite <-not_true_iff_false, existsb_exists in H. apply H. exists p. split.
  - apply list_elem_of_In. by eapply list_elem_of_lookup_2.
  - apply bool_decide_eq_true. by rewrite E.
Qed.

(** Appending past the largest label of the lineage. *)
Lemma appended_placed lineage ps rows res d d' :
  unique_ordinals (bindings d) →
  existsb (λ p, bool_decide (is_Some (right p))) ps = false →
  (∀ i p, ps !! i = Some p → supersedes p = None) →
  plan_ordinals (planning_labels lineage ps d) ps = Ok (res, []) → length rows = length ps →
  bindings d' = placed_rows lineage rows res [] d →
  placed lineage ps rows res [] d d'.
Proof.
  intros Hu Hright Hsup Hplan Hlen E. pose proof Hplan as (gs & s & P)%plan_ordinals_planned.
  pose proof (pending_no_right ps Hright) as Hnone.
  assert (∀ i v, res !! i = Some (Some v) → ∀ x, x ∈ occupied lineage d → x < v) as Habove.
  { intros i v Hi x Hx. destruct (lookup_lt_is_Some_2 ps i) as [p Hp].
    { rewrite <-(planned_length _ _ _ _ _ _ P). by eapply lookup_lt_Some. }
    destruct (planned_within _ _ _ _ _ _ _ _ P Hp) as (v' & Hv' & _ & _ & _ & Hall).
    assert (v' = v) as -> by congruence.
    destruct (max_opt (occupied lineage d)) as [m|] eqn:Em.
    - destruct (max_opt_spec _ _ Em) as [_ Hm]. specialize (Hm x Hx).
      assert (relabel [] m < v) as Hmv; [|simpl in Hmv; unfold relabel in Hmv; simpl in Hmv; lia].
      apply Hall; [by eapply Hnone|by eapply Hsup|].
      unfold planning_labels. rewrite Hright, sorted_set_elem, list_elem_of_omap.
      exists (Some m). split; [rewrite Em; by left|done].
    - unfold max_opt in Em. destruct (occupied lineage d); [by apply elem_of_nil in Hx|done]. }
  assert (∀ x, relabel [] x = x) as Hid by done.
  constructor; [done| |by eapply planned_length|by intros x y _ _| |].
  - rewrite E. unfold placed_rows. rewrite (relabel_rows_ext lineage _ id) by done. rewrite relabel_rows_id.
    unfold unique_ordinals. rewrite omap_app. apply NoDup_app. split_and!; [done| |].
    + intros [li o] Hold [Eli Hin]%elem_of_new_keys. simpl in *. subst li.
      rewrite labelled_ordinals in Hin by (rewrite (planned_length _ _ _ _ _ _ P); done).
      apply list_elem_of_lookup in Hin as [i Hi]. apply index_key_ordinals_in in Hold.
      specialize (Habove i o Hi o Hold). lia.
    + apply unique_new. rewrite labelled_ordinals by (rewrite (planned_length _ _ _ _ _ _ P); done).
      intros i j v w Hij Hi Hj. by eapply planned_increasing.
  - intros i j v w Hij Hi Hj. by eapply planned_increasing.
  - intros i p Hp. destruct (planned_within _ _ _ _ _ _ _ _ P Hp) as (v & Hv & Hl & Hr & _). eauto.
Qed.

Definition pending_placements (bound : bound_rows) (rows : list pending_row) : list Placement :=
  map (λ r, pending_placement bound (p_index r)) rows.

(** The plan was made against the whole lineage, or moves no label. *)
Definition whole_or_append (ps : list Placement) (moves : list (Z * Z)) : Prop :=
  existsb (λ p, bool_decide (is_Some (right p))) ps = true ∨ moves = [].

Lemma planning_labels_whole lineage ps d :
  existsb (λ p, bool_decide (is_Some (right p))) ps = true →
  planning_labels lineage ps d = lineage_ordinals lineage d.
Proof. intros E. unfold planning_labels. by rewrite E. Qed.

(** Either plan of an ingest can be carried out. *)
Lemma pending_placed lineage ps rows res moves d d' :
  unique_ordinals (bindings d) → (∀ i p, ps !! i = Some p → supersedes p = None) →
  plan_ordinals (planning_labels lineage ps d) ps = Ok (res, moves) → length rows = length ps →
  whole_or_append ps moves → bindings d' = placed_rows lineage rows res moves d →
  placed lineage ps rows res moves d d' ∧ (moves = [] ∨ respaceable lineage moves d).
Proof.
  intros Hu Hsup Hplan Hlen Hw E. pose proof Hplan as (gs & s & P)%plan_ordinals_planned.
  destruct (existsb (λ p, bool_decide (is_Some (right p))) ps) eqn:Er.
  - rewrite planning_labels_whole in * by done.
    split; [|right; eapply planned_respaceable; [done..|apply lineage_ordinals_elem]].
    eapply planned_placed; [done..| |done]. intros x Hx. by apply lineage_ordinals_elem.
  - destruct Hw as [Hw| ->]; [congruence|]. split; [by eapply appended_placed|by left].
Qed.

Lemma respace_if_ok lineage moves d :
  owned d = true → moves = [] ∨ respaceable lineage moves d →
  respace_if lineage moves d = Ok (relabelled lineage (relabel moves) d).
Proof.
  intros Ho [->|R].
  - simpl. unfold relabelled. rewrite (relabel_rows_ext lineage _ id) by done.
    rewrite relabel_rows_id. by destruct d.
  - unfold respace_if. rewrite apply_respace_ok by done. cbn [rbind]. destruct moves; [|done].
    unfold relabelled. rewrite (relabel_rows_ext lineage _ id) by done.
    rewrite relabel_rows_id. by destruct d.
Qed.

Lemma placed_insert lineage ps rows res moves d d' :
  owned d = true → placed lineage ps rows res moves d d' →
  ∃ d'' occs, insert_bindings lineage (labelled rows res) (relabelled lineage (relabel moves) d) = Ok (d'', occs)
    ∧ bindings d'' = bindings d'.
Proof.
  intros Ho P. rewrite insert_bindings_ok; [|done|].
  - eexists _, _. split; [done|]. by rewrite (pd_bindings _ _ _ _ _ _ _ P).
  - pose proof (pd_unique _ _ _ _ _ _ _ P) as Hu. by rewrite (pd_bindings _ _ _ _ _ _ _ P) in Hu.
Qed.

Lemma placed_bindings lineage ps rows res moves d d' d'' :
  bindings d'' = bindings d' → placed lineage ps rows res moves d d' → placed lineage ps rows res moves d d''.
Proof. intros E [H1 H2 H3 H4 H5 H6]. constructor; try done; congruence. Qed.

Lemma pending_placements_supersede bound rows i p :
  pending_placements bound rows !! i = Some p → supersedes p = None.
Proof.
  unfold pending_placements. rewrite list_lookup_fmap. destruct (rows !! i); intros; by simplify_eq/=.
Qed.

(** Binding an ingest's pending rows is skipped exactly when their bounds
    cross, fails where the plan fails, and otherwise binds every row in view
    order between its bound neighbours without breaking the lineage's order. *)
Theorem bind_pending_places lineage rows bound d v (ps := pending_placements bound rows) :
  owned d = true → unique_ordinals (bindings d) → ledger_meta d !! "view_seq" = Some v →
  match plan_ordinals (planning_labels lineage ps d) ps with
  | Err BoundsOrderError => bind_pending lineage rows bound d = Ok None
  | Err e => bind_pending lineage rows bound d = Err e
  | Ok (res, moves) =>
      whole_or_append ps moves →
      ∃ d' occs, bind_pending lineage rows bound d = Ok (Some (d', occs))
        ∧ placed lineage ps (pending_binding (cast_int v + 1) <$> rows) res moves d d'
  end.
Proof.
  intros Ho Hu Hv. unfold bind_pending. change (map _ rows) with ps.
  destruct (plan_ordinals (planning_labels lineage ps d) ps) as [[res moves]|e] eqn:Hplan; [|by destruct e].
  intros Hw. erewrite next_view_seq_ok by done. cbn [rbind]. set (d1 := set_meta _ d).
  set (brows := pending_binding (cast_int v + 1) <$> rows).
  assert (length brows = length ps) as Hlen.
  { unfold brows, ps, pending_placements. by rewrite length_fmap, length_map. }
  destruct (pending_placed lineage ps brows res moves d1 (set_bindings (placed_rows lineage brows res moves d1) 0 d1)
    Hu (pending_placements_supersede bound rows) Hplan Hlen Hw eq_refl) as [P R].
  rewrite (respace_if_ok lineage moves d1 Ho R). cbn [rbind].
  destruct (placed_insert lineage ps brows res moves d1 _ Ho P) as (d2 & occs & -> & E). cbn [rbind].
  exists d2, occs. split; [done|]. 
  destruct (placed_bindings lineage ps brows res moves d1 _ d2 E P) as [H1 H2 H3 H4 H5 H6].
  constructor; [exact H1|exact H2|exact H3|exact H4|exact H5|exact H6].
Qed.

Definition sample_pending : list pending_row :=
  [{| p_index := 1; p_store := 9; p_entry := sample_entry; p_stamp := None; p_remainder := None |}].

Lemma bind_pending_places_witness :
  ∃ d' occs, bind_pending "a" sample_pending [(0, Some 100); (2, Some 101)] sample_ledger = Ok (Some (d', occs))
    ∧ unique_ordinals (bindings d').
Proof.
  assert (unique_ordinals (bindings sample_ledger)) as Hu
    by (apply (bool_decide_unpack _); vm_compute; exact I).
  pose proof (bind_pending_places "a" sample_pending [(0, Some 100); (2, Some 101)] sample_ledger (MInt 3)
    eq_refl Hu eq_refl) as H.
  destruct (plan_ordinals _ _) as [[res moves]|e] eqn:E in H; [|vm_compute in E; discriminate E].
  destruct H as (d' & occs & H1 & H2); [left; reflexivity|].
  exists d', occs. split; [exact H1|exact (pd_unique _ _ _ _ _ _ _ H2)].
Defined.

(** ** Re-bound pairs *)

Lemma place_gaps_error gs todo s e : place_gaps gs todo s = Err e → e = LedgerError.
Proof.
  revert s. induction todo as [|g todo IH]; intros s; simpl; [done|].
  destruct (place_gap gs s g) as [s'|e'] eqn:E; simpl; [by apply IH|]. intros [= ->].
  unfold place_gap in E. destruct (group gs g); [done|]. case_bool_decide; [done|].
  destruct (_ && _); [done|]. destruct (find_window _ _ _ _) as [[??]|]; congruence.
Qed.

Lemma group_step_error original s p e :
  default 0 (left p) < right_of p → previous_left s <= default 0 (left p) →
  previous_right s <= right_of p → group_step original s p = Err e → e = LedgerError.
Proof.
  intros H1 H2 H3. unfold group_step, raise_if. destruct (negb _); [congruence|].
  fold (right_of p). rewrite !bool_decide_eq_false_2 by lia. simpl.
  destruct (supersedes p) as [t|]; [destruct (bool_decide (_ <= t < _)); simpl; [congruence|]|];
    destruct (left p), (right p); try case_bool_decide; simpl; congruence.
Qed.

Lemma group_step_bounds original s p s' :
  group_step original s p = Ok s' →
  previous_left s' = default 0 (left p) ∧ previous_right s' = right_of p.
Proof. by intros (_ & _ & _ & _ & _ & gap & -> & _)%group_step_inv. Qed.

Lemma rebind_group_error kept last rows original s e :
  previous_left s = last.1 → previous_right s = last.2 →
  group_all original s (snd <$> (rebind_placements kept last rows).1) = Err e → e = LedgerError.
Proof.
  revert last s. induction rows as [|r rows IH]; intros last s Hl Hr; [done|].
  cbn [rebind_placements]. destruct (rebind_bounds kept (b_store r)) as [l u].
  set (bounds := (default 0 l, default (2 ^ 63) u)).
  destruct (bool_decide (bounds.2 <= bounds.1) || bool_decide (bounds.1 < last.1)
            || bool_decide (bounds.2 < last.2)) eqn:Hc.
  - destruct (rebind_placements kept last rows) as [ps n] eqn:E. simpl.
    specialize (IH last s Hl Hr). by rewrite E in IH.
  - apply orb_false_elim in Hc as [[H1%bool_decide_eq_false H2%bool_decide_eq_false]%orb_false_elim
      H3%bool_decide_eq_false].
    destruct (rebind_placements kept bounds rows) as [ps n] eqn:E. simpl.
    destruct (group_step _ s _) as [s'|e'] eqn:Hs; simpl.
    + destruct (group_step_bounds _ _ _ _ Hs) as [B1 B2]. specialize (IH bounds s' B1 B2).
      by rewrite E in IH.
    + intros [= ->].
      assert (right_of {| left := l; right := u; supersedes := None |} = default (2 ^ 63) u) as Er by done.
      eapply group_step_error; [..|exact Hs]; rewrite ?Er; simpl in *; lia.
Qed.

(** The plan of the re-bound pairs never meets bounds that cross. *)
Lemma rebind_plan_error kept rows existing e :
  plan_ordinals existing (snd <$> (rebind_placements kept (0, 0) rows).1) = Err e → e = LedgerError.
Proof.
  unfold plan_ordinals, raise_if. destruct (negb _); [congruence|].
  destruct (group_all _ _ _) as [s|e'] eqn:Eg; cbn [rbind].
  - destruct (place_gaps (gaps s) _ _) as [l|e'] eqn:Ep; cbn [rbind]; [done|]. intros [= ->]. by eapply place_gaps_error.
  - intros [= ->]. refine (rebind_group_error kept (0, 0) rows _ _ _ _ _ Eg); done.
Qed.

Lemma rebind_count kept last rows pairs crossed :
  rebind_placements kept last rows = (pairs, crossed) → (length pairs + crossed)%nat = length rows.
Proof.
  revert last pairs crossed. induction rows as [|r rows IH]; intros last pairs crossed; [by intros [= <- <-]|].
  cbn [rebind_placements].
  destruct (rebind_bounds kept (b_store r)) as [l u].
  cbn [fst snd].
  destruct (_ || _); [destruct (rebind_placements kept last rows) as [ps n] eqn:E|
    destruct (rebind_placements kept (default 0 l, default (2 ^ 63) u) rows) as [ps n] eqn:E];
    intros [= <- <-]; apply IH in E; simpl; lia.
Qed.

Lemma rebind_seq_ok seq d v :
  owned d = true → ledger_meta d !! "view_seq" = Some v →
  ∃ m s, (match seq with Some s => Ok (d, s) | None => next_view_seq d end) = Ok (set_meta m d, s).
Proof.
  intros Ho Hv. destruct seq as [s|].
  - exists (ledger_meta d), s. by destruct d.
  - erewrite next_view_seq_ok by done. eauto.
Qed.

(** Re-binding skips exactly the pairs whose bounds cross, its plan fails
    only when the label space is exhausted, and otherwise every remaining pair
    is bound between its neighbours by store id. *)
Theorem write_rebinds_places lineage seq rows d v pairs crossed :
  owned d = true → unique_ordinals (bindings d) → ledger_meta d !! "view_seq" = Some v → rows ≠ [] →
  rebind_placements (kept_by_store lineage d) (0, 0) rows = (pairs, crossed) →
  (length pairs + crossed)%nat = length rows
  ∧ (pairs = [] → ∃ d', write_rebinds lineage seq rows d = Ok (d', [], crossed) ∧ bindings d' = bindings d)
  ∧ (pairs ≠ [] →
     match plan_ordinals (lineage_ordinals lineage d) (snd <$> pairs) with
     | Err e => e = LedgerError ∧ write_rebinds lineage seq rows d = Err LedgerError
     | Ok (res, moves) =>
         ∃ d' refs n, write_rebinds lineage seq rows d = Ok (d', zip pairs.*1 refs, crossed)
           ∧ placed lineage (snd <$> pairs) (rebind_binding n <$> pairs.*1) res moves d d'
     end).
Proof.
  intros Ho Hu Hv Hne Hp. split; [by eapply rebind_count|].
  unfold write_rebinds. destruct rows as [|r rows]; [done|]. rewrite Hp.
  destruct (rebind_seq_ok seq d v Ho Hv) as (m & n & ->). cbn [rbind]. set (d1 := set_meta m d).
  split; [intros ->; by exists d1|]. intros Hpairs.
  change (lineage_ordinals lineage d1) with (lineage_ordinals lineage d).
  destruct (plan_ordinals (lineage_ordinals lineage d) (snd <$> pairs)) as [[res moves]|e] eqn:Hplan.
  - pose proof Hplan as (gs & s & P)%plan_ordinals_planned.
    set (brows := rebind_binding n <$> pairs.*1).
    assert (length brows = length (snd <$> pairs)) as Hlen by (unfold brows; by rewrite !length_fmap).
    assert (placed lineage (snd <$> pairs) brows res moves d1
              (set_bindings (placed_rows lineage brows res moves d1) 0 d1)) as Pl.
    { apply (planned_placed lineage _ _ res moves gs s _ d1 _ Hu P Hplan Hlen); [|done].
      intros x. apply lineage_ordinals_elem. }
    assert (respaceable lineage moves d1) as R
      by exact (planned_respaceable lineage _ _ _ _ _ _ d1 Hu P (λ x, lineage_ordinals_elem lineage d x)).
    destruct (placed_insert lineage _ brows res moves d1 _ Ho Pl) as (d2 & occs & Hins & E).
    exists d2, occs, n. split.
    + destruct pairs as [|p pairs]; [done|]. cbn [rbind].
      rewrite (respace_if_ok lineage moves d1 Ho) by by right.
      cbn [rbind]. fold brows. by rewrite Hins.
    + destruct (placed_bindings lineage _ brows res moves d1 _ d2 E Pl) as [H1 H2 H3 H4 H5 H6].
      constructor; [exact H1|exact H2|exact H3|exact H4|exact H5|exact H6].
  - assert (e = LedgerError) as ->.
    { apply (rebind_plan_error (kept_by_store lineage d) (r :: rows) (lineage_ordinals lineage d)).
      by rewrite Hp. }
    split; [done|]. by destruct pairs.
Qed.

Definition sample_rebinds : list rebind_row :=
  [{| b_store := 3; b_identity := []; b_stamp := None |}; {| b_store := 1; b_identity := []; b_stamp := None |}].

Lemma write_rebinds_places_witness :
  ∃ pairs, rebind_placements (kept_by_store "a" sample_ledger) (0, 0) sample_rebinds = (pairs, 1%nat)
    ∧ (length pairs + 1)%nat = 2%nat.
Proof.
  eexists. split; [vm_compute; reflexivity|].
  refine (proj1 (write_rebinds_places "a" None sample_rebinds sample_ledger (MInt 3) _ 1%nat eq_refl _ eq_refl _ _)).
  - apply (bool_decide_unpack _). vm_compute. exact I.
  - discriminate.
  - vm_compute. reflexivity.
Defined.

(** ** Emissions and recovery *)

(** [c] is the last sequence number: nothing in the ledger is newer. *)
Record seq_wf (c : Z) (d : ledger) : Prop := {
  sw_range : 0 <= c < 2 ^ 63 - 1;
  sw_counter : ∃ v, ledger_meta d !! "view_seq" = Some v ∧ cast_int v = c;
  sw_views : views_wf (views d);
  sw_view_seq : ∀ v, v ∈ views d → View.view_seq v <= c;
  sw_emission_seq : ∀ e, e ∈ emissions d → Emission.view_seq e <= c;
  sw_recovered : ∀ lineage r, ledger_meta d !! recovered_key lineage = Some r → cast_int r <= c;
  sw_floor : provenance_floor d <= c
}.

Lemma recovered_key_ne_seq lineage : recovered_key lineage ≠ "view_seq".
Proof. done. Qed.

Lemma recovered_key_ne_floor lineage : recovered_key lineage ≠ "emission_provenance_floor".
Proof. done. Qed.

#[global] Instance recovered_key_inj : Inj (=) (=) recovered_key.
Proof. intros x y H. unfold recovered_key in H. by simplify_eq. Qed.

(** [next_view_seq] moves the counter and nothing else. *)
Definition counted (c : Z) (d : ledger) : ledger :=
  set_meta (<["view_seq" := MInt (c + 1)]> (ledger_meta d)) d.

Lemma next_view_seq_counted c d :
  owned d = true → seq_wf c d → next_view_seq d = Ok (counted c d, c + 1).
Proof.
  intros Ho W. destruct (sw_counter _ _ W) as (v & Hv & <-). by erewrite next_view_seq_ok.
Qed.

Lemma floor_counted c d : seq_wf c d → provenance_floor (counted c d) <= c + 1.
Proof.
  intros W. pose proof (sw_floor _ _ W) as Hf. unfold provenance_floor, counted in *.
  cbn [ledger_meta set_meta]. rewrite lookup_insert_ne by done.
  destruct (ledger_meta d !! "emission_provenance_floor"); [lia|]. rewrite lookup_insert_eq. simpl. lia.
Qed.

(** The lineage an emission of the session is written under. *)
Lemma session_lineage_counted session fallback c d :
  session_key session ≠ "view_seq" →
  session_lineage session fallback (counted c d) = session_lineage session fallback d.
Proof. intros H. apply session_lineage_meta. by rewrite lookup_insert_ne. Qed.

(** What [insert_emissions] leaves alone, and the rows it adds. *)
Lemma insert_emissions_spec lineage seq rows d d' ids :
  insert_emissions_loop lineage seq rows d = Ok (d', ids) →
  (∃ es n, d' = set_emissions (emissions d ++ es) n d
     ∧ Forall2 (λ e r, Emission.lineage e = lineage ∧ Emission.view_seq e = seq ∧ Emission.state e = Proposed
                       ∧ Emission.output_index e = e_output_index r
                       ∧ Emission.descriptor_digest e = e_descriptor r) es rows
     ∧ ids = Emission.emission_id <$> es).
Proof.
  revert d d' ids. induction rows as [|r rows IH]; intros d d' ids H; cbn [insert_emissions_loop] in H.
  - inv_ok. injection H as <- <-. exists [], (last_emission d). rewrite app_nil_r.
    split_and!; [by destruct d|constructor|done].
  - inv_ok. destruct v as [d1 ids1]. inv_ok. injection H as <- <-.
    apply IH in Hb as (es & n & -> & HF & ->). set (e := Emission.mk _ _ _ _ _ _ _ _).
    exists (e :: es), n. cbn [emissions set_emissions]. rewrite <-app_assoc. split_and!; [done| |done].
    by constructor.
Qed.

Lemma counted_lookup_recovered c d lineage :
  ledger_meta (counted c d) !! recovered_key lineage = ledger_meta d !! recovered_key lineage.
Proof. unfold counted. cbn. by rewrite lookup_insert_ne. Qed.

(** A ledger that only gained views and emissions of the new sequence number. *)
Lemma seq_wf_counted c d d' :
  seq_wf c d → c + 1 < 2 ^ 63 - 1 →
  ledger_meta d' = ledger_meta (counted c d) → views_wf (views d') →
  (∀ v, v ∈ views d' → View.view_seq v <= c + 1) →
  (∀ e, e ∈ emissions d' → Emission.view_seq e <= c + 1) → seq_wf (c + 1) d'.
Proof.
  intros W Hc Hm Hv Hvs He. pose proof W as [H1 H2 H3 H4 H5 H6 H7]. constructor; try done; [lia| | |].
  - rewrite Hm. cbn. rewrite lookup_insert_eq. eauto.
  - intros l r. rewrite Hm, counted_lookup_recovered. intros Hr. specialize (H6 l r Hr). lia.
  - pose proof (floor_counted c d W) as Hf. unfold provenance_floor in *. by rewrite Hm.
Qed.

Section emission_life.
Variable blake2b : bytes → bytes → bytes.

Lemma write_view_fresh c salt lineage kind st entries chain d d' seq :
  views_wf (views d) → (∀ v, v ∈ views d → View.view_seq v <= c) →
  write_view blake2b salt lineage kind st entries (Some (c + 1)) chain d = Ok (d', seq) →
  ∃ v, seq = c + 1 ∧ d' = set_views (views d') d ∧ views_wf (views d')
    ∧ (∀ w, w ∈ views d' → View.view_seq w <= c + 1)
    ∧ newest_view lineage kind d' = Some v ∧ View.view_seq v = c + 1 ∧ View.state v = st
    ∧ decode_entries (View.entries v) = Ok entries
    ∧ (length (filter (λ v, of_kind lineage kind v = true) (views d')) <= 2)%nat
    ∧ (∀ w, of_kind lineage kind w = false → w ∈ views d' ↔ w ∈ views d).
Proof.
  intros Hwf Hle H. unfold write_view, require_owner in H. inv_ok. injection H as <- <-.
  rename v into blob. rename v0 into ch. apply bool_decide_eq_false in Hr0.
  set (v := View.mk lineage (c + 1) kind st blob ch) in *. set (d1 := set_views (views d ++ [v]) d).
  assert (of_kind lineage kind v = true) as Hk by (unfold of_kind; simpl; by rewrite !bool_decide_eq_true_2).
  assert (views_wf (views d1)) as Hwf1.
  { unfold views_wf. simpl. rewrite fmap_app. apply NoDup_app. split_and!; [done| |apply NoDup_singleton].
    intros x Hx ->%list_elem_of_singleton. done. }
  assert (newest_seqs lineage kind (views d1) = (c + 1) :: newest_seqs lineage kind (views d)) as En.
  { apply (newest_seqs_fresh lineage kind (views d) v Hk). intros w Hw _. specialize (Hle w Hw). simpl. lia. }
  assert (v ∈ views (prune_views lineage kind d1)) as Hin.
  { apply prune_views_elem. split; [apply elem_of_app; right; by left|]. intros _. rewrite En. by left. }
  assert (views_wf (views (prune_views lineage kind d1))) as Hwf2 by by apply views_wf_filter.
  exists v. split_and!; [done|done|done| | |done|done|by apply decode_encoded|by apply prune_views_length|].
  - intros w [Hw _]%prune_views_elem. apply elem_of_app in Hw as [Hw| ->%list_elem_of_singleton]; [|simpl; lia].
    specialize (Hle w Hw). lia.
  - apply newest_view_fresh; [done..|]. by eapply newest_seqs_pruned.
  - intros w Hw. rewrite prune_views_elem. simpl. rewrite elem_of_app, list_elem_of_singleton.
    split; [|intros; split; [by left|congruence]]. intros [[?| ->] _]; [done|congruence].
Qed.

(** A written emission becomes the lineage's usable candidate: its view is
    the newest one, stores exactly the output's entries with the provenance rows
    as descriptors, and lies above the recovery mark and the provenance floor. *)
Theorem write_emission_usable c salt session fallback entries indices rows d d' seq
    (lineage := session_lineage session fallback d) :
  owned d = true → seq_wf c d → c + 1 < 2 ^ 63 - 1 →
  is_Some (ledger_meta d !! "emission_provenance_floor") →
  write_emission blake2b salt session fallback entries indices rows d = Ok (d', seq) →
  seq = c + 1 ∧ seq_wf (c + 1) d'
  ∧ ∃ v es, emission_candidate lineage d' = (Some v, Usable) ∧ View.view_seq v = seq
     ∧ emissions d' = emissions d ++ es
     ∧ Forall2 (λ e r, Emission.lineage e = lineage ∧ Emission.view_seq e = seq ∧ Emission.state e = Proposed
                       ∧ Emission.output_index e = e_output_index r
                       ∧ Emission.descriptor_digest e = e_descriptor r) es rows
     ∧ decode_entries (View.entries v)
       = Ok (foldl mark_descriptor entries (zip indices (Emission.emission_id <$> es))).
Proof.
  intros Ho W Hc [fl Hfl] H. unfold write_emission in H. fold lineage in H.
  rewrite (next_view_seq_counted c) in H by done. cbn [rbind] in H. inv_ok. destruct v as [d1 ids].
  unfold insert_emissions, require_owner in Hb. apply raise_if_Ok in Hb as [_ Hb].
  apply insert_emissions_spec in Hb as (es & n & -> & HF & ->).
  apply (write_view_fresh c) in H as (v & -> & Ed & Hwf & Hle & Hnew & Hseq & Hst & Hdec & _ & _);
    [|apply W|apply W].
  assert (ledger_meta d' = ledger_meta (counted c d)) as Em by by rewrite Ed.
  assert (emissions d' = emissions d ++ es) as Ee by by rewrite Ed.
  split_and!; [done| |].
  - apply (seq_wf_counted c d); try done. intros e. rewrite Ee, elem_of_app. intros [He|He].
    + pose proof (sw_emission_seq _ _ W e He). lia.
    + apply list_elem_of_lookup in He as [i Hi]. destruct (Forall2_lookup_l _ _ _ _ _ HF Hi) as (r & _ & _ & Hs & _). lia.
  - exists v, es. split_and!; [|done..]. unfold emission_candidate. rewrite Hnew, Hst. simpl.
    rewrite Em, counted_lookup_recovered, Hseq.
    assert (provenance_floor d' <= c) as Hf.
    { pose proof (sw_floor _ _ W) as Hf. unfold provenance_floor in *. rewrite Em. cbn [counted ledger_meta set_meta].
      rewrite lookup_insert_ne by done. by rewrite Hfl in *. }
    destruct (ledger_meta d !! recovered_key lineage) as [r|] eqn:Er.
    + pose proof (sw_recovered _ _ W _ _ Er). rewrite !bool_decide_eq_false_2 by lia. done.
    + rewrite !bool_decide_eq_false_2 by lia. done.
Qed.
End emission_life.

Lemma newest_view_elem lineage kind d v : newest_view lineage kind d = Some v → v ∈ views d.
Proof.
  unfold newest_view. destruct (newest_seqs _ _ _); [done|].
  destruct (list_find _ _) as [[i x]|] eqn:E; [|done]. intros [= <-].
  apply list_find_Some in E as (E & _). by eapply list_elem_of_lookup_2.
Qed.

(** The recovered mark of a retry at the next sequence number. *)
Definition retry_meta (lineage : string) (c : Z) (d : ledger) : gmap string meta_value :=
  raise_recovered lineage (MText (pretty (c + 1))) (ledger_meta (counted c d)).

Lemma retry_meta_recovered lineage c d :
  seq_wf c d → ∃ w, retry_meta lineage c d !! recovered_key lineage = Some w ∧ cast_int w = c + 1.
Proof.
  intros W. pose proof (sw_range _ _ W) as Hr. pose proof (cast_pretty (c + 1) ltac:(lia)) as Hcast.
  unfold retry_meta, raise_recovered. rewrite lookup_insert_eq. eexists. split; [done|].
  rewrite counted_lookup_recovered.
  destruct (ledger_meta d !! recovered_key lineage) as [r|] eqn:Er; [|done].
  pose proof (sw_recovered _ _ W _ _ Er). rewrite Hcast, Z.max_r by lia. apply Hcast.
Qed.

Lemma retry_meta_other lineage c d l :
  l ≠ lineage → retry_meta lineage c d !! recovered_key l = ledger_meta d !! recovered_key l.
Proof.
  intros Hne. unfold retry_meta, raise_recovered.
  rewrite lookup_insert_ne by by intros ?%(inj recovered_key). apply counted_lookup_recovered.
Qed.

Lemma seq_wf_retry lineage c d d' :
  seq_wf c d → c + 1 < 2 ^ 63 - 1 → ledger_meta d' = retry_meta lineage c d → views d' = views d →
  (∀ e, e ∈ emissions d' → Emission.view_seq e <= c + 1) → seq_wf (c + 1) d'.
Proof.
  intros W Hc Em Ev He. pose proof (sw_range _ _ W). constructor; [lia| | | |done| |].
  - exists (MInt (c + 1)). split; [|done]. rewrite Em. unfold retry_meta, raise_recovered.
    rewrite lookup_insert_ne by done. apply lookup_insert_eq.
  - rewrite Ev. apply W.
  - intros v. rewrite Ev. intros Hv. pose proof (sw_view_seq _ _ W v Hv). lia.
  - intros l r Hr. rewrite Em in Hr. destruct (decide (l = lineage)) as [->|Hne].
    + destruct (retry_meta_recovered lineage c d W) as (w & Hw & Hcw). rewrite Hw in Hr. injection Hr as <-. lia.
    + rewrite retry_meta_other in Hr by done. pose proof (sw_recovered _ _ W _ _ Hr). lia.
  - pose proof (floor_counted c d W) as Hf. unfold provenance_floor in *. rewrite Em.
    unfold retry_meta, raise_recovered. rewrite !lookup_insert_ne by done. exact Hf.
Qed.

(** Retrying an emission whose write was not proven records provenance only
    and withholds every emission view the lineage has, so none of them is used
    as a cold cursor until a newer output is written. *)
Theorem retry_emission_withholds c session fallback rows d d' seq
    (lineage := session_lineage session fallback d) :
  owned d = true → seq_wf c d → c + 1 < 2 ^ 63 - 1 →
  retry_emission session fallback rows d = Ok (d', seq) →
  seq = c + 1 ∧ views d' = views d ∧ seq_wf (c + 1) d'
  ∧ (∃ r, emission_candidate lineage d' = (None, r) ∧ r ≠ Usable).
Proof.
  intros Ho W Hc H. unfold retry_emission in H. fold lineage in H.
  rewrite (next_view_seq_counted c) in H by done. cbn [rbind] in H. inv_ok. destruct v as [d1 ids].
  unfold insert_emissions, require_owner in Hb. apply raise_if_Ok in Hb as [_ Hb].
  apply insert_emissions_spec in Hb as (es & n & -> & HF & ->). inv_ok. injection H as Ed Es.
  assert (ledger_meta d' = retry_meta lineage c d) as Em by by rewrite <-Ed.
  assert (views d' = views d) as Ev by by rewrite <-Ed.
  assert (emissions d' = emissions d ++ es) as Ee by by rewrite <-Ed. clear Ed.
  split_and!; [done|done| |].
  - apply (seq_wf_retry lineage c d); try done. intros e. rewrite Ee, elem_of_app. intros [He|He].
    + pose proof (sw_emission_seq _ _ W e He). lia.
    + apply list_elem_of_lookup in He as [i Hi]. destruct (Forall2_lookup_l _ _ _ _ _ HF Hi) as (r & _ & _ & Hs & _). lia.
  - unfold emission_candidate. destruct (newest_view lineage EmissionView d') as [v|] eqn:Env; [|eauto].
    destruct (negb _); [eauto|]. destruct (retry_meta_recovered lineage c d W) as (w & Hw & Hcw).
    rewrite Em, Hw, Hcw. apply newest_view_elem in Env. rewrite Ev in Env.
    pose proof (sw_view_seq _ _ W v Env). rewrite bool_decide_eq_true_2 by lia. eauto.
Qed.

(** ** A ledger ready for emissions *)

Definition ready_ledger : ledger :=
  set_meta (<["emission_provenance_floor" := MInt 1]> (<["view_seq" := MInt 3]> ∅)) sample_ledger.

Lemma ready_ledger_wf : seq_wf 3 ready_ledger.
Proof.
  constructor; simpl; try (intros x Hx; by apply elem_of_nil in Hx); [lia|by exists (MInt 3)|constructor| |].
  - intros l r Hr. by rewrite !lookup_insert_ne, lookup_empty in Hr.
  - by vm_compute.
Qed.

Definition sample_emission_row : emission_row :=
  {| e_output_index := 0; e_descriptor := []; e_kind := Summary; e_recovery := None |}.

Lemma write_emission_usable_witness :
  ∃ d' v, write_emission toy_hash [] "s" "a" [sample_entry] [0%nat] [sample_emission_row] ready_ledger = Ok (d', 4)
    ∧ emission_candidate "a" d' = (Some v, Usable).
Proof.
  destruct (write_emission toy_hash [] "s" "a" [sample_entry] [0%nat] [sample_emission_row] ready_ledger)
    as [[d' seq]|e] eqn:E; [|vm_compute in E; discriminate E].
  destruct (write_emission_usable toy_hash 3 [] "s" "a" [sample_entry] [0%nat] [sample_emission_row]
    ready_ledger d' seq eq_refl ready_ledger_wf ltac:(lia) ltac:(eexists; reflexivity) E) as (-> & _ & v & es & Hc & _).
  exists d', v. split; [reflexivity|exact Hc].
Defined.

Lemma retry_emission_withholds_witness :
  ∃ d', retry_emission "s" "a" [sample_emission_row] ready_ledger = Ok (d', 4)
    ∧ (∃ r, emission_candidate "a" d' = (None, r) ∧ r ≠ Usable).
Proof.
  destruct (retry_emission "s" "a" [sample_emission_row] ready_ledger)
    as [[d' seq]|e] eqn:E; [|vm_compute in E; discriminate E].
  destruct (retry_emission_withholds 3 "s" "a" [sample_emission_row] ready_ledger d' seq
    eq_refl ready_ledger_wf ltac:(lia) E) as (-> & _ & _ & Hr).
  exists d'. split; [reflexivity|exact Hr].
Defined.
