(* ===== verification/LedgerMerge.v ===== *)
(** Adoption of a provisional lineage ([merge_provisional], ingest_ledger.py):
    where every row ends up, and in which order. *)

From S2P Require Import Prelude LedgerCodec LedgerOrdinals LedgerStore LedgerWriter.
From stdpp Require Import options.

#[local] Open Scope Z_scope.

(** The label a provisional row gets. *)
Definition merged_label (olds : list Z) (new : list (option Z)) (o : Z) : option Z :=
  mjoin (snd <$> (snd <$> list_find (λ p, p.1 = o) (zip olds new))).

(** The row of [b] after the merge. *)
Definition merged_row (provisional lineage : string) (olds : list Z) (new : list (option Z))
    (b : Binding.t) : Binding.t :=
  if bool_decide (Binding.lineage b = provisional)
  then rekey_binding lineage (Binding.ordinal b ≫= merged_label olds new) b else b.

(** The row of [b] after the placed rows were moved, one label at a time. *)
Definition moved_row (provisional lineage : string) (olds : list Z) (new : list (option Z))
    (b : Binding.t) : Binding.t :=
  if bool_decide (Binding.lineage b = provisional)
  then match Binding.ordinal b with
       | Some o => if bool_decide (o ∈ olds)
                   then rekey_binding lineage (merged_label olds new o) b else b
       | None => b
       end
  else b.

Lemma merged_label_cons old o olds new x :
  merged_label (old :: olds) (o :: new) x = if decide (old = x) then o else merged_label olds new x.
Proof.
  unfold merged_label. simpl. case_decide; [done|]. by destruct (list_find _ (zip olds new)) as [[??]|].
Qed.

Lemma update_bindings_Ok p f d d' n :
  update_bindings p f d = Ok (d', n) →
  d' = set_bindings (map (λ r, if p r then f r else r) (bindings d)) (last_occ d) d
  ∧ unique_ordinals (bindings d').
Proof.
  unfold update_bindings, update_where, commit_bindings. intros H. inv_ok. injection H as <- _.
  split; [done|]. apply negb_false_iff, bool_decide_eq_true in Hr. exact Hr.
Qed.

Lemma rekey_ordinals_Ok provisional lineage olds new d d' :
  provisional ≠ lineage → NoDup olds → length olds = length new →
  rekey_ordinals lineage provisional olds new d = Ok d' →
  d' = set_bindings (map (moved_row provisional lineage olds new) (bindings d)) (last_occ d) d.
Proof.
  intros Hne. revert new d. induction olds as [|old olds IH]; intros [|o new] d Hnd Hlen H; try done.
  - simpl in H. inv_ok. rewrite (map_ext _ id), map_id; [by destruct d'|].
    intros b. unfold moved_row. case_bool_decide; [|done]. by destruct (Binding.ordinal b).
  - cbn [rekey_ordinals] in H. inv_ok. destruct v as [d1 n]. apply NoDup_cons in Hnd as [Hold Hnd].
    apply update_bindings_Ok in Hb as [-> _]. apply IH in H; [|done|by injection Hlen]. rewrite H.
    cbn [bindings set_bindings last_occ]. unfold set_bindings. simpl. f_equal. rewrite map_map. apply map_ext.
    intros [occ li ord st di ds sp tg kr vs]. unfold moved_row, at_ordinal. simpl.
    destruct (decide (li = provisional)) as [->|Hli].
    + rewrite (bool_decide_eq_true_2 (provisional = provisional)) by done. simpl.
      destruct ord as [x|]; simpl; [|by rewrite bool_decide_eq_true_2].
      destruct (decide (x = old)) as [->|Hx].
      * rewrite (bool_decide_eq_true_2 (Some old = Some old)) by done.
        rewrite (bool_decide_eq_true_2 (old ∈ _)) by by left. simpl.
        rewrite bool_decide_eq_false_2 by congruence. by rewrite merged_label_cons, decide_True.
      * rewrite (bool_decide_eq_false_2 (Some x = Some old)) by congruence. simpl.
        rewrite bool_decide_eq_true_2 by done. rewrite merged_label_cons, decide_False by congruence.
        destruct (decide (x ∈ olds)) as [Hin|Hin].
        -- by rewrite !bool_decide_eq_true_2 by (try right; done).
        -- by rewrite !bool_decide_eq_false_2 by (rewrite ?not_elem_of_cons; done).
    + rewrite !(bool_decide_eq_false_2 (li = provisional)) by done. simpl.
      by rewrite ?(bool_decide_eq_false_2 (li = provisional)).
Qed.

(** The whole run on the bindings. *)
Lemma rekeyed_bindings provisional lineage olds new d d1 d2 :
  provisional ≠ lineage → NoDup olds → length olds = length new →
  (∀ o, o ∈ occupied provisional d → o ∈ olds) →
  rekey_ordinals lineage provisional olds new d = Ok d1 →
  rekey_unplaced lineage provisional d1 = Ok d2 →
  d2 = set_bindings (map (merged_row provisional lineage olds new) (bindings d)) (last_occ d) d
  ∧ unique_ordinals (bindings d2).
Proof.
  intros Hne Hnd Hlen Hall H1 H2. apply rekey_ordinals_Ok in H1 as ->; [|done..].
  unfold rekey_unplaced in H2. inv_ok. destruct v as [d3 n]. inv_ok.
  apply update_bindings_Ok in Hb as [-> Hu]. split; [|exact Hu].
  cbn [bindings set_bindings last_occ]. unfold set_bindings. simpl. f_equal. rewrite map_map. apply map_ext_in.
  intros b Hb%list_elem_of_In. unfold moved_row, merged_row.
  destruct (decide (Binding.lineage b = provisional)) as [Hl|Hl].
  - rewrite (bool_decide_eq_true_2 _ Hl). destruct (Binding.ordinal b) as [o|] eqn:Ho.
    + rewrite (bool_decide_eq_true_2 (o ∈ olds)).
      * simpl. by rewrite bool_decide_eq_false_2 by congruence.
      * apply Hall, elem_of_ordinals_in. eauto.
    + rewrite (bool_decide_eq_true_2 _ Hl). by rewrite Ho.
  - rewrite (bool_decide_eq_false_2 _ Hl). by rewrite (bool_decide_eq_false_2 _ Hl).
Qed.

(** ** The labels of the merged rows *)

Lemma merged_label_lookup olds new i o v :
  NoDup olds → olds !! i = Some o → new !! i = Some v → merged_label olds new o = v.
Proof.
  revert new i. induction olds as [|x olds IH]; intros [|w new] [|i] Hnd Ho Hv; try done; simpl in *.
  - simplify_eq. by rewrite merged_label_cons, decide_True.
  - apply NoDup_cons in Hnd as [Hx Hnd]. rewrite merged_label_cons, decide_False; [by eapply IH|].
    intros ->. by eapply Hx, list_elem_of_lookup_2.
Qed.

Lemma merge_labels_spec provisional lineage d olds new :
  merge_labels provisional lineage d = Ok (olds, new) →
  olds = lineage_ordinals provisional d ∧ length olds = length new
  ∧ (∀ o, o ∈ occupied provisional d → ∃ v, merged_label olds new o = Some v ∧ 0 < v <= MAX_ORDINAL
       ∧ ∀ x, x ∈ occupied lineage d → x < v)
  ∧ (∀ o1 o2 v1 v2, o1 ∈ occupied provisional d → o2 ∈ occupied provisional d → o1 < o2 →
       merged_label olds new o1 = Some v1 → merged_label olds new o2 = Some v2 → v1 < v2).
Proof.
  intros H. unfold merge_labels in H. inv_ok. destruct v as [new' moves]. inv_ok. injection H as <- <-.
  apply negb_false_iff, bool_decide_eq_true in Hr as ->.
  apply plan_ordinals_planned in Hb as (gs & s & P).
  pose proof (planned_length _ _ _ _ _ _ P) as Hlen. rewrite length_replicate in Hlen.
  set (olds := lineage_ordinals provisional d) in *.
  assert (NoDup olds) as Hnd by apply sorted_set_NoDup.
  assert (∀ o, o ∈ occupied provisional d → ∃ i v, olds !! i = Some o ∧ new' !! i = Some (Some v)
    ∧ merged_label olds new' o = Some v ∧ ∀ m, max_opt (occupied lineage d) = Some m → m < v) as Hlab.
  { intros o Ho. apply lineage_ordinals_elem in Ho. fold olds in Ho. apply list_elem_of_lookup in Ho as [i Hi].
    pose proof (lookup_lt_Some _ _ _ Hi) as Hlt. pose proof (lookup_replicate_2 (length olds)
      {| left := max_opt (occupied lineage d); right := None; supersedes := None |} i Hlt) as Hp.
    destruct (planned_within _ _ _ _ _ _ _ _ P Hp) as (v & Hv & Hl & _).
    exists i, v. split_and!; [done|done|by eapply merged_label_lookup|]. intros m Hm.
    specialize (Hl m Hm). unfold relabel in Hl. simpl in Hl. lia. }
  split_and!; [done|lia| |].
  - intros o Ho. destruct (Hlab o Ho) as (i & v & _ & Hv & Hm & Hmax). exists v.
    destruct (planned_new _ _ _ _ _ _ _ _ P Hv) as [[? ?] _]. split_and!; [done..|].
    intros x Hx. destruct (max_opt (occupied lineage d)) as [m|] eqn:Em.
    + destruct (max_opt_spec _ _ Em) as [_ Hle]. specialize (Hle x Hx). specialize (Hmax m eq_refl). lia.
    + destruct (occupied lineage d); [by apply elem_of_nil in Hx|done].
  - intros o1 o2 v1 v2 H1 H2 Hlt E1 E2.
    destruct (Hlab o1 H1) as (i & w1 & Hi & Hw1 & Em1 & _). destruct (Hlab o2 H2) as (j & w2 & Hj & Hw2 & Em2 & _).
    assert (w1 = v1) as -> by congruence. assert (w2 = v2) as -> by congruence.
    eapply (planned_increasing _ _ _ _ _ _ i j _ _ P); [|done..].
    by apply (sorted_lookup_mono olds i j o1 o2 (sorted_set_sorted _) Hi Hj).
Qed.

(** ** Nothing is left behind *)

Lemma update_where_elem {A} (p : A → bool) f (l : list A) x :
  x ∈ (update_where p f l).1 ↔ (∃ y, y ∈ l ∧ p y = true ∧ x = f y) ∨ (x ∈ l ∧ p x = false).
Proof.
  unfold update_where. cbn [fst]. rewrite (list_elem_of_fmap (λ r, if p r then f r else r)). split.
  - intros (y & -> & Hy). destruct (p y) eqn:E; [left; eauto|right; eauto].
  - intros [(y & Hy & Hp & ->)|[Hx Hp]]; [exists y|exists x]; by rewrite Hp.
Qed.

(** No row of the lineage is left in the ledger. *)
Definition no_rows (lineage : string) (d : ledger) : Prop :=
  (∀ b, b ∈ bindings d → Binding.lineage b ≠ lineage)
  ∧ (∀ o, o ∈ observations d → Observation.lineage o ≠ lineage)
  ∧ (∀ e, e ∈ emissions d → Emission.lineage e ≠ lineage)
  ∧ (∀ v, v ∈ views d → View.lineage v ≠ lineage)
  ∧ marks d !! lineage = None ∧ ledger_meta d !! recovered_key lineage = None.

Lemma rekey_meta_recovered provisional lineage m :
  provisional ≠ lineage → rekey_meta lineage provisional m !! recovered_key provisional = None.
Proof.
  intros Hne. unfold rekey_meta. rewrite lookup_insert_ne by done.
  destruct (m !! recovered_key provisional) eqn:E; apply lookup_delete_eq.
Qed.

Lemma rekey_marks_gone provisional lineage m :
  rekey_marks lineage provisional m !! provisional = None.
Proof. apply lookup_delete_eq. Qed.

(** The steps of a merge that returned. *)
Lemma merge_provisional_steps provisional lineage d d' r :
  merge_provisional provisional lineage d = Ok (d', r) →
  ∃ olds new d1 d2,
    merge_labels provisional lineage d = Ok (olds, new)
    ∧ rekey_ordinals lineage provisional olds new d = Ok d1
    ∧ rekey_unplaced lineage provisional d1 = Ok d2
    ∧ bindings d' = bindings d2
    ∧ observations d' = (rekey_observations lineage provisional d2).1.(observations)
    ∧ (∀ e, e ∈ emissions d' → Emission.lineage e = lineage ∨ Emission.lineage e ≠ provisional)
    ∧ (∀ v, v ∈ views d' → View.lineage v = lineage ∨ View.lineage v ≠ provisional)
    ∧ marks d' = rekey_marks lineage provisional (marks d2)
    ∧ ledger_meta d' = rekey_meta lineage provisional (ledger_meta d2).
Proof.
  intros H. unfold merge_provisional, require_owner in H. apply raise_if_Ok in H as [_ H].
  apply rbind_Ok in H as ([olds new] & Hl & H). apply rbind_Ok in H as (d1 & H1 & H).
  apply rbind_Ok in H as (d2 & H2 & H). unfold rekey_observations at 1, update_where in H.
  apply rbind_Ok in H as ([d3 n3] & H3 & H). apply rbind_Ok in H as ([d4 n4] & H4 & H).
  apply Ok_inj in H. injection H as <- _. unfold rekey_emissions, update_where in H3.
  unfold rekey_views, update_where in H4. apply raise_if_Ok in H3 as [_ H3]. apply raise_if_Ok in H4 as [_ H4].
  apply Ok_inj in H3, H4. injection H3 as <- _. injection H4 as <- _.
  exists olds, new, d1, d2. split_and!; [done..| | |done|done].
  - intros e (e0 & -> & _)%list_elem_of_fmap. case_bool_decide; [by left|by right].
  - intros v [[Hv _]%prune_views_elem _]%prune_views_elem.
    apply list_elem_of_fmap in Hv as (v0 & -> & _). case_bool_decide; [by left|by right].
Qed.

(** Merging a provisional lineage leaves none of its rows behind, re-keys
    them without changing their occurrence, appends them in their own order
    after every row of the target, and keeps the ordinal index unique. *)
Theorem merge_provisional_appends provisional lineage d d' r :
  provisional ≠ lineage → merge_provisional provisional lineage d = Ok (d', r) →
  ∃ f, bindings d' = map f (bindings d) ∧ unique_ordinals (bindings d') ∧ no_rows provisional d'
    ∧ (∀ b, Binding.lineage b ≠ provisional → f b = b)
    ∧ (∀ b, Binding.lineage b = provisional → f b = rekey_binding lineage (Binding.ordinal (f b)) b)
    ∧ (∀ b o, b ∈ bindings d → Binding.lineage b = provisional → Binding.ordinal b = Some o →
         ∃ v, Binding.ordinal (f b) = Some v ∧ 0 < v <= MAX_ORDINAL
         ∧ (∀ x, x ∈ occupied lineage d → x < v)
         ∧ (∀ b2 o2 v2, b2 ∈ bindings d → Binding.lineage b2 = provisional →
              Binding.ordinal b2 = Some o2 → o < o2 → Binding.ordinal (f b2) = Some v2 → v < v2)).
Proof.
  intros Hne (olds & new & d1 & d2 & Hl & H1 & H2 & Eb & Eo & He & Hv & Em & Et)%merge_provisional_steps.
  destruct (merge_labels_spec _ _ _ _ _ Hl) as (-> & Hlen & Hlab & Hmono).
  set (olds := lineage_ordinals provisional d) in *.
  destruct (rekeyed_bindings provisional lineage olds new d d1 d2 Hne (sorted_set_NoDup _) Hlen
    (λ o Ho, proj1 (lineage_ordinals_elem _ _ _) Ho) H1 H2) as [E2 Hu].
  exists (merged_row provisional lineage olds new).
  assert (bindings d' = map (merged_row provisional lineage olds new) (bindings d)) as Eb' by by rewrite Eb, E2.
  split_and!; [done|by rewrite Eb| | | |].
  - split_and!; [| |intros e Hin; destruct (He e Hin); congruence|intros v Hin; destruct (Hv v Hin); congruence
      |rewrite Em; apply rekey_marks_gone|rewrite Et; by apply rekey_meta_recovered].
    + intros b. rewrite Eb'. intros (b0 & -> & _)%list_elem_of_fmap. unfold merged_row.
      case_bool_decide; simpl; congruence.
    + intros o. rewrite Eo. intros [(y & _ & _ & ->)|[_ Ho%bool_decide_eq_false]]%update_where_elem; [simpl; congruence|done].
  - intros b Hb. unfold merged_row. by rewrite bool_decide_eq_false_2.
  - intros b Hb. unfold merged_row. by rewrite bool_decide_eq_true_2.
  - intros b o Hb Hbl Ho. assert (o ∈ occupied provisional d) as Hin by (apply elem_of_ordinals_in; eauto).
    destruct (Hlab o Hin) as (v & Ev & Hr & Hgt). exists v.
    assert (∀ b o, Binding.lineage b = provisional → Binding.ordinal b = Some o →
      Binding.ordinal (merged_row provisional lineage olds new b) = merged_label olds new o) as Hrow.
    { intros b' o' Hl' Ho'. unfold merged_row. rewrite bool_decide_eq_true_2 by done. simpl. by rewrite Ho'. }
    split_and!; [by rewrite (Hrow b o)|lia|lia|done|].
    intros b2 o2 v2 Hb2 Hl2 Ho2 Hlt E. rewrite (Hrow b2 o2) in E by done.
    apply (Hmono o o2); [done| |done..]. apply elem_of_ordinals_in. eauto.
Qed.

Definition provisional_ledger : ledger :=
  set_bindings (bindings sample_ledger ++ [sample_row 5 "provisional:s" 7 Stored]) 5 sample_ledger.

Lemma merge_provisional_appends_witness :
  ∃ d' r, merge_provisional "provisional:s" "a" provisional_ledger = Ok (d', r)
    ∧ unique_ordinals (bindings d').
Proof.
  destruct (merge_provisional "provisional:s" "a" provisional_ledger) as [[d' r]|e] eqn:E;
    [|vm_compute in E; discriminate E].
  exists d', r. split; [reflexivity|].
  destruct (merge_provisional_appends "provisional:s" "a" provisional_ledger d' r ltac:(discriminate) E)
    as (f & _ & Hu & _). exact Hu.
Defined.
