(* ===== verification/Classifier.v ===== *)
(** The ingest classifier (ingest_classifier.py): one read-only pass that gives
    every row of a host view the verdict replay, new or skip against the ledger
    of one lineage, and the plan of what to write.

    Left abstract, in the class [Oracle]: the keyed hash, the engine's alias and
    marker rules, and the content and digest of a host message.  Counters and the memo tables of a pass (aliases, incoming digests,
    the rank-3 index, the cached placements) do not change its results and are
    not part of its state.  Texts are lists of code points. *)

From S2P Require Import Prelude LedgerCodec LedgerOrdinals LedgerStore.
From stdpp Require Import options.

#[local] Open Scope Z_scope.

(** ** Data *)

Abbreviation text := (list Z).

Inductive uid_mode := UidOff | UidShadow | UidOn.
#[global] Instance uid_mode_eq_dec : EqDecision uid_mode.
Proof. solve_decision. Defined.

(** [int | Descriptor]: a bound occurrence or an output of an emission. *)
Inductive target := Occ (occ_id : Z) | Desc (view_seq output_index : Z).
#[global] Instance target_eq_dec : EqDecision target.
Proof. solve_decision. Defined.

Inductive head_kind := H1 | H2 | H3 | H4.
#[global] Instance head_kind_eq_dec : EqDecision head_kind.
Proof. solve_decision. Defined.

Record Head := { head_of : head_kind; head_ordinal : option Z }.

Inductive reason :=
| VetoUid | VetoStamp | VetoToolCallId | RefusedTarget | Revision | HeadH4 | OutsideWindow
| OutOfOrder | NoWitness | SegmentCut | Deferred.
#[global] Instance reason_eq_dec : EqDecision reason.
Proof. solve_decision. Defined.

(** [_REASONS], most specific first. *)
Definition REASONS : list reason :=
  [VetoUid; VetoStamp; VetoToolCallId; RefusedTarget; Revision; HeadH4; OutsideWindow; OutOfOrder; NoWitness].

Inductive evidence := Rank1 | Rank2 | Rank3 | Rank4 | RunKeyed | RunUnkeyed | AliasEvidence.
#[global] Instance evidence_eq_dec : EqDecision evidence.
Proof. solve_decision. Defined.

Inductive shape := Partial | Rank5.
#[global] Instance shape_eq_dec : EqDecision shape.
Proof. solve_decision. Defined.

Inductive relation_kind := PossibleReplayOf | Supersedes | GeneratedUnproven.
#[global] Instance relation_kind_eq_dec : EqDecision relation_kind.
Proof. solve_decision. Defined.

Record Relation := { rel_kind : relation_kind; rel_target : option target }.
#[global] Instance Relation_eq_dec : EqDecision Relation.
Proof. solve_decision. Defined.

Inductive outcome := New | Replay | Skip.
#[global] Instance outcome_eq_dec : EqDecision outcome.
Proof. solve_decision. Defined.

Record RowVerdict := {
  verdict : outcome;
  evidence_of : option evidence;
  target_of : option target;
  reason_of : option reason;
  relations : list Relation;
  deferred : option shape
}.

Definition fresh_verdict (o : outcome) : RowVerdict :=
  {| verdict := o; evidence_of := None; target_of := None; reason_of := None; relations := [];
     deferred := None |}.

(** A row of the host view; its index is its position. *)
Record IncomingRow (M : Type) := {
  role : string;
  never_stored : bool;
  row_identity : bytes;
  row_stamp_digest : option bytes;
  row_uidset : option bytes;
  row_stamp : option string;
  uid : option string;
  absorbed_uids : list string;
  tool_call_id : string;
  tool_segment : option nat;
  message : M
}.
Arguments role {M}. Arguments never_stored {M}. Arguments row_identity {M}.
Arguments row_stamp_digest {M}. Arguments row_uidset {M}. Arguments row_stamp {M}.
Arguments uid {M}. Arguments absorbed_uids {M}. Arguments tool_call_id {M}.
Arguments tool_segment {M}. Arguments message {M}.

(** A binding joined with its message row ([b_role] is [None] without one).
    Kept bindings with a row have an ordinal: the snapshot sorts by it. *)
Record Bound := {
  b_occ : Z;
  b_store : option Z;
  b_ordinal : option Z;
  b_identity : bytes;
  b_disp : disposition;
  b_role : option string;
  b_call : option string;
  b_calls : bool;  (* has tool calls *)
  b_content : option text;
  b_observed : option string;
  b_session : option string;
  b_uids : gset string;
  b_constituents : gset string
}.
#[global] Instance Bound_eq_dec : EqDecision Bound.
Proof. solve_decision. Defined.

Inductive uid_kind := Canonical | Version | Constituent.
#[global] Instance uid_kind_eq_dec : EqDecision uid_kind.
Proof. solve_decision. Defined.

Record UidBinding := {
  u_store : Z;
  u_kind : uid_kind;
  disagree_seen : bool;
  proof_stored_new : bool
}.

Record SnapRecord := {
  rec_kind : view_kind;
  rec_seq : Z;
  rec_eligible : bool;
  rec_entries : list ViewEntry
}.

Record SnapEmission := {
  em_id : Z;
  em_seq : Z;
  em_index : Z;
  em_digest : bytes;
  em_eligible : bool;
  em_proposed : bool;
  em_observed : option string;
  em_next_occ : option Z
}.

Record Snapshot := {
  s_lineage : string;
  s_salt : bytes;
  s_unreliable : bool;
  s_records : list SnapRecord;  (* newest first *)
  s_emissions : list SnapEmission;
  s_bindings : list Bound;
  s_by_digest : list (bytes * list Bound);
  s_by_stamp : list (string * list Bound);
  s_uids : list (string * list UidBinding);
  s_alt_counts : Z → Z;
  s_stamps : Z → gset string;
  s_pending : list bytes
}.

(** [dict.get(key, ())] on insertion-ordered pairs. *)
Definition assoc {K V} `{EqDecision K} (k : K) (l : list (K * list V)) : list V :=
  default [] (snd <$> find_first (λ p, p.1 = k) l).

Record RunKey := { run_kind : view_kind; run_seq : Z }.
Record Run := { run_record : RunKey; run_i : nat; run_j : nat; run_k : nat }.

(** ** The state of a pass *)

Record pass := {
  rows : list RowVerdict;
  rejected : list (nat * reason);
  first : gmap nat target;
  candidates : list (nat * target);
  target_rejections : list (nat * target * reason);
  used : list target;
  the_head : Head;
  the_run : option Run;
  base : option SnapRecord  (* the run's record; [None] is the base history *)
}.

Definition set_rows (r : list RowVerdict) (p : pass) : pass :=
  {| rows := r; rejected := rejected p; first := first p; candidates := candidates p;
     target_rejections := target_rejections p; used := used p; the_head := the_head p;
     the_run := the_run p; base := base p |}.
Definition set_used (u : list target) (p : pass) : pass :=
  {| rows := rows p; rejected := rejected p; first := first p; candidates := candidates p;
     target_rejections := target_rejections p; used := u; the_head := the_head p;
     the_run := the_run p; base := base p |}.
Definition set_first (f : gmap nat target) (p : pass) : pass :=
  {| rows := rows p; rejected := rejected p; first := f; candidates := candidates p;
     target_rejections := target_rejections p; used := used p; the_head := the_head p;
     the_run := the_run p; base := base p |}.
Definition set_head (h : Head) (p : pass) : pass :=
  {| rows := rows p; rejected := rejected p; first := first p; candidates := candidates p;
     target_rejections := target_rejections p; used := used p; the_head := h;
     the_run := the_run p; base := base p |}.
Definition set_run (r : option Run) (p : pass) : pass :=
  {| rows := rows p; rejected := rejected p; first := first p; candidates := candidates p;
     target_rejections := target_rejections p; used := used p; the_head := the_head p;
     the_run := r; base := base p |}.
Definition set_base (b : option SnapRecord) (p : pass) : pass :=
  {| rows := rows p; rejected := rejected p; first := first p; candidates := candidates p;
     target_rejections := target_rejections p; used := used p; the_head := the_head p;
     the_run := the_run p; base := b |}.

Definition verdict_at (p : pass) (i : nat) : RowVerdict := default (fresh_verdict New) (rows p !! i).

(** [self.rows[i].x = ..] *)
Definition update_row (i : nat) (f : RowVerdict → RowVerdict) (p : pass) : pass :=
  set_rows (alter f i (rows p)) p.

Definition set_first_default (i : nat) (t : target) (p : pass) : pass :=
  match first p !! i with Some _ => p | None => set_first (<[i := t]> (first p)) p end.

Definition remember (i : nat) (t : target) (p : pass) : pass :=
  let p := set_first_default i t p in
  if bool_decide ((i, t) ∈ candidates p) then p
  else {| rows := rows p; rejected := rejected p; first := first p; candidates := candidates p ++ [(i, t)];
          target_rejections := target_rejections p; used := used p; the_head := the_head p;
          the_run := the_run p; base := base p |}.

Definition reject (i : nat) (t : option target) (r : reason) (p : pass) : pass :=
  match t with
  | None => p
  | Some t =>
      let p := remember i t p in
      {| rows := rows p; rejected := (i, r) :: rejected p; first := first p; candidates := candidates p;
         target_rejections := (i, t, r) :: target_rejections p; used := used p; the_head := the_head p;
         the_run := the_run p; base := base p |}
  end.

Definition replay_verdict (t : target) (e : evidence) : RowVerdict :=
  {| verdict := Replay; evidence_of := Some e; target_of := Some t; reason_of := None;
     relations := []; deferred := None |}.

(** [accept] refuses a used target. *)
Definition accept (i : nat) (t : target) (e : evidence) (p : pass) : pass * bool :=
  if bool_decide (t ∈ used p) then (p, false)
  else (set_used (t :: used p) (set_rows (<[i := replay_verdict t e]> (rows p)) p), true).

Definition add_relation (k : relation_kind) (t : option target) (v : RowVerdict) : RowVerdict :=
  {| verdict := verdict v; evidence_of := evidence_of v; target_of := target_of v;
     reason_of := reason_of v; relations := relations v ++ [{| rel_kind := k; rel_target := t |}];
     deferred := deferred v |}.

Definition set_reason (r : option reason) (v : RowVerdict) : RowVerdict :=
  {| verdict := verdict v; evidence_of := evidence_of v; target_of := target_of v;
     reason_of := r; relations := relations v; deferred := deferred v |}.

Definition defer (i : nat) (s : shape) (ts : list target) (p : pass) : pass :=
  let p := foldl (λ p t, set_first_default i t p) p ts in
  update_row i (λ v,
    {| verdict := verdict v; evidence_of := evidence_of v; target_of := target_of v;
       reason_of := Some Deferred;
       relations := if bool_decide (s = Partial)
                    then map (λ t, {| rel_kind := PossibleReplayOf; rel_target := Some t |}) ts
                    else relations v;
       deferred := Some s |}) p.

(** [cut] takes a replay back; the row is new again. *)
Definition cut (i : nat) (p : pass) : pass :=
  match rows p !! i with
  | Some v =>
      match verdict v, target_of v with
      | Replay, Some t =>
          let p := set_first_default i t (set_used (filter (λ u, u ≠ t) (used p)) p) in
          set_rows (<[i := set_reason (Some SegmentCut) (fresh_verdict New)]> (rows p)) p
      | _, _ => p
      end
  | None => p
  end.

(** ** Longest increasing subsequences *)

(** One step of patience sorting: the tail list and the 1-based length. *)
Definition lis_step (tails : list Z) (v : Z) : list Z * nat :=
  let i := bisect_left tails v in
  (if bool_decide (i = length tails) then tails ++ [v] else <[i := v]> tails, S i).

Fixpoint lis_from (tails : list Z) (values : list Z) : list nat :=
  match values with
  | [] => []
  | v :: values => let '(tails, n) := lis_step tails v in n :: lis_from tails values
  end.

Definition lis_lengths (values : list Z) : list nat := lis_from [] values.

(** ** One pass over a view *)

(** What the classifier asks of the engine. *)
Class Oracle (M : Type) := {
  blake2b : bytes → bytes → bytes;
  (** The identity tuples of a host row; those of a stored row, each with
      whether it needs a witness; and the generated-marker test. *)
  incoming_aliases : M → list (list string);
  stored_aliases : Bound → list (list string * bool);
  has_generated_marker : M → bool;
  (** [normalize_content_value(content) or ""], and the identity digest of the
      message with its content replaced. *)
  content_of : M → text;
  digest_with_content : M → text → bytes
}.

(** The fixed inputs of a pass. *)
Class PassInput (M : Type) := {
  pass_oracle :: Oracle M;
  mode : uid_mode;
  snap : Snapshot;
  view : list (IncomingRow M);
  ignore_stamps : bool
}.

Section classifier.
Context {M : Type} `{PassInput M}.

Definition is_off : bool := bool_decide (mode = UidOff).
Definition is_on : bool := bool_decide (mode = UidOn).

(** [ledger_digest(salt, *t)] of a tuple of strings. *)
Definition tuple_digest (t : list string) : bytes :=
  match ledger_digest blake2b (s_salt snap) (map PStr t) with Ok d => d | Err _ => [] end.

Definition find_binding (o : Z) : option Bound :=
  find_first (λ b, b_occ b = o) (s_bindings snap).

Definition by_store (sid : Z) : list Bound :=
  filter (λ b, b_store b = Some sid) (s_bindings snap).

(** [ordinal(target)] of an occurrence of the snapshot. *)
Definition ordinal_of (t : option target) : option Z :=
  match t with Some (Occ o) => find_binding o ≫= b_ordinal | _ => None end.

Definition known_stamp (r : IncomingRow M) : option string :=
  if ignore_stamps then None else row_stamp r.

(** A Python string that is not empty. *)
Definition truthy (o : option string) : option string :=
  match o with Some x => if bool_decide (x = "") then None else Some x | None => None end.

Definition uid_rows (u : option string) : list UidBinding :=
  match u with
  | Some x => filter (λ b, u_kind b = Canonical ∨ u_kind b = Version) (assoc x (s_uids snap))
  | None => []
  end.

Definition latest (u : option string) : option UidBinding := last (uid_rows u).

Definition uid_eligible (u : UidBinding) : bool :=
  negb (disagree_seen u)
  && (proof_stored_new u || bool_decide (by_store (u_store u) ≠ [])).

Definition current_uid (r : IncomingRow M) (b : Bound) : bool :=
  is_on && match latest (uid r) with
           | Some u => uid_eligible u && bool_decide (Some (u_store u) = b_store b)
           | None => false
           end.

Definition old_revision (b : Bound) : bool :=
  negb is_off
  && existsb (λ x, match latest (Some x) with
                   | Some u => bool_decide (Some (u_store u) ≠ b_store b)
                   | None => false
                   end) (elements (b_uids b)).

(** The row's uids and the binding's are both known and differ. *)
Definition uid_conflict (r : IncomingRow M) (b : Bound) : bool :=
  negb is_off
  && match truthy (uid r) with
     | Some x => bool_decide (b_uids b ≠ ∅)
                 && bool_decide ({[x]} ∪ list_to_set (absorbed_uids r) ≠ b_uids b ∪ b_constituents b)
     | None => false
     end.

Definition veto (r : IncomingRow M) (b : Bound) : option reason :=
  let stamps := s_stamps snap (b_occ b) ∪ match b_observed b with Some o => {[o]} | None => ∅ end in
  if uid_conflict r b then Some VetoUid
  else if match known_stamp r with
          | Some x => bool_decide (stamps ≠ ∅) && bool_decide (x ∉ stamps)
          | None => false
          end then Some VetoStamp
  else if match truthy (Some (tool_call_id r)), truthy (b_call b) with
          | Some x, Some y => bool_decide (x ≠ y)
          | _, _ => false
          end then Some VetoToolCallId
  else if old_revision b then Some Revision
  else None.

Definition positive (r : IncomingRow M) (b : Bound) : bool :=
  match known_stamp r with Some x => bool_decide (x ∈ s_stamps snap (b_occ b)) | None => false end.

Inductive match_kind := MIdentity | MAlias | MName.

Definition incoming_digests (r : IncomingRow M) : list bytes :=
  map tuple_digest (incoming_aliases (message r)) ++ [row_identity r].

(** [{digest: witnessed}]: the last tuple of a digest decides its flag. *)
Definition stored_digests (b : Bound) : list (bytes * bool) :=
  map (λ p, (tuple_digest p.1, p.2)) (stored_aliases b).

Definition witness_flag (b : Bound) (d : bytes) : bool :=
  default true (snd <$> (find_first (λ p, p.1 = d) (reverse (stored_digests b)))).

Definition match_row (r : IncomingRow M) (b : Bound) : option match_kind :=
  if bool_decide (row_identity r = b_identity b) then Some MIdentity
  else if bool_decide (b_identity b ∈ incoming_digests r) then Some MAlias
  else
    let matches := filter (λ d, d ∈ (stored_digests b).*1) (incoming_digests r) in
    match matches with
    | [] => None
    | _ => if forallb (witness_flag b) matches then Some MName else Some MAlias
    end.

Definition matches (r : IncomingRow M) (b : Bound) : bool :=
  if match_row r b is Some _ then true else false.

Definition emission_by_id (ref : Z) : option SnapEmission :=
  find_first (λ e, em_id e = ref) (s_emissions snap).

Definition emission_at (t : option target) : option SnapEmission :=
  match t with
  | Some (Desc q i) => find_first (λ e, em_seq e = q ∧ em_index e = i) (s_emissions snap)
  | _ => None
  end.

Definition entry_target (e : ViewEntry) : option target :=
  if is_descriptor e
  then (λ m, Desc (em_seq m) (em_index m)) <$> (ref e ≫= emission_by_id)
  else Occ <$> ref e.

(** ** The run: the longest aligned stretch of an earlier view *)

(** [ledger.stamp_digest(salt, observed_stamp)] *)
Definition observed_digest (e : SnapEmission) : option bytes :=
  (λ x, tuple_digest [x]) <$> em_observed e.

Definition aligned (r : IncomingRow M) (old : ViewEntry) : bool :=
  bool_decide (row_identity r = identity_digest old)
  && negb (negb is_off
           && match row_uidset r, uidset_digest old with
              | Some x, Some y => bool_decide (x ≠ y)
              | _, _ => false
              end)
  && let stamp := if is_descriptor old then emission_at (entry_target old) ≫= observed_digest
                  else stamp_digest old in
     negb (negb ignore_stamps
           && match row_stamp_digest r, stamp with
              | Some x, Some y => bool_decide (x ≠ y)
              | _, _ => false
              end).

Fixpoint run_length (rs : list (IncomingRow M)) (es : list ViewEntry) : nat :=
  match rs, es with
  | r :: rs, e :: es => if aligned r e then S (run_length rs es) else 0%nat
  | _, _ => 0%nat
  end.

(** A run candidate: length, record, start in the record. *)
Definition run_candidate : Type := nat * SnapRecord * nat.

(** [key = (k, view_seq, -j)]; [max] keeps the first of the largest. *)
Definition run_better (a b : run_candidate) : bool :=
  let '(k, r, j) := a in let '(k', r', j') := b in
  bool_decide (k' < k)%nat
  || bool_decide (k = k')
     && (bool_decide (rec_seq r' < rec_seq r)
         || bool_decide (rec_seq r = rec_seq r') && bool_decide (j < j')%nat).

Definition best_run (cs : list run_candidate) : option run_candidate :=
  foldl (λ best c, match best with
                   | None => Some c
                   | Some b => if run_better c b then Some c else best
                   end) None cs.

Definition runs_in (i : nat) (r : SnapRecord) : list run_candidate :=
  if rec_eligible r
  then omap (λ j, match run_length (drop i view) (drop j (rec_entries r)) with
                  | O => None
                  | k => Some (k, r, j)
                  end) (seq 0 (length (rec_entries r)))
  else [].

Fixpoint first_run (starts : list nat) : option (nat * run_candidate) :=
  match starts with
  | [] => None
  | i :: starts =>
      match best_run (mjoin (map (runs_in i) (s_records snap))) with
      | Some c => Some (i, c)
      | None => first_run starts
      end
  end.

Definition run_starts : list nat :=
  take 2 (filter (λ i, (never_stored <$> view !! i) = Some false) (seq 0 (length view))).

(** Neither side of an unkeyed run row has a key that could have told it apart. *)
Definition run_row_keys (r : IncomingRow M) (b : Bound) : bool * bool :=
  ((if known_stamp r is Some _ then true else false)
   || is_on && match latest (uid r) with Some u => uid_eligible u | None => false end,
   negb ignore_stamps && bool_decide (s_stamps snap (b_occ b) ≠ ∅)
   || is_on && existsb (λ x, existsb (λ u, bool_decide (Some (u_store u) = b_store b) && uid_eligible u)
                               (uid_rows (Some x))) (elements (b_uids b))).

(** One row of the chosen run: [None] breaks the loop. *)
Definition run_row (i : nat) (r : IncomingRow M) (e : ViewEntry) (p : pass) : pass * bool :=
  if never_stored r then (p, true)
  else
    let t := entry_target e in
    let emission := if is_descriptor e then emission_at t else None in
    match emission, t with
    | Some m, Some d => if em_eligible m then ((accept i d Rank4 p).1, true) else (p, false)
    | _, Some (Occ o) =>
        match find_binding o with
        | None => (p, false)
        | Some b =>
            if bool_decide (b_role b = None) || bool_decide (Occ o ∈ used p) then (p, false)
            else if old_revision b then (reject i t Revision p, false)
            else if uid_conflict r b then (reject i t VetoUid p, false)
            else if positive r b || current_uid r b then ((accept i (Occ o) RunKeyed p).1, true)
            else
              let '(incoming_key, stored_key) := run_row_keys r b in
              if incoming_key || stored_key then (reject i t NoWitness p, false)
              else ((accept i (Occ o) RunUnkeyed p).1, true)
        end
    | _, _ => (p, false)
    end.

Fixpoint run_rows (i : nat) (k : nat) (rs : list (IncomingRow M)) (es : list ViewEntry) (p : pass)
    : pass * nat :=
  match k, rs, es with
  | S k, r :: rs, e :: es =>
      let '(p, go) := run_row i r e p in
      if go then let '(p, n) := run_rows (S i) k rs es p in (p, S n) else (p, 0%nat)
  | _, _, _ => (p, 0%nat)
  end.

Definition run_search (p : pass) : pass :=
  match first_run run_starts with
  | None => p
  | Some (i, (k, r, j)) =>
      let '(p, accepted) := run_rows i k (drop i view) (drop j (rec_entries r)) p in
      if bool_decide (accepted = 0%nat) then p
      else
        let key := {| run_kind := rec_kind r; run_seq := rec_seq r |} in
        set_base (Some r)
          (set_run (Some {| run_record := key; run_i := i; run_j := j; run_k := accepted |}) p)
  end.

(** ** The head: where in the ledger the view starts *)

Definition ord (b : Bound) : Z := default 0 (b_ordinal b).

Definition ord_le (a b : Bound) : Prop := ord a <= ord b.

#[local] Instance ord_le_dec a b : Decision (ord_le a b).
Proof. unfold ord_le. apply _. Defined.

(** [self.s.bindings[target]] of an unknown occurrence raises. *)
Inductive class_error := KeyError | ValueError.

Definition ordinal_checked (t : option target) : result class_error (option Z) :=
  match t with
  | Some (Occ o) => match find_binding o with Some b => Ok (b_ordinal b) | None => Err KeyError end
  | _ => Ok None
  end.

(** The first entry of the run's record, from the run's start, with an ordinal. *)
Fixpoint run_head (es : list ViewEntry) : result class_error (option Z) :=
  match es with
  | [] => Ok None
  | e :: es =>
      let! o := ordinal_checked (entry_target e) in
      match o with Some o => Ok (Some o) | None => run_head es end
  end.

Definition next_occ_head (view_seq : Z) : option Head :=
  (λ e, {| head_of := H1; head_ordinal := (em_next_occ e ≫= find_binding) ≫= b_ordinal |}) <$>
  (find_first (λ e, em_seq e = view_seq ∧ is_Some (em_next_occ e ≫= find_binding)) (s_emissions snap)).

Definition kept_bindings : list Bound := merge_sort ord_le (concat (map snd (s_by_digest snap))).

Definition marked_rows : list (IncomingRow M) :=
  filter (λ r, never_stored r = false ∧ has_generated_marker (message r) = false) view.

(** Greedy increasing hits of the first rows among the first kept bindings. *)
Fixpoint head_hits (last : Z) (rs : list (IncomingRow M)) (kept : list Bound) : list Bound :=
  match rs with
  | [] => []
  | r :: rs =>
      match list_find (λ b, last < ord b ∧ b_identity b = row_identity r) kept with
      | None => []
      | Some (_, b) => b :: head_hits (ord b) rs kept
      end
  end.

Definition head_h2 : option Head :=
  let m := Nat.min 3 (length kept_bindings) in
  let hits := head_hits (-1) (take m marked_rows) (take 8 kept_bindings) in
  if bool_decide (m ≠ 0%nat) && bool_decide (m <= length marked_rows)%nat
     && bool_decide (length hits = m)
  then (λ b, {| head_of := H2; head_ordinal := b_ordinal b |}) <$> head hits else None.

Definition uid_hits : list Bound :=
  omap (λ r, match latest (uid r) with
             | Some u => if uid_eligible u
                         then find_first (λ b, matches r b = true) (by_store (u_store u))
                         else None
             | None => None
             end) view.

Definition head_h3 : option Head :=
  match uid_hits with
  | b :: hits => if is_on && existsb (λ c, bool_decide (ord b < ord c)) hits
                 then Some {| head_of := H3; head_ordinal := b_ordinal b |} else None
  | [] => None
  end.

Definition choose_head (p : pass) : result class_error pass :=
  let! h1 := match the_run p, base p with
             | Some r, Some rc =>
                 let! o := run_head (drop (run_j r) (rec_entries rc)) in
                 match o with
                 | Some o => Ok (Some {| head_of := H1; head_ordinal := Some o |})
                 | None => Ok (next_occ_head (run_seq (run_record r)))
                 end
             | _, _ => Ok None
             end in
  Ok (match h1 with
      | Some h => set_head h p
      | None => match head_h2 with
                | Some h => set_head h p
                | None => match head_h3 with Some h => set_head h p | None => p end
                end
      end).

(** ** Positions *)

Definition in_window (p : pass) (b : Bound) : bool :=
  match head_ordinal (the_head p), b_ordinal b with
  | Some h, Some o => bool_decide (h <= o)
  | _, _ => false
  end.

Definition window_reason (p : pass) : reason :=
  if bool_decide (head_ordinal (the_head p) = None) then HeadH4 else OutsideWindow.

(** [_placed]: the replayed rows with an ordinal, by index. *)
Definition placed_list (p : pass) : list (nat * Z) :=
  omap (λ i, match rows p !! i with
             | Some v => if bool_decide (verdict v = Replay)
                         then (λ o, (i, o)) <$> ordinal_of (target_of v) else None
             | None => None
             end) (seq 0 (length (rows p))).

(** The nearest placed rows on both sides, those of [outside] left out. *)
Definition bounds (i : nat) (outside : list nat) (p : pass) : option Z * option Z :=
  let ok := filter (λ x : nat * Z, x.1 ∉ outside) (placed_list p) in
  (snd <$> last (filter (λ x : nat * Z, (x.1 < i)%nat) ok),
   snd <$> head (filter (λ x : nat * Z, (i < x.1)%nat) ok)).

Definition position (i : nat) (b : Bound) (outside : list nat) (p : pass) : option reason :=
  if negb (in_window p b) then Some (window_reason p)
  else
    let '(left, right) := bounds i outside p in
    if match left with Some l => bool_decide (ord b <= l) | None => false end
       || match right with Some r => bool_decide (r <= ord b) | None => false end
    then Some OutsideWindow else None.

(** ** Strong evidence: uid revisions and generated outputs *)

Definition proper_prefix (old new : text) : bool :=
  bool_decide (take (length old) new = old) && bool_decide (new ≠ old).

Definition store_desc (a b : Bound) : Prop := default 0 (b_store b) <= default 0 (b_store a).

#[local] Instance store_desc_dec a b : Decision (store_desc a b).
Proof. unfold store_desc. apply _. Defined.

(** The bindings of every revision of the uid, newest store id first. *)
Definition uid_candidates (u : option string) : list Bound :=
  merge_sort store_desc (concat (map by_store (remove_dups (map u_store (uid_rows u))))).

(** [relations.append(supersedes); reason = "revision"] *)
Definition mark_revision (i : nat) (old : Bound) (p : pass) : pass :=
  update_row i (λ v, set_reason (Some Revision) (add_relation Supersedes (Some (Occ (b_occ old))) v)) p.

(** The uid block of a row; [true] is its [continue]. *)
Definition strong_uid (i : nat) (r : IncomingRow M) (u : UidBinding) (p : pass) : pass * bool :=
  let cs := uid_candidates (uid r) in
  let newest := find_first (λ b, b_store b = Some (u_store u)) cs in
  let same := find_first (λ b, matches r b = true) cs in
  match (match same with Some b => Some b | None => newest end) with
  | None => (p, false)
  | Some hit =>
      if negb (in_window p hit) then (reject i (Some (Occ (b_occ hit))) (window_reason p) p, true)
      else if negb (uid_eligible u) then (p, true)
      else
        match same, newest with
        | Some m, _ =>
            if match newest with Some l => bool_decide (b_occ m ≠ b_occ l) | None => false end
            then (mark_revision i (default m newest) (reject i (Some (Occ (b_occ m))) Revision p), true)
            else if is_on && bool_decide (list_to_set (absorbed_uids r) ⊆ b_constituents m)
            then accept i (Occ (b_occ m)) Rank1 p
            else (p, false)
        | None, Some l =>
            let old := default [] (b_content l) in
            if bool_decide (old ≠ []) && proper_prefix old (content_of (message r))
            then if is_on then (defer i Partial [Occ (b_occ l)] p, true) else (p, false)
            else (mark_revision i l (reject i (Some (Occ (b_occ l))) Revision p), true)
        | None, None => (p, false)
        end
  end.

Fixpoint strong_emissions (i : nat) (r : IncomingRow M) (es : list SnapEmission) (p : pass) : pass :=
  match es with
  | [] => p
  | e :: es =>
      if bool_decide (em_index e ≠ Z.of_nat i) || bool_decide (em_digest e ≠ row_identity r)
      then strong_emissions i r es p
      else
        let t := Desc (em_seq e) (em_index e) in
        if negb (em_eligible e) then strong_emissions i r es (reject i (Some t) RefusedTarget p)
        else if match truthy (known_stamp r), truthy (em_observed e) with
                | Some x, Some y => bool_decide (x ≠ y)
                | _, _ => false
                end
        then strong_emissions i r es (reject i (Some t) VetoStamp p)
        else let '(p, ok) := accept i t Rank4 p in
             if ok then p else strong_emissions i r es p
  end.

Definition settled (v : RowVerdict) : bool :=
  bool_decide (deferred v ≠ None) || bool_decide (reason_of v = Some Revision).

Definition strong_row (i : nat) (r : IncomingRow M) (p : pass) : pass :=
  if negb (bool_decide (verdict (verdict_at p i) = New)) then p
  else
    let '(p, done) :=
      if is_off then (p, false)
      else match truthy (uid r), latest (uid r) with
           | Some _, Some u => strong_uid i r u p
           | _, _ => (p, false)
           end in
    if done then p
    else if settled (verdict_at p i) then p
    else strong_emissions i r (s_emissions snap) p.

(** A loop over the view with its indexes. *)
Definition for_rows (f : nat → IncomingRow M → pass → pass) (p : pass) : pass :=
  foldl (λ p x, f x.1 x.2 p) p (zip (seq 0 (length view)) view).

Definition strong : pass → pass := for_rows strong_row.

(** ** Weak evidence: stamps and tool segments *)

(** [self.segments]: start index and the rows of each segment, in view order. *)
Definition segment_rows (start : nat) : list nat :=
  filter (λ i, (tool_segment <$> view !! i) = Some (Some start)) (seq 0 (length view)).

Fixpoint dedup_first (seen l : list nat) : list nat :=
  match l with
  | [] => []
  | x :: l => if bool_decide (x ∈ seen) then dedup_first seen l else x :: dedup_first (x :: seen) l
  end.

Definition segments : list (nat * list nat) :=
  map (λ start, (start, segment_rows start))
    (dedup_first [] (omap tool_segment view)).

(** The last user row of the view before row [i]. *)
Definition anchor_before (i : nat) : option nat :=
  last (filter (λ j, (role <$> view !! j) = Some "user") (seq 0 i)).

Definition placed_bindings : list Bound :=
  merge_sort ord_le (filter (λ b, b_ordinal b ≠ None) (s_bindings snap)).

(** [user_before]: the last stored user row before the binding. *)
Fixpoint user_before_from (user : option Bound) (bs : list Bound) (o : Z) : option Bound :=
  match bs with
  | [] => None
  | b :: bs =>
      if bool_decide (b_occ b = o) then user
      else user_before_from (if bool_decide (b_role b = Some "user") then Some b else user) bs o
  end.

Definition user_before (o : Z) : option Bound := user_before_from None placed_bindings o.

(** [stored_segments]: the rows stored after an assistant row with calls, up to
    the next one, in its session. *)
Definition session_rows (session : option string) : list Bound :=
  merge_sort ord_le (filter (λ b, b_session b = session) (s_bindings snap)).

Definition opens_segment (b : Bound) : bool :=
  bool_decide (b_role b = Some "assistant") && b_calls b.

Fixpoint take_while_closed (bs : list Bound) : list Bound :=
  match bs with
  | [] => []
  | b :: bs => if opens_segment b then [] else b :: take_while_closed bs
  end.

Fixpoint after_occ (o : Z) (bs : list Bound) : list Bound :=
  match bs with
  | [] => []
  | b :: bs => if bool_decide (b_occ b = o) then bs else after_occ o bs
  end.

Definition stored_segment (b : Bound) : list Bound :=
  if opens_segment b then take_while_closed (after_occ (b_occ b) (session_rows (b_session b))) else [].

Definition by_role_call (r : IncomingRow M) : list Bound :=
  filter (λ b, kept (b_disp b) = true ∧ b_role b = Some (role r)
               ∧ default "" (b_call b) = tool_call_id r) (s_bindings snap).

(** The index of a reused call id: every digest of every binding of the key. *)
Definition rank3_index (bs : list Bound) : list (bytes * Bound) :=
  concat (map (λ b, map (λ d, (d, b)) ((stored_digests b).*1 ++ [b_identity b])) bs).

Definition indexed_matches (r : IncomingRow M) (bs : list Bound) : list Bound :=
  concat (map (λ d, snd <$> filter (λ x, x.1 = d) (rank3_index bs)) (incoming_digests r)).

Definition segment_matches (r : IncomingRow M) : list Bound :=
  let bs := by_role_call r in
  if bool_decide (1 < length bs)%nat then indexed_matches r bs
  else filter (λ b, matches r b = true) bs.

Definition stamp_matches (r : IncomingRow M) : list Bound :=
  match known_stamp r with
  | Some x => filter (λ b, b_role b = Some (role r)) (assoc x (s_by_stamp snap))
  | None => []
  end.

(** [candidates[occ_id] = b]: one candidate per occurrence. *)
Fixpoint dedup_occ (seen : list Z) (bs : list Bound) : list Bound :=
  match bs with
  | [] => []
  | b :: bs => if bool_decide (b_occ b ∈ seen) then dedup_occ seen bs
               else b :: dedup_occ (b_occ b :: seen) bs
  end.

Definition ord_desc (a b : Bound) : Prop := ord b <= ord a.

#[local] Instance ord_desc_dec a b : Decision (ord_desc a b).
Proof. unfold ord_desc. apply _. Defined.

Definition row_candidates (r : IncomingRow M) : list Bound :=
  merge_sort ord_desc (dedup_occ [] (stamp_matches r
    ++ (if tool_segment r is Some _ then segment_matches r else []))).

(** Options collected by a weak pass: row, candidate and its evidence. *)
Definition option_list : Type := list (nat * Bound * evidence).

(** Position evidence of a segment row without its own stamp: its anchor's
    replay is the stored user row before the candidate. *)
Definition rank3_holds (i : nat) (r : IncomingRow M) (b : Bound) (p : pass) : bool :=
  match anchor_before i with
  | Some a =>
      bool_decide (verdict (verdict_at p a) = Replay)
      && match user_before (b_occ b) with
         | Some u => bool_decide (target_of (verdict_at p a) = Some (Occ (b_occ u)))
         | None => false
         end
  | None => true
  end
  && negb ((if truthy (known_stamp r) is Some _ then true else false)
           && bool_decide (s_stamps snap (b_occ b) = ∅)).

Definition weak_candidate (i : nat) (r : IncomingRow M) (x : pass * option_list) (b : Bound)
    : pass * option_list :=
  let '(p, opts) := x in
  let t := Occ (b_occ b) in
  if bool_decide (t ∈ used p) then x
  else
    let m := match_row r b in
    let pos := positive r b in
    if bool_decide (is_Some m) || pos then
      let p := remember i t p in
      match veto r b with
      | Some reason => (reject i (Some t) reason p, opts)
      | None =>
          if negb (in_window p b) then (reject i (Some t) (window_reason p) p, opts)
          else
            match m with
            | None =>
                if match b_content b with
                   | Some c => bool_decide (c ≠ []) && proper_prefix c (content_of (message r))
                   | None => false
                   end
                then (defer i Partial [t] p, opts)
                else (reject i (Some t) NoWitness p, opts)
            | Some k =>
                let name := match k with MName => true | _ => false end in
                if name && negb (pos || current_uid r b)
                then (reject i (Some t) NoWitness p, opts)
                else
                  let rank3 := (if tool_segment r is Some _ then true else false)
                               && (pos || rank3_holds i r b p) in
                  if pos || rank3 then
                    match position i b [] p with
                    | Some reason => (reject i (Some t) reason p, opts)
                    | None =>
                        (p, opts ++ [(i, b, match k with
                                            | MAlias | MName => AliasEvidence
                                            | MIdentity => if pos then Rank2 else Rank3
                                            end)])
                    end
                  else (reject i (Some t) NoWitness p, opts)
            end
      end
    else x.

Definition weak_row (segs : bool) (i : nat) (r : IncomingRow M) (x : pass * option_list)
    : pass * option_list :=
  let v := verdict_at x.1 i in
  if negb (bool_decide ((if tool_segment r is Some _ then true else false) = segs)) then x
  else if negb (bool_decide (verdict v = New)) || settled v then x
  else foldl (weak_candidate i r) x (row_candidates r).

(** A unit: its first row, the ordinal it is placed at, and its mapping. *)
Record weak_unit := {
  un_row : nat;
  un_ordinal : Z;
  un_map : list (nat * (Bound * evidence))
}.

Definition options_of (opts : option_list) (i : nat) : list (Bound * evidence) :=
  map (λ o, (o.1.2, o.2)) (filter (λ o, o.1.1 = i) opts).

(** A row already replayed offers only its own binding. *)
Definition choices (p : pass) (opts : option_list) (i : nat) : list (Bound * evidence) :=
  let v := verdict_at p i in
  match (if bool_decide (verdict v = Replay) then target_of v else None) with
  | Some (Occ o) =>
      match find_binding o with
      | Some b => [(b, default Rank2 (evidence_of v))]
      | None => []
      end
  | Some (Desc _ _) => map (λ x, (x.1, default Rank2 (evidence_of v))) (options_of opts i)
  | None => options_of opts i
  end.

(** The answers of a stored assistant row to the segment's tool rows. *)
Fixpoint answer_rows (p : pass) (opts : option_list) (stored : list Bound) (answered : list Z)
    (is_ : list nat) : option (list (nat * (Bound * evidence))) :=
  match is_ with
  | [] => Some []
  | i :: is_ =>
      let cs := choices p opts i in
      match find_first (λ b, b ∈ cs.*1 ∧ b_call b = (tool_call_id <$> view !! i)
                             ∧ b_occ b ∉ answered) stored with
      | None => None
      | Some b =>
          match find_first (λ c, c.1 = b) cs with
          | None => None
          | Some c => cons (i, c) <$> answer_rows p opts stored (b_occ b :: answered) is_
          end
      end
  end.

Definition segment_units (p : pass) (opts : option_list) (seg : nat * list nat) : list weak_unit :=
  let '(start, indexes) := seg in
  if bool_decide (length indexes < 2)%nat then []
  else omap (λ c : Bound * evidence,
    match answer_rows p opts (stored_segment c.1) [] (tail indexes) with
    | Some m => if bool_decide (position start c.1 indexes p = None)
                then Some {| un_row := start; un_ordinal := ord c.1; un_map := (start, c) :: m |}
                else None
    | None => None
    end) (choices p opts start).

Definition segment_members : list nat :=
  concat (map (λ x, if bool_decide (length x.2 < 2)%nat then [] else x.2) segments).

Definition single_units (members : list nat) (opts : option_list) : list weak_unit :=
  omap (λ o, if bool_decide (o.1.1 ∈ members) then None
             else Some {| un_row := o.1.1; un_ordinal := ord o.1.2; un_map := [(o.1.1, (o.1.2, o.2))] |})
    opts.

(** One unit per complete mapping: a later equal one replaces the earlier. *)
Definition unit_key (u : weak_unit) : nat * list (nat * Z) :=
  (un_row u, map (λ x, (x.1, b_occ x.2.1)) (un_map u)).

Fixpoint put_unit (u : weak_unit) (us : list weak_unit) : list weak_unit :=
  match us with
  | [] => [u]
  | v :: us => if bool_decide (unit_key v = unit_key u) then u :: us else v :: put_unit u us
  end.

Definition dedup_units (us : list weak_unit) : list weak_unit :=
  foldl (λ acc u, put_unit u acc) [] us.

Definition unit_le (a b : weak_unit) : Prop :=
  (un_row a < un_row b)%nat ∨ un_row a = un_row b ∧ un_ordinal b <= un_ordinal a.

#[local] Instance unit_le_dec a b : Decision (unit_le a b).
Proof. unfold unit_le. apply _. Defined.

Definition weak_units (segs : bool) (p : pass) (opts : option_list) : list weak_unit :=
  merge_sort unit_le (dedup_units
    ((if segs then concat (map (segment_units p opts) segments) else [])
     ++ single_units (if segs then segment_members else []) opts)).

(** Units on every longest increasing chain of ordinals: the only one of their
    level. *)
Definition lis_ranks (values : list Z) : list (nat * nat) :=
  zip (lis_lengths values) (reverse (lis_lengths (map Z.opp (reverse values)))).

Definition chosen_flags (values : list Z) : list bool :=
  let ranks := lis_ranks values in
  let longest := foldr Nat.max 0%nat ranks.*1 in
  let on_chain x := bool_decide (x.1 + x.2 = S longest)%nat in
  map (λ x, on_chain x
            && bool_decide (length (filter (λ y, on_chain y = true ∧ y.1 = x.1) ranks) = 1%nat)) ranks.

(** Every row of an accepted unit is placed, every row of another is rejected;
    rows already replayed keep their verdict. *)
Definition commit_row (accepted : bool) (p : pass) (x : nat * (Bound * evidence)) : pass :=
  let '(i, (b, e)) := x in
  if bool_decide (verdict (verdict_at p i) = Replay) then p
  else if accepted then (accept i (Occ (b_occ b)) e p).1
  else reject i (Some (Occ (b_occ b))) OutOfOrder p.

Definition commit_unit (p : pass) (x : weak_unit * bool) : pass :=
  foldl (commit_row x.2) p (un_map x.1).

Definition weak (segs : bool) (p : pass) : pass :=
  let '(p, opts) := foldl (λ x ir, weak_row segs ir.1 ir.2 x) (p, [])
                      (zip (seq 0 (length view)) view) in
  let units := weak_units segs p opts in
  foldl commit_unit p (zip units (chosen_flags (map un_ordinal units))).

(** ** Discovery: relations only, no verdict *)

Definition newline : Z := 10.

Fixpoint lstrip_nl (t : text) : text :=
  match t with c :: t' => if bool_decide (c = newline) then lstrip_nl t' else t | [] => [] end.

Definition rstrip_nl (t : text) : text := reverse (lstrip_nl (reverse t)).

Definition previous_record : option SnapRecord :=
  find_first (λ r, rec_kind r = IngestView) (s_records snap).

Definition is_previous (r : SnapRecord) : bool :=
  match previous_record with
  | Some q => bool_decide (rec_kind q = rec_kind r) && bool_decide (rec_seq q = rec_seq r)
  | None => false
  end.

(** The bound row an output's successor names, when its content follows. *)
Definition donor_after (es : list ViewEntry) (i : nat) (rest : text) : list target :=
  match es !! S i with
  | Some f =>
      match (if is_descriptor f then None else ref f) with
      | Some o => match find_binding o with
                  | Some d => if bool_decide (Some (lstrip_nl rest) = b_content d) then [Occ o] else []
                  | None => []
                  end
      | None => []
      end
  | None => []
  end.

Fixpoint split_match (m : M) (content : text) (d : bytes) (offsets : list nat)
    : option (nat * bool) :=
  match offsets with
  | [] => None
  | o :: offsets =>
      if bool_decide (digest_with_content m (rstrip_nl (take o content)) = d) then Some (o, true)
      else if bool_decide (digest_with_content m (lstrip_nl (drop o content)) = d) then Some (o, false)
      else split_match m content d offsets
  end.

Definition discover_record (i : nat) (r : IncomingRow M) (rc : SnapRecord) (p : pass) : pass :=
  if negb (rec_eligible rc) || bool_decide (rec_kind rc = IngestView) && negb (is_previous rc) then p
  else
    match rec_entries rc !! i with
    | None => p
    | Some e =>
        let t := entry_target e in
        let content := content_of (message r) in
        if is_descriptor e then
          match emission_at t, t with
          | Some m, Some d =>
              if em_eligible m then
                match split_match (message r) content (identity_digest e) (seq 1 (length content - 1)) with
                | Some (o, true) => defer i Partial (d :: donor_after (rec_entries rc) i (drop o content)) p
                | Some (o, false) => defer i Partial [d] p
                | None => p
                end
              else p
          | _, _ => p
          end
        else
          match t with
          | Some (Occ o) =>
              match find_binding o ≫= b_content with
              | Some old => if bool_decide (old ≠ []) && proper_prefix old content
                            then defer i Partial [Occ o] p else p
              | None => p
              end
          | _ => p
          end
    end.

Fixpoint discover_records (i : nat) (r : IncomingRow M) (rcs : list SnapRecord) (p : pass) : pass :=
  match rcs with
  | [] => p
  | rc :: rcs =>
      let p := discover_record i r rc p in
      if bool_decide (deferred (verdict_at p i) = None) then discover_records i r rcs p else p
  end.

Fixpoint discover_rank5 (i : nat) (r : IncomingRow M) (bs : list Bound) (p : pass) : pass :=
  match bs with
  | [] => p
  | b :: bs =>
      if bool_decide ((i, OutOfOrder) ∉ rejected p) && bool_decide (Occ (b_occ b) ∉ used p)
         && bool_decide (position i b [] p = None) && bool_decide (veto r b = None)
      then defer i Rank5 [Occ (b_occ b)] p
      else discover_rank5 i r bs p
  end.

Definition discover_row (i : nat) (r : IncomingRow M) (p : pass) : pass :=
  let v := verdict_at p i in
  if negb (bool_decide (verdict v = New)) || settled v then p
  else
    let p := discover_records i r (s_records snap) p in
    if bool_decide (deferred (verdict_at p i) = None)
    then discover_rank5 i r (reverse (assoc (row_identity r) (s_by_digest snap))) p else p.

Definition discovery : pass → pass := for_rows discover_row.

(** ** Finish: segments stay whole, then relations, reasons and the plan *)

Definition incomplete (p : pass) (indexes : list nat) : bool :=
  existsb (λ i, negb (bool_decide (verdict (verdict_at p i) = Replay))) indexes.

Fixpoint cut_segments (segs : list (nat * list nat)) (p : pass) : pass * list nat :=
  match segs with
  | [] => (p, [])
  | (start, indexes) :: segs =>
      if incomplete p indexes
      then let '(p, cuts) := cut_segments segs (foldl (λ p i, cut i p) p indexes) in (p, start :: cuts)
      else cut_segments segs p
  end.

(** The rows of a segment that lie in the run. *)
Definition in_run (r : Run) (i : nat) : bool :=
  bool_decide (run_i r <= i)%nat && bool_decide (i < run_i r + run_k r)%nat.

Definition cut_run (cuts : list nat) (p : pass) : pass :=
  match the_run p with
  | None => p
  | Some r =>
      let touching := filter (λ start, existsb (in_run r) (segment_rows start) = true) cuts in
      if existsb (λ start, bool_decide (start < run_i r + run_k r)%nat) touching then
        let end_ := foldr Nat.min (run_i r + run_k r)%nat touching in
        let from := Nat.max end_ (run_i r) in
        let p := foldl (λ p i, cut i p) p (seq from (run_i r + run_k r - from)) in
        set_run (if bool_decide (run_i r < end_)%nat
                 then Some {| run_record := run_record r; run_i := run_i r; run_j := run_j r;
                              run_k := (end_ - run_i r)%nat |}
                 else None) p
      else p
  end.

Inductive plan_ref := RefNew (i : nat) | RefStore (sid : option Z) | RefDesc (q i : Z).

Inductive uid_proof := VersionNew | StoredNew | AnchorReplay | Absorbed.

Record plan_entry := {
  pe_identity : bytes;
  pe_stamp : option bytes;
  pe_uidset : option bytes;
  pe_ref : option (nat + target)  (* a new row or a target *)
}.

Record WritePlan := {
  w_uids : list (plan_ref * string * uid_kind * uid_proof);
  w_alt_stamps : list (Z * string);
  w_emission_stamps : list (target * string);
  w_adoptions : list Z;
  w_unreliable : bool;
  w_placements : list (nat * Placement);
  w_entries : list plan_entry
}.

Record finish_state := {
  f_pass : pass;
  f_offsets : list bytes;  (* digests already taken from the a5 lists *)
  f_bound : gset string;
  f_plan : WritePlan
}.

(** The record whose unused targets explain new rows, digest by digest. *)
Definition a5_record (p : pass) : option SnapRecord :=
  match base p with
  | Some r => if bool_decide (head_of (the_head p) ≠ H4) then Some r else previous_record
  | None => previous_record
  end.

Definition a5_targets (used_now : list target) (rc : option SnapRecord) (d : bytes)
    : list (option target) :=
  match rc with
  | None => []
  | Some r => omap (λ e, if bool_decide (identity_digest e = d)
                            && match entry_target e with
                               | Some t => bool_decide (t ∉ used_now)
                               | None => true
                               end
                         then Some (entry_target e) else None) (rec_entries r)
  end.

Definition veto_or_position (i : nat) (r : IncomingRow M) (b : Bound) (p : pass) : reason :=
  match veto r b with
  | Some x => x
  | None => default NoWitness (position i b [] p)
  end.

(** A new row whose first candidate was consumed takes the next free one. *)
Definition requeue_first (i : nat) (p : pass) : pass :=
  if bool_decide (deferred (verdict_at p i) = None)
     && match first p !! i with Some t => bool_decide (t ∈ used p) | None => false end
  then
    let f := delete i (first p) in
    set_first (match find_first (λ x : nat * target, x.1 = i ∧ x.2 ∉ used p) (candidates p) with
               | Some x => <[i := x.2]> f
               | None => f
               end) p
  else p.

Definition take_a5 (targets : list (option target)) (i : nat) (r : IncomingRow M)
    (x : pass * list bytes) : pass * list bytes :=
  let '(p, offs) := x in
  if bool_decide (first p !! i = None) && bool_decide (targets ≠ []) then
    let n := length (filter (λ d, d = row_identity r) offs) in
    let t := mjoin (targets !! Nat.min n (length targets - 1)) in
    let t := match t with
             | None => Occ ∘ b_occ <$> last (assoc (row_identity r) (s_by_digest snap))
             | Some t => Some t
             end in
    (match t with
     | None => p
     | Some (Occ o) =>
         match find_binding o with
         | Some b => reject i t (veto_or_position i r b p) p
         | None => p
         end
     | Some (Desc _ _) =>
         reject i t (match emission_at t with
                     | Some e => if em_eligible e then NoWitness else RefusedTarget
                     | None => RefusedTarget
                     end) p
     end, row_identity r :: offs)
  else x.

Definition take_h4 (i : nat) (r : IncomingRow M) (p : pass) : pass :=
  if bool_decide (first p !! i = None) && bool_decide (head_of (the_head p) = H4)
  then match last (assoc (row_identity r) (s_by_digest snap)) with
       | Some b => reject i (Some (Occ (b_occ b))) HeadH4 p
       | None => p
       end
  else p.

Definition is_desc (t : target) : bool := match t with Desc _ _ => true | Occ _ => false end.

(** Relations and reason of a new row, from its first candidate. *)
Definition explain (i : nat) (r : IncomingRow M) (p : pass) : pass :=
  let p :=
    match first p !! i with
    | None => p
    | Some t =>
        update_row i (λ v,
          let v := if existsb (λ x, bool_decide (rel_kind x = PossibleReplayOf)) (relations v) then v
                   else {| verdict := verdict v; evidence_of := evidence_of v; target_of := target_of v;
                           reason_of := reason_of v;
                           relations := {| rel_kind := PossibleReplayOf; rel_target := Some t |} :: relations v;
                           deferred := deferred v |} in
          if bool_decide (reason_of v = Some SegmentCut) || bool_decide (reason_of v = Some Deferred) then v
          else set_reason (Some (default NoWitness
                 (find_first (λ x, (i, t, x) ∈ target_rejections p) REASONS))) v) p
    end in
  if has_generated_marker (message r) || bool_decide (row_identity r ∈ s_pending snap)
  then update_row i (λ v, add_relation GeneratedUnproven
         (find_first (λ t, is_desc t = true)
            (omap rel_target (relations v))) v) p
  else p.

(** Bounds of a new row, made non-decreasing in view order. *)
Definition clamp_bounds (b : option Z * option Z) (previous : option Placement)
    : option Z * option Z :=
  let '(l, u) := match b with
                 | (Some l, Some u) => if bool_decide (u <= l) then (Some (Z.max l u), None) else b
                 | _ => b
                 end in
  match previous with
  | None => (l, u)
  | Some q =>
      let m := Z.max (default 0 l) (default 0 (left q)) in
      (if bool_decide (m = 0) then None else Some m,
       match u, right q with Some x, Some y => Some (Z.max x y) | _, _ => None end)
  end.

Definition add_uids (us : list (plan_ref * string * uid_kind * uid_proof)) (w : WritePlan) : WritePlan :=
  {| w_uids := w_uids w ++ us; w_alt_stamps := w_alt_stamps w; w_emission_stamps := w_emission_stamps w;
     w_adoptions := w_adoptions w; w_unreliable := w_unreliable w; w_placements := w_placements w;
     w_entries := w_entries w |}.
Definition add_placement (i : nat) (q : Placement) (w : WritePlan) : WritePlan :=
  {| w_uids := w_uids w; w_alt_stamps := w_alt_stamps w; w_emission_stamps := w_emission_stamps w;
     w_adoptions := w_adoptions w; w_unreliable := w_unreliable w;
     w_placements := w_placements w ++ [(i, q)]; w_entries := w_entries w |}.
Definition add_entry (e : plan_entry) (w : WritePlan) : WritePlan :=
  {| w_uids := w_uids w; w_alt_stamps := w_alt_stamps w; w_emission_stamps := w_emission_stamps w;
     w_adoptions := w_adoptions w; w_unreliable := w_unreliable w; w_placements := w_placements w;
     w_entries := w_entries w ++ [e] |}.
Definition add_stamps (alt : list (Z * string)) (em : list (target * string)) (ad : list Z)
    (w : WritePlan) : WritePlan :=
  {| w_uids := w_uids w; w_alt_stamps := w_alt_stamps w ++ alt;
     w_emission_stamps := w_emission_stamps w ++ em; w_adoptions := w_adoptions w ++ ad;
     w_unreliable := w_unreliable w; w_placements := w_placements w; w_entries := w_entries w |}.
Definition set_unreliable (w : WritePlan) : WritePlan :=
  {| w_uids := w_uids w; w_alt_stamps := w_alt_stamps w; w_emission_stamps := w_emission_stamps w;
     w_adoptions := w_adoptions w; w_unreliable := true; w_placements := w_placements w;
     w_entries := w_entries w |}.

Definition row_entry (r : IncomingRow M) (t : option (nat + target)) : plan_entry :=
  {| pe_identity := row_identity r; pe_stamp := row_stamp_digest r; pe_uidset := row_uidset r;
     pe_ref := t |}.

(** The ordinal of the first superseded row of a verdict. *)
Definition superseded_ordinal (v : RowVerdict) : option Z :=
  ordinal_of (find_first (λ x, rel_kind x = Supersedes) (relations v) ≫= rel_target).

Definition finish_new (i : nat) (r : IncomingRow M) (targets : list (option target))
    (st : finish_state) : finish_state :=
  let p := requeue_first i (f_pass st) in
  let '(p, offs) := take_a5 targets i r (p, f_offsets st) in
  let p := explain i r (take_h4 i r p) in
  let '(w, bound) :=
    match (if is_off then None else truthy (uid r)) with
    | Some u =>
        let known := bool_decide (u ∈ f_bound st) in
        (add_uids [(RefNew i, u, if known then Version else Canonical,
                    if known then VersionNew else StoredNew)] (f_plan st), {[u]} ∪ f_bound st)
    | None => (f_plan st, f_bound st)
    end in
  let '(l, u) := clamp_bounds (bounds i [] p) (snd <$> last (w_placements w)) in
  let q := {| left := l; right := u; supersedes := superseded_ordinal (verdict_at p i) |} in
  {| f_pass := p; f_offsets := offs; f_bound := bound; f_plan := add_placement i q w |}.

Definition finish_replay (r : IncomingRow M) (v : RowVerdict) (st : finish_state) : finish_state :=
  let w := f_plan st in
  match target_of v with
  | Some (Desc q x) =>
      match emission_at (target_of v) with
      | Some e =>
          let em := match row_stamp r, em_observed e with
                    | Some y, None => [(Desc q x, y)]
                    | _, _ => []
                    end in
          let ad := if em_proposed e && bool_decide (q ∉ w_adoptions w) then [q] else [] in
          {| f_pass := f_pass st; f_offsets := f_offsets st; f_bound := f_bound st;
             f_plan := add_stamps [] em ad w |}
      | None => st
      end
  | Some (Occ o) =>
      let alt := match row_stamp r with
                 | Some y =>
                     if bool_decide (y ∉ s_stamps snap o)
                        && bool_decide (evidence_of v ∈ [Some RunKeyed; Some RunUnkeyed; Some Rank1])
                        && bool_decide (s_alt_counts snap o < 4)
                     then [(o, y)] else []
                 | None => []
                 end in
      let w := add_stamps alt [] [] w in
      let '(w, bound) :=
        match (if is_off then None else truthy (uid r)), find_binding o with
        | Some u, Some b =>
            if bool_decide (u ∈ f_bound st) then (w, f_bound st)
            else (add_uids [(RefStore (b_store b), u, Canonical, AnchorReplay)] w, {[u]} ∪ f_bound st)
        | _, _ => (w, f_bound st)
        end in
      {| f_pass := f_pass st; f_offsets := f_offsets st; f_bound := bound; f_plan := w |}
  | None => st
  end.

(** What the absorbed uids of a row are bound to. *)
Definition constituent_ref (i : nat) (v : RowVerdict) : plan_ref :=
  if bool_decide (verdict v = New) then RefNew i
  else match target_of v with
       | Some (Occ o) => RefStore (find_binding o ≫= b_store)
       | Some (Desc q x) => RefDesc q x
       | None => RefNew i
       end.

Definition finish_row (targets : bytes → list (option target)) (i : nat) (r : IncomingRow M)
    (st : finish_state) : finish_state :=
  let v := verdict_at (f_pass st) i in
  let close (t : option (nat + target)) (st : finish_state) :=
    {| f_pass := f_pass st; f_offsets := f_offsets st; f_bound := f_bound st;
       f_plan := add_entry (row_entry r t) (f_plan st) |} in
  let absorb (st : finish_state) :=
    {| f_pass := f_pass st; f_offsets := f_offsets st; f_bound := f_bound st;
       f_plan := if is_off then f_plan st
                 else add_uids (map (λ u, (constituent_ref i v, u, Constituent, Absorbed))
                                  (absorbed_uids r)) (f_plan st) |} in
  match verdict v with
  | Skip => close None st
  | New => close (Some (inl i)) (absorb (finish_new i r (targets (row_identity r)) st))
  | Replay => close (inr <$> target_of v) (absorb (finish_replay r v st))
  end.

Definition empty_plan : WritePlan :=
  {| w_uids := []; w_alt_stamps := []; w_emission_stamps := []; w_adoptions := [];
     w_unreliable := false; w_placements := []; w_entries := [] |}.

Definition finish (p : pass) : pass * WritePlan :=
  let '(p, cuts) := cut_segments segments p in
  let p := cut_run cuts p in
  let targets := a5_targets (used p) (a5_record p) in
  let st := foldl (λ st x, finish_row targets x.1 x.2 st)
              {| f_pass := p; f_offsets := []; f_bound := list_to_set (s_uids snap).*1;
                 f_plan := empty_plan |} (zip (seq 0 (length view)) view) in
  (f_pass st, f_plan st).

(** ** The pass *)

Definition initial_pass : pass :=
  {| rows := map (λ r, fresh_verdict (if never_stored r then Skip else New)) view;
     rejected := []; first := ∅; candidates := []; target_rejections := []; used := [];
     the_head := {| head_of := H4; head_ordinal := None |}; the_run := None; base := None |}.

Record Classification := {
  c_base : option SnapRecord;
  c_previous : option Z;
  c_run : option Run;
  c_head : Head;
  c_rows : list RowVerdict;
  c_writes : WritePlan
}.

Definition execute : result class_error Classification :=
  let! p := choose_head (run_search initial_pass) in
  let p := discovery (weak true (weak false (strong p))) in
  let '(p, w) := finish p in
  Ok {| c_base := base p; c_previous := rec_seq <$> previous_record; c_run := the_run p;
        c_head := the_head p; c_rows := rows p; c_writes := w |}.

(** ** M14: stamps proven wrong *)

Definition differs (x : string) (o : option string) : bool :=
  match o with Some y => bool_decide (x ≠ y) | None => false end.

(** Targets whose stamp the row proves wrong. *)
Definition proven_by (i : nat) (r : IncomingRow M) : list target :=
  match truthy (row_stamp r) with
  | None => []
  | Some x =>
      (match latest (uid r) with
       | Some u =>
           if is_on && uid_eligible u then
             map (Occ ∘ b_occ) (filter (λ b, matches r b = true ∧ s_stamps snap (b_occ b) ≠ ∅
                                             ∧ x ∉ s_stamps snap (b_occ b)) (by_store (u_store u)))
           else []
       | None => []
       end)
      ++ map (λ e, Desc (em_seq e) (em_index e))
           (filter (λ e, em_eligible e = true ∧ em_index e = Z.of_nat i ∧ em_digest e = row_identity r
                         ∧ differs x (truthy (em_observed e)) = true)
              (s_emissions snap))
  end.

Definition proven : list (nat * target) :=
  concat (map (λ x, map (pair x.1) (proven_by x.1 x.2)) (zip (seq 0 (length view)) view)).

End classifier.

Section classify.
Context {M : Type} `{Oracle M}.

Definition pass_input (m : uid_mode) (s : Snapshot) (v : list (IncomingRow M)) (ignore : bool)
    : PassInput M :=
  {| pass_oracle := _; mode := m; snap := s; view := v; ignore_stamps := ignore |}.

Definition run_pass (m : uid_mode) (s : Snapshot) (v : list (IncomingRow M)) (ignore : bool)
    : result class_error Classification :=
  @execute M (pass_input m s v ignore).

(** Whether the first pass is replaced by one that ignores stamps. *)
Definition m14 (m : uid_mode) (s : Snapshot) (v : list (IncomingRow M)) : bool :=
  let ps := @proven M (pass_input m s v (s_unreliable s)) in
  negb (s_unreliable s)
  && bool_decide (3 <= length (remove_dups ps.*2))%nat
  && bool_decide (3 <= length (remove_dups ps.*1))%nat.

Definition classify (m : uid_mode) (s : Snapshot) (v : list (IncomingRow M))
    : result class_error Classification :=
  let! result := run_pass m s v (s_unreliable s) in
  if m14 m s v then
    let! result := run_pass m s v true in
    Ok {| c_base := c_base result; c_previous := c_previous result; c_run := c_run result;
          c_head := c_head result; c_rows := c_rows result;
          c_writes := set_unreliable (c_writes result) |}
  else Ok result.

End classify.

(** ** Concrete passes *)

Definition toy_oracle : Oracle text :=
  {| blake2b := toy_hash; incoming_aliases _ := []; stored_aliases _ := [];
     has_generated_marker _ := false; content_of m := m;
     digest_with_content _ t := be_bytes 16 (Z.of_nat (length t)) |}.

Definition toy_digest (n : Z) : bytes := be_bytes 16 n.

Definition toy_row (d : Z) (rl : string) (seg : option nat) (call : string) (st : option string)
    : IncomingRow text :=
  {| role := rl; never_stored := bool_decide (rl = "system"); row_identity := toy_digest d;
     row_stamp_digest := None; row_uidset := None; row_stamp := st; uid := None; absorbed_uids := [];
     tool_call_id := call; tool_segment := seg; message := [d] |}.

Definition toy_bound (o d : Z) (rl : string) (call : option string) (calls : bool) : Bound :=
  {| b_occ := o; b_store := Some o; b_ordinal := Some (100 * o); b_identity := toy_digest d;
     b_disp := Stored; b_role := Some rl; b_call := call; b_calls := calls; b_content := Some [d];
     b_observed := None; b_session := Some "s"; b_uids := ∅; b_constituents := ∅ |}.

Definition toy_entry (d : Z) (o : option Z) : ViewEntry :=
  {| identity_digest := toy_digest d; stamp_digest := None; uidset_digest := None; ref := o;
     is_descriptor := false |}.

Definition toy_bindings : list Bound :=
  [toy_bound 1 11 "user" None false; toy_bound 2 12 "assistant" None true;
   toy_bound 3 13 "tool" (Some "c") false].

Definition toy_snapshot (es : list ViewEntry) (stamps : Z → gset string) : Snapshot :=
  {| s_lineage := "a"; s_salt := []; s_unreliable := false;
     s_records := [{| rec_kind := IngestView; rec_seq := 1; rec_eligible := true; rec_entries := es |}];
     s_emissions := []; s_bindings := toy_bindings;
     s_by_digest := map (λ b, (b_identity b, [b])) toy_bindings;
     s_by_stamp := []; s_uids := []; s_alt_counts _ := 0; s_stamps := stamps; s_pending := [] |}.

Definition toy_view : list (IncomingRow text) :=
  [toy_row 10 "system" None "" None; toy_row 11 "user" None "" None;
   toy_row 12 "assistant" (Some 2%nat) "" None; toy_row 13 "tool" (Some 2%nat) "c" None;
   toy_row 14 "user" None "" None].

Definition toy_classify (es : list ViewEntry) : result class_error Classification :=
  @classify text toy_oracle UidOff (toy_snapshot es (λ _, ∅)) toy_view.

(** A replayed prefix, found again through the previous view. *)
Example classify_run :
  (map (λ v, (verdict v, target_of v)) ∘ c_rows <$>
    match toy_classify [toy_entry 11 (Some 1); toy_entry 12 (Some 2); toy_entry 13 (Some 3)] with
    | Ok c => Some c | Err _ => None end)
  = Some [(Skip, None); (Replay, Some (Occ 1)); (Replay, Some (Occ 2)); (Replay, Some (Occ 3));
          (New, None)].
Proof. vm_compute. reflexivity. Qed.

(** An answer the run does not reach is found by its segment. *)
Example classify_segment :
  (map (λ v, (verdict v, target_of v, reason_of v)) ∘ c_rows <$>
    match toy_classify [toy_entry 11 (Some 1); toy_entry 12 (Some 2)] with
    | Ok c => Some c | Err _ => None end)
  = Some [(Skip, None, None); (Replay, Some (Occ 1), None); (Replay, Some (Occ 2), None);
          (Replay, Some (Occ 3), None); (New, None, None)].
Proof. vm_compute. reflexivity. Qed.
