(* ===== verification/ClassifierSafety.v ===== *)
(** Safety of the classifier: a stored occurrence or output is consumed at most
    once, only never-stored rows are skipped, and every replay verdict has the
    evidence it claims. *)

From S2P Require Import Prelude LedgerCodec LedgerOrdinals LedgerStore Classifier.
From stdpp Require Import options.

#[local] Open Scope Z_scope.

#[global] Arguments reject : simpl never.
#[global] Arguments remember : simpl never.
#[global] Arguments defer : simpl never.
#[global] Arguments accept : simpl never.

(** ** Steps that change no verdict *)

(** What the invariants see of a row. *)
Definition core (v : RowVerdict) : outcome * option evidence * option target :=
  (verdict v, evidence_of v, target_of v).

(** [p'] has the verdicts, used targets, head and run of [p]. *)
Record same_core (p p' : pass) : Prop := {
  sc_rows : core <$> rows p' = core <$> rows p;
  sc_used : used p' = used p;
  sc_head : the_head p' = the_head p;
  sc_run : the_run p' = the_run p
}.

#[global] Instance same_core_preorder : PreOrder same_core.
Proof.
  split.
  - intros p. by constructor.
  - intros p q r [H1 H2 H3 H4] [H5 H6 H7 H8]. constructor; congruence.
Qed.

Create HintDb same_core.

Lemma set_first_default_core i t p : same_core p (set_first_default i t p).
Proof. unfold set_first_default. destruct (first p !! i); by constructor. Qed.
#[export] Hint Resolve set_first_default_core : same_core.

Lemma remember_core i t p : same_core p (remember i t p).
Proof.
  unfold remember. etrans; [apply set_first_default_core|].
  case_bool_decide; [done|]. by constructor.
Qed.
#[export] Hint Resolve remember_core : same_core.

Lemma reject_core i t r p : same_core p (reject i t r p).
Proof.
  unfold reject. destruct t as [t|]; [|done]. etrans; [apply (remember_core i t)|]. by constructor.
Qed.
#[export] Hint Resolve reject_core : same_core.

Lemma update_row_core i f p : (∀ v, core (f v) = core v) → same_core p (update_row i f p).
Proof.
  intros Hf. constructor; [|done..]. simpl.
  apply list_eq. intros j. rewrite !list_lookup_fmap. destruct (decide (i = j)) as [->|Hne].
  - rewrite list_lookup_alter_eq. destruct (rows p !! j); simpl; [by rewrite Hf|done].
  - by rewrite list_lookup_alter_ne.
Qed.

Lemma foldl_core {A} (f : pass → A → pass) l p :
  (∀ p x, same_core p (f p x)) → same_core p (foldl f p l).
Proof.
  intros Hf. revert p. induction l as [|x l IH]; intros p; simpl; [done|].
  etrans; [apply Hf|apply IH].
Qed.

Lemma defer_core i sh ts p : same_core p (defer i sh ts p).
Proof.
  unfold defer. etrans; [apply (foldl_core (λ p t, set_first_default i t p)); intros q t; apply set_first_default_core|].
  by apply update_row_core.
Qed.
#[export] Hint Resolve defer_core : same_core.

Lemma mark_revision_core i b p : same_core p (mark_revision i b p).
Proof. by apply update_row_core. Qed.
#[export] Hint Resolve mark_revision_core : same_core.

Lemma same_core_lookup p p' i v' :
  same_core p p' → rows p' !! i = Some v' → ∃ v, rows p !! i = Some v ∧ core v = core v'.
Proof.
  intros [H _ _ _] Hi. apply (f_equal (λ l, l !! i)) in H. rewrite !list_lookup_fmap, Hi in H.
  destruct (rows p !! i) as [v|]; [|done]. simpl in H. injection H as H1 H2 H3. exists v.
  split; [done|]. unfold core. congruence.
Qed.

Lemma core_verdict v w : core v = core w → verdict v = verdict w.
Proof. by intros [= ?]. Qed.

Section safety.
Context {M : Type} `{PassInput M}.

(** ** The evidence of a replay verdict *)

(** An eligible output of the emission, placed on the row. *)
Definition generated_evidence (t : target) : Prop :=
  ∃ m, m ∈ s_emissions snap ∧ t = Desc (em_seq m) (em_index m) ∧ em_eligible m = true.

(** The row continues an eligible view at this entry. *)
Definition run_evidence (r : IncomingRow M) (t : target) : Prop :=
  ∃ rc j e, rc ∈ s_records snap ∧ rec_eligible rc = true ∧ rec_entries rc !! j = Some e
            ∧ aligned r e = true ∧ entry_target e = Some t.

(** In the window of a head. *)
Definition at_or_after (h : Head) (b : Bound) : bool :=
  match head_ordinal h, b_ordinal b with Some x, Some o => bool_decide (x <= o) | _, _ => false end.

(** What evidence [e] promises about row [r] and target [t], under head [h]. *)
Definition justified (h : Head) (r : IncomingRow M) (t : target) (e : evidence) : Prop :=
  match e, t with
  | Rank4, _ => generated_evidence t
  | RunKeyed, Occ o => ∃ b, find_binding o = Some b ∧ b_role b ≠ None ∧ run_evidence r t
      ∧ old_revision b = false ∧ uid_conflict r b = false ∧ (positive r b || current_uid r b) = true
  | RunUnkeyed, Occ o => ∃ b, find_binding o = Some b ∧ b_role b ≠ None ∧ run_evidence r t
      ∧ old_revision b = false ∧ uid_conflict r b = false ∧ run_row_keys r b = (false, false)
  | Rank1, Occ o => ∃ b u, b_occ b = o ∧ b ∈ s_bindings snap ∧ latest (uid r) = Some u
      ∧ mode = UidOn ∧ uid_eligible u = true ∧ at_or_after h b = true ∧ matches r b = true
      ∧ list_to_set (absorbed_uids r) ⊆ b_constituents b
  | (Rank2 | Rank3 | AliasEvidence), Occ o => ∃ b, b_occ b = o ∧ at_or_after h b = true
      ∧ veto r b = None ∧ matches r b = true ∧ (e = Rank2 → positive r b = true)
      ∧ (positive r b = false → tool_segment r ≠ None)
  | _, _ => False
  end.

(** ** The invariant of a pass *)

Record pass_wf (p : pass) : Prop := {
  pw_length : length (rows p) = length view;
  pw_skip : ∀ i r v, view !! i = Some r → rows p !! i = Some v →
    (verdict v = Skip ↔ never_stored r = true);
  pw_nodup : NoDup (used p);
  pw_used : ∀ i v, rows p !! i = Some v → verdict v = Replay →
    ∃ t, target_of v = Some t ∧ t ∈ used p;
  pw_once : ∀ i j v w, rows p !! i = Some v → rows p !! j = Some w →
    verdict v = Replay → verdict w = Replay → target_of v = target_of w → i = j;
  pw_owned : ∀ t, t ∈ used p → ∃ i v, rows p !! i = Some v ∧ verdict v = Replay ∧ target_of v = Some t;
  pw_justified : ∀ i r v t, view !! i = Some r → rows p !! i = Some v → verdict v = Replay →
    target_of v = Some t → ∃ e, evidence_of v = Some e ∧ justified (the_head p) r t e
}.

Lemma pass_wf_core p p' : same_core p p' → pass_wf p → pass_wf p'.
Proof.
  intros S [W1 W2 W3 W4 W5 W6 W7]. pose proof S as [Srows Sused Shead _].
  assert (∀ i v', rows p' !! i = Some v' → ∃ v, rows p !! i = Some v ∧ verdict v = verdict v'
    ∧ target_of v = target_of v' ∧ evidence_of v = evidence_of v') as L.
  { intros i v' Hi. destruct (same_core_lookup p p' i v' S Hi) as (v & Hv & E). injection E as E1 E2 E3. eauto. }
  constructor.
  - apply (f_equal length) in Srows. rewrite !length_fmap in Srows. congruence.
  - intros i r v Hr Hv. destruct (L i v Hv) as (w & Hw & <- & _). by eapply W2.
  - by rewrite Sused.
  - intros i v Hv Hrep. destruct (L i v Hv) as (w & Hw & E1 & <- & _). rewrite Sused. apply (W4 i w Hw). congruence.
  - intros i j v w Hv Hw R1 R2 E. destruct (L i v Hv) as (v0 & Hv0 & E1 & E2 & _).
    destruct (L j w Hw) as (w0 & Hw0 & E3 & E4 & _). apply (W5 i j v0 w0); congruence.
  - intros t. rewrite Sused. intros Ht. destruct (W6 t Ht) as (i & v & Hv & Hrep & Et).
    apply (f_equal (λ l, l !! i)) in Srows. rewrite !list_lookup_fmap, Hv in Srows.
    destruct (rows p' !! i) as [v'|] eqn:Hv'; [|done]. injection Srows as E1 E2 E3.
    exists i, v'. split; [done|]. split; congruence.
  - intros i r v t Hr Hv Hrep Et. destruct (L i v Hv) as (w & Hw & E1 & E2 & <-). rewrite Shead.
    apply (W7 i r w t); congruence.
Qed.

Lemma set_run_wf r p : pass_wf p → pass_wf (set_run r p).
Proof. intros [W1 W2 W3 W4 W5 W6 W7]. by constructor. Qed.

Lemma set_base_wf b p : pass_wf p → pass_wf (set_base b p).
Proof. intros [W1 W2 W3 W4 W5 W6 W7]. by constructor. Qed.

(** Accepting a justified target on a row that is not skipped or replayed. *)
Lemma accept_wf i r v t e p :
  pass_wf p → view !! i = Some r → rows p !! i = Some v → verdict v = New →
  justified (the_head p) r t e → pass_wf (accept i t e p).1.
Proof.
  intros [W1 W2 W3 W4 W5 W6 W7] Hr Hv Hnew Hj. unfold accept. case_bool_decide as Hu; [by constructor|]. simpl.
  assert (i < length (rows p))%nat as Hi by by eapply lookup_lt_Some.
  assert (∀ j w, <[i:=replay_verdict t e]> (rows p) !! j = Some w →
    (j = i ∧ w = replay_verdict t e) ∨ (j ≠ i ∧ rows p !! j = Some w)) as L.
  { intros j w. destruct (decide (j = i)) as [->|Hne].
    - rewrite list_lookup_insert_eq by done. intros [= <-]. by left.
    - rewrite list_lookup_insert_ne by done. auto. }
  constructor; simpl.
  - by rewrite length_insert.
  - intros j r' w Hr' [[-> ->]|[Hne Hw]]%L; [|by eapply W2]. simpl.
    assert (r' = r) as -> by congruence. rewrite <-(W2 i r v Hr Hv), Hnew. done.
  - by constructor.
  - intros j w [[-> ->]|[Hne Hw]]%L Hrep.
    + exists t. split; [done|by left].
    + destruct (W4 j w Hw Hrep) as (t' & Et & Hin). exists t'. split; [done|by right].
  - assert (∀ j w, rows p !! j = Some w → verdict w = Replay → target_of w ≠ Some t) as Hfresh.
    { intros j w Hw Hrep Et. destruct (W4 j w Hw Hrep) as (t' & Et' & Hin). congruence. }
    intros j k w w' [[-> ->]|[Hne Hw]]%L [[-> ->]|[Hne' Hw']]%L R1 R2 E; simpl in *; [done| | |by eapply W5].
    + by destruct (Hfresh k w' Hw' R2).
    + by destruct (Hfresh j w Hw R1).
  - intros t' [->|Hin]%elem_of_cons.
    + exists i, (replay_verdict t e). by rewrite list_lookup_insert_eq.
    + destruct (W6 t' Hin) as (j & w & Hw & Hrep & Et). exists j, w. split; [|done].
      rewrite list_lookup_insert_ne; [done|]. intros <-. congruence.
  - intros j r' w t' Hr' [[-> ->]|[Hne Hw]]%L Hrep Et; [|by eapply W7]. simpl in Et. injection Et as <-.
    exists e. split; [done|]. by assert (r' = r) as -> by congruence.
Qed.

Lemma cut_wf i p : pass_wf p → pass_wf (cut i p).
Proof.
  intros W. unfold cut. destruct (rows p !! i) as [v|] eqn:Hv; [|done].
  destruct (verdict v) eqn:Hrep; [done| |done]. destruct (target_of v) as [t|] eqn:Ht; [|done].
  set (q := set_first_default i t _).
  assert (same_core (set_used (filter (λ u, u ≠ t) (used p)) p) q) as [S1 S2 S3 _] by apply set_first_default_core.
  assert (rows q = rows p) as Er by (unfold q, set_first_default; by destruct (first _ !! i)).
  destruct W as [W1 W2 W3 W4 W5 W6 W7].
  assert (i < length (rows p))%nat as Hi by by eapply lookup_lt_Some.
  set (nv := set_reason (Some SegmentCut) (fresh_verdict New)).
  assert (∀ j w, <[i:=nv]> (rows p) !! j = Some w → (j = i ∧ w = nv) ∨ (j ≠ i ∧ rows p !! j = Some w)) as L.
  { intros j w. destruct (decide (j = i)) as [->|Hne].
    - rewrite list_lookup_insert_eq by done. intros [= <-]. by left.
    - rewrite list_lookup_insert_ne by done. auto. }
  constructor; simpl; rewrite ?Er, ?S2, ?S3; simpl.
  - by rewrite length_insert.
  - intros j r' w Hr' [[-> ->]|[Hne Hw]]%L; [|by eapply W2]. simpl. rewrite <-(W2 i r' v Hr' Hv), Hrep. done.
  - by apply NoDup_filter.
  - intros j w [[-> ->]|[Hne Hw]]%L R; [done|]. destruct (W4 j w Hw R) as (t' & Et & Hin).
    exists t'. split; [done|]. apply list_elem_of_filter. split; [|done]. intros ->.
    apply Hne. eapply (W5 j i w v); congruence.
  - intros j k w w' [[-> ->]|[Hne Hw]]%L [[-> ->]|[Hne' Hw']]%L R1 R2 E; simpl in *; try done. by eapply W5.
  - intros t' [Hne Hin]%list_elem_of_filter. destruct (W6 t' Hin) as (j & w & Hw & R & Et).
    exists j, w. split; [|done]. rewrite list_lookup_insert_ne; [done|]. intros <-. congruence.
  - intros j r' w t' Hr' [[-> ->]|[Hne Hw]]%L R Et; [done|by eapply W7].
Qed.

(** ** The run *)

Definition run_kind_of (e : option evidence) : Prop :=
  e = Some Rank4 ∨ e = Some RunKeyed ∨ e = Some RunUnkeyed.

(** Before a head is chosen: rows from [i] on are as they came, and every
    replay is the run's. *)
Record running (i : nat) (p : pass) : Prop := {
  rn_wf : pass_wf p;
  rn_new : ∀ j r v, (i <= j)%nat → view !! j = Some r → rows p !! j = Some v →
    never_stored r = false → verdict v = New;
  rn_kinds : ∀ j v, rows p !! j = Some v → verdict v = Replay → run_kind_of (evidence_of v)
}.

Lemma running_core i p p' : same_core p p' → running i p → running i p'.
Proof.
  intros S [W1 W2 W3]. constructor.
  - by eapply pass_wf_core.
  - intros j r v Hj Hr Hv Hn. destruct (same_core_lookup _ _ _ _ S Hv) as (w & Hw & E).
    rewrite <-(core_verdict _ _ E). by eapply W2.
  - intros j v Hv Hrep. destruct (same_core_lookup _ _ _ _ S Hv) as (w & Hw & E).
    injection E as E1 E2 E3. rewrite <-E2. apply (W3 j w Hw). congruence.
Qed.

Lemma running_later i j p : (i <= j)%nat → running i p → running j p.
Proof. intros Hij [W1 W2 W3]. constructor; [done| |done]. intros k r v Hk. apply W2. lia. Qed.

Lemma running_accept i r v t e p :
  running i p → view !! i = Some r → rows p !! i = Some v → verdict v = New →
  justified (the_head p) r t e → run_kind_of (Some e) → running (S i) (accept i t e p).1.
Proof.
  intros [W1 W2 W3] Hr Hv Hn Hj Hk. constructor; [by eapply accept_wf| |].
  - intros j r' w Hij Hr'. unfold accept. case_bool_decide; simpl; [apply W2; [lia|done]|].
    rewrite list_lookup_insert_ne by lia. apply W2; [lia|done].
  - intros j w. unfold accept. case_bool_decide; simpl; [apply W3|].
    destruct (decide (j = i)) as [->|Hne].
    + rewrite list_lookup_insert_eq by (by eapply lookup_lt_Some). by intros [= <-] _.
    + rewrite list_lookup_insert_ne by done. apply W3.
Qed.

Lemma run_kind_head h h' r t e : run_kind_of (Some e) → justified h r t e → justified h' r t e.
Proof. intros [[= ->]|[[= ->]|[= ->]]]; done. Qed.

Lemma run_length_aligned rs es k r e :
  (k < run_length rs es)%nat → rs !! k = Some r → es !! k = Some e → aligned r e = true.
Proof.
  revert es k. induction rs as [|r0 rs IH]; intros [|e0 es] k Hk Hr He; simpl in *; try lia.
  destruct (aligned r0 e0) eqn:E; [|lia]. destruct k as [|k]; simpl in *; [by simplify_eq|].
  apply (IH es k); [lia|done|done].
Qed.

Lemma emission_at_Some t m :
  emission_at t = Some m → m ∈ s_emissions snap ∧ t = Some (Desc (em_seq m) (em_index m)).
Proof.
  unfold emission_at. destruct t as [[o|q i]|]; try done. intros [Hm [<- <-]]%find_first_Some. done.
Qed.

Lemma find_binding_Some o b : find_binding o = Some b → b ∈ s_bindings snap ∧ b_occ b = o.
Proof. intros Hb. by apply find_first_Some in Hb. Qed.

Lemma run_row_running i r v e p p' go :
  running i p → view !! i = Some r → rows p !! i = Some v →
  (∃ rc j, rc ∈ s_records snap ∧ rec_eligible rc = true ∧ rec_entries rc !! j = Some e) →
  aligned r e = true → run_row i r e p = (p', go) → running (if go then S i else i) p'.
Proof.
  intros Rn Hr Hv (rc & j & Hrc & Hel & He) Hal Hrow. unfold run_row in Hrow.
  destruct (never_stored r) eqn:Hns; [simplify_eq; by apply (running_later i); [lia|]|].
  assert (verdict v = New) as Hn by by eapply (rn_new _ _ Rn i).
  assert (∀ q, same_core p q → running i q) as Hsame by (intros q S; by eapply running_core).
  assert (∀ t, entry_target e = Some t → run_evidence r t) as Hev.
  { intros t Ht. by exists rc, j, e. }
  destruct (if is_descriptor e then emission_at (entry_target e) else None) as [m|] eqn:Em.
  - destruct (is_descriptor e); [|done]. apply emission_at_Some in Em as [Hm Et]. rewrite Et in Hrow.
    destruct (em_eligible m) eqn:Hme; simplify_eq; [|by apply Hsame].
    eapply running_accept; [done..| |by left]. by exists m.
  - destruct (entry_target e) as [[o|q x]|] eqn:Et; simplify_eq; try by apply Hsame.
    destruct (find_binding o) as [b|] eqn:Eb; simplify_eq; [|by apply Hsame].
    destruct (bool_decide (b_role b = None) || bool_decide (Occ o ∈ used p)) eqn:Ebad; simplify_eq; [by apply Hsame|].
    apply orb_false_elim in Ebad as [Erole%bool_decide_eq_false _].
    destruct (old_revision b) eqn:Eold; simplify_eq; [by apply Hsame, reject_core|].
    destruct (uid_conflict r b) eqn:Econf; simplify_eq; [by apply Hsame, reject_core|].
    destruct (positive r b || current_uid r b) eqn:Epos; simplify_eq.
    + eapply running_accept; [done..| |right; by left]. exists b. by auto 10.
    + destruct (run_row_keys r b) as [k1 k2] eqn:Ek.
      destruct (k1 || k2) eqn:Ekk; simplify_eq; [by apply Hsame, reject_core|].
      apply orb_false_elim in Ekk as [-> ->].
      eapply running_accept; [done..| |right; by right]. exists b. by auto 10.
Qed.

Lemma drop_cons_lookup {A} (l : list A) i x k : drop i l = x :: k → l !! i = Some x ∧ k = drop (S i) l.
Proof.
  intros E. assert (l !! i = Some x) as Hx.
  { rewrite <-(Nat.add_0_r i), <-lookup_drop, E. done. }
  split; [done|]. rewrite (drop_S _ _ _ Hx) in E. by injection E.
Qed.

Lemma run_rows_running rc i j k p p' n :
  rc ∈ s_records snap → rec_eligible rc = true →
  (k <= run_length (drop i view) (drop j (rec_entries rc)))%nat → running i p →
  run_rows i k (drop i view) (drop j (rec_entries rc)) p = (p', n) → running (i + n) p'.
Proof.
  intros Hrc Hel. revert i j p p' n. induction k as [|k IH]; intros i j p p' n Hk Rn Hrun.
  - simpl in Hrun. simplify_eq. by rewrite Nat.add_0_r.
  - destruct (drop i view) as [|r rs] eqn:Ev; simpl in Hk; [lia|].
    destruct (drop j (rec_entries rc)) as [|e es] eqn:Ee; [lia|].
    destruct (aligned r e) eqn:Hal; [|lia]. cbn [run_rows] in Hrun.
    apply drop_cons_lookup in Ev as [Hr ->], Ee as [He ->].
    destruct (lookup_lt_is_Some_2 (rows p) i) as [v Hv].
    { rewrite (pw_length _ (rn_wf _ _ Rn)). by eapply lookup_lt_Some. }
    destruct (run_row i r e p) as [q go] eqn:Erow.
    assert (running (if go then S i else i) q) as Rq by (eapply run_row_running; eauto).
    destruct go; [|simplify_eq; by rewrite Nat.add_0_r].
    destruct (run_rows (S i) k _ _ q) as [q' n'] eqn:Erest. simplify_eq.
    rewrite Nat.add_succ_r. apply (IH (S i) (S j) q p' n'); [lia|done|done].
Qed.

Lemma initial_lookup i v :
  rows initial_pass !! i = Some v →
  ∃ r, view !! i = Some r ∧ v = fresh_verdict (if never_stored r then Skip else New).
Proof. simpl. intros (r & -> & Hr)%list_lookup_fmap_Some. eauto. Qed.

Lemma initial_wf : pass_wf initial_pass.
Proof.
  assert (∀ i v, rows initial_pass !! i = Some v → verdict v ≠ Replay) as Hno.
  { intros i v (r & _ & ->)%initial_lookup. simpl. by destruct (never_stored r). }
  constructor; simpl.
  - by rewrite length_map.
  - intros i r v Hr Hv. destruct (initial_lookup i v Hv) as (r' & Hr' & ->).
    assert (r' = r) as -> by congruence. simpl. by destruct (never_stored r).
  - constructor.
  - intros i v Hv Hrep. by destruct (Hno i v Hv).
  - intros i j v w Hv Hw R. by destruct (Hno i v Hv).
  - by intros t ?%elem_of_nil.
  - intros i r v t Hr Hv R. by destruct (Hno i v Hv).
Qed.

Lemma initial_running i : running i initial_pass.
Proof.
  constructor; [apply initial_wf| |].
  - intros j r v _ Hr (r' & Hr' & ->)%initial_lookup Hn. assert (r' = r) as -> by congruence. by rewrite Hn.
  - intros j v (r & _ & ->)%initial_lookup. simpl. by destruct (never_stored r).
Qed.

Lemma best_run_from cs best c :
  foldl (λ best c, match best with
                   | None => Some c
                   | Some b => if run_better c b then Some c else best
                   end) best cs = Some c → best = Some c ∨ c ∈ cs.
Proof.
  revert best. induction cs as [|d cs IH]; intros best; simpl; [by left|].
  intros [E|Hin]%IH; [|right; by right].
  destruct best as [b|]; [|injection E as <-; right; by left].
  destruct (run_better d b); [injection E as <-; right; by left|by left].
Qed.

Lemma first_run_Some starts i k rc j :
  first_run starts = Some (i, (k, rc, j)) →
  rc ∈ s_records snap ∧ rec_eligible rc = true ∧ k = run_length (drop i view) (drop j (rec_entries rc)).
Proof.
  induction starts as [|s starts IH]; simpl; [done|].
  destruct (best_run _) as [c|] eqn:Eb; [|done]. intros [= -> ->]. clear IH.
  apply best_run_from in Eb as [|Hin]; [done|]. apply list_elem_of_join in Hin as (l & Hc & Hl).
  apply list_elem_of_fmap in Hl as (rc' & -> & Hrc). unfold runs_in in Hc.
  destruct (rec_eligible rc') eqn:Eel; [|by apply elem_of_nil in Hc].
  apply list_elem_of_omap in Hc as (j' & _ & Hj).
  destruct (run_length (drop i view) (drop j' (rec_entries rc'))) eqn:Ek; [done|]. simplify_eq. by rewrite Ek.
Qed.

(** What the run leaves behind, for the head to be chosen. *)
Lemma run_search_wf p :
  p = run_search initial_pass →
  pass_wf p ∧ ∀ j v, rows p !! j = Some v → verdict v = Replay → run_kind_of (evidence_of v).
Proof.
  intros ->. unfold run_search. destruct (first_run run_starts) as [[i [[k rc] j]]|] eqn:Er.
  - apply first_run_Some in Er as (Hrc & Hel & ->).
    destruct (run_rows i _ _ _ initial_pass) as [p n] eqn:Erun.
    eapply run_rows_running in Erun as [W _ K]; [|done..|apply initial_running].
    case_bool_decide; [by split|]. split; [|done]. by apply set_base_wf, set_run_wf.
  - split; [apply initial_wf|]. apply (rn_kinds 0 _ (initial_running 0)).
Qed.

Lemma choose_head_rows p p' :
  choose_head p = Ok p' → rows p' = rows p ∧ used p' = used p.
Proof.
  unfold choose_head. intros Hp. apply rbind_Ok in Hp as (h & _ & Hp). simplify_eq.
  destruct h; [done|]. destruct head_h2; [done|]. by destruct head_h3.
Qed.

Lemma head_wf p p' : choose_head (run_search p) = Ok p' → p = initial_pass → pass_wf p'.
Proof.
  intros Hh ->. destruct (run_search_wf _ eq_refl) as [[W1 W2 W3 W4 W5 W6 W7] K].
  apply choose_head_rows in Hh as [Er Eu].
  constructor; rewrite ?Er, ?Eu; try done.
  intros i r v t Hr Hv Hrep Ht. destruct (W7 i r v t Hr Hv Hrep Ht) as (e & He & Hj).
  exists e. split; [done|]. eapply run_kind_head; [|exact Hj]. rewrite <-He. by eapply K.
Qed.

(** ** Loops over the view *)

Lemma zip_seq_lookup {A} (l : list A) k i x :
  (i, x) ∈ zip (seq k (length l)) l → (k <= i)%nat ∧ l !! (i - k)%nat = Some x.
Proof.
  revert k. induction l as [|y l IH]; intros k; simpl; [by intros ?%elem_of_nil|].
  intros [[= -> ->]|Hin]%elem_of_cons; [by rewrite Nat.sub_diag|].
  apply IH in Hin as [Hk Hx]. split; [lia|]. by replace (i - k)%nat with (S (i - S k)) by lia.
Qed.

Lemma view_foldl {B} (P : B → Prop) (f : B → nat * IncomingRow M → B) x :
  (∀ i r y, view !! i = Some r → P y → P (f y (i, r))) → P x →
  P (foldl f x (zip (seq 0 (length view)) view)).
Proof.
  intros Hf. assert (∀ l, (∀ i r, (i, r) ∈ l → view !! i = Some r) → ∀ y, P y → P (foldl f y l)) as G.
  { induction l as [|[i r] l IH]; intros Hl y Hy; simpl; [done|].
    apply IH; [intros j r' Hin; apply Hl; by right|]. apply Hf; [apply Hl; by left|done]. }
  apply G. intros i r [_ Hin]%zip_seq_lookup. by rewrite Nat.sub_0_r in Hin.
Qed.

(** A row of the pass that is new. *)
Lemma new_row p i r :
  pass_wf p → view !! i = Some r → ∃ v, rows p !! i = Some v ∧ verdict_at p i = v.
Proof.
  intros W Hr. destruct (lookup_lt_is_Some_2 (rows p) i) as [v Hv].
  { rewrite (pw_length _ W). by eapply lookup_lt_Some. }
  exists v. split; [done|]. unfold verdict_at. by rewrite Hv.
Qed.

(** Accepting from a state with the same verdicts as one where the row is new. *)
Lemma accept_new p q i r t e :
  pass_wf p → same_core p q → view !! i = Some r → verdict (verdict_at p i) = New →
  justified (the_head p) r t e → pass_wf (accept i t e q).1.
Proof.
  intros W S Hr Hn Hj. assert (pass_wf q) as Wq by by eapply pass_wf_core.
  destruct (new_row q i r Wq Hr) as (v & Hv & _).
  destruct (same_core_lookup _ _ _ _ S Hv) as (w & Hw & E).
  unfold verdict_at in Hn. rewrite Hw in Hn. simpl in Hn.
  eapply accept_wf; [done..| |by rewrite (sc_head _ _ S)].
  by rewrite <-(core_verdict _ _ E).
Qed.

(** ** Strong evidence *)

Lemma elem_of_concat {A} (x : A) (ls : list (list A)) : x ∈ concat ls ↔ ∃ l, x ∈ l ∧ l ∈ ls.
Proof.
  rewrite list_elem_of_In, in_concat. split; intros (l & Hl & Hx); exists l; by rewrite !list_elem_of_In in *.
Qed.

Lemma uid_candidates_elem u b : b ∈ uid_candidates u → b ∈ s_bindings snap.
Proof.
  unfold uid_candidates. rewrite merge_sort_Permutation. intros (bs & Hb & Hbs)%elem_of_concat.
  apply list_elem_of_fmap in Hbs as (sid & -> & _). by apply list_elem_of_filter in Hb as [_ Hb].
Qed.

Lemma accept_false i t e p : (accept i t e p).2 = false → (accept i t e p).1 = p.
Proof. unfold accept. by case_bool_decide. Qed.

Lemma strong_uid_wf i r u p p' done :
  pass_wf p → view !! i = Some r → verdict (verdict_at p i) = New → latest (uid r) = Some u →
  strong_uid i r u p = (p', done) → pass_wf p' ∧ (done = false → p' = p).
Proof.
  intros W Hr Hn Hu. unfold strong_uid.
  assert (∀ q, same_core p q → pass_wf q) as C by (intros q S; by eapply pass_wf_core).
  destruct (find_first (λ b, matches r b = true) _) as [m|] eqn:Es.
  - apply find_first_Some in Es as [Hm Hmatch]. apply uid_candidates_elem in Hm.
    destruct (in_window p m) eqn:Ew; simpl; [|intros [= <- <-]; split; [apply C, reject_core|done]].
    destruct (uid_eligible u) eqn:Eu; simpl; [|by intros [= <- <-]].
    case_match; [intros [= <- <-]; split; [apply C; etrans; [apply reject_core|apply mark_revision_core]|done]|].
    destruct (is_on && _) eqn:Eon; [|by intros [= <- <-]].
    apply andb_true_iff in Eon as [Eon Hsub%bool_decide_eq_true]. intros Ha. split.
    + replace p' with (accept i (Occ (b_occ m)) Rank1 p).1 by by rewrite Ha.
      eapply accept_new; [done..|]. exists m, u. apply bool_decide_eq_true in Eon. by auto 10.
    + intros ->. replace p' with (accept i (Occ (b_occ m)) Rank1 p).1 by by rewrite Ha.
      apply accept_false. by rewrite Ha.
  - destruct (find_first (λ b, b_store b = Some (u_store u)) (uid_candidates (uid r))) as [l|]; [|by intros [= <- <-]].
    destruct (negb (in_window p l)); [intros [= <- <-]; split; [apply C, reject_core|done]|].
    destruct (negb (uid_eligible u)); [by intros [= <- <-]|].
    destruct (bool_decide (default [] (b_content l) ≠ []) && _).
    + destruct is_on; intros [= <- <-]; [split; [apply C, defer_core|done]|done].
    + intros [= <- <-]. split; [apply C; etrans; [apply reject_core|apply mark_revision_core]|done].
Qed.

Lemma same_core_new p q i : same_core p q → verdict (verdict_at q i) = verdict (verdict_at p i).
Proof.
  intros [Hc _ _ _]. apply (f_equal (λ l, l !! i)) in Hc. rewrite !list_lookup_fmap in Hc. unfold verdict_at.
  destruct (rows p !! i), (rows q !! i); simpl in *; try done. by injection Hc.
Qed.

Lemma strong_emissions_wf i r es p :
  es ⊆ s_emissions snap → pass_wf p → view !! i = Some r → verdict (verdict_at p i) = New →
  pass_wf (strong_emissions i r es p).
Proof.
  intros Hes W Hr. revert p W. induction es as [|e es IH]; intros p W Hn; simpl; [done|].
  assert (es ⊆ s_emissions snap) as Hes' by (intros x Hx; apply Hes; by right).
  assert (∀ t x, pass_wf (strong_emissions i r es (reject i t x p))) as Hrej.
  { intros t x. apply (IH Hes'); [by eapply pass_wf_core; [apply reject_core|]|].
    by rewrite (same_core_new _ _ _ (reject_core i t x p)). }
  destruct (_ || _); [by apply IH|]. destruct (em_eligible e) eqn:Ee; simpl; [|apply Hrej].
  destruct (match truthy (known_stamp r) with Some _ => _ | None => _ end); [apply Hrej|].
  destruct (accept i _ Rank4 p) as [q ok] eqn:Ea. destruct ok.
  - replace q with (accept i (Desc (em_seq e) (em_index e)) Rank4 p).1 by by rewrite Ea.
    eapply accept_new; [done..|]. exists e. split_and!; [apply Hes; by left|done|done].
  - assert (q = p) as ->; [|by apply IH].
    transitivity (accept i (Desc (em_seq e) (em_index e)) Rank4 p).1; [by rewrite Ea|].
    apply accept_false. by rewrite Ea.
Qed.

Lemma strong_row_wf i r p : view !! i = Some r → pass_wf p → pass_wf (strong_row i r p).
Proof.
  intros Hr W. unfold strong_row. case_bool_decide as Hn; simpl; [|done].
  assert (∀ q d, (q, d) = (p, false) ∨ (∃ u, latest (uid r) = Some u ∧ (q, d) = strong_uid i r u p) →
    pass_wf q ∧ (d = false → q = p)) as G.
  { intros q d [[= -> ->]|(u & Hu & E)]; [done|]. by eapply strong_uid_wf. }
  assert (∀ q d, pass_wf q ∧ (d = false → q = p) →
    pass_wf (if d : bool then q else if settled (verdict_at q i) then q
             else strong_emissions i r (s_emissions snap) q)) as K.
  { intros q [] [Wq Hq]; [done|]. rewrite Hq in * by done. destruct (settled _); [done|].
    by apply strong_emissions_wf. }
  destruct is_off; [by apply (K p false)|].
  destruct (truthy (uid r)); [|by apply (K p false)].
  destruct (latest (uid r)) as [u|] eqn:Hu; [|by apply (K p false)].
  destruct (strong_uid i r u p) as [q d] eqn:E. apply K, G. right. by exists u.
Qed.

Lemma strong_wf p : pass_wf p → pass_wf (strong p).
Proof. intros W. by apply (view_foldl pass_wf); [intros; apply strong_row_wf|]. Qed.

(** ** Weak evidence *)

(** A pair a weak pass may place: the row is already replayed, or the evidence
    holds for it. *)
Definition offer_ok (p : pass) (x : nat * (Bound * evidence)) : Prop :=
  verdict (verdict_at p x.1) = Replay
  ∨ ∃ r, view !! x.1 = Some r ∧ never_stored r = false
         ∧ justified (the_head p) r (Occ (b_occ x.2.1)) x.2.2.

(** Later states keep the replays and the head. *)
Record kept_by (p p' : pass) : Prop := {
  kb_replay : ∀ i, verdict (verdict_at p i) = Replay → verdict (verdict_at p' i) = Replay;
  kb_head : the_head p' = the_head p
}.

Lemma same_core_kept p p' : same_core p p' → kept_by p p'.
Proof. intros S. split; [|apply S]. intros i. by rewrite (same_core_new _ _ _ S). Qed.

Lemma accept_kept i t e p : kept_by p (accept i t e p).1.
Proof.
  unfold accept. case_bool_decide; [done|]. split; [|done]. intros j. unfold verdict_at. simpl.
  destruct (decide (i = j)) as [->|Hne]; [|by rewrite list_lookup_insert_ne].
  destruct (decide (j < length (rows p))%nat); [by rewrite list_lookup_insert_eq|].
  by rewrite list_insert_ge by lia.
Qed.

Lemma offer_ok_kept p p' x : kept_by p p' → offer_ok p x → offer_ok p' x.
Proof.
  intros [K1 K2] [Hr|(r & Hr & Hn & Hj)]; [left; auto|]. right. exists r. by rewrite K2.
Qed.

Definition offers_ok (p : pass) (opts : option_list) : Prop :=
  ∀ i b e, (i, b, e) ∈ opts → offer_ok p (i, (b, e)).

Lemma offers_ok_core p q opts : same_core p q → offers_ok p opts → offers_ok q opts.
Proof. intros S Ho i b e Hin. eapply offer_ok_kept; [by apply same_core_kept|]. by apply Ho. Qed.

Lemma in_window_core p q b : same_core p q → in_window q b = at_or_after (the_head p) b.
Proof. intros [_ _ Hh _]. unfold in_window. by rewrite Hh. Qed.

Lemma weak_candidate_ok p i r x b :
  view !! i = Some r → never_stored r = false → same_core p x.1 → offers_ok p x.2 →
  same_core p (weak_candidate i r x b).1 ∧ offers_ok p (weak_candidate i r x b).2.
Proof.
  intros Hr Hns S Ho. destruct x as [q opts]. simpl in *. unfold weak_candidate.
  case_bool_decide; [done|]. destruct (bool_decide (is_Some (match_row r b)) || positive r b) eqn:Em; [|done].
  set (q1 := remember i (Occ (b_occ b)) q).
  assert (same_core p q1) as S1 by (etrans; [exact S|apply remember_core]).
  assert (∀ t y, same_core p (reject i t y q1)) as Hrej by (intros; etrans; [exact S1|apply reject_core]).
  destruct (veto r b) eqn:Ev; [split; [apply Hrej|exact Ho]|].
  rewrite (in_window_core p q1) by done.
  destruct (at_or_after (the_head p) b) eqn:Ew; simpl; [|split; [apply Hrej|exact Ho]].
  destruct (match_row r b) as [k|] eqn:Ek;
    [|case_match; [split; [etrans; [exact S1|apply defer_core]|done]|split; [apply Hrej|exact Ho]]].
  destruct (_ && negb _); [split; [apply Hrej|exact Ho]|]. destruct (positive r b || _) eqn:Epos; [|split; [apply Hrej|exact Ho]].
  destruct (position i b [] q1); [split; [apply Hrej|exact Ho]|]. split; [done|]. simpl.
  intros j b' e [Hin|[= -> -> ->]%list_elem_of_singleton]%elem_of_app; [by apply Ho|].
  right. exists r. split_and!; [done..|].
  assert (∀ e, e = Rank2 ∨ e = Rank3 ∨ e = AliasEvidence → (e = Rank2 → positive r b = true) →
    justified (the_head p) r (Occ (b_occ b)) e) as J.
  { intros e He He2. assert (∃ b0, b_occ b0 = b_occ b ∧ at_or_after (the_head p) b0 = true ∧ veto r b0 = None
      ∧ matches r b0 = true ∧ (e = Rank2 → positive r b0 = true)
      ∧ (positive r b0 = false → tool_segment r ≠ None)) as Hb.
    { exists b. split_and!; try done; [unfold matches; by rewrite Ek|].
      intros Hp. rewrite Hp in Epos. destruct (tool_segment r); [done|]. by simpl in Epos. }
    by destruct He as [->|[->| ->]]. }
  apply J; destruct k, (positive r b); simpl; auto; discriminate.
Qed.

Lemma weak_row_ok segs p i r x :
  view !! i = Some r → pass_wf p → same_core p x.1 → offers_ok p x.2 →
  same_core p (weak_row segs i r x).1 ∧ offers_ok p (weak_row segs i r x).2.
Proof.
  intros Hr W S Ho. unfold weak_row. destruct (negb (bool_decide (_ = segs))); [done|].
  destruct (negb (bool_decide (verdict (verdict_at x.1 i) = New)) || _) eqn:En; [done|].
  apply orb_false_iff in En as [En _]. apply negb_false_iff, bool_decide_eq_true in En.
  assert (never_stored r = false) as Hns.
  { apply not_true_iff_false. intros Ht. rewrite (same_core_new _ _ _ S) in En.
    destruct (new_row p i r W Hr) as (v & Hv & E). rewrite E in En.
    apply (pw_skip p W i r v Hr Hv) in Ht. congruence. }
  revert x S Ho En. generalize (row_candidates r) as bs. induction bs as [|b bs IH]; intros x S Ho En; simpl; [done|].
  destruct (weak_candidate_ok p i r x b Hr Hns S Ho) as [S' Ho']. apply IH; [done..|].
  by rewrite (same_core_new _ _ _ S'), <-(same_core_new _ _ _ S).
Qed.

Lemma options_of_elem opts i c : c ∈ options_of opts i → (i, c.1, c.2) ∈ opts.
Proof.
  intros ([[j b] e] & -> & Hin)%list_elem_of_fmap. apply list_elem_of_filter in Hin as [Hj Hin]. simpl in *. by subst.
Qed.

Lemma choices_ok p q opts i c :
  same_core p q → offers_ok p opts → c ∈ choices q opts i → offer_ok p (i, c).
Proof.
  intros S Ho. unfold choices.
  assert (c ∈ options_of opts i → offer_ok p (i, c)) as G.
  { intros Hin%options_of_elem. destruct c. by apply Ho. }
  case_bool_decide as Hrep.
  - intros _. left. simpl. by rewrite <-(same_core_new _ _ _ S).
  - done.
Qed.

Lemma answer_rows_ok p q opts stored ans is_ m :
  same_core p q → offers_ok p opts → answer_rows q opts stored ans is_ = Some m →
  ∀ x, x ∈ m → offer_ok p x.
Proof.
  intros S Ho. revert ans m. induction is_ as [|i is_ IH]; intros ans m; simpl.
  - intros [= <-] x Hx%elem_of_nil. done.
  - destruct (find_first _ stored) as [b|]; [|done].
    destruct (find_first _ (choices q opts i)) as [c|] eqn:Ec; [|done].
    apply find_first_Some in Ec as [Hc _].
    intros (m' & E & ->)%fmap_Some x [->|Hx]%elem_of_cons; [by eapply choices_ok|by eapply IH].
Qed.

Lemma segment_units_ok p q opts seg u :
  same_core p q → offers_ok p opts → u ∈ segment_units q opts seg → ∀ x, x ∈ un_map u → offer_ok p x.
Proof.
  intros S Ho. destruct seg as [start is_]. unfold segment_units. case_bool_decide; [by intros ?%elem_of_nil|].
  intros (c & Hc & E)%list_elem_of_omap. destruct (answer_rows _ _ _ _ _) as [m|] eqn:Em; [|done].
  case_bool_decide; [|done]. injection E as <-. simpl. intros x [->|Hx]%elem_of_cons.
  - by eapply choices_ok.
  - by eapply answer_rows_ok.
Qed.

Lemma single_units_ok p members opts u :
  offers_ok p opts → u ∈ single_units members opts → ∀ x, x ∈ un_map u → offer_ok p x.
Proof.
  intros Ho ([[i b] e] & Hin & E)%list_elem_of_omap x Hx. simpl in E. case_bool_decide; [done|].
  injection E as <-. simpl in Hx. apply list_elem_of_singleton in Hx as ->. by apply Ho.
Qed.

Lemma put_unit_elem u us v : v ∈ put_unit u us → v = u ∨ v ∈ us.
Proof.
  induction us as [|w us IH]; simpl; [by intros ->%list_elem_of_singleton; left|].
  case_bool_decide; intros [->|Hv]%elem_of_cons; rewrite ?elem_of_cons; auto.
  apply IH in Hv as [->|Hv]; auto.
Qed.

Lemma dedup_units_elem us v : v ∈ dedup_units us → v ∈ us.
Proof.
  unfold dedup_units. assert (∀ acc, v ∈ foldl (λ acc u, put_unit u acc) acc us → v ∈ acc ∨ v ∈ us) as G.
  { induction us as [|u us IH]; intros acc; simpl; [by left|].
    intros [Hv|Hv]%IH; [|right; by right]. apply put_unit_elem in Hv as [->|Hv]; [right; by left|by left]. }
  intros [Hv|Hv]%G; [by apply elem_of_nil in Hv|done].
Qed.

Lemma weak_units_ok segs p q opts u :
  same_core p q → offers_ok p opts → u ∈ weak_units segs q opts → ∀ x, x ∈ un_map u → offer_ok p x.
Proof.
  intros S Ho. unfold weak_units. rewrite merge_sort_Permutation. intros [Hu|Hu]%dedup_units_elem%elem_of_app.
  - destruct segs; [|by apply elem_of_nil in Hu]. apply elem_of_concat in Hu as (us & Hu & Hus).
    apply list_elem_of_fmap in Hus as (seg & -> & _). by eapply segment_units_ok.
  - by eapply single_units_ok.
Qed.

Lemma commit_row_wf a p x :
  pass_wf p → offer_ok p x → pass_wf (commit_row a p x) ∧ kept_by p (commit_row a p x).
Proof.
  intros W Ho. destruct x as [i [b e]]. unfold commit_row. case_bool_decide as Hrep; [done|].
  destruct Ho as [?|(r & Hr & Hn & Hj)]; [done|]. destruct a.
  - split; [|apply accept_kept]. eapply accept_new; [done..| |done].
    destruct (new_row p i r W Hr) as (v & Hv & E). rewrite E. simpl in *. rewrite E in Hrep.
    destruct (verdict v) eqn:Ev; [done|done|]. apply (pw_skip p W i r v Hr Hv) in Ev. congruence.
  - split; [eapply pass_wf_core; [apply reject_core|done]|apply same_core_kept, reject_core].
Qed.

#[global] Instance kept_by_preorder : PreOrder kept_by.
Proof. split; [by split|]. intros p q r [H1 H2] [H3 H4]. split; [auto|congruence]. Qed.

Lemma commit_rows_wf a l p :
  pass_wf p → (∀ x, x ∈ l → offer_ok p x) → pass_wf (foldl (commit_row a) p l) ∧ kept_by p (foldl (commit_row a) p l).
Proof.
  revert p. induction l as [|x l IH]; intros p W Ho; simpl; [done|].
  destruct (commit_row_wf a p x) as [W' K]; [done|apply Ho; by left|].
  destruct (IH (commit_row a p x) W') as [W'' K'].
  - intros y Hy. eapply offer_ok_kept; [done|]. apply Ho. by right.
  - split; [done|by etrans].
Qed.

Lemma commit_units_wf l p :
  pass_wf p → (∀ u f x, (u, f) ∈ l → x ∈ un_map u → offer_ok p x) → pass_wf (foldl commit_unit p l).
Proof.
  revert p. induction l as [|[u f] l IH]; intros p W Ho; simpl; [done|].
  destruct (commit_rows_wf f (un_map u) p) as [W' K]; [done|intros x; apply (Ho u f); by left|].
  apply IH; [done|]. intros v g x Hv Hx. eapply offer_ok_kept; [exact K|].
  apply (Ho v g); [by right|done].
Qed.

(** Collecting the options of a weak pass changes no verdict. *)
Lemma weak_collect segs p :
  pass_wf p →
  let x := foldl (λ x ir, weak_row segs ir.1 ir.2 x) (p, []) (zip (seq 0 (length view)) view) in
  same_core p x.1 ∧ offers_ok p x.2.
Proof.
  intros W. apply (view_foldl (λ x : pass * option_list, same_core p x.1 ∧ offers_ok p x.2)).
  - intros i r x Hr [S Ho]. by apply weak_row_ok.
  - split; [done|]. by intros i b e ?%elem_of_nil.
Qed.

Lemma weak_wf segs p : pass_wf p → pass_wf (weak segs p).
Proof.
  intros W. unfold weak. pose proof (weak_collect segs p W) as Hx.
  destruct (foldl (λ x ir, weak_row segs ir.1 ir.2 x) (p, []) (zip (seq 0 (length view)) view)) as [q opts].
  destruct Hx as [S Ho]. simpl in S, Ho. apply commit_units_wf; [by eapply pass_wf_core|].
  intros u f x Hin Hx. eapply offer_ok_kept; [by apply same_core_kept|].
  eapply weak_units_ok; [done..| |done]. by eapply elem_of_zip_l.
Qed.

(** ** Discovery and finish *)

Lemma foldl_rel {A B} (R : A → A → Prop) `{!PreOrder R} (f : A → B → A) l x :
  (∀ y b, R y (f y b)) → R x (foldl f x l).
Proof.
  intros Hf. revert x. induction l as [|b l IH]; intros x; simpl; [done|]. etrans; [apply Hf|apply IH].
Qed.

Lemma discover_record_core i r rc p : same_core p (discover_record i r rc p).
Proof. unfold discover_record. repeat case_match; auto with same_core; done. Qed.

Lemma discover_row_core i r p : same_core p (discover_row i r p).
Proof.
  unfold discover_row. destruct (_ || _); [done|].
  assert (∀ rcs q, same_core q (discover_records i r rcs q)) as G.
  { induction rcs as [|rc rcs IH]; intros q; simpl; [done|].
    etrans; [apply (discover_record_core i r rc)|]. by case_bool_decide. }
  etrans; [apply G|]. case_bool_decide; [|done].
  generalize (reverse (assoc (row_identity r) (s_by_digest snap))) as bs.
  induction bs as [|b bs IH]; simpl; [done|]. by case_match; [apply defer_core|].
Qed.

Lemma discovery_core p : same_core p (discovery p).
Proof. unfold discovery, for_rows. apply foldl_rel; [apply _|]. intros q x. apply discover_row_core. Qed.

Lemma cuts_wf l p : pass_wf p → pass_wf (foldl (λ p i, cut i p) p l).
Proof. revert p. induction l as [|i l IH]; intros p W; simpl; [done|]. by apply IH, cut_wf. Qed.

Lemma cut_segments_wf segs p : pass_wf p → pass_wf (cut_segments segs p).1.
Proof.
  revert p. induction segs as [|[start is_] segs IH]; intros p W; simpl; [done|].
  destruct (incomplete p is_); [|by apply IH].
  specialize (IH _ (cuts_wf is_ p W)). by destruct (cut_segments segs _).
Qed.

Lemma cut_run_wf cs p : pass_wf p → pass_wf (cut_run cs p).
Proof.
  intros W. unfold cut_run. destruct (the_run p); [|done]. case_match; [|done].
  by apply set_run_wf, cuts_wf.
Qed.

Lemma requeue_first_core i p : same_core p (requeue_first i p).
Proof. unfold requeue_first. case_match; [|done]. by constructor. Qed.

Lemma take_a5_core ts i r p offs : same_core p (take_a5 ts i r (p, offs)).1.
Proof. unfold take_a5. repeat case_match; simpl; auto with same_core; done. Qed.

Lemma take_h4_core i r p : same_core p (take_h4 i r p).
Proof. unfold take_h4. repeat case_match; auto with same_core; done. Qed.

Lemma explain_core i r p : same_core p (explain i r p).
Proof.
  unfold explain. etrans; [|destruct (_ || _); [|done]; by apply update_row_core].
  destruct (first p !! i); [|done]. apply update_row_core. intros v. by repeat case_match.
Qed.

Lemma finish_new_core i r ts st : same_core (f_pass st) (f_pass (finish_new i r ts st)).
Proof.
  unfold finish_new. destruct (take_a5 ts i r (requeue_first i (f_pass st), f_offsets st)) as [p offs] eqn:E.
  assert (same_core (f_pass st) p) as S.
  { etrans; [apply (requeue_first_core i)|].
    replace p with (take_a5 ts i r (requeue_first i (f_pass st), f_offsets st)).1 by by rewrite E.
    apply take_a5_core. }
  repeat case_match; simpl; by (etrans; [exact S|etrans; [apply take_h4_core|apply explain_core]]).
Qed.

Lemma finish_replay_pass r v st : f_pass (finish_replay r v st) = f_pass st.
Proof. unfold finish_replay. repeat case_match; done. Qed.

Lemma finish_row_core ts st x : same_core (f_pass st) (f_pass (finish_row ts x.1 x.2 st)).
Proof.
  unfold finish_row. destruct (verdict (verdict_at (f_pass st) x.1)); simpl.
  - apply finish_new_core.
  - by rewrite finish_replay_pass.
  - done.
Qed.

Lemma finish_rows_core ts l st :
  same_core (f_pass st) (f_pass (foldl (λ st x, finish_row ts x.1 x.2 st) st l)).
Proof.
  revert st. induction l as [|x l IH]; intros st; simpl; [done|]. etrans; [apply (finish_row_core ts)|apply IH].
Qed.

Lemma finish_core p :
  same_core (cut_run (cut_segments segments p).2 (cut_segments segments p).1) (finish p).1.
Proof.
  unfold finish. destruct (cut_segments segments p) as [q cs]. simpl.
  match goal with |- same_core _ (f_pass (foldl _ ?st _)) => apply (finish_rows_core _ _ st) end.
Qed.

Lemma finish_wf p : pass_wf p → pass_wf (finish p).1.
Proof. intros W. eapply pass_wf_core; [apply finish_core|]. by apply cut_run_wf, cut_segments_wf. Qed.

(** The pass behind a classification. *)
Lemma execute_wf c :
  execute = Ok c → ∃ p, pass_wf p ∧ c_rows c = rows p ∧ c_head c = the_head p.
Proof.
  unfold execute. intros (p & Hp & E)%rbind_Ok.
  apply head_wf in Hp; [|done]. destruct (finish _) as [q w] eqn:Ef. injection E as <-. exists q. split; [|done].
  replace q with (finish (discovery (weak true (weak false (strong p))))).1 by by rewrite Ef.
  apply finish_wf. eapply pass_wf_core; [apply discovery_core|]. by apply weak_wf, weak_wf, strong_wf.
Qed.

(** ** Segments *)

Definition replayed (p : pass) (i : nat) : Prop := verdict (verdict_at p i) = Replay.

(** Replayed whole or not at all. *)
Definition whole (p : pass) (is_ : list nat) : Prop :=
  (∀ i, i ∈ is_ → replayed p i) ∨ (∀ i, i ∈ is_ → ¬ replayed p i).

Lemma cut_replayed i j p : pass_wf p → replayed (cut i p) j ↔ i ≠ j ∧ replayed p j.
Proof.
  intros W. unfold cut, replayed. destruct (rows p !! i) as [v|] eqn:Hv.
  - destruct (verdict v) eqn:Ev.
    1, 3: split; [|by intros [_ ?]]; intros R; split; [|done]; intros <-; unfold verdict_at in R;
      rewrite Hv in R; simpl in R; congruence.
    destruct (pw_used p W i v Hv Ev) as (t & -> & _). unfold verdict_at. simpl.
    replace (rows (set_first_default i t (set_used (filter (λ u, u ≠ t) (used p)) p))) with (rows p)
      by (unfold set_first_default; by destruct (first _ !! i)).
    destruct (decide (i = j)) as [<-|Hne].
    + rewrite list_lookup_insert_eq by (by eapply lookup_lt_Some). simpl. naive_solver.
    + rewrite list_lookup_insert_ne by done. naive_solver.
  - split; [|by intros [_ ?]]. intros R. split; [|done]. intros <-. unfold verdict_at in R. by rewrite Hv in R.
Qed.

Lemma cuts_replayed l j p : pass_wf p → replayed (foldl (λ p i, cut i p) p l) j ↔ j ∉ l ∧ replayed p j.
Proof.
  revert p. induction l as [|i l IH]; intros p W; simpl.
  - split; [intros; split; [apply not_elem_of_nil|done]|by intros [_ ?]].
  - rewrite IH by (by apply cut_wf). rewrite cut_replayed, not_elem_of_cons by done. naive_solver.
Qed.

Lemma cut_run_unchanged i p : the_run (cut i p) = the_run p.
Proof.
  unfold cut. repeat case_match; try done. simpl. unfold set_first_default. by case_match.
Qed.

Lemma cuts_run l p : the_run (foldl (λ p i, cut i p) p l) = the_run p.
Proof. revert p. induction l as [|i l IH]; intros p; simpl; [done|]. by rewrite IH, cut_run_unchanged. Qed.

Lemma cut_segments_run segs p : the_run (cut_segments segs p).1 = the_run p.
Proof.
  revert p. induction segs as [|[start is_] segs IH]; intros p; simpl; [done|].
  destruct (incomplete p is_); [|apply IH]. specialize (IH (foldl (λ p i, cut i p) p is_)).
  rewrite cuts_run in IH. by destruct (cut_segments segs _).
Qed.

Lemma cut_segments_frame segs p j :
  pass_wf p → (∀ s is_, (s, is_) ∈ segs → j ∉ is_) → replayed (cut_segments segs p).1 j ↔ replayed p j.
Proof.
  revert p. induction segs as [|[start is_] segs IH]; intros p W Hj; simpl; [done|].
  assert (∀ q, pass_wf q → replayed (cut_segments segs q).1 j ↔ replayed q j) as IH'.
  { intros q Wq. apply IH; [done|]. intros s is' Hin. apply (Hj s). by right. }
  destruct (incomplete p is_); [|by apply IH'].
  specialize (IH' _ (cuts_wf is_ p W)). destruct (cut_segments segs _) as [q cs]. simpl in *.
  rewrite IH', cuts_replayed by done. assert (j ∉ is_) by (apply (Hj start); by left). naive_solver.
Qed.

Lemma cut_segments_whole segs p s is_ :
  pass_wf p → NoDup segs.*1 → (∀ s is_, (s, is_) ∈ segs → is_ = segment_rows s) →
  (s, is_) ∈ segs → whole (cut_segments segs p).1 is_.
Proof.
  intros W Hnd Hsegs. revert p W. induction segs as [|[s0 is0] segs IH]; intros p W Hin; [by apply elem_of_nil in Hin|].
  apply NoDup_cons in Hnd as [Hs0 Hnd]. specialize (IH Hnd (λ s is_ Hin, Hsegs s is_ (list_elem_of_further _ _ _ Hin))).
  assert (is0 = segment_rows s0) as E0 by (apply Hsegs; by left).
  apply elem_of_cons in Hin as [[= -> ->]|Hin].
  - assert (∀ j, j ∈ is0 → ∀ s is_, (s, is_) ∈ segs → j ∉ is_) as Hdis.
    { intros j Hj s is_ Hin Hj'. assert (is_ = segment_rows s) as E by (apply Hsegs; by right).
      rewrite E0 in Hj. rewrite E in Hj'. apply list_elem_of_filter in Hj as [Hj _], Hj' as [Hj' _].
      assert (s = s0) as -> by congruence. apply Hs0. by apply (list_elem_of_fmap_2 fst) in Hin. }
    simpl. destruct (incomplete p is0) eqn:Ei.
    + right. intros j Hj. destruct (cut_segments segs _) as [q cs] eqn:Eq. simpl.
      replace q with (cut_segments segs (foldl (λ p i, cut i p) p is0)).1 by by rewrite Eq.
      rewrite cut_segments_frame by (first [by apply cuts_wf|by apply Hdis]). rewrite cuts_replayed by done. naive_solver.
    + left. intros j Hj. rewrite cut_segments_frame by (first [done|by apply Hdis]).
      unfold incomplete in Ei. rewrite <-not_true_iff_false, existsb_exists in Ei.
      unfold replayed. apply dec_stable. intros Hn. apply Ei. exists j. split; [by apply list_elem_of_In|].
      by rewrite bool_decide_eq_false_2.
  - simpl. destruct (incomplete p is0); [|by apply IH].
    specialize (IH _ (cuts_wf is0 p W) Hin). by destruct (cut_segments segs _).
Qed.

Lemma dedup_first_NoDup seen l : NoDup (dedup_first seen l) ∧ ∀ x, x ∈ dedup_first seen l → x ∉ seen.
Proof.
  revert seen. induction l as [|y l IH]; intros seen; simpl.
  - split; [constructor|by intros x ?%elem_of_nil].
  - case_bool_decide as Hy; [apply IH|]. destruct (IH (y :: seen)) as [IH1 IH2]. split.
    + constructor; [|done]. intros Hin. apply (IH2 y Hin). by left.
    + intros x [->|Hx]%elem_of_cons; [done|]. intros Hs. apply (IH2 x Hx). by right.
Qed.

Lemma segments_NoDup : NoDup segments.*1.
Proof.
  unfold segments. rewrite <-list_fmap_compose.
  erewrite list_fmap_ext; [rewrite list_fmap_id; apply dedup_first_NoDup|done].
Qed.

Lemma segments_rows s is_ : (s, is_) ∈ segments → is_ = segment_rows s.
Proof. intros (s' & [= -> ->] & _)%list_elem_of_fmap. done. Qed.

(** A cut of the run shortens it. *)
Lemma cut_run_run cs p : the_run (cut_run cs p) = the_run p → cut_run cs p = p.
Proof.
  unfold cut_run. destruct (the_run p) as [r|] eqn:Er; [|done].
  destruct (existsb _ _) eqn:Ee; [|done]. simpl. apply existsb_exists in Ee as (s & Hs & Hlt%bool_decide_eq_true).
  case_bool_decide; [|done]. intros [= Hk].
  assert (∀ l n, s ∈ l → (foldr Nat.min n l <= s)%nat) as G.
  { induction l as [|x l IH]; intros n; [by intros ?%elem_of_nil|].
    intros [->|Hx]%elem_of_cons; simpl; [lia|]. specialize (IH n Hx). lia. }
  apply list_elem_of_In in Hs. specialize (G _ (run_i r + run_k r)%nat Hs). apply (f_equal run_k) in Hk. simpl in Hk. lia.
Qed.

Lemma finish_segments p s is_ :
  pass_wf p → the_run (finish p).1 = the_run p → (s, is_) ∈ segments → whole (finish p).1 is_.
Proof.
  intros W Hrun Hin. pose proof (finish_core p) as S.
  rewrite (sc_run _ _ S), <-(cut_segments_run segments p) in Hrun. rewrite (cut_run_run _ _ Hrun) in S.
  destruct (cut_segments_whole segments p s is_ W segments_NoDup segments_rows Hin) as [Hw|Hw].
  - left. intros i Hi. unfold replayed. rewrite (same_core_new _ _ _ S). by apply Hw.
  - right. intros i Hi. unfold replayed. rewrite (same_core_new _ _ _ S). by apply Hw.
Qed.
End safety.
