(* ===== verification/ClassifierOrder.v ===== *)
(** The order test of a weak pass (ingest_classifier._lis_lengths and the level
    count of [_Pass.weak]): patience sorting computes the longest increasing
    chains, and the accepted units are exactly those on every longest one. *)

From S2P Require Import Prelude LedgerCodec LedgerOrdinals LedgerStore Classifier.
From stdpp Require Import options.

#[local] Open Scope Z_scope.

(** Position [j] stands before [k] with a smaller value. *)
Definition below (vs : list Z) (j k : nat) : Prop :=
  (j < k)%nat ∧ ∃ a b, vs !! j = Some a ∧ vs !! k = Some b ∧ a < b.

(** The lengths of the longest chains that end at each position: more than at
    any position below, and one more than at some, or one. *)
Record lengths_ok (vs : list Z) (ls : list nat) : Prop := {
  lo_length : length ls = length vs;
  lo_below : ∀ j k m n, below vs j k → ls !! j = Some m → ls !! k = Some n → (m < n)%nat;
  lo_step : ∀ k n, ls !! k = Some n → n = 1%nat ∨ ∃ j, below vs j k ∧ ls !! j = Some (pred n) ∧ (1 < n)%nat;
  lo_pos : ∀ k n, ls !! k = Some n → (1 <= n)%nat
}.

Definition increasing (l : list Z) : Prop :=
  ∀ m n a b, (m < n)%nat → l !! m = Some a → l !! n = Some b → a < b.

(** The smallest last values of chains, by length. *)
Record tails_ok (vs : list Z) (ls : list nat) (tails : list Z) : Prop := {
  to_sorted : increasing tails;
  to_last : ∀ n t, tails !! n = Some t → ∃ j, ls !! j = Some (S n) ∧ vs !! j = Some t;
  to_least : ∀ j n v, ls !! j = Some n → vs !! j = Some v → ∃ t, tails !! pred n = Some t ∧ t <= v
}.

Lemma bisect_left_below l x i y :
  increasing l → l !! i = Some y → (y < x ↔ (i < bisect_left l x)%nat).
Proof.
  revert i. induction l as [|z l IH]; intros i Hs; simpl; [done|].
  assert (increasing l) as Hl by (intros m n a b Hmn; apply (Hs (S m) (S n)); lia).
  destruct i as [|i]; simpl.
  - intros [= ->]. case_bool_decide; split; intros; lia.
  - intros Hy. assert (z < y) by (apply (Hs 0%nat (S i)); [lia|done|done]).
    case_bool_decide; [rewrite (IH i Hl Hy); lia|split; intros; lia].
Qed.

Lemma below_snoc_old vs v j k :
  (k < length vs)%nat → below (vs ++ [v]) j k ↔ below vs j k.
Proof.
  intros Hk. unfold below. split; intros [Hjk (a & b & Ha & Hb & Hab)]; split; try done; exists a, b.
  - by rewrite !lookup_app_l in * by lia.
  - by rewrite !lookup_app_l by lia.
Qed.

Lemma below_snoc_new vs v j : below (vs ++ [v]) j (length vs) ↔ ∃ a, vs !! j = Some a ∧ a < v.
Proof.
  unfold below. split.
  - intros [Hj (a & b & Ha & Hb & Hab)]. rewrite lookup_app_l in Ha by done.
    rewrite lookup_app_r, Nat.sub_diag in Hb by done. injection Hb as <-. by exists a.
  - intros (a & Ha & Hav). pose proof (lookup_lt_Some _ _ _ Ha). split; [done|]. exists a, v.
    rewrite lookup_app_l, lookup_app_r, Nat.sub_diag by lia. done.
Qed.

Lemma bisect_full l x : bisect_left l x ≠ length l → is_Some (l !! bisect_left l x).
Proof. intros. apply lookup_lt_is_Some. pose proof (bisect_left_le l x). lia. Qed.

(** One step of patience sorting. *)
Lemma lis_step_tails vs ls tails v :
  lengths_ok vs ls → tails_ok vs ls tails →
  tails_ok (vs ++ [v]) (ls ++ [(lis_step tails v).2]) (lis_step tails v).1.
Proof.
  intros Hl [Ts Tl Tm]. unfold lis_step. cbn [fst snd]. set (i := bisect_left tails v).
  assert (i <= length tails)%nat as Hi by apply bisect_left_le.
  set (tails' := if bool_decide (i = length tails) then _ else _).
  assert (∀ n, tails' !! n = if decide (n = i) then Some v else tails !! n) as Hn.
  { intros n. unfold tails'. case_bool_decide as E; destruct (decide (n = i)) as [->|Hne].
    - rewrite E, lookup_app_r, Nat.sub_diag by done. done.
    - destruct (decide (n < length tails)%nat); [by rewrite lookup_app_l|].
      rewrite !lookup_ge_None_2; [done|lia|rewrite length_app; simpl; lia].
    - by rewrite list_lookup_insert_eq by lia.
    - by rewrite list_lookup_insert_ne. }
  assert (∀ n, (n < length vs)%nat → (ls ++ [S i]) !! n = ls !! n ∧ (vs ++ [v]) !! n = vs !! n) as Hold.
  { intros n Hlt. rewrite !lookup_app_l by (rewrite ?(lo_length _ _ Hl); done). done. }
  assert ((ls ++ [S i]) !! length vs = Some (S i) ∧ (vs ++ [v]) !! length vs = Some v) as [Hnl Hnv].
  { rewrite <-(lo_length _ _ Hl) at 1. rewrite !lookup_app_r, !Nat.sub_diag by done. done. }
  assert (∀ n t, tails !! n = Some t → t < v ↔ (n < i)%nat) as Hb by (intros n t; by apply bisect_left_below).
  constructor.
  - intros m n a b Hmn. rewrite !Hn. destruct (decide (m = i)) as [->|Hm], (decide (n = i)) as [->|Hn']; try lia.
    + intros [= <-] Hy. destruct (lookup_lt_is_Some_2 tails i) as [t Ht]; [apply lookup_lt_Some in Hy; lia|].
      pose proof (Ts i n t b Hmn Ht Hy). pose proof (Hb i t Ht). lia.
    + intros Ha [= <-]. by apply (Hb m a Ha).
    + by apply Ts.
  - intros n t. rewrite Hn. destruct (decide (n = i)) as [->|Hne].
    + intros [= <-]. by exists (length vs).
    + intros (j & Hj & Hv)%Tl. exists j. pose proof (lookup_lt_Some _ _ _ Hv) as Hlt.
      destruct (Hold j Hlt) as [-> ->]. done.
  - intros j n w Hj Hw. rewrite Hn. destruct (decide (j < length vs)%nat) as [Hlt|Hge].
    + destruct (Hold j Hlt) as [E1 E2]. rewrite E1 in Hj. rewrite E2 in Hw.
      destruct (Tm j n w Hj Hw) as (t & Ht & Htw). destruct (decide (pred n = i)) as [E|]; [|by exists t].
      exists v. split; [done|]. pose proof (Hb _ _ Ht). lia.
    + assert (j = length vs) as -> by (apply lookup_lt_Some in Hw; rewrite length_app in Hw; simpl in Hw; lia).
      rewrite Hnl in Hj. rewrite Hnv in Hw. injection Hj as <-. injection Hw as <-. simpl.
      rewrite decide_True by done. by exists v.
Qed.

Lemma lis_step_lengths vs ls tails v :
  lengths_ok vs ls → tails_ok vs ls tails → lengths_ok (vs ++ [v]) (ls ++ [(lis_step tails v).2]).
Proof.
  intros [L1 L2 L3 L4] [Ts Tl Tm]. unfold lis_step. cbn [fst snd]. set (i := bisect_left tails v).
  assert (∀ n t, tails !! n = Some t → t < v ↔ (n < i)%nat) as Hb by (intros n t; by apply bisect_left_below).
  assert (∀ k n, (ls ++ [S i]) !! k = Some n →
    (k < length vs)%nat ∧ ls !! k = Some n ∨ k = length vs ∧ n = S i) as Hk.
  { intros k n Hk. destruct (decide (k < length vs)%nat) as [Hlt|Hge].
    - left. split; [done|]. by rewrite lookup_app_l in Hk by lia.
    - right. apply lookup_lt_Some in Hk as Hlt. rewrite length_app in Hlt. simpl in Hlt.
      assert (k = length ls) as -> by lia. rewrite lookup_app_r, Nat.sub_diag in Hk by done.
      injection Hk as <-. by rewrite L1. }
  assert (∀ j n, ls !! j = Some n → (ls ++ [S i]) !! j = Some n) as Hup.
  { intros j n Hj. by apply lookup_app_l_Some. }
  constructor.
  - rewrite !length_app. simpl. lia.
  - intros j k m n Hjk Hm Hn. apply Hk in Hn as [[Hlt Hn]|[-> ->]].
    + rewrite below_snoc_old in Hjk by done. apply Hk in Hm as [[_ Hm]|[-> _]]; [by eapply L2|].
      destruct Hjk. lia.
    + apply below_snoc_new in Hjk as (a & Ha & Hav). pose proof (lookup_lt_Some _ _ _ Ha).
      apply Hk in Hm as [[_ Hm]|[-> _]]; [|lia]. destruct (Tm j m a Hm Ha) as (t & Ht & Hta).
      pose proof (Hb _ _ Ht). pose proof (L4 _ _ Hm). lia.
  - intros k n Hn. apply Hk in Hn as [[Hlt Hn]|[-> ->]].
    + destruct (L3 k n Hn) as [->|(j & Hjk & Hj & Hlt')]; [by left|]. right. exists j.
      split; [by apply below_snoc_old|split; [by apply Hup|done]].
    + destruct i as [|i'] eqn:Ei; [by left|]. right.
      destruct (lookup_lt_is_Some_2 tails i') as [t Ht]; [pose proof (bisect_left_le tails v); lia|].
      destruct (Tl i' t Ht) as (j & Hj & Hv). exists j. split; [|split; [by apply Hup|lia]].
      apply below_snoc_new. exists t. split; [done|]. apply (Hb i' t Ht). lia.
  - intros k n Hn. apply Hk in Hn as [[_ Hn]|[_ ->]]; [by eapply L4|lia].
Qed.

Lemma lis_from_lengths vs ls tails rest :
  lengths_ok vs ls → tails_ok vs ls tails → lengths_ok (vs ++ rest) (ls ++ lis_from tails rest).
Proof.
  revert vs ls tails. induction rest as [|v rest IH]; intros vs ls tails Hl Ht; cbn [lis_from]; [by rewrite !app_nil_r|].
  pose proof (lis_step_lengths vs ls tails v Hl Ht) as Hl'. pose proof (lis_step_tails vs ls tails v Hl Ht) as Ht'.
  destruct (lis_step tails v) as [tails' n]. simpl in *. specialize (IH _ _ _ Hl' Ht').
  rewrite <-!app_assoc in IH. exact IH.
Qed.

Lemma lis_lengths_spec vs : lengths_ok vs (lis_lengths vs).
Proof.
  apply (lis_from_lengths [] [] []); constructor; try done.
Qed.

(** ** The mirror image: chains that start at a position *)

Record starts_ok (vs : list Z) (ls : list nat) : Prop := {
  so_length : length ls = length vs;
  so_below : ∀ j k m n, below vs j k → ls !! j = Some m → ls !! k = Some n → (n < m)%nat;
  so_step : ∀ j m, ls !! j = Some m → m = 1%nat ∨ ∃ k, below vs j k ∧ ls !! k = Some (pred m) ∧ (1 < m)%nat;
  so_pos : ∀ k n, ls !! k = Some n → (1 <= n)%nat
}.

Definition mirror (vs : list Z) : list Z := map Z.opp (reverse vs).

Lemma mirror_lookup vs i : (i < length vs)%nat → mirror vs !! i = Z.opp <$> vs !! (length vs - S i)%nat.
Proof. intros Hi. unfold mirror. rewrite list_lookup_fmap. by rewrite reverse_lookup. Qed.

Lemma below_mirror vs j k :
  (j < length vs)%nat → (k < length vs)%nat →
  below (mirror vs) j k ↔ below vs (length vs - S k)%nat (length vs - S j)%nat.
Proof.
  intros Hj Hk. unfold below. rewrite !mirror_lookup by done. split.
  - intros [Hjk (a & b & Ha & Hb & Hab)]. split; [lia|].
    apply fmap_Some in Ha as (a' & Ha & ->), Hb as (b' & Hb & ->). exists b', a'. split_and!; [done|done|lia].
  - intros [Hjk (a & b & Ha & Hb & Hab)]. split; [lia|]. rewrite Ha, Hb. exists (-b), (-a). split_and!; [done|done|lia].
Qed.

Lemma below_lt vs j k : below vs j k → (j < length vs)%nat ∧ (k < length vs)%nat.
Proof. intros [_ (a & b & Ha & Hb & _)]. by apply lookup_lt_Some in Ha, Hb. Qed.

Lemma mirror_lengths vs : length (mirror vs) = length vs.
Proof. unfold mirror. by rewrite length_map, length_reverse. Qed.

Lemma starts_spec vs : starts_ok vs (reverse (lis_lengths (mirror vs))).
Proof.
  destruct (lis_lengths_spec (mirror vs)) as [L1 L2 L3 L4]. rewrite mirror_lengths in L1.
  set (ls := lis_lengths (mirror vs)) in *.
  assert (∀ i n, reverse ls !! i = Some n → (i < length vs)%nat ∧ ls !! (length vs - S i)%nat = Some n) as Hrev.
  { intros i n Hi. apply lookup_lt_Some in Hi as Hlt. rewrite length_reverse, L1 in Hlt. split; [done|].
    rewrite reverse_lookup, L1 in Hi by lia. done. }
  constructor.
  - by rewrite length_reverse.
  - intros j k m n Hjk [Hj Hm]%Hrev [Hk Hn]%Hrev. eapply L2; [|exact Hn|exact Hm].
    apply below_mirror; [lia|lia|]. by replace (length vs - S (length vs - S j))%nat with j by lia;
      replace (length vs - S (length vs - S k))%nat with k by lia.
  - intros j m [Hj Hm]%Hrev. destruct (L3 _ _ Hm) as [->|(i & Hi & Hli & Hlt)]; [by left|]. right.
    pose proof (below_lt _ _ _ Hi) as [Hi1 _]. rewrite mirror_lengths in Hi1.
    apply below_mirror in Hi; [|lia|lia]. replace (length vs - S (length vs - S j))%nat with j in Hi by lia.
    exists (length vs - S i)%nat. split; [done|]. split; [|done].
    rewrite reverse_lookup, L1 by lia. by replace (length vs - S (length vs - S i))%nat with i by lia.
  - intros k n [_ Hn]%Hrev. by eapply L4.
Qed.

(** ** Longest chains *)

Definition chain (vs : list Z) (c : list nat) : Prop :=
  StronglySorted (below vs) c ∧ Forall (λ k, (k < length vs)%nat) c.

Definition longest (vs : list Z) (c : list nat) : Prop :=
  chain vs c ∧ ∀ c', chain vs c' → (length c' <= length c)%nat.

#[global] Instance below_trans vs : Transitive (below vs).
Proof.
  intros i j k [H1 (a & b & Ha & Hb & Hab)] [H2 (b' & c & Hb' & Hc & Hbc)].
  split; [lia|]. exists a, c. assert (b' = b) as -> by congruence. split_and!; [done|done|lia].
Qed.

Lemma sorted_index {A} (R : A → A → Prop) l i j x y :
  StronglySorted R l → (i < j)%nat → l !! i = Some x → l !! j = Some y → R x y.
Proof.
  intros Hs. revert i j. induction Hs as [|z l Hl IH HF]; intros i j Hij; [done|].
  destruct j as [|j]; [lia|]. destruct i as [|i]; simpl.
  - intros [= ->] Hy. rewrite Forall_forall in HF. apply HF. by eapply list_elem_of_lookup_2.
  - apply IH. lia.
Qed.

Section chains.
Context (vs : list Z) (f g : list nat) (Hf : lengths_ok vs f) (Hg : starts_ok vs g).

Lemma rank_at k : (k < length vs)%nat → is_Some (f !! k) ∧ is_Some (g !! k).
Proof using Hf Hg. intros Hk. split; apply lookup_lt_is_Some; by rewrite ?(lo_length _ _ Hf), ?(so_length _ _ Hg). Qed.

Lemma chain_ranks c p k m n :
  chain vs c → c !! p = Some k → f !! k = Some m → g !! k = Some n →
  (p < m)%nat ∧ (length c - p <= n)%nat.
Proof using Hf Hg.
  intros [Hs HF] Hp Hm Hn. rewrite Forall_forall in HF.
  assert (∀ q j, c !! q = Some j → is_Some (f !! j) ∧ is_Some (g !! j)) as Hr.
  { intros q j Hj. apply rank_at, HF. by eapply list_elem_of_lookup_2. }
  split.
  - clear n Hn. revert k m Hp Hm. induction p as [|p IH]; intros k m Hp Hm; [pose proof (lo_pos _ _ Hf _ _ Hm); lia|].
    destruct (lookup_lt_is_Some_2 c p) as [j Hj]; [apply lookup_lt_Some in Hp; lia|].
    destruct (Hr p j Hj) as [[m' Hm'] _]. specialize (IH j m' Hj Hm').
    assert (below vs j k) as Hjk by (eapply (sorted_index _ c p (S p)); [done|lia|done|done]).
    pose proof (lo_below _ _ Hf _ _ _ _ Hjk Hm' Hm). lia.
  - remember (length c - p)%nat as d eqn:Ed. clear m Hm. revert p k n Hp Hn Ed. induction d as [|d IH]; intros p k n Hp Hn Ed; [lia|].
    destruct d as [|d]; [pose proof (so_pos _ _ Hg _ _ Hn); lia|].
    destruct (lookup_lt_is_Some_2 c (S p)) as [j Hj]; [lia|]. destruct (Hr _ j Hj) as [_ [n' Hn']].
    specialize (IH (S p) j n' Hj Hn' ltac:(lia)).
    assert (below vs k j) as Hkj by (eapply (sorted_index _ c p (S p)); [done|lia|done|done]).
    pose proof (so_below _ _ Hg _ _ _ _ Hkj Hn Hn'). lia.
Qed.

Lemma chain_to k m : f !! k = Some m → ∃ c, chain vs (c ++ [k]) ∧ S (length c) = m.
Proof using Hf.
  revert k. induction m as [|m IH]; intros k Hk; [pose proof (lo_pos _ _ Hf _ _ Hk); lia|].
  assert (k < length vs)%nat as Hlt by (rewrite <-(lo_length _ _ Hf); by eapply lookup_lt_Some).
  destruct (lo_step _ _ Hf _ _ Hk) as [[= ->]|(j & Hjk & Hj & _)].
  - exists []. split; [|done]. split; [repeat constructor|by repeat constructor].
  - destruct (IH j Hj) as (c & [Hs HF] & <-). exists (c ++ [j]). split; [|rewrite length_app; simpl; lia].
    split; [|apply Forall_app; split; [done|by constructor]].
    apply StronglySorted_app_2; [|done|repeat constructor].
    intros x y Hx ->%list_elem_of_singleton. apply elem_of_app in Hx as [Hx| ->%list_elem_of_singleton]; [|done].
    transitivity j; [|done]. apply StronglySorted_app in Hs as (Hs & _). apply Hs; [done|by apply list_elem_of_singleton].
Qed.

Lemma chain_from k m : g !! k = Some m → ∃ c, chain vs (k :: c) ∧ S (length c) = m.
Proof using Hg.
  revert k. induction m as [|m IH]; intros k Hk; [pose proof (so_pos _ _ Hg _ _ Hk); lia|].
  assert (k < length vs)%nat as Hlt by (rewrite <-(so_length _ _ Hg); by eapply lookup_lt_Some).
  destruct (so_step _ _ Hg _ _ Hk) as [[= ->]|(j & Hkj & Hj & _)].
  - exists []. split; [|done]. split; [repeat constructor|by repeat constructor].
  - destruct (IH j Hj) as (c & [Hs HF] & <-). exists (j :: c). split; [|done]. split; [|by constructor].
    constructor; [done|]. apply StronglySorted_inv in Hs as [_ Hs]. constructor; [done|].
    rewrite Forall_forall in *. intros y Hy. transitivity j; [done|by apply Hs].
Qed.

(** The longest chain through a position. *)
Lemma chain_through k m n :
  f !! k = Some m → g !! k = Some n → ∃ c, chain vs c ∧ c !! pred m = Some k ∧ S (length c) = (m + n)%nat.
Proof using Hf Hg.
  intros (c1 & [Hs1 HF1] & <-)%chain_to (c2 & [Hs2 HF2] & <-)%chain_from.
  exists (c1 ++ k :: c2). split; [|split; [|rewrite length_app; simpl; lia]].
  - apply StronglySorted_app in Hs1 as (Hs1 & Hs & _). apply Forall_app in HF1 as [HF1 _]. split; [|by apply Forall_app].
    apply StronglySorted_app_2; [|done|done]. intros x y Hx [->|Hy]%elem_of_cons; [apply Hs1; [done|by left]|].
    transitivity k; [apply Hs1; [done|by left]|]. apply StronglySorted_inv in Hs2 as [_ Hs2].
    rewrite Forall_forall in Hs2. by apply Hs2.
  - simpl. by rewrite lookup_app_r, Nat.sub_diag.
Qed.
End chains.

(** ** The flags of [weak] *)

Lemma filter_single {A} (P : A → Prop) `{!∀ x, Decision (P x)} (l : list A) i x :
  l !! i = Some x → P x →
  length (filter P l) = 1%nat ↔ ∀ j y, l !! j = Some y → P y → j = i.
Proof.
  intros Hi HP. assert (∀ l, length (filter P l) = 0%nat ↔ ∀ j y, l !! j = Some y → ¬ P y) as G0.
  { intros l'. split.
    - intros E j y Hj Hy. apply nil_length_inv in E. assert (y ∈ filter P l') as Hin.
      { apply list_elem_of_filter. split; [done|]. by eapply list_elem_of_lookup_2. }
      rewrite E in Hin. by apply elem_of_nil in Hin.
    - intros Hno. destruct (filter P l') as [|y l''] eqn:E; [done|].
      assert (y ∈ filter P l') as [Hy [j Hj]%list_elem_of_lookup]%list_elem_of_filter by (rewrite E; by left).
      by destruct (Hno j y Hj). }
  revert i Hi. induction l as [|z l IH]; intros i Hi; [done|]. destruct i as [|i]; simpl in Hi.
  - injection Hi as ->. rewrite filter_cons_True by done. simpl. split.
    + intros [= E] [|j] y; [done|]. intros Hj Hy. by destruct (proj1 (G0 l) E j y Hj).
    + intros Hu. f_equal. apply G0. intros j y Hj Hy. by specialize (Hu (S j) y Hj Hy).
  - rewrite filter_cons. destruct (decide (P z)) as [Hz|Hz]; simpl.
    + split.
      * intros [= E]. destruct (proj1 (G0 l) E i x Hi HP).
      * intros Hu. by specialize (Hu 0%nat z eq_refl Hz).
    + rewrite (IH i Hi). split.
      * intros Hu [|j] y; simpl; [by intros [= ->]|]. intros Hj Hy. f_equal. by eapply Hu.
      * intros Hu j y Hj Hy. specialize (Hu (S j) y Hj Hy). congruence.
Qed.

Lemma max_rank_ge l n : n ∈ l → (n <= foldr Nat.max 0 l)%nat.
Proof. induction l as [|m l IH]; [by intros ?%elem_of_nil|]. intros [->|Hn]%elem_of_cons; simpl; [lia|]. specialize (IH Hn). lia. Qed.

Lemma foldr_max_elem l : l ≠ [] → foldr Nat.max 0%nat l ∈ l.
Proof.
  induction l as [|m l IH]; [done|]. intros _. simpl. destruct l as [|m' l].
  - simpl. rewrite Nat.max_0_r. by left.
  - specialize (IH ltac:(done)). destruct (Nat.max_spec m (foldr Nat.max 0 (m' :: l)))%nat as [[_ ->]|[_ ->]];
      [by right|by left].
Qed.

Section flags.
Context (vs : list Z).

Abbreviation f := (lis_lengths vs).
Abbreviation g := (reverse (lis_lengths (mirror vs))).
Abbreviation L := (foldr Nat.max 0%nat f).

Lemma lis_ranks_lookup k m n : lis_ranks vs !! k = Some (m, n) ↔ f !! k = Some m ∧ g !! k = Some n.
Proof.
  unfold lis_ranks. change (map Z.opp (reverse vs)) with (mirror vs). rewrite lookup_zip_with_Some. naive_solver.
Qed.

Lemma lis_ranks_fst : (lis_ranks vs).*1 = f.
Proof.
  unfold lis_ranks. rewrite fst_zip; [done|]. change (map Z.opp (reverse vs)) with (mirror vs).
  by rewrite (lo_length _ _ (lis_lengths_spec vs)), (so_length _ _ (starts_spec vs)).
Qed.

Lemma rank_le k m : f !! k = Some m → (m <= L)%nat.
Proof. intros Hm. apply max_rank_ge. by eapply list_elem_of_lookup_2. Qed.

Lemma chain_le c : chain vs c → (length c <= L)%nat.
Proof.
  intros Hc. destruct (decide (length c = 0%nat)) as [|Hne]; [lia|].
  destruct (lookup_lt_is_Some_2 c (pred (length c))) as [k Hk]; [lia|].
  assert (k < length vs)%nat as Hlt.
  { destruct Hc as [_ HF]. rewrite Forall_forall in HF. apply HF. by eapply list_elem_of_lookup_2. }
  destruct (rank_at vs f g (lis_lengths_spec vs) (starts_spec vs) k Hlt) as [[m Hm] [n Hn]].
  destruct (chain_ranks vs f g (lis_lengths_spec vs) (starts_spec vs) c _ k m n Hc Hk Hm Hn).
  pose proof (rank_le k m Hm). lia.
Qed.

Lemma rank_sum k m n : f !! k = Some m → g !! k = Some n → (m + n <= S L)%nat.
Proof.
  intros Hm Hn. destruct (chain_through vs f g (lis_lengths_spec vs) (starts_spec vs) k m n Hm Hn) as (c & Hc & _ & <-).
  pose proof (chain_le c Hc). lia.
Qed.

Lemma longest_length c : longest vs c ↔ chain vs c ∧ length c = L.
Proof.
  split.
  - intros [Hc Hmax]. split; [done|]. pose proof (chain_le c Hc).
    destruct (decide (f = [])) as [E|Hne]; [rewrite E in *; simpl in *; lia|].
    pose proof (foldr_max_elem f Hne) as [k Hk]%list_elem_of_lookup.
    destruct (chain_to vs f (lis_lengths_spec vs) k _ Hk) as (c' & Hc' & E).
    specialize (Hmax _ Hc'). rewrite length_app in Hmax. simpl in Hmax. lia.
  - intros [Hc Hl]. split; [done|]. intros c' Hc'. rewrite Hl. by apply chain_le.
Qed.

Lemma longest_exists : ∃ c, longest vs c.
Proof.
  destruct (decide (f = [])) as [E|Hne].
  - exists []. apply longest_length. rewrite E. split; [|done]. split; constructor.
  - pose proof (foldr_max_elem f Hne) as [k Hk]%list_elem_of_lookup.
    destruct (chain_to vs f (lis_lengths_spec vs) k _ Hk) as (c & Hc & E).
    exists (c ++ [k]). apply longest_length. split; [done|]. rewrite length_app. simpl. lia.
Qed.

(** A position is on a longest chain. *)
Definition on_chain (k : nat) (m : nat) : Prop := ∃ n, f !! k = Some m ∧ g !! k = Some n ∧ (m + n = S L)%nat.

Lemma on_chain_of c p k : chain vs c → length c = L → c !! p = Some k → on_chain k (S p).
Proof.
  intros Hc Hl Hp. assert (k < length vs)%nat as Hlt.
  { destruct Hc as [_ HF]. rewrite Forall_forall in HF. apply HF. by eapply list_elem_of_lookup_2. }
  destruct (rank_at vs f g (lis_lengths_spec vs) (starts_spec vs) k Hlt) as [[m Hm] [n Hn]].
  destruct (chain_ranks vs f g (lis_lengths_spec vs) (starts_spec vs) c p k m n Hc Hp Hm Hn).
  pose proof (rank_sum k m n Hm Hn). pose proof (lookup_lt_Some _ _ _ Hp).
  exists n. assert (m = S p) as <- by lia. split_and!; [done|done|lia].
Qed.

(** The only position of its level lies on every longest chain. *)
Lemma only_level k m :
  on_chain k m → (∀ j, on_chain j m → j = k) ↔ ∀ c, longest vs c → k ∈ c.
Proof.
  intros (n & Hm & Hn & Hsum). pose proof (lo_pos _ _ (lis_lengths_spec vs) _ _ Hm) as Hm1.
  pose proof (so_pos _ _ (starts_spec vs) _ _ Hn). split.
  - intros Hu c [Hc Hl]%longest_length. destruct (lookup_lt_is_Some_2 c (pred m)) as [j Hj]; [lia|].
    pose proof (on_chain_of c _ j Hc Hl Hj) as Hjo. replace (S (pred m)) with m in Hjo by lia.
    rewrite <-(Hu j Hjo). by eapply list_elem_of_lookup_2.
  - intros Hall j (n' & Hm' & Hn' & Hsum').
    destruct (chain_through vs f g (lis_lengths_spec vs) (starts_spec vs) j m n' Hm' Hn') as (c & Hc & Hj & Hl).
    assert (length c = L) as HL by lia. pose proof (Hall c (proj2 (longest_length c) (conj Hc HL))) as [p Hp]%list_elem_of_lookup.
    destruct (on_chain_of c p k Hc HL Hp) as (n0 & Hm0 & _). assert (m = S p) as -> by congruence.
    simpl in Hj. congruence.
Qed.
End flags.

(** A flagged position is alone on its level of the longest chains. *)
Lemma chosen_flags_level vs k m :
  lis_lengths vs !! k = Some m →
  chosen_flags vs !! k = Some true ↔ on_chain vs k m ∧ ∀ j, on_chain vs j m → j = k.
Proof.
  intros Hm. unfold chosen_flags. rewrite list_lookup_fmap, lis_ranks_fst.
  set (on := λ x : nat * nat, bool_decide (x.1 + x.2 = S (foldr Nat.max 0%nat (lis_lengths vs)))%nat).
  assert (k < length vs)%nat as Hlt by (rewrite <-(lo_length _ _ (lis_lengths_spec vs)); by eapply lookup_lt_Some).
  destruct (rank_at vs _ _ (lis_lengths_spec vs) (starts_spec vs) k Hlt) as [_ [n Hn]].
  pose proof (proj2 (lis_ranks_lookup vs k m n) (conj Hm Hn)) as Hk. rewrite Hk. cbn [fmap option_fmap option_map fst].
  assert (∀ j a b, lis_ranks vs !! j = Some (a, b) → (on (a, b) = true ∧ a = m) ↔ on_chain vs j m) as Hon.
  { intros j a b [Ha Hb]%lis_ranks_lookup. unfold on, on_chain. rewrite bool_decide_eq_true. simpl. split.
    - intros [? ->]. by exists b.
    - intros (b' & ? & ? & ?). assert (a = m) as -> by congruence. assert (b = b') as -> by congruence. done. }
  split.
  - intros [= [Ho Hc%bool_decide_eq_true]%andb_true_iff]. assert (on_chain vs k m) as Hok by by apply (Hon k m n Hk).
    split; [done|]. intros j Hj. pose proof Hj as (b & Ha & Hb & _).
    pose proof (proj2 (lis_ranks_lookup vs j m b) (conj Ha Hb)) as Hjr.
    apply (proj1 (filter_single (λ y, on y = true ∧ y.1 = m) (lis_ranks vs) k (m, n) Hk (conj Ho eq_refl)) Hc j (m, b) Hjr).
    by apply (Hon j m b Hjr).
  - intros [Hok Hu]. destruct (proj2 (Hon k m n Hk) Hok) as [Ho _].
    change (Some (on (m, n) && bool_decide (length (filter (λ y, on y = true ∧ y.1 = m) (lis_ranks vs)) = 1%nat)) = Some true).
    f_equal. rewrite Ho. apply bool_decide_eq_true. apply (filter_single (λ y, on y = true ∧ y.1 = m) (lis_ranks vs) k (m, n) Hk); [done|].
    intros j [a b] Hj Hy. apply Hu. by apply (Hon j a b Hj).
Qed.

Lemma chosen_flags_iff vs k :
  chosen_flags vs !! k = Some true ↔ (k < length vs)%nat ∧ ∀ c, longest vs c → k ∈ c.
Proof.
  destruct (decide (k < length vs)%nat) as [Hlt|Hge].
  - destruct (rank_at vs _ _ (lis_lengths_spec vs) (starts_spec vs) k Hlt) as [[m Hm] _].
    rewrite (chosen_flags_level vs k m Hm). split.
    + intros [Ho Hu]. split; [done|]. by apply (only_level vs k m Ho).
    + intros [_ Hall]. destruct (longest_exists vs) as [c Hc]. pose proof (Hall c Hc) as [p Hp]%list_elem_of_lookup.
      apply longest_length in Hc as [Hc Hl]. pose proof (on_chain_of vs c p k Hc Hl Hp) as Ho.
      assert (m = S p) as -> by (destruct Ho as (n & Ho & _); congruence).
      split; [done|]. by apply (only_level vs k (S p) Ho).
  - rewrite lookup_ge_None_2; [naive_solver|]. unfold chosen_flags.
    rewrite length_map, <-(length_fmap fst), lis_ranks_fst, (lo_length _ _ (lis_lengths_spec vs)). lia.
Qed.

(** The order test of a weak pass accepts exactly the units that lie on every
    longest increasing chain of ordinals, so that any two accepted units stand
    in the order of their ordinals. *)
Theorem chosen_flags_spec vs :
  length (chosen_flags vs) = length vs
  ∧ (∀ k, chosen_flags vs !! k = Some true ↔ (k < length vs)%nat ∧ ∀ c, longest vs c → k ∈ c)
  ∧ (∀ j k a b, chosen_flags vs !! j = Some true → chosen_flags vs !! k = Some true → (j < k)%nat →
       vs !! j = Some a → vs !! k = Some b → a < b).
Proof.
  split_and!.
  - unfold chosen_flags. by rewrite length_map, <-(length_fmap fst), lis_ranks_fst, (lo_length _ _ (lis_lengths_spec vs)).
  - apply chosen_flags_iff.
  - intros j k a b [_ Hj]%chosen_flags_iff [_ Hk]%chosen_flags_iff Hjk Ha Hb.
    destruct (longest_exists vs) as [c Hc]. pose proof (Hj c Hc) as [p Hp]%list_elem_of_lookup.
    pose proof (Hk c Hc) as [q Hq]%list_elem_of_lookup. destruct Hc as [[Hs _] _].
    destruct (Nat.lt_trichotomy p q) as [Hpq|[->|Hpq]].
    + destruct (sorted_index _ c p q j k Hs Hpq Hp Hq) as [_ (a' & b' & Ha' & Hb' & Hab)]. congruence.
    + assert (j = k) by congruence. lia.
    + destruct (sorted_index _ c q p k j Hs Hpq Hq Hp). lia.
Qed.
