(* ===== verification/ClassifierResults.v ===== *)
(** What a classification promises (ingest_classifier.classify): every host row
    gets one verdict, no stored occurrence is replayed twice, replays carry
    their evidence, segments stay whole unless the run is cut, and the reference
    reading of the rank-3 index. *)

From S2P Require Import Prelude LedgerCodec LedgerOrdinals LedgerStore Classifier ClassifierSafety.
From stdpp Require Import options.

#[local] Open Scope Z_scope.

Section results.
Context {M : Type} `{Oracle M}.

(** The pass whose verdicts a classification reports. *)
Definition final_stamps (m : uid_mode) (s : Snapshot) (v : list (IncomingRow M)) : bool :=
  s_unreliable s || m14 m s v.

Lemma classify_pass m s v c :
  classify m s v = Ok c →
  ∃ c', run_pass m s v (final_stamps m s v) = Ok c' ∧ c_rows c = c_rows c' ∧ c_head c = c_head c'
        ∧ c_run c = c_run c'.
Proof.
  unfold classify, final_stamps. intros (c1 & H1 & E)%rbind_Ok. destruct (m14 m s v) eqn:Em.
  - apply rbind_Ok in E as (c2 & H2 & E). injection E as <-. exists c2. by rewrite orb_true_r.
  - injection E as <-. exists c1. by rewrite orb_false_r.
Qed.

Lemma classify_pass_wf m s v c :
  classify m s v = Ok c →
  ∃ p, @pass_wf M (pass_input m s v (final_stamps m s v)) p ∧ c_rows c = rows p ∧ c_head c = the_head p.
Proof.
  intros (c' & Hc & -> & -> & _)%classify_pass. by apply execute_wf in Hc.
Qed.

(** C33: A classification gives every row of the view one verdict: rows the host
    never stores are skipped and no others, every replayed row has a target, and
    no two rows replay the same stored occurrence or output. *)
Theorem classify_consumes_once m s v c :
  classify m s v = Ok c →
  length (c_rows c) = length v
  ∧ (∀ i r w, v !! i = Some r → c_rows c !! i = Some w → (verdict w = Skip ↔ never_stored r = true))
  ∧ (∀ i w, c_rows c !! i = Some w → verdict w = Replay → is_Some (target_of w))
  ∧ (∀ i j w x, c_rows c !! i = Some w → c_rows c !! j = Some x → verdict w = Replay →
       verdict x = Replay → target_of w = target_of x → i = j).
Proof.
  intros (p & W & -> & _)%classify_pass_wf. split_and!.
  - apply (pw_length p W).
  - apply (pw_skip p W).
  - intros i w Hw Hr. destruct (pw_used p W i w Hw Hr) as (t & -> & _). by eexists.
  - apply (pw_once p W).
Qed.

(** Every replay verdict carries evidence that holds of its row and target:
    an eligible output, an aligned entry of an eligible view whose binding is
    neither an old revision nor in a uid conflict, the row's own uid, or a
    stamp or segment match that no stronger key vetoes. *)
Theorem classify_replays_justified m s v c i r w t :
  classify m s v = Ok c → v !! i = Some r → c_rows c !! i = Some w → verdict w = Replay →
  target_of w = Some t →
  ∃ e, evidence_of w = Some e
       ∧ @justified M (pass_input m s v (final_stamps m s v)) (c_head c) r t e.
Proof. intros (p & W & -> & ->)%classify_pass_wf. apply (pw_justified p W). Qed.
End results.

Section index.
Context {M : Type} `{PassInput M}.

Lemma rank3_index_elem bs d b :
  (d, b) ∈ rank3_index bs ↔ b ∈ bs ∧ d ∈ (stored_digests b).*1 ++ [b_identity b].
Proof.
  unfold rank3_index. rewrite elem_of_concat. split.
  - intros (l & Hd & (b' & -> & Hb)%list_elem_of_fmap).
    apply list_elem_of_fmap in Hd as (d' & [= -> ->] & Hd). done.
  - intros [Hb Hd]. eexists. split; [|by apply list_elem_of_fmap_2].
    by apply (list_elem_of_fmap_2 (λ d, (d, b))).
Qed.

(** What [match_row] looks for: a digest of the row among those of the binding. *)
Lemma matches_iff r b :
  matches r b = true ↔ ∃ d, d ∈ incoming_digests r ∧ d ∈ (stored_digests b).*1 ++ [b_identity b].
Proof.
  assert (row_identity r ∈ incoming_digests r) as Hself by (apply elem_of_app; right; by apply list_elem_of_singleton).
  unfold matches, match_row. case_bool_decide as H1; simpl.
  { split; [intros _|done]. exists (row_identity r). split; [done|]. apply elem_of_app. right.
    rewrite H1. by apply list_elem_of_singleton. }
  case_bool_decide as H2; simpl.
  { split; [intros _|done]. exists (b_identity b). split; [done|]. apply elem_of_app. right.
    by apply list_elem_of_singleton. }
  set (l := filter _ _). assert (∀ d, d ∈ l ↔ d ∈ (stored_digests b).*1 ∧ d ∈ incoming_digests r) as Hl
    by (intros d; unfold l; by rewrite list_elem_of_filter).
  split.
  - intros E. destruct l as [|d l]; [done|]. destruct (proj1 (Hl d) ltac:(by left)) as [Hd Hd'].
    exists d. split; [done|]. apply elem_of_app. by left.
  - intros (d & Hd & [Hd'|E%list_elem_of_singleton]%elem_of_app); [|by rewrite E in Hd].
    assert (d ∈ l) as Hin by by apply Hl. clear Hl.
    destruct l as [|d' l']; [by apply elem_of_nil in Hin|by destruct (forallb _ _)].
Qed.

(** The index of a reused tool call id finds exactly the bindings that match
    the row one by one: the rank-3 candidates do not depend on how many bindings
    share the role and call id. *)
Theorem segment_matches_iff r b :
  b ∈ segment_matches r ↔ b ∈ by_role_call r ∧ matches r b = true.
Proof.
  unfold segment_matches. case_bool_decide.
  - unfold indexed_matches. rewrite elem_of_concat, matches_iff. split.
    + intros (l & Hb & (d & -> & Hd)%list_elem_of_fmap). apply list_elem_of_fmap in Hb as ([d' b'] & -> & Hb).
      apply list_elem_of_filter in Hb as [Hd' Hb]. simpl in *. subst. apply rank3_index_elem in Hb as [Hb Hd'].
      split; [done|]. by exists d.
    + intros [Hb (d & Hd & Hd')]. eexists. split; [|by apply list_elem_of_fmap_2].
      apply (list_elem_of_fmap_2 snd _ (d, b)). apply list_elem_of_filter. split; [done|].
      by apply rank3_index_elem.
  - rewrite list_elem_of_filter. naive_solver.
Qed.

End index.

(** ** Segments *)

Section segments_whole.
Context {M : Type} `{PassInput M}.

Lemma accept_run i t e p : the_run (accept i t e p).1 = the_run p.
Proof. unfold accept. by case_match. Qed.

Lemma strong_uid_run i r u p : the_run (strong_uid i r u p).1 = the_run p.
Proof.
  unfold strong_uid. repeat case_match; cbn [fst]; try done; try apply accept_run;
    first [apply sc_run, reject_core | apply sc_run, defer_core
          | etrans; [apply (sc_run _ _ (mark_revision_core _ _ _))|apply sc_run, reject_core]].
Qed.

Lemma strong_emissions_run i r es p : the_run (strong_emissions i r es p) = the_run p.
Proof.
  revert p. induction es as [|e es IH]; intros p; simpl; [done|].
  assert (∀ t x, the_run (strong_emissions i r es (reject i t x p)) = the_run p) as Hrej.
  { intros t x. rewrite IH. apply sc_run, reject_core. }
  destruct (_ || _); [apply IH|]. destruct (negb _); [apply Hrej|].
  destruct (match truthy (known_stamp r) with Some _ => _ | None => _ end); [apply Hrej|].
  pose proof (accept_run i (Desc (em_seq e) (em_index e)) Rank4 p) as Ha.
  destruct (accept _ _ _ p) as [q ok]. simpl in Ha. destruct ok; [done|]. by rewrite IH.
Qed.

Lemma strong_run p : the_run (strong p) = the_run p.
Proof.
  apply (view_foldl (λ q, the_run q = the_run p)); [|done]. intros i r q _ <-. cbn [fst snd]. unfold strong_row.
  destruct (negb _); [done|].
  assert (∀ x : pass * bool, the_run x.1 = the_run q → the_run
    (let '(q', d) := x in if d then q' else if settled (verdict_at q' i) then q' else
       strong_emissions i r (s_emissions snap) q') = the_run q) as K.
  { intros [q' d] Hq. simpl in Hq. destruct d; [done|]. destruct (settled _); [done|].
    by rewrite strong_emissions_run. }
  apply K. destruct is_off; [done|]. destruct (truthy (uid r)); [|done].
  destruct (latest (uid r)); [apply strong_uid_run|done].
Qed.

Lemma commit_row_run a p x : the_run (commit_row a p x) = the_run p.
Proof.
  destruct x as [i [b e]]. unfold commit_row. destruct (bool_decide _); [done|].
  destruct a; [apply accept_run|apply sc_run, reject_core].
Qed.

Lemma commit_unit_run p x : the_run (commit_unit p x) = the_run p.
Proof.
  unfold commit_unit. generalize (un_map x.1) as l. intros l. revert p.
  induction l as [|y l IH]; intros p; simpl; [done|]. by rewrite IH, commit_row_run.
Qed.

Lemma commit_units_run l p : the_run (foldl commit_unit p l) = the_run p.
Proof. revert p. induction l as [|x l IH]; intros p; simpl; [done|]. by rewrite IH, commit_unit_run. Qed.

Lemma weak_run segs p : pass_wf p → the_run (weak segs p) = the_run p.
Proof.
  intros W. unfold weak. pose proof (weak_collect segs p W) as Hx.
  destruct (foldl (λ x ir, weak_row segs ir.1 ir.2 x) (p, []) (zip (seq 0 (length view)) view)) as [q opts].
  destruct Hx as [S _]. simpl in S. by rewrite commit_units_run, (sc_run _ _ S).
Qed.

Lemma choose_head_run p p' : choose_head p = Ok p' → the_run p' = the_run p.
Proof.
  unfold choose_head. intros Hp. apply rbind_Ok in Hp as (h & _ & Hp). simplify_eq.
  destruct h; [done|]. destruct head_h2; [done|]. by destruct head_h3.
Qed.

(** A pass leaves every tool segment replayed whole or not at all, unless
    finishing shortens the run it found. *)
Theorem execute_segments_whole c s is_ :
  execute = Ok c → c_run c = the_run (run_search initial_pass) → (s, is_) ∈ segments →
  (∀ i, i ∈ is_ → verdict <$> c_rows c !! i = Some Replay)
  ∨ (∀ i, i ∈ is_ → verdict <$> c_rows c !! i ≠ Some Replay).
Proof.
  unfold execute. intros Hx Hrun Hin. apply rbind_Ok in Hx as (p & Hp & Hc).
  pose proof (head_wf _ _ Hp eq_refl) as W. apply choose_head_run in Hp.
  pose proof (weak_wf true _ (weak_wf false _ (strong_wf _ W))) as W3.
  set (p3 := weak true (weak false (strong p))) in *.
  pose proof (pass_wf_core _ _ (discovery_core p3) W3) as W4.
  assert (the_run (discovery p3) = the_run p) as Hrun4.
  { rewrite (sc_run _ _ (discovery_core p3)). unfold p3. rewrite !weak_run, strong_run; auto using weak_wf, strong_wf. }
  destruct (finish (discovery p3)) as [q w] eqn:Ef. injection Hc as <-. simpl in *.
  assert (∀ i, verdict <$> rows q !! i = Some Replay ↔ replayed q i) as Hrep.
  { intros i. unfold replayed, verdict_at. destruct (rows q !! i); simpl; [split; congruence|done]. }
  assert (whole q is_) as [Hw|Hw].
  { replace q with (finish (discovery p3)).1 by by rewrite Ef. eapply finish_segments; [done| |done].
    rewrite Ef. simpl. congruence. }
  - left. intros i Hi. by apply Hrep, Hw.
  - right. intros i Hi Hv. by apply (Hw i Hi), Hrep.
Qed.
End segments_whole.

(** ** A split segment *)

Definition split_bindings : list Bound :=
  [toy_bound 1 10 "assistant" None true; toy_bound 2 11 "tool" (Some "ca") false;
   toy_bound 3 12 "assistant" None true; toy_bound 4 13 "tool" (Some "cb") false].

Definition split_snapshot : Snapshot :=
  {| s_lineage := "a"; s_salt := []; s_unreliable := false;
     s_records := [{| rec_kind := IngestView; rec_seq := 1; rec_eligible := true;
       rec_entries := [toy_entry 10 (Some 1); toy_entry 11 (Some 2); toy_entry 12 (Some 3)] |}];
     s_emissions := []; s_bindings := split_bindings;
     s_by_digest := map (λ b, (b_identity b, [b])) split_bindings;
     s_by_stamp := []; s_uids := []; s_alt_counts _ := 0; s_stamps _ := ∅; s_pending := [] |}.

(** The first assistant row was edited; the second segment is unchanged. *)
Definition split_view : list (IncomingRow text) :=
  [toy_row 99 "assistant" (Some 0%nat) "" None; toy_row 11 "tool" (Some 0%nat) "ca" None;
   toy_row 12 "assistant" (Some 2%nat) "" None; toy_row 13 "tool" (Some 2%nat) "cb" None].

(** Cutting the run at a segment that starts before it takes back the whole
    run, but not the rows of a later segment that lie after the run: the second
    segment's assistant row is new and its answer stays a replay. *)
Theorem classify_splits_segment :
  ∃ c, @classify text toy_oracle UidOff split_snapshot split_view = Ok c
       ∧ verdict <$> c_rows c = [New; New; New; Replay]
       ∧ tool_segment <$> split_view = [Some 0; Some 0; Some 2; Some 2]%nat.
Proof. eexists. split; [vm_compute; reflexivity|]. split; reflexivity. Qed.

(** ** Witnesses *)

Definition run_entries : list ViewEntry :=
  [toy_entry 10 None; toy_entry 11 (Some 1); toy_entry 12 (Some 2); toy_entry 13 (Some 3)].

Lemma classify_consumes_once_witness :
  ∃ c, @classify text toy_oracle UidOff (toy_snapshot run_entries (λ _, ∅)) toy_view = Ok c
       ∧ length (c_rows c) = 5%nat
       ∧ (∀ i j w x, c_rows c !! i = Some w → c_rows c !! j = Some x → verdict w = Replay →
            verdict x = Replay → target_of w = target_of x → i = j).
Proof.
  eexists. split; [vm_compute; reflexivity|].
  match goal with |- length (c_rows ?c) = _ ∧ _ =>
    destruct (@classify_consumes_once text toy_oracle UidOff (toy_snapshot run_entries (λ _, ∅)) toy_view c) as (H1 & H2 & H3 & H4)
  end; [vm_compute; reflexivity|].
  split; [exact H1|exact H4].
Defined.

(** The second row replays the first stored row, as part of an unkeyed run. *)
Lemma classify_replays_justified_witness :
  ∃ c r e, @classify text toy_oracle UidOff (toy_snapshot run_entries (λ _, ∅)) toy_view = Ok c
       ∧ toy_view !! 1%nat = Some r
       ∧ @justified text (@pass_input text toy_oracle UidOff (toy_snapshot run_entries (λ _, ∅)) toy_view
            (@final_stamps text toy_oracle UidOff (toy_snapshot run_entries (λ _, ∅)) toy_view))
            (c_head c) r (Occ 1) e.
Proof.
  assert (∃ c, @classify text toy_oracle UidOff (toy_snapshot run_entries (λ _, ∅)) toy_view = Ok c)
    as [c Hc] by (eexists; vm_compute; reflexivity).
  assert (∃ w, c_rows c !! 1%nat = Some w ∧ verdict w = Replay ∧ target_of w = Some (Occ 1))
    as (w & Hw & Hr & Ht).
  { assert (match @classify text toy_oracle UidOff (toy_snapshot run_entries (λ _, ∅)) toy_view with
            | Ok c => (λ w, (verdict w, target_of w)) <$> c_rows c !! 1%nat
            | Err _ => None end = Some (Replay, Some (Occ 1))) as E by (vm_compute; reflexivity).
    rewrite Hc in E. apply fmap_Some in E as (w & Hw & [= Hr Ht]). exists w. exact (conj Hw (conj (eq_sym Hr) (eq_sym Ht))). }
  destruct (classify_replays_justified UidOff (toy_snapshot run_entries (λ _, ∅)) toy_view c 1
              _ w (Occ 1) Hc eq_refl Hw Hr Ht) as (e & _ & Hj).
  exists c. eexists. exists e. split; [exact Hc|]. split; [reflexivity|]. exact Hj.
Defined.

Lemma execute_segments_whole_witness :
  ∃ c, @execute text (@pass_input text toy_oracle UidOff (toy_snapshot run_entries (λ _, ∅)) toy_view false) = Ok c
       ∧ ((∀ i, i ∈ [2; 3]%nat → verdict <$> c_rows c !! i = Some Replay)
          ∨ (∀ i, i ∈ [2; 3]%nat → verdict <$> c_rows c !! i ≠ Some Replay)).
Proof.
  eexists. split; [vm_compute; reflexivity|].
  eapply (@execute_segments_whole text (@pass_input text toy_oracle UidOff (toy_snapshot run_entries (λ _, ∅)) toy_view false) _ 2%nat).
  - vm_compute; reflexivity.
  - vm_compute; reflexivity.
  - vm_compute. by left.
Defined.
(** ** A classification is always returned *)

(** Every occurrence an eligible record refers to is in the snapshot. *)
Definition refs_bound (s : Snapshot) : Prop :=
  ∀ rc e o, rc ∈ s_records s → rec_eligible rc = true → e ∈ rec_entries rc →
    is_descriptor e = false → ref e = Some o → ∃ b, b ∈ s_bindings s ∧ b_occ b = o.

Section returns.
Context {M : Type} `{PassInput M}.

Lemma reject_same_run i t r p : the_run (reject i t r p) = the_run p ∧ base (reject i t r p) = base p.
Proof.
  unfold reject, Classifier.remember, set_first_default. destruct t; [|done]. repeat case_match; done.
Qed.

Lemma accept_same_run i t e p : the_run (accept i t e p).1 = the_run p ∧ base (accept i t e p).1 = base p.
Proof. unfold accept. by case_match. Qed.

Lemma run_row_same_run i r e p : the_run (run_row i r e p).1 = the_run p ∧ base (run_row i r e p).1 = base p.
Proof. unfold run_row. repeat case_match; cbn [fst]; auto using reject_same_run, accept_same_run. Qed.

Lemma run_rows_same_run i k rs es p :
  the_run (run_rows i k rs es p).1 = the_run p ∧ base (run_rows i k rs es p).1 = base p.
Proof.
  revert i k es p. induction rs as [|r rs IH]; intros i [|k] [|e es] p; try done. cbn [run_rows].
  destruct (run_row i r e p) as [q go] eqn:Eq. pose proof (run_row_same_run i r e p) as [H1 H2]. rewrite Eq in *. cbn [fst] in *.
  destruct go; [|done]. specialize (IH (S i) k es q). destruct (run_rows (S i) k rs es q). cbn [fst] in *.
  destruct IH. split; congruence.
Qed.

(** The run's record is an eligible one. *)
Lemma run_search_base rc :
  base (run_search initial_pass) = Some rc → rc ∈ s_records snap ∧ rec_eligible rc = true.
Proof.
  unfold run_search. destruct (first_run run_starts) as [[i [[k rc'] j]]|] eqn:Er; [|done].
  apply first_run_Some in Er as (Hrc & Hel & _).
  pose proof (run_rows_same_run i k (drop i view) (drop j (rec_entries rc')) initial_pass) as [_ Hb].
  destruct (run_rows i k (drop i view) (drop j (rec_entries rc')) initial_pass) as [p n]. cbn [fst] in Hb.
  case_bool_decide; [by rewrite Hb|]. cbn. by intros [= <-].
Qed.

Lemma run_head_total es :
  (∀ e o, e ∈ es → is_descriptor e = false → ref e = Some o → is_Some (find_binding o)) →
  ∃ o, run_head es = Ok o.
Proof.
  induction es as [|e es IH]; intros Hes; [by eexists|]. cbn [run_head].
  destruct IH as [o Ho]; [intros e' o' He'; apply Hes; by right|].
  assert (∃ x, ordinal_checked (entry_target e) = Ok x) as [x ->].
  { unfold ordinal_checked, entry_target. destruct (is_descriptor e) eqn:Ed.
    - destruct (ref e ≫= emission_by_id); by eexists.
    - destruct (ref e) as [y|] eqn:Er; [|by eexists]. cbn. destruct (Hes e y) as [b ->]; [left|done|done|by eexists]. }
  cbn. destruct x; by eexists.
Qed.

Lemma execute_total : refs_bound snap → ∃ c, execute = Ok c.
Proof.
  intros Hb. unfold execute.
  assert (∃ p, choose_head (run_search initial_pass) = Ok p) as [p ->].
  { unfold choose_head. destruct (the_run (run_search initial_pass)) as [r|]; [|by eexists].
    destruct (base (run_search initial_pass)) as [rc|] eqn:Ebase; [|by eexists].
    apply run_search_base in Ebase as [Hrc Hel].
    destruct (run_head_total (drop (run_j r) (rec_entries rc))) as [o ->].
    { intros e o He Hd Hr. destruct (Hb rc e o Hrc Hel) as (b & Hin & Ho); [|done|done|].
      { rewrite <-(take_drop (run_j r) (rec_entries rc)). apply elem_of_app. by right. }
      unfold find_binding. by apply (find_first_is_Some _ _ b). }
    destruct o; by eexists. }
  cbn [rbind]. destruct (finish _) as [q w]. by eexists.
Qed.

End returns.

(** Classification is total: whatever the view and the snapshot hold, a
    verdict for every row is returned, in both passes, as long as every
    occurrence an eligible view record refers to is in the snapshot (the one
    lookup that can raise). *)
Theorem classify_returns {M : Type} `{Oracle M} m s v :
  refs_bound s → ∃ c, classify m s v = Ok c.
Proof.
  intros Hb. unfold classify, run_pass.
  destruct (@execute_total M (pass_input m s v (s_unreliable s)) Hb) as [c ->]. cbn [rbind].
  destruct (m14 m s v); [|by eexists].
  destruct (@execute_total M (pass_input m s v true) Hb) as [c' ->]. by eexists.
Qed.

Lemma classify_returns_witness :
  refs_bound (toy_snapshot [toy_entry 10 None; toy_entry 11 (Some 1)] (λ _, ∅))
  ∧ ∃ c, @classify text toy_oracle UidOn (toy_snapshot [toy_entry 10 None; toy_entry 11 (Some 1)] (λ _, ∅)) toy_view = Ok c.
Proof.
  assert (refs_bound (toy_snapshot [toy_entry 10 None; toy_entry 11 (Some 1)] (λ _, ∅))) as Hb.
  { intros rc e o Hrc Hel He Hd Hr. apply list_elem_of_singleton in Hrc as ->. cbn in He.
    exists (toy_bound 1 11 "user" None false). split; [apply list_elem_of_here|].
    apply list_elem_of_In in He as [<-|[<-|[]]]; cbn in Hr |- *; congruence. }
  split; [exact Hb|]. exact (@classify_returns text toy_oracle UidOn _ toy_view Hb).
Defined.
