(* ===== verification/AccessModel.v ===== *)
(** The access context of the Teams seam (access_context/model.py): the frozen
    authority envelope, how it is narrowed, and the subset test between two
    envelopes.

    Times are instants (integers); reading an ISO-8601 string into one is not
    modelled, nor is the JSON form of a context.  The messages of
    [ScopeMismatchError] are not kept: the set iteration that picks one of them
    has no fixed order. *)

From Stdlib Require Import Ascii.
From S2P Require Import Prelude.
From stdpp Require Import options.

#[local] Open Scope Z_scope.

(** ** Values *)

Inductive ActorType := HUMAN | AGENT | SERVICE.
#[global] Instance ActorType_eq_dec : EqDecision ActorType.
Proof. solve_decision. Defined.

Inductive model_error := ScopeMismatchError | TransportRequired.
#[global] Instance model_error_eq_dec : EqDecision model_error.
Proof. solve_decision. Defined.

Definition ACCESS_CONTEXT_CONTRACT_REVISION : string := "v1".

(** [Iterable[str] | str | None], not [None]. *)
Inductive strings := OneString (s : string) | Strings (l : list string).

Definition freeze_strings (value : option strings) : gset string :=
  match value with
  | None => ∅
  | Some (OneString s) => {[s]}
  | Some (Strings l) => list_to_set l
  end.

Definition freeze_chain (value : option strings) : list string :=
  match value with
  | None => []
  | Some (OneString s) => [s]
  | Some (Strings l) => l
  end.

(** [token.partition(":")], without the separator. *)
Fixpoint partition (token : string) : string * string :=
  match token with
  | EmptyString => ("", "")
  | String c rest =>
      if bool_decide (c = ":"%char) then ("", rest)
      else let '(a, b) := partition rest in (String c a, b)
  end.

Definition MODELLED_NARROWING_DIMENSIONS : gset string := {["operation"; "collection"; "audience"]}.

Definition token_of (dimension item : string) : string := dimension +:+ ":" +:+ item.

Definition has_dimension (dimension token : string) : bool :=
  String.prefix (dimension +:+ ":") token && bool_decide ((partition token).2 ≠ "").

Definition dimension_values (tokens : gset string) (dimension : string) : gset string :=
  set_map (λ t, (partition t).2) (filter (λ t, has_dimension dimension t = true) tokens).

Record AccessContextV1 := {
  contract_revision : string;
  context_id : string;
  request_id : string;
  source_kind : string;
  authenticated_transport : string;
  deployment_id : string;
  tenant_id : string;
  principal_id : string;
  actor_type : ActorType;
  profile_id : string;
  profile_incarnation : string;
  session_id : string;
  session_owner_principal_id : string;
  conversation_id : string;
  conversation_lane : string;
  default_write_collection_id : string;
  read_policy_ref : string;
  grants : gset string;
  policy_revision : Z;
  membership_revision : Z;
  revocation_epoch : Z;
  delegation_chain : list string;
  delegated_by : string;
  audience : gset string;
  issued_at : Z;
  expires_at : Z;
  narrowing : gset string;
  ownership_generation : Z;
  lease_id : string;
  lease_generation : Z
}.
#[global] Instance AccessContextV1_eq_dec : EqDecision AccessContextV1.
Proof. solve_decision. Defined.

Definition collection_allowlist (c : AccessContextV1) : gset string :=
  dimension_values (narrowing c) "collection".

Definition operation_allowlist (c : AccessContextV1) : gset string :=
  let explicit := dimension_values (narrowing c) "operation" in
  if bool_decide (explicit = ∅) then grants c else explicit ∩ grants c.

Definition ungranted_operations (c : AccessContextV1) : gset string :=
  dimension_values (narrowing c) "operation" ∖ grants c.

(** [from_host] and [from_payload] on fields already of their types. *)
Definition reject_ungranted_narrowing (c : AccessContextV1) : result model_error AccessContextV1 :=
  raise_if (bool_decide (ungranted_operations c ≠ ∅)) ScopeMismatchError (Ok c).

Definition from_host (c : AccessContextV1) : result model_error AccessContextV1 :=
  raise_if (bool_decide (authenticated_transport c = "")) TransportRequired
    (reject_ungranted_narrowing c).

(** ** Narrowing *)

Record narrow_args := {
  na_grants : option strings;
  na_operations : option strings;
  na_collections : option strings;
  na_collection_allowlist : option strings;
  na_audience : option strings;
  na_expires_at : option Z;
  na_profile_id : option string;
  na_session_id : option string;
  na_conversation_id : option string;
  na_default_write_collection_id : option string;
  na_narrowing : option strings;
  na_policy_revision : option Z;
  na_membership_revision : option Z;
  na_revocation_epoch : option Z
}.

(** [requested is not None and requested != current] *)
Definition differs {A} `{EqDecision A} (requested : option A) (current : A) : bool :=
  match requested with Some x => bool_decide (x ≠ current) | None => false end.

Definition or_else {A} (x y : option A) : option A := match x with Some _ => x | None => y end.

(** [a or b] on sets. *)
Definition set_or (a b : gset string) : gset string := if bool_decide (a = ∅) then b else a.

Definition narrowed_operations (a : narrow_args) : option (gset string) :=
  freeze_strings ∘ Some <$> or_else (na_grants a) (na_operations a).

Definition narrowed_collections (a : narrow_args) : option (gset string) :=
  freeze_strings ∘ Some <$> or_else (na_collections a) (na_collection_allowlist a).

Definition narrow_operations (c : AccessContextV1) (a : narrow_args) : result model_error (gset string) :=
  match narrowed_operations a with
  | None => Ok (grants c)
  | Some ops => raise_if (negb (bool_decide (ops ⊆ operation_allowlist c))) ScopeMismatchError (Ok ops)
  end.

(** An empty requested set would read as unrestricted. *)
Definition narrow_set (current : gset string) (requested : option (gset string))
    : result model_error (gset string) :=
  match requested with
  | None => Ok current
  | Some r =>
      raise_if (bool_decide (r = ∅)) ScopeMismatchError
        (raise_if (bool_decide (current ≠ ∅) && negb (bool_decide (r ⊆ current))) ScopeMismatchError (Ok r))
  end.

Definition narrow_expiry (c : AccessContextV1) (requested : option Z) : result model_error Z :=
  let e := default (expires_at c) requested in
  raise_if (bool_decide (expires_at c < e) || bool_decide (e < issued_at c)) ScopeMismatchError (Ok e).

(** The collection a child writes to by default. *)
Definition narrow_default (c : AccessContextV1) (a : narrow_args) (child_collections tokens : gset string)
    : result model_error string :=
  let effective := set_or child_collections tokens in
  match na_default_write_collection_id a with
  | Some d =>
      raise_if (bool_decide (collection_allowlist c ≠ ∅) && negb (bool_decide (d ∈ collection_allowlist c)))
        ScopeMismatchError
        (raise_if (bool_decide (collection_allowlist c = ∅) && bool_decide (narrowed_collections a = None)
                   && bool_decide (d ≠ default_write_collection_id c)) ScopeMismatchError
          (raise_if (bool_decide (effective ≠ ∅) && negb (bool_decide (d ∈ effective))) ScopeMismatchError (Ok d)))
  | None =>
      raise_if (bool_decide (effective ≠ ∅)
                && negb (bool_decide (default_write_collection_id c ∈ effective))) ScopeMismatchError
        (Ok (default_write_collection_id c))
  end.

(** The dimensions a call replaces. *)
Definition narrowed_dimensions (a : narrow_args) : gset string :=
  set_map (λ t, (partition t).1) (filter (λ t, (partition t).2 ≠ "") (freeze_strings (na_narrowing a)))
  ∪ (if narrowed_operations a is Some _ then {["operation"]} else ∅)
  ∪ (if narrowed_collections a is Some _ then {["collection"]} else ∅)
  ∪ (if na_audience a is Some _ then {["audience"]} else ∅).

Definition tokens_of (dimension : string) (items : gset string) : gset string :=
  set_map (token_of dimension) items.

(** A requested token outside what the child may hold. *)
Definition token_outside (c : AccessContextV1) (a : narrow_args)
    (child_grants child_collections child_audience : gset string) (token : string) : bool :=
  let '(prefix, value) := partition token in
  bool_decide (prefix = "operation")
    && negb (bool_decide (value ∈ if narrowed_operations a is Some _ then child_grants else operation_allowlist c))
  || bool_decide (prefix = "collection")
    && ((if narrowed_collections a is Some _ then true else false) || bool_decide (collection_allowlist c ≠ ∅))
    && negb (bool_decide (value ∈ child_collections))
  || bool_decide (prefix = "audience") && bool_decide (audience c ≠ ∅)
    && negb (bool_decide (value ∈ child_audience)).

Definition child_narrowing (c : AccessContextV1) (a : narrow_args)
    (child_grants child_collections child_audience : gset string) : gset string :=
  filter (λ t, (partition t).1 ∉ narrowed_dimensions a) (narrowing c)
  ∪ (if narrowed_operations a is Some _ then tokens_of "operation" child_grants else ∅)
  ∪ (if narrowed_collections a is Some _ then tokens_of "collection" child_collections else ∅)
  ∪ (if na_audience a is Some _ then tokens_of "audience" child_audience else ∅)
  ∪ freeze_strings (na_narrowing a).

(** The bound fields a caller may repeat but not change. *)
Definition binding_changed (c : AccessContextV1) (a : narrow_args) : bool :=
  differs (na_profile_id a) (profile_id c) || differs (na_session_id a) (session_id c)
  || differs (na_conversation_id a) (conversation_id c).

Definition state_changed (c : AccessContextV1) (a : narrow_args) : bool :=
  differs (na_policy_revision a) (policy_revision c)
  || differs (na_membership_revision a) (membership_revision c)
  || differs (na_revocation_epoch a) (revocation_epoch c).

Definition with_authority (c : AccessContextV1) (collection : string) (g au nw : gset string) (e : Z)
    : AccessContextV1 :=
  {| contract_revision := contract_revision c; context_id := context_id c; request_id := request_id c;
     source_kind := source_kind c; authenticated_transport := authenticated_transport c;
     deployment_id := deployment_id c; tenant_id := tenant_id c; principal_id := principal_id c;
     actor_type := actor_type c; profile_id := profile_id c; profile_incarnation := profile_incarnation c;
     session_id := session_id c; session_owner_principal_id := session_owner_principal_id c;
     conversation_id := conversation_id c; conversation_lane := conversation_lane c;
     default_write_collection_id := collection; read_policy_ref := read_policy_ref c; grants := g;
     policy_revision := policy_revision c; membership_revision := membership_revision c;
     revocation_epoch := revocation_epoch c; delegation_chain := delegation_chain c;
     delegated_by := delegated_by c; audience := au; issued_at := issued_at c; expires_at := e;
     narrowing := nw; ownership_generation := ownership_generation c; lease_id := lease_id c;
     lease_generation := lease_generation c |}.

Definition grants_disagree (a : narrow_args) : bool :=
  match na_grants a, na_operations a with
  | Some g, Some o => bool_decide (freeze_strings (Some g) ≠ freeze_strings (Some o))
  | _, _ => false
  end.

Definition narrow (c : AccessContextV1) (a : narrow_args) : result model_error AccessContextV1 :=
  raise_if (grants_disagree a) ScopeMismatchError (
  let! child_grants := narrow_operations c a in
  let! child_collections := narrow_set (collection_allowlist c) (narrowed_collections a) in
  let! child_audience := narrow_set (audience c) (freeze_strings ∘ Some <$> na_audience a) in
  let! child_expiry := narrow_expiry c (na_expires_at a) in
  raise_if (binding_changed c a) ScopeMismatchError (
  raise_if (state_changed c a) ScopeMismatchError (
  let requested := freeze_strings (na_narrowing a) in
  let! child_collection := narrow_default c a child_collections (dimension_values requested "collection") in
  raise_if (bool_decide (filter (λ t, token_outside c a child_grants child_collections child_audience t = true)
                           requested ≠ ∅)) ScopeMismatchError
    (Ok (with_authority c child_collection child_grants child_audience
           (child_narrowing c a child_grants child_collections child_audience) child_expiry))))).

(** ** The subset test *)

(** Empty means unrestricted. *)
Definition is_narrower (child parent : gset string) : bool :=
  bool_decide (parent = ∅) || bool_decide (child ≠ ∅) && bool_decide (child ⊆ parent).

Definition audience_is_narrower (child parent : AccessContextV1) : bool :=
  is_narrower (audience child) (audience parent)
  && is_narrower (dimension_values (narrowing child) "audience") (dimension_values (narrowing parent) "audience").

Definition provenance_is_consistent (c : AccessContextV1) : bool :=
  if bool_decide (delegated_by c = "") then bool_decide (delegation_chain c = [])
  else bool_decide (last (delegation_chain c) = Some (delegated_by c)).

(** The fields a child must share with its parent. *)
Definition same_bindings (c p : AccessContextV1) : bool :=
  bool_decide (deployment_id c = deployment_id p) && bool_decide (tenant_id c = tenant_id p)
  && bool_decide (principal_id c = principal_id p) && bool_decide (actor_type c = actor_type p)
  && bool_decide (profile_id c = profile_id p) && bool_decide (profile_incarnation c = profile_incarnation p)
  && bool_decide (session_id c = session_id p)
  && bool_decide (session_owner_principal_id c = session_owner_principal_id p)
  && bool_decide (conversation_id c = conversation_id p)
  && bool_decide (conversation_lane c = conversation_lane p)
  && bool_decide (read_policy_ref c = read_policy_ref p) && bool_decide (policy_revision c = policy_revision p)
  && bool_decide (membership_revision c = membership_revision p)
  && bool_decide (revocation_epoch c = revocation_epoch p)
  && bool_decide (ownership_generation c = ownership_generation p) && bool_decide (lease_id c = lease_id p)
  && bool_decide (lease_generation c = lease_generation p) && bool_decide (source_kind c = source_kind p)
  && bool_decide (authenticated_transport c = authenticated_transport p).

Definition parent_opaque (p : AccessContextV1) : gset string :=
  filter (λ t, (partition t).1 ∉ MODELLED_NARROWING_DIMENSIONS) (narrowing p).

(** The default collection of a child: in its allowlist when it has one, and
    its parent's otherwise. *)
Definition default_within (c p : AccessContextV1) : bool :=
  let cs := collection_allowlist c in
  let d := default_write_collection_id c in
  negb (bool_decide (cs ≠ ∅) && negb (bool_decide (d ∈ cs)))
  && negb (bool_decide (d ≠ default_write_collection_id p)
           && (bool_decide (cs = ∅) || negb (bool_decide (d ∈ cs)))).

Definition chain_extends (c p : AccessContextV1) : bool :=
  bool_decide (delegation_chain p = take (length (delegation_chain p)) (delegation_chain c))
  && (bool_decide (context_id c = context_id p) || bool_decide (context_id p ∈ delegation_chain c)).

Definition is_subset_of (c p : AccessContextV1) : bool :=
  bool_decide (contract_revision c = contract_revision p) && same_bindings c p
  && bool_decide (ungranted_operations c = ∅) && bool_decide (ungranted_operations p = ∅)
  && bool_decide (grants c ⊆ grants p) && bool_decide (operation_allowlist c ⊆ operation_allowlist p)
  && audience_is_narrower c p
  && bool_decide (expires_at c <= expires_at p) && bool_decide (issued_at p <= issued_at c)
  && chain_extends c p && provenance_is_consistent c && provenance_is_consistent p
  && bool_decide (parent_opaque p ⊆ narrowing c)
  && is_narrower (collection_allowlist c) (collection_allowlist p)
  && default_within c p.

(** ** Tokens *)

Fixpoint colon_free (s : string) : bool :=
  match s with EmptyString => true | String c s => negb (bool_decide (c = ":"%char)) && colon_free s end.

Lemma partition_token dim item : colon_free dim = true → partition (token_of dim item) = (dim, item).
Proof.
  unfold token_of. induction dim as [|ch dim IH]; simpl; intros Hc.
  - by destruct item.
  - apply andb_true_iff in Hc as [Hch Hdim]. apply negb_true_iff in Hch. rewrite Hch.
    by rewrite (IH Hdim).
Qed.

Lemma prefix_cons a s b t : String.prefix (String a s) (String b t) = bool_decide (a = b) && String.prefix s t.
Proof. cbn [String.prefix]. destruct (Ascii.ascii_dec a b); [by rewrite bool_decide_eq_true_2|by rewrite bool_decide_eq_false_2]. Qed.

Lemma prefix_nil t : String.prefix "" t = true.
Proof. by destruct t. Qed.

Lemma prefix_partition dim token :
  colon_free dim = true → String.prefix (dim +:+ ":") token = true → (partition token).1 = dim.
Proof.
  revert token. induction dim as [|ch dim IH]; intros [|c token]; try done.
  - intros _. change ("" +:+ ":") with ":". rewrite prefix_cons. intros [Hc _]%andb_true_iff.
    apply bool_decide_eq_true in Hc as <-. done.
  - cbn [colon_free]. intros [Hch Hdim]%andb_true_iff. apply negb_true_iff in Hch.
    change (String ch dim +:+ ":") with (String ch (dim +:+ ":")). rewrite prefix_cons.
    intros [Hc Hp]%andb_true_iff. apply bool_decide_eq_true in Hc as <-. cbn [partition]. rewrite Hch.
    specialize (IH token Hdim Hp). by destruct (partition token) as [a b]; simpl in *; subst.
Qed.

Lemma partition_prefix token :
  (partition token).2 ≠ "" → String.prefix ((partition token).1 +:+ ":") token = true.
Proof.
  induction token as [|c token IH]; [done|]. cbn [partition]. case_bool_decide as Hc; cbn [fst snd].
  - intros _. change ("" +:+ ":") with ":". rewrite prefix_cons, prefix_nil, bool_decide_eq_true_2 by done. done.
  - destruct (partition token) as [a b]. cbn [fst snd] in *. intros Hb.
    change (String c a +:+ ":") with (String c (a +:+ ":")). rewrite prefix_cons, bool_decide_eq_true_2 by done. auto.
Qed.

(** A token belongs to the dimension before its first colon. *)
Lemma has_dimension_iff dim token :
  colon_free dim = true →
  has_dimension dim token = true ↔ (partition token).1 = dim ∧ (partition token).2 ≠ "".
Proof.
  intros Hd. unfold has_dimension. rewrite andb_true_iff, bool_decide_eq_true. split.
  - intros [Hp Hv]. split; [by apply prefix_partition|done].
  - intros [<- Hv]. split; [by apply partition_prefix|done].
Qed.

Lemma elem_dimension_values dim tokens v :
  colon_free dim = true →
  v ∈ dimension_values tokens dim ↔ v ≠ "" ∧ ∃ t, t ∈ tokens ∧ partition t = (dim, v).
Proof.
  intros Hd. unfold dimension_values. rewrite elem_of_map. setoid_rewrite elem_of_filter.
  setoid_rewrite (has_dimension_iff dim _ Hd). split.
  - intros (t & -> & [<- Hv] & Ht). split; [done|]. exists t. by destruct (partition t).
  - intros (Hv & t & Ht & E). exists t. by rewrite E.
Qed.

Lemma dimension_values_union dim a b :
  colon_free dim = true → dimension_values (a ∪ b) dim = dimension_values a dim ∪ dimension_values b dim.
Proof.
  intros Hd. apply set_eq. intros v. rewrite elem_of_union, !elem_dimension_values by done. set_solver.
Qed.

Lemma dimension_values_empty dim : dimension_values ∅ dim = ∅.
Proof. unfold dimension_values. set_solver. Qed.

Lemma dimension_values_tokens_of dim items :
  colon_free dim = true → dimension_values (tokens_of dim items) dim = items ∖ {[""]}.
Proof.
  intros Hd. apply set_eq. intros v. rewrite elem_dimension_values by done.
  rewrite elem_of_difference, not_elem_of_singleton. unfold tokens_of. split.
  - intros (Hv & t & (i & -> & Hi)%elem_of_map & E). rewrite partition_token in E by done.
    by simplify_eq.
  - intros [Hi Hv]. split; [done|]. exists (token_of dim v). rewrite partition_token by done.
    split; [by apply elem_of_map_2|done].
Qed.

Lemma dimension_values_other dim dim' items :
  colon_free dim = true → colon_free dim' = true → dim ≠ dim' →
  dimension_values (tokens_of dim' items) dim = ∅.
Proof.
  intros Hd Hd' Hne. apply set_eq. intros v. rewrite elem_dimension_values by done. unfold tokens_of. split.
  - intros (_ & t & (i & -> & Hi)%elem_of_map & E). rewrite partition_token in E by done. by simplify_eq.
  - set_solver.
Qed.

Lemma dimension_values_kept dim (dims tokens : gset string) :
  colon_free dim = true → dim ∉ dims →
  dimension_values (filter (λ t, (partition t).1 ∉ dims) tokens) dim = dimension_values tokens dim.
Proof.
  intros Hd Hn. apply set_eq. intros v. rewrite !elem_dimension_values by done. setoid_rewrite elem_of_filter.
  split; intros (Hv & t & Ht & E); split; try done; exists t; [by split; [apply Ht|]|]. by rewrite E.
Qed.

Lemma dimension_values_dropped dim (dims tokens : gset string) :
  colon_free dim = true → dim ∈ dims →
  dimension_values (filter (λ t, (partition t).1 ∉ dims) tokens) dim = ∅.
Proof.
  intros Hd Hn. apply set_eq. intros v. rewrite elem_dimension_values by done. setoid_rewrite elem_of_filter.
  split; [|set_solver]. intros (Hv & t & [Ht _] & E). rewrite E in Ht. by simpl in Ht.
Qed.
