(* ===== verification/AccessValidation.v ===== *)
(** Decisions and their public projection (access_context/denials.py), the
    staged validation of a context and the derivation of a delegated child
    (access_context/validation.py). *)

From S2P Require Import Prelude AccessModel.
From stdpp Require Import pretty options.

#[local] Open Scope Z_scope.

(** ** Decisions *)

Inductive DenialReason :=
| CONTEXT_MISSING | CONTEXT_INVALID | CONTEXT_UNSUPPORTED_VERSION | CONTEXT_EXPIRED | CONTEXT_REVOKED
| SCOPE_FORBIDDEN | SCOPE_MISMATCH | OWNERSHIP_CHANGED | LEASE_STALE | TARGET_NOT_FOUND_OR_FORBIDDEN.
#[global] Instance DenialReason_eq_dec : EqDecision DenialReason.
Proof. solve_decision. Defined.

Inductive detail_value := DetailStr (s : string) | DetailInt (z : Z) | DetailBool (b : bool) | DetailNone.
#[global] Instance detail_value_eq_dec : EqDecision detail_value.
Proof. solve_decision. Defined.

Abbreviation detail_map := (gmap string detail_value).

Definition CONTENT_FREE_DETAIL_KEYS : gset string :=
  {["context_id"; "request_id"; "principal_id"; "tenant_id"; "deployment_id"; "profile_id"; "session_id";
    "conversation_id"; "lease_id"; "target_id"; "policy_revision"; "membership_revision"; "revocation_epoch";
    "ownership_generation"; "lease_generation"; "expected_ownership_generation"; "expected_lease_generation";
    "expected_membership_revision"; "expected_revocation_epoch"]}.

Definition safe_detail (d : detail_map) : detail_map :=
  filter (λ x, x.1 ∈ CONTENT_FREE_DETAIL_KEYS) d.

Record Decision := { allowed : bool; denial_reason : option DenialReason; detail : detail_map }.
#[global] Instance Decision_eq_dec : EqDecision Decision.
Proof. solve_decision. Defined.

Inductive decision_error := DecisionValueError.

(** [Decision(allowed, reason, detail)] *)
Definition make_decision (a : bool) (r : option DenialReason) (d : detail_map) : result decision_error Decision :=
  raise_if (a && bool_decide (r ≠ None)) DecisionValueError
    (raise_if (negb a && bool_decide (r = None)) DecisionValueError
      (Ok {| allowed := a; denial_reason := r; detail := safe_detail d |})).

Definition allow (d : detail_map) : Decision :=
  {| allowed := true; denial_reason := None; detail := safe_detail d |}.
Definition deny (r : DenialReason) (d : detail_map) : Decision :=
  {| allowed := false; denial_reason := Some r; detail := safe_detail d |}.

(** [PUBLIC_DENIAL_PROJECTION] *)
Definition PUBLIC_DENIAL_PROJECTION (r : DenialReason) : DenialReason :=
  match r with
  | CONTEXT_MISSING => CONTEXT_MISSING
  | CONTEXT_INVALID => CONTEXT_INVALID
  | CONTEXT_UNSUPPORTED_VERSION => CONTEXT_UNSUPPORTED_VERSION
  | CONTEXT_EXPIRED => CONTEXT_EXPIRED
  | CONTEXT_REVOKED => CONTEXT_REVOKED
  | SCOPE_FORBIDDEN | SCOPE_MISMATCH | OWNERSHIP_CHANGED | LEASE_STALE | TARGET_NOT_FOUND_OR_FORBIDDEN =>
      TARGET_NOT_FOUND_OR_FORBIDDEN
  end.

(** A public decision has no detail. *)
Record PublicDecision := { public_allowed : bool; public_reason : option DenialReason }.
#[global] Instance PublicDecision_eq_dec : EqDecision PublicDecision.
Proof. solve_decision. Defined.

Definition project_public (d : Decision) : PublicDecision :=
  if allowed d then {| public_allowed := true; public_reason := None |}
  else {| public_allowed := false; public_reason := PUBLIC_DENIAL_PROJECTION <$> denial_reason d |}.

(** ** Validation *)

Inductive ValidationStage :=
| ContextPresent | ContextWellFormed | RevisionSupported | NotExpired | NotRevoked | OwnershipCurrent
| LeaseCurrent | ScopePermitted | TargetResolution.
#[global] Instance ValidationStage_eq_dec : EqDecision ValidationStage.
Proof. solve_decision. Defined.

Definition VALIDATION_ORDER : list ValidationStage :=
  [ContextPresent; ContextWellFormed; RevisionSupported; NotExpired; NotRevoked; OwnershipCurrent;
   LeaseCurrent; ScopePermitted; TargetResolution].

Inductive ResolutionMode := STANDARD_UNMANAGED | FAIL_CLOSED | ENFORCING.

Definition resolve_mode (has_context teams_enabled : bool) : ResolutionMode :=
  if negb teams_enabled then STANDARD_UNMANAGED else if has_context then ENFORCING else FAIL_CLOSED.

Record validate_args := {
  required_scope : option strings;
  now : Z;
  revoked : bool;
  revoked_context_ids : option strings;
  current_policy_revision : option Z;
  current_membership_revision : option Z;
  current_revocation_epoch : option Z;
  current_ownership_generation : option Z;
  current_lease_id : option string;
  current_lease_generation : option Z;
  expected_principal_id : option string;
  expected_request_id : option string;
  expected_context_id : option string;
  expected_lease_id : option string;
  requested_collections : option strings;
  target_allowed : option bool
}.

Definition invalid_fields (c : AccessContextV1) : list string :=
  omap (λ f : string * string, if bool_decide (f.2 = "") then Some f.1 else None)
    [("context_id", context_id c); ("request_id", request_id c); ("source_kind", source_kind c);
     ("authenticated_transport", authenticated_transport c); ("deployment_id", deployment_id c);
     ("tenant_id", tenant_id c); ("principal_id", principal_id c); ("profile_id", profile_id c);
     ("profile_incarnation", profile_incarnation c); ("session_id", session_id c);
     ("session_owner_principal_id", session_owner_principal_id c); ("conversation_id", conversation_id c);
     ("conversation_lane", conversation_lane c); ("read_policy_ref", read_policy_ref c); ("lease_id", lease_id c)].

Definition malformed (c : AccessContextV1) : bool :=
  bool_decide (invalid_fields c ≠ []) || bool_decide (expires_at c <= issued_at c)
  || bool_decide (ungranted_operations c ≠ ∅).

Definition is_revoked (a : validate_args) (c : AccessContextV1) : bool :=
  revoked a || bool_decide (context_id c ∈ freeze_strings (revoked_context_ids a))
  || differs (current_revocation_epoch a) (revocation_epoch c)
  || differs (current_membership_revision a) (membership_revision c)
  || differs (current_policy_revision a) (policy_revision c).

Definition owner_required (a : validate_args) : bool :=
  bool_decide ("owner_only" ∈ freeze_strings (required_scope a))
  || bool_decide ("owner" ∈ freeze_strings (required_scope a)).

Definition lease_stale (a : validate_args) (c : AccessContextV1) : bool :=
  differs (expected_lease_id a) (lease_id c) || differs (current_lease_id a) (lease_id c)
  || differs (current_lease_generation a) (lease_generation c).

Definition ownership_denial (a : validate_args) (c : AccessContextV1) : option Decision :=
  if differs (current_ownership_generation a) (ownership_generation c) then
    Some (deny OWNERSHIP_CHANGED
      {["context_id" := DetailStr (context_id c);
        "ownership_generation" := DetailInt (ownership_generation c);
        "expected_ownership_generation" := DetailInt (default 0 (current_ownership_generation a))]})
  else if differs (expected_principal_id a) (principal_id c) then
    Some (deny OWNERSHIP_CHANGED
      {["context_id" := DetailStr (context_id c); "principal_id" := DetailStr (principal_id c)]})
  else if differs (expected_context_id a) (context_id c) then
    Some (deny CONTEXT_INVALID {["request_id" := DetailStr (request_id c)]})
  else if differs (expected_request_id a) (request_id c) then
    Some (deny CONTEXT_INVALID {["context_id" := DetailStr (context_id c)]})
  else if owner_required a && bool_decide (session_owner_principal_id c ≠ principal_id c) then
    Some (deny OWNERSHIP_CHANGED
      {["context_id" := DetailStr (context_id c); "principal_id" := DetailStr (principal_id c)]})
  else None.

Definition scope_denial (a : validate_args) (c : AccessContextV1) : option Decision :=
  let d := {["context_id" := DetailStr (context_id c); "policy_revision" := DetailInt (policy_revision c)]} in
  if (if requested_collections a is Some _ then true else false)
     && bool_decide (collection_allowlist c ≠ ∅)
     && negb (bool_decide (freeze_strings (requested_collections a) ⊆ collection_allowlist c))
  then Some (deny SCOPE_MISMATCH d)
  else if negb (bool_decide (freeze_strings (required_scope a) ⊆ operation_allowlist c))
  then Some (deny SCOPE_FORBIDDEN d)
  else None.

(** What a stage denies; [None] passes. *)
Definition check_stage (a : validate_args) (c : AccessContextV1) (s : ValidationStage) : option Decision :=
  let ids := {["context_id" := DetailStr (context_id c); "request_id" := DetailStr (request_id c)]} in
  match s with
  | ContextPresent => None
  | ContextWellFormed => if malformed c then Some (deny CONTEXT_INVALID ids) else None
  | RevisionSupported =>
      if bool_decide (contract_revision c ≠ ACCESS_CONTEXT_CONTRACT_REVISION)
      then Some (deny CONTEXT_UNSUPPORTED_VERSION {["context_id" := DetailStr (context_id c)]}) else None
  | NotExpired =>
      if bool_decide (expires_at c <= now a) || bool_decide (now a < issued_at c)
      then Some (deny CONTEXT_EXPIRED ids) else None
  | NotRevoked =>
      if is_revoked a c
      then Some (deny CONTEXT_REVOKED
             {["context_id" := DetailStr (context_id c); "policy_revision" := DetailInt (policy_revision c);
               "membership_revision" := DetailInt (membership_revision c);
               "revocation_epoch" := DetailInt (revocation_epoch c)]})
      else None
  | OwnershipCurrent => ownership_denial a c
  | LeaseCurrent =>
      if lease_stale a c
      then Some (deny LEASE_STALE
             {["context_id" := DetailStr (context_id c); "lease_id" := DetailStr (lease_id c);
               "lease_generation" := DetailInt (lease_generation c)]})
      else None
  | ScopePermitted => scope_denial a c
  | TargetResolution =>
      if bool_decide (target_allowed a = Some false) then Some (deny TARGET_NOT_FOUND_OR_FORBIDDEN ∅) else None
  end.

Fixpoint walk (a : validate_args) (c : AccessContextV1) (stages : list ValidationStage) : option Decision :=
  match stages with
  | [] => None
  | s :: stages => match check_stage a c s with Some d => Some d | None => walk a c stages end
  end.

Definition validate (context : option AccessContextV1) (a : validate_args) : Decision :=
  match context with
  | None => deny CONTEXT_MISSING ∅
  | Some c =>
      default (allow {["context_id" := DetailStr (context_id c); "request_id" := DetailStr (request_id c)]})
        (walk a c VALIDATION_ORDER)
  end.

(** ** Delegation *)

Record derive_args := {
  da_operations : strings;
  da_collections : option strings;
  da_audience : option strings;
  da_expires_at : Z;
  da_profile_id : option string;
  da_session_id : option string;
  da_conversation_id : option string;
  da_policy_revision : option Z;
  da_membership_revision : option Z;
  da_revocation_epoch : option Z;
  da_current_policy_revision : option Z;
  da_current_membership_revision : option Z;
  da_current_revocation_epoch : option Z;
  da_child_context_id : option string;
  da_child_request_id : option string
}.

Definition aliases_disagree (x y : option Z) : bool :=
  match x, y with Some a, Some b => bool_decide (a ≠ b) | _, _ => false end.

Definition derive_narrow_args (a : derive_args) : narrow_args :=
  {| na_grants := None; na_operations := Some (da_operations a); na_collections := da_collections a;
     na_collection_allowlist := None; na_audience := da_audience a; na_expires_at := Some (da_expires_at a);
     na_profile_id := da_profile_id a; na_session_id := da_session_id a;
     na_conversation_id := da_conversation_id a; na_default_write_collection_id := None; na_narrowing := None;
     na_policy_revision := or_else (da_policy_revision a) (da_current_policy_revision a);
     na_membership_revision := or_else (da_membership_revision a) (da_current_membership_revision a);
     na_revocation_epoch := or_else (da_revocation_epoch a) (da_current_revocation_epoch a) |}.

(** [x or y] on optional strings. *)
Definition str_or (x : option string) (y : string) : string :=
  match x with Some s => if bool_decide (s = "") then y else s | None => y end.

Definition delegated (n p : AccessContextV1) (cid rid : string) (chain : list string) : AccessContextV1 :=
  {| contract_revision := contract_revision n; context_id := cid; request_id := rid;
     source_kind := source_kind n; authenticated_transport := authenticated_transport n;
     deployment_id := deployment_id n; tenant_id := tenant_id n; principal_id := principal_id n;
     actor_type := actor_type n; profile_id := profile_id n; profile_incarnation := profile_incarnation n;
     session_id := session_id n; session_owner_principal_id := session_owner_principal_id n;
     conversation_id := conversation_id n; conversation_lane := conversation_lane n;
     default_write_collection_id := default_write_collection_id n; read_policy_ref := read_policy_ref n;
     grants := grants n; policy_revision := policy_revision n; membership_revision := membership_revision n;
     revocation_epoch := revocation_epoch n; delegation_chain := chain; delegated_by := context_id p;
     audience := audience n; issued_at := issued_at n; expires_at := expires_at n; narrowing := narrowing n;
     ownership_generation := ownership_generation n; lease_id := lease_id n;
     lease_generation := lease_generation n |}.

Definition child_chain (p : AccessContextV1) : list string :=
  if bool_decide (last (delegation_chain p) = Some (context_id p)) then delegation_chain p
  else delegation_chain p ++ [context_id p].

(** [nonce] is the hex prefix of the call's uuid4. *)
Definition derive_child (nonce : string) (p : AccessContextV1) (a : derive_args)
    : result model_error AccessContextV1 :=
  raise_if (bool_decide (context_id p = "")) ScopeMismatchError (
  raise_if (aliases_disagree (da_policy_revision a) (da_current_policy_revision a)
            || aliases_disagree (da_membership_revision a) (da_current_membership_revision a)
            || aliases_disagree (da_revocation_epoch a) (da_current_revocation_epoch a)) ScopeMismatchError (
  let! n := narrow p (derive_narrow_args a) in
  let chain := child_chain p in
  let suffix := ":child:" +:+ pretty (S (length chain)) +:+ ":" +:+ nonce in
  Ok (delegated n p (str_or (da_child_context_id a) (context_id p +:+ suffix))
        (str_or (da_child_request_id a) (request_id p +:+ suffix)) chain))).
