(* ===== verification/AccessProofs.v ===== *)
(** Narrowing and validation of access contexts: a derived child is a subset of
    its parent, the subset test is transitive and never lets a child validate
    where its parent does not, and the public projection hides which of the
    late stages denied. *)

From Stdlib Require Import Ascii.
From S2P Require Import Prelude AccessModel AccessValidation.
From stdpp Require Import options.

#[local] Open Scope Z_scope.

(** [bools] turns boolean hypotheses into the propositions they decide. *)
Ltac bools :=
  repeat match goal with
  | H : _ && _ = true |- _ => apply andb_true_iff in H as [? ?]
  | H : _ || _ = false |- _ => apply orb_false_iff in H as [? ?]
  | H : negb _ = true |- _ => apply negb_true_iff in H
  | H : negb _ = false |- _ => apply negb_false_iff in H
  | H : bool_decide _ = true |- _ => apply bool_decide_eq_true in H
  | H : bool_decide _ = false |- _ => apply bool_decide_eq_false in H
  end.

(** ** The subset test as a proposition *)

Definition narrower (child parent : gset string) : Prop := parent = ∅ ∨ child ≠ ∅ ∧ child ⊆ parent.

Lemma is_narrower_iff c p : is_narrower c p = true ↔ narrower c p.
Proof. unfold is_narrower, narrower. rewrite orb_true_iff, andb_true_iff, !bool_decide_eq_true. done. Qed.

Lemma narrower_refl s : narrower s s.
Proof. unfold narrower. destruct (decide (s = ∅)); auto. Qed.

Lemma narrower_trans a b c : narrower a b → narrower b c → narrower a c.
Proof. unfold narrower. intros [->|[Ha Hab]] [->|[Hb Hbc]]; auto; set_solver. Qed.

(** Dropping the empty name from a set that a set without it bounds. *)
Lemma narrower_named r cur : "" ∉ cur → narrower r cur → narrower (r ∖ {[""]}) cur.
Proof. intros Hn [->|[Hne Hsub]]; [by left|]. right. set_solver. Qed.

Record same_binding (c p : AccessContextV1) : Prop := {
  sb_deployment : deployment_id c = deployment_id p;
  sb_tenant : tenant_id c = tenant_id p;
  sb_principal : principal_id c = principal_id p;
  sb_actor : actor_type c = actor_type p;
  sb_profile : profile_id c = profile_id p;
  sb_incarnation : profile_incarnation c = profile_incarnation p;
  sb_session : session_id c = session_id p;
  sb_owner : session_owner_principal_id c = session_owner_principal_id p;
  sb_conversation : conversation_id c = conversation_id p;
  sb_lane : conversation_lane c = conversation_lane p;
  sb_policy_ref : read_policy_ref c = read_policy_ref p;
  sb_policy : policy_revision c = policy_revision p;
  sb_membership : membership_revision c = membership_revision p;
  sb_epoch : revocation_epoch c = revocation_epoch p;
  sb_ownership : ownership_generation c = ownership_generation p;
  sb_lease : lease_id c = lease_id p;
  sb_lease_generation : lease_generation c = lease_generation p;
  sb_source : source_kind c = source_kind p;
  sb_transport : authenticated_transport c = authenticated_transport p
}.

Lemma same_bindings_iff c p : same_bindings c p = true ↔ same_binding c p.
Proof.
  unfold same_bindings. rewrite !andb_true_iff, !bool_decide_eq_true. split.
  - intros H. decompose [and] H. by constructor.
  - intros []. split_and!; done.
Qed.

Lemma same_binding_trans a b c : same_binding a b → same_binding b c → same_binding a c.
Proof. intros [] []. constructor; congruence. Qed.

Definition default_ok (c p : AccessContextV1) : Prop :=
  (collection_allowlist c ≠ ∅ → default_write_collection_id c ∈ collection_allowlist c)
  ∧ (collection_allowlist c = ∅ → default_write_collection_id c = default_write_collection_id p).

Lemma default_within_iff c p : default_within c p = true ↔ default_ok c p.
Proof.
  unfold default_within, default_ok.
  destruct (decide (collection_allowlist c = ∅)) as [E|E];
    [rewrite (bool_decide_eq_false_2 (collection_allowlist c ≠ ∅)) by auto
    |rewrite (bool_decide_eq_true_2 (collection_allowlist c ≠ ∅)) by done];
    [rewrite (bool_decide_eq_true_2 (collection_allowlist c = ∅)) by done
    |rewrite (bool_decide_eq_false_2 (collection_allowlist c = ∅)) by done];
    simpl; rewrite ?andb_true_r; repeat case_bool_decide; simpl; naive_solver.
Qed.

Definition provenance_ok (c : AccessContextV1) : Prop := provenance_is_consistent c = true.

Record subset_of (c p : AccessContextV1) : Prop := {
  so_revision : contract_revision c = contract_revision p;
  so_bindings : same_binding c p;
  so_ungranted : ungranted_operations c = ∅;
  so_parent_ungranted : ungranted_operations p = ∅;
  so_grants : grants c ⊆ grants p;
  so_operations : operation_allowlist c ⊆ operation_allowlist p;
  so_audience : narrower (audience c) (audience p);
  so_audience_tokens : narrower (dimension_values (narrowing c) "audience") (dimension_values (narrowing p) "audience");
  so_expires : expires_at c <= expires_at p;
  so_issued : issued_at p <= issued_at c;
  so_chain : delegation_chain p = take (length (delegation_chain p)) (delegation_chain c);
  so_delegation : context_id c = context_id p ∨ context_id p ∈ delegation_chain c;
  so_provenance : provenance_ok c;
  so_parent_provenance : provenance_ok p;
  so_opaque : parent_opaque p ⊆ narrowing c;
  so_collections : narrower (collection_allowlist c) (collection_allowlist p);
  so_default : default_ok c p
}.

Lemma subset_iff c p : is_subset_of c p = true ↔ subset_of c p.
Proof.
  unfold is_subset_of, chain_extends, audience_is_narrower.
  rewrite !andb_true_iff, !is_narrower_iff, orb_true_iff, same_bindings_iff, default_within_iff, !bool_decide_eq_true.
  split.
  - intros H. decompose [and] H. by constructor.
  - intros []. split_and!; done.
Qed.

Lemma take_prefix_elem {A} (a b : list A) x : a = take (length a) b → x ∈ a → x ∈ b.
Proof. intros E Hx. rewrite E in Hx. apply elem_of_take in Hx as (i & Hi & _). by eapply list_elem_of_lookup_2. Qed.

Lemma opaque_elem p t : t ∈ parent_opaque p ↔ t ∈ narrowing p ∧ (partition t).1 ∉ MODELLED_NARROWING_DIMENSIONS.
Proof. unfold parent_opaque. rewrite elem_of_filter. naive_solver. Qed.

Lemma default_ok_trans a b c :
  default_ok a b → default_ok b c → narrower (collection_allowlist a) (collection_allowlist b) → default_ok a c.
Proof.
  intros [H1 H2] [H3 H4] Hn. split; [done|]. intros E. rewrite (H2 E). apply H4.
  destruct Hn as [|[Hne _]]; [done|]. by rewrite E in Hne.
Qed.

Lemma chain_trans (ca cb cc : list string) :
  cb = take (length cb) ca → cc = take (length cc) cb → cc = take (length cc) ca.
Proof.
  intros E1 E2. rewrite E1 in E2. rewrite take_take in E2. rewrite E2 at 1. f_equal.
  apply (f_equal length) in E2. rewrite length_take in E2. lia.
Qed.

Lemma subset_of_trans a b c : subset_of a b → subset_of b c → subset_of a c.
Proof.
  intros A B. constructor.
  - by rewrite (so_revision _ _ A), (so_revision _ _ B).
  - eapply same_binding_trans; [apply A|apply B].
  - apply A.
  - apply B.
  - etrans; [apply A|apply B].
  - etrans; [apply A|apply B].
  - eapply narrower_trans; [apply A|apply B].
  - eapply narrower_trans; [apply A|apply B].
  - etrans; [apply A|apply B].
  - etrans; [apply B|apply A].
  - eapply chain_trans; [apply A|apply B].
  - destruct (so_delegation _ _ B) as [<-|Hin]; [apply A|]. right. eapply take_prefix_elem; [apply A|done].
  - apply A.
  - apply B.
  - intros t Ht. apply (so_opaque _ _ A), opaque_elem. pose proof Ht as [_ Hd]%opaque_elem. split; [|done].
    by apply (so_opaque _ _ B).
  - eapply narrower_trans; [apply A|apply B].
  - eapply default_ok_trans; [apply A|apply B|apply A].
Qed.

(** The subset test is transitive: along a delegation every context stays
    within the authority of the first. *)
Theorem is_subset_of_trans a b c :
  is_subset_of a b = true → is_subset_of b c = true → is_subset_of a c = true.
Proof. rewrite !subset_iff. apply subset_of_trans. Qed.

(** ** Narrowing without explicit tokens *)

Definition audience_synced (p : AccessContextV1) : Prop :=
  dimension_values (narrowing p) "audience" = ∅ ∨ dimension_values (narrowing p) "audience" = audience p.

Lemma no_empty_values tokens dim : colon_free dim = true → "" ∉ dimension_values tokens dim.
Proof. intros Hd [Hv _]%elem_dimension_values; done. Qed.

Lemma no_token_dimensions :
  set_map (D:=gset string) (λ t, (partition t).1) (filter (λ t, (partition t).2 ≠ "") (∅ : gset string)) = ∅.
Proof. apply set_eq. intros x. rewrite elem_of_map. split; [|by intros ?%not_elem_of_empty]. intros (t & _ & [_ Ht]%elem_of_filter). by apply not_elem_of_empty in Ht. Qed.

(** The tokens of a dimension after a call that passes no tokens of its own. *)
Lemma narrowed_values c a g cs au dim (requested : option (gset string)) :
  colon_free dim = true → na_narrowing a = None →
  (dim = "operation" ∧ requested = (if narrowed_operations a is Some _ then Some g else None)
   ∨ dim = "collection" ∧ requested = (if narrowed_collections a is Some _ then Some cs else None)
   ∨ dim = "audience" ∧ requested = (if na_audience a is Some _ then Some au else None)) →
  dimension_values (child_narrowing c a g cs au) dim
  = match requested with Some r => r ∖ {[""]} | None => dimension_values (narrowing c) dim end.
Proof.
  intros Hd Hn Hr. unfold child_narrowing. rewrite !dimension_values_union by done.
  assert (dim ∈ narrowed_dimensions a ↔ is_Some requested) as Hdims.
  { unfold narrowed_dimensions. rewrite Hn. simpl. rewrite no_token_dimensions, (left_id_L ∅ (∪)).
    destruct (narrowed_operations a), (narrowed_collections a), (na_audience a);
      destruct Hr as [[-> ->]|[[-> ->]|[-> ->]]];
      (split; intros Hx; [first [exact (mk_is_Some _ _ eq_refl)|exfalso; set_solver]|first [by destruct Hx|set_solver]]). }
  rewrite Hn. simpl. rewrite dimension_values_empty, (right_id_L ∅ (∪)).
  destruct requested as [r|].
  - rewrite dimension_values_dropped by (try done; by apply Hdims).
    destruct Hr as [[-> Hr]|[[-> Hr]|[-> Hr]]];
      destruct (narrowed_operations a), (narrowed_collections a), (na_audience a); simplify_eq;
      rewrite ?dimension_values_tokens_of, ?dimension_values_empty by done;
      rewrite ?dimension_values_other by done; set_solver.
  - rewrite dimension_values_kept by (try done; intros Hx%Hdims; by destruct Hx).
    destruct Hr as [[-> Hr]|[[-> Hr]|[-> Hr]]];
      destruct (narrowed_operations a), (narrowed_collections a), (na_audience a); simplify_eq;
      rewrite ?dimension_values_empty by done; rewrite ?dimension_values_other by done; set_solver.
Qed.

(** What a narrowing that returned has checked. *)
Record narrowed (c : AccessContextV1) (a : narrow_args) (n : AccessContextV1) (g cs au : gset string) (e : Z) : Prop := {
  nw_child : n = with_authority c (default_write_collection_id c) g au (child_narrowing c a g cs au) e;
  nw_grants : g = match narrowed_operations a with None => grants c | Some o => o end;
  nw_operations : match narrowed_operations a with None => True | Some _ => g ⊆ operation_allowlist c end;
  nw_collections : cs = match narrowed_collections a with None => collection_allowlist c | Some r => r end;
  nw_collections_narrower : narrower cs (collection_allowlist c);
  nw_default : cs ≠ ∅ → default_write_collection_id c ∈ cs;
  nw_audience : au = match na_audience a with None => audience c | Some r => freeze_strings (Some r) end;
  nw_audience_narrower : narrower au (audience c);
  nw_expires : e <= expires_at c
}.

Lemma narrow_set_Ok cur req r :
  narrow_set cur req = Ok r → r = default cur req ∧ narrower r cur.
Proof.
  unfold narrow_set. destruct req as [q|]; [|intros [= ->]; split; [done|apply narrower_refl]].
  intros H. inv_ok. bools. split; [done|]. unfold narrower. destruct (decide (cur = ∅)); [by left|].
  right. apply andb_false_iff in Hr0 as [Hr0|Hr0]; bools; [by destruct Hr0|done].
Qed.

Lemma set_or_empty s : set_or s ∅ = s.
Proof. unfold set_or. by case_bool_decide. Qed.

Lemma narrow_Ok c a n :
  na_narrowing a = None → na_default_write_collection_id a = None → narrow c a = Ok n →
  ∃ g cs au e, narrowed c a n g cs au e.
Proof.
  intros Hn Hd H. unfold narrow in H. rewrite Hn in H. cbn [freeze_strings] in H. inv_ok.
  rename v into g, v0 into cs, v1 into au, v2 into e, v3 into d. exists g, cs, au, e.
  apply narrow_set_Ok in Hb0 as [Hcs Hcn], Hb1 as [Hau Han].
  unfold narrow_default in Hb3. rewrite Hd, dimension_values_empty, set_or_empty in Hb3. inv_ok.
  unfold narrow_expiry in Hb2. inv_ok. bools.
  unfold narrow_operations in Hb. constructor; try done.
  - destruct (narrowed_operations a); inv_ok; done.
  - destruct (narrowed_operations a); inv_ok; bools; done.
  - intros Hne. apply andb_false_iff in Hr3 as [Hr3|Hr3]; bools; [by destruct Hr3|done].
  - by destruct (na_audience a).
  - lia.
Qed.

Lemma operation_allowlist_grants c : operation_allowlist c ⊆ grants c.
Proof. unfold operation_allowlist. case_bool_decide; set_solver. Qed.

(** The effective operations of a child without tokens of its own. *)
Lemma narrowed_allowlist c a n g cs au e :
  na_narrowing a = None → ungranted_operations c = ∅ → narrowed c a n g cs au e →
  ungranted_operations n = ∅ ∧ g ⊆ grants c ∧ operation_allowlist n ⊆ operation_allowlist c.
Proof.
  intros Hn Hu W. destruct W. subst n.
  pose proof (narrowed_values c a g cs au "operation" (if narrowed_operations a is Some _ then Some g else None)
                eq_refl Hn ltac:(by left)) as Hv.
  unfold ungranted_operations, operation_allowlist at 1. simpl.
  destruct (narrowed_operations a) as [o|]; rewrite Hv.
  - pose proof (operation_allowlist_grants c). subst g.
    split; [set_solver|]. split; [set_solver|]. case_bool_decide; set_solver.
  - subst g. split; [done|]. split; [done|]. unfold operation_allowlist. done.
Qed.

(** A narrowing by typed arguments stays within its parent. *)
Lemma narrowed_subset c a n g cs au e :
  na_narrowing a = None → default_write_collection_id c ≠ "" → audience_synced c →
  subset_of c c → narrowed c a n g cs au e → subset_of n c.
Proof.
  intros Hn Hdef Hsync [] W. pose proof (narrowed_allowlist c a n g cs au e Hn so_parent_ungranted0 W) as (Hu & Hg & Ho).
  destruct W. pose proof nw_child0 as E.
  pose proof (narrowed_values c a g cs au "collection" (if narrowed_collections a is Some _ then Some cs else None)
                eq_refl Hn ltac:(by right; left)) as Hcv.
  pose proof (narrowed_values c a g cs au "audience" (if na_audience a is Some _ then Some au else None)
                eq_refl Hn ltac:(by right; right)) as Hav.
  assert (collection_allowlist n = cs ∖ {[""]}) as Hcn.
  { rewrite E. unfold collection_allowlist. simpl. rewrite Hcv. destruct (narrowed_collections a); [done|].
    rewrite nw_collections0. pose proof (no_empty_values (narrowing c) "collection" eq_refl) as Hne.
    unfold collection_allowlist. clear -Hne. set_solver. }
  constructor.
  - by rewrite E.
  - rewrite E. by constructor.
  - exact Hu.
  - exact so_parent_ungranted0.
  - by rewrite E.
  - exact Ho.
  - by rewrite E.
  - rewrite E. simpl. rewrite Hav. destruct (na_audience a) as [r|]; [|apply narrower_refl].
    destruct Hsync as [->| Hs]; [by left|]. rewrite Hs.
    subst au. apply narrower_named; [|done]. rewrite <-Hs. by apply no_empty_values.
  - by rewrite E.
  - rewrite E. simpl. lia.
  - by rewrite E.
  - rewrite E. by left.
  - by rewrite E.
  - exact so_parent_provenance0.
  - intros t [Ht Hd]%opaque_elem. rewrite E. simpl. unfold child_narrowing. rewrite !elem_of_union, elem_of_filter.
    do 4 left. split; [|done]. unfold narrowed_dimensions. rewrite Hn. simpl. rewrite no_token_dimensions.
    unfold MODELLED_NARROWING_DIMENSIONS in Hd.
    clear -Hd. destruct (narrowed_operations a), (narrowed_collections a), (na_audience a); set_solver.
  - rewrite Hcn. apply narrower_named; [|done]. by apply no_empty_values.
  - split; rewrite Hcn.
    + rewrite E. simpl. intros Hne. assert (default_write_collection_id c ∈ cs) as Hin.
      { apply nw_default0. clear -Hne. set_solver. }
      apply elem_of_difference. split; [done|by intros ?%elem_of_singleton].
    + by rewrite E.
Qed.

(** ** Delegation *)

Lemma with_authority_chain c d g au nw e :
  delegation_chain (with_authority c d g au nw e) = delegation_chain c.
Proof. done. Qed.

Lemma last_app_single {A} (l : list A) x : last (l ++ [x]) = Some x.
Proof. apply last_snoc. Qed.

Lemma child_chain_ok p :
  context_id p ≠ "" →
  last (child_chain p) = Some (context_id p)
  ∧ delegation_chain p = take (length (delegation_chain p)) (child_chain p).
Proof.
  intros Hp. unfold child_chain. case_bool_decide as E.
  - split; [done|]. by rewrite firstn_all.
  - split; [apply last_snoc|]. by rewrite take_app_length.
Qed.

(** A child that renames a subset and names its delegator is a subset. *)
Lemma delegated_subset n p cid rid :
  context_id p ≠ "" → subset_of n p → subset_of (delegated n p cid rid (child_chain p)) p.
Proof.
  intros Hp []. destruct (child_chain_ok p Hp) as [Hlast Htake]. constructor; try assumption.
  - destruct so_bindings0. by constructor.
  - right. simpl. apply last_Some_elem_of. done.
  - unfold provenance_ok, provenance_is_consistent. simpl.
    rewrite bool_decide_eq_false_2 by done. by apply bool_decide_eq_true_2.
Qed.

Lemma derive_child_Ok nonce p a c :
  derive_child nonce p a = Ok c →
  context_id p ≠ "" ∧ ∃ n cid rid, narrow p (derive_narrow_args a) = Ok n ∧ c = delegated n p cid rid (child_chain p).
Proof.
  unfold derive_child. intros H. inv_ok. bools. split; [done|]. by eexists v, _, _.
Qed.

Lemma derive_child_narrower nonce p a c :
  derive_child nonce p a = Ok c → is_subset_of p p = true → audience_synced p →
  default_write_collection_id p ≠ "" → subset_of c p.
Proof.
  intros (Hp & n & cid & rid & Hn & ->)%derive_child_Ok Hrefl Hsync Hdef.
  apply subset_iff in Hrefl. apply delegated_subset; [done|].
  destruct (narrow_Ok p (derive_narrow_args a) n eq_refl eq_refl Hn) as (g & cs & au & e & W).
  by apply (narrowed_subset p (derive_narrow_args a) n g cs au e).
Qed.

(** A delegated child is provably within its parent: whatever the requested
    operations, collections, audience and lifetime, a child that derive_child
    returns passes the subset test against a well-formed parent. *)
Theorem derive_child_subset nonce p a c :
  derive_child nonce p a = Ok c → is_subset_of p p = true → audience_synced p →
  default_write_collection_id p ≠ "" → is_subset_of c p = true.
Proof. intros. apply subset_iff. by eapply derive_child_narrower. Qed.

(** ** Validation *)

Record accepts (a : validate_args) (c : AccessContextV1) : Prop := {
  ac_fields : invalid_fields c = [];
  ac_lifetime : issued_at c < expires_at c;
  ac_ungranted : ungranted_operations c = ∅;
  ac_revision : contract_revision c = ACCESS_CONTEXT_CONTRACT_REVISION;
  ac_now : issued_at c <= now a < expires_at c;
  ac_revoked : is_revoked a c = false;
  ac_owner : ownership_denial a c = None;
  ac_lease : lease_stale a c = false;
  ac_collections : requested_collections a = None ∨ collection_allowlist c = ∅
    ∨ freeze_strings (requested_collections a) ⊆ collection_allowlist c;
  ac_operations : freeze_strings (required_scope a) ⊆ operation_allowlist c;
  ac_target : target_allowed a ≠ Some false
}.

Lemma walk_None a c stages : walk a c stages = None ↔ Forall (λ s, check_stage a c s = None) stages.
Proof.
  induction stages as [|s stages IH]; cbn [walk].
  - split; [intros _; constructor|done].
  - rewrite Forall_cons. destruct (check_stage a c s) as [d|].
    + split; [done|by intros [? _]].
    + rewrite IH. split; [by split|by intros [_ ?]].
Qed.

Lemma check_stage_denies a c s d : check_stage a c s = Some d → allowed d = false.
Proof. destruct s; simpl; unfold ownership_denial, scope_denial; repeat case_match; intros; by simplify_eq. Qed.

Lemma walk_denies a c stages d : walk a c stages = Some d → allowed d = false.
Proof.
  induction stages as [|s stages IH]; simpl; [done|]. destruct (check_stage a c s) eqn:E; [|done].
  intros [= <-]. by eapply check_stage_denies.
Qed.

Lemma scope_denial_None a c :
  scope_denial a c = None ↔
  (requested_collections a = None ∨ collection_allowlist c = ∅
   ∨ freeze_strings (requested_collections a) ⊆ collection_allowlist c)
  ∧ freeze_strings (required_scope a) ⊆ operation_allowlist c.
Proof.
  unfold scope_denial. destruct (requested_collections a) as [r|]; simpl.
  - repeat case_bool_decide; simpl; naive_solver.
  - repeat case_bool_decide; simpl; naive_solver.
Qed.

Lemma malformed_false c :
  malformed c = false ↔ invalid_fields c = [] ∧ issued_at c < expires_at c ∧ ungranted_operations c = ∅.
Proof.
  unfold malformed. rewrite !orb_false_iff, !bool_decide_eq_false. split.
  - intros [[H1 H2] H3]. split_and!; [by apply dec_stable|lia|by apply dec_stable].
  - intros (H1 & H2 & H3). split_and!; [by intros []|lia|by intros []].
Qed.

Lemma if_None {A} (b : bool) (x : A) : (if b then Some x else None) = None ↔ b = false.
Proof. by destruct b. Qed.

Lemma validate_accepts c a : allowed (validate (Some c) a) = true ↔ accepts a c.
Proof.
  unfold validate. destruct (walk a c VALIDATION_ORDER) as [d|] eqn:E; simpl.
  - rewrite (walk_denies _ _ _ _ E). split; [done|]. intros []. exfalso.
    assert (walk a c VALIDATION_ORDER = None) as E'; [|congruence].
    apply walk_None. unfold VALIDATION_ORDER. repeat constructor; simpl; rewrite ?if_None, ?scope_denial_None; try done.
    + by apply malformed_false.
    + by apply bool_decide_eq_false_2; intros [].
    + apply orb_false_iff; split; apply bool_decide_eq_false_2; lia.
    + by apply bool_decide_eq_false_2.
  - split; [intros _|done]. apply walk_None in E. unfold VALIDATION_ORDER in E. rewrite !Forall_cons in E. simpl in E.
    rewrite !if_None, scope_denial_None, malformed_false in E.
    destruct E as (_ & (H1 & H2 & H3) & H4 & H5 & H6 & H7 & H8 & (H9 & H10) & H11 & _).
    apply orb_false_iff in H5 as [H5 H5']. apply bool_decide_eq_false in H4, H5, H5', H11.
    constructor; try done; [by apply dec_stable|lia].
Qed.


(** The inputs of a validation that name no particular context. *)
Record impersonal (a : validate_args) (p : AccessContextV1) : Prop := {
  im_context : expected_context_id a = None;
  im_request : expected_request_id a = None;
  im_unrevoked : context_id p ∉ freeze_strings (revoked_context_ids a)
}.

Lemma named_fields_nil (l : list (string * string)) :
  omap (λ f : string * string, if bool_decide (f.2 = "") then Some f.1 else None) l = []
  ↔ Forall (λ f, f.2 ≠ "") l.
Proof.
  induction l as [|f l IH]; [by split; [constructor|]|]. cbn [omap list_omap]. rewrite Forall_cons.
  case_bool_decide; [naive_solver|]. rewrite <-IH. naive_solver.
Qed.

Lemma invalid_fields_nil c :
  invalid_fields c = [] ↔
  context_id c ≠ "" ∧ request_id c ≠ "" ∧ source_kind c ≠ "" ∧ authenticated_transport c ≠ ""
  ∧ deployment_id c ≠ "" ∧ tenant_id c ≠ "" ∧ principal_id c ≠ "" ∧ profile_id c ≠ ""
  ∧ profile_incarnation c ≠ "" ∧ session_id c ≠ "" ∧ session_owner_principal_id c ≠ ""
  ∧ conversation_id c ≠ "" ∧ conversation_lane c ≠ "" ∧ read_policy_ref c ≠ "" ∧ lease_id c ≠ "".
Proof.
  unfold invalid_fields. rewrite named_fields_nil, !Forall_cons, Forall_nil. cbn [snd].
  rewrite (right_id True (∧)). done.
Qed.

Lemma ownership_denial_same a c p :
  same_binding c p → impersonal a p → ownership_denial a c = None → ownership_denial a p = None.
Proof.
  intros [] [Hc Hr _]. unfold ownership_denial. rewrite Hc, Hr, sb_ownership0, sb_principal0, sb_owner0.
  cbn [differs]. destruct (differs (current_ownership_generation a) _); [done|].
  destruct (differs (expected_principal_id a) _); [done|]. by destruct (_ && _).
Qed.

Lemma is_revoked_same a c p :
  same_binding c p → impersonal a p → is_revoked a c = false → is_revoked a p = false.
Proof.
  intros [] [_ _ Hn]. unfold is_revoked. rewrite sb_epoch0, sb_membership0, sb_policy0.
  rewrite !orb_false_iff. intros [[[[H1 _] H2] H3] H4]. split_and!; try done. by apply bool_decide_eq_false_2.
Qed.

(** No authority is gained along a delegation: where a subset context
    validates, its parent validates for the same request. *)
Theorem subset_never_outreaches c p a :
  is_subset_of c p = true → context_id p ≠ "" → request_id p ≠ "" → impersonal a p →
  allowed (validate (Some c) a) = true → allowed (validate (Some p) a) = true.
Proof.
  rewrite subset_iff, !validate_accepts. intros S Hcid Hrid Him [].
  pose proof (so_bindings _ _ S) as B. pose proof B as [].
  apply invalid_fields_nil in ac_fields0. constructor.
  - apply invalid_fields_nil. decompose [and] ac_fields0. split_and!; congruence.
  - pose proof (so_expires _ _ S). pose proof (so_issued _ _ S). lia.
  - apply S.
  - rewrite <-(so_revision _ _ S). done.
  - pose proof (so_expires _ _ S). pose proof (so_issued _ _ S). lia.
  - by eapply is_revoked_same.
  - by eapply ownership_denial_same.
  - unfold lease_stale in *. by rewrite <-sb_lease0, <-sb_lease_generation0.
  - destruct ac_collections0 as [|Hc]; [by left|]. right.
    destruct (so_collections _ _ S) as [->|[Hne Hsub]]; [by left|].
    right. destruct Hc as [|Hc]; [done|]. by etrans.
  - etrans; [done|apply S].
  - done.
Qed.

(** The stages whose outcome the caller may not tell apart. *)
Definition hidden_reason (r : DenialReason) : bool :=
  bool_decide (PUBLIC_DENIAL_PROJECTION r = TARGET_NOT_FOUND_OR_FORBIDDEN).

Definition early_stages : list ValidationStage :=
  [ContextPresent; ContextWellFormed; RevisionSupported; NotExpired; NotRevoked].

Lemma walk_app a c l1 l2 :
  walk a c (l1 ++ l2) = match walk a c l1 with Some d => Some d | None => walk a c l2 end.
Proof. induction l1 as [|s l1 IH]; cbn [walk app]; [done|]. by destruct (check_stage a c s). Qed.

(** A denial of the ownership, lease, scope or target stage is public as "not
    found or forbidden". *)
Lemma late_walk_hidden a c d :
  expected_context_id a = None → expected_request_id a = None →
  walk a c [OwnershipCurrent; LeaseCurrent; ScopePermitted; TargetResolution] = Some d →
  project_public d = {| public_allowed := false; public_reason := Some TARGET_NOT_FOUND_OR_FORBIDDEN |}.
Proof.
  intros Hc Hr. cbn [walk check_stage]. unfold ownership_denial, scope_denial. rewrite Hc, Hr. cbn [differs].
  repeat case_match; intros; simplify_eq; done.
Qed.

(** Two requests on a current context that are both denied look alike to
    the public, whichever of ownership, lease, scope or target denied them. *)
Theorem validate_public_uniform c a b :
  Forall (λ s, check_stage a c s = None) early_stages → Forall (λ s, check_stage b c s = None) early_stages →
  expected_context_id a = None → expected_request_id a = None →
  expected_context_id b = None → expected_request_id b = None →
  allowed (validate (Some c) a) = false → allowed (validate (Some c) b) = false →
  project_public (validate (Some c) a) = project_public (validate (Some c) b).
Proof.
  rewrite <-!walk_None. intros Ea Eb Hc Hr Hc' Hr'. unfold validate.
  change VALIDATION_ORDER with (early_stages ++ [OwnershipCurrent; LeaseCurrent; ScopePermitted; TargetResolution]).
  rewrite !walk_app, Ea, Eb.
  destruct (walk a c [OwnershipCurrent; LeaseCurrent; ScopePermitted; TargetResolution]) as [d|] eqn:Ed; [|by intros].
  destruct (walk b c [OwnershipCurrent; LeaseCurrent; ScopePermitted; TargetResolution]) as [e|] eqn:Ee; [|by intros].
  intros _ _. simpl.
  by rewrite (late_walk_hidden _ _ _ Hc Hr Ed), (late_walk_hidden _ _ _ Hc' Hr' Ee).
Qed.

(** ** Well-formed contexts *)

(** What every delegation needs of its parent and gives its child. *)
Record well_formed (c : AccessContextV1) : Prop := {
  wf_shape : malformed c = false;
  wf_self : is_subset_of c c = true;
  wf_audience : audience_synced c;
  wf_default : default_write_collection_id c ≠ ""
}.

Lemma subset_of_self c p : subset_of c p → subset_of c c.
Proof.
  intros []. constructor; try done; try reflexivity; try apply narrower_refl.
  - by rewrite firstn_all.
  - by left.
  - by intros t [Ht _]%opaque_elem.
  - split; [|done]. apply so_default0.
Qed.

Lemma append_nonempty (a b : string) : b ≠ "" → a +:+ b ≠ "".
Proof. by destruct a. Qed.

Lemma str_or_nonempty x y : y ≠ "" → str_or x y ≠ "".
Proof. intros Hy. destruct x as [s|]; cbn; [by case_bool_decide|done]. Qed.

Lemma narrow_expires c a n x : narrow c a = Ok n → na_expires_at a = Some x → expires_at n = x.
Proof. intros H Hx. unfold narrow in H. inv_ok. cbn. unfold narrow_expiry in *. rewrite Hx in *. by inv_ok. Qed.

Lemma derived_ids nonce p a c :
  derive_child nonce p a = Ok c → context_id c ≠ "" ∧ request_id c ≠ "".
Proof.
  unfold derive_child. intros H. inv_ok. bools. cbn [delegated context_id request_id].
  split; apply str_or_nonempty, append_nonempty; discriminate.
Qed.

Lemma derived_audience nonce p a c :
  derive_child nonce p a = Ok c → "" ∉ freeze_strings (da_audience a) → audience_synced p → audience_synced c.
Proof.
  intros (_ & n & cid & rid & Hn & ->)%derive_child_Ok Hne Hs.
  destruct (narrow_Ok p (derive_narrow_args a) n eq_refl eq_refl Hn) as (g & cs & au & e & W).
  pose proof (narrowed_values p (derive_narrow_args a) g cs au "audience"
                (if da_audience a is Some _ then Some au else None) eq_refl eq_refl ltac:(by right; right)) as Hav.
  destruct W. subst n. unfold audience_synced. cbn. rewrite Hav. cbn in *. destruct (da_audience a) as [r|]; [|by subst au].
  right. subst au. clear -Hne. set_solver.
Qed.

(** C25: Delegation preserves well-formedness: a child of a well-formed parent
    with a lifetime left and no empty audience name is itself a well-formed
    context that may delegate again, and lies within its parent. *)
Theorem derive_child_well_formed nonce p a c :
  well_formed p → derive_child nonce p a = Ok c → issued_at p < da_expires_at a →
  "" ∉ freeze_strings (da_audience a) → well_formed c ∧ is_subset_of c p = true.
Proof.
  intros [Hm Hself Hs Hd] Hc Hlife Hne.
  pose proof (derive_child_narrower _ _ _ _ Hc Hself Hs Hd) as Hsub. pose proof (derived_ids _ _ _ _ Hc) as [Hcid Hrid].
  split; [|by apply subset_iff]. apply malformed_false in Hm as (Hf & _ & _). constructor.
  - apply malformed_false. split_and!; [| |apply Hsub].
    + apply invalid_fields_nil in Hf as (_ & _ & Hf). apply invalid_fields_nil. destruct (so_bindings _ _ Hsub).
      split; [done|]. split; [done|]. by rewrite sb_source0, sb_transport0, sb_deployment0, sb_tenant0, sb_principal0,
        sb_profile0, sb_incarnation0, sb_session0, sb_owner0, sb_conversation0, sb_lane0, sb_policy_ref0, sb_lease0.
    + pose proof Hc as (_ & n & cid & rid & Hn & ->)%derive_child_Ok.
      pose proof (narrow_expires _ _ _ (da_expires_at a) Hn eq_refl) as Hx. cbn. rewrite Hx.
      destruct (narrow_Ok p (derive_narrow_args a) n eq_refl eq_refl Hn) as (g & cs & au & e & W).
      rewrite (nw_child _ _ _ _ _ _ _ W). done.
  - by apply subset_iff, (subset_of_self c p).
  - by eapply derived_audience.
  - pose proof Hc as (_ & n & cid & rid & Hn & ->)%derive_child_Ok.
    destruct (narrow_Ok p (derive_narrow_args a) n eq_refl eq_refl Hn) as (g & cs & au & e & W).
    by rewrite (nw_child _ _ _ _ _ _ _ W).
Qed.

(** ** Concrete contexts *)

Definition sample_context (nw au : gset string) (collection : string) : AccessContextV1 :=
  {| contract_revision := "v1"; context_id := "ctx"; request_id := "req"; source_kind := "host";
     authenticated_transport := "stdio"; deployment_id := "d"; tenant_id := "t"; principal_id := "p";
     actor_type := HUMAN; profile_id := "pr"; profile_incarnation := "i"; session_id := "s";
     session_owner_principal_id := "p"; conversation_id := "cv"; conversation_lane := "l";
     default_write_collection_id := collection; read_policy_ref := "ref"; grants := {["read"; "write"]};
     policy_revision := 1; membership_revision := 1; revocation_epoch := 1; delegation_chain := [];
     delegated_by := ""; audience := au; issued_at := 0; expires_at := 100; narrowing := nw;
     ownership_generation := 1; lease_id := "le"; lease_generation := 1 |}.

Definition no_narrowing : narrow_args :=
  {| na_grants := None; na_operations := None; na_collections := None; na_collection_allowlist := None;
     na_audience := None; na_expires_at := None; na_profile_id := None; na_session_id := None;
     na_conversation_id := None; na_default_write_collection_id := None; na_narrowing := None;
     na_policy_revision := None; na_membership_revision := None; na_revocation_epoch := None |}.

Definition tokens_only (ts : list string) : narrow_args :=
  {| na_grants := None; na_operations := None; na_collections := None; na_collection_allowlist := None;
     na_audience := None; na_expires_at := None; na_profile_id := None; na_session_id := None;
     na_conversation_id := None; na_default_write_collection_id := None; na_narrowing := Some (Strings ts);
     na_policy_revision := None; na_membership_revision := None; na_revocation_epoch := None |}.

(** The subset verdict on what a narrowing returns. *)
Definition narrowed_is_subset (p : AccessContextV1) (a : narrow_args) : option bool :=
  match narrow p a with Ok c => Some (is_subset_of c p) | Err _ => None end.

(** Narrowing by explicit tokens can widen: a token of a dimension the model
    does not interpret replaces the parent's fence in it, an audience token
    replaces the parent's audience tokens when its audience field is empty, and
    a collection token can leave the default write collection outside the
    child's allowlist.  The subset test rejects all three children. *)
Theorem narrow_tokens_widen :
  narrowed_is_subset (sample_context {["region:us"]} ∅ "c1") (tokens_only ["region:eu"]) = Some false
  ∧ narrowed_is_subset (sample_context {["audience:a"]} ∅ "c1") (tokens_only ["audience:b"]) = Some false
  ∧ narrowed_is_subset (sample_context {["collection:c1"; "collection:c2"]} ∅ "c1") (tokens_only ["collection:c2"])
    = Some false
  ∧ is_subset_of (sample_context {["region:us"]} ∅ "c1") (sample_context {["region:us"]} ∅ "c1") = true
  ∧ is_subset_of (sample_context {["audience:a"]} ∅ "c1") (sample_context {["audience:a"]} ∅ "c1") = true
  ∧ is_subset_of (sample_context {["collection:c1"; "collection:c2"]} ∅ "c1")
      (sample_context {["collection:c1"; "collection:c2"]} ∅ "c1") = true.
Proof. vm_compute. split_and!; reflexivity. Qed.

(** ** Witnesses *)

Definition sample_parent : AccessContextV1 := sample_context {["collection:c1"; "region:us"]} {["pr"]} "c1".

Definition sample_derivation : derive_args :=
  {| da_operations := OneString "read"; da_collections := None; da_audience := Some (OneString "pr");
     da_expires_at := 50; da_profile_id := None; da_session_id := None; da_conversation_id := None;
     da_policy_revision := Some 1; da_membership_revision := None; da_revocation_epoch := None;
     da_current_policy_revision := Some 1; da_current_membership_revision := None;
     da_current_revocation_epoch := None; da_child_context_id := Some "child"; da_child_request_id := Some "child-req" |}.

Definition sample_child : AccessContextV1 :=
  delegated (with_authority sample_parent "c1" {["read"]} {["pr"]}
    {["collection:c1"; "region:us"; "operation:read"; "audience:pr"]} 50) sample_parent "child" "child-req" ["ctx"].

Definition sample_request (ops : list string) (target : option bool) (lease : option string) : validate_args :=
  {| required_scope := Some (Strings ops); now := 10; revoked := false; revoked_context_ids := None;
     current_policy_revision := Some 1; current_membership_revision := None; current_revocation_epoch := None;
     current_ownership_generation := None; current_lease_id := lease; current_lease_generation := None;
     expected_principal_id := None; expected_request_id := None; expected_context_id := None;
     expected_lease_id := None; requested_collections := None; target_allowed := target |}.

Lemma derive_child_subset_witness :
  derive_child "0" sample_parent sample_derivation = Ok sample_child ∧ is_subset_of sample_child sample_parent = true.
Proof.
  assert (derive_child "0" sample_parent sample_derivation = Ok sample_child) as H by (vm_compute; reflexivity).
  split; [exact H|]. apply (derive_child_subset "0" sample_parent sample_derivation).
  - exact H.
  - vm_compute; reflexivity.
  - left. vm_compute; reflexivity.
  - discriminate.
Defined.

Lemma subset_never_outreaches_witness :
  allowed (validate (Some sample_child) (sample_request ["read"] None None)) = true
  ∧ allowed (validate (Some sample_parent) (sample_request ["read"] None None)) = true.
Proof.
  split; [vm_compute; reflexivity|].
  apply (subset_never_outreaches sample_child).
  - vm_compute; reflexivity.
  - discriminate.
  - discriminate.
  - split; [reflexivity|reflexivity|]. apply not_elem_of_empty.
  - vm_compute; reflexivity.
Defined.

(** A stale lease and a forbidden scope look the same. *)
Lemma validate_public_uniform_witness :
  validate (Some sample_child) (sample_request ["write"] None None)
    ≠ validate (Some sample_child) (sample_request ["read"] None (Some "other"))
  ∧ project_public (validate (Some sample_child) (sample_request ["write"] None None))
    = project_public (validate (Some sample_child) (sample_request ["read"] None (Some "other"))).
Proof.
  split; [by vm_compute|].
  apply validate_public_uniform; try (vm_compute; reflexivity); repeat (constructor; [vm_compute; reflexivity|]); constructor.
Defined.

Lemma derive_child_well_formed_witness :
  well_formed sample_parent ∧ well_formed sample_child.
Proof.
  assert (well_formed sample_parent) as Hp.
  { constructor; [vm_compute; reflexivity|vm_compute; reflexivity|left; vm_compute; reflexivity|discriminate]. }
  split; [exact Hp|].
  apply (derive_child_well_formed "0" sample_parent sample_derivation sample_child Hp).
  - vm_compute; reflexivity.
  - reflexivity.
  - vm_compute. discriminate.
Defined.
