(* ===== verification/AccessPolicy.v ===== *)
(** The authorization policies behind the seam: the interface every hook calls
    (access_context/protocols.py), the per-principal policy
    (access_policy/teams_policy.py), the default-deny policy
    (access_policy/fail_closed.py) and the unmanaged one
    (access_policy/trusted_owner.py).

    A target scope is a record with one field for each key the policies read or
    write; an absent key and a [None] value are the same where the code reads
    them alike.  An owner lookup is a function that may raise.  The audit sink is
    the list of events handed to it: an exception it raises is swallowed. *)

From S2P Require Import Prelude AccessModel AccessValidation AccessProofs.
From stdpp Require Import options.

#[local] Open Scope Z_scope.

(** ** The interface *)

Record TargetScope := {
  scope_required : option string;
  scope_kind : option string;
  scope_session_id : option string;
  scope_source_session_id : option string;
  scope_partition_key : option string;
  scope_targets : option (list string);  (* target_access_scopes *)
  scope_collection_id : option string;
  scope_access_scope : option string;
  scope_collections : option (list string)  (* collection_allowlist, when present *)
}.

Definition empty_scope : TargetScope :=
  {| scope_required := None; scope_kind := None; scope_session_id := None; scope_source_session_id := None;
     scope_partition_key := None; scope_targets := None; scope_collection_id := None; scope_access_scope := None;
     scope_collections := None |}.

Record audit_event := {
  audit_tenant : string;
  audit_principal : string;
  audit_operation : string;
  audit_allowed : bool;
  audit_reason : option DenialReason
}.
#[global] Instance audit_event_eq_dec : EqDecision audit_event.
Proof. solve_decision. Defined.

(** [AuthorizationRequiredError(primitive, reason)] *)
Record authorization_required := { primitive : string; required_reason : option DenialReason }.

(** What a hook may ask of a policy.  A policy keeps state between calls (its
    owner cache, its records); a disclosure primitive hands back its argument or
    raises. *)
Class LcmAuthorizationConsumer (P : Type) := {
  authorize_operation : P → option AccessContextV1 → string → TargetScope → Decision * P;
  resolve_authorized_targets : P → option AccessContextV1 → string → TargetScope → TargetScope;
  authorize_stored_scope : P → option AccessContextV1 → string → TargetScope → Decision;
  audit_decision : P → option AccessContextV1 → string → option DenialReason → PublicDecision
                   → list audit_event * P;
  disclose : ∀ A : Type, P → string → A → result authorization_required A
}.

(** ** The acting principal *)

(** [a or b] on strings. *)
Definition string_or (a b : string) : string := if bool_decide (a = "") then b else a.

Definition principal_of (c : option AccessContextV1) : string :=
  match c with Some c => string_or (session_owner_principal_id c) (principal_id c) | None => "" end.

Definition tenant_of (c : option AccessContextV1) : string :=
  match c with Some c => tenant_id c | None => "" end.

(** ** The unmanaged policy *)

Record TrustedOwnerPolicy := { trusted_teams_enabled : bool }.

#[global] Instance trusted_owner_consumer : LcmAuthorizationConsumer TrustedOwnerPolicy := {
  authorize_operation p _ _ _ := (allow ∅, p);
  resolve_authorized_targets _ _ _ s := s;
  authorize_stored_scope _ _ _ _ := allow ∅;
  audit_decision p _ _ _ _ := ([], p);
  disclose A _ _ a := Ok a
}.

(** ** The default-deny policy *)

Record FailClosedPolicy := {
  fc_reason : DenialReason;
  fc_records : list (option DenialReason * PublicDecision);
  fc_has_sink : bool;
  fc_context : option AccessContextV1
}.

Definition fail_closed (r : DenialReason) (sink : bool) (c : option AccessContextV1) : FailClosedPolicy :=
  {| fc_reason := r; fc_records := []; fc_has_sink := sink; fc_context := c |}.

Definition fail_closed_deny (p : FailClosedPolicy) : Decision := deny (fc_reason p) ∅.

Definition fail_closed_audit (p : FailClosedPolicy) (c : option AccessContextV1) (operation : string)
    (internal : option DenialReason) (public : PublicDecision) : list audit_event * FailClosedPolicy :=
  let effective := or_else c (fc_context p) in
  (if fc_has_sink p
   then [{| audit_tenant := tenant_of effective; audit_principal := principal_of effective;
            audit_operation := operation; audit_allowed := false; audit_reason := public_reason public |}]
   else [],
   {| fc_reason := fc_reason p; fc_records := fc_records p ++ [(internal, public)];
      fc_has_sink := fc_has_sink p; fc_context := fc_context p |}).

Definition refuse (p : FailClosedPolicy) (name : string) : authorization_required :=
  {| primitive := name; required_reason := public_reason (project_public (fail_closed_deny p)) |}.

#[global] Instance fail_closed_consumer : LcmAuthorizationConsumer FailClosedPolicy := {
  authorize_operation p _ _ _ := (fail_closed_deny p, p);
  resolve_authorized_targets _ _ _ _ := empty_scope;
  authorize_stored_scope p _ _ _ := fail_closed_deny p;
  audit_decision := fail_closed_audit;
  disclose A p name _ := Err (refuse p name)
}.

(** ** The per-principal policy *)

Definition STORE_WIDE_KINDS : list string :=
  ["backup"; "assertions_rebuild"; "embedding_backfill"; "chunk_backfill"].
Definition ADMIN_REQUIRED_SCOPES : list string := ["admin"].
Definition ALLOWLISTED_OPERATIONS : gset string := {["read"; "write"]}.

(** A session's owner: the lookup raised, nothing claims it, or this principal. *)
Inductive owner := OwnerLookupFailed | Unclaimed | OwnedBy (principal : string).
#[global] Instance owner_eq_dec : EqDecision owner.
Proof. solve_decision. Defined.

(** [session_owner(session_id)]; [Err] is any exception. *)
Definition owner_lookup : Type := string → result unit (option string).

Record TeamsPolicy := {
  tp_context : option AccessContextV1;
  tp_has_sink : bool;
  tp_session_owner : option owner_lookup;
  owner_cache : gmap string owner
}.

Definition teams_policy (c : option AccessContextV1) (sink : bool) (l : option owner_lookup) : TeamsPolicy :=
  {| tp_context := c; tp_has_sink := sink; tp_session_owner := l; owner_cache := ∅ |}.

Definition cache_owner (sid : string) (o : owner) (p : TeamsPolicy) : TeamsPolicy :=
  {| tp_context := tp_context p; tp_has_sink := tp_has_sink p; tp_session_owner := tp_session_owner p;
     owner_cache := <[sid := o]> (owner_cache p) |}.

(** [str(owner) if owner else None] *)
Definition resolved (r : result unit (option string)) : owner :=
  match r with
  | Err _ => OwnerLookupFailed
  | Ok (Some o) => if bool_decide (o = "") then Unclaimed else OwnedBy o
  | Ok None => Unclaimed
  end.

Definition target_owner (p : TeamsPolicy) (sid : string) : owner * TeamsPolicy :=
  match tp_session_owner p with
  | None => (Unclaimed, p)
  | Some lookup =>
      match owner_cache p !! sid with
      | Some o => (o, p)
      | None => let o := resolved (lookup sid) in (o, cache_owner sid o p)
      end
  end.

(** The context a decision is made against; [None] for one the policy was not
    built for. *)
Definition effective_context (p : TeamsPolicy) (c : option AccessContextV1)
    : option (option AccessContextV1) :=
  match c with
  | None => Some (tp_context p)
  | Some _ => if bool_decide (c = tp_context p) then Some c else None
  end.

Definition context_collections (c : option AccessContextV1) : gset string :=
  match c with Some c => collection_allowlist c | None => ∅ end.

(** An operation of the allowlist vocabulary that a restricted context lacks. *)
Definition operation_forbidden (c : option AccessContextV1) (operation : string) (s : TargetScope) : bool :=
  match c with
  | None => false
  | Some c =>
      let allowed := operation_allowlist c in
      bool_decide (allowed ≠ ∅)
      && bool_decide (({[operation; default "" (scope_required s)]} ∩ ALLOWLISTED_OPERATIONS) ∖ allowed ≠ ∅)
  end.

(** The keys that may name a target session. *)
Definition scope_sessions (s : TargetScope) : list string :=
  omap (λ t : option string, match t with Some x => if bool_decide (x = "") then None else Some x | None => None end)
    [scope_session_id s; scope_source_session_id s; scope_partition_key s].

Fixpoint check_owners (p : TeamsPolicy) (principal : string) (targets : list string)
    : option DenialReason * TeamsPolicy :=
  match targets with
  | [] => (None, p)
  | t :: targets =>
      let '(o, p) := target_owner p t in
      match o with
      | OwnerLookupFailed => (Some CONTEXT_INVALID, p)
      | OwnedBy q => if bool_decide (q ≠ principal) then (Some SCOPE_FORBIDDEN, p)
                     else check_owners p principal targets
      | Unclaimed => check_owners p principal targets
      end
  end.

Definition teams_authorize (p : TeamsPolicy) (c : option AccessContextV1) (operation : string) (s : TargetScope)
    : Decision * TeamsPolicy :=
  match effective_context p c with
  | None => (deny CONTEXT_INVALID ∅, p)
  | Some effective =>
      let principal := principal_of effective in
      if bool_decide (principal = "") then (deny CONTEXT_INVALID ∅, p)
      else if operation_forbidden effective operation s then (deny SCOPE_FORBIDDEN ∅, p)
      else if bool_decide (default "" (scope_kind s) ∈ STORE_WIDE_KINDS) then (deny SCOPE_FORBIDDEN ∅, p)
      else if bool_decide (default "" (scope_required s) ∈ ADMIN_REQUIRED_SCOPES) then (deny SCOPE_FORBIDDEN ∅, p)
      else
        let '(refused, p) := check_owners p principal (scope_sessions s) in
        match refused with
        | Some r => (deny r ∅, p)
        | None =>
            if existsb (λ o, bool_decide (o ≠ principal)) (default [] (scope_targets s))
            then (deny SCOPE_FORBIDDEN ∅, p)
            else
              let collections := context_collections effective in
              if bool_decide (collections ≠ ∅)
                 && match scope_collection_id s with Some x => negb (bool_decide (x ∈ collections)) | None => false end
              then (deny SCOPE_FORBIDDEN ∅, p)
              else (allow ∅, p)
        end
  end.

Definition with_access (access : string) (s : TargetScope) : TargetScope :=
  {| scope_required := scope_required s; scope_kind := scope_kind s; scope_session_id := scope_session_id s;
     scope_source_session_id := scope_source_session_id s; scope_partition_key := scope_partition_key s;
     scope_targets := scope_targets s; scope_collection_id := scope_collection_id s;
     scope_access_scope := Some access; scope_collections := scope_collections s |}.

Definition with_collections (cs : list string) (s : TargetScope) : TargetScope :=
  {| scope_required := scope_required s; scope_kind := scope_kind s; scope_session_id := scope_session_id s;
     scope_source_session_id := scope_source_session_id s; scope_partition_key := scope_partition_key s;
     scope_targets := scope_targets s; scope_collection_id := scope_collection_id s;
     scope_access_scope := scope_access_scope s; scope_collections := Some cs |}.

Definition teams_resolve (p : TeamsPolicy) (c : option AccessContextV1) (operation : string) (s : TargetScope)
    : TargetScope :=
  match effective_context p c with
  | None => with_collections [] (with_access "" s)
  | Some effective =>
      let principal := principal_of effective in
      if bool_decide (principal = "") then s
      else
        let s' := with_access principal s in
        let allowed := context_collections effective in
        if bool_decide (allowed = ∅) then s'
        else
          with_collections
            (sorted_strings match scope_collections s with
                            | Some requested => allowed ∩ list_to_set requested
                            | None => allowed
                            end) s'
  end.

Definition teams_stored_scope (p : TeamsPolicy) (c : option AccessContextV1) (operation : string) (s : TargetScope)
    : Decision :=
  match effective_context p c with
  | None => deny CONTEXT_INVALID ∅
  | Some effective =>
      let principal := principal_of effective in
      if bool_decide (principal = "") then deny CONTEXT_INVALID ∅
      else match scope_access_scope s with
           | None => allow ∅
           | Some stored => if bool_decide (stored ≠ principal) then deny SCOPE_FORBIDDEN ∅ else allow ∅
           end
  end.

Definition teams_audit (p : TeamsPolicy) (c : option AccessContextV1) (operation : string)
    (internal : option DenialReason) (public : PublicDecision) : list audit_event * TeamsPolicy :=
  let effective := default (tp_context p) (effective_context p c) in
  (if negb (tp_has_sink p) || public_allowed public && bool_decide (operation = "read") then []
   else [{| audit_tenant := tenant_of effective; audit_principal := principal_of effective;
            audit_operation := operation; audit_allowed := public_allowed public;
            audit_reason := public_reason public |}], p).

#[global] Instance teams_consumer : LcmAuthorizationConsumer TeamsPolicy := {
  authorize_operation := teams_authorize;
  resolve_authorized_targets := teams_resolve;
  authorize_stored_scope := teams_stored_scope;
  audit_decision := teams_audit;
  disclose A _ _ a := Ok a
}.

(** ** The owner cache *)

Definition owner_of (p : TeamsPolicy) (sid : string) : owner :=
  match tp_session_owner p with Some lookup => resolved (lookup sid) | None => Unclaimed end.

(** A cached answer is the lookup's. *)
Definition cache_ok (p : TeamsPolicy) : Prop :=
  ∀ sid o, owner_cache p !! sid = Some o → owner_of p sid = o.

(** [p'] is [p] with more answers cached. *)
Record cached_from (p p' : TeamsPolicy) : Prop := {
  cf_context : tp_context p' = tp_context p;
  cf_lookup : tp_session_owner p' = tp_session_owner p;
  cf_ok : cache_ok p'
}.

Lemma cached_refl p : cache_ok p → cached_from p p.
Proof. by constructor. Qed.

Lemma cached_trans p q r : cached_from p q → cached_from q r → cached_from p r.
Proof. intros [] []. constructor; [congruence|congruence|done]. Qed.

Lemma owner_of_cached p p' sid : cached_from p p' → owner_of p' sid = owner_of p sid.
Proof. intros []. unfold owner_of. by rewrite cf_lookup0. Qed.

Lemma target_owner_spec p sid :
  cache_ok p → (target_owner p sid).1 = owner_of p sid ∧ cached_from p (target_owner p sid).2.
Proof.
  intros Hc. unfold target_owner, owner_of. destruct (tp_session_owner p) as [lookup|] eqn:El;
    [|split; [done|by apply cached_refl]].
  destruct (owner_cache p !! sid) as [o|] eqn:Eo; simpl.
  - split; [|by apply cached_refl]. specialize (Hc sid o Eo). unfold owner_of in Hc. by rewrite El in Hc.
  - split; [done|]. constructor; [done|done|]. intros sid' o. simpl. unfold owner_of. simpl. rewrite El.
    destruct (decide (sid = sid')) as [->|Hne].
    + rewrite lookup_insert_eq. by intros [= <-].
    + rewrite lookup_insert_ne by done. intros Ho. specialize (Hc sid' o Ho). unfold owner_of in Hc. by rewrite El in Hc.
Qed.

(** Unclaimed, or the principal's own. *)
Definition accessible (p : TeamsPolicy) (principal sid : string) : Prop :=
  owner_of p sid = Unclaimed ∨ owner_of p sid = OwnedBy principal.

Lemma check_owners_spec p principal ts :
  cache_ok p →
  ((check_owners p principal ts).1 = None ↔ Forall (accessible p principal) ts)
  ∧ cached_from p (check_owners p principal ts).2.
Proof.
  revert p. induction ts as [|t ts IH]; intros p Hc; cbn [check_owners].
  { split; [by split; [constructor|]|by apply cached_refl]. }
  destruct (target_owner_spec p t Hc) as [Ho Hp]. destruct (target_owner p t) as [o q]. cbn [fst snd] in *.
  destruct (IH q (cf_ok _ _ Hp)) as [IH1 IH2]. rewrite Forall_cons.
  assert (Forall (accessible q principal) ts ↔ Forall (accessible p principal) ts) as Hq.
  { apply Forall_iff. intros s. unfold accessible. by rewrite (owner_of_cached _ _ _ Hp). }
  unfold accessible at 1. rewrite <-Ho.
  destruct o as [| |w]; cbn [fst snd].
  - split; [split; [done|naive_solver]|done].
  - split; [rewrite IH1, Hq; naive_solver|by eapply cached_trans].
  - case_bool_decide as Hw; cbn [fst snd].
    + split; [split; [done|naive_solver]|done].
    + subst w. split; [rewrite IH1, Hq; naive_solver|by eapply cached_trans].
Qed.

(** What an allowed operation has been checked against. *)
Record authorized (p : TeamsPolicy) (c : option AccessContextV1) (operation : string) (s : TargetScope) : Prop := {
  au_bound : c = None ∨ c = tp_context p;
  au_principal : principal_of (tp_context p) ≠ "";
  au_operation : operation_forbidden (tp_context p) operation s = false;
  au_kind : default "" (scope_kind s) ∉ STORE_WIDE_KINDS;
  au_required : default "" (scope_required s) ∉ ADMIN_REQUIRED_SCOPES;
  au_sessions : Forall (accessible p (principal_of (tp_context p))) (scope_sessions s);
  au_targets : Forall (λ o, o = principal_of (tp_context p)) (default [] (scope_targets s));
  au_collection : context_collections (tp_context p) = ∅
    ∨ from_option (λ x, x ∈ context_collections (tp_context p)) True (scope_collection_id s)
}.

Lemma effective_context_Some p c e : effective_context p c = Some e → e = tp_context p ∧ (c = None ∨ c = tp_context p).
Proof. unfold effective_context. destruct c; [case_bool_decide as E; [|done]|]; intros [= <-]; auto. Qed.

Lemma effective_context_None p c : effective_context p c = None → c ≠ None ∧ c ≠ tp_context p.
Proof. unfold effective_context. destruct c; [|done]. by case_bool_decide. Qed.

Lemma existsb_others l (q : string) : existsb (λ o, bool_decide (o ≠ q)) l = false ↔ Forall (λ o, o = q) l.
Proof.
  induction l as [|x l IH]; simpl; [by split; [constructor|]|].
  rewrite orb_false_iff, IH, Forall_cons, bool_decide_eq_false. split; intros [H1 H2]; (split; [|done]).
  - by apply dec_stable.
  - by intros [].
Qed.

(** An operation is authorized exactly when the policy's own context names a
    principal, the operation is within a restricted context's allowlist and
    needs no store-wide or administrative authority, every session it names is
    unclaimed or the principal's, every raw target is stamped with the
    principal, and a named collection is in the context's allowlist; the owner
    cache never changes an answer. *)
Theorem teams_authorize_iff p c operation s :
  cache_ok p →
  (allowed (teams_authorize p c operation s).1 = true ↔ authorized p c operation s)
  ∧ cached_from p (teams_authorize p c operation s).2.
Proof.
  intros Hc. unfold teams_authorize. pose proof (cached_refl p Hc) as Hr.
  destruct (effective_context p c) as [e|] eqn:He.
  2: { apply effective_context_None in He as [H1 H2]. split; [|done]. split; [done|]. intros []. naive_solver. }
  apply effective_context_Some in He as [-> Hb]. set (q := principal_of (tp_context p)).
  destruct (decide (q = "")) as [Eq|Eq];
    [rewrite bool_decide_eq_true_2 by done; split; [|done]; split; [done|by intros []]|].
  rewrite bool_decide_eq_false_2 by done.
  destruct (operation_forbidden (tp_context p) operation s) eqn:Ef;
    [split; [|done]; split; [done|]; intros []; congruence|].
  destruct (decide (default "" (scope_kind s) ∈ STORE_WIDE_KINDS)) as [Ek|Ek];
    [rewrite bool_decide_eq_true_2 by done; split; [|done]; split; [done|by intros []]|].
  rewrite bool_decide_eq_false_2 by done.
  destruct (decide (default "" (scope_required s) ∈ ADMIN_REQUIRED_SCOPES)) as [Ea|Ea];
    [rewrite bool_decide_eq_true_2 by done; split; [|done]; split; [done|by intros []]|].
  rewrite bool_decide_eq_false_2 by done.
  destruct (check_owners_spec p q (scope_sessions s) Hc) as [Ho Hp].
  destruct (check_owners p q (scope_sessions s)) as [r p']. cbn [fst snd] in *.
  destruct r as [r|]; [split; [|done]; split; [done|]; intros []; by apply Ho in au_sessions0|].
  assert (Forall (accessible p q) (scope_sessions s)) as Hs by by apply Ho.
  destruct (existsb _ _) eqn:Et.
  { split; [|done]. split; [done|]. intros []. apply existsb_others in au_targets0. unfold q in Et. congruence. }
  apply existsb_others in Et. split; [|by case_match].
  destruct (scope_collection_id s) as [x|] eqn:Ex; repeat case_bool_decide; simpl; (split; [try done|]); intros;
    try constructor; try done; try (by left); try (by right).
  all: try (destruct H1; simpl in *; rewrite ?Ex in *; naive_solver).
  all: try (rewrite Ex; by right).
Qed.

(** ** Target resolution *)

(** The corpus a resolved scope reaches: the rows stamped with one principal, in
    the listed collections when there is a list. *)
Definition reaches (s : TargetScope) (access collection : string) : Prop :=
  scope_access_scope s = Some access ∧ from_option (λ cs, collection ∈ cs) True (scope_collections s).

(** Resolving a scope only narrows and settles at once: the result is stamped
    with the context's principal, lists no collection outside the context's
    allowlist or outside what was asked for, and resolving it again changes
    nothing. *)
Theorem teams_resolve_narrows p operation s :
  principal_of (tp_context p) ≠ "" →
  let r := teams_resolve p None operation s in
  scope_access_scope r = Some (principal_of (tp_context p))
  ∧ (∀ x, from_option (λ cs, x ∈ cs) True (scope_collections r) →
       (context_collections (tp_context p) = ∅ ∨ x ∈ context_collections (tp_context p))
       ∧ from_option (λ cs, x ∈ cs) True (scope_collections s))
  ∧ teams_resolve p None operation r = r.
Proof.
  intros Hp. unfold teams_resolve, effective_context. rewrite bool_decide_eq_false_2 by done.
  case_bool_decide as Ha; cbn zeta.
  - split_and!; [done|intros x Hx; split; [by left|done]|]. by destruct s.
  - destruct (scope_collections s) as [req|] eqn:Er; simpl.
    + split_and!; [done| |].
      * intros x. rewrite sorted_strings_elem. set_solver.
      * unfold with_collections, with_access. simpl. f_equal. f_equal. f_equal. rewrite sorted_strings_set. set_solver.
    + split_and!; [done| |].
      * intros x. rewrite sorted_strings_elem. auto.
      * unfold with_collections, with_access. simpl. f_equal. f_equal. f_equal. rewrite sorted_strings_set. set_solver.
Qed.

(** ** A context narrowed to no operation *)

Definition no_operations : derive_args :=
  {| da_operations := Strings []; da_collections := None; da_audience := None; da_expires_at := 50;
     da_profile_id := None; da_session_id := None; da_conversation_id := None; da_policy_revision := None;
     da_membership_revision := None; da_revocation_epoch := None; da_current_policy_revision := None;
     da_current_membership_revision := None; da_current_revocation_epoch := None;
     da_child_context_id := Some "child"; da_child_request_id := Some "child-req" |}.

Definition write_scope : TargetScope :=
  {| scope_required := Some "write"; scope_kind := None; scope_session_id := None; scope_source_session_id := None;
     scope_partition_key := None; scope_targets := None; scope_collection_id := None; scope_access_scope := None;
     scope_collections := None |}.

(** A child derived with no operations is refused every operation by
    validation, yet the policy built for it authorizes a write: the policy reads
    the empty allowlist as "no restriction". *)
Theorem deny_all_child_authorized :
  ∃ c, derive_child "0" sample_parent no_operations = Ok c
       ∧ operation_allowlist c = ∅
       ∧ denial_reason (validate (Some c) (sample_request ["write"] None None)) = Some SCOPE_FORBIDDEN
       ∧ allowed (authorize_operation (teams_policy (Some c) false None) (Some c) "write" write_scope).1 = true.
Proof. eexists. split; [vm_compute; reflexivity|]. vm_compute. split_and!; reflexivity. Qed.

(** ** Witnesses *)

Definition sample_lookup : owner_lookup := λ sid,
  if bool_decide (sid = "broken") then Err tt else Ok (if bool_decide (sid = "theirs") then Some "q" else Some "p").

Definition session_scope (sid : string) : TargetScope :=
  {| scope_required := None; scope_kind := None; scope_session_id := Some sid; scope_source_session_id := None;
     scope_partition_key := None; scope_targets := None; scope_collection_id := None; scope_access_scope := None;
     scope_collections := None |}.

Definition sample_policy : TeamsPolicy := teams_policy (Some sample_parent) true (Some sample_lookup).

Lemma teams_authorize_iff_witness :
  cache_ok sample_policy
  ∧ allowed (teams_authorize sample_policy None "read" (session_scope "mine")).1 = true
  ∧ ¬ authorized sample_policy None "read" (session_scope "theirs").
Proof.
  assert (cache_ok sample_policy) as Hc 
    by (intros sid o Ho; pose proof (lookup_empty (M:=gmap string) (A:=owner) sid); simpl in Ho; congruence).
  split; [exact Hc|]. split; [vm_compute; reflexivity|].
  destruct (teams_authorize_iff sample_policy None "read" (session_scope "theirs") Hc) as [[_ H] _].
  intros Ha. apply H in Ha. vm_compute in Ha. discriminate.
Defined.

Lemma teams_resolve_narrows_witness :
  principal_of (tp_context sample_policy) = "p"
  ∧ scope_access_scope (teams_resolve sample_policy None "read" (session_scope "mine")) = Some "p".
Proof.
  split; [reflexivity|].
  destruct (teams_resolve_narrows sample_policy "read" (session_scope "mine")) as [H _]; [discriminate|exact H].
Defined.
