(* ===== verification/TeamsCatalog.v ===== *)
(** The Teams catalog (teams/catalog.py): principals, collections, memberships
    and the revision counters that make an issued context stale.

    A table is a finite map by its primary key.  An accessor that reads before it
    writes takes the state it read ([seen]) and the state it writes into: another
    worker may have committed in between.  Each accessor commits all its
    statements or none, so it maps committed states to committed states.  Times
    are integers; a [str] is its code points below 256. *)

From Stdlib Require Import Ascii.
From S2P Require Import Prelude PyText.
From stdpp Require Import options.

#[local] Open Scope Z_scope.

(** ** Tables *)

Inductive status := Active | Suspended.
#[global] Instance status_eq_dec : EqDecision status.
Proof. solve_decision. Defined.

Inductive collection_kind := Own | Shared.
#[global] Instance collection_kind_eq_dec : EqDecision collection_kind.
Proof. solve_decision. Defined.

Record principal_row := { pr_tenant : string; pr_status : status; pr_created : Z; pr_updated : Z }.
Record collection_row := { co_tenant : string; co_kind : collection_kind; co_created : Z }.
Record membership_row := { me_grants : string; me_created : Z }.

Record CatalogRevisions := {
  cat_policy_revision : Z;
  cat_membership_revision : Z;
  cat_revocation_epoch : Z
}.
#[global] Instance CatalogRevisions_eq_dec : EqDecision CatalogRevisions.
Proof. solve_decision. Defined.

Definition zero_revisions : CatalogRevisions :=
  {| cat_policy_revision := 0; cat_membership_revision := 0; cat_revocation_epoch := 0 |}.

Record catalog := {
  principals : gmap string principal_row;
  collections : gmap string collection_row;
  memberships : gmap (string * string) membership_row;
  revisions : gmap string CatalogRevisions
}.

Definition set_principals (m : gmap string principal_row) (c : catalog) : catalog :=
  {| principals := m; collections := collections c; memberships := memberships c; revisions := revisions c |}.
Definition set_collections (m : gmap string collection_row) (c : catalog) : catalog :=
  {| principals := principals c; collections := m; memberships := memberships c; revisions := revisions c |}.
Definition set_memberships (m : gmap (string * string) membership_row) (c : catalog) : catalog :=
  {| principals := principals c; collections := collections c; memberships := m; revisions := revisions c |}.
Definition set_revision_rows (m : gmap string CatalogRevisions) (c : catalog) : catalog :=
  {| principals := principals c; collections := collections c; memberships := memberships c; revisions := m |}.

Definition empty_catalog : catalog :=
  {| principals := ∅; collections := ∅; memberships := ∅; revisions := ∅ |}.

Inductive catalog_error := ValueError | LookupError | InconsistentCatalogError.
#[global] Instance catalog_error_eq_dec : EqDecision catalog_error.
Proof. solve_decision. Defined.

(** ** Revisions *)

Definition known_tenant (c : catalog) (tenant : string) : bool :=
  existsb (λ x : string * principal_row, bool_decide (pr_tenant x.2 = tenant)) (map_to_list (principals c)).

Definition read_revisions (c : catalog) (tenant : string) : result catalog_error CatalogRevisions :=
  match revisions c !! tenant with
  | Some r => Ok r
  | None => raise_if (known_tenant c tenant) InconsistentCatalogError (Ok zero_revisions)
  end.

(** No counter of [a] is above its counter in [b]. *)
Definition revisions_le (a b : CatalogRevisions) : bool :=
  bool_decide (cat_policy_revision a <= cat_policy_revision b)
  && bool_decide (cat_membership_revision a <= cat_membership_revision b)
  && bool_decide (cat_revocation_epoch a <= cat_revocation_epoch b).

Definition not_backwards (stored : option CatalogRevisions) (r : CatalogRevisions) : bool :=
  match stored with Some s => revisions_le s r | None => true end.

(** The read names the counter that regressed; the write re-evaluates the row. *)
Definition set_revisions (seen c : catalog) (tenant : string) (r : CatalogRevisions)
    : result catalog_error catalog :=
  raise_if (negb (not_backwards (revisions seen !! tenant) r)) ValueError
    (raise_if (negb (not_backwards (revisions c !! tenant) r)) ValueError
      (Ok (set_revision_rows (<[tenant := r]> (revisions c)) c))).

Inductive revision_field := PolicyRevision | MembershipRevision | RevocationEpoch.

Definition bumped (f : revision_field) (r : CatalogRevisions) : CatalogRevisions :=
  match f with
  | PolicyRevision => {| cat_policy_revision := cat_policy_revision r + 1;
      cat_membership_revision := cat_membership_revision r; cat_revocation_epoch := cat_revocation_epoch r |}
  | MembershipRevision => {| cat_policy_revision := cat_policy_revision r;
      cat_membership_revision := cat_membership_revision r + 1; cat_revocation_epoch := cat_revocation_epoch r |}
  | RevocationEpoch => {| cat_policy_revision := cat_policy_revision r;
      cat_membership_revision := cat_membership_revision r; cat_revocation_epoch := cat_revocation_epoch r + 1 |}
  end.

(** [_bump_revision_uncommitted] *)
Definition bump_rows (c : catalog) (tenant : string) (f : revision_field) : catalog :=
  set_revision_rows (<[tenant := bumped f (default zero_revisions (revisions c !! tenant))]> (revisions c)) c.

Definition field_of (f : revision_field) (r : CatalogRevisions) : Z :=
  match f with
  | PolicyRevision => cat_policy_revision r
  | MembershipRevision => cat_membership_revision r
  | RevocationEpoch => cat_revocation_epoch r
  end.

Definition bump_revision (c : catalog) (tenant : string) (f : revision_field)
    : result catalog_error (catalog * Z) :=
  let c' := bump_rows c tenant f in
  let! r := read_revisions c' tenant in
  Ok (c', field_of f r).

(** ** Principals *)

Definition read_principal (c : catalog) (pid : string) : option principal_row := principals c !! pid.

(** [provision_principal]; the principal it returns is the arguments'. *)
Definition provision_principal (seen c : catalog) (pid tenant : string) (now : Z) (st : status)
    : result catalog_error catalog :=
  let existing := read_principal seen pid in
  raise_if (match existing with Some r => bool_decide (pr_tenant r ≠ tenant) | None => false end) LookupError
    (if match existing with Some r => bool_decide (pr_status r = st) | None => false end then Ok c
     else
       match principals c !! pid with
       | None =>
           Ok (bump_rows (set_principals (<[pid := {| pr_tenant := tenant; pr_status := st; pr_created := now;
                                                      pr_updated := now |}]> (principals c)) c)
                 tenant MembershipRevision)
       | Some r =>
           raise_if (bool_decide (pr_tenant r ≠ tenant)) LookupError
             (Ok (bump_rows (set_principals (<[pid := {| pr_tenant := pr_tenant r; pr_status := st;
                                                         pr_created := pr_created r; pr_updated := now |}]>
                               (principals c)) c) tenant MembershipRevision))
       end).

Definition suspend_principal (c : catalog) (pid tenant : string) (now : Z) : result catalog_error catalog :=
  match principals c !! pid with
  | Some r =>
      raise_if (bool_decide (pr_tenant r ≠ tenant)) LookupError
        (Ok (bump_rows (set_principals (<[pid := {| pr_tenant := pr_tenant r; pr_status := Suspended;
                                                    pr_created := pr_created r; pr_updated := now |}]>
                          (principals c)) c) tenant RevocationEpoch))
  | None => Err LookupError
  end.

(** ** Collections *)

Definition create_collection (c : catalog) (cid tenant : string) (k : collection_kind) (now : Z)
    : result catalog_error catalog :=
  match collections c !! cid with
  | None => Ok (set_collections (<[cid := {| co_tenant := tenant; co_kind := k; co_created := now |}]>
                                   (collections c)) c)
  | Some r => raise_if (bool_decide (co_tenant r ≠ tenant)) LookupError
                (raise_if (bool_decide (co_kind r ≠ k)) ValueError (Ok c))
  end.

(** ** Grants as one string *)

Definition delimiter : ascii := ","%char.

(** [GRANT_DELIMITER.join(names)] *)
Fixpoint join (names : list string) : string :=
  match names with
  | [] => ""
  | [n] => n
  | n :: names => n +:+ String delimiter (join names)
  end.

(** [s.split(GRANT_DELIMITER)] *)
Fixpoint split_char (s : string) : list string :=
  match s with
  | EmptyString => [""]
  | String a s =>
      if bool_decide (a = delimiter) then "" :: split_char s
      else match split_char s with n :: ns => String a n :: ns | [] => [String a EmptyString] end
  end.

Definition normalized (grants : list string) : list string :=
  sorted_strings (list_to_set (filter (λ g, g ≠ "") (map strip grants))).

Definition read_grants (stored : string) : list string := filter (λ g, g ≠ "") (split_char stored).

(** ** Memberships *)

Definition in_tenant (seen : catalog) (pid cid tenant : string) : bool :=
  match principals seen !! pid, collections seen !! cid with
  | Some p, Some k => bool_decide (pr_tenant p = tenant) && bool_decide (co_tenant k = tenant)
  | _, _ => false
  end.

Definition grant_membership (seen c : catalog) (pid cid : string) (grants : list string) (tenant : string) (now : Z)
    : result catalog_error catalog :=
  let names := normalized grants in
  raise_if (existsb (has_char delimiter) names) ValueError
    (raise_if (negb (in_tenant seen pid cid tenant)) LookupError
      (if match memberships seen !! (pid, cid) with
          | Some m => bool_decide (me_grants m = join names)
          | None => false
          end
       then Ok c
       else
         let created := match memberships c !! (pid, cid) with Some m => me_created m | None => now end in
         Ok (bump_rows (set_memberships (<[(pid, cid) := {| me_grants := join names; me_created := created |}]>
                                           (memberships c)) c) tenant MembershipRevision))).

(** The state after a revocation, and whether a row was deleted. *)
Definition revoke_membership (c : catalog) (pid cid tenant : string) : catalog * bool :=
  match memberships c !! (pid, cid), collections c !! cid with
  | Some _, Some k =>
      if bool_decide (co_tenant k = tenant)
      then (bump_rows (bump_rows (set_memberships (delete (pid, cid) (memberships c)) c) tenant RevocationEpoch)
              tenant MembershipRevision, true)
      else (c, false)
  | _, _ => (c, false)
  end.

(** [read_memberships], by collection id. *)
Definition read_memberships (c : catalog) (pid : string) : list (string * list string) :=
  omap (λ cid, match memberships c !! (pid, cid) with
               | Some m => Some (cid, read_grants (me_grants m))
               | None => None
               end)
    (sorted_strings (set_map (λ k : string * string, k.2)
       (filter (λ k : string * string, k.1 = pid) (dom (memberships c))))).

Definition authorized_collections (c : catalog) (pid grant : string) : list string :=
  match read_principal c pid with
  | Some p => if bool_decide (pr_status p = Active)
              then map fst (filter (λ m : string * list string, grant ∈ m.2) (read_memberships c pid))
              else []
  | None => []
  end.

(** ** The grant encoding *)

Lemma split_char_single n : has_char delimiter n = false → split_char n = [n].
Proof.
  induction n as [|a n IH]; [done|]. cbn [has_char split_char]. intros [Ha Hn]%orb_false_iff.
  rewrite Ha, (IH Hn). done.
Qed.

Lemma split_char_app n s :
  has_char delimiter n = false → split_char (n +:+ String delimiter s) = n :: split_char s.
Proof.
  induction n as [|a n IH]; [done|]. cbn [has_char]. intros [Ha Hn]%orb_false_iff.
  change (String a n +:+ String delimiter s) with (String a (n +:+ String delimiter s)). cbn [split_char].
  by rewrite Ha, (IH Hn).
Qed.

Lemma split_join names :
  names ≠ [] → Forall (λ n, has_char delimiter n = false) names → split_char (join names) = names.
Proof.
  intros Hne HF. induction HF as [|n names Hn HF IH]; [done|]. destruct names as [|m names]; [by apply split_char_single|].
  change (join (n :: m :: names)) with (n +:+ String delimiter (join (m :: names))).
  rewrite split_char_app by done. by rewrite IH.
Qed.

Lemma filter_all {A} (P : A → Prop) `{!∀ x, Decision (P x)} (l : list A) : Forall P l → filter P l = l.
Proof. induction 1 as [|x l Hx HF IH]; [done|]. by rewrite filter_cons_True, IH. Qed.

(** Stored names: not empty and free of the delimiter. *)
Definition storable (names : list string) : Prop :=
  Forall (λ n, n ≠ "" ∧ has_char delimiter n = false) names.

Lemma read_join names : storable names → read_grants (join names) = names.
Proof.
  intros HF. unfold read_grants. destruct names as [|n names]; [done|].
  rewrite split_join; [|done|by eapply Forall_impl; [exact HF|intros ? []]].
  apply filter_all. eapply Forall_impl; [exact HF|]. by intros ? [].
Qed.

Lemma normalized_elem grants n : n ∈ normalized grants ↔ n ≠ "" ∧ ∃ g, g ∈ grants ∧ n = strip g.
Proof.
  unfold normalized. rewrite sorted_strings_elem, elem_of_list_to_set, list_elem_of_filter, list_elem_of_fmap. naive_solver.
Qed.

Lemma normalized_storable grants :
  existsb (has_char delimiter) (normalized grants) = false → storable (normalized grants).
Proof.
  intros He. apply Forall_forall. intros n Hn. split; [by apply normalized_elem in Hn as []|].
  apply not_true_iff_false. intros Hd. apply not_true_iff_false in He. apply He, existsb_exists. exists n.
  split; [by apply list_elem_of_In|done].
Qed.

(** ** How the tables evolve *)

(** What a later state keeps of an earlier one: tenants of principals and
    collections, kinds, and every counter at least where it was. *)
Record evolves (c c' : catalog) : Prop := {
  ev_principals : ∀ pid r, principals c !! pid = Some r →
    ∃ r', principals c' !! pid = Some r' ∧ pr_tenant r' = pr_tenant r;
  ev_collections : ∀ cid r, collections c !! cid = Some r → collections c' !! cid = Some r;
  ev_revisions : ∀ t r, revisions c !! t = Some r → ∃ r', revisions c' !! t = Some r' ∧ revisions_le r r' = true
}.

Lemma revisions_le_iff a b :
  revisions_le a b = true ↔ cat_policy_revision a <= cat_policy_revision b
    ∧ cat_membership_revision a <= cat_membership_revision b ∧ cat_revocation_epoch a <= cat_revocation_epoch b.
Proof. unfold revisions_le. rewrite !andb_true_iff, !bool_decide_eq_true. naive_solver. Qed.

Lemma revisions_le_refl a : revisions_le a a = true.
Proof. apply revisions_le_iff. lia. Qed.

Lemma revisions_le_trans a b c : revisions_le a b = true → revisions_le b c = true → revisions_le a c = true.
Proof. rewrite !revisions_le_iff. lia. Qed.

Lemma revisions_le_bumped f r : revisions_le r (bumped f r) = true.
Proof. apply revisions_le_iff. destruct f; simpl; lia. Qed.

#[global] Instance evolves_preorder : PreOrder evolves.
Proof.
  split.
  - intros c. constructor; [eauto|done|]. intros t r Hr. exists r. by rewrite revisions_le_refl.
  - intros a b c [P1 C1 R1] [P2 C2 R2]. constructor.
    + intros pid r (r1 & H1 & E1)%P1. apply P2 in H1 as (r2 & H2 & E2). exists r2. split; [done|congruence].
    + auto.
    + intros t r (r1 & H1 & E1)%R1. apply R2 in H1 as (r2 & H2 & E2). exists r2. split; [done|].
      by eapply revisions_le_trans.
Qed.

(** Every tenant with principals has counters, and a membership joins a
    principal and a collection of one tenant under a readable grant list. *)
Record catalog_ok (c : catalog) : Prop := {
  ok_tenants : ∀ pid r, principals c !! pid = Some r → is_Some (revisions c !! pr_tenant r);
  ok_memberships : ∀ pid cid m, memberships c !! (pid, cid) = Some m → ∃ p k,
    principals c !! pid = Some p ∧ collections c !! cid = Some k ∧ pr_tenant p = co_tenant k;
  ok_grants : ∀ pid cid m, memberships c !! (pid, cid) = Some m → ∃ names, storable names ∧ me_grants m = join names
}.

Lemma bump_rows_evolves c t f : evolves c (bump_rows c t f).
Proof.
  constructor; simpl; [eauto|done|]. intros t' r Hr. destruct (decide (t = t')) as [->|Hne].
  - rewrite lookup_insert_eq, Hr. eexists. split; [done|]. apply revisions_le_bumped.
  - rewrite lookup_insert_ne by done. exists r. by rewrite revisions_le_refl.
Qed.

Lemma bump_rows_ok c t f : catalog_ok c → catalog_ok (bump_rows c t f).
Proof.
  intros [T M G]. constructor; simpl; [|done|done]. intros pid r Hr.
  destruct (decide (t = pr_tenant r)) as [->|Hne]; [by rewrite lookup_insert_eq|].
  rewrite lookup_insert_ne by done. by apply (T pid).
Qed.

(** A row of a principal that keeps its tenant. *)
Lemma update_principal_ok c pid r st now t f :
  catalog_ok c → principals c !! pid = Some r →
  let c' := bump_rows (set_principals (<[pid := {| pr_tenant := pr_tenant r; pr_status := st;
                         pr_created := pr_created r; pr_updated := now |}]> (principals c)) c) t f in
  catalog_ok c' ∧ evolves c c'.
Proof.
  intros Hok Hr. set (c1 := set_principals _ c).
  assert (catalog_ok c1 ∧ evolves c c1) as [H1 H2].
  { destruct Hok as [T M G]. split; constructor; simpl; try done.
    - intros pid' r'. destruct (decide (pid = pid')) as [->|Hne].
      + rewrite lookup_insert_eq. intros [= <-]. simpl. by apply (T pid').
      + rewrite lookup_insert_ne by done. apply T.
    - intros pid' cid m Hm. destruct (M pid' cid m Hm) as (p & k & Hp & Hk & E).
      destruct (decide (pid = pid')) as [->|Hne].
      + rewrite lookup_insert_eq. eexists _, k. split; [done|]. split; [done|]. simpl. congruence.
      + rewrite lookup_insert_ne by done. by exists p, k.
    - intros pid' r' Hr'. destruct (decide (pid = pid')) as [->|Hne].
      + rewrite lookup_insert_eq. eexists. split; [done|]. simpl. congruence.
      + rewrite lookup_insert_ne by done. eauto.
    - intros t' r' Hr'. exists r'. by rewrite revisions_le_refl. }
  split; [by apply bump_rows_ok|]. etrans; [exact H2|apply bump_rows_evolves].
Qed.

(** One accessor call by some worker. *)
Inductive accessor_step (seen c : catalog) : catalog → Prop :=
| step_set_revisions t r c' : set_revisions seen c t r = Ok c' → accessor_step seen c c'
| step_bump t f c' n : bump_revision c t f = Ok (c', n) → accessor_step seen c c'
| step_provision pid t now st c' : provision_principal seen c pid t now st = Ok c' → accessor_step seen c c'
| step_suspend pid t now c' : suspend_principal c pid t now = Ok c' → accessor_step seen c c'
| step_create cid t k now c' : create_collection c cid t k now = Ok c' → accessor_step seen c c'
| step_grant pid cid gs t now c' : grant_membership seen c pid cid gs t now = Ok c' → accessor_step seen c c'
| step_revoke pid cid t : accessor_step seen c (revoke_membership c pid cid t).1.

Lemma set_revisions_ok seen c t r c' :
  catalog_ok c → set_revisions seen c t r = Ok c' → catalog_ok c' ∧ evolves c c'.
Proof.
  intros [T M G] H. unfold set_revisions in H. inv_ok. apply negb_false_iff in Hr0. split; constructor; simpl; try done.
  - intros pid r' Hr'. destruct (decide (t = pr_tenant r')) as [->|Hne]; [by rewrite lookup_insert_eq|].
    rewrite lookup_insert_ne by done. by apply (T pid).
  - eauto.
  - intros t' r' Hr'. destruct (decide (t = t')) as [->|Hne].
    + rewrite lookup_insert_eq. eexists. split; [done|]. by rewrite Hr' in Hr0.
    + rewrite lookup_insert_ne by done. exists r'. by rewrite revisions_le_refl.
Qed.

Lemma provision_ok seen c pid t now st c' :
  catalog_ok c → provision_principal seen c pid t now st = Ok c' → catalog_ok c' ∧ evolves c c'.
Proof.
  intros Hok H. unfold provision_principal in H. inv_ok. case_match; [by inv_ok|].
  destruct (principals c !! pid) as [r|] eqn:Hp; inv_ok; [by apply update_principal_ok|].
  destruct Hok as [T M G]. split.
  - constructor; simpl.
    + intros pid' r'. destruct (decide (pid = pid')) as [->|Hne].
      * rewrite lookup_insert_eq. intros [= <-]. simpl. by rewrite lookup_insert_eq.
      * rewrite lookup_insert_ne by done. intros Hr'. destruct (decide (t = pr_tenant r')) as [->|Hne'];
          [by rewrite lookup_insert_eq|]. rewrite lookup_insert_ne by done. by apply (T pid').
    + intros pid' cid m Hm. destruct (M pid' cid m Hm) as (p & k & Hp' & Hk & E). exists p, k.
      rewrite lookup_insert_ne by congruence. done.
    + done.
  - etrans; [|apply bump_rows_evolves]. constructor; simpl; [|done|].
    + intros pid' r' Hr'. rewrite lookup_insert_ne by congruence. eauto.
    + intros t' r' Hr'. exists r'. by rewrite revisions_le_refl.
Qed.

Lemma create_collection_ok c cid t k now c' :
  catalog_ok c → create_collection c cid t k now = Ok c' → catalog_ok c' ∧ evolves c c'.
Proof.
  intros [T M G] H. unfold create_collection in H. destruct (collections c !! cid) as [r|] eqn:Hc; inv_ok; [by split|].
  split; constructor; simpl; try done.
  - intros pid cid' m Hm. destruct (M pid cid' m Hm) as (p & k' & Hp & Hk & E). exists p, k'.
    rewrite lookup_insert_ne by congruence. done.
  - eauto.
  - intros cid' r' Hr'. rewrite lookup_insert_ne by congruence. done.
  - intros t' r' Hr'. exists r'. by rewrite revisions_le_refl.
Qed.

Lemma set_memberships_evolves c m : evolves c (set_memberships m c).
Proof. constructor; simpl; [eauto|done|]. intros t r Hr. exists r. by rewrite revisions_le_refl. Qed.

Lemma in_tenant_later seen c pid cid t :
  evolves seen c → in_tenant seen pid cid t = true →
  ∃ p k, principals c !! pid = Some p ∧ collections c !! cid = Some k ∧ pr_tenant p = t ∧ co_tenant k = t.
Proof.
  intros [P C _]. unfold in_tenant. destruct (principals seen !! pid) as [p|] eqn:Hp; [|done].
  destruct (collections seen !! cid) as [k|] eqn:Hk; [|done]. rewrite andb_true_iff, !bool_decide_eq_true.
  intros [Ep Ek]. apply P in Hp as (p' & Hp' & E). apply C in Hk. exists p', k. split_and!; [done|done|congruence|done].
Qed.

Lemma grant_ok seen c pid cid gs t now c' :
  catalog_ok c → evolves seen c → grant_membership seen c pid cid gs t now = Ok c' → catalog_ok c' ∧ evolves c c'.
Proof.
  intros [T M G] Hev H. unfold grant_membership in H. inv_ok. apply negb_false_iff in Hr0.
  destruct (match memberships seen !! (pid, cid) with Some _ => _ | None => _ end); inv_ok; [by split|].
  destruct (in_tenant_later _ _ _ _ _ Hev Hr0) as (p & k & Hp & Hk & Ep & Ek).
  split; [|etrans; [apply set_memberships_evolves|apply bump_rows_evolves]].
  apply bump_rows_ok. constructor; simpl; [done| |].
  - intros pid' cid' m. destruct (decide ((pid, cid) = (pid', cid'))) as [[= <- <-]|Hne].
    + intros _. exists p, k. split_and!; [done|done|congruence].
    + rewrite lookup_insert_ne by done. apply M.
  - intros pid' cid' m. destruct (decide ((pid, cid) = (pid', cid'))) as [[= <- <-]|Hne].
    + rewrite lookup_insert_eq. intros [= <-]. exists (normalized gs). split; [by apply normalized_storable|done].
    + rewrite lookup_insert_ne by done. apply G.
Qed.

Lemma revoke_ok c pid cid t :
  catalog_ok c → catalog_ok (revoke_membership c pid cid t).1 ∧ evolves c (revoke_membership c pid cid t).1.
Proof.
  intros [T M G]. unfold revoke_membership. destruct (memberships c !! (pid, cid)) as [m|]; [|by split].
  destruct (collections c !! cid) as [k|]; [|by split]. case_bool_decide; [|by split]. cbn [fst].
  split; [|etrans; [apply set_memberships_evolves|]; etrans; apply bump_rows_evolves].
  apply bump_rows_ok, bump_rows_ok. constructor; simpl; [done| |].
  - intros pid' cid' m' [_ Hm]%lookup_delete_Some. by eapply M.
  - intros pid' cid' m' [_ Hm]%lookup_delete_Some. by eapply G.
Qed.

Lemma accessor_step_ok seen c c' :
  catalog_ok c → evolves seen c → accessor_step seen c c' → catalog_ok c' ∧ evolves c c'.
Proof.
  intros Hok Hev []; eauto using set_revisions_ok, provision_ok, create_collection_ok, grant_ok, revoke_ok.
  - unfold bump_revision in *. inv_ok. simplify_eq. split; [by apply bump_rows_ok|apply bump_rows_evolves].
  - unfold suspend_principal in *. destruct (principals c !! pid) eqn:Hp; [|done]. inv_ok. by apply update_principal_ok.
Qed.

(** The committed states of a catalog, newest first: each call may have read any
    of them before it wrote. *)
Inductive history : list catalog → Prop :=
| history_empty : history [empty_catalog]
| history_step c h seen c' :
    history (c :: h) → seen ∈ c :: h → accessor_step seen c c' → history (c' :: c :: h).

(** C31: Whatever workers call in whatever order, and however stale their reads,
    the catalog stays consistent: every tenant with principals has its counters,
    a membership never crosses tenants and its grants can be read back, no
    principal or collection changes tenant, and no counter ever goes back. *)
Theorem catalog_history_sound c h :
  history (c :: h) → catalog_ok c ∧ Forall (λ old, evolves old c) h.
Proof.
  remember (c :: h) as l eqn:E. intros Hh. revert c h E. induction Hh as [|c h seen c' Hh IH Hs Hst].
  - intros c0 h0 E. simplify_eq. split; [by constructor|constructor].
  - intros c0 h0 E. injection E as <- <-. destruct (IH c h eq_refl) as [Hok Hev]. rewrite Forall_forall in Hev.
    assert (evolves seen c) as Hseen by (apply elem_of_cons in Hs as [->|Hs]; [done|by apply Hev]).
    destruct (accessor_step_ok seen c c' Hok Hseen Hst) as [Hok' Hev']. split; [done|].
    apply Forall_cons. split; [done|]. apply Forall_forall. intros old Hold. etrans; [by apply Hev|done].
Qed.

(** ** Reading memberships *)

Lemma read_memberships_elem c pid cid gs :
  (cid, gs) ∈ read_memberships c pid ↔
  ∃ m, memberships c !! (pid, cid) = Some m ∧ gs = read_grants (me_grants m).
Proof.
  unfold read_memberships. rewrite list_elem_of_omap. split.
  - intros (x & _ & E). destruct (memberships c !! (pid, x)) as [m|] eqn:Hm; [|done]. injection E as <- <-. by exists m.
  - intros (m & Hm & ->). exists cid. split; [|by rewrite Hm].
    rewrite sorted_strings_elem, elem_of_map. exists (pid, cid). split; [done|].
    rewrite elem_of_filter. split; [done|]. by apply elem_of_dom_2 in Hm.
Qed.

Lemma authorized_elem c pid g cid :
  cid ∈ authorized_collections c pid g ↔
  ∃ p m, principals c !! pid = Some p ∧ pr_status p = Active ∧ memberships c !! (pid, cid) = Some m
    ∧ g ∈ read_grants (me_grants m).
Proof.
  unfold authorized_collections, read_principal. destruct (principals c !! pid) as [p|] eqn:Hp.
  2: { split; [by intros ?%elem_of_nil|by intros (p & m & E & _)]. }
  case_bool_decide as Ha.
  2: { split; [by intros ?%elem_of_nil|intros (p' & m & [= ->] & E & _); done]. }
  rewrite list_elem_of_fmap. split.
  - intros ((k & gs) & E & Hin). simpl in E. subst k. apply list_elem_of_filter in Hin as [Hg Hin].
    apply read_memberships_elem in Hin as (m & Hm & ->). by exists p, m.
  - intros (p' & m & [= <-] & _ & Hm & Hg). exists (cid, read_grants (me_grants m)). split; [done|].
    apply list_elem_of_filter. split; [done|]. apply read_memberships_elem. by exists m.
Qed.

(** A grant is what a read gives back. *)
Lemma granted_row c pid cid gs t now c' :
  grant_membership c c pid cid gs t now = Ok c' →
  storable (normalized gs) ∧ in_tenant c pid cid t = true
  ∧ (∃ m, memberships c' !! (pid, cid) = Some m ∧ me_grants m = join (normalized gs))
  ∧ (∀ k, k ≠ (pid, cid) → memberships c' !! k = memberships c !! k)
  ∧ principals c' = principals c ∧ collections c' = collections c.
Proof.
  unfold grant_membership. intros H. inv_ok. apply negb_false_iff in Hr0.
  split; [by apply normalized_storable|]. split; [done|].
  destruct (memberships c !! (pid, cid)) as [m0|] eqn:Hm0; [case_bool_decide|]; inv_ok.
  - split; [by exists m0|done].
  - cbn. split; [eexists; by rewrite lookup_insert_eq|]. split; [|done]. intros k Hk. by rewrite lookup_insert_ne.
  - cbn. split; [eexists; by rewrite lookup_insert_eq|]. split; [|done]. intros k Hk. by rewrite lookup_insert_ne.
Qed.

(** The comma-joined column loses nothing: after a grant a read of the
    principal's memberships gives exactly the stripped, deduplicated, sorted
    names for that collection and every other membership as before, and granting
    the same names again changes nothing, counters included. *)
Theorem grant_round_trip c pid cid gs t now c' :
  grant_membership c c pid cid gs t now = Ok c' →
  (∀ cid' gs', (cid', gs') ∈ read_memberships c' pid ↔
     if decide (cid' = cid) then gs' = normalized gs else (cid', gs') ∈ read_memberships c pid)
  ∧ (∀ now', grant_membership c' c' pid cid gs t now' = Ok c').
Proof.
  intros H. pose proof (granted_row _ _ _ _ _ _ _ H) as (Hs & Ht & (m & Hm & Em) & Ho & Hp & Hk). split.
  - intros cid' gs'. rewrite read_memberships_elem. destruct (decide (cid' = cid)) as [->|Hne].
    + rewrite Hm. split; [intros (m' & [= <-] & ->)|intros ->; exists m; split; [done|]]; by rewrite Em, read_join.
    + rewrite read_memberships_elem, Ho by congruence. done.
  - intros now'. unfold grant_membership in *. inv_ok. rewrite Hr. cbn.
    unfold in_tenant in *. rewrite Hp, Hk. rewrite Hr0. cbn. rewrite Hm. by rewrite bool_decide_true.
Qed.

(** [authorized_collections] answers exactly the memberships of an active
    principal that carry the grant, and in a consistent catalog each of them is
    an existing collection of the principal's own tenant. *)
Theorem authorized_collections_iff c pid g cid :
  catalog_ok c →
  cid ∈ authorized_collections c pid g ↔
  ∃ p m k, principals c !! pid = Some p ∧ pr_status p = Active ∧ memberships c !! (pid, cid) = Some m
    ∧ g ∈ read_grants (me_grants m) ∧ collections c !! cid = Some k ∧ co_tenant k = pr_tenant p.
Proof.
  intros [_ M _]. rewrite authorized_elem. split.
  - intros (p & m & Hp & Ha & Hm & Hg). destruct (M pid cid m Hm) as (p' & k & Hp' & Hk & E).
    exists p, m, k. split_and!; try done. congruence.
  - intros (p & m & k & Hp & Ha & Hm & Hg & _). by exists p, m.
Qed.

(** The counters of a tenant; zero without a row. *)
Definition counters (c : catalog) (t : string) : CatalogRevisions := default zero_revisions (revisions c !! t).

Lemma counters_bump c t f : counters (bump_rows c t f) t = bumped f (counters c t).
Proof. unfold counters, bump_rows. simpl. by rewrite lookup_insert_eq. Qed.

Lemma counters_evolve c c' t r :
  evolves c c' → revisions c !! t = Some r → revisions_le (counters c t) (counters c' t) = true.
Proof. intros Hev Hr. destruct (ev_revisions _ _ Hev t r Hr) as (r' & Hr' & Hle). unfold counters. by rewrite Hr, Hr'. Qed.

(** An administrator takes access away: the state before and after. *)
Inductive withdraws (c : catalog) (pid t : string) (c' : catalog) : Prop :=
| by_suspension now : suspend_principal c pid t now = Ok c' → withdraws c pid t c'
| by_revocation cid : revoke_membership c pid cid t = (c', true) → withdraws c pid t c'.

Lemma withdrawn_epoch c pid t c' later :
  withdraws c pid t c' → evolves c' later →
  cat_revocation_epoch (counters c t) < cat_revocation_epoch (counters later t).
Proof.
  intros Hw Hev.
  assert (∃ r, revisions c' !! t = Some r ∧ cat_revocation_epoch (counters c t) < cat_revocation_epoch r) as (r & Hr & Hlt).
  { destruct Hw as [now H|cid H].
    - unfold suspend_principal in H. destruct (principals c !! pid); [|done]. inv_ok.
      eexists. split; [cbn; by rewrite lookup_insert_eq|]. unfold counters. cbn. lia.
    - unfold revoke_membership in H. destruct (memberships c !! (pid, cid)); [|done].
      destruct (collections c !! cid); [|done]. case_bool_decide; [|done]. injection H as <-.
      eexists. split; [cbn; by rewrite lookup_insert_eq|]. rewrite lookup_insert_eq. unfold counters. cbn. lia. }
  pose proof (counters_evolve _ _ _ _ Hev Hr) as Hle. apply revisions_le_iff in Hle as (_ & _ & Hle).
  unfold counters at 1 in Hle. rewrite Hr in Hle. simpl in Hle. lia.
Qed.

(** Withdrawing access takes effect at once and stays visible: after a
    suspension the principal is authorized for no collection, after a revocation
    that collection is gone for the principal under every grant, and in both
    cases every later state of the catalog has a higher revocation epoch than
    the one any context could have been issued with before. *)
Theorem withdrawal_raises_epoch c pid t c' :
  withdraws c pid t c' →
  (∀ now g, suspend_principal c pid t now = Ok c' → authorized_collections c' pid g = [])
  ∧ (∀ cid g, revoke_membership c pid cid t = (c', true) → cid ∉ authorized_collections c' pid g)
  ∧ (∀ later, evolves c' later →
       cat_revocation_epoch (counters c t) < cat_revocation_epoch (counters later t)).
Proof.
  intros Hw. split_and!.
  - intros now g. unfold suspend_principal. destruct (principals c !! pid) as [r|]; [|done]. intros H. inv_ok.
    unfold authorized_collections, read_principal. cbn. by rewrite lookup_insert_eq.
  - intros cid g. unfold revoke_membership.
    destruct (memberships c !! (pid, cid)); [|done]. destruct (collections c !! cid); [|done]. case_bool_decide; [|done].
    intros [= <-]. rewrite authorized_elem. cbn. intros (p & m1 & _ & _ & Hm & _). by rewrite lookup_delete_eq in Hm.
  - intros later. by eapply withdrawn_epoch.
Qed.

(** What a read of the counters answers. *)
Lemma read_revisions_counters c t r : read_revisions c t = Ok r → r = counters c t.
Proof. unfold read_revisions, counters. destruct (revisions c !! t); intros H; inv_ok; [by simplify_eq|done]. Qed.

(** ** Samples *)

Definition ok_or {A} (d : A) (r : result catalog_error A) : A := match r with Ok x => x | Err _ => d end.

Definition sample1 : catalog := ok_or empty_catalog (provision_principal empty_catalog empty_catalog "alice" "acme" 1 Active).
Definition sample2 : catalog := ok_or empty_catalog (create_collection sample1 "notes" "acme" Shared 2).
Definition sample3 : catalog :=
  ok_or empty_catalog (grant_membership sample2 sample2 "alice" "notes" [" write"; "read"; "read "]%string "acme" 3).

Lemma sample_history : history [sample3; sample2; sample1; empty_catalog].
Proof.
  apply (history_step _ _ sample2); [|left|].
  2: { apply (step_grant _ _ "alice" "notes" [" write"; "read"; "read "]%string "acme" 3). vm_compute. reflexivity. }
  apply (history_step _ _ sample1); [|left|].
  2: { apply (step_create _ _ "notes" "acme" Shared 2). vm_compute. reflexivity. }
  apply (history_step _ _ empty_catalog); [constructor|left|].
  apply (step_provision _ _ "alice" "acme" 1 Active). vm_compute. reflexivity.
Qed.

Lemma catalog_history_sound_witness :
  catalog_ok sample3 ∧ Forall (λ old, evolves old sample3) [sample2; sample1; empty_catalog].
Proof. exact (catalog_history_sound sample3 [sample2; sample1; empty_catalog] sample_history). Defined.

Lemma grant_round_trip_witness :
  grant_membership sample3 sample3 "alice" "notes" [" write"; "read"; "read "]%string "acme" 9 = Ok sample3
  ∧ read_memberships sample3 "alice" = [("notes", ["read"; "write"])]%string.
Proof.
  split.
  - refine (proj2 (grant_round_trip sample2 "alice" "notes" [" write"; "read"; "read "]%string "acme" 3 sample3 _) 9).
    vm_compute. reflexivity.
  - vm_compute. reflexivity.
Defined.

Lemma sample3_ok : catalog_ok sample3.
Proof.
  assert (catalog_ok empty_catalog) as H0 by by constructor.
  pose proof (provision_ok empty_catalog empty_catalog "alice" "acme" 1 Active sample1 H0 eq_refl) as [H1 _].
  pose proof (create_collection_ok sample1 "notes" "acme" Shared 2 sample2 H1 eq_refl) as [H2 _].
  refine (proj1 (grant_ok sample2 sample2 "alice" "notes" [" write"; "read"; "read "]%string "acme" 3 sample3 H2 _ _)).
  - reflexivity.
  - vm_compute. reflexivity.
Qed.

Lemma authorized_collections_iff_witness :
  "notes"%string ∈ authorized_collections sample3 "alice" "write"
  ∧ ∃ p m k, principals sample3 !! "alice"%string = Some p ∧ pr_status p = Active
      ∧ memberships sample3 !! ("alice", "notes")%string = Some m
      ∧ "write"%string ∈ read_grants (me_grants m) ∧ collections sample3 !! "notes"%string = Some k
      ∧ co_tenant k = pr_tenant p.
Proof.
  assert ("notes"%string ∈ authorized_collections sample3 "alice" "write") as H by (vm_compute; left).
  exact (conj H (proj1 (authorized_collections_iff sample3 "alice" "write" "notes" sample3_ok) H)).
Defined.

Definition sample4 : catalog := ok_or empty_catalog (suspend_principal sample3 "alice" "acme" 5).

Lemma withdrawal_raises_epoch_witness :
  withdraws sample3 "alice" "acme" sample4
  ∧ cat_revocation_epoch (counters sample3 "acme") < cat_revocation_epoch (counters sample4 "acme").
Proof.
  assert (withdraws sample3 "alice" "acme" sample4) as H by (apply (by_suspension _ _ _ _ 5); vm_compute; reflexivity).
  exact (conj H (proj2 (proj2 (withdrawal_raises_epoch sample3 "alice" "acme" _ H)) _ (reflexivity _))).
Defined.
