(* ===== verification/AccessResolution.v ===== *)
(** Resolving the policy for an engine (access_policy/resolution.py): from the
    Teams flag, the host's context accessor and the engine's store to one of the
    three policies, and the owner lookup the Teams policy gets.

    The reads happen at different moments: the connection answers each of them
    separately, with the catalog some other worker may have changed in between.
    [Err] is any exception of the store. *)

From S2P Require Import Prelude AccessModel AccessValidation AccessProofs AccessPolicy TeamsCatalog.
From stdpp Require Import options.

#[local] Open Scope Z_scope.

(** ** What an engine carries *)

(** What the host's accessor may hand back. *)
Inductive carrier := CarrierNone | CarrierContext (c : AccessContextV1) | CarrierOther.

Record connection := {
  schema : result unit (gset string);  (* names in sqlite_master, read as a whole *)
  table_present : string → result unit bool;  (* and read for one name *)
  owner_rows : string → result unit (list (string * option string));  (* session key, stamp *)
  revisions_view : result unit catalog;
  principals_view : string → result unit catalog
}.

Record engine := {
  lcm_teams_enabled : bool;
  get_lcm_access_context : option (result unit carrier);
  store_connection : option connection
}.

(** [None] when nothing callable is there; the accessor's exception propagates. *)
Definition policy_access_context (e : engine) : result unit carrier :=
  default (Ok CarrierNone) (get_lcm_access_context e).

(** ** The owner of a session *)

Definition OWNER_TABLES : list string :=
  ["messages"; "summary_nodes"; "lcm_rollups"; "lcm_rollup_invalidations"; "lcm_rollup_state"].

(** [SELECT DISTINCT access_scope ... WHERE key = ? AND access_scope IS NOT NULL] *)
Definition stamps (rows : list (string * option string)) (session : string) : gset string :=
  list_to_set (omap (λ r : string * option string, if bool_decide (r.1 = session) then r.2 else None) rows).

(** [resolve]'s loop: the stamps found so far and how many tables were read. *)
Fixpoint collect_owners (conn : connection) (session : string) (tables : list string) (owners : gset string)
    (readable : nat) : result unit (gset string * nat) :=
  match tables with
  | [] => Ok (owners, readable)
  | t :: tables =>
      let! present := table_present conn t in
      if (present : bool) then
        let! rows := owner_rows conn t in
        collect_owners conn session tables (owners ∪ stamps rows session) (S readable)
      else collect_owners conn session tables owners readable
  end.

(** [_session_owner_for_engine(engine).resolve(session_id)] *)
Definition session_owner (conn : connection) (session : string) : result unit (option string) :=
  let! found := collect_owners conn session OWNER_TABLES ∅ 0 in
  raise_if (bool_decide (found.2 = 0%nat)) tt
    (raise_if (bool_decide (1 < size found.1)%nat) tt (Ok (head (elements found.1)))).

(** ** The catalog's verdict *)

Definition TEAMS_TABLES : gset string :=
  {["lcm_teams_tenants"; "lcm_teams_principals"; "lcm_teams_collections"; "lcm_teams_memberships";
    "lcm_teams_revisions"; "lcm_teams_audit"; "lcm_teams_requests"]}.

Definition teams_catalog_exists (conn : connection) : result unit bool :=
  let! names := schema conn in
  Ok (bool_decide (size (TEAMS_TABLES ∩ names) = size TEAMS_TABLES)).

Inductive catalog_lookup := LookupOk (r : CatalogRevisions) | LookupUnreadable | LookupNotStoreBacked.

(** Any exception reads as an unreadable catalog. *)
Definition catalog_revisions (e : engine) (c : AccessContextV1) : catalog_lookup :=
  match store_connection e with
  | None => LookupNotStoreBacked
  | Some conn =>
      match teams_catalog_exists conn with
      | Ok true =>
          match revisions_view conn with
          | Ok cat => match read_revisions cat (tenant_id c) with Ok r => LookupOk r | Err _ => LookupUnreadable end
          | Err _ => LookupUnreadable
          end
      | _ => LookupUnreadable
      end
  end.

Definition principal_denial (conn : connection) (name tenant : string) : option DenialReason :=
  match principals_view conn name with
  | Err _ => Some CONTEXT_INVALID
  | Ok cat =>
      match read_principal cat name with
      | None => Some CONTEXT_INVALID
      | Some p =>
          if bool_decide (pr_tenant p ≠ tenant) then Some CONTEXT_INVALID
          else if bool_decide (pr_status p ≠ Active) then Some CONTEXT_REVOKED else None
      end
  end.

Fixpoint first_denial (conn : connection) (names : list string) (tenant : string) : option DenialReason :=
  match names with
  | [] => None
  | n :: names =>
      match principal_denial conn n tenant with Some d => Some d | None => first_denial conn names tenant end
  end.

Definition principal_names (c : AccessContextV1) : list string :=
  principal_id c ::
  (let owner := session_owner_principal_id c in
   if negb (bool_decide (owner = "")) && bool_decide (owner ≠ principal_id c) then [owner] else []).

Definition catalog_principal_denial (e : engine) (c : AccessContextV1) : option DenialReason :=
  match store_connection e with
  | None => None
  | Some conn => first_denial conn (principal_names c) (tenant_id c)
  end.

(** ** Resolution *)

Inductive policy :=
| PolicyTeams (p : TeamsPolicy)
| PolicyTrusted (p : TrustedOwnerPolicy)
| PolicyFailClosed (p : FailClosedPolicy).

(** The [validate] call of [resolve_policy]: the counters it is given, and
    nothing else beside the time. *)
Definition policy_checks (time : Z) (r : option CatalogRevisions) : validate_args :=
  {| required_scope := None; now := time; revoked := false; revoked_context_ids := None;
     current_policy_revision := cat_policy_revision <$> r;
     current_membership_revision := cat_membership_revision <$> r;
     current_revocation_epoch := cat_revocation_epoch <$> r;
     current_ownership_generation := None; current_lease_id := None; current_lease_generation := None;
     expected_principal_id := None; expected_request_id := None; expected_context_id := None;
     expected_lease_id := None; requested_collections := None; target_allowed := None |}.

Definition has_context (c : carrier) : bool := match c with CarrierNone => false | _ => true end.

Definition resolve_policy (c : carrier) (teams_enabled : bool) (time : Z) (r : option CatalogRevisions)
    (sink : bool) (owner : option owner_lookup) : policy :=
  match resolve_mode (has_context c) teams_enabled with
  | STANDARD_UNMANAGED => PolicyTrusted {| trusted_teams_enabled := false |}
  | FAIL_CLOSED => PolicyFailClosed (fail_closed CONTEXT_MISSING sink None)
  | ENFORCING =>
      match c with
      | CarrierContext ctx =>
          let validation := validate (Some ctx) (policy_checks time r) in
          if allowed validation then PolicyTeams (teams_policy (Some ctx) sink owner)
          else PolicyFailClosed (fail_closed (default CONTEXT_INVALID (denial_reason validation)) sink (Some ctx))
      | _ => PolicyFailClosed (fail_closed CONTEXT_INVALID sink None)
      end
  end.

(** The audit sink is the store's: bound when there is a connection. *)
Definition has_sink (e : engine) : bool := if store_connection e is Some _ then true else false.

Definition policy_for_engine (e : engine) (time : Z) : result unit policy :=
  if negb (lcm_teams_enabled e) then Ok (resolve_policy CarrierNone false time None false None)
  else
    let! c := policy_access_context e in
    match c with
    | CarrierContext ctx =>
        match catalog_revisions e ctx with
        | LookupUnreadable => Ok (PolicyFailClosed (fail_closed CONTEXT_INVALID (has_sink e) (Some ctx)))
        | found =>
            match catalog_principal_denial e ctx with
            | Some d => Ok (PolicyFailClosed (fail_closed d (has_sink e) (Some ctx)))
            | None =>
                Ok (resolve_policy c true time (match found with LookupOk r => Some r | _ => None end) (has_sink e)
                      (session_owner <$> store_connection e))
            end
        end
    | _ => Ok (resolve_policy c true time None (has_sink e) None)
    end.

(** Every hook calls the policy it was given through the one interface. *)
#[global] Instance policy_consumer : LcmAuthorizationConsumer policy := {
  authorize_operation p c op s :=
    match p with
    | PolicyTeams t => let '(d, t) := authorize_operation t c op s in (d, PolicyTeams t)
    | PolicyTrusted t => let '(d, t) := authorize_operation t c op s in (d, PolicyTrusted t)
    | PolicyFailClosed t => let '(d, t) := authorize_operation t c op s in (d, PolicyFailClosed t)
    end;
  resolve_authorized_targets p c op s :=
    match p with
    | PolicyTeams t => resolve_authorized_targets t c op s
    | PolicyTrusted t => resolve_authorized_targets t c op s
    | PolicyFailClosed t => resolve_authorized_targets t c op s
    end;
  authorize_stored_scope p c op s :=
    match p with
    | PolicyTeams t => authorize_stored_scope t c op s
    | PolicyTrusted t => authorize_stored_scope t c op s
    | PolicyFailClosed t => authorize_stored_scope t c op s
    end;
  audit_decision p c op i d :=
    match p with
    | PolicyTeams t => let '(e, t) := audit_decision t c op i d in (e, PolicyTeams t)
    | PolicyTrusted t => let '(e, t) := audit_decision t c op i d in (e, PolicyTrusted t)
    | PolicyFailClosed t => let '(e, t) := audit_decision t c op i d in (e, PolicyFailClosed t)
    end;
  disclose A p name a :=
    match p with
    | PolicyTeams t => disclose A t name a
    | PolicyTrusted t => disclose A t name a
    | PolicyFailClosed t => disclose A t name a
    end
}.

(** ** The owner lookup *)

Definition absent (conn : connection) (t : string) : Prop := table_present conn t = Ok false.
Definition reads (conn : connection) (t : string) (rows : list (string * option string)) : Prop :=
  table_present conn t = Ok true ∧ owner_rows conn t = Ok rows.

(** Some row of a present table stamps the session with [w]. *)
Definition claims (conn : connection) (session w : string) (tables : list string) : Prop :=
  ∃ t rows, t ∈ tables ∧ reads conn t rows ∧ (session, Some w) ∈ rows.

(** Every table can be read or is not there. *)
Definition settled_tables (conn : connection) (tables : list string) : Prop :=
  Forall (λ t, absent conn t ∨ ∃ rows, reads conn t rows) tables.

Lemma stamps_elem rows session w : w ∈ stamps rows session ↔ (session, Some w) ∈ rows.
Proof.
  unfold stamps. rewrite elem_of_list_to_set, list_elem_of_omap. split.
  - intros ([k o] & Hin & E). simpl in E. case_bool_decide; [|done]. by simplify_eq.
  - intros Hin. exists (session, Some w). split; [done|]. simpl. by rewrite bool_decide_true.
Qed.

Lemma claims_cons conn session w t tables :
  claims conn session w (t :: tables) ↔
  (∃ rows, reads conn t rows ∧ (session, Some w) ∈ rows) ∨ claims conn session w tables.
Proof. unfold claims. setoid_rewrite elem_of_cons. naive_solver. Qed.

Lemma reads_only conn t rows (P : list (string * option string) → Prop) :
  reads conn t rows → (∃ rows', reads conn t rows' ∧ P rows') ↔ P rows.
Proof.
  intros Hr. split; [|by exists rows]. intros (rows' & [_ Hr'] & HP). destruct Hr as [_ Hr].
  by assert (rows' = rows) as -> by congruence.
Qed.

Lemma collect_owners_Ok conn session tables os n os' n' :
  collect_owners conn session tables os n = Ok (os', n') →
  settled_tables conn tables
  ∧ (∀ w, w ∈ os' ↔ w ∈ os ∨ claims conn session w tables)
  ∧ (n' = 0%nat ↔ n = 0%nat ∧ Forall (absent conn) tables).
Proof.
  revert os n. induction tables as [|t tables IH]; intros os n; cbn [collect_owners].
  - intros [= -> ->]. split_and!; [constructor|intros w; unfold claims; set_solver|split; [by split; [|constructor]|naive_solver]].
  - intros H. apply rbind_Ok in H as (b & Hb & H). destruct b.
    + apply rbind_Ok in H as (rows & Hrows & H). apply IH in H as (Hs & He & Hn).
      assert (reads conn t rows) as Hr by by split. split_and!.
      * constructor; [right; by exists rows|done].
      * intros w. rewrite He, claims_cons, elem_of_union, stamps_elem, (reads_only _ _ _ (λ l, (session, Some w) ∈ l) Hr). tauto.
      * split; [by intros [? _]%Hn|]. intros [_ Hf]. apply Forall_cons in Hf as [Ha _]. unfold absent in Ha. congruence.
    + apply IH in H as (Hs & He & Hn). split_and!.
      * constructor; [by left|done].
      * intros w. rewrite He, claims_cons. split; [tauto|]. intros [?|[(rows & [Hp _] & _)|?]]; [by left|congruence|by right].
      * rewrite Hn, Forall_cons. unfold absent at 2. tauto.
Qed.

Lemma collect_owners_total conn session tables os n :
  settled_tables conn tables → ∃ r, collect_owners conn session tables os n = Ok r.
Proof.
  intros Hs. revert os n. induction Hs as [|t tables [Ha|(rows & Hp & Hrows)] Hs IH]; intros os n; cbn [collect_owners].
  - by eexists.
  - rewrite Ha. apply IH.
  - rewrite Hp. cbn. rewrite Hrows. apply IH.
Qed.

Lemma small_set (s : gset string) (o : option string) :
  (size s ≤ 1)%nat ∧ head (elements s) = o ↔ ∀ w, w ∈ s ↔ o = Some w.
Proof.
  split.
  - intros [Hs <-] w. destruct (decide (size s = 0%nat)) as [E|E].
    + apply size_empty_inv in E. apply leibniz_equiv in E as ->. rewrite elements_empty. simpl. set_solver.
    + assert (size s = 1%nat) as E1 by lia. apply size_1_elem_of in E1 as (x & Hx). apply leibniz_equiv in Hx as ->.
      rewrite elements_singleton. simpl. rewrite elem_of_singleton. naive_solver.
  - intros H. destruct o as [x|].
    + assert (s = {[x]}) as ->; [|by rewrite size_singleton, elements_singleton].
      apply set_eq. intros w. rewrite H, elem_of_singleton. naive_solver.
    + assert (s = ∅) as ->; [|by rewrite size_empty, elements_empty; split; [lia|]].
      apply set_eq. intros w. rewrite H. set_solver.
Qed.

(** The owner lookup answers only what the store proves: it returns exactly
    when every owner table present could be read, at least one is present and no
    two rows disagree; the answer is then the one stamp the session's rows carry,
    or "unclaimed" when no row of any table stamps it. *)
Theorem session_owner_iff conn session o :
  session_owner conn session = Ok o ↔
  settled_tables conn OWNER_TABLES ∧ ¬ Forall (absent conn) OWNER_TABLES
  ∧ ∀ w, claims conn session w OWNER_TABLES ↔ o = Some w.
Proof.
  unfold session_owner. rewrite rbind_Ok. setoid_rewrite raise_if_Ok. setoid_rewrite raise_if_Ok.
  split.
  - intros ([os n] & Hc & Hn & Hs & [= Ho]). apply collect_owners_Ok in Hc as (H1 & H2 & H3). cbn [fst snd] in *. bools.
    split_and!; [done|naive_solver|]. intros w. destruct (small_set os o) as [Hw _].
    rewrite <-Hw by (split; [lia|done]). rewrite H2. set_solver.
  - intros (Hs & Hp & Hw). destruct (collect_owners_total conn session OWNER_TABLES ∅ 0 Hs) as ([os n] & Hc).
    exists (os, n). split; [done|]. apply collect_owners_Ok in Hc as (_ & H2 & H3). cbn [fst snd].
    destruct (small_set os o) as [_ Hset]. destruct Hset as [Hsz Ho]; [intros w; rewrite H2, Hw; set_solver|].
    split_and!; [apply bool_decide_eq_false; naive_solver|apply bool_decide_eq_false; lia|by rewrite Ho].
Qed.

(** ** When the per-principal policy is resolved *)

Definition stands_behind (conn : connection) (tenant name : string) : Prop :=
  ∃ cat row, principals_view conn name = Ok cat ∧ principals cat !! name = Some row
    ∧ pr_tenant row = tenant ∧ pr_status row = Active.

(** What the engine's store says for a context: nothing without a store, and the
    catalog's counters for a principal and session owner it stands behind. *)
Definition backed_by (e : engine) (c : AccessContextV1) (r : option CatalogRevisions) : Prop :=
  match store_connection e with
  | None => r = None
  | Some conn =>
      teams_catalog_exists conn = Ok true
      ∧ (∃ cat rev, revisions_view conn = Ok cat ∧ read_revisions cat (tenant_id c) = Ok rev ∧ r = Some rev)
      ∧ stands_behind conn (tenant_id c) (principal_id c)
      ∧ (session_owner_principal_id c ≠ "" → stands_behind conn (tenant_id c) (session_owner_principal_id c))
  end.

Lemma principal_denial_None conn name t : principal_denial conn name t = None ↔ stands_behind conn t name.
Proof.
  unfold principal_denial, stands_behind, read_principal. destruct (principals_view conn name) as [cat|].
  2: { split; [done|by intros (? & ? & ? & _)]. }
  destruct (principals cat !! name) as [row|] eqn:Hrow.
  2: { split; [done|]. intros (cat' & row & [= <-] & E & _). congruence. }
  split.
  - repeat case_bool_decide; try done. intros _. exists cat, row. split_and!; try done; by apply dec_stable.
  - intros (cat' & row' & [= <-] & E & Ht & Ha). assert (row' = row) as -> by congruence.
    by rewrite !bool_decide_false by (intros []; done).
Qed.

Lemma first_denial_None conn names t : first_denial conn names t = None ↔ Forall (stands_behind conn t) names.
Proof.
  induction names as [|n names IH]; cbn [first_denial]; [by split; [constructor|]|].
  rewrite Forall_cons, <-principal_denial_None, <-IH. destruct (principal_denial conn n t); naive_solver.
Qed.

Lemma stands_behind_names conn c :
  Forall (stands_behind conn (tenant_id c)) (principal_names c) ↔
  stands_behind conn (tenant_id c) (principal_id c)
  ∧ (session_owner_principal_id c ≠ "" → stands_behind conn (tenant_id c) (session_owner_principal_id c)).
Proof.
  unfold principal_names. rewrite Forall_cons.
  destruct (decide (session_owner_principal_id c = "")) as [E|E];
    [rewrite bool_decide_true by done|rewrite bool_decide_false by done]; cbn.
  - rewrite Forall_nil. naive_solver.
  - case_bool_decide as Eo; rewrite ?Forall_singleton, ?Forall_nil; [tauto|].
    rewrite Eo. tauto.
Qed.

Lemma backed_by_iff e c r :
  backed_by e c r ↔
  catalog_principal_denial e c = None
  ∧ ((catalog_revisions e c = LookupNotStoreBacked ∧ r = None) ∨ ∃ rev, catalog_revisions e c = LookupOk rev ∧ r = Some rev).
Proof.
  unfold backed_by, catalog_principal_denial, catalog_revisions.
  destruct (store_connection e) as [conn|].
  2: { split; [intros ->; split; [done|by left]|]. by intros [_ [[_ ?]|(? & ? & _)]]. }
  rewrite first_denial_None, stands_behind_names. split.
  - intros (-> & (cat & rev & -> & -> & ->) & Hf). split; [done|]. right. by exists rev.
  - intros (Hf & Hr). destruct (teams_catalog_exists conn) as [[]|]; [|by destruct Hr as [[? _]|(? & ? & _)]..].
    destruct (revisions_view conn) as [cat|]; [|by destruct Hr as [[? _]|(? & ? & _)]].
    destruct (read_revisions cat (tenant_id c)) as [rev|] eqn:Er; [|by destruct Hr as [[? _]|(? & ? & _)]].
    destruct Hr as [[? _]|(rev' & E & ->)]; [done|]. injection E as <-. split; [done|]. split; [|done]. by exists cat, rev.
Qed.

Lemma resolve_policy_teams c time r sink o p :
  resolve_policy (CarrierContext c) true time r sink o = PolicyTeams p ↔
  allowed (validate (Some c) (policy_checks time r)) = true ∧ p = teams_policy (Some c) sink o.
Proof.
  unfold resolve_policy. cbn beta iota delta [has_context resolve_mode negb].
  destruct (allowed (validate (Some c) (policy_checks time r))); [|by split; [|intros []]].
  split; [by intros [= <-]|by intros [_ ->]].
Qed.

(** With Teams on an engine gets the per-principal policy exactly when the
    host supplied a context, the catalog of its store exists, could be read and
    stands behind both the principal and the session owner, and the context
    passes validation against the counters read; the policy is then bound to that
    context. *)
Theorem policy_for_engine_teams_iff e time p :
  policy_for_engine e time = Ok (PolicyTeams p) ↔
  lcm_teams_enabled e = true ∧ ∃ c r,
    get_lcm_access_context e = Some (Ok (CarrierContext c)) ∧ backed_by e c r
    ∧ allowed (validate (Some c) (policy_checks time r)) = true
    ∧ p = teams_policy (Some c) (has_sink e) (session_owner <$> store_connection e).
Proof.
  unfold policy_for_engine, policy_access_context. destruct (lcm_teams_enabled e); cbn [negb]; [|naive_solver].
  destruct (get_lcm_access_context e) as [[c|]|]; cbn beta iota delta [default from_option rbind id];
    [|split; [done|by intros (_ & ? & ? & ? & _)]..].
  destruct c as [|c|]; [split; [done|by intros (_ & ? & ? & ? & _)]| |split; [done|by intros (_ & ? & ? & ? & _)]].
  setoid_rewrite backed_by_iff. destruct (catalog_principal_denial e c) as [d|] eqn:Hd.
  { split; [by destruct (catalog_revisions e c)|]. intros (_ & c' & r & [= <-] & [E _] & _). congruence. }
  split.
  - intros H. split; [done|]. exists c. destruct (catalog_revisions e c) as [rev| |] eqn:Hr; [|done|].
    + exists (Some rev). injection H as H. apply resolve_policy_teams in H as [Ha ->]. split_and!; try done. right. by exists rev.
    + exists None. injection H as H. apply resolve_policy_teams in H as [Ha ->]. split_and!; try done. by left.
  - intros (_ & c' & r & [= <-] & [_ [[Hr ->]|(rev & Hr & ->)]] & Ha & ->); rewrite Hr; f_equal; by apply resolve_policy_teams.
Qed.

(** A policy that refuses: no operation is allowed, no stored row is disclosed,
    no primitive hands anything back. *)
Definition refuses (p : policy) : Prop :=
  (∀ c op s, allowed (authorize_operation p c op s).1 = false)
  ∧ (∀ c op s, allowed (authorize_stored_scope p c op s) = false)
  ∧ (∀ A name (a : A), ∃ err, disclose A p name a = Err err).

Lemma fail_closed_refuses f : refuses (PolicyFailClosed f).
Proof. split_and!; intros; [done|done|]. cbn. by eexists. Qed.

Lemma resolve_policy_enabled c time r sink o :
  (∃ p, resolve_policy c true time r sink o = PolicyTeams p) ∨ ∃ f, resolve_policy c true time r sink o = PolicyFailClosed f.
Proof.
  unfold resolve_policy. destruct c; cbn beta iota delta [has_context resolve_mode negb]; [by right; eexists| |by right; eexists].
  case_match; [by left; eexists|by right; eexists].
Qed.

(** With Teams on: the per-principal policy or one that refuses. *)
Lemma policy_for_engine_enabled e time p :
  lcm_teams_enabled e = true → policy_for_engine e time = Ok p → (∃ t, p = PolicyTeams t) ∨ refuses p.
Proof.
  intros He. unfold policy_for_engine. rewrite He. cbn [negb]. intros H. apply rbind_Ok in H as (c & _ & H).
  assert (∀ r sink o, Ok (E:=unit) (resolve_policy c true time r sink o) = Ok p → (∃ t, p = PolicyTeams t) ∨ refuses p) as Hres.
  { intros r sink o [= <-]. destruct (resolve_policy_enabled c time r sink o) as [[t ->]|[f ->]];
      [by left; eexists|right; apply fail_closed_refuses]. }
  destruct c as [|c|]; [by eapply Hres| |by eapply Hres].
  destruct (catalog_revisions e c); [| |].
  - destruct (catalog_principal_denial e c); [injection H as <-; right; apply fail_closed_refuses|by eapply Hres].
  - injection H as <-. right. apply fail_closed_refuses.
  - destruct (catalog_principal_denial e c); [injection H as <-; right; apply fail_closed_refuses|by eapply Hres].
Qed.

(** Resolution fails closed and never falls back: with Teams off it returns
    the unmanaged policy whatever the accessor and the store do, with Teams on it
    never does, raises only what the accessor raises, and every policy it returns
    other than the per-principal one refuses every operation, every stored row
    and every disclosure. *)
Theorem resolution_fails_closed e time :
  (lcm_teams_enabled e = false → policy_for_engine e time = Ok (PolicyTrusted {| trusted_teams_enabled := false |}))
  ∧ (lcm_teams_enabled e = true → ∀ p, policy_for_engine e time = Ok p →
       (∃ t, p = PolicyTeams t) ∨ refuses p)
  ∧ (policy_for_engine e time = Err tt ↔
       lcm_teams_enabled e = true ∧ get_lcm_access_context e = Some (Err tt)).
Proof.
  split_and!.
  - intros He. unfold policy_for_engine. by rewrite He.
  - intros He p. by apply policy_for_engine_enabled.
  - unfold policy_for_engine, policy_access_context. destruct (lcm_teams_enabled e); cbn [negb]; [|by split; [|intros []]].
    destruct (get_lcm_access_context e) as [[c|[]]|]; cbn beta iota delta [default from_option rbind id].
    + split; [|by intros []]. destruct c as [|c|]; [done| |done].
      destruct (catalog_revisions e c), (catalog_principal_denial e c); done.
    + by split.
    + split; [done|by intros []].
Qed.

(** ** Withdrawing access *)

(** The contexts derived from one, any number of hops. *)
Inductive delegates (c : AccessContextV1) : AccessContextV1 → Prop :=
| delegates_self : delegates c c
| delegates_child nonce p a child :
    delegates c p → derive_child nonce p a = Ok child → delegates c child.

Lemma delegates_same c d : delegates c d → tenant_id d = tenant_id c ∧ revocation_epoch d = revocation_epoch c.
Proof.
  induction 1 as [|nonce p a child _ [IH1 IH2] H]; [done|].
  apply derive_child_Ok in H as (_ & n & cid & rid & Hn & ->).
  destruct (narrow_Ok p (derive_narrow_args a) n eq_refl eq_refl Hn) as (g & cs & au & x & W).
  rewrite (nw_child _ _ _ _ _ _ _ W). by split.
Qed.

Lemma validated_epoch c time r rev :
  allowed (validate (Some c) (policy_checks time r)) = true → r = Some rev →
  revocation_epoch c = cat_revocation_epoch rev.
Proof.
  intros Ha ->. apply validate_accepts in Ha as [_ _ _ _ _ Hr _ _ _ _ _]. unfold is_revoked in Hr. bools.
  unfold differs in *. simpl in *. bools. symmetry. by apply dec_stable.
Qed.

(** C13: Withdrawal reaches every delegate: once a principal of a tenant was
    suspended or a membership revoked, an engine carrying any context of that
    tenant issued before, or any child derived from one however many hops away,
    gets only a refusing policy from every later state of the catalog, and from a
    catalog that cannot be read. *)
Theorem withdrawn_delegates_refused c0 pid c1 ctx d e conn time p :
  withdraws c0 pid (tenant_id ctx) c1 →
  revocation_epoch ctx <= cat_revocation_epoch (counters c0 (tenant_id ctx)) →
  delegates ctx d →
  lcm_teams_enabled e = true → get_lcm_access_context e = Some (Ok (CarrierContext d)) →
  store_connection e = Some conn → (∀ c2, revisions_view conn = Ok c2 → evolves c1 c2) →
  policy_for_engine e time = Ok p → refuses p.
Proof.
  intros Hw Hissued Hd He Hget Hconn Hlater Hp. apply delegates_same in Hd as [Ht Hr].
  destruct (policy_for_engine_enabled e time p He Hp) as [[t ->]|Hrefuses]; [exfalso|done].
  pose proof Hp as Hall. unfold policy_for_engine, policy_access_context in Hall. rewrite He, Hget in Hall.
  cbn beta iota delta [negb default from_option rbind id] in Hall.
  unfold catalog_revisions in Hall. rewrite Hconn in Hall. destruct (teams_catalog_exists conn) as [[]|]; [|done..].
  destruct (revisions_view conn) as [c2|] eqn:Hview; [|done].
  destruct (read_revisions c2 (tenant_id d)) as [rev|] eqn:Hrev; [|done].
  destruct (catalog_principal_denial e d); [done|]. injection Hall as Hall. apply resolve_policy_teams in Hall as [Ha _].
  apply read_revisions_counters in Hrev. pose proof (validated_epoch _ _ _ rev Ha eq_refl) as Hep.
  pose proof (withdrawn_epoch _ _ _ _ c2 Hw (Hlater c2 eq_refl)) as Hlt. rewrite Ht in Hrev. subst rev. lia.
Qed.

(** ** Witness *)

Definition tenant0 : catalog := ok_or empty_catalog (provision_principal empty_catalog empty_catalog "p" "t" 1 Active).
Definition tenant1 : catalog := bump_rows (bump_rows tenant0 "t" PolicyRevision) "t" RevocationEpoch.
Definition tenant2 : catalog := ok_or empty_catalog (suspend_principal tenant1 "p" "t" 2).

Definition sample_connection (c : catalog) : connection :=
  {| schema := Ok (TEAMS_TABLES ∪ {["messages"]});
     table_present t := Ok (bool_decide (t = "messages"));
     owner_rows t := Ok [("s", Some "p"); ("s", None); ("other", Some "q")];
     revisions_view := Ok c; principals_view _ := Ok c |}.

Definition sample_engine (c : catalog) : engine :=
  {| lcm_teams_enabled := true; get_lcm_access_context := Some (Ok (CarrierContext sample_child));
     store_connection := Some (sample_connection c) |}.

Definition is_teams (r : result unit policy) : bool := match r with Ok (PolicyTeams _) => true | _ => false end.

Definition fail_reason (r : result unit policy) : option DenialReason :=
  match r with Ok (PolicyFailClosed f) => Some (fc_reason f) | _ => None end.

(** The child works until its principal is suspended. *)
Example sample_before : is_teams (policy_for_engine (sample_engine tenant1) 10) = true.
Proof. vm_compute. reflexivity. Qed.

Example sample_after : fail_reason (policy_for_engine (sample_engine tenant2) 10) = Some CONTEXT_REVOKED.
Proof. vm_compute. reflexivity. Qed.

Example sample_owners :
  session_owner (sample_connection tenant1) "s" = Ok (Some "p")
  ∧ session_owner (sample_connection tenant1) "unknown" = Ok None.
Proof. vm_compute. by split. Qed.

Lemma withdrawn_delegates_refused_witness :
  withdraws tenant1 "p" "t" tenant2
  ∧ ∃ p, policy_for_engine (sample_engine tenant2) 10 = Ok p ∧ refuses p.
Proof.
  assert (withdraws tenant1 "p" "t" tenant2) as Hw by (apply (by_suspension _ _ _ _ 2); vm_compute; reflexivity).
  split; [exact Hw|]. destruct (policy_for_engine (sample_engine tenant2) 10) as [p|] eqn:Hp; [|vm_compute in Hp; discriminate].
  exists p. split; [reflexivity|].
  apply (withdrawn_delegates_refused tenant1 "p" tenant2 sample_parent sample_child (sample_engine tenant2)
           (sample_connection tenant2) 10 p Hw).
  - vm_compute. discriminate.
  - apply (delegates_child _ "0" sample_parent sample_derivation); [constructor|vm_compute; reflexivity].
  - reflexivity.
  - reflexivity.
  - reflexivity.
  - intros c2 [= <-]. reflexivity.
  - exact Hp.
Defined.
