(* ===== verification/TeamsConnector.v ===== *)
(** The management connector (teams/connector.py): a typed entry point that
    authenticates, de-duplicates by request id, dispatches a host's handler and
    audits.

    A connection is its committed tables and those of its open transaction.  A
    statement or a commit of the store may fail at any point: the faults of a
    call are an argument.  The handlers, the credential check and the payload's
    digest are the host's and the library's: parameters.  A handler run lists
    the states it committed itself and the state it left. *)

From Stdlib Require Import Ascii.
From S2P Require Import Prelude PyText AccessPolicy TeamsCatalog.
From stdpp Require Import options.

#[local] Open Scope Z_scope.

(** ** Requests *)

Inductive Capability :=
| TEAMS_STATUS | TEAMS_ENABLE | TEAMS_DISABLE | PRINCIPALS_PROVISION | PRINCIPALS_SUSPEND | PRINCIPALS_ARCHIVE
| MEMBERSHIPS_GRANT | MEMBERSHIPS_REVOKE | COLLECTIONS_CREATE | COLLECTIONS_ARCHIVE | SHARED_MEMORY_SEED_IMPORT
| REVIEW_SCOPE_OPEN | REVIEW_SCOPE_CLOSE | AUDIT_READ | MIGRATION_STATUS | BACKUP_STATUS.
#[global] Instance Capability_eq_dec : EqDecision Capability.
Proof. solve_decision. Defined.

Definition capability_value (c : Capability) : string :=
  match c with
  | TEAMS_STATUS => "teams.status" | TEAMS_ENABLE => "teams.enable" | TEAMS_DISABLE => "teams.disable"
  | PRINCIPALS_PROVISION => "principals.provision" | PRINCIPALS_SUSPEND => "principals.suspend"
  | PRINCIPALS_ARCHIVE => "principals.archive" | MEMBERSHIPS_GRANT => "memberships.grant"
  | MEMBERSHIPS_REVOKE => "memberships.revoke" | COLLECTIONS_CREATE => "collections.create"
  | COLLECTIONS_ARCHIVE => "collections.archive" | SHARED_MEMORY_SEED_IMPORT => "shared_memory.seed_import"
  | REVIEW_SCOPE_OPEN => "review_scope.open" | REVIEW_SCOPE_CLOSE => "review_scope.close"
  | AUDIT_READ => "audit.read" | MIGRATION_STATUS => "migration.status" | BACKUP_STATUS => "backup.status"
  end.

Definition FORBIDDEN_VERBS : list string := ["delete"; "purge"; "destroy"].

(** [value.rsplit(".", 1)[-1]] *)
Fixpoint last_segment (s : string) : string :=
  match s with
  | EmptyString => EmptyString
  | String a s' => if has_char "."%char s' then last_segment s' else if bool_decide (a = "."%char) then s' else s
  end.

Inductive FailureClass :=
| UNAUTHENTICATED | UNAUTHORIZED | CONFLICT | NOT_FOUND_OR_FORBIDDEN | INVALID_REQUEST | UNAVAILABLE | NOT_IMPLEMENTED.
#[global] Instance FailureClass_eq_dec : EqDecision FailureClass.
Proof. solve_decision. Defined.

Record ConnectorRequest (Payload : Type) := {
  request_id : string;
  capability : option Capability;  (* [None]: not a member of the enumeration *)
  acting_principal_id : string;
  tenant_id : string;
  payload : Payload;
  credential : option string
}.
Arguments request_id {_} _.
Arguments capability {_} _.
Arguments acting_principal_id {_} _.
Arguments tenant_id {_} _.
Arguments payload {_} _.
Arguments credential {_} _.

(** ** The tables *)

(** Digest, capability, tenant and principal. *)
Definition identity : Type := string * string * string * string.

Record ledger_row (Data : Type) := { lr_identity : identity; lr_recorded : Z; lr_result : option Data }.
Arguments lr_identity {_} _.
Arguments lr_recorded {_} _.
Arguments lr_result {_} _.

Record audit_row := {
  ar_tenant : string;
  ar_principal : string;
  ar_operation : string;
  ar_allowed : bool;
  ar_reason : option FailureClass;
  ar_detail : string
}.

Record tables (World Data : Type) := {
  ledger : gmap (string * string) (ledger_row Data);
  audit_log : list audit_row;
  world : World  (* what handlers read and write *)
}.
Arguments ledger {_ _} _.
Arguments audit_log {_ _} _.
Arguments world {_ _} _.

(** A connection: committed tables, those of the open transaction, and whether
    one is open. *)
Record conn (World Data : Type) := {
  durable : tables World Data;
  working : tables World Data;
  in_transaction : bool
}.
Arguments durable {_ _} _.
Arguments working {_ _} _.
Arguments in_transaction {_ _} _.

(** How one write and its commit go.  A failed statement has or has not opened a
    transaction before it failed. *)
Inductive fault := NoFault | StatementFails (opened : bool) | CommitFails.
#[global] Instance fault_eq_dec : EqDecision fault.
Proof. solve_decision. Defined.

Record faults := {
  prior_fails : bool;
  reserve_fault : fault;
  rollback_fails : bool;
  release_fault : fault;
  remember_fault : fault;
  audit_fault : fault
}.

(** ** What a handler does *)

Inductive handler_result (Data : Type) :=
| Returned (d : Data)
| ReturnedUnserialisable
| RaisedConnector (f : FailureClass)
| RaisedOther.
Arguments Returned {_} _.
Arguments ReturnedUnserialisable {_}.
Arguments RaisedConnector {_} _.
Arguments RaisedOther {_}.

Record handler_run (World Data : Type) := {
  hr_commits : list World;  (* states it committed itself, oldest first *)
  hr_final : World;
  hr_open : bool;  (* it left a transaction open *)
  hr_result : handler_result Data
}.
Arguments hr_commits {_ _} _.
Arguments hr_final {_ _} _.
Arguments hr_open {_ _} _.
Arguments hr_result {_ _} _.

Inductive outcome (Data : Type) :=
| Answer (d : Data) (replayed : bool)  (* status "ok" *)
| ConnectorError (f : FailureClass)
| Escaped.  (* any other exception *)
Arguments Answer {_} _ _.
Arguments ConnectorError {_} _.
Arguments Escaped {_}.

Section connector.
  Context {World Data Payload : Type}.
  Context (digest : Payload → result unit string).
  Context (credential_check : option (option string → result unit bool)).
  Context (handlers : Capability → option (ConnectorRequest Payload → World → handler_run World Data)).

  Implicit Types (r : ConnectorRequest Payload) (c : conn World Data) (w : faults) (t : tables World Data).

(** ** Transactions *)

Definition set_ledger (l : gmap (string * string) (ledger_row Data)) (t : tables World Data) : tables World Data :=
  {| ledger := l; audit_log := audit_log t; world := world t |}.
Definition set_world (x : World) (t : tables World Data) : tables World Data :=
  {| ledger := ledger t; audit_log := audit_log t; world := x |}.
Definition add_audit (a : audit_row) (t : tables World Data) : tables World Data :=
  {| ledger := ledger t; audit_log := audit_log t ++ [a]; world := world t |}.

Definition idle (t : tables World Data) : conn World Data :=
  {| durable := t; working := t; in_transaction := false |}.

Definition write (f : tables World Data → tables World Data) c : conn World Data :=
  {| durable := durable c; working := f (working c); in_transaction := true |}.
Definition open_transaction (opened : bool) c : conn World Data :=
  {| durable := durable c; working := working c; in_transaction := in_transaction c || opened |}.
Definition commit c : conn World Data := idle (working c).
Definition rollback c : conn World Data := idle (durable c).

(** A write and its commit, and whether they went through. *)
Definition write_commit (f : tables World Data → tables World Data) (x : fault) c : bool * conn World Data :=
  match x with
  | NoFault => (true, commit (write f c))
  | StatementFails opened => (false, open_transaction opened c)
  | CommitFails => (false, write f c)
  end.

(** ** The connector's steps *)

Definition key_of r : string * string := (tenant_id r, request_id r).

Definition value_of r : string := match capability r with Some k => capability_value k | None => EmptyString end.

Definition identity_of r : result unit identity :=
  let! d := digest (payload r) in Ok (d, value_of r, tenant_id r, acting_principal_id r).

Definition authenticate r : bool :=
  match credential_check with
  | None => false
  | Some check => match check (credential r) with Ok b => b | Err _ => false end
  end.

Definition prior r w c : option (ledger_row Data) :=
  if prior_fails w then None else ledger (working c) !! key_of r.

(** An [INSERT] of an existing key is an integrity error. *)
Inductive reserved := Reserved | InFlight | StoreUnavailable | NoDigest.

Definition reserve r w (now : Z) c : reserved * conn World Data :=
  match identity_of r with
  | Err _ => (NoDigest, c)
  | Ok i =>
      match reserve_fault w, ledger (working c) !! key_of r with
      | StatementFails opened, _ => (StoreUnavailable, open_transaction opened c)
      | _, Some _ => (InFlight, open_transaction true c)
      | _, None =>
          let row := {| lr_identity := i; lr_recorded := now; lr_result := None |} in
          let '(ok, c) := write_commit (λ t, set_ledger (<[key_of r := row]> (ledger t)) t) (reserve_fault w) c in
          (if (ok : bool) then Reserved else StoreUnavailable, c)
      end
  end.

Definition release r w c : conn World Data :=
  (write_commit (λ t, set_ledger (delete (key_of r) (ledger t)) t) (release_fault w) c).2.

Definition discard w c : conn World Data := if rollback_fails w then c else rollback c.

Definition complete (d : Data) (now : Z) (row : ledger_row Data) : ledger_row Data :=
  {| lr_identity := lr_identity row; lr_recorded := now; lr_result := Some d |}.

Definition remember r (d : Data) w (now : Z) c : conn World Data :=
  let '(ok, c) := write_commit (λ t, set_ledger (alter (complete d now) (key_of r) (ledger t)) t) (remember_fault w) c in
  if (ok : bool) then c else discard w c.

Definition audit r (f : option FailureClass) w c : conn World Data :=
  let row := {| ar_tenant := tenant_id r; ar_principal := acting_principal_id r; ar_operation := value_of r;
                ar_allowed := (if f is None then true else false); ar_reason := f;
                ar_detail := "request_id=" +:+ request_id r |} in
  match audit_fault w with
  | StatementFails opened => open_transaction opened c
  | CommitFails => write (add_audit row) c
  | NoFault => if in_transaction c then write (add_audit row) c else commit (write (add_audit row) c)
  end.

Definition refused r (f : FailureClass) w c : outcome Data * conn World Data :=
  (ConnectorError f, audit r (Some f) w c).

(** The handler's own commits, then the transaction it leaves open. *)
Definition run_handler r (h : ConnectorRequest Payload → World → handler_run World Data) c
    : handler_result Data * conn World Data :=
  let run := h r (world (working c)) in
  let c := foldl (λ c x, commit (write (set_world x) c)) c (hr_commits run) in
  (hr_result run, if hr_open run then write (set_world (hr_final run)) c else c).

(** ** [execute] *)

Definition invalid r : bool :=
  match capability r with
  | None => true
  | Some k =>
      bool_decide (strip (request_id r) = EmptyString) || bool_decide (strip (acting_principal_id r) = EmptyString)
      || bool_decide (last_segment (capability_value k) ∈ FORBIDDEN_VERBS)
  end.

Definition handler_of r : option (ConnectorRequest Payload → World → handler_run World Data) :=
  match capability r with Some k => handlers k | None => None end.

Definition same_identity (a b : identity) : bool := bool_decide (a = b).

(** Up to the handler's lookup: an outcome, or the handler to dispatch. *)
Definition admit_request r w c
    : (outcome Data * conn World Data) + (ConnectorRequest Payload → World → handler_run World Data) :=
  if invalid r then inl (ConnectorError INVALID_REQUEST, c)
  else if negb (authenticate r) then inl (refused r UNAUTHENTICATED w c)
  else match prior r w c with
  | Some row =>
      match identity_of r with
      | Err _ => inl (Escaped, c)
      | Ok i =>
          if negb (same_identity (lr_identity row) i) then inl (refused r CONFLICT w c)
          else match lr_result row with
          | None => inl (refused r CONFLICT w c)
          | Some d => inl (Answer d true, audit r None w c)
          end
      end
  | None =>
      match handler_of r with
      | None => inl (refused r NOT_IMPLEMENTED w c)
      | Some h => inr h
      end
  end.

(** The reservation: an outcome when it was not made. *)
Definition claim r w (now : Z) c : option (outcome Data) * conn World Data :=
  match reserve r w now c with
  | (Reserved, c) => (None, c)
  | (InFlight, c) => let '(o, c) := refused r CONFLICT w (discard w c) in (Some o, c)
  | (StoreUnavailable, c) => let '(o, c) := refused r UNAVAILABLE w (discard w c) in (Some o, c)
  | (NoDigest, c) => (Some Escaped, c)
  end.

Definition failed r (f : FailureClass) w c : outcome Data * conn World Data :=
  refused r f w (release r w (discard w c)).

(** The dispatch of a claimed request. *)
Definition dispatch r (h : ConnectorRequest Payload → World → handler_run World Data) w (now : Z) c
    : outcome Data * conn World Data :=
  match run_handler r h c with
  | (Returned d, c) => (Answer d false, audit r None w (remember r d w now c))
  | (ReturnedUnserialisable, c) => (Escaped, c)
  | (RaisedConnector f, c) => failed r f w c
  | (RaisedOther, c) => failed r UNAVAILABLE w c
  end.

Definition execute r w (now : Z) c : outcome Data * conn World Data :=
  match admit_request r w c with
  | inl done => done
  | inr h =>
      match claim r w now c with
      | (Some o, c) => (o, c)
      | (None, c) => dispatch r h w now c
      end
  end.

(** ** What the steps leave alone *)

(** Same requests ledger and same world: only the audit trail may differ. *)
Definition same_tables (t t' : tables World Data) : Prop := ledger t' = ledger t ∧ world t' = world t.

Lemma audit_same r f w t :
  same_tables t (durable (audit r f w (idle t))) ∧ same_tables t (working (audit r f w (idle t))).
Proof. unfold audit. by destruct (audit_fault w). Qed.

Lemma audit_idle r f w t :
  audit_fault w = NoFault →
  ∃ row, ar_operation row = value_of r ∧ ar_tenant row = tenant_id r ∧ ar_principal row = acting_principal_id r
    ∧ ar_reason row = f ∧ (ar_allowed row = true ↔ f = None)
    ∧ audit r f w (idle t) = idle (add_audit row t).
Proof.
  intros Hw. unfold audit. rewrite Hw. eexists. split_and!; [..|done]; try done. by destruct f.
Qed.

Lemma admit_same r w t o c :
  admit_request r w (idle t) = inl (o, c) → same_tables t (durable c) ∧ same_tables t (working c).
Proof.
  unfold admit_request, refused. intros H.
  repeat case_match; simplify_eq; try apply audit_same; done.
Qed.

Lemma admit_handler r w c h : admit_request r w c = inr h → handler_of r = Some h ∧ authenticate r = true ∧ invalid r = false.
Proof.
  unfold admit_request. intros H. destruct (invalid r); [done|]. destruct (authenticate r); [|done].
  repeat case_match; by simplify_eq.
Qed.

(** The fault-free part of a claim: an absent key gets a row without a result. *)
Lemma claim_go r w now t c :
  claim r w now (idle t) = (None, c) →
  ∃ i, identity_of r = Ok i ∧ ledger t !! key_of r = None
    ∧ c = idle (set_ledger (<[key_of r := {| lr_identity := i; lr_recorded := now; lr_result := None |}]> (ledger t)) t).
Proof.
  unfold claim, reserve, refused. intros H. destruct (identity_of r) as [i|]; [|done]. exists i. split; [done|].
  cbn [idle working] in H. destruct (ledger t !! key_of r); destruct (reserve_fault w); by simplify_eq/=.
Qed.

Lemma claim_refused r w now t o c :
  claim r w now (idle t) = (Some o, c) → rollback_fails w = false → same_tables t (durable c).
Proof.
  unfold claim, reserve, refused, discard. intros H Hr. rewrite Hr in H. destruct (identity_of r) as [i|]; [|by simplify_eq].
  cbn [idle working] in H.
  destruct (ledger t !! key_of r); destruct (reserve_fault w); simplify_eq/=; apply (audit_same _ _ _ t).
Qed.

(** A handler's own commits on an idle connection. *)
Lemma commits_idle (xs : list World) t :
  foldl (λ c x, commit (write (set_world x) c)) (idle t) xs
  = idle (match last xs with Some x => set_world x t | None => t end).
Proof.
  revert t. induction xs as [|x xs IH]; intros t; [done|]. cbn [foldl]. unfold commit at 2, write at 2. cbn [idle working].
  rewrite IH. destruct xs as [|y ys]; [done|]. change (last (x :: y :: ys)) with (last (y :: ys)).
  destruct (last (y :: ys)) eqn:E; [done|]. by apply last_None in E.
Qed.

Definition raised (x : handler_result Data) : bool :=
  match x with RaisedConnector _ | RaisedOther => true | _ => false end.

(** What an earlier commit of the handler left. *)
Definition committed_world (xs : list World) (t : tables World Data) : tables World Data :=
  match last xs with Some x => set_world x t | None => t end.

(** Unfolds a dispatch from an idle connection, fault by fault. *)
Local Ltac dispatch_cases w H Hr :=
  unfold dispatch, run_handler in H; rewrite commits_idle in H; cbn [idle working] in H;
  destruct (hr_result _) eqn:?; injection H as <- <-;
  unfold failed, refused, release, remember, discard, audit; rewrite ?Hr; cbn [snd];
  destruct (hr_open _), (release_fault w), (remember_fault w), (audit_fault w); cbn;
  repeat (case_match; cbn).

(** Other keys. *)
Lemma dispatch_other r h w now t o c key :
  dispatch r h w now (idle t) = (o, c) → rollback_fails w = false → key ≠ key_of r →
  ledger (durable c) !! key = ledger t !! key.
Proof.
  intros H Hr Hk. dispatch_cases w H Hr; rewrite ?lookup_alter_ne, ?lookup_delete_ne by done; done.
Qed.

(** The request's own row outlives every run that did not raise. *)
Lemma dispatch_row r h w now t o c :
  dispatch r h w now (idle t) = (o, c) → rollback_fails w = false →
  raised (hr_result (h r (world t))) = false → is_Some (ledger t !! key_of r) →
  is_Some (ledger (durable c) !! key_of r).
Proof.
  intros H Hr Hn [x Hx]. cbn in *. dispatch_cases w H Hr; simplify_eq/=; rewrite ?lookup_alter_eq, ?Hx; done.
Qed.

(** A run that raised and committed nothing itself changed nothing. *)
Lemma dispatch_world r h w now t o c :
  dispatch r h w now (idle t) = (o, c) → rollback_fails w = false →
  raised (hr_result (h r (world t))) = true → hr_commits (h r (world t)) = [] →
  world (durable c) = world t.
Proof.
  intros H Hr Hn Hc. cbn in *. dispatch_cases w H Hr; simplify_eq/=; rewrite ?Hc in *; simplify_eq/=; done.
Qed.

(** ** Workers *)

Inductive proc :=
| Arrived r
| Cleared r (h : ConnectorRequest Payload → World → handler_run World Data)
| Claimed r (h : ConnectorRequest Payload → World → handler_run World Data)
| Done (o : outcome Data).

(** The committed tables, the calls in flight, and the keys whose handler left an
    effect, newest first. *)
Record system := { store : tables World Data; procs : gmap nat proc; effects : list (string * string) }.

Definition set_proc (i : nat) (p : proc) (t : tables World Data) (s : system) : system :=
  {| store := t; procs := <[i := p]> (procs s); effects := effects s |}.

(** A run left an effect unless it raised without having committed anything. *)
Definition took_effect (run : handler_run World Data) : bool :=
  negb (raised (hr_result run)) || bool_decide (length (hr_commits run) ≠ 0%nat).

Definition note_effect (b : bool) (key : string * string) (s : system) : system :=
  {| store := store s; procs := procs s; effects := if b then key :: effects s else effects s |}.

(** Calls arrive, take a step each in any order, and die anywhere.  Between its
    steps a call holds no transaction; what one leaves open at its end is lost. *)
Inductive step : system → system → Prop :=
| step_arrive s i r : procs s !! i = None → step s (set_proc i (Arrived r) (store s) s)
| step_admit_done s i r w o c :
    procs s !! i = Some (Arrived r) → admit_request r w (idle (store s)) = inl (o, c) →
    step s (set_proc i (Done o) (durable c) s)
| step_admit s i r w h :
    procs s !! i = Some (Arrived r) → admit_request r w (idle (store s)) = inr h →
    step s (set_proc i (Cleared r h) (store s) s)
| step_claim_done s i r h w now o c :
    procs s !! i = Some (Cleared r h) → rollback_fails w = false →
    claim r w now (idle (store s)) = (Some o, c) → step s (set_proc i (Done o) (durable c) s)
| step_claim s i r h w now c :
    procs s !! i = Some (Cleared r h) → rollback_fails w = false →
    claim r w now (idle (store s)) = (None, c) → step s (set_proc i (Claimed r h) (durable c) s)
| step_dispatch s i r h w now o c :
    procs s !! i = Some (Claimed r h) → rollback_fails w = false →
    dispatch r h w now (idle (store s)) = (o, c) →
    step s (note_effect (took_effect (h r (world (store s)))) (key_of r) (set_proc i (Done o) (durable c) s))
| step_die s i : step s {| store := store s; procs := delete i (procs s); effects := effects s |}
| step_die_running s i r h before after :
    procs s !! i = Some (Claimed r h) → hr_commits (h r (world (store s))) = before ++ after →
    step s (note_effect (bool_decide (length before ≠ 0%nat)) (key_of r)
              {| store := committed_world before (store s); procs := delete i (procs s); effects := effects s |}).

Definition start (t : tables World Data) : system := {| store := t; procs := ∅; effects := [] |}.

Inductive reachable (t : tables World Data) : system → Prop :=
| reach_start : reachable t (start t)
| reach_step s s' : reachable t s → step s s' → reachable t s'.

(** ** At most one effect *)

(** A handler that raises has committed nothing itself. *)
Definition atomic_handlers : Prop := ∀ k h r x,
  handlers k = Some h → raised (hr_result (h r x)) = true → hr_commits (h r x) = [].

Definition handler_known (p : proc) : Prop :=
  match p with Cleared r h | Claimed r h => handler_of r = Some h | _ => True end.

Definition holds (p : proc) (key : string * string) : Prop :=
  match p with Claimed r _ => key_of r = key | _ => False end.

(** A held key has a row, no second holder and no effect yet; a key with an
    effect has a row. *)
Record sound (s : system) : Prop := {
  so_handlers : ∀ i p, procs s !! i = Some p → handler_known p;
  so_held : ∀ i p key, procs s !! i = Some p → holds p key → is_Some (ledger (store s) !! key) ∧ key ∉ effects s;
  so_unique : ∀ i j p q key, procs s !! i = Some p → procs s !! j = Some q → holds p key → holds q key → i = j;
  so_effects : ∀ key, key ∈ effects s → is_Some (ledger (store s) !! key);
  so_once : NoDup (effects s)
}.

(** Entries of the call table after one was replaced by one that holds nothing. *)
Lemma holds_replaced i j p q key (m : gmap nat proc) :
  <[i := p]> m !! j = Some q → holds q key → ¬ holds p key → j ≠ i ∧ m !! j = Some q.
Proof.
  intros Hj Hq Hp. destruct (decide (i = j)) as [->|Hne].
  - rewrite lookup_insert_eq in Hj. by simplify_eq.
  - rewrite lookup_insert_ne in Hj by done. by split.
Qed.

Lemma known_replaced i p (m : gmap nat proc) :
  (∀ j q, m !! j = Some q → handler_known q) → handler_known p →
  ∀ j q, <[i := p]> m !! j = Some q → handler_known q.
Proof.
  intros Hm Hp j q. destruct (decide (i = j)) as [->|Hne].
  - rewrite lookup_insert_eq. by intros [= <-].
  - rewrite lookup_insert_ne by done. apply Hm.
Qed.

Lemma sound_quiet s i p t :
  sound s → handler_known p → (∀ key, ¬ holds p key) → ledger t = ledger (store s) → sound (set_proc i p t s).
Proof.
  intros [H1 H2 H3 H4 H5] Hk Hp Hl. constructor; cbn; rewrite ?Hl; try done.
  - by apply known_replaced.
  - intros j q key Hj Hq. apply (holds_replaced _ _ _ _ key) in Hj as [_ Hj]; [by eapply H2|done|done].
  - intros j1 j2 q1 q2 key Hj1 Hj2 Hq1 Hq2.
    apply (holds_replaced _ _ _ _ key) in Hj1 as [_ Hj1], Hj2 as [_ Hj2]; try done. by eapply H3.
Qed.

Lemma sound_deleted s i : sound s → sound {| store := store s; procs := delete i (procs s); effects := effects s |}.
Proof.
  intros [H1 H2 H3 H4 H5]. constructor; cbn; try done.
  - intros j p [_ Hj]%lookup_delete_Some. by eapply H1.
  - intros j p key [_ Hj]%lookup_delete_Some. by eapply H2.
  - intros j1 j2 q1 q2 key [_ Hj1]%lookup_delete_Some [_ Hj2]%lookup_delete_Some. by eapply H3.
Qed.

Lemma sound_claim s i r h w now c :
  sound s → procs s !! i = Some (Cleared r h) → claim r w now (idle (store s)) = (None, c) →
  sound (set_proc i (Claimed r h) (durable c) s).
Proof.
  intros [H1 H2 H3 H4 H5] Hi Hc. apply claim_go in Hc as (x & _ & Hfree & ->). pose proof (H1 _ _ Hi) as Hh. cbn in Hh.
  assert (∀ j q, procs s !! j = Some q → ¬ holds q (key_of r)) as Hnone.
  { intros j q Hj Hq. destruct (H2 _ _ _ Hj Hq) as [[y Hy] _]. congruence. }
  constructor; cbn; [by apply known_replaced| | | |done].
  - intros j q key Hj Hq. destruct (decide (i = j)) as [->|Hne].
    + rewrite lookup_insert_eq in Hj. injection Hj as <-. cbn in Hq. subst key. rewrite lookup_insert_eq.
      split; [done|]. intros Hin. apply H4 in Hin as [y Hy]. congruence.
    + rewrite lookup_insert_ne in Hj by done. destruct (H2 _ _ _ Hj Hq). split; [|done].
      by rewrite lookup_insert_ne by (intros <-; by eapply Hnone).
  - intros j1 j2 q1 q2 key. destruct (decide (j1 = i)) as [->|N1], (decide (j2 = i)) as [->|N2]; try done;
      rewrite ?lookup_insert_eq, ?lookup_insert_ne by congruence.
    + intros [= <-] Hj2 Hq1 Hq2. cbn in Hq1. subst key. by destruct (Hnone _ _ Hj2).
    + intros Hj1 [= <-] Hq1 Hq2. cbn in Hq2. subst key. by destruct (Hnone _ _ Hj1).
    + apply H3.
  - intros key Hin. apply H4 in Hin as [y Hy]. by rewrite lookup_insert_ne by congruence.
Qed.

(** The end of a held call: its key may gain an effect if its row stays. *)
Lemma sound_finish s i r h t (m : gmap nat proc) (b : bool) :
  sound s → procs s !! i = Some (Claimed r h) →
  (∀ j q, m !! j = Some q → handler_known q) →
  (∀ j q key, m !! j = Some q → holds q key → j ≠ i ∧ procs s !! j = Some q) →
  (∀ key, key ≠ key_of r → ledger t !! key = ledger (store s) !! key) →
  (b = true → is_Some (ledger t !! key_of r)) →
  sound (note_effect b (key_of r) {| store := t; procs := m; effects := effects s |}).
Proof.
  intros [H1 H2 H3 H4 H5] Hi Hm Hholds Hother Hrow.
  destruct (H2 i _ (key_of r) Hi eq_refl) as [_ Hfresh].
  assert (∀ j q key, m !! j = Some q → holds q key → key ≠ key_of r) as Hne.
  { intros j q key Hj Hq ->. destruct (Hholds _ _ _ Hj Hq) as [Hji Hj']. apply Hji. by eapply (H3 j i q). }
  constructor; cbn; [done| | | |].
  - intros j q key Hj Hq. destruct (Hholds _ _ _ Hj Hq) as [_ Hj']. destruct (H2 _ _ _ Hj' Hq) as [Hrow' Hno].
    pose proof (Hne _ _ _ Hj Hq) as Hk. rewrite Hother by done. split; [done|]. destruct b; [|done].
    by apply not_elem_of_cons.
  - intros j1 j2 q1 q2 key Hj1 Hj2 Hq1 Hq2. destruct (Hholds _ _ _ Hj1 Hq1), (Hholds _ _ _ Hj2 Hq2). by eapply H3.
  - intros key Hin. destruct (decide (key = key_of r)) as [->|Hk].
    + destruct b; [by apply Hrow|done].
    + rewrite Hother by done. apply H4. destruct b; [by apply elem_of_cons in Hin as [?|?]|done].
  - destruct b; [by apply NoDup_cons|done].
Qed.

Lemma step_sound s s' : atomic_handlers → sound s → step s s' → sound s'.
Proof.
  intros Hat Hs Hst. destruct Hst as [s i r Hi|s i r w o c Hi Ha|s i r w h Hi Ha|s i r h w now o c Hi Hr Hc
    |s i r h w now c Hi Hr Hc|s i r h w now o c Hi Hr Hd|s i|s i r h before after Hi Hb].
  - apply sound_quiet; [done|done|by intros ? []|done].
  - apply sound_quiet; [done|done|by intros ? []|]. by apply admit_same in Ha as [[Hl _] _].
  - apply sound_quiet; [done| |by intros ? []|done]. by apply admit_handler in Ha as (? & _).
  - apply sound_quiet; [done|done|by intros ? []|]. by apply claim_refused in Hc as [Hl _].
  - by eapply sound_claim.
  - apply (sound_finish s i r h); [done|done|by apply known_replaced; [apply so_handlers|]| | |].
    + intros j q key Hj Hq. apply (holds_replaced i j (Done o) q key); [done|done|by intros []].
    + intros key Hk. by eapply dispatch_other.
    + intros He. destruct (so_held _ Hs i _ (key_of r) Hi eq_refl) as [Hrow _].
      eapply dispatch_row; [exact Hd|done| |done]. apply not_true_iff_false. intros Hra.
      pose proof (so_handlers _ Hs _ _ Hi) as Hh. cbn in Hh. unfold handler_of in Hh.
      destruct (capability r) as [k|]; [|done]. unfold took_effect in He. by rewrite Hra, (Hat k h r _ Hh Hra) in He.
  - by apply sound_deleted.
  - apply (sound_finish s i r h _ (delete i (procs s))); [done|done| | | |].
    + intros j q [_ Hj]%lookup_delete_Some. by eapply so_handlers.
    + intros j q key [Hne Hj]%lookup_delete_Some _. by split.
    + intros key _. unfold committed_world. by destruct (last before).
    + intros _. destruct (so_held _ Hs i _ (key_of r) Hi eq_refl) as [Hrow _].
      unfold committed_world. by destruct (last before).
Qed.

Lemma reachable_sound t s : atomic_handlers → reachable t s → sound s.
Proof.
  intros Hat. induction 1 as [|s s' _ IH Hst]; [|by eapply step_sound].
  constructor; cbn; try done; [set_solver|constructor].
Qed.

(** A step that notes no effect leaves the world as it was. *)
Lemma step_world s s' :
  step s s' → (∃ key, effects s' = key :: effects s) ∨ effects s' = effects s ∧ world (store s') = world (store s).
Proof.
  intros Hst. destruct Hst as [s i r Hi|s i r w o c Hi Ha|s i r w h Hi Ha|s i r h w now o c Hi Hr Hc
    |s i r h w now c Hi Hr Hc|s i r h w now o c Hi Hr Hd|s i|s i r h before after Hi Hb]; cbn; try (by right).
  - right. by apply admit_same in Ha as [[_ Hw] _].
  - right. by apply claim_refused in Hc as [_ Hw].
  - right. by apply claim_go in Hc as (x & _ & _ & ->).
  - destruct (took_effect (h r (world (store s)))) eqn:He; [left; by eexists|right]. split; [done|].
    unfold took_effect in He. apply orb_false_iff in He as [He Hc]. apply negb_false_iff in He.
    apply bool_decide_eq_false, dec_stable, nil_length_inv in Hc. by eapply dispatch_world.
  - case_bool_decide as Hn; [left; by eexists|right]. split; [done|]. apply nil_length_inv in Hn. by subst.
Qed.


(** ** Authentication first *)

(** Nothing is learnt before authentication: with no credential check wired,
    or one that rejects or raises, the answer is the same for every content of
    the store (one refusal), and neither the request ledger nor the world
    changes. *)
Theorem unauthenticated_uniform r :
  credential_check = None ∨ authenticate r = false →
  ∃ f, f ∈ [INVALID_REQUEST; UNAUTHENTICATED] ∧ ∀ w now t,
    (execute r w now (idle t)).1 = ConnectorError f
    ∧ same_tables t (durable (execute r w now (idle t)).2)
    ∧ same_tables t (working (execute r w now (idle t)).2).
Proof.
  intros Ha. assert (authenticate r = false) as Hf.
  { destruct Ha as [Ha|Ha]; [|done]. unfold authenticate. by rewrite Ha. }
  unfold execute, admit_request. rewrite Hf. cbn [negb].
  destruct (invalid r); [exists INVALID_REQUEST|exists UNAUTHENTICATED]; (split; [set_solver|]); intros w now t.
  - split_and!; done.
  - split; [done|]. apply audit_same.
Qed.

(** ** Replays *)

Lemma execute_answered r w now t d c :
  execute r w now (idle t) = (Answer d false, c) → remember_fault w = NoFault →
  ∃ i, identity_of r = Ok i ∧ invalid r = false ∧ authenticate r = true
    ∧ ledger (durable c) !! key_of r = Some {| lr_identity := i; lr_recorded := now; lr_result := Some d |}.
Proof.
  unfold execute. intros H Hw. destruct (admit_request r w (idle t)) as [[o c']|h] eqn:Ha.
  - injection H as -> ->. exfalso. unfold admit_request, refused in Ha. repeat case_match; by simplify_eq.
  - apply admit_handler in Ha as (_ & Hau & Hin). destruct (claim r w now (idle t)) as [[o|] c'] eqn:Hc.
    + injection H as -> ->. exfalso. unfold claim, refused in Hc. repeat case_match; by simplify_eq.
    + apply claim_go in Hc as (i & Hi & _ & ->). exists i. split_and!; try done.
      unfold dispatch, run_handler in H. rewrite commits_idle in H. cbn [idle working] in H.
      destruct (hr_result _) eqn:E; try done. injection H as -> <-. unfold remember. rewrite Hw. unfold audit.
      destruct (hr_open _), (audit_fault w); cbn; repeat (case_match; cbn);
        by rewrite lookup_alter_eq; cbn; rewrite lookup_insert_eq.
Qed.


(** ** The audit trail *)

(** Audit rows, and no statement that leaves a transaction behind. *)
Record audited_weather w : Prop := {
  aw_audit : audit_fault w = NoFault;
  aw_rollback : rollback_fails w = false;
  aw_release : release_fault w = NoFault ∨ release_fault w = StatementFails false
}.

(** What one audit row says of an outcome. *)
Definition reports r (o : outcome Data) (row : audit_row) : Prop :=
  ar_tenant row = tenant_id r ∧ ar_principal row = acting_principal_id r ∧ ar_operation row = value_of r
  ∧ match o with
    | Answer _ _ => ar_allowed row = true ∧ ar_reason row = None
    | ConnectorError f => ar_allowed row = false ∧ ar_reason row = Some f
    | Escaped => False
    end.

(** [c] is idle and its trail is [t]'s with one row about [o]. *)
Definition trail_of r (o : outcome Data) t c : Prop :=
  ∃ row t', c = idle t' ∧ audit_log t' = audit_log t ++ [row] ∧ reports r o row.

Lemma refused_trail r f w t t0 :
  audit_fault w = NoFault → audit_log t0 = audit_log t →
  trail_of r (ConnectorError f) t (refused r f w (idle t0)).2.
Proof.
  intros Hw Hl. unfold refused, audit. rewrite Hw. cbn. eexists _, _. split; [done|]. cbn. rewrite Hl. split; [done|].
  split_and!; done.
Qed.

Lemma answered_trail r d b w t t0 :
  audit_fault w = NoFault → audit_log t0 = audit_log t → trail_of r (Answer d b) t (audit r None w (idle t0)).
Proof.
  intros Hw Hl. unfold audit. rewrite Hw. cbn. eexists _, _. split; [done|]. cbn. rewrite Hl. split; [done|].
  split_and!; done.
Qed.

Lemma release_idle r w t :
  release_fault w = NoFault ∨ release_fault w = StatementFails false →
  ∃ t', release r w (idle t) = idle t' ∧ audit_log t' = audit_log t ∧ world t' = world t
    ∧ (release_fault w = NoFault → ledger t' = delete (key_of r) (ledger t)).
Proof.
  intros [Hw|Hw]; unfold release; rewrite Hw; cbn; [by eexists|]. exists t. done.
Qed.

Lemma committed_log (xs : list World) t : audit_log (committed_world xs t) = audit_log t.
Proof. unfold committed_world. by destruct (last xs). Qed.

Lemma run_handler_idle r h t :
  ∃ c, run_handler r h (idle t) = (hr_result (h r (world t)), c)
    ∧ rollback c = idle (committed_world (hr_commits (h r (world t))) t)
    ∧ audit_log (working c) = audit_log t.
Proof.
  unfold run_handler. rewrite commits_idle. cbn [idle working]. eexists. split; [done|].
  fold (committed_world (hr_commits (h r (world t))) t). rewrite <-(committed_log (hr_commits (h r (world t))) t).
  by destruct (hr_open _).
Qed.

Lemma remember_idle r d w now c t :
  rollback_fails w = false → audit_log (working c) = audit_log t →
  (∃ t0, rollback c = idle t0 ∧ audit_log t0 = audit_log t) →
  ∃ t', remember r d w now c = idle t' ∧ audit_log t' = audit_log t.
Proof.
  intros Hr Hl (t0 & Hb & H0). unfold remember, discard. rewrite Hr.
  destruct (remember_fault w); cbn; [by eexists|exists t0; by split..].
Qed.

Lemma dispatch_trail r h w now t o c :
  audited_weather w → dispatch r h w now (idle t) = (o, c) →
  trail_of r o t c ∨ o = Escaped ∧ hr_result (h r (world t)) = ReturnedUnserialisable.
Proof.
  intros [Ha Hr Hl]. unfold dispatch. destruct (run_handler_idle r h t) as (c0 & -> & Hb & Hlog).
  set (run := h r (world t)) in *. pose proof (committed_log (hr_commits run) t) as Hcl.
  assert (∀ f, failed r f w c0 = (o, c) → trail_of r o t c) as Hfailed.
  { intros f. unfold failed, discard. rewrite Hr, Hb.
    destruct (release_idle r w (committed_world (hr_commits run) t) Hl) as (t1 & -> & E & _).
    unfold refused. intros [= <- <-]. apply (refused_trail r f w t t1 Ha). congruence. }
  destruct (hr_result run); intros H; [left|right|left; by eapply Hfailed..].
  - injection H as <- <-. destruct (remember_idle r d w now c0 t Hr Hlog) as (t1 & -> & E).
    { exists (committed_world (hr_commits run) t). by split. }
    by apply answered_trail.
  - by injection H as <- <-.
Qed.

(** Every call is accounted for: a valid request that ends in an answer or a
    typed failure leaves exactly one durable audit row, naming its tenant,
    principal and capability, allowed exactly for an answer and with the public
    failure class otherwise; the only calls that end otherwise are those whose
    payload has no digest and those whose handler returned what cannot be stored
    as a result. *)
Theorem execute_leaves_one_audit_row r w now t o c :
  invalid r = false → audited_weather w → execute r w now (idle t) = (o, c) →
  trail_of r o t c
  ∨ o = Escaped ∧ (identity_of r = Err tt
                   ∨ ∃ h x, handler_of r = Some h ∧ hr_result (h r x) = ReturnedUnserialisable).
Proof.
  intros Hinv Hw. pose proof Hw as [Ha Hr Hl]. unfold execute.
  destruct (admit_request r w (idle t)) as [[o1 c1]|h] eqn:Hadm.
  - intros [= <- <-]. unfold admit_request in Hadm. rewrite Hinv in Hadm.
    assert (∀ f, refused r f w (idle t) = (o1, c1) → trail_of r o1 t c1) as Href.
    { intros f. unfold refused. intros [= <- <-]. by apply (refused_trail r f w t t Ha). }
    destruct (negb (authenticate r)); [apply (inj inl) in Hadm; left; by eapply Href|].
    destruct (prior r w (idle t)) as [row|].
    + destruct (identity_of r) as [i|[]] eqn:Hi; [|injection Hadm as <- <-; right; by auto].
      destruct (negb (same_identity (lr_identity row) i)); [apply (inj inl) in Hadm; left; by eapply Href|].
      destruct (lr_result row); apply (inj inl) in Hadm; [|left; by eapply Href].
      injection Hadm as <- <-. left. by apply answered_trail.
    + destruct (handler_of r); [done|]. apply (inj inl) in Hadm. left. by eapply Href.
  - destruct (claim r w now (idle t)) as [[o1|] c1] eqn:Hc.
    + intros [= <- <-]. unfold claim, reserve, discard in Hc. rewrite Hr in Hc.
      assert (∀ f, refused r f w (idle t) = (o1, c1) → trail_of r o1 t c1) as Href.
      { intros f. unfold refused. intros [= <- <-]. by apply (refused_trail r f w t t Ha). }
      destruct (identity_of r) as [i|[]] eqn:Hi; [|injection Hc as <- <-; right; by auto]. left.
      cbn [idle working] in Hc.
      destruct (ledger t !! key_of r), (reserve_fault w); cbn in Hc; try (by simplify_eq);
        by (eapply Href; unfold refused; simplify_eq).
    + apply admit_handler in Hadm as (Hh & _). apply claim_go in Hc as (i & _ & _ & ->). intros H.
      apply dispatch_trail in H as [H|[-> H]]; [left|right|done]; [|split; [done|right]; by eexists _, _].
      exact H.
Qed.

(** ** A failed request can be tried again *)

(** A request whose handler failed is given back: a handler that raises
    without having committed anything leaves the ledger and the world exactly as
    they were, so the id is free for a retry, whatever it had written in its open
    transaction. *)
Theorem failed_request_retryable r h w now t :
  audited_weather w → release_fault w = NoFault → reserve_fault w = NoFault →
  admit_request r w (idle t) = inr h → prior_fails w = false → identity_of r ≠ Err tt →
  raised (hr_result (h r (world t))) = true → hr_commits (h r (world t)) = [] →
  ∃ f t', execute r w now (idle t) = (ConnectorError f, idle t') ∧ same_tables t t'.
Proof.
  intros Hw Hrel Hres Hadm Hp Hid Hra Hc. pose proof Hw as [Ha Hr Hl].
  assert (ledger t !! key_of r = None) as Hfree.
  { unfold admit_request, prior in Hadm. rewrite Hp in Hadm. cbn in Hadm. destruct (ledger t !! key_of r); [|done].
    repeat case_match; done. }
  destruct (identity_of r) as [i|[]] eqn:Hi; [|done].
  unfold execute. rewrite Hadm. unfold claim, reserve. rewrite Hi, Hres. cbn [idle working]. rewrite Hfree. cbn [write_commit].
  set (t1 := set_ledger (<[key_of r := {| lr_identity := i; lr_recorded := now; lr_result := None |}]> (ledger t)) t).
  change (commit _) with (idle t1).
  assert (∃ f, dispatch r h w now (idle t1) = failed r f w (run_handler r h (idle t1)).2) as [f ->].
  { unfold dispatch. destruct (run_handler_idle r h t1) as (c & -> & _). change (world t1) with (world t).
    destruct (hr_result (h r (world t))); try done; by eexists. }
  destruct (run_handler_idle r h t1) as (c & -> & Hb & _). change (world t1) with (world t) in Hb. rewrite Hc in Hb.
  unfold failed, discard. rewrite Hr. cbn [snd]. rewrite Hb.
  destruct (release_idle r w (committed_world [] t1) Hl) as (t2 & -> & _ & Hwo & Hle).
  unfold refused, audit. rewrite Ha. cbn. eexists _, _. split; [done|]. split; [|by cbn; rewrite Hwo].
  cbn. rewrite (Hle Hrel). cbn. by apply delete_insert_id.
Qed.

End connector.

(** ** Samples over the catalog *)

Abbreviation handler := (ConnectorRequest string → catalog → handler_run catalog string).

Definition no_digest_fails (p : string) : result unit string := Ok p.
Definition secret_check : option (option string → result unit bool) := Some (λ c, Ok (bool_decide (c = Some "secret"))).

Definition no_faults : faults :=
  {| prior_fails := false; reserve_fault := NoFault; rollback_fails := false; release_fault := NoFault;
     remember_fault := NoFault; audit_fault := NoFault |}.
Definition forgetful : faults :=
  {| prior_fails := false; reserve_fault := NoFault; rollback_fails := false; release_fault := NoFault;
     remember_fault := CommitFails; audit_fault := NoFault |}.

Definition sample_request (k : Capability) (body cred : string) : ConnectorRequest string :=
  {| request_id := "req-1"; capability := Some k; acting_principal_id := "admin"; tenant_id := "acme";
     payload := body; credential := Some cred |}.

Definition empty_tables : tables catalog string := {| ledger := ∅; audit_log := []; world := empty_catalog |}.

(** Calls the accessor, which commits, and returns. *)
Definition provision_handler : handler := λ r x,
  let y := ok_or x (provision_principal x x (payload r) (tenant_id r) 1 Active) in
  {| hr_commits := [y]; hr_final := y; hr_open := false; hr_result := Returned "done" |}.

(** Calls an accessor, which commits, and raises. *)
Definition bump_then_raise : handler := λ r x,
  let y := bump_rows x (tenant_id r) RevocationEpoch in
  {| hr_commits := [y]; hr_final := y; hr_open := false; hr_result := RaisedOther |}.

(** Writes a collection without committing, and returns or raises. *)
Definition create_uncommitted (res : handler_result string) : handler := λ r x,
  {| hr_commits := []; hr_final := ok_or x (create_collection x "notes" (tenant_id r) Own 1); hr_open := true;
     hr_result := res |}.

Definition sample_handlers (k : Capability) : option handler :=
  match k with
  | PRINCIPALS_PROVISION => Some provision_handler
  | COLLECTIONS_CREATE => Some (create_uncommitted (Returned "created"))
  | COLLECTIONS_ARCHIVE => Some (create_uncommitted (RaisedConnector CONFLICT))
  | _ => None
  end.

Definition revoking_handlers (k : Capability) : option handler :=
  match k with MEMBERSHIPS_REVOKE => Some bump_then_raise | _ => None end.

Definition sample_execute (hs : Capability → option handler) (r : ConnectorRequest string) (w : faults)
    (c : conn catalog string) : outcome string * conn catalog string :=
  execute no_digest_fails secret_check hs r w 1 c.

(** A failed call's effect can happen twice: with a handler that calls a
    catalog accessor (which commits) and then raises, the call fails, the request
    id is given back although the effect is durable, and a retry of the very same
    request applies it again. *)
Theorem committing_failure_repeats :
  let r := sample_request MEMBERSHIPS_REVOKE "body" "secret" in
  let '(o1, c1) := sample_execute revoking_handlers r no_faults (idle empty_tables) in
  let '(o2, c2) := sample_execute revoking_handlers r no_faults c1 in
  o1 = ConnectorError UNAVAILABLE ∧ o2 = ConnectorError UNAVAILABLE
  ∧ ledger (durable c1) = ∅ ∧ ledger (durable c2) = ∅
  ∧ cat_revocation_epoch (counters (world (durable c1)) "acme") = 1
  ∧ cat_revocation_epoch (counters (world (durable c2)) "acme") = 2.
Proof. vm_compute. repeat split. Qed.

(** An answer can be given for an effect that was thrown away: with a handler
    that leaves its transaction open, a result that cannot be recorded is rolled
    back together with the effect, yet the caller is answered "ok" and the audit
    trail says allowed; only a retry is refused. *)
Theorem discarded_effect_answered :
  let r := sample_request COLLECTIONS_CREATE "body" "secret" in
  let '(o1, c1) := sample_execute sample_handlers r forgetful (idle empty_tables) in
  let '(o2, c2) := sample_execute sample_handlers r no_faults c1 in
  o1 = Answer "created" false ∧ collections (world (durable c1)) = ∅
  ∧ map ar_allowed (audit_log (durable c1)) = [true] ∧ o2 = ConnectorError CONFLICT.
Proof. vm_compute. repeat split. Qed.

(** ** Witnesses *)

Lemma unauthenticated_uniform_witness :
  ∃ f, ∀ w now t,
    (execute (World := catalog) (Data := string) no_digest_fails None sample_handlers
       (sample_request TEAMS_STATUS "body" "secret") w now (idle t)).1 = ConnectorError f.
Proof.
  destruct (unauthenticated_uniform no_digest_fails None sample_handlers (sample_request TEAMS_STATUS "body" "secret")
              (or_introl eq_refl)) as (f & _ & Hf).
  exists f. intros w now t. exact (proj1 (Hf w now t)).
Defined.

Definition provision_request : ConnectorRequest string := sample_request PRINCIPALS_PROVISION "alice" "secret".

Definition after_provision : conn catalog string :=
  (sample_execute sample_handlers provision_request no_faults (idle empty_tables)).2.


Lemma execute_leaves_one_audit_row_witness :
  map ar_reason (audit_log (durable (sample_execute sample_handlers (sample_request AUDIT_READ "b" "wrong") no_faults
                                       (idle empty_tables)).2)) = [Some UNAUTHENTICATED]
  ∧ trail_of (sample_request AUDIT_READ "b" "wrong") (ConnectorError UNAUTHENTICATED) empty_tables
      (sample_execute sample_handlers (sample_request AUDIT_READ "b" "wrong") no_faults (idle empty_tables)).2.
Proof.
  split; [vm_compute; reflexivity|].
  destruct (execute_leaves_one_audit_row no_digest_fails secret_check sample_handlers
              (sample_request AUDIT_READ "b" "wrong") no_faults 1 empty_tables (ConnectorError UNAUTHENTICATED)
              (sample_execute sample_handlers (sample_request AUDIT_READ "b" "wrong") no_faults (idle empty_tables)).2)
    as [H|[H _]].
  - reflexivity.
  - constructor; [reflexivity|reflexivity|left; reflexivity].
  - vm_compute. reflexivity.
  - exact H.
  - discriminate.
Defined.

Definition archive_request : ConnectorRequest string := sample_request COLLECTIONS_ARCHIVE "body" "secret".

Lemma failed_request_retryable_witness :
  ∃ f t', sample_execute sample_handlers archive_request no_faults (idle empty_tables) = (ConnectorError f, idle t')
    ∧ same_tables empty_tables t'.
Proof.
  apply (failed_request_retryable no_digest_fails secret_check sample_handlers archive_request
           (create_uncommitted (RaisedConnector CONFLICT)) no_faults 1 empty_tables).
  - constructor; [reflexivity|reflexivity|left; reflexivity].
  - reflexivity.
  - reflexivity.
  - vm_compute. reflexivity.
  - reflexivity.
  - discriminate.
  - reflexivity.
  - reflexivity.
Defined.

Lemma sample_atomic : atomic_handlers sample_handlers.
Proof. intros [] h r x Hh Hr; by simplify_eq/=. Qed.

(** Two workers with the same request: both find no row, one claims the id and
    provisions, the other is then refused. *)
Abbreviation race_state := (system (World := catalog) (Data := string) (Payload := string)).

Definition race_both : race_state :=
  let r := provision_request in
  let s0 := start empty_tables in
  let s1 := set_proc 0 (Arrived r) (store s0) s0 in
  let s2 := set_proc 1 (Arrived r) (store s1) s1 in
  let s3 := set_proc 0 (Cleared r provision_handler) (store s2) s2 in
  set_proc 1 (Cleared r provision_handler) (store s3) s3.

Definition race_claimed : race_state :=
  set_proc 0 (Claimed provision_request provision_handler)
    (durable (claim no_digest_fails provision_request no_faults 1 (idle (store race_both))).2) race_both.

Definition race_dispatched : race_state :=
  note_effect (took_effect (provision_handler provision_request (world (store race_claimed)))) (key_of provision_request)
    (set_proc 0 (Done (Answer "done" false))
       (durable (dispatch provision_request provision_handler no_faults 1 (idle (store race_claimed))).2) race_claimed).

Definition race_end : race_state :=
  set_proc 1 (Done (ConnectorError CONFLICT))
    (durable (claim no_digest_fails provision_request no_faults 2 (idle (store race_dispatched))).2) race_dispatched.

Abbreviation race_reachable := (reachable no_digest_fails secret_check sample_handlers empty_tables).

Lemma race_both_reachable : race_reachable race_both.
Proof.
  eapply reach_step; [|eapply (step_admit _ _ _ _ 1%nat _ no_faults); reflexivity].
  eapply reach_step; [|eapply (step_admit _ _ _ _ 0%nat _ no_faults); reflexivity].
  eapply reach_step; [|apply (step_arrive _ _ _ _ 1%nat); reflexivity].
  eapply reach_step; [|apply (step_arrive _ _ _ _ 0%nat); reflexivity]. constructor.
Qed.

Lemma race_end_reachable : race_reachable race_end.
Proof.
  eapply reach_step; [|eapply (step_claim_done _ _ _ race_dispatched 1%nat _ _ no_faults 2); reflexivity].
  eapply reach_step; [|eapply (step_dispatch _ _ _ race_claimed 0%nat _ _ no_faults 1); reflexivity].
  eapply reach_step; [|eapply (step_claim _ _ _ race_both 0%nat _ _ no_faults 1); reflexivity].
  apply race_both_reachable.
Qed.

