(* ===== verification/Messages.v ===== *)
(** Provider messages as the context assembly reads them (message_analysis.py,
    tokens.py): a row's role, the calls an assistant row makes, the call id a
    tool row answers, and the row's token count.

    The text of a row is its content after [normalize_content_value], its images
    their number; [count_tokens] and the host's price of an image are the class
    [Tokens].  A call's [id] and a row's [tool_call_id] come from decoded JSON:
    absent, a string or an integer. *)

From S2P Require Import Prelude PyText.
From stdpp Require Import options.

#[local] Open Scope Z_scope.

Inductive tool_call := NotDict | ToolCall (id alt_id : field) (fn_name fn_arguments : string).
#[global] Instance tool_call_eq_dec : EqDecision tool_call.
Proof. solve_decision. Defined.

Record row := {
  role : option string; text : string; images : nat;
  tool_calls : list tool_call; tool_call_id : field }.
#[global] Instance row_eq_dec : EqDecision row.
Proof. solve_decision. Defined.

Definition row_text : row → string := text.

(** [msg.get("role") == r] *)
Definition has_role (r : string) (m : row) : bool := bool_decide (role m = Some r).
Abbreviation is_tool := (has_role "tool").
Abbreviation is_assistant := (has_role "assistant").

(** [_tool_call_id]: the first truthy of [id] and [tool_call_id]. *)
Definition _tool_call_id (tc : tool_call) : string :=
  match tc with
  | NotDict => EmptyString
  | ToolCall id alt _ _ => if truthy id then stripped id else stripped alt
  end.

Definition call_ids (m : row) : list string := map _tool_call_id (tool_calls m).

(** [str(m.get("tool_call_id") or "").strip()] *)
Definition result_id (m : row) : string := stripped (tool_call_id m).

(** The ids the sanitizer expects an answer for. *)
Definition expected_ids (m : row) : list string := filter (λ c, c ≠ EmptyString) (call_ids m).

(** ** Tokens *)

Class Tokens := { count_tokens : string → Z; image_token_cost : Z }.

(** What tokens.py relies on: counts are not negative. *)
Class TokensOk `{Tokens} : Prop := {
  count_tokens_nonneg : ∀ s, 0 <= count_tokens s;
  image_token_cost_nonneg : 0 <= image_token_cost }.

Section tokens.
Context `{!Tokens}.

Definition call_tokens (tc : tool_call) : Z :=
  match tc with
  | NotDict => 3
  | ToolCall _ _ name arguments => count_tokens name + count_tokens arguments + 3
  end.

Definition sum_Z (l : list Z) : Z := foldr Z.add 0 l.

Definition count_message_tokens (m : row) : Z :=
  4 + count_tokens (row_text m)
  + (if bool_decide (images m ≠ 0%nat) then Z.of_nat (images m) * image_token_cost else 0)
  + sum_Z (map call_tokens (tool_calls m)).

Definition count_messages_tokens (ms : list row) : Z := sum_Z (map count_message_tokens ms).

End tokens.

(** ** Lemmas *)

Lemma has_role_spec r m : has_role r m = true ↔ role m = Some r.
Proof. unfold has_role. by rewrite bool_decide_eq_true. Qed.

Lemma has_role_other r r' m : has_role r m = true → r ≠ r' → has_role r' m = false.
Proof.
  rewrite has_role_spec. intros Hr Hne. unfold has_role. rewrite bool_decide_eq_false, Hr.
  by intros [= ?].
Qed.

Lemma assistant_not_tool m : is_assistant m = true → is_tool m = false.
Proof. intros Hm. by eapply has_role_other. Qed.

Lemma _tool_call_id_stripped tc : strip (_tool_call_id tc) = _tool_call_id tc.
Proof. destruct tc as [|id alt name args]; [done|]. cbn. destruct (truthy id); apply strip_stripped. Qed.

Lemma expected_ids_spec m c : c ∈ expected_ids m ↔ c ≠ EmptyString ∧ c ∈ call_ids m.
Proof. unfold expected_ids. by rewrite list_elem_of_filter. Qed.

Lemma expected_ids_stripped m c : c ∈ expected_ids m → strip c = c.
Proof.
  rewrite expected_ids_spec. intros [_ (tc & -> & _)%list_elem_of_fmap]. apply _tool_call_id_stripped.
Qed.

Lemma sum_Z_app k l : sum_Z (k ++ l) = sum_Z k + sum_Z l.
Proof. unfold sum_Z. induction k as [|z k IH]; cbn [app foldr]; [lia|]. rewrite IH. lia. Qed.

Lemma sum_Z_nonneg l : Forall (λ z, 0 <= z) l → 0 <= sum_Z l.
Proof. unfold sum_Z. induction 1; cbn [foldr]; lia. Qed.

Section tokens_lemmas.
Context `{!Tokens}.

Lemma count_message_tokens_nonneg `{!TokensOk} m : 0 <= count_message_tokens m.
Proof.
  unfold count_message_tokens.
  pose proof (count_tokens_nonneg (row_text m)). pose proof image_token_cost_nonneg.
  assert (0 <= sum_Z (map call_tokens (tool_calls m))).
  { apply sum_Z_nonneg, Forall_fmap, Forall_true. intros [|id alt name args]; cbn; [lia|].
    pose proof (count_tokens_nonneg name). pose proof (count_tokens_nonneg args). lia. }
  case_bool_decide; nia.
Qed.

Lemma count_messages_tokens_app k l :
  count_messages_tokens (k ++ l) = count_messages_tokens k + count_messages_tokens l.
Proof. unfold count_messages_tokens. by rewrite map_app, sum_Z_app. Qed.

Lemma count_messages_tokens_cons m l :
  count_messages_tokens (m :: l) = count_message_tokens m + count_messages_tokens l.
Proof. done. Qed.

Lemma count_messages_tokens_nonneg `{!TokensOk} l : 0 <= count_messages_tokens l.
Proof. apply sum_Z_nonneg, Forall_fmap, Forall_true. intros m. apply count_message_tokens_nonneg. Qed.

End tokens_lemmas.
