(* ===== verification/ToolPairs.v ===== *)
(** Repair of tool calls and results before a request is sent (tool_pairs.py,
    invariant I8): every assistant row is followed by exactly one result per
    call it makes, in the order of the calls, and no other result is emitted.

    The source walks an index; here the walk consumes the list of the rows from
    that index on.  A round of the outer loop may consume several rows, so it
    runs on fuel, the number of rows left. *)

From S2P Require Import Prelude PyText Messages.
From stdpp Require Import options.

(** ** Definitions *)

Record RepairResult := { rows : list row; dropped : nat; inserted : nat }.
#[global] Instance RepairResult_eq_dec : EqDecision RepairResult.
Proof. solve_decision. Defined.

Section repair.
Variable stub : string → row.
Variable insert_missing_tool_stubs : bool.

(** The search for the result of [expected] among the tool rows at the front:
    the result when it is there, the rows dropped on the way, the rows left. *)
Fixpoint take_result (expected : string) (rest : list row) : option row * nat * list row :=
  match rest with
  | m :: rest' =>
      if is_tool m then
        if bool_decide (result_id m = expected) then (Some m, 0%nat, rest')
        else let '(r, d, rest'') := take_result expected rest' in (r, S d, rest'')
      else (None, 0%nat, rest)
  | [] => (None, 0%nat, [])
  end.

(** What one expected id emits. *)
Definition emitted (expected : string) (matched : option row) : list row :=
  match matched with
  | Some m => [m]
  | None => if insert_missing_tool_stubs then [stub expected] else []
  end.

Definition stubbed (matched : option row) : nat :=
  match matched with Some _ => 0%nat | None => if insert_missing_tool_stubs then 1%nat else 0%nat end.

(** [for expected_id in expected_ids]: the results emitted, the rows dropped,
    the stubs inserted and the rows left. *)
Fixpoint answer (expected : list string) (rest : list row) : list row * nat * nat * list row :=
  match expected with
  | [] => ([], 0%nat, 0%nat, rest)
  | e :: expected =>
      let '(m, d, rest) := take_result e rest in
      let '(out, d', n, rest) := answer expected rest in
      (emitted e m ++ out, (d + d')%nat, (stubbed m + n)%nat, rest)
  end.

(** The tool rows left over after the expected ones. *)
Fixpoint skip_tools (rest : list row) : nat * list row :=
  match rest with
  | m :: rest' => if is_tool m then let '(d, r) := skip_tools rest' in (S d, r) else (0%nat, rest)
  | [] => (0%nat, [])
  end.

Definition drop_one (r : RepairResult) : RepairResult :=
  {| rows := rows r; dropped := S (dropped r); inserted := inserted r |}.

Definition emit (out : list row) (d n : nat) (r : RepairResult) : RepairResult :=
  {| rows := out ++ rows r; dropped := (d + dropped r)%nat; inserted := (n + inserted r)%nat |}.

(** [while i < len(messages)]: [ms] is [messages[i:]]. *)
Fixpoint repair_loop (fuel : nat) (ms : list row) : RepairResult :=
  match fuel, ms with
  | S fuel, m :: rest =>
      if is_tool m then drop_one (repair_loop fuel rest)
      else if is_assistant m then
        let '(out, d, n, rest) := answer (expected_ids m) rest in
        let '(d', rest) := skip_tools rest in
        emit (m :: out) (d + d') n (repair_loop fuel rest)
      else emit [m] 0 0 (repair_loop fuel rest)
  | _, _ => {| rows := []; dropped := 0; inserted := 0 |}
  end.

Definition repair_tool_pairs (messages : list row) : RepairResult := repair_loop (length messages) messages.

End repair.

Definition MISSING_TOOL_RESULT_STUB : string := "[Result from earlier conversation — see context summary above]".

(** The engine's stub, [_missing_tool_result_stub]. *)
Definition missing_tool_result_stub (c : string) : row :=
  {| role := Some "tool"; text := MISSING_TOOL_RESULT_STUB; images := 0%nat;
     tool_calls := []; tool_call_id := Str c |}.

(** ** Specification *)

(** The rows that answer an assistant row: one tool row per expected id. *)
Definition answers (expected : list string) (results : list row) : Prop :=
  Forall (λ m, is_tool m = true) results ∧ map result_id results = expected.

(** A request whose tool calls and results are paired.  [strict] asks for every
    answer; otherwise the answers stop at the first call without one. *)
Inductive paired (strict : bool) : list row → Prop :=
| paired_nil : paired strict []
| paired_plain m ms :
    is_tool m = false → is_assistant m = false → paired strict ms → paired strict (m :: ms)
| paired_turn m expected results ms :
    is_assistant m = true → answers expected results →
    (if strict then expected = expected_ids m else expected `prefix_of` expected_ids m) →
    paired strict ms → paired strict (m :: results ++ ms).

(** ** The loops *)

Lemma take_result_split e rest r d rest' :
  take_result e rest = (r, d, rest') →
  ∃ skipped, length skipped = d ∧ Forall (λ m, is_tool m = true ∧ result_id m ≠ e) skipped ∧
    match r with
    | Some m => rest = skipped ++ m :: rest' ∧ is_tool m = true ∧ result_id m = e
    | None => rest = skipped ++ rest' ∧ match rest' with m :: _ => is_tool m = false | [] => True end
    end.
Proof.
  revert r d rest'. induction rest as [|m rest IH]; intros r d rest'; cbn [take_result].
  { intros [= <- <- <-]. by exists []. }
  destruct (is_tool m) eqn:Hm; [|intros [= <- <- <-]; by exists []].
  case_bool_decide as He; [intros [= <- <- <-]; by exists []|].
  destruct (take_result e rest) as [[r' d'] rest''] eqn:E. intros [= -> <- ->].
  destruct (IH _ _ _ eq_refl) as (skipped & Hl & Hs & Hr). exists (m :: skipped).
  split; [cbn; lia|]. split; [by constructor|]. by destruct r; destruct Hr as [-> ?].
Qed.

Lemma skip_tools_split rest d rest' :
  skip_tools rest = (d, rest') →
  ∃ skipped, rest = skipped ++ rest' ∧ length skipped = d ∧ Forall (λ m, is_tool m = true) skipped ∧
    match rest' with m :: _ => is_tool m = false | [] => True end.
Proof.
  revert d rest'. induction rest as [|m rest IH]; intros d rest'; cbn [skip_tools].
  { intros [= <- <-]. by exists []. }
  destruct (is_tool m) eqn:Hm; [|intros [= <- <-]; by exists []].
  destruct (skip_tools rest) as [d' r'] eqn:E. intros [= <- ->].
  destruct (IH _ _ eq_refl) as (skipped & -> & Hl & Hs & Hr). exists (m :: skipped).
  split; [done|]. split; [cbn; lia|]. split; [by constructor|done].
Qed.

(** The stub a caller supplies is a tool row that answers the call. *)
Definition stub_answers (stub : string → row) : Prop :=
  ∀ e, e ≠ EmptyString → strip e = e → is_tool (stub e) = true ∧ result_id (stub e) = e.

Lemma missing_tool_result_stub_answers : stub_answers missing_tool_result_stub.
Proof. intros e _ He. split; [done|]. by apply stripped_Str_fixed. Qed.

Lemma answers_nil : answers [] [].
Proof. by split. Qed.

Lemma answers_cons e es m ms :
  is_tool m = true → result_id m = e → answers es ms → answers (e :: es) (m :: ms).
Proof. intros Hm He [Ht Hs]. split; [by constructor|]. cbn [map]. by rewrite He, Hs. Qed.

Lemma answers_app es ms es' ms' : answers es ms → answers es' ms' → answers (es ++ es') (ms ++ ms').
Proof. intros [? ?] [? ?]. split; [by apply Forall_app|]. by rewrite map_app; f_equal. Qed.

Section loops.
Context (stub : string → row) (insert : bool).

Lemma answer_no_tool expected rest :
  insert = false → match rest with m :: _ => is_tool m = false | [] => True end →
  answer stub insert expected rest = ([], 0%nat, 0%nat, rest).
Proof.
  intros -> Hr. induction expected as [|e expected IH]; [done|]. cbn [answer].
  assert (take_result e rest = (None, 0%nat, rest)) as ->.
  { destruct rest as [|m rest]; [done|]. cbn [take_result]. by rewrite Hr. }
  by rewrite IH.
Qed.

(** What the loop over the expected ids consumes is a run of tool rows. *)
Lemma answer_consumes expected rest out d n rest' :
  answer stub insert expected rest = (out, d, n, rest') →
  ∃ run, rest = run ++ rest' ∧ Forall (λ m, is_tool m = true) run ∧ (length run + n = length out + d)%nat ∧
    (insert = false → out `sublist_of` run ∧ n = 0%nat).
Proof.
  revert rest out d n. induction expected as [|e expected IH]; intros rest out d n; cbn [answer].
  { intros [= <- <- <- <-]. exists []. repeat split; constructor. }
  destruct (take_result e rest) as [[m d1] rest1] eqn:E1.
  destruct (answer stub insert expected rest1) as [[[out2 d2] n2] rest2] eqn:E2.
  intros [= <- <- <- ->]. destruct (IH _ _ _ _ E2) as (run & -> & Hrun & Hlen & Hsub).
  destruct (take_result_split _ _ _ _ _ E1) as (skipped & <- & Hs & Hr).
  assert (Forall (λ m, is_tool m = true) skipped) as Hs' by (eapply Forall_impl; [exact Hs|by intros ? []]).
  destruct m as [m|].
  - destruct Hr as (-> & Hm & _). exists (skipped ++ m :: run). rewrite <-app_assoc. split; [done|].
    split; [apply Forall_app; split; [done|by constructor]|].
    cbn [emitted stubbed]. rewrite !length_app. cbn [length]. split; [lia|].
    intros Hi. destruct (Hsub Hi) as [? ->]. split; [|done].
    by apply sublist_inserts_l, sublist_skip.
  - destruct Hr as [-> _]. exists (skipped ++ run). rewrite <-app_assoc. split; [done|].
    split; [by apply Forall_app|]. cbn [emitted stubbed].
    destruct insert; rewrite !length_app; cbn [length]; (split; [lia|done || intros Hi]).
    destruct (Hsub Hi) as [? ->]. split; [by apply sublist_inserts_l|done].
Qed.

(** What it emits answers the expected ids: all of them with stubs, a prefix of
    them without. *)
Lemma answer_answers expected rest out d n rest' :
  (insert = true → stub_answers stub) → Forall (λ e, e ≠ EmptyString ∧ strip e = e) expected →
  answer stub insert expected rest = (out, d, n, rest') →
  ∃ answered, answers answered out ∧ (if insert then answered = expected else answered `prefix_of` expected).
Proof.
  intros Hstub. revert rest out d n. induction expected as [|e expected IH]; intros rest out d n He; cbn [answer].
  { intros [= <- <- <- <-]. exists []. split; [apply answers_nil|by destruct insert]. }
  apply Forall_cons in He as [[He0 He1] He].
  destruct (take_result e rest) as [[m d1] rest1] eqn:E1.
  destruct (answer stub insert expected rest1) as [[[out2 d2] n2] rest2] eqn:E2.
  intros [= <- <- <- ->]. destruct (IH _ _ _ _ He E2) as (answered & Ha & Hp).
  destruct (take_result_split _ _ _ _ _ E1) as (skipped & _ & _ & Hr).
  destruct m as [m|]; cbn [emitted].
  - destruct Hr as (_ & Hm & Hid). exists (e :: answered). split; [by apply answers_cons|].
    destruct insert; [by subst|by apply prefix_cons].
  - destruct Hr as [_ Hr]. revert Hp Hstub E2. destruct insert eqn:Hi; intros Hp Hstub E2.
    + exists (e :: answered). destruct (Hstub eq_refl e He0 He1). split; [by apply answers_cons|by subst].
    + rewrite <-Hi in E2. rewrite answer_no_tool in E2 by done. injection E2 as <- <- <- <-. exists [].
      split; [apply answers_nil|apply prefix_nil].
Qed.

(** Rows that already answer the expected ids are emitted as they are. *)
Lemma answer_fixed expected results rest :
  answers expected results → match rest with m :: _ => is_tool m = false | [] => True end →
  answer stub insert expected (results ++ rest) = (results, 0%nat, 0%nat, rest).
Proof.
  intros [Ht <-] Hr. induction results as [|m results IH]; [done|].
  apply Forall_cons in Ht as [Hm Ht]. cbn [map answer app take_result].
  rewrite Hm, bool_decide_eq_true_2 by done. by rewrite IH.
Qed.

Lemma answer_app es es' rest :
  answer stub insert (es ++ es') rest =
  let '(out, d, n, rest) := answer stub insert es rest in
  let '(out', d', n', rest) := answer stub insert es' rest in
  (out ++ out', (d + d')%nat, (n + n')%nat, rest).
Proof.
  revert rest. induction es as [|e es IH]; intros rest; cbn [answer app].
  { by destruct (answer stub insert es' rest) as [[[? ?] ?] ?]. }
  destruct (take_result e rest) as [[m d1] rest1]. rewrite IH.
  destruct (answer stub insert es rest1) as [[[out2 d2] n2] rest2].
  destruct (answer stub insert es' rest2) as [[[out3 d3] n3] rest3].
  by rewrite app_assoc, !Nat.add_assoc.
Qed.

(** One round of the outer loop; with the rows left as fuel, the loop is the
    least relation closed under its rounds. *)
Lemma repair_loop_ind (P : list row → RepairResult → Prop) :
  P [] {| rows := []; dropped := 0; inserted := 0 |} →
  (∀ m ms r, is_tool m = true → P ms r → P (m :: ms) (drop_one r)) →
  (∀ m ms r, is_tool m = false → is_assistant m = false → P ms r → P (m :: ms) (emit [m] 0 0 r)) →
  (∀ m run results d n skipped ms r,
     is_assistant m = true →
     answer stub insert (expected_ids m) (run ++ skipped ++ ms) = (results, d, n, skipped ++ ms) →
     Forall (λ m, is_tool m = true) run → Forall (λ m, is_tool m = true) skipped →
     match ms with m :: _ => is_tool m = false | [] => True end →
     (length run + n = length results + d)%nat → (insert = false → results `sublist_of` run ∧ n = 0%nat) →
     P ms r → P (m :: run ++ skipped ++ ms) (emit (m :: results) (d + length skipped) n r)) →
  ∀ ms fuel, (length ms ≤ fuel)%nat → P ms (repair_loop stub insert fuel ms).
Proof.
  intros H0 Htool Hplain Hturn ms fuel. revert ms. induction fuel as [|fuel IH]; intros [|m rest]; cbn [length].
  - done.
  - lia.
  - done.
  - intros Hl. cbn [repair_loop]. destruct (is_tool m) eqn:Hm; [apply Htool; [done|apply IH; lia]|].
    destruct (is_assistant m) eqn:Ha; [|apply Hplain; [done..|apply IH; lia]].
    destruct (answer stub insert (expected_ids m) rest) as [[[out d] n] rest1] eqn:E1.
    destruct (skip_tools rest1) as [d' rest2] eqn:E2.
    destruct (answer_consumes _ _ _ _ _ _ E1) as (run & -> & Hrun & Hlen & Hsub).
    destruct (skip_tools_split _ _ _ E2) as (skipped & -> & <- & Hs & Hr).
    apply Hturn; [done..|]. apply IH. rewrite !length_app in Hl. lia.
Qed.

End loops.

Lemma expected_ids_ok m : Forall (λ e, e ≠ EmptyString ∧ strip e = e) (expected_ids m).
Proof.
  apply Forall_forall. intros e He. split; [by apply expected_ids_spec in He as [? _]|exact (expected_ids_stripped m e He)].
Qed.

Lemma filter_tools ms : Forall (λ m, is_tool m = true) ms → filter (λ m, is_tool m = false) ms = [].
Proof.
  induction 1 as [|m ms Hm Hms IH]; [done|]. rewrite filter_cons_False; [done|]. by rewrite Hm.
Qed.

(** With and without stubs the walk drops the same rows and leaves the same. *)
Lemma answer_stubs stub expected rest out d n rest' :
  answer stub true expected rest = (out, d, n, rest') →
  ∃ out', answer stub false expected rest = (out', d, 0%nat, rest') ∧
    out' `sublist_of` out ∧ length out = (length out' + n)%nat.
Proof.
  revert rest out d n. induction expected as [|e expected IH]; intros rest out d n; cbn [answer].
  { intros [= <- <- <- <-]. by exists []. }
  destruct (take_result e rest) as [[m d1] rest1] eqn:E1.
  destruct (answer stub true expected rest1) as [[[out2 d2] n2] rest2] eqn:E2.
  intros [= <- <- <- ->]. destruct (IH _ _ _ _ E2) as (out' & -> & Hs & Hl).
  destruct m as [m|]; cbn [emitted stubbed app]; eexists; (split; [done|]); cbn [length].
  - split; [by apply sublist_skip|]. lia.
  - split; [by apply sublist_cons|]. lia.
Qed.

Lemma paired_head strict ms :
  paired strict ms → match ms with m :: _ => is_tool m = false | [] => True end.
Proof. by destruct 1; [|done|apply assistant_not_tool]. Qed.

Lemma repair_loop_paired stub insert ms :
  (insert = true → stub_answers stub) → paired insert (rows (repair_tool_pairs stub insert ms)).
Proof.
  intros Hstub. apply (repair_loop_ind stub insert (λ _ r, paired insert (rows r))); [constructor|done|..|done].
  - intros m ms' r ? ? ?. cbn. by constructor.
  - intros m run results d n skipped ms' r Ha Hans _ _ _ _ _ Hr. cbn.
    destruct (answer_answers _ _ _ _ _ _ _ _ Hstub (expected_ids_ok m) Hans) as (answered & ? & ?).
    by eapply paired_turn.
Qed.

(** What the walks without ([plain]) and with ([full]) stubs do to the same rows. *)
Definition conserved (ms : list row) (plain full : RepairResult) : Prop :=
  rows plain `sublist_of` ms ∧ length ms = (length (rows plain) + dropped plain)%nat ∧ inserted plain = 0%nat ∧
  rows plain `sublist_of` rows full ∧ length (rows full) = (length (rows plain) + inserted full)%nat ∧
  dropped full = dropped plain ∧
  filter (λ m, is_tool m = false) (rows full) = filter (λ m, is_tool m = false) ms.

Lemma conserved_drop m ms plain full :
  is_tool m = true → conserved ms plain full → conserved (m :: ms) (drop_one plain) (drop_one full).
Proof.
  intros Hm (? & ? & ? & ? & ? & ? & ?). unfold conserved. cbn [drop_one rows dropped inserted length].
  split_and!; try done; try lia; [by apply sublist_cons|].
  rewrite (filter_cons_False _ m); [done|by rewrite Hm].
Qed.

Lemma conserved_turn m ms run skipped out out' d n plain full :
  is_tool m = false → Forall (λ m, is_tool m = true) run → Forall (λ m, is_tool m = true) skipped →
  Forall (λ m, is_tool m = true) out → out' `sublist_of` out → out' `sublist_of` run →
  length out = (length out' + n)%nat → length run = (length out' + d)%nat →
  conserved ms plain full →
  conserved (m :: run ++ skipped ++ ms) (emit (m :: out') (d + length skipped) 0 plain)
    (emit (m :: out) (d + length skipped) n full).
Proof.
  intros Hm Hrun Hs Hout Hsub Hsub' Hn Hd (? & ? & ? & ? & ? & ? & Hf). unfold conserved.
  cbn [emit rows dropped inserted]. rewrite <-!app_comm_cons. cbn [length]. rewrite !length_app.
  split_and!; try lia.
  - apply sublist_skip, sublist_app; [done|by apply sublist_inserts_l].
  - by apply sublist_skip, sublist_app.
  - rewrite !filter_cons_True by done. rewrite !filter_app, (filter_tools _ Hout), (filter_tools _ Hrun), (filter_tools _ Hs).
    exact (f_equal (cons m) Hf).
Qed.

Lemma repair_loop_conserves stub fuel ms :
  stub_answers stub → (length ms ≤ fuel)%nat →
  conserved ms (repair_loop stub false fuel ms) (repair_loop stub true fuel ms).
Proof.
  intros Hstub. revert ms.
  induction fuel as [|fuel IH]; intros [|m rest]; cbn [length]; intros Hl; try lia; try (by split_and!).
  cbn [repair_loop]. destruct (is_tool m) eqn:Hm; [apply conserved_drop; [done|apply IH; lia]|].
  destruct (is_assistant m) eqn:Ha; cycle 1.
  { apply (conserved_turn m rest [] [] [] [] 0 0); first [done | by constructor | apply IH; lia]. }
  destruct (answer stub true (expected_ids m) rest) as [[[out d] n] rest1] eqn:E1.
  destruct (answer_stubs _ _ _ _ _ _ _ E1) as (out' & E2 & Hsub & Hlen). rewrite E2.
  destruct (skip_tools rest1) as [d' rest2] eqn:E3.
  destruct (answer_consumes _ _ _ _ _ _ _ _ E2) as (run & -> & Hrun & Hl2 & Hsub2).
  destruct (skip_tools_split _ _ _ E3) as (skipped & -> & <- & Hs & Hr).
  destruct (answer_answers _ _ _ _ _ _ _ _ (λ _, Hstub) (expected_ids_ok m) E1) as (k & [Ht _] & _).
  destruct (Hsub2 eq_refl) as [Hsub3 _]. rewrite !length_app in Hl.
  apply conserved_turn; try done; [lia|apply IH; lia].
Qed.

(** ** Properties *)

(** C39: after repair every call is answered once and in order (or, where no
    stubs are inserted, up to the first call without a result), and nothing
    else answers. *)
Theorem repair_paired stub insert ms :
  (insert = true → stub_answers stub) → paired insert (rows (repair_tool_pairs stub insert ms)).
Proof. apply repair_loop_paired. Qed.

Definition calls (r : string) (ids : list string) : row :=
  {| role := Some r; text := "t"; images := 0%nat;
     tool_calls := map (λ i, ToolCall (Str i) Absent "f" "{}") ids; tool_call_id := Absent |}.
Definition gives (i : string) : row :=
  {| role := Some "tool"; text := "r"; images := 0%nat; tool_calls := []; tool_call_id := Str i |}.

(** Two calls, the second one's result first, a stray result, then a user row. *)
Definition sample : list row := [calls "assistant" ["a"; " b "]; gives "b"; gives "a"; gives "x"; calls "user" []].

Example sample_repaired :
  repair_tool_pairs missing_tool_result_stub true sample =
  {| rows := [calls "assistant" ["a"; " b "]; gives "a"; missing_tool_result_stub "b"; calls "user" []];
     dropped := 2; inserted := 1 |}.
Proof. reflexivity. Qed.

Theorem repair_paired_witness : paired true (rows (repair_tool_pairs missing_tool_result_stub true sample)).
Proof. refine (repair_paired missing_tool_result_stub true sample _). intros _. apply missing_tool_result_stub_answers. Defined.

(** A request is left exactly as it is, nothing dropped and nothing inserted,
    if and only if its calls and results are paired already; so repair is
    idempotent. *)
Theorem repair_fixed_iff stub insert ms :
  (insert = true → stub_answers stub) →
  (repair_tool_pairs stub insert ms = {| rows := ms; dropped := 0; inserted := 0 |} ↔ paired insert ms) ∧
  repair_tool_pairs stub insert (rows (repair_tool_pairs stub insert ms)) =
    {| rows := rows (repair_tool_pairs stub insert ms); dropped := 0; inserted := 0 |}.
Proof.
  intros Hstub.
  assert (∀ ms fuel, paired insert ms → (length ms ≤ fuel)%nat →
            repair_loop stub insert fuel ms = {| rows := ms; dropped := 0; inserted := 0 |}) as Hfix.
  { intros ms' fuel Hp. revert fuel. induction Hp as [|m ms' Hm Ha Hp IH|m expected results ms' Ha Hans He Hp IH];
      intros [|fuel]; cbn [length repair_loop]; intros Hl; try done; try lia.
    - by rewrite Hm, Ha, IH by lia.
    - rewrite (assistant_not_tool _ Ha), Ha. rewrite length_app in Hl.
      assert (answer stub insert (expected_ids m) (results ++ ms') = (results, 0%nat, 0%nat, ms')) as ->.
      { pose proof (answer_fixed stub insert _ _ _ Hans (paired_head _ _ Hp)) as Hfixed.
        destruct insert eqn:Hi; [by subst|]. destruct He as [more ->].
        rewrite answer_app, Hfixed. rewrite answer_no_tool; [|done|by eapply paired_head].
        by rewrite app_nil_r. }
      assert (skip_tools ms' = (0%nat, ms')) as ->.
      { apply paired_head in Hp. destruct ms' as [|m' ms']; [done|]. cbn. by rewrite Hp. }
      by rewrite IH by lia. }
  pose proof (repair_loop_paired stub insert ms Hstub) as Hp. split; [|by apply Hfix].
  split; [intros E; by rewrite E in Hp|intros; by apply Hfix].
Qed.

Theorem repair_fixed_iff_witness :
  repair_tool_pairs missing_tool_result_stub true sample ≠ {| rows := sample; dropped := 0; inserted := 0 |} ∧
  ¬ paired true sample.
Proof.
  assert (repair_tool_pairs missing_tool_result_stub true sample ≠ {| rows := sample; dropped := 0; inserted := 0 |})
    as Hne by (vm_compute; discriminate).
  refine (conj Hne (λ Hp, Hne _)).
  exact (proj2 (proj1 (repair_fixed_iff missing_tool_result_stub true sample
                         (λ _, missing_tool_result_stub_answers))) Hp).
Defined.

(** What repair does to the rows.  Every row that is not a tool result is
    kept, in order.  Without stubs the emitted rows are a subsequence of the
    input and the dropped ones are the rest; with stubs the same results are
    dropped and exactly [inserted] rows are added to that subsequence. *)
Theorem repair_conserves stub ms :
  stub_answers stub →
  let plain := repair_tool_pairs stub false ms in
  let full := repair_tool_pairs stub true ms in
  rows plain `sublist_of` ms ∧ length ms = (length (rows plain) + dropped plain)%nat ∧ inserted plain = 0%nat ∧
  rows plain `sublist_of` rows full ∧ length (rows full) = (length (rows plain) + inserted full)%nat ∧
  dropped full = dropped plain ∧
  filter (λ m, is_tool m = false) (rows full) = filter (λ m, is_tool m = false) ms.
Proof. intros Hstub. by apply repair_loop_conserves. Qed.

Theorem repair_conserves_witness :
  dropped (repair_tool_pairs missing_tool_result_stub true sample) =
  dropped (repair_tool_pairs missing_tool_result_stub false sample).
Proof.
  destruct (repair_conserves missing_tool_result_stub sample missing_tool_result_stub_answers)
    as (_ & _ & _ & _ & _ & H & _). exact H.
Defined.
