(* ===== verification/FreshTail.v ===== *)
(** The boundary of the protected fresh tail (fresh_tail.py): bounded by a
    number of messages and by tokens, and moved back to the assistant row that
    opened a group of tool results.

    An index is a [nat] into the list of messages; the loops that walk an index
    down recurse on it. *)

From S2P Require Import Prelude PyText Messages.
From stdpp Require Import options.

#[local] Open Scope Z_scope.

(** ** Definitions *)

Record FreshTailBoundary := {
  start : nat; count : nat; tokens : Z; count_limit : nat; token_limit : Z;
  token_limited : bool; tool_group_extended : bool }.

Section fresh_tail.
Context `{!Tokens}.

(** [for index in range(start - 1, -1, -1)], from [index + 1 = n]. *)
Fixpoint group_scan (messages : list row) (rid : string) (start n : nat) : nat :=
  match n with
  | O => start
  | S index =>
      match messages !! index with
      | Some m =>
          if has_role "user" m || has_role "system" m then start
          else if is_assistant m then
            if bool_decide (rid ∈ call_ids m) then index else start
          else group_scan messages rid start index
      | None => start
      end
  end.

(** [_assistant_group_start] *)
Definition assistant_group_start (messages : list row) (start : nat) : nat :=
  match messages !! start with
  | Some m =>
      if is_tool m then
        if bool_decide (result_id m = EmptyString) then start
        else group_scan messages (result_id m) start start
      else start
  | None => start
  end.

(** [while end < len(messages) and ...: end += 1]; [rest] is [messages[end:]]. *)
Fixpoint extend_results (ids : list string) (e : nat) (rest : list row) : nat :=
  match rest with
  | m :: rest => if is_tool m && bool_decide (result_id m ∈ ids) then extend_results ids (S e) rest else e
  | [] => e
  end.

Definition tool_group_safe_end (messages : list row) (e : nat) : nat :=
  let s := assistant_group_start messages e in
  if bool_decide (s = e) || bool_decide (0 < s)%nat then s
  else
    let ids := match messages with m :: _ => call_ids m | [] => [] end in
    extend_results ids e (drop e messages).

(** [for index in range(message_count - 1, count_start - 1, -1)], from
    [index + 1 = n] with the start and the tokens found so far; also whether the
    token cap stopped it. *)
Fixpoint token_scan (messages : list row) (limit : Z) (count_start n : nat) (token_start : nat) (used : Z)
    : nat * bool :=
  match n with
  | O => (token_start, false)
  | S index =>
      if bool_decide (index < count_start)%nat then (token_start, false)
      else
        let message_tokens := default 0 (count_message_tokens <$> messages !! index) in
        if bool_decide (index ≠ length messages - 1)%nat && bool_decide (used + message_tokens > limit)
        then (token_start, true)
        else token_scan messages limit count_start index index (used + message_tokens)
  end.

Definition resolve_fresh_tail_boundary (messages : list row) (fresh_tail_count fresh_tail_max_tokens : Z)
    : FreshTailBoundary :=
  let message_count := length messages in
  let climit := Z.to_nat fresh_tail_count in
  let tlimit := Z.max 0 fresh_tail_max_tokens in
  if bool_decide (message_count = 0%nat) then
    {| start := 0; count := 0; tokens := 0; count_limit := climit; token_limit := tlimit;
       token_limited := false; tool_group_extended := false |}
  else
    let effective := if bool_decide (0 < tlimit) then Nat.max 1 climit else climit in
    let count_start := (message_count - effective)%nat in
    let '(st, limited) :=
      if bool_decide (0 < tlimit)
      then token_scan messages tlimit count_start message_count (message_count - 1)%nat 0
      else (count_start, false) in
    let group_start := assistant_group_start messages st in
    let tail := drop group_start messages in
    {| start := group_start; count := length tail; tokens := count_messages_tokens tail;
       count_limit := climit; token_limit := tlimit; token_limited := limited;
       tool_group_extended := bool_decide (group_start < st)%nat |}.

End fresh_tail.

(** ** Specification *)

(** The row at [i] is a result whose call the assistant row at [j] makes, with
    nothing but results between them: cutting between [j] and [i] would orphan
    the result. *)
Definition opens (messages : list row) (j i : nat) : Prop :=
  ∃ m r, messages !! j = Some m ∧ messages !! i = Some r ∧ (j < i)%nat ∧
    is_assistant m = true ∧ is_tool r = true ∧ result_id r ≠ EmptyString ∧ result_id r ∈ call_ids m ∧
    ∀ k x, (j < k < i)%nat → messages !! k = Some x →
      has_role "user" x = false ∧ has_role "system" x = false ∧ is_assistant x = false.

(** A cut at [i] separates a result from the assistant row that asked for it. *)
Definition splits (messages : list row) (i : nat) : Prop := ∃ j, opens messages j i.

(** ** Lemmas *)

Lemma group_scan_le messages rid st n : (n ≤ st)%nat → (group_scan messages rid st n ≤ st)%nat.
Proof.
  revert st. induction n as [|n IH]; intros st Hn; cbn [group_scan]; [done|].
  destruct (messages !! n) as [m|]; [|done].
  destruct (has_role "user" m || has_role "system" m); [done|].
  destruct (is_assistant m); [case_bool_decide; lia|]. apply IH. lia.
Qed.

(** The scan either finds the opening row or there is none. *)
Lemma group_scan_spec messages r st n :
  messages !! st = Some r → is_tool r = true → result_id r ≠ EmptyString → (n ≤ st)%nat →
  (∀ k x, (n ≤ k < st)%nat → messages !! k = Some x →
     has_role "user" x = false ∧ has_role "system" x = false ∧ is_assistant x = false) →
  let g := group_scan messages (result_id r) st n in
  (g = st ∧ ∀ j, (j < n)%nat → ¬ opens messages j st) ∨ ((g < n)%nat ∧ opens messages g st).
Proof.
  intros Hst Hr Hid. cbv zeta. induction n as [|n IH]; intros Hn Hbetween; cbn [group_scan].
  { left. split; [done|]. intros j; lia. }
  assert (is_Some (messages !! n)) as [m Hm].
  { apply lookup_lt_is_Some. apply lookup_lt_Some in Hst. lia. }
  rewrite Hm.
  assert (∀ j, (j < S n)%nat → opens messages j st → (j < n)%nat ∧ has_role "user" m = false ∧
            has_role "system" m = false ∧ is_assistant m = false ∨
            j = n ∧ is_assistant m = true ∧ result_id r ∈ call_ids m) as Hcases.
  { intros j Hj (m' & r' & Hm' & Hr' & Hlt & Ha & _ & _ & Hin & Hb).
    destruct (decide (j = n)) as [->|Hne]; [right|left].
    - rewrite Hm in Hm'. injection Hm' as <-. rewrite Hst in Hr'. injection Hr' as <-. done.
    - split; [lia|]. apply (Hb n m); [lia|done]. }
  destruct (has_role "user" m || has_role "system" m) eqn:Hus.
  { left. split; [done|]. intros j Hj Ho. apply orb_true_iff in Hus.
    destruct (Hcases j Hj Ho) as [(_ & Hu & Hs & _)|(-> & Ha & _)]; [destruct Hus; congruence|].
    apply has_role_spec in Ha. rewrite !has_role_spec, Ha in Hus. by destruct Hus as [[=]|[=]]. }
  apply orb_false_iff in Hus as [Hu Hs].
  destruct (is_assistant m) eqn:Ha.
  - case_bool_decide as Hin.
    + right. split; [lia|]. exists m, r. split_and!; try done; lia.
    + left. split; [done|]. intros j Hj Ho.
      destruct (Hcases j Hj Ho) as [(_ & _ & _ & ?)|(_ & _ & ?)]; congruence.
  - destruct IH as [[-> Hno]|[Hlt Ho]]; [lia| |left|right; split; [lia|done]].
    { intros k x Hk Hx. destruct (decide (k = n)) as [Hkn|Hkn].
      - rewrite Hkn, Hm in Hx. injection Hx as <-. done.
      - apply (Hbetween k x); [lia|done]. }
    split; [done|]. intros j Hj Ho.
    destruct (Hcases j Hj Ho) as [[? _]|(_ & Ha' & _)]; [by apply (Hno j)|congruence].
Qed.

Lemma assistant_group_start_spec messages st :
  let g := assistant_group_start messages st in
  (g = st ∧ ¬ splits messages st) ∨ opens messages g st.
Proof.
  cbv zeta. unfold assistant_group_start.
  destruct (messages !! st) as [r|] eqn:Hst; cycle 1.
  { left. split; [done|]. intros (j & m & r & _ & Hr & _). congruence. }
  destruct (is_tool r) eqn:Hr; cycle 1.
  { left. split; [done|]. intros (j & m & r' & _ & Hr' & _ & _ & ? & _). congruence. }
  case_bool_decide as Hid.
  { left. split; [done|]. intros (j & m & r' & _ & Hr' & _ & _ & _ & ? & _). congruence. }
  destruct (group_scan_spec messages r st st Hst Hr Hid (Nat.le_refl _)) as [[? Hno]|[_ ?]];
    [intros k x; lia|left|by right].
  split; [done|]. intros [j Ho]. pose proof Ho as (_ & _ & _ & _ & ? & _). by apply (Hno j).
Qed.

Lemma opens_not_split messages j i : opens messages j i → ¬ splits messages j.
Proof.
  intros (m & _ & Hm & _ & _ & Ha & _) (k & _ & r & _ & Hr & _ & _ & Ht & _).
  rewrite Hm in Hr. injection Hr as <-. by rewrite (assistant_not_tool _ Ha) in Ht.
Qed.

Lemma assistant_group_start_whole messages st : ¬ splits messages (assistant_group_start messages st).
Proof.
  destruct (assistant_group_start_spec messages st) as [[-> ?]|Ho]; [done|by eapply opens_not_split].
Qed.

Lemma assistant_group_start_le messages st : (assistant_group_start messages st ≤ st)%nat.
Proof.
  destruct (assistant_group_start_spec messages st) as [[-> ?]|(? & ? & ? & ? & ? & _)]; [done|lia].
Qed.

Lemma extend_results_spec ids e rest :
  let e' := extend_results ids e rest in
  ∃ run rest', rest = run ++ rest' ∧ e' = (e + length run)%nat ∧
    Forall (λ m, is_tool m = true) run ∧
    match rest' with m :: _ => is_tool m = false ∨ result_id m ∉ ids | [] => True end.
Proof.
  cbv zeta. revert e. induction rest as [|m rest IH]; intros e; cbn [extend_results].
  { exists [], []. repeat split; [cbn; lia|constructor]. }
  destruct (is_tool m && bool_decide (result_id m ∈ ids)) eqn:Hm.
  - apply andb_true_iff in Hm as [Ht _]. destruct (IH (S e)) as (run & rest' & -> & -> & Hrun & Hr).
    exists (m :: run), rest'. repeat split; [cbn; lia|by constructor|done].
  - exists [], (m :: rest). split_and!; [done|cbn; lia|constructor|].
    apply andb_false_iff in Hm as [?|Hin]; [by left|right]. by apply bool_decide_eq_false in Hin.
Qed.

(** Past the results of the row at 0 no call is left without its result. *)
Lemma extend_results_whole messages e :
  opens messages 0 e →
  let ids := match messages with m :: _ => call_ids m | [] => [] end in
  ¬ splits messages (extend_results ids e (drop e messages)).
Proof.
  intros (m & r & Hm & _ & He & _ & _ & _ & _ & Hb) ids (j & m' & r' & Hm' & Hr' & Hj & Ha & Ht & _ & Hin & _).
  destruct messages as [|m0 messages']; [done|]. injection Hm as ->. subst ids.
  destruct (extend_results_spec (call_ids m) e (drop e (m :: messages'))) as (run & rest' & Hd & Hn & Hrun & Hr).
  revert Hn Hr' Hj. generalize (extend_results (call_ids m) e (drop e (m :: messages'))). intros e' -> Hr' Hj.
  assert (∀ k x, (e ≤ k)%nat → (m :: messages') !! k = Some x → (run ++ rest') !! (k - e)%nat = Some x) as Hlook.
  { intros k x Hk Hx. rewrite <-Hd, lookup_drop. by replace (e + (k - e))%nat with k by lia. }
  apply Hlook in Hr'; [|lia]. rewrite lookup_app_r in Hr' by lia.
  replace (e + length run - e - length run)%nat with 0%nat in Hr' by lia.
  destruct rest' as [|r'' rest'']; [done|]. injection Hr' as ->.
  assert (j = 0%nat) as ->.
  { destruct (decide (j = 0%nat)) as [|Hj0]; [done|]. exfalso. destruct (decide (j < e)%nat) as [Hlt|Hge].
    - destruct (Hb j m' ltac:(lia) Hm') as (_ & _ & ?). congruence.
    - apply Hlook in Hm'; [|lia]. rewrite lookup_app_l in Hm' by lia.
      rewrite Forall_lookup in Hrun. apply Hrun in Hm'. by rewrite (assistant_not_tool _ Ha) in Hm'. }
  injection Hm' as ->. destruct Hr as [?|?]; [congruence|done].
Qed.

Section tokens.
Context `{!Tokens}.

Lemma count_drop messages n m :
  messages !! n = Some m →
  count_messages_tokens (drop n messages) = count_message_tokens m + count_messages_tokens (drop (S n) messages).
Proof. intros Hm. by rewrite (drop_S _ _ _ Hm), count_messages_tokens_cons. Qed.

Lemma token_scan_spec messages limit cs n ts used :
  (cs < length messages)%nat → (cs ≤ n ≤ length messages)%nat →
  used = count_messages_tokens (drop n messages) →
  ts = (if decide (n < length messages)%nat then n else length messages - 1)%nat →
  ((n < length messages - 1)%nat → used <= limit) →
  let '(st, limited) := token_scan messages limit cs n ts used in
  (cs ≤ st < length messages)%nat ∧
  ((st < length messages - 1)%nat → count_messages_tokens (drop st messages) <= limit) ∧
  if limited then (cs < st)%nat ∧ limit < count_messages_tokens (drop (st - 1) messages) else st = cs.
Proof.
  revert ts used. induction n as [|index IH]; intros ts used Hcs Hn Hused Hts Hlim; cbn [token_scan].
  { rewrite decide_True in Hts by lia. subst. split_and!; try lia; intros; apply Hlim; lia. }
  case_bool_decide as Hi.
  { rewrite decide_True in Hts by lia. subst ts. split_and!; try lia; intros ?; subst used; apply Hlim; lia. }
  destruct (lookup_lt_is_Some_2 messages index) as [m Hm]; [lia|]. rewrite Hm.
  change (default 0 (count_message_tokens <$> Some m)) with (count_message_tokens m).
  pose proof (count_drop messages index m Hm) as Hsum.
  case_bool_decide as Hlast; cbn [andb]; [case_bool_decide as Hover|].
  - rewrite decide_True in Hts by lia. subst ts. replace (S index - 1)%nat with index by lia.
    split_and!; try lia; intros ?; subst used; apply Hlim; lia.
  - apply IH; try lia. rewrite decide_True by lia. done.
  - apply IH; try lia. rewrite decide_True by lia. done.
Qed.

End tokens.

(** ** Properties *)

Section properties.
Context `{!Tokens}.

(** The number of messages the count limit allows. *)
Definition allowed (fresh_tail_count fresh_tail_max_tokens : Z) : nat :=
  if bool_decide (0 < fresh_tail_max_tokens) then Nat.max 1 (Z.to_nat fresh_tail_count) else Z.to_nat fresh_tail_count.

(** The protected tail is the longest suffix the limits allow, grown only to
    keep a tool group whole.  There is a cut [st] within both limits (the newest
    row is kept under any token cap) that no larger tail within them has, and
    the tail starts there, or at the assistant row that opened the group of the
    result at [st]; it never starts inside a group. *)
Theorem fresh_tail_window messages n cap :
  messages ≠ [] →
  let b := resolve_fresh_tail_boundary messages n cap in
  let len := length messages in
  ¬ splits messages (start b) ∧
  count b = (len - start b)%nat ∧ tokens b = count_messages_tokens (drop (start b) messages) ∧
  ∃ st, (len - allowed n cap ≤ st)%nat ∧
    (if tool_group_extended b then opens messages (start b) st else start b = st) ∧
    (0 < cap → (st < len)%nat ∧ ((st < len - 1)%nat → count_messages_tokens (drop st messages) <= cap)) ∧
    (if token_limited b
     then 0 < cap ∧ (len - allowed n cap < st)%nat ∧ cap < count_messages_tokens (drop (st - 1) messages)
     else st = (len - allowed n cap)%nat).
Proof.
  intros Hne b len. subst b. unfold resolve_fresh_tail_boundary, allowed. fold len.
  assert (0 < len)%nat by (subst len; destruct messages; [done|apply Nat.lt_0_succ]).
  rewrite (bool_decide_eq_false_2 (len = 0%nat)) by lia.
  destruct (Z_lt_dec 0 cap) as [Hcap|Hcap].
  - rewrite !bool_decide_eq_true_2 by lia.
    pose proof (token_scan_spec messages (Z.max 0 cap) (len - Nat.max 1 (Z.to_nat n)) len (len - 1) 0) as Hscan.
    destruct (token_scan _ _ _ _ _ _) as [st limited].
    destruct Hscan as (Hst & Htok & Hmax); [subst len; lia|subst len; lia| | |lia|].
    { by rewrite drop_ge by (subst len; lia). }
    { rewrite decide_False by (subst len; lia). done. }
    cbn [start count tokens tool_group_extended token_limited]. rewrite Z.max_r in Htok, Hmax by lia.
    split_and!; [apply assistant_group_start_whole|by rewrite length_drop|done|].
    exists st. split_and!; [destruct limited; lia| |intros _; split; [lia|done]|destruct limited; [split; [done|exact Hmax]|exact Hmax]].
    case_bool_decide; destruct (assistant_group_start_spec messages st) as [[? _]|Ho]; try done; [lia|].
    destruct Ho as (? & ? & ? & ? & ? & _). lia.
  - rewrite (bool_decide_eq_false_2 (0 < Z.max 0 cap)), (bool_decide_eq_false_2 (0 < cap)) by lia.
    cbn [start count tokens tool_group_extended token_limited].
    split_and!; [apply assistant_group_start_whole|by rewrite length_drop|done|].
    exists (len - Z.to_nat n)%nat. split; [reflexivity|]. split; [|split; [lia|done]].
    case_bool_decide; destruct (assistant_group_start_spec messages (len - Z.to_nat n)) as [[? _]|Ho]; try done; [lia|].
    destruct Ho as (? & ? & ? & ? & ? & _). lia.
Qed.

(** A prefix trimmed with [tool_group_safe_end] is never cut inside a tool
    group, is never emptied by the trimming, and is longer than asked only when
    the whole prefix was one group: then it ends just after that group's
    results. *)
Theorem safe_end_whole messages e :
  (0 < e ≤ length messages)%nat →
  let e' := tool_group_safe_end messages e in
  ¬ splits messages e' ∧ (0 < e' ≤ length messages)%nat ∧
  ((e < e')%nat → opens messages 0 e) ∧ ((e' < e)%nat → opens messages e' e) ∧
  (e' = e → ¬ splits messages e).
Proof.
  intros He e'. subst e'. unfold tool_group_safe_end.
  pose proof (assistant_group_start_whole messages e) as Hw.
  pose proof (assistant_group_start_le messages e) as Hle.
  destruct (assistant_group_start_spec messages e) as [[Hs Hno]|Ho].
  { rewrite (bool_decide_eq_true_2 (_ = e)) by done. cbn [orb]. rewrite Hs. split_and!; done || lia. }
  assert (assistant_group_start messages e < e)%nat as Hlt by (destruct Ho as (? & ? & ? & ? & ? & _); lia).
  rewrite (bool_decide_eq_false_2 (_ = e)) by lia. cbn [orb].
  case_bool_decide as H0.
  { split_and!; try done; try lia. }
  replace (assistant_group_start messages e) with 0%nat in Ho by lia.
  pose proof (extend_results_whole messages e Ho) as Hx. cbv zeta in Hx.
  destruct (extend_results_spec (match messages with m :: _ => call_ids m | [] => [] end) e (drop e messages))
    as (run & rest & Hd & Hn & _).
  assert (length (drop e messages) = length run + length rest)%nat as Hl by (by rewrite Hd, length_app).
  rewrite length_drop in Hl. split_and!; try done; try lia.
  intros Hsame. by rewrite Hsame in Hx.
Qed.

End properties.

#[local] Instance unit_tokens : Tokens := {| count_tokens := λ s, Z.of_nat (String.length s); image_token_cost := 1500 |}.

Definition asks (ids : list string) : row :=
  {| role := Some "assistant"%string; text := ""; images := 0%nat;
     tool_calls := map (λ i, ToolCall (Str i) Absent "f" "{}") ids; tool_call_id := Absent |}.
Definition result_of (i : string) : row :=
  {| role := Some "tool"%string; text := "r"; images := 0%nat; tool_calls := []; tool_call_id := Str i |}.
Definition says (s : string) : row :=
  {| role := Some "user"%string; text := s; images := 0%nat; tool_calls := []; tool_call_id := Absent |}.

Definition talk : list row := [asks ["a"; "b"]; result_of "a"; result_of "b"; says "hello"]%string.

(** Two messages are asked for; the tail grows to the row that made the calls. *)
Example fresh_tail_example :
  start (resolve_fresh_tail_boundary talk 2 0) = 0%nat ∧ tool_group_extended (resolve_fresh_tail_boundary talk 2 0) = true.
Proof. split; reflexivity. Qed.

Theorem fresh_tail_window_witness : ¬ splits talk (start (resolve_fresh_tail_boundary talk 2 0)).
Proof. refine (proj1 (fresh_tail_window talk 2 0 _)). discriminate. Defined.

Theorem safe_end_whole_witness : tool_group_safe_end talk 2 = 3%nat ∧ ¬ splits talk (tool_group_safe_end talk 2).
Proof.
  refine (conj eq_refl _). refine (proj1 (safe_end_whole talk 2 _)). cbn. lia.
Defined.
