(* ===== verification/AssemblyTail.v ===== *)
(** Budgeting and selection of the tail of an assembled context
    (assembly_plan.py): the rows kept, newest first, under a token cap, and what
    they are charged, the stubs the final repair will insert included.

    Rows are named by their index; [kept_reversed] is held in source order (its
    last element first).  [Counter] is a multiset. *)

From stdpp Require Import gmultiset.
From S2P Require Import Prelude PyText Messages ToolPairs.
From stdpp Require Import options.

#[local] Open Scope Z_scope.

(** ** Definitions *)

Definition default_prefix_budget (ceiling overhead leading_tokens tail_tokens repaired_tail_tokens : Z)
    (recall_budget_tokens : option Z) (proactive_recall_enabled embeddings_enabled survival_fit : bool) : Z :=
  Z.max
    (ceiling - overhead - leading_tokens - Z.max tail_tokens repaired_tail_tokens
     - (if proactive_recall_enabled && embeddings_enabled then Z.max 0 (default 0 recall_budget_tokens) else 0))
    (if survival_fit then ceiling / 4 else 0).

Record TailSelection := { indexes : list nat; charged_tokens : Z }.

Section select_tail.
Context `{!Tokens}.
Variable prepared_rows : list row.
Variables cap anchor_cost : Z.
Variable stub : string → row.
Variable is_droppable : row → bool.

Definition row_is_tool (i : nat) : bool := match prepared_rows !! i with Some m => is_tool m | None => false end.
Definition row_tokens (i : nat) : Z := default 0 (count_message_tokens <$> prepared_rows !! i).
Definition row_result_id (i : nat) : string := default EmptyString (result_id <$> prepared_rows !! i).

(** The rows kept right after this one that are results, and the others. *)
Fixpoint own_results (kept : list nat) : list nat * list nat :=
  match kept with
  | i :: kept' => if row_is_tool i then let '(own, rest) := own_results kept' in (i :: own, rest) else ([], kept)
  | [] => ([], [])
  end.

(** The calls without a result among [unmatched], one per occurrence. *)
Fixpoint missing_ids (ids : list string) (unmatched : gmultiset string) : list string :=
  match ids with
  | [] => []
  | c :: ids =>
      if bool_decide (c = EmptyString) then missing_ids ids unmatched
      else if bool_decide (c ∈ unmatched) then missing_ids ids (unmatched ∖ {[+ c +]})
      else c :: missing_ids ids unmatched
  end.

(** What the final repair will insert for this row. *)
Definition reserved_tokens (calls results : list string) : Z :=
  match missing_ids calls (list_to_set_disj results) with
  | [] => 0
  | ids => count_messages_tokens (map stub ids)
  end.

Definition has_calls (m : row) : bool := is_assistant m && bool_decide (tool_calls m ≠ []).

(** [for index in range(len(prepared_rows) - 1, -1, -1)], from [index + 1 = n]. *)
Fixpoint select_loop (n : nat) (kept : list nat) (total : Z) (skipped_gap : bool) : TailSelection :=
  match n with
  | O => {| indexes := kept; charged_tokens := total |}
  | S index =>
      match prepared_rows !! index with
      | None => {| indexes := kept; charged_tokens := total |}
      | Some msg =>
          let '(own, others) := if has_calls msg then own_results kept else ([], kept) in
          let msg_tokens := count_message_tokens msg +
            (if has_calls msg then reserved_tokens (call_ids msg) (map row_result_id own) else 0) in
          if bool_decide (anchor_cost + total + msg_tokens > cap) then
            let total := total - sum_Z (map row_tokens own) in
            if is_droppable msg then select_loop index others total true
            else {| indexes := others; charged_tokens := total |}
          else if skipped_gap then {| indexes := kept; charged_tokens := total |}
          else select_loop index (index :: kept) (total + msg_tokens) false
      end
  end.

Definition select_tail : TailSelection := select_loop (length prepared_rows) [] 0 false.

End select_tail.

(** ** Specification *)

Section charge.
Context `{!Tokens}.
Variable stub : string → row.

(** The results right after a row. *)
Fixpoint leading_results (ms : list row) : list row :=
  match ms with m :: ms => if is_tool m then m :: leading_results ms else [] | [] => [] end.

(** What a list of rows is charged: its rows and the stubs its calls will need. *)
Fixpoint charge (ms : list row) : Z :=
  match ms with
  | [] => 0
  | m :: ms =>
      count_message_tokens m
      + (if has_calls m then reserved_tokens stub (call_ids m) (map result_id (leading_results ms)) else 0)
      + charge ms
  end.

End charge.

(** ** Charging *)

Section charge_lemmas.
Context `{!Tokens, !TokensOk}.
Variable stub : string → row.

Lemma reserved_tokens_nonneg calls results : 0 <= reserved_tokens stub calls results.
Proof using Type*.
  unfold reserved_tokens. destruct (missing_ids _ _); [lia|apply count_messages_tokens_nonneg].
Qed.

Lemma charge_cons_le m ms : charge stub ms <= charge stub (m :: ms).
Proof using Type*.
  cbn [charge]. pose proof (count_message_tokens_nonneg m).
  pose proof (reserved_tokens_nonneg (call_ids m) (map result_id (leading_results ms))).
  destruct (has_calls m); lia.
Qed.

Lemma charge_nonneg ms : 0 <= charge stub ms.
Proof using Type*. induction ms as [|m ms IH]; [done|]. pose proof (charge_cons_le m ms). lia. Qed.

Lemma charge_drop_le ms k : charge stub (drop k ms) <= charge stub ms.
Proof using Type*.
  revert k. induction ms as [|m ms IH]; intros [|k]; [done..|]. cbn [drop].
  pose proof (charge_cons_le m ms). specialize (IH k). lia.
Qed.

(** Results are charged what they cost. *)
Lemma charge_results run ms :
  Forall (λ m, is_tool m = true) run → charge stub (run ++ ms) = count_messages_tokens run + charge stub ms.
Proof using Type.
  induction 1 as [|m run Hm Hrun IH]; [done|]. cbn [app charge]. rewrite count_messages_tokens_cons, IH.
  unfold has_calls. rewrite (has_role_other "tool" "assistant") by done. cbn [andb]. lia.
Qed.

End charge_lemmas.

(** ** The loop *)

Section loop.
Context `{!Tokens, !TokensOk}.
Variable prepared : list row.
Variables cap anchor_cost : Z.
Variable stub : string → row.
Variable is_droppable : row → bool.

Lemma own_results_seq k :
  (k ≤ length prepared)%nat →
  let run := leading_results (drop k prepared) in
  own_results prepared (seq k (length prepared - k)) =
    (seq k (length run), seq (k + length run) (length prepared - (k + length run))) ∧
  drop k prepared = run ++ drop (k + length run) prepared ∧
  Forall (λ m, is_tool m = true) run ∧ (k + length run ≤ length prepared)%nat ∧
  map (row_result_id prepared) (seq k (length run)) = map result_id run ∧
  sum_Z (map (row_tokens prepared) (seq k (length run))) = count_messages_tokens run.
Proof using Type.
  intros Hk. cbv zeta. remember (length prepared - k)%nat as d eqn:Hd. revert k Hk Hd.
  induction d as [|d IH]; intros k Hk Hd.
  { rewrite drop_ge by lia. cbn [leading_results length seq own_results]. rewrite Nat.add_0_r, drop_ge by lia.
    replace (length prepared - k)%nat with 0%nat by lia. repeat split; [constructor|lia]. }
  destruct (lookup_lt_is_Some_2 prepared k ltac:(lia)) as [m Hm].
  rewrite (drop_S _ _ _ Hm). cbn [leading_results seq own_results].
  assert (row_is_tool prepared k = is_tool m) as -> by (unfold row_is_tool; by rewrite Hm).
  destruct (is_tool m) eqn:Ht.
  - destruct (IH (S k) ltac:(lia) ltac:(lia)) as (E & Hdrop & Hall & Hle & Hids & Htok).
    rewrite E. cbn [length seq map]. rewrite Nat.add_succ_r. cbn [app].
    split_and!; [done|exact (f_equal (cons m) Hdrop)|by constructor|lia| |].
    + unfold row_result_id at 1. rewrite Hm. cbn. by f_equal.
    + unfold row_tokens at 1. rewrite Hm, count_messages_tokens_cons, <-Htok. done.
  - cbn [length seq map app]. rewrite Nat.add_0_r, (drop_S _ _ _ Hm).
    replace (length prepared - k)%nat with (S d) by lia. repeat split; [constructor|lia].
Qed.

(** What the loop has kept after the rows from [n] on: a suffix, charged, within
    the cap. *)
Definition keeps (n : nat) (kept : list nat) (total : Z) (skipped_gap : bool) (k : nat) : Prop :=
  (n ≤ k ≤ length prepared)%nat ∧ kept = seq k (length prepared - k) ∧ total = charge stub (drop k prepared) ∧
  (skipped_gap = false → k = n) ∧ ((k < length prepared)%nat → anchor_cost + total <= cap).

Lemma keeps_gap n kept total gap k : keeps (S n) kept total gap k → keeps n kept total true k.
Proof using Type. intros (? & ? & ? & ? & ?). split_and!; done || lia. Qed.

(** Dropping the results of a rejected turn. *)
Lemma keeps_reject n kept total gap k own others :
  keeps (S n) kept total gap k → own_results prepared kept = (own, others) →
  ∃ k', keeps n others (total - sum_Z (map (row_tokens prepared) own)) true k'.
Proof using Type*.
  intros (? & -> & -> & _ & Hcap) Hown.
  destruct (own_results_seq k ltac:(lia)) as (E & Hdrop & Hall & Hle & _ & Htok).
  rewrite E in Hown. injection Hown as <- <-. rewrite Htok.
  exists (k + length (leading_results (drop k prepared)))%nat.
  pose proof (charge_results stub _ (drop (k + length (leading_results (drop k prepared))) prepared) Hall) as Hc.
  rewrite <-Hdrop in Hc.
  pose proof (count_messages_tokens_nonneg (leading_results (drop k prepared))).
  split_and!; try lia; done.
Qed.

Lemma keeps_append n kept total k m :
  keeps (S n) kept total false k → prepared !! n = Some m →
  let own := if has_calls m then fst (own_results prepared kept) else [] in
  let msg_tokens := count_message_tokens m +
    (if has_calls m then reserved_tokens stub (call_ids m) (map (row_result_id prepared) own) else 0) in
  total + msg_tokens = charge stub (drop n prepared) ∧
  (anchor_cost + total + msg_tokens <= cap → keeps n (n :: kept) (total + msg_tokens) false n).
Proof using Type.
  intros (? & -> & -> & Hk & _) Hm. rewrite (Hk eq_refl) in *. cbv zeta.
  assert (charge stub (drop (S n) prepared) + (count_message_tokens m +
            (if has_calls m
             then reserved_tokens stub (call_ids m)
                    (map (row_result_id prepared)
                       (if has_calls m then fst (own_results prepared (seq (S n) (length prepared - S n))) else []))
             else 0)) = charge stub (drop n prepared)) as E.
  { rewrite (drop_S _ _ _ Hm). cbn [charge]. destruct (has_calls m); [|lia].
    destruct (own_results_seq (S n) ltac:(lia)) as (-> & _ & _ & _ & Hids & _). cbn [fst]. rewrite Hids. lia. }
  split; [done|]. intros Hcap. split_and!; try done; try lia.
  replace (length prepared - n)%nat with (S (length prepared - S n)) by lia. done.
Qed.

Lemma select_loop_spec n kept total gap k :
  keeps n kept total gap k →
  let r := select_loop prepared cap anchor_cost stub is_droppable n kept total gap in
  ∃ k', keeps 0 (indexes r) (charged_tokens r) true k'.
Proof using Type*.
  assert (∀ n kept total gap k, keeps n kept total gap k → keeps 0 kept total true k) as Hstop.
  { intros ????? (? & ? & ? & ? & ?). split_and!; done || lia. }
  revert kept total gap k. induction n as [|n IH]; intros kept total gap k Hk; cbn [select_loop].
  { exists k. by eapply Hstop. }
  destruct (prepared !! n) as [m|] eqn:Hm; [|exists k; by eapply Hstop].
  destruct (has_calls m) eqn:Hc.
  - destruct (own_results prepared kept) as [own others] eqn:Hown.
    case_bool_decide as Hover.
    + destruct (keeps_reject _ _ _ _ _ _ _ Hk Hown) as [k' Hk'].
      destruct (is_droppable m); [by eapply IH|exists k'; by eapply Hstop].
    + destruct gap; [exists k; by eapply Hstop|].
      pose proof (keeps_append _ _ _ _ _ Hk Hm) as [_ Ha]. rewrite Hc, Hown in Ha. eapply IH, Ha. cbn [fst]. lia.
  - case_bool_decide as Hover.
    + cbn [map]. change (sum_Z []) with 0. rewrite Z.sub_0_r.
      destruct (is_droppable m); [eapply IH, keeps_gap, Hk|exists k; by eapply Hstop].
    + destruct gap; [exists k; by eapply Hstop|].
      pose proof (keeps_append _ _ _ _ _ Hk Hm) as [_ Ha]. rewrite Hc in Ha. eapply IH, Ha. lia.
Qed.

(** When the whole list fits, the whole list is kept. *)
Lemma select_loop_all n kept total :
  anchor_cost + charge stub prepared <= cap → keeps n kept total false n →
  let r := select_loop prepared cap anchor_cost stub is_droppable n kept total false in
  keeps 0 (indexes r) (charged_tokens r) false 0.
Proof using Type*.
  intros Hfit. revert kept total. induction n as [|n IH]; intros kept total Hk; cbn [select_loop]; [done|].
  destruct (lookup_lt_is_Some_2 prepared n) as [m Hm]; [destruct Hk as [? _]; lia|]. rewrite Hm.
  pose proof (charge_drop_le stub prepared n). pose proof (keeps_append _ _ _ _ _ Hk Hm) as [Hsum Ha].
  destruct (has_calls m) eqn:Hc; [destruct (own_results prepared kept) as [own others] eqn:Hown|];
    cbn [fst] in *; rewrite bool_decide_eq_false_2 by lia; apply IH, Ha; lia.
Qed.

End loop.

(** ** The final repair costs no more than the charge *)

Lemma missing_ids_prefix k more :
  Forall (λ c, c ≠ EmptyString) (k ++ more) → missing_ids (k ++ more) (list_to_set_disj k) = more.
Proof.
  induction k as [|c k IH]; intros Hne.
  - cbn [app] in *. change (list_to_set_disj []) with (∅ : gmultiset string).
    induction Hne as [|c more Hc Hne IH]; [done|]. cbn [missing_ids].
    rewrite (bool_decide_eq_false_2 (c = EmptyString)) by done.
    rewrite (bool_decide_eq_false_2 (c ∈ (∅ : gmultiset string))) by apply gmultiset_not_elem_of_empty.
    by f_equal.
  - cbn [app] in *. inversion Hne as [|? ? Hc Hne']; subst.
    change (list_to_set_disj (c :: k)) with ({[+ c +]} ⊎ list_to_set_disj k : gmultiset string). cbn [missing_ids].
    rewrite (bool_decide_eq_false_2 (c = EmptyString)) by done.
    rewrite (bool_decide_eq_true_2 (c ∈ _)) by (rewrite gmultiset_elem_of_disj_union, gmultiset_elem_of_singleton; by left).
    rewrite <-(IH Hne') at 2. f_equal. multiset_solver.
Qed.

Lemma missing_ids_filter ids unmatched :
  missing_ids (filter (λ c, c ≠ EmptyString) ids) unmatched = missing_ids ids unmatched.
Proof.
  revert unmatched. induction ids as [|c ids IH]; intros unmatched; [done|].
  destruct (decide (c = EmptyString)) as [->|Hc].
  - rewrite filter_cons_False by auto. cbn [missing_ids]. by rewrite bool_decide_eq_true_2, IH.
  - rewrite filter_cons_True by done. cbn [missing_ids]. by rewrite !IH.
Qed.

Lemma leading_results_app run ms :
  Forall (λ m, is_tool m = true) run → match ms with m :: _ => is_tool m = false | [] => True end →
  leading_results (run ++ ms) = run.
Proof.
  induction 1 as [|m run Hm Hrun IH]; intros Hms; cbn [app leading_results].
  - destruct ms as [|m ms]; [done|]. cbn [leading_results]. by rewrite Hms.
  - rewrite Hm. by rewrite IH.
Qed.

Lemma paired_suffix strict ms k :
  paired strict ms → ∃ orphans ps, drop k ms = orphans ++ ps ∧ Forall (λ m, is_tool m = true) orphans ∧ paired strict ps.
Proof.
  intros Hp. revert k. induction Hp as [|m ms Hm Ha Hp IH|m expected results ms Ha [Ht Hi] He Hp IH]; intros k.
  - exists [], []. rewrite drop_nil. repeat split; constructor.
  - destruct k as [|k]; [|by apply IH]. exists [], (m :: ms). repeat split; by constructor.
  - destruct k as [|k].
    { exists [], (m :: results ++ ms). split; [done|]. split; [done|]. by eapply paired_turn. }
    cbn [drop]. rewrite drop_app. destruct (IH (k - length results)%nat) as (orphans & ps & -> & Ho & Hps).
    exists (drop k results ++ orphans), ps. rewrite app_assoc. split; [done|].
    split; [|done]. apply Forall_app. split; [by apply Forall_drop|done].
Qed.

(** A call without a result is answered by its stub. *)
Lemma answer_all_missing stub expected rest :
  match rest with m :: _ => is_tool m = false | [] => True end →
  answer stub true expected rest = (map stub expected, 0%nat, length expected, rest).
Proof.
  intros Hr. induction expected as [|e expected IH]; [done|]. cbn [answer].
  assert (take_result e rest = (None, 0%nat, rest)) as ->.
  { destruct rest as [|m rest]; [done|]. cbn [take_result]. by rewrite Hr. }
  by rewrite IH.
Qed.

Section cost.
Context `{!Tokens, !TokensOk}.
Variable stub : string → row.

Lemma repair_loop_cost ps :
  paired false ps → ∀ fuel, (length ps ≤ fuel)%nat →
  count_messages_tokens (rows (repair_loop stub true fuel ps)) = charge stub ps.
Proof using Type*.
  induction 1 as [|m ms Hm Ha Hp IH|m expected results ms Ha Hans [more He] Hp IH];
    intros [|fuel]; cbn [length repair_loop]; intros Hl; try done; try lia.
  - rewrite Hm, Ha. cbn [emit rows app charge]. unfold has_calls. rewrite Ha. cbn [andb].
    rewrite count_messages_tokens_cons, IH by lia. lia.
  - rewrite (assistant_not_tool _ Ha), Ha. rewrite length_app in Hl.
    pose proof (paired_head _ _ Hp) as Hhead.
    rewrite He, answer_app, (answer_fixed stub true _ _ _ Hans Hhead), answer_all_missing by done.
    assert (skip_tools ms = (0%nat, ms)) as ->.
    { destruct ms as [|m' ms']; [done|]. cbn [skip_tools]. by rewrite Hhead. }
    destruct Hans as [Ht Hids]. cbn [emit rows app charge].
    rewrite <-app_assoc, count_messages_tokens_cons, !count_messages_tokens_app, IH by lia.
    rewrite (charge_results stub) by done. rewrite leading_results_app by done. rewrite Hids.
    assert (reserved_tokens stub (call_ids m) expected = count_messages_tokens (map stub more)) as Hres.
    { unfold reserved_tokens. rewrite <-missing_ids_filter.
      change (filter (λ c, c ≠ EmptyString) (call_ids m)) with (expected_ids m). rewrite He, missing_ids_prefix.
      - by destruct more.
      - rewrite <-He. eapply Forall_impl; [apply expected_ids_ok|]. by intros c [? _]. }
    destruct (has_calls m) eqn:Hc; [rewrite Hres; lia|].
    assert (map stub more = []) as ->; [|cbn; lia].
    unfold has_calls in Hc. rewrite Ha in Hc. cbn [andb] in Hc. apply bool_decide_eq_false in Hc.
    destruct (decide (tool_calls m = [])) as [Hc'|]; [|done]. unfold expected_ids, call_ids in He. rewrite Hc' in He. cbn in He.
    symmetry in He. by apply app_eq_nil in He as [_ ->].
Qed.

Lemma repair_orphans_cost orphans ps :
  Forall (λ m, is_tool m = true) orphans → paired false ps →
  count_messages_tokens (rows (repair_tool_pairs stub true (orphans ++ ps))) <= charge stub (orphans ++ ps).
Proof using Type*.
  intros Ho Hp. rewrite charge_results by done. pose proof (count_messages_tokens_nonneg orphans).
  assert (count_messages_tokens (rows (repair_tool_pairs stub true (orphans ++ ps))) = charge stub ps) as ->; [|lia].
  unfold repair_tool_pairs. induction Ho as [|m orphans Hm Ho IH]; [by apply repair_loop_cost|].
  cbn [app length repair_loop]. rewrite Hm. cbn [drop_one rows]. apply IH. apply count_messages_tokens_nonneg.
Qed.

End cost.

Lemma select_tail_keeps `{!Tokens, !TokensOk} prepared cap anchor_cost stub is_droppable :
  let r := select_tail prepared cap anchor_cost stub is_droppable in
  ∃ k, (k ≤ length prepared)%nat ∧ indexes r = seq k (length prepared - k) ∧
    charged_tokens r = charge stub (drop k prepared) ∧
    (indexes r ≠ [] → anchor_cost + charged_tokens r <= cap) ∧
    (anchor_cost + charge stub prepared <= cap → k = 0%nat).
Proof.
  cbv zeta.
  assert (keeps prepared cap anchor_cost stub (length prepared) [] 0 false (length prepared)) as Hinit.
  { split_and!; try done; try lia; [by rewrite Nat.sub_diag|by rewrite drop_ge]. }
  destruct (Z_le_dec (anchor_cost + charge stub prepared) cap) as [Hfit|Hfit].
  - pose proof (select_loop_all prepared cap anchor_cost stub is_droppable _ _ _ Hfit Hinit)
      as (? & E & Ec & _ & Hcap). exists 0%nat. split_and!; try done; [lia|].
    intros Hne. apply Hcap. unfold select_tail in Hne. rewrite E in Hne. destruct prepared; [done|cbn; lia].
  - destruct (select_loop_spec prepared cap anchor_cost stub is_droppable _ _ _ _ _ Hinit)
      as (k & ? & E & Ec & _ & Hcap). exists k. split_and!; try done; try lia.
    intros Hne. apply Hcap. unfold select_tail in Hne. rewrite E in Hne.
    destruct (length prepared - k)%nat eqn:?; [done|lia].
Qed.

(** [[rows[i] for i in indexes]] *)
Definition rows_at (prepared : list row) (ixs : list nat) : list row := omap (λ i, prepared !! i) ixs.

Lemma rows_at_seq prepared k :
  (k ≤ length prepared)%nat → rows_at prepared (seq k (length prepared - k)) = drop k prepared.
Proof.
  intros Hk. remember (length prepared - k)%nat as d eqn:Hd. revert k Hk Hd.
  induction d as [|d IH]; intros k Hk Hd; [by rewrite drop_ge by lia|].
  destruct (lookup_lt_is_Some_2 prepared k ltac:(lia)) as [m Hm].
  unfold rows_at in *. cbn [seq omap list_omap]. rewrite Hm, (drop_S _ _ _ Hm). f_equal. apply IH; lia.
Qed.

(** ** Properties *)

(** The selection is a suffix of the prepared rows (nothing older than a row
    left out is kept), it is charged exactly its rows and the stubs its
    unanswered calls will need, the charge fits the cap beside the anchor unless
    nothing is kept, and a tail that fits is kept whole. *)
Theorem select_tail_suffix `{!Tokens, !TokensOk} prepared cap anchor_cost stub is_droppable :
  let r := select_tail prepared cap anchor_cost stub is_droppable in
  ∃ k, (k ≤ length prepared)%nat ∧ indexes r = seq k (length prepared - k) ∧
    charged_tokens r = charge stub (drop k prepared) ∧
    (indexes r ≠ [] → anchor_cost + charged_tokens r <= cap) ∧
    (anchor_cost + charge stub prepared <= cap → k = 0%nat).
Proof. apply select_tail_keeps. Qed.

(** C35: prepared by the repair without stubs, selected, and repaired again with
    stubs, a tail costs at most what the selection charged; so beside the anchor
    it stays within the cap unless no row was kept. *)
Theorem assembled_tail_fits `{!Tokens, !TokensOk} messages cap anchor_cost stub is_droppable :
  stub_answers stub →
  let prepared := rows (repair_tool_pairs stub false messages) in
  let r := select_tail prepared cap anchor_cost stub is_droppable in
  let final := rows (repair_tool_pairs stub true (rows_at prepared (indexes r))) in
  count_messages_tokens final <= charged_tokens r ∧ paired true final ∧
  (indexes r ≠ [] → anchor_cost + count_messages_tokens final <= cap).
Proof.
  intros Hstub. cbv zeta. set (prepared := rows (repair_tool_pairs stub false messages)).
  destruct (select_tail_keeps prepared cap anchor_cost stub is_droppable) as (k & Hk & -> & -> & Hcap & _).
  rewrite rows_at_seq by done.
  assert (paired false prepared) as Hp by by apply repair_loop_paired.
  destruct (paired_suffix _ _ k Hp) as (orphans & ps & E & Ho & Hps).
  assert (count_messages_tokens (rows (repair_tool_pairs stub true (drop k prepared))) <= charge stub (drop k prepared))
    as Hcost by (rewrite E; by apply repair_orphans_cost).
  split; [done|]. split; [by apply repair_loop_paired|]. intros Hne. specialize (Hcap Hne). lia.
Qed.

#[local] Instance length_tokens : Tokens := {| count_tokens := λ s, Z.of_nat (String.length s); image_token_cost := 1500 |}.
#[local] Instance length_tokens_ok : TokensOk.
Proof. split; cbn; [intros s; apply Nat2Z.is_nonneg|done]. Qed.

(** The two oldest rows of [sample] do not fit beside the anchor: the turn that
    asked and its results go, the user row stays. *)
Example select_tail_example :
  let prepared := rows (repair_tool_pairs missing_tool_result_stub false sample) in
  select_tail prepared 40 0 missing_tool_result_stub (λ _, true) = {| indexes := [2]%nat; charged_tokens := 5 |} ∧
  select_tail prepared 400 0 missing_tool_result_stub (λ _, true) =
    {| indexes := [0; 1; 2]%nat; charged_tokens := 95 |}.
Proof. vm_compute. split; reflexivity. Qed.

Theorem select_tail_suffix_witness :
  ∃ k, (k ≤ 5)%nat ∧ indexes (select_tail sample 40 0 missing_tool_result_stub (λ _, true)) = seq k (5 - k).
Proof.
  destruct (select_tail_suffix sample 40 0 missing_tool_result_stub (λ _, true)) as (k & H1 & H2 & _).
  exact (ex_intro _ k (conj H1 H2)).
Defined.

Theorem assembled_tail_fits_witness :
  let prepared := rows (repair_tool_pairs missing_tool_result_stub false sample) in
  count_messages_tokens (rows (repair_tool_pairs missing_tool_result_stub true (rows_at prepared [0; 1; 2]%nat))) <= 95.
Proof.
  exact (proj1 (assembled_tail_fits sample 400 0 missing_tool_result_stub (λ _, true)
                  missing_tool_result_stub_answers)).
Defined.
