(* ===== verification/Frontier.v ===== *)
(** The canonical frontier of summary nodes (rollup_periods.py): among candidate
    nodes, the ones that together cover every terminal node exactly once.

    A lineage maps a node to the nodes it condenses; a node without an entry, or
    with an empty one, is terminal.  [leaf_memo] is threaded through the calls;
    [active] is the set of ancestors of the call.  The recursion descends the
    lineage, so it runs on fuel: one more than the number of nodes that have an
    entry and are not active is enough, since only such a node recurses. *)

From S2P Require Import Prelude.
From stdpp Require Import relations.
From stdpp Require Import options.

#[local] Open Scope Z_scope.

(** ** Definitions *)

Record CoverageNode := {
  node_id : Z; depth : Z; source_node_ids : list Z; earliest_at : option Z; latest_at : option Z }.
#[global] Instance CoverageNode_eq_dec : EqDecision CoverageNode.
Proof. solve_decision. Defined.

Abbreviation lineage := (gmap Z (list Z)).
Abbreviation leaf_set := (gset Z).

(** [CanonicalFrontierOverlapError], by its two messages. *)
Inductive frontier_error := Cycle (n : Z) | PartialOverlap | OutOfFuel.

(** [lineage.get(node_id, ())] *)
Definition sources (lin : lineage) (n : Z) : list Z := default [] (lin !! n).

(** [leaf_memo[node_id] = leaves] *)
Definition memoize (n : Z) (r : leaf_set * gmap Z leaf_set) : leaf_set * gmap Z leaf_set :=
  (r.1, <[n := r.1]> r.2).

Fixpoint terminal_lineage (fuel : nat) (lin : lineage) (memo : gmap Z leaf_set) (active : gset Z) (n : Z)
    : result frontier_error (leaf_set * gmap Z leaf_set) :=
  match memo !! n with
  | Some cached => Ok (cached, memo)
  | None =>
      if bool_decide (n ∈ active) then Err (Cycle n) else
      match fuel with
      | O => Err OutOfFuel
      | S fuel =>
          if bool_decide (sources lin n = []) then Ok (memoize n ({[n]}, memo))
          else
              let! r :=
                (fix go (srcs : list Z) (leaves : leaf_set) (memo : gmap Z leaf_set) :=
                   match srcs with
                   | [] => Ok (leaves, memo)
                   | s :: srcs =>
                       let! (ls, memo) := terminal_lineage fuel lin memo ({[n]} ∪ active) s in
                       go srcs (leaves ∪ ls) memo
                   end) (sources lin n) ∅ memo in
              Ok (memoize n r)
      end
  end.

(** [lineage.setdefault(node.node_id, node.source_node_ids)] for every node. *)
Definition with_candidates (lin : lineage) (nodes : list CoverageNode) : lineage :=
  foldl (λ lin n, match lin !! node_id n with Some _ => lin | None => <[node_id n := source_node_ids n]> lin end) lin nodes.

Abbreviation groups := (list (leaf_set * list CoverageNode)).

(** [by_leaf_set.setdefault(leaf_set, []).append(node)] *)
Fixpoint add_to_group (s : leaf_set) (n : CoverageNode) (gs : groups) : groups :=
  match gs with
  | [] => [(s, [n])]
  | (s', g) :: gs => if bool_decide (s' = s) then (s', g ++ [n]) :: gs else (s', g) :: add_to_group s n gs
  end.

Fixpoint group_nodes (fuel : nat) (lin : lineage) (nodes : list CoverageNode) (memo : gmap Z leaf_set) (gs : groups)
    : result frontier_error groups :=
  match nodes with
  | [] => Ok gs
  | n :: nodes =>
      let! (s, memo) := terminal_lineage fuel lin memo ∅ (node_id n) in
      group_nodes fuel lin nodes memo (add_to_group s n gs)
  end.

(** [(-node.depth, node.node_id)] of [a] before that of [b]. *)
Definition key_lt (a b : CoverageNode) : bool :=
  bool_decide (depth b < depth a) || bool_decide (depth a = depth b) && bool_decide (node_id a < node_id b).

(** [min(group, key=...)]: the first of the least. *)
Definition representative (g : list CoverageNode) : option CoverageNode :=
  match g with
  | [] => None
  | n :: g => Some (foldl (λ best n, if key_lt n best then n else best) n g)
  end.

(** [left & right and not (left <= right or right <= left)] *)
Definition partial_overlap (l r : leaf_set) : bool :=
  bool_decide (l ∩ r ≠ ∅) && negb (bool_decide (l ⊆ r) || bool_decide (r ⊆ l)).

Fixpoint any_partial_overlap (ls : list leaf_set) : bool :=
  match ls with [] => false | l :: ls => existsb (partial_overlap l) ls || any_partial_overlap ls end.

(** [leaf_set < other] *)
Definition proper_subset (l r : leaf_set) : bool := bool_decide (l ⊆ r) && negb (bool_decide (r ⊆ l)).

Definition maximal (ls : list leaf_set) (l : leaf_set) : bool := negb (existsb (proper_subset l) ls).

Definition selected_ids (gs : groups) : list Z :=
  omap (λ '(s, g), if maximal (map fst gs) s then node_id <$> representative g else None) gs.

Definition canonical_frontier (nodes : list CoverageNode) (source_lineage : lineage)
    : result frontier_error (list CoverageNode) :=
  let lin := with_candidates source_lineage nodes in
  let! gs := group_nodes (S (size lin)) lin nodes ∅ [] in
  raise_if (any_partial_overlap (map fst gs)) PartialOverlap
    (Ok (filter (λ n, node_id n ∈ selected_ids gs) nodes)).

(** ** Specification *)

Section graph.
Context (lin : lineage).

Definition edge (n s : Z) : Prop := s ∈ sources lin n.

(** [l] is a terminal node below [n]. *)
Definition leaf_of (n l : Z) : Prop := rtc edge n l ∧ sources lin l = [].

(** A cycle can be reached from [n]. *)
Definition cyclic (n : Z) : Prop := ∃ c, rtc edge n c ∧ tc edge c c.

Definition leaves_are (n : Z) (s : leaf_set) : Prop := ∀ l, l ∈ s ↔ leaf_of n l.

(** ** The terminal lineage *)

Lemma cyclic_source n s : edge n s → cyclic s → cyclic n.
Proof. intros He (c & Hr & Hc). exists c. split; [by eapply rtc_l|done]. Qed.

Lemma not_cyclic_sources n : (∀ s, edge n s → ¬ cyclic s) → ¬ cyclic n.
Proof.
  intros Hs (c & Hr & Hc). inversion Hr as [x|x s y He Hr' Hx Hy]; subst.
  - inversion Hc as [x y He Hx Hy|x s y He Ht Hx Hy]; subst.
    + apply (Hs c He). exists c. by split.
    + apply (Hs s He). exists c. split; [by apply tc_rtc|done].
  - apply (Hs s He). by exists c.
Qed.

Lemma leaf_of_leaf n l : sources lin n = [] → leaf_of n l ↔ l = n.
Proof.
  intros Hn. split; [|intros ->; by split].
  intros [Hr _]. inversion Hr as [x|x s y He Hr' Hx Hy]; subst; [done|].
  unfold edge in He. rewrite Hn in He. by apply not_elem_of_nil in He.
Qed.

Lemma leaf_of_sources n l : sources lin n ≠ [] → leaf_of n l ↔ ∃ s, edge n s ∧ leaf_of s l.
Proof.
  intros Hn. split.
  - intros [Hr Hl]. inversion Hr as [x|x s y He Hr' Hx Hy]; subst; [done|]. exists s. by split.
  - intros (s & He & Hr & Hl). split; [by eapply rtc_l|done].
Qed.

(** A memo table holds right answers for nodes that reach no cycle. *)
Definition memo_ok (memo : gmap Z leaf_set) : Prop :=
  ∀ n s, memo !! n = Some s → leaves_are n s ∧ ¬ cyclic n.

(** What a call returns: the right leaves, or an error that is justified. *)
Definition answers_right (n : Z) (r : result frontier_error (leaf_set * gmap Z leaf_set)) : Prop :=
  match r with
  | Ok (s, memo) => leaves_are n s ∧ ¬ cyclic n ∧ memo_ok memo
  | Err (Cycle _) => cyclic n
  | Err _ => False
  end.

Lemma memoize_right n s memo :
  leaves_are n s → ¬ cyclic n → memo_ok memo → answers_right n (Ok (memoize n (s, memo))).
Proof.
  intros Hs Hc Hm. split_and!; [done..|]. intros k s'. cbn.
  destruct (decide (k = n)) as [->|Hne]; [rewrite lookup_insert_eq; by intros [= <-]|].
  rewrite lookup_insert_ne by done. apply Hm.
Qed.

Lemma terminal_lineage_right fuel memo active n :
  memo_ok memo → (∀ a, a ∈ active → tc edge a n) → (size (dom lin ∖ active) < fuel)%nat →
  answers_right n (terminal_lineage fuel lin memo active n).
Proof.
  revert memo active n. induction fuel as [|fuel IH]; intros memo active n Hm Ha Hf; [lia|].
  cbn [terminal_lineage]. destruct (memo !! n) as [s|] eqn:E; [by destruct (Hm _ _ E)|].
  case_bool_decide as Hn.
  { exists n. split; [done|]. by apply Ha. }
  case_bool_decide as Es.
  { apply memoize_right; [|apply not_cyclic_sources|done].
    - intros l. rewrite elem_of_singleton, leaf_of_leaf by done. done.
    - intros s. unfold edge. rewrite Es. by intros ?%not_elem_of_nil. }
  assert (n ∈ dom lin) as Hdom.
  { unfold sources in Es. apply elem_of_dom. by destruct (lin !! n). }
  assert (size (dom lin ∖ ({[n]} ∪ active)) < fuel)%nat as Hf'.
  { assert (size (dom lin ∖ ({[n]} ∪ active)) < size (dom lin ∖ active))%nat; [|lia].
    apply subset_size. set_solver. }
  set (go := fix go (srcs : list Z) (leaves : leaf_set) (memo : gmap Z leaf_set) := _).
  assert (∀ srcs leaves memo, memo_ok memo → (∀ s, s ∈ srcs → edge n s) →
    match go srcs leaves memo with
    | Ok (ls, memo) => (∀ l, l ∈ ls ↔ l ∈ leaves ∨ ∃ s, s ∈ srcs ∧ leaf_of s l) ∧
                       (∀ s, s ∈ srcs → ¬ cyclic s) ∧ memo_ok memo
    | Err (Cycle _) => ∃ s, s ∈ srcs ∧ cyclic s
    | Err _ => False
    end) as Hgo.
  { induction srcs as [|s srcs IHs]; intros leaves memo' Hm' He; cbn [go].
    { split_and!; [|by intros s ?%not_elem_of_nil|done].
      intros l. split; [by left|]. by intros [?|(s & ?%not_elem_of_nil & _)]. }
    assert (∀ a, a ∈ {[n]} ∪ active → tc edge a s) as Ha'.
    { assert (edge n s) as Hns by (apply He; by left).
      intros a [->%elem_of_singleton|Hact]%elem_of_union; [by apply tc_once|].
      eapply tc_r; [by apply Ha|done]. }
    specialize (IH memo' _ s Hm' Ha' Hf').
    destruct (terminal_lineage fuel lin memo' ({[n]} ∪ active) s) as [[ls memo'']|[]]; cbn [rbind];
      [|exists s; split; [by left|done]|done..].
    destruct IH as (Hls & Hc & Hm'').
    specialize (IHs (leaves ∪ ls) memo'' Hm'' (λ x Hx, He x (list_elem_of_further _ _ _ Hx))).
    destruct (go srcs (leaves ∪ ls) memo'') as [[ls' memo3]|[]]; [|destruct IHs as (x & ? & ?); exists x; split; [by right|done]|done..].
    destruct IHs as (Hls' & Hc' & Hm3). split_and!; [|by intros x [->|?]%elem_of_cons; [|apply Hc']|done].
    intros l. rewrite Hls', elem_of_union, (Hls l). split.
    - intros [[?|?]|(x & ? & ?)]; [by left|right; exists s; split; [by left|done]|].
      right. exists x. split; [by right|done].
    - intros [?|(x & [->|?]%elem_of_cons & ?)]; [by left; left|by left; right|]. right. by exists x. }
  specialize (Hgo (sources lin n) ∅ memo Hm (λ s Hs, Hs)).
  destruct (go (sources lin n) ∅ memo) as [[ls memo']|[]]; cbn [rbind]; [|destruct Hgo as (x & ? & ?); by eapply cyclic_source|done..].
  destruct Hgo as (Hls & Hc & Hm'). apply memoize_right; [|by apply not_cyclic_sources|done].
  intros l. rewrite Hls, leaf_of_sources by done. rewrite elem_of_empty. split; [|by right].
  by intros [[]|?].
Qed.

End graph.

(** ** Groups and representatives *)

(** [gs] groups the nodes [done] by their leaves. *)
Definition groups_ok (lin : lineage) (gs : groups) (done : list CoverageNode) : Prop :=
  (∀ s g, (s, g) ∈ gs → g ≠ [] ∧ ∀ n, n ∈ g ↔ n ∈ done ∧ leaves_are lin (node_id n) s) ∧
  (∀ n, n ∈ done → ∃ s g, (s, g) ∈ gs ∧ n ∈ g) ∧ NoDup (map fst gs).

Lemma leaves_are_unique lin n s s' : leaves_are lin n s → leaves_are lin n s' → s = s'.
Proof. intros Hs Hs'. apply set_eq. intros l. by rewrite (Hs l), (Hs' l). Qed.

Lemma key_not_elem (s : leaf_set) (g : list CoverageNode) (gs : groups) : (s, g) ∈ gs → s ∈ map fst gs.
Proof. intros H. apply list_elem_of_fmap. by exists (s, g). Qed.

Lemma add_to_group_keys s n gs : ∀ k, k ∈ map fst (add_to_group s n gs) ↔ k = s ∨ k ∈ map fst gs.
Proof.
  induction gs as [|[s0 g0] gs IH]; intros k; cbn [add_to_group map fst].
  { rewrite elem_of_cons. done. }
  case_bool_decide as Hs; cbn [map fst]; rewrite !elem_of_cons; [|rewrite IH; tauto].
  subst. tauto.
Qed.

Lemma add_to_group_elem s n gs :
  NoDup (map fst gs) →
  NoDup (map fst (add_to_group s n gs)) ∧
  (∀ s' g', s' ≠ s → (s', g') ∈ add_to_group s n gs ↔ (s', g') ∈ gs) ∧
  (∀ g', (s, g') ∈ add_to_group s n gs ↔
     (∃ g, (s, g) ∈ gs ∧ g' = g ++ [n]) ∨ ((s ∉ map fst gs) ∧ g' = [n])).
Proof.
  induction gs as [|[s0 g0] gs IH]; cbn [map fst add_to_group]; intros Hnd.
  { split_and!; [apply NoDup_singleton| |].
    - intros s' g' Hs. rewrite list_elem_of_singleton. split; [by intros [= ? ?]|by intros ?%not_elem_of_nil].
    - intros g'. rewrite list_elem_of_singleton. split; [|intros [(g & ?%not_elem_of_nil & _)|[_ ->]]; done].
      intros [= ->]. right. split; [apply not_elem_of_nil|done]. }
  apply NoDup_cons in Hnd as [Hs0 Hnd]. destruct (IH Hnd) as (Hnd' & Hother & Hsame).
  case_bool_decide as Hs.
  - subst s0. cbn [map fst]. split_and!; [by apply NoDup_cons|..].
    + intros s' g' Hne. rewrite !elem_of_cons. split; (intros [[= ? ?]|?]; [done|by right]).
    + intros g'. rewrite elem_of_cons. split.
      * intros [[= ->]|Hg]; [|by apply key_not_elem in Hg]. left. exists g0. split; [by left|done].
      * intros [(g & [[= ->]|Hg]%elem_of_cons & ->)|[Hn _]]; [by left|by apply key_not_elem in Hg|].
        exfalso. apply Hn. by left.
  - cbn [map fst]. split_and!.
    + apply NoDup_cons. split; [|done]. rewrite add_to_group_keys. by intros [?|?].
    + intros s' g' Hne. rewrite !elem_of_cons, Hother by done. done.
    + intros g'. rewrite elem_of_cons, Hsame. setoid_rewrite elem_of_cons. split.
      * intros [[= ? ?]|[(g & Hg & ->)|[Hn ->]]]; [done|left; exists g; split; [by right|done]|right].
        split; [|done]. by intros [?|?].
      * intros [(g & [[= ? ?]|Hg] & ->)|[Hn ->]]; [done|right; left; by exists g|right; right].
        split; [|done]. intros ?. apply Hn. by right.
Qed.

Lemma groups_ok_add lin s n gs done' :
  groups_ok lin gs done' → leaves_are lin (node_id n) s → groups_ok lin (add_to_group s n gs) (done' ++ [n]).
Proof.
  intros (Hg & Hd & Hnd) Hs. destruct (add_to_group_elem s n gs Hnd) as (Hnd' & Hother & Hsame).
  split_and!; [| |done].
  - intros s' g' Hin. destruct (decide (s' = s)) as [->|Hne].
    + apply Hsame in Hin as [(g & Hin & ->)|[Hnew ->]].
      * destruct (Hg _ _ Hin) as [_ Hm]. split; [by destruct g|]. intros m.
        rewrite !elem_of_app, Hm, list_elem_of_singleton. split; [|tauto].
        intros [[? ?]| ->]; [tauto|]. split; [by right|done].
      * split; [done|]. intros m. rewrite elem_of_app, !list_elem_of_singleton. split.
        -- intros ->. split; [by right|done].
        -- intros [[Hm| ->] Hm']; [|done]. exfalso. apply Hnew. destruct (Hd m Hm) as (s2 & g2 & Hin2 & Hmem).
           apply (Hg _ _ Hin2) in Hmem as [_ Hs2]. rewrite (leaves_are_unique _ _ _ _ Hm' Hs2). by eapply key_not_elem.
    + apply Hother in Hin; [|done]. destruct (Hg _ _ Hin) as [Hne' Hm]. split; [done|]. intros m.
      rewrite elem_of_app, Hm, list_elem_of_singleton. split; [tauto|].
      intros [[?| ->] Hm']; [done|]. by destruct (Hne (leaves_are_unique _ _ _ _ Hm' Hs)).
  - intros m [Hm| ->%list_elem_of_singleton]%elem_of_app.
    + destruct (Hd m Hm) as (s2 & g2 & Hin2 & Hmem). destruct (decide (s2 = s)) as [->|Hne].
      * exists s, (g2 ++ [n]). split; [apply Hsame; left; by exists g2|]. apply elem_of_app. by left.
      * exists s2, g2. split; [by apply Hother|done].
    + destruct (decide (s ∈ map fst gs)) as [Hk|Hk].
      * apply list_elem_of_fmap in Hk as ([s2 g2] & -> & Hin2). exists s2, (g2 ++ [n]).
        split; [apply Hsame; left; by exists g2|]. apply elem_of_app. right. by left.
      * exists s, [n]. split; [apply Hsame; by right|by left].
Qed.

Lemma group_nodes_right lin nodes : ∀ memo gs done',
  memo_ok lin memo → groups_ok lin gs done' →
  match group_nodes (S (size lin)) lin nodes memo gs with
  | Ok gs => groups_ok lin gs (done' ++ nodes) ∧ ∀ n, n ∈ nodes → ¬ cyclic lin (node_id n)
  | Err (Cycle _) => ∃ n, n ∈ nodes ∧ cyclic lin (node_id n)
  | Err _ => False
  end.
Proof.
  induction nodes as [|n nodes IH]; intros memo gs done' Hm Hg; cbn [group_nodes].
  { rewrite app_nil_r. split; [done|]. by intros n ?%not_elem_of_nil. }
  pose proof (terminal_lineage_right lin (S (size lin)) memo ∅ (node_id n) Hm) as Ht.
  specialize (Ht ltac:(set_solver)).
  rewrite difference_empty_L, size_dom in Ht. specialize (Ht (Nat.lt_succ_diag_r _)).
  destruct (terminal_lineage _ lin memo ∅ (node_id n)) as [[s memo']|[]]; cbn [rbind];
    [|exists n; split; [by left|done]|done..].
  destruct Ht as (Hs & Hc & Hm').
  specialize (IH memo' (add_to_group s n gs) (done' ++ [n]) Hm' (groups_ok_add _ _ _ _ _ Hg Hs)).
  destruct (group_nodes _ lin nodes memo' (add_to_group s n gs)) as [gs'|[]];
    [|destruct IH as (m & ? & ?); exists m; split; [by right|done]|done..].
  rewrite <-app_assoc in IH. destruct IH as [? Hcyc]. split; [done|].
  intros m [->|?]%elem_of_cons; [done|by apply Hcyc].
Qed.

Lemma key_lt_spec a b :
  key_lt a b = true ↔ depth b < depth a ∨ depth a = depth b ∧ node_id a < node_id b.
Proof. unfold key_lt. by rewrite orb_true_iff, andb_true_iff, !bool_decide_eq_true. Qed.

Lemma key_lt_false a b :
  key_lt a b = false ↔ depth a < depth b ∨ depth a = depth b ∧ node_id b <= node_id a.
Proof.
  rewrite <-not_true_iff_false, key_lt_spec. lia.
Qed.

Lemma representative_least g :
  g ≠ [] → ∃ r, representative g = Some r ∧ r ∈ g ∧ ∀ n, n ∈ g → key_lt n r = false.
Proof.
  destruct g as [|n0 g]; [done|]. intros _. cbn [representative]. eexists. split; [done|].
  assert (∀ g best seen, best ∈ seen → (∀ n, n ∈ seen → key_lt n best = false) →
    let r := foldl (λ best n, if key_lt n best then n else best) best g in
    r ∈ seen ++ g ∧ ∀ n, n ∈ seen ++ g → key_lt n r = false) as H.
  { clear. induction g as [|n g IH]; intros best seen Hb Hs; cbn [foldl]; [by rewrite app_nil_r|].
    replace (seen ++ n :: g) with ((seen ++ [n]) ++ g) by by rewrite <-app_assoc.
    apply IH.
    - destruct (key_lt n best); apply elem_of_app; [right; by left|by left].
    - intros m [Hm| ->%list_elem_of_singleton]%elem_of_app; [specialize (Hs m Hm)|];
        destruct (key_lt n best) eqn:E; rewrite ?key_lt_spec, ?key_lt_false in *; lia. }
  apply (H g n0 [n0]); [by left|]. intros n ->%list_elem_of_singleton. apply key_lt_false. lia.
Qed.

Lemma selected_ids_elem i gs :
  i ∈ selected_ids gs ↔
  ∃ s g r, (s, g) ∈ gs ∧ maximal (map fst gs) s = true ∧ representative g = Some r ∧ i = node_id r.
Proof.
  unfold selected_ids. rewrite list_elem_of_omap. split.
  - intros ([s g] & Hin & H). destruct (maximal (map fst gs) s) eqn:Hm; [|done].
    destruct (representative g) as [r|] eqn:Hr; [|done]. injection H as <-. by exists s, g, r.
  - intros (s & g & r & Hin & Hm & Hr & ->). exists (s, g). by rewrite Hm, Hr.
Qed.

Lemma maximal_spec ls l :
  maximal ls l = true ↔ ∀ r, r ∈ ls → l ⊆ r → r ⊆ l.
Proof.
  unfold maximal, proper_subset. rewrite negb_true_iff, <-not_true_iff_false, existsb_exists.
  setoid_rewrite andb_true_iff. setoid_rewrite negb_true_iff. split.
  - intros H r Hr Hsub. destruct (decide (r ⊆ l)) as [|Hn]; [done|]. exfalso. apply H.
    exists r. split; [by apply list_elem_of_In|]. by rewrite bool_decide_eq_true, bool_decide_eq_false.
  - intros H (r & Hr & Hsub & Hn). apply bool_decide_eq_true in Hsub. apply bool_decide_eq_false in Hn.
    apply Hn, H; [by apply list_elem_of_In|done].
Qed.

Lemma partial_overlap_sym l r : partial_overlap l r = partial_overlap r l.
Proof.
  unfold partial_overlap. f_equal; [apply bool_decide_ext; set_solver|]. f_equal. apply orb_comm.
Qed.

Lemma partial_overlap_refl l : partial_overlap l l = false.
Proof. unfold partial_overlap. by rewrite (bool_decide_eq_true_2 (l ⊆ l)), andb_false_r. Qed.

Lemma any_partial_overlap_spec ls :
  any_partial_overlap ls = true ↔ ∃ l r, l ∈ ls ∧ r ∈ ls ∧ partial_overlap l r = true.
Proof.
  induction ls as [|l ls IH]; cbn [any_partial_overlap].
  { split; [done|]. by intros (? & ? & ?%not_elem_of_nil & _). }
  rewrite orb_true_iff, existsb_exists, IH. split.
  - intros [(r & Hr & Ho)|(a & b & ? & ? & ?)].
    + exists l, r. split_and!; [by left|right; by apply list_elem_of_In|done].
    + exists a, b. split_and!; [by right..|done].
  - intros (a & b & [->|Ha]%elem_of_cons & [->|Hb]%elem_of_cons & Ho).
    + by rewrite partial_overlap_refl in Ho.
    + left. exists b. split; [by apply list_elem_of_In|done].
    + left. exists a. rewrite partial_overlap_sym. split; [by apply list_elem_of_In|done].
    + right. by exists a, b.
Qed.

(** ** The frontier, declaratively *)

(** Everything below [n] is below [m]. *)
Definition below (lin : lineage) (n m : CoverageNode) : Prop :=
  ∀ l, leaf_of lin (node_id n) l → leaf_of lin (node_id m) l.

(** [n] and [m] share a leaf and neither covers the other. *)
Definition overlaps (lin : lineage) (n m : CoverageNode) : Prop :=
  (∃ l, leaf_of lin (node_id n) l ∧ leaf_of lin (node_id m) l) ∧ ¬ below lin n m ∧ ¬ below lin m n.

(** [n] covers as much as any candidate that covers what it covers, and is the
    deepest, then the one of least id, among those that cover the same. *)
Definition canonical (lin : lineage) (nodes : list CoverageNode) (n : CoverageNode) : Prop :=
  ∀ m, m ∈ nodes → below lin n m → below lin m n ∧ key_lt m n = false.

Section frontier.
Context (nodes : list CoverageNode) (source_lineage : lineage).
Local Notation lin := (with_candidates source_lineage nodes).

Lemma leaves_subset n m s t :
  leaves_are lin (node_id n) s → leaves_are lin (node_id m) t → s ⊆ t ↔ below lin n m.
Proof using Type.
  intros Hs Ht. split.
  - intros Hsub l Hl. apply Ht, Hsub, Hs, Hl.
  - intros Hb l Hl. apply Ht, Hb, Hs, Hl.
Qed.

Lemma leaves_overlap n m s t :
  leaves_are lin (node_id n) s → leaves_are lin (node_id m) t →
  partial_overlap s t = true ↔ overlaps lin n m.
Proof using Type.
  intros Hs Ht. unfold partial_overlap, overlaps.
  rewrite andb_true_iff, negb_true_iff, orb_false_iff, bool_decide_eq_true, !bool_decide_eq_false.
  rewrite (leaves_subset n m s t Hs Ht), (leaves_subset m n t s Ht Hs).
  assert (s ∩ t ≠ ∅ ↔ ∃ l, leaf_of lin (node_id n) l ∧ leaf_of lin (node_id m) l) as ->; [|done].
  split.
  - intros [l [Hl Hl']%elem_of_intersection]%set_choose_L. exists l. split; [by apply Hs|by apply Ht].
  - intros (l & Hl & Hl') He. apply (not_elem_of_empty (C := gset Z) l). rewrite <-He.
    apply elem_of_intersection. split; [by apply Hs|by apply Ht].
Qed.

Context (gs : groups) (Hgs : groups_ok lin gs nodes).

Lemma groups_pick n : n ∈ nodes → ∃ s g, (s, g) ∈ gs ∧ n ∈ g ∧ leaves_are lin (node_id n) s.
Proof using Hgs.
  intros Hn. destruct Hgs as (Hg & Hd & _). destruct (Hd n Hn) as (s & g & Hin & Hmem).
  exists s, g. split_and!; [done..|]. by apply (Hg _ _ Hin) in Hmem as [_ ?].
Qed.

Lemma groups_node s g : (s, g) ∈ gs → ∃ n, n ∈ g ∧ n ∈ nodes ∧ leaves_are lin (node_id n) s.
Proof using Hgs.
  intros Hin. destruct Hgs as (Hg & _ & _). destruct (Hg _ _ Hin) as [Hne Hm].
  destruct g as [|n g]; [done|]. exists n. split; [by left|]. apply Hm. by left.
Qed.

Lemma any_overlap_groups :
  any_partial_overlap (map fst gs) = true ↔ ∃ n m, n ∈ nodes ∧ m ∈ nodes ∧ overlaps lin n m.
Proof using Hgs.
  rewrite any_partial_overlap_spec. split.
  - intros (s & t & ([? g] & -> & Hs)%list_elem_of_fmap & ([? h] & -> & Ht)%list_elem_of_fmap & Ho).
    destruct (groups_node _ _ Hs) as (n & _ & Hn & Hns). destruct (groups_node _ _ Ht) as (m & _ & Hm & Hmt).
    exists n, m. split_and!; [done..|]. by eapply leaves_overlap.
  - intros (n & m & Hn & Hm & Ho). destruct (groups_pick n Hn) as (s & g & Hs & _ & Hns).
    destruct (groups_pick m Hm) as (t & h & Ht & _ & Hmt). exists s, t.
    split_and!; [by eapply key_not_elem..|]. by eapply leaves_overlap.
Qed.

Lemma node_id_unique n m :
  NoDup (map node_id nodes) → n ∈ nodes → m ∈ nodes → node_id n = node_id m → n = m.
Proof using Type.
  intros Hnd [i Hi]%list_elem_of_lookup [j Hj]%list_elem_of_lookup Hid.
  assert (i = j) as ->; [|congruence].
  eapply (NoDup_lookup (map node_id nodes)); [done|..]; rewrite list_lookup_fmap;
    [by rewrite Hi|by rewrite Hj, Hid].
Qed.

Lemma selected_canonical n :
  NoDup (map node_id nodes) → n ∈ nodes → node_id n ∈ selected_ids gs ↔ canonical lin nodes n.
Proof using Hgs.
  intros Hnd Hn. rewrite selected_ids_elem. destruct (groups_pick n Hn) as (s & g & Hs & Hng & Hns).
  pose proof Hgs as (Hg & _ & _). destruct (Hg _ _ Hs) as [Hne Hmem]. split.
  - intros (s' & g' & r & Hs' & Hmax & Hr & Hid).
    destruct (Hg _ _ Hs') as [Hne' Hmem'].
    destruct (representative_least g' Hne') as (r' & Hr' & Hrg & Hleast). rewrite Hr in Hr'. injection Hr' as <-.
    apply Hmem' in Hrg as [Hrn Hrs].
    assert (r = n) as -> by (by apply node_id_unique).
    rewrite (leaves_are_unique _ _ _ _ Hrs Hns) in *.
    intros m Hm Hb. destruct (groups_pick m Hm) as (t & h & Ht & _ & Hmt).
    assert (s ⊆ t) as Hst by exact (proj2 (leaves_subset n m s t Hns Hmt) Hb).
    assert (t ⊆ s) as Hts by (eapply maximal_spec; [done|by eapply key_not_elem|done]).
    split; [exact (proj1 (leaves_subset m n t s Hmt Hns) Hts)|]. apply Hleast, Hmem'. split; [done|].
    assert (s = t) as -> by (by apply set_eq_subseteq). done.
  - intros Hc. exists s, g, n. split; [done|]. split; [|split; [|done]].
    + apply maximal_spec. intros t ([? h] & -> & Ht)%list_elem_of_fmap Hst.
      destruct (groups_node _ _ Ht) as (m & _ & Hm & Hmt). cbn [fst] in *.
      apply (leaves_subset m n _ s Hmt Hns), (Hc m Hm).
      exact (proj1 (leaves_subset n m s _ Hns Hmt) Hst).
    + destruct (representative_least g Hne) as (r & -> & Hrg & Hleast). f_equal.
      pose proof (Hleast n Hng) as Hk. pose proof Hrg as [Hrn Hrs]%Hmem.
      destruct (Hc r Hrn) as [_ Hk']; [by apply (leaves_subset n r s s)|].
      apply key_lt_false in Hk, Hk'.
      apply node_id_unique; [done..|lia].
Qed.

End frontier.

(** What a run of [canonical_frontier] returned, and why. *)
Definition frontier_outcome (nodes : list CoverageNode) (lin : lineage)
    (r : result frontier_error (list CoverageNode)) : Prop :=
  match r with
  | Ok sel =>
      sel `sublist_of` nodes ∧ (∀ n, n ∈ sel ↔ n ∈ nodes ∧ canonical lin nodes n) ∧
      (∀ n, n ∈ nodes → ¬ cyclic lin (node_id n)) ∧
      (∀ n m, n ∈ nodes → m ∈ nodes → ¬ overlaps lin n m)
  | Err (Cycle _) => ∃ n, n ∈ nodes ∧ cyclic lin (node_id n)
  | Err PartialOverlap =>
      (∀ n, n ∈ nodes → ¬ cyclic lin (node_id n)) ∧ ∃ n m, n ∈ nodes ∧ m ∈ nodes ∧ overlaps lin n m
  | Err OutOfFuel => False
  end.

Lemma groups_ok_nil lin : groups_ok lin [] [].
Proof.
  split_and!; [|by intros n ?%not_elem_of_nil|constructor]. by intros s g ?%not_elem_of_nil.
Qed.

Lemma canonical_frontier_right nodes source_lineage :
  NoDup (map node_id nodes) →
  frontier_outcome nodes (with_candidates source_lineage nodes) (canonical_frontier nodes source_lineage).
Proof.
  intros Hnd. unfold canonical_frontier. set (lin := with_candidates source_lineage nodes).
  pose proof (group_nodes_right lin nodes ∅ [] [] (λ n s H, ltac:(done)) (groups_ok_nil lin)) as H.
  destruct (group_nodes (S (size lin)) lin nodes ∅ []) as [gs|[]]; cbn [rbind]; [|done..].
  destruct H as [Hgs Hcyc]. cbn [app] in Hgs.
  pose proof (any_overlap_groups nodes source_lineage gs Hgs) as Hov.
  destruct (any_partial_overlap (map fst gs)); cbn [raise_if frontier_outcome]; [split; [done|by apply Hov]|].
  split; [apply sublist_filter|]. split; [|split; [done|]].
  - intros n. rewrite list_elem_of_filter. split.
    + intros [Hs Hn]. split; [done|]. by eapply selected_canonical.
    + intros [Hn Hc]. split; [by eapply selected_canonical|done].
  - intros n m Hn Hm Ho. enough (false = true) by done. apply Hov. by exists n, m.
Qed.

(** ** The cover *)

(** Every leaf set is inside a maximal one. *)
Lemma maximal_above (ls : list leaf_set) s :
  s ∈ ls → ∃ t, t ∈ ls ∧ s ⊆ t ∧ maximal ls t = true.
Proof.
  remember (size (⋃ ls) - size s)%nat as d eqn:Hd. revert s Hd. induction d as [d IH] using lt_wf_ind.
  intros s Hd Hs. destruct (maximal ls s) eqn:Hm; [by exists s|].
  unfold maximal in Hm. apply negb_false_iff, existsb_exists in Hm as (t & Ht%list_elem_of_In & Hst).
  unfold proper_subset in Hst. apply andb_true_iff in Hst as [Hsub%bool_decide_eq_true Hn%negb_true_iff].
  apply bool_decide_eq_false in Hn.
  assert (size s < size t)%nat by (apply subset_size; split; [done|done]).
  assert (size t ≤ size (⋃ ls))%nat.
  { apply subseteq_size. intros x Hx. apply elem_of_union_list. by exists t. }
  destruct (IH (size (⋃ ls) - size t)%nat ltac:(lia) t eq_refl Ht) as (u & Hu & Htu & Hmax).
  exists u. split_and!; [done| |done]. by etransitivity.
Qed.

Lemma canonical_above nodes source_lineage gs n :
  NoDup (map node_id nodes) → groups_ok (with_candidates source_lineage nodes) gs nodes → n ∈ nodes →
  ∃ m, m ∈ nodes ∧ canonical (with_candidates source_lineage nodes) nodes m ∧
    below (with_candidates source_lineage nodes) n m.
Proof.
  intros Hnd Hgs Hn. destruct (groups_pick nodes source_lineage gs Hgs n Hn) as (s & g & Hs & _ & Hns).
  destruct (maximal_above (map fst gs) s) as (t & ([? h] & -> & Ht)%list_elem_of_fmap & Hst & Hmax);
    [by eapply key_not_elem|]. cbn [fst] in *.
  pose proof Hgs as (Hg & _ & _). destruct (Hg _ _ Ht) as [Hne Hmem].
  destruct (representative_least h Hne) as (r & Hr & Hrh & _). pose proof Hrh as [Hrn Hrt]%Hmem.
  exists r. split_and!; [done| |by apply (leaves_subset nodes source_lineage n r s _ Hns Hrt)].
  apply (selected_canonical nodes source_lineage gs Hgs r Hnd Hrn). apply selected_ids_elem. by eexists _, h, r.
Qed.

Lemma canonical_unique nodes lin n m :
  NoDup (map node_id nodes) → n ∈ nodes → m ∈ nodes → canonical lin nodes n → canonical lin nodes m →
  below lin n m → n = m.
Proof.
  intros Hnd Hn Hm Hcn Hcm Hb. destruct (Hcn m Hm Hb) as [Hb' Hk]. destruct (Hcm n Hn Hb') as [_ Hk'].
  apply key_lt_false in Hk, Hk'. apply (node_id_unique nodes); [done..|lia].
Qed.

Lemma canonical_frontier_cover nodes source_lineage sel :
  NoDup (map node_id nodes) → canonical_frontier nodes source_lineage = Ok sel →
  let lin := with_candidates source_lineage nodes in
  ∀ n l, n ∈ nodes → leaf_of lin (node_id n) l →
  ∃ m, m ∈ sel ∧ leaf_of lin (node_id m) l ∧ ∀ m', m' ∈ sel → leaf_of lin (node_id m') l → m' = m.
Proof.
  intros Hnd Hrun lin n l Hn Hl. pose proof (canonical_frontier_right nodes source_lineage Hnd) as Hout.
  rewrite Hrun in Hout. destruct Hout as (_ & Hsel & Hcyc & Hov). fold lin in Hsel, Hcyc, Hov.
  unfold canonical_frontier in Hrun. fold lin in Hrun.
  pose proof (group_nodes_right lin nodes ∅ [] [] (λ n s H, ltac:(done)) (groups_ok_nil lin)) as H.
  destruct (group_nodes (S (size lin)) lin nodes ∅ []) as [gs|]; [|done]. destruct H as [Hgs _].
  destruct (canonical_above nodes source_lineage gs n Hnd Hgs Hn) as (m & Hm & Hcm & Hb).
  exists m. split_and!; [by apply Hsel|by apply Hb|]. intros m' [Hm' Hcm']%Hsel Hl'.
  destruct (groups_pick nodes source_lineage gs Hgs m Hm) as (s & g & _ & _ & Hs).
  destruct (groups_pick nodes source_lineage gs Hgs m' Hm') as (t & h & _ & _ & Ht).
  assert (s ⊆ t ∨ t ⊆ s) as [Hst|Hts].
  { destruct (partial_overlap s t) eqn:Ho.
    - exfalso. apply (Hov m m' Hm Hm'). by eapply leaves_overlap.
    - unfold partial_overlap in Ho. apply andb_false_iff in Ho as [Ho|Ho].
      + apply bool_decide_eq_false in Ho. exfalso. apply Ho. intros He.
        apply (not_elem_of_empty (C := gset Z) l). rewrite <-He. apply elem_of_intersection.
        split; [by apply Hs, Hb|by apply Ht].
      + apply negb_false_iff, orb_true_iff in Ho. by rewrite !bool_decide_eq_true in Ho. }
  - symmetry. apply (canonical_unique nodes lin); try done.
    by apply (leaves_subset nodes source_lineage m m' s t Hs Ht).
  - apply (canonical_unique nodes lin); try done.
    by apply (leaves_subset nodes source_lineage m' m t s Ht Hs).
Qed.

(** ** The order of the candidates *)

Lemma with_candidates_lookup nodes source_lineage k x :
  NoDup (map node_id nodes) →
  with_candidates source_lineage nodes !! k = Some x ↔
  source_lineage !! k = Some x ∨
  source_lineage !! k = None ∧ ∃ n, n ∈ nodes ∧ node_id n = k ∧ source_node_ids n = x.
Proof.
  revert source_lineage. induction nodes as [|n nodes IH]; intros sl Hnd; cbn [with_candidates foldl].
  { split; [by left|]. intros [?|(_ & n & ?%not_elem_of_nil & _)]; done. }
  cbn [map] in Hnd. apply NoDup_cons in Hnd as [Hn Hnd].
  unfold with_candidates in IH. rewrite IH by done. setoid_rewrite elem_of_cons.
  destruct (sl !! node_id n) as [y|] eqn:E.
  { split; (intros [?|(Hk & m & Hm)]; [by left|right; split; [done|]]).
    - exists m. tauto.
    - exists m. destruct Hm as ([->|?] & Hid & ?); [|done]. by rewrite Hid, Hk in E. }
  destruct (decide (k = node_id n)) as [->|Hk].
  - rewrite lookup_insert_eq, E. split.
    + intros [[= <-]|[? _]]; [|done]. right. split; [done|]. exists n. tauto.
    + intros [?|(_ & m & [->|Hm] & Hid & <-)]; [done|by left|]. exfalso. apply Hn, list_elem_of_fmap. by exists m.
  - rewrite lookup_insert_ne by done. split; (intros [?|(H & m & Hm)]; [by left|right; split; [done|]]).
    + exists m. tauto.
    + exists m. destruct Hm as ([->|?] & Hid & ?); [by destruct Hk|done].
Qed.

Lemma with_candidates_perm nodes nodes' source_lineage :
  NoDup (map node_id nodes) → nodes ≡ₚ nodes' →
  with_candidates source_lineage nodes = with_candidates source_lineage nodes'.
Proof.
  intros Hnd Hp. assert (NoDup (map node_id nodes')) as Hnd' by (by rewrite <-Hp).
  apply map_eq. intros k. apply option_eq. intros x. rewrite !with_candidates_lookup by done.
  by setoid_rewrite Hp.
Qed.

Lemma canonical_perm lin nodes nodes' n : nodes ≡ₚ nodes' → canonical lin nodes n ↔ canonical lin nodes' n.
Proof. intros Hp. unfold canonical. by setoid_rewrite Hp. Qed.

Definition some_cyclic (lin : lineage) (nodes : list CoverageNode) : Prop :=
  ∃ n, n ∈ nodes ∧ cyclic lin (node_id n).
Definition some_overlap (lin : lineage) (nodes : list CoverageNode) : Prop :=
  ∃ n m, n ∈ nodes ∧ m ∈ nodes ∧ overlaps lin n m.

Lemma some_cyclic_perm lin nodes nodes' : nodes ≡ₚ nodes' → some_cyclic lin nodes ↔ some_cyclic lin nodes'.
Proof. intros Hp. unfold some_cyclic. by setoid_rewrite Hp. Qed.
Lemma some_overlap_perm lin nodes nodes' : nodes ≡ₚ nodes' → some_overlap lin nodes ↔ some_overlap lin nodes'.
Proof. intros Hp. unfold some_overlap. by setoid_rewrite Hp. Qed.

(** The kind of outcome is a matter of the graph. *)
Lemma outcome_kind lin nodes r :
  frontier_outcome nodes lin r →
  (some_cyclic lin nodes ↔ match r with Err (Cycle _) => True | _ => False end) ∧
  (¬ some_cyclic lin nodes → some_overlap lin nodes ↔ match r with Err PartialOverlap => True | _ => False end).
Proof.
  destruct r as [sel|[]]; cbn; [|by intros; split|..|done].
  - intros (_ & _ & Hc & Ho). split; [split; [|done]|intros _; split; [|done]].
    + intros (n & Hn & Hcyc). by apply (Hc n).
    + intros (n & m & Hn & Hm & Hov). by apply (Ho n m).
  - intros [Hc Ho]. split; [split; [|done]|done]. intros (n & Hn & Hcyc). by apply (Hc n).
Qed.

(** ** Properties *)

(** C37: canonical_frontier terminates, and its outcome is the declarative one: it
    raises for a cycle exactly when a candidate reaches one, for an overlap
    exactly when two candidates share a leaf and neither covers the other, and
    otherwise returns, in the order given, the candidates not strictly covered
    by another, one (deepest, then least id) among those that cover the same. *)
Theorem canonical_frontier_outcome nodes source_lineage :
  NoDup (map node_id nodes) →
  frontier_outcome nodes (with_candidates source_lineage nodes) (canonical_frontier nodes source_lineage).
Proof. apply canonical_frontier_right. Qed.

(** No content is consumed twice and none is lost: every terminal node below
    a candidate is below exactly one selected node. *)
Theorem frontier_exact_cover nodes source_lineage sel :
  NoDup (map node_id nodes) → canonical_frontier nodes source_lineage = Ok sel →
  let lin := with_candidates source_lineage nodes in
  ∀ n l, n ∈ nodes → leaf_of lin (node_id n) l →
  ∃ m, m ∈ sel ∧ leaf_of lin (node_id m) l ∧ ∀ m', m' ∈ sel → leaf_of lin (node_id m') l → m' = m.
Proof. apply canonical_frontier_cover. Qed.

(** The answer does not depend on the order of the candidates: the same nodes
    are selected, or the same error is raised. *)
Theorem frontier_order_independent nodes nodes' source_lineage :
  NoDup (map node_id nodes) → nodes ≡ₚ nodes' →
  match canonical_frontier nodes source_lineage, canonical_frontier nodes' source_lineage with
  | Ok sel, Ok sel' => sel ≡ₚ sel'
  | Err (Cycle _), Err (Cycle _) | Err PartialOverlap, Err PartialOverlap => True
  | _, _ => False
  end.
Proof.
  intros Hnd Hp. assert (NoDup (map node_id nodes')) as Hnd' by (by rewrite <-Hp).
  pose proof (canonical_frontier_right nodes source_lineage Hnd) as H.
  pose proof (canonical_frontier_right nodes' source_lineage Hnd') as H'.
  rewrite <-(with_candidates_perm nodes nodes') in H' by done.
  assert (NoDup nodes) as Hn by (by eapply NoDup_fmap_1).
  pose proof (outcome_kind _ _ _ H) as [Hc Ho]. pose proof (outcome_kind _ _ _ H') as [Hc' Ho'].
  rewrite <-(some_cyclic_perm _ nodes nodes') in Hc', Ho' by done.
  rewrite <-(some_overlap_perm _ nodes nodes') in Ho' by done.
  destruct (canonical_frontier nodes source_lineage) as [sel|[]],
    (canonical_frontier nodes' source_lineage) as [sel'|[]]; try done; cbn in Hc, Hc', Ho, Ho'; try (exfalso; tauto).
  destruct H as (Hs & Hsel & _), H' as (Hs' & Hsel' & _).
  apply NoDup_Permutation; [by eapply sublist_NoDup|apply (sublist_NoDup _ nodes'); [by rewrite <-Hp|done]|].
  intros n. rewrite Hsel, Hsel'. rewrite (canonical_perm _ nodes nodes') by done.
  by assert (n ∈ nodes ↔ n ∈ nodes') as -> by by rewrite Hp.
Qed.

Definition cand (i d : Z) (srcs : list Z) : CoverageNode :=
  {| node_id := i; depth := d; source_node_ids := srcs; earliest_at := None; latest_at := None |}.

(** A summary of two leaves, one of its leaves, and a second summary of the same
    two leaves one level up. *)
Definition candidates : list CoverageNode := [cand 3 1 [1; 2]; cand 1 0 []; cand 9 2 [3]; cand 7 0 []].

Example frontier_example :
  canonical_frontier candidates ∅ = Ok [cand 9 2 [3]; cand 7 0 []] ∧
  canonical_frontier [cand 3 1 [1; 2]; cand 4 1 [2; 5]] ∅ = Err PartialOverlap ∧
  canonical_frontier [cand 3 1 [4]; cand 4 1 [3]] ∅ = Err (Cycle 3).
Proof. vm_compute. repeat split. Qed.

Lemma candidates_distinct : NoDup (map node_id candidates).
Proof. by apply (bool_decide_unpack (NoDup [3; 1; 9; 7])). Qed.

Theorem canonical_frontier_outcome_witness :
  frontier_outcome candidates (with_candidates ∅ candidates) (Ok [cand 9 2 [3]; cand 7 0 []]).
Proof. rewrite <-(proj1 frontier_example). exact (canonical_frontier_outcome candidates ∅ candidates_distinct). Defined.

Theorem frontier_exact_cover_witness :
  leaf_of (with_candidates ∅ candidates) 1 1 ∧
  ∃ m, m ∈ [cand 9 2 [3]; cand 7 0 []] ∧ leaf_of (with_candidates ∅ candidates) (node_id m) 1.
Proof.
  assert (leaf_of (with_candidates ∅ candidates) 1 1) as Hl by (split; [apply rtc_refl|reflexivity]).
  refine (conj Hl _).
  destruct (frontier_exact_cover candidates ∅ [cand 9 2 [3]; cand 7 0 []] candidates_distinct
              (proj1 frontier_example) (cand 1 0 []) 1
              (list_elem_of_further _ _ _ (list_elem_of_here _ _)) Hl) as (m & Hm & Hml & _).
  exact (ex_intro _ m (conj Hm Hml)).
Defined.

Theorem frontier_order_independent_witness :
  match canonical_frontier candidates ∅, canonical_frontier (reverse candidates) ∅ with
  | Ok sel, Ok sel' => sel ≡ₚ sel'
  | _, _ => False
  end.
Proof.
  exact (frontier_order_independent candidates (reverse candidates) ∅ candidates_distinct
           (symmetry (reverse_Permutation candidates))).
Defined.
