(* ===== verification/LineageLoad.v ===== *)
(** Loading the lineage of candidate nodes (rollup_periods.py): a bounded walk of
    the summary graph in batches of at most 256 nodes, staged in the TEMP tables
    [lcm_lineage_frontier] and [lcm_lineage_seen], and what the canonical
    frontier computed from it covers.

    Which rows of the frontier a query without ORDER BY returns under its LIMIT
    is SQLite's choice: it is the argument [pick].  A round takes at least one
    node of the work limit, so the loop runs on one more unit of fuel than the
    limit. *)

From S2P Require Import Prelude Frontier.
From stdpp Require Import relations.
From stdpp Require Import options.

#[local] Open Scope Z_scope.

(** ** Definitions *)

(** A row of [summary_nodes]; [from_nodes] is [source_type == "nodes"]. *)
Record summary_row := { from_nodes : bool; source_ids : list Z }.

Inductive load_error := WorkLimit | LoadOutOfFuel.

Record walk := { frontier : gset Z; seen : gset Z; loaded : lineage; node_work : nat; edge_work : nat }.

(** [list(dict.fromkeys(ids))] *)
Fixpoint fromkeys (ids : list Z) : list Z :=
  match ids with [] => [] | i :: ids => i :: filter (λ j, j ≠ i) (fromkeys ids) end.

Section load.
Variable pick : nat → gset Z → list Z.
Variable summary_nodes : gmap Z summary_row.

(** The sources of a node the edge query joins. *)
Definition row_sources (n : Z) : list Z :=
  match summary_nodes !! n with Some r => if from_nodes r then source_ids r else [] | None => [] end.

Definition edge_rows (current : list Z) : list (Z * Z) := current ≫= λ n, pair n <$> row_sources n.

(** [tuple(sources_by_parent.get(node_id, ()))] *)
Definition sources_by_parent (edges : list (Z * Z)) (n : Z) : list Z := snd <$> filter (λ e, e.1 = n) edges.

(** [for node_id, source_type in rows: if source_type is not None: ...] *)
Definition record_rows (edges : list (Z * Z)) (rows : list Z) (lin : lineage) : lineage :=
  foldl (λ lin n, match summary_nodes !! n with Some _ => <[n := sources_by_parent edges n]> lin | None => lin end)
    lin rows.

(** One round after its rows are known. *)
Definition round (rows : list Z) (edges : list (Z * Z)) (w : walk) : walk :=
  let current := list_to_set rows in
  let seen' := current ∪ seen w in
  {| frontier := (frontier w ∖ current) ∪ (list_to_set (snd <$> edges) ∖ seen');
     seen := seen'; loaded := record_rows edges rows (loaded w);
     node_work := (node_work w + length rows)%nat; edge_work := (edge_work w + length edges)%nat |}.

Fixpoint load_loop (fuel work_limit : nat) (w : walk) : result load_error lineage :=
  match fuel with
  | O => Err LoadOutOfFuel
  | S fuel =>
      let remaining := (work_limit - node_work w)%nat in
      if bool_decide (remaining = 0%nat) then
        raise_if (bool_decide (frontier w ≠ ∅)) WorkLimit (Ok (loaded w))
      else
        let rows := pick (Nat.min 256 remaining) (frontier w) in
        if bool_decide (rows = []) then Ok (loaded w)
        else
          let edge_budget := (work_limit - edge_work w)%nat in
          let edges := take (S edge_budget) (edge_rows rows) in
          raise_if (bool_decide (edge_budget < length edges)%nat) WorkLimit
            (load_loop fuel work_limit (round rows edges w))
  end.

Definition load_source_lineage (root_node_ids : list Z) (limit : Z) : result load_error lineage :=
  let roots := fromkeys root_node_ids in
  if bool_decide (roots = []) then Ok ∅
  else
    let work_limit := Z.to_nat limit in
    raise_if (bool_decide (work_limit < length roots)%nat) WorkLimit
      (load_loop (S work_limit) work_limit
         {| frontier := list_to_set roots; seen := ∅; loaded := ∅; node_work := 0; edge_work := 0 |}).

(** ** Specification *)

(** What SQLite promises of [SELECT ... FROM frontier LIMIT k]: [k] of the rows,
    or all of them. *)
Definition pick_ok : Prop :=
  ∀ k F, NoDup (pick k F) ∧ (∀ n, n ∈ pick k F → n ∈ F) ∧ length (pick k F) = Nat.min k (size F).

Definition source_of (n s : Z) : Prop := s ∈ row_sources n.

Definition reachable (roots : list Z) (n : Z) : Prop := ∃ r, r ∈ roots ∧ rtc source_of r n.

(** The number of source references of a set of nodes. *)
Definition edge_count (X : gset Z) : nat := sum_list_with (λ n, length (row_sources n)) (elements X).

(** ** Lemmas *)

Lemma fromkeys_elem ids i : i ∈ fromkeys ids ↔ i ∈ ids.
Proof using Type.
  induction ids as [|j ids IH]; [done|]. cbn [fromkeys]. rewrite !elem_of_cons, list_elem_of_filter, IH.
  destruct (decide (i = j)); tauto.
Qed.

Lemma fromkeys_NoDup ids : NoDup (fromkeys ids).
Proof using Type.
  induction ids as [|i ids IH]; cbn [fromkeys]; constructor; [|by apply NoDup_filter].
  rewrite list_elem_of_filter. by intros [? _].
Qed.

Lemma edge_rows_cons n rows : edge_rows (n :: rows) = (pair n <$> row_sources n) ++ edge_rows rows.
Proof using Type. done. Qed.

Lemma sources_by_parent_app n e e' : sources_by_parent (e ++ e') n = sources_by_parent e n ++ sources_by_parent e' n.
Proof using Type. unfold sources_by_parent. by rewrite filter_app, fmap_app. Qed.

Lemma sources_by_parent_other n m l : n ≠ m → sources_by_parent (pair m <$> l) n = [].
Proof using Type.
  intros Hn. induction l as [|x l IH]; [done|]. unfold sources_by_parent in *. cbn [fmap list_fmap].
  by rewrite filter_cons_False by (cbn; auto).
Qed.

Lemma sources_by_parent_own n l : sources_by_parent (pair n <$> l) n = l.
Proof using Type.
  induction l as [|x l IH]; [done|]. unfold sources_by_parent in *. cbn [fmap list_fmap].
  rewrite filter_cons_True by done. cbn. by f_equal.
Qed.

Lemma sources_by_parent_rows rows n :
  NoDup rows → n ∈ rows → sources_by_parent (edge_rows rows) n = row_sources n.
Proof using Type.
  assert (∀ rows, n ∉ rows → sources_by_parent (edge_rows rows) n = []) as Hno.
  { clear. induction rows as [|m rows IH]; [done|]. rewrite not_elem_of_cons. intros [Hm Hn].
    rewrite edge_rows_cons, sources_by_parent_app, sources_by_parent_other, IH by done. done. }
  induction rows as [|m rows IH]; intros Hnd; [by intros ?%not_elem_of_nil|].
  apply NoDup_cons in Hnd as [Hm Hnd]. rewrite edge_rows_cons, sources_by_parent_app. intros [->|Hn]%elem_of_cons.
  - by rewrite sources_by_parent_own, (Hno rows), app_nil_r.
  - rewrite sources_by_parent_other by (by intros ->). by apply IH.
Qed.

Lemma edge_rows_targets rows s : s ∈ snd <$> edge_rows rows ↔ ∃ n, n ∈ rows ∧ source_of n s.
Proof using Type.
  unfold edge_rows. rewrite list_elem_of_fmap. setoid_rewrite list_elem_of_bind. setoid_rewrite list_elem_of_fmap.
  split.
  - intros (e & -> & n & (x & -> & Hx) & Hn). by exists n.
  - intros (n & Hn & Hs). exists (n, s). split; [done|]. exists n. split; [by exists s|done].
Qed.

Lemma record_rows_lookup edges rows lin n :
  record_rows edges rows lin !! n =
  if decide (n ∈ rows) then match summary_nodes !! n with Some _ => Some (sources_by_parent edges n) | None => lin !! n end
  else lin !! n.
Proof using Type.
  revert lin. induction rows as [|m rows IH]; intros lin; [done|]. cbn [record_rows foldl].
  unfold record_rows in IH. rewrite IH.
  destruct (decide (n = m)) as [->|Hne].
  - rewrite (decide_True (P := m ∈ m :: rows)) by (by left).
    destruct (summary_nodes !! m) as [r|] eqn:E; [|by destruct (decide _)].
    rewrite lookup_insert_eq. by destruct (decide _).
  - assert (n ∈ m :: rows ↔ n ∈ rows) as Hiff by (rewrite elem_of_cons; tauto).
    rewrite (decide_ext (n ∈ m :: rows) (n ∈ rows)) by done.
    destruct (summary_nodes !! m); [|done]. by rewrite lookup_insert_ne by done.
Qed.

Lemma edge_count_union X Y : X ## Y → edge_count (X ∪ Y) = (edge_count X + edge_count Y)%nat.
Proof using Type.
  intros Hd. unfold edge_count. rewrite (elements_disj_union X Y Hd).
  by rewrite sum_list_with_app.
Qed.

Lemma edge_count_rows rows : NoDup rows → edge_count (list_to_set rows) = length (edge_rows rows).
Proof using Type.
  intros Hnd. unfold edge_count.
  rewrite (elements_list_to_set rows Hnd). clear Hnd.
  induction rows as [|n rows IH]; [done|]. rewrite edge_rows_cons, length_app, length_fmap, <-IH. done.
Qed.

End load.

(** ** The walk *)

Lemma staged_disjoint (C S F T : gset Z) : S ## F → C ∪ S ## F ∖ C ∪ T ∖ (C ∪ S).
Proof. set_solver. Qed.

Lemma staged_keeps (C S F T : gset Z) r : r ∈ S ∪ F → r ∈ C ∪ S ∪ (F ∖ C ∪ T ∖ (C ∪ S)).
Proof. destruct (decide (r ∈ C)); set_solver. Qed.

Section walk.
Context (pick : nat → gset Z → list Z) (t : gmap Z summary_row) (roots : list Z) (limit : nat).
Context (Hpick : pick_ok pick).

(** Between rounds: the seen nodes are recorded, their sources are seen or wait,
    and everything seen or waiting is reachable. *)
Record walking (w : walk) : Prop := {
  walk_disjoint : seen w ## frontier w;
  walk_roots : ∀ r, r ∈ roots → r ∈ seen w ∪ frontier w;
  walk_reachable : ∀ n, n ∈ seen w ∪ frontier w → reachable t roots n;
  walk_closed : ∀ n s, n ∈ seen w → source_of t n s → s ∈ seen w ∪ frontier w;
  walk_loaded : ∀ n, loaded w !! n = if decide (n ∈ seen w) then (λ _, row_sources t n) <$> t !! n else None;
  walk_nodes : node_work w = size (seen w);
  walk_edges : edge_work w = edge_count t (seen w);
  walk_bound : (node_work w ≤ limit)%nat ∧ (edge_work w ≤ limit)%nat }.

(** What loading returns. *)
Definition load_outcome (r : result load_error lineage) : Prop :=
  match r with
  | Ok lin => ∃ R : gset Z, (∀ n, n ∈ R ↔ reachable t roots n) ∧ (size R ≤ limit)%nat ∧ (edge_count t R ≤ limit)%nat ∧
                ∀ n, lin !! n = if decide (n ∈ R) then (λ _, row_sources t n) <$> t !! n else None
  | Err WorkLimit => ∃ X : gset Z, (∀ n, n ∈ X → reachable t roots n) ∧
                       ((limit < size X)%nat ∨ (limit < edge_count t X)%nat)
  | Err LoadOutOfFuel => False
  end.

Lemma walking_done w : walking w → frontier w = ∅ → load_outcome (Ok (loaded w)).
Proof using Type.
  intros H HF. exists (seen w). destruct (walk_bound w H) as [Hn He].
  rewrite (walk_nodes w H) in Hn. rewrite (walk_edges w H) in He. split_and!; [|done..|apply (walk_loaded w H)].
  pose proof (walk_closed w H) as Hc. pose proof (walk_roots w H) as Hr. pose proof (walk_reachable w H) as Hre.
  rewrite HF, (right_id_L ∅ (∪)) in Hr, Hre, Hc. intros n. split; [apply Hre|].
  intros (r & Hroot & Hpath). specialize (Hr r Hroot). clear Hroot.
  induction Hpath as [x|x y z Hxy Hyz IH]; [done|]. apply IH. by apply (Hc x y).
Qed.

Lemma reachable_source n s : reachable t roots n → source_of t n s → reachable t roots s.
Proof using Type. intros (r & Hr & Hp) Hs. exists r. split; [done|]. by eapply rtc_r. Qed.

Lemma picked_sets w rows k :
  walking w → rows = pick k (frontier w) →
  NoDup rows ∧ list_to_set rows ## seen w ∧ size (list_to_set rows : gset Z) = length rows ∧
  (∀ n, n ∈ rows → n ∈ frontier w).
Proof using Hpick.
  intros H ->. destruct (Hpick k (frontier w)) as (Hnd & Hin & _). split_and!; [done| |by apply size_list_to_set|done].
  intros n Hn%elem_of_list_to_set Hs. apply (walk_disjoint w H n Hs). by apply Hin.
Qed.

Lemma walking_round w rows k :
  walking w → rows = pick k (frontier w) → (length rows ≤ limit - node_work w)%nat →
  (length (edge_rows t rows) ≤ limit - edge_work w)%nat →
  walking (round t rows (edge_rows t rows) w).
Proof using Hpick.
  intros H Hrows Hn He. destruct (picked_sets w rows k H Hrows) as (Hnd & Hdisj & Hsize & Hin).
  pose proof (walk_bound w H) as [Hbn Hbe].
  assert (∀ s, s ∈ (list_to_set (snd <$> edge_rows t rows) : gset Z) ↔ ∃ n, n ∈ rows ∧ source_of t n s) as Htargets.
  { intros s. by rewrite elem_of_list_to_set, edge_rows_targets. }
  split; cbn [round seen frontier loaded node_work edge_work].
  - apply staged_disjoint, (walk_disjoint w H).
  - intros r Hr. apply staged_keeps, (walk_roots w H r Hr).
  - intros n. rewrite !elem_of_union, !elem_of_difference, elem_of_list_to_set, Htargets.
    intros [[Hr|Hs]|[[Hf _]|[(m & Hm & Hs) _]]].
    + apply (walk_reachable w H), elem_of_union. right. by apply Hin.
    + apply (walk_reachable w H), elem_of_union. by left.
    + apply (walk_reachable w H), elem_of_union. by right.
    + eapply reachable_source; [|done]. apply (walk_reachable w H), elem_of_union. right. by apply Hin.
  - intros n s Hns Hs.
    assert (s ∈ seen w ∪ frontier w ∨ s ∈ (list_to_set (snd <$> edge_rows t rows) : gset Z)) as Hcase.
    { apply elem_of_union in Hns as [Hr%elem_of_list_to_set|Hseen]; [right; apply Htargets; by exists n|left].
      by apply (walk_closed w H n). }
    destruct (decide (s ∈ rows)) as [Hsr|Hsr]; [by apply elem_of_union_l, elem_of_union_l, elem_of_list_to_set|].
    destruct (decide (s ∈ seen w)) as [Hss|Hss]; [by apply elem_of_union_l, elem_of_union_r|].
    apply elem_of_union_r. rewrite elem_of_union, !elem_of_difference, elem_of_union, !elem_of_list_to_set.
    destruct Hcase as [[?|?]%elem_of_union|Ht%elem_of_list_to_set]; [done|left; tauto|right; tauto].
  - intros n. rewrite record_rows_lookup, (walk_loaded w H). destruct (decide (n ∈ rows)) as [Hr|Hr].
    + rewrite (decide_True (P := n ∈ _ ∪ _)) by (by apply elem_of_union_l, elem_of_list_to_set).
      rewrite sources_by_parent_rows by done. destruct (t !! n); [done|]. by destruct (decide _).
    + rewrite (decide_ext (n ∈ _ ∪ _) (n ∈ seen w)); [done|].
      rewrite elem_of_union, elem_of_list_to_set. tauto.
  - rewrite size_union, Hsize, (walk_nodes w H) by done. lia.
  - rewrite edge_count_union, edge_count_rows, (walk_edges w H) by done. lia.
  - lia.
Qed.

Lemma load_loop_outcome fuel w :
  walking w → (limit - node_work w < fuel)%nat → load_outcome (load_loop pick t fuel limit w).
Proof using Hpick.
  revert w. induction fuel as [|fuel IH]; intros w H Hf; [lia|]. cbn [load_loop].
  pose proof (walk_bound w H) as [Hbn Hbe].
  case_bool_decide as Hrem.
  { case_bool_decide as HF; cbn [raise_if].
    - exists (seen w ∪ frontier w). split; [apply (walk_reachable w H)|]. left.
      rewrite size_union by apply (walk_disjoint w H). rewrite <-(walk_nodes w H).
      assert (size (frontier w) ≠ 0%nat) by (by rewrite size_empty_iff, leibniz_equiv_iff). lia.
    - apply walking_done; [done|]. destruct (decide (frontier w = ∅)); [done|tauto]. }
  set (k := Nat.min 256 (limit - node_work w)).
  destruct (Hpick k (frontier w)) as (_ & _ & Hlen).
  case_bool_decide as Hrows.
  { apply walking_done; [done|]. rewrite Hrows in Hlen. cbn [length] in Hlen.
    assert (size (frontier w) = 0%nat) as HF by lia. by apply size_empty_inv, leibniz_equiv in HF. }
  set (rows := pick k (frontier w)) in *.
  destruct (picked_sets w rows k H eq_refl) as (Hnd & Hdisj & Hsize & Hin).
  case_bool_decide as Hedges; cbn [raise_if].
  - exists (list_to_set rows ∪ seen w). split.
    + intros n [Hn%elem_of_list_to_set|Hn]%elem_of_union; apply (walk_reachable w H), elem_of_union;
        [right; by apply Hin|by left].
    + right. rewrite edge_count_union, edge_count_rows, <-(walk_edges w H) by done.
      rewrite length_take in Hedges. lia.
  - rewrite length_take in Hedges. rewrite take_ge by lia.
    assert (rows ≠ [] → 0 < length rows)%nat by (destruct rows; [done|cbn; lia]).
    apply IH; [apply (walking_round w rows k); done || lia|]. cbn [round node_work]. specialize (H0 Hrows). lia.
Qed.

End walk.

Lemma walking_start t roots limit :
  (length (fromkeys roots) ≤ limit)%nat →
  walking t roots limit
    {| frontier := list_to_set (fromkeys roots); seen := ∅; loaded := ∅; node_work := 0; edge_work := 0 |}.
Proof.
  intros Hl. split; cbn [seen frontier loaded node_work edge_work]; try done.
  - intros r Hr. apply elem_of_union_r. by rewrite elem_of_list_to_set, fromkeys_elem.
  - intros n. rewrite (left_id_L ∅ (∪)), elem_of_list_to_set, fromkeys_elem. intros Hn. exists n. by split.
  - lia.
Qed.

Lemma load_source_lineage_outcome pick t roots limit :
  pick_ok pick → load_outcome t roots (Z.to_nat limit) (load_source_lineage pick t roots limit).
Proof.
  intros Hpick. unfold load_source_lineage. case_bool_decide as Hr.
  { assert (roots = []) as -> by (destruct roots; [done|by cbn in Hr]).
    exists ∅. split_and!; [|rewrite size_empty; lia|unfold edge_count; rewrite elements_empty; cbn; lia|done]. intros n. split; [by intros ?%elem_of_empty|]. by intros (r & ?%not_elem_of_nil & _). }
  case_bool_decide as Hl; cbn [raise_if].
  - exists (list_to_set (fromkeys roots)). split.
    + intros n. rewrite elem_of_list_to_set, fromkeys_elem. intros Hn. exists n. by split.
    + left. by rewrite size_list_to_set by apply fromkeys_NoDup.
  - apply load_loop_outcome; [done|apply walking_start; lia|cbn; lia].
Qed.

(** A lineage loaded for the candidates describes the table's graph below them. *)
Lemma loaded_sources t roots limit lin nodes n k :
  load_outcome t roots limit (Ok lin) → NoDup (map node_id nodes) →
  (∀ n, n ∈ nodes → node_id n ∈ roots ∧ is_Some (t !! node_id n)) →
  n ∈ nodes → rtc (source_of t) (node_id n) k → sources (with_candidates lin nodes) k = row_sources t k.
Proof.
  intros (R & HR & _ & _ & Hlin) Hnd Hin Hn Hpath.
  assert (k ∈ R) as Hk by (apply HR; exists (node_id n); split; [by apply Hin|done]).
  unfold sources. destruct (t !! k) as [r|] eqn:E.
  - assert (lin !! k = Some (row_sources t k)) as Hl by (by rewrite Hlin, decide_True, E by done).
    assert (with_candidates lin nodes !! k = Some (row_sources t k)) as ->; [|done].
    apply with_candidates_lookup; [done|by left].
  - unfold row_sources. rewrite E.
    destruct (with_candidates lin nodes !! k) as [x|] eqn:Ex; [|done].
    apply with_candidates_lookup in Ex as [Hl|(_ & m & Hm & <- & _)]; [|by destruct (Hin m Hm) as [_ [? ?]]; congruence|done].
    by rewrite Hlin, decide_True, E in Hl by done.
Qed.

(** Two relations that agree at every node one of them reaches reach the same. *)
Lemma rtc_agree {A} (R S : relation A) x :
  (∀ k, rtc S x k → ∀ y, R k y ↔ S k y) → ∀ l, rtc R x l ↔ rtc S x l.
Proof.
  intros H l. split.
  - revert l. refine (rtc_ind_r _ x _ _); [apply rtc_refl|]. intros y z _ Hyz IH.
    eapply rtc_r; [exact IH|]. by apply H.
  - revert l. refine (rtc_ind_r _ x _ _); [apply rtc_refl|]. intros y z Hy Hyz IH.
    eapply rtc_r; [exact IH|]. by apply H.
Qed.

Lemma loaded_leaves t roots limit lin nodes n l :
  load_outcome t roots limit (Ok lin) → NoDup (map node_id nodes) →
  (∀ n, n ∈ nodes → node_id n ∈ roots ∧ is_Some (t !! node_id n)) → n ∈ nodes →
  leaf_of (with_candidates lin nodes) (node_id n) l ↔ rtc (source_of t) (node_id n) l ∧ row_sources t l = [].
Proof.
  intros Hload Hnd Hin Hn.
  assert (∀ k, rtc (source_of t) (node_id n) k → sources (with_candidates lin nodes) k = row_sources t k) as Hs
    by (intros k Hk; by eapply loaded_sources).
  unfold leaf_of. rewrite (rtc_agree _ (source_of t)).
  - split; intros [Hp Hl]; (split; [done|]); by rewrite <-Hl, Hs.
  - intros k Hk y. unfold edge, source_of. by rewrite Hs.
Qed.

(** ** Properties *)

(** Loading terminates and returns exactly the bounded closure: the source
    ids of every stored node reachable from the roots and of no other node, when
    at most [limit] nodes and at most [limit] source references are reachable;
    it raises only when more are.  The rows a LIMIT without ORDER BY returns
    make no difference. *)
Theorem load_bounded_closure pick t roots limit :
  pick_ok pick → load_outcome t roots (Z.to_nat limit) (load_source_lineage pick t roots limit).
Proof. apply load_source_lineage_outcome. Qed.

(** C32: the frontier of stored candidates, computed from the lineage loaded for
    them, covers every terminal node of the summary graph below a candidate by
    exactly one selected node, intermediate nodes that are no candidates
    included. *)
Theorem loaded_frontier_cover pick t roots limit lin nodes sel :
  pick_ok pick → load_source_lineage pick t roots limit = Ok lin →
  NoDup (map node_id nodes) → (∀ n, n ∈ nodes → node_id n ∈ roots ∧ is_Some (t !! node_id n)) →
  canonical_frontier nodes lin = Ok sel →
  ∀ n l, n ∈ nodes → rtc (source_of t) (node_id n) l → row_sources t l = [] →
  ∃ m, m ∈ sel ∧ rtc (source_of t) (node_id m) l ∧
    ∀ m', m' ∈ sel → rtc (source_of t) (node_id m') l → m' = m.
Proof.
  intros Hpick Hload Hnd Hin Hsel n l Hn Hp Hl.
  pose proof (load_source_lineage_outcome pick t roots limit Hpick) as Ho. rewrite Hload in Ho.
  pose proof (canonical_frontier_right nodes lin Hnd) as Hout. rewrite Hsel in Hout. destruct Hout as (_ & Hmemb & _).
  pose proof (loaded_leaves t roots (Z.to_nat limit) lin nodes) as Hleaf.
  assert (leaf_of (with_candidates lin nodes) (node_id n) l) as Hnl by (by eapply Hleaf).
  destruct (canonical_frontier_cover nodes lin sel Hnd Hsel n l Hn Hnl) as (m & Hm & Hml & Huniq).
  assert (∀ m, m ∈ sel → m ∈ nodes) as Hmem by (intros x Hx; by apply Hmemb).
  exists m. split; [done|]. split; [by apply (Hleaf m l Ho Hnd Hin (Hmem m Hm))|].
  intros m' Hm' Hp'. apply Huniq; [done|]. by apply (Hleaf m' l Ho Hnd Hin (Hmem m' Hm')).
Qed.

(** ** A table *)

(** 9 condenses 3 and 4, 3 the messages of 1 and 2; 4 and 1, 2 are leaves. *)
Definition table : gmap Z summary_row :=
  list_to_map [(9, {| from_nodes := true; source_ids := [3; 4] |});
               (3, {| from_nodes := true; source_ids := [1; 2] |});
               (4, {| from_nodes := false; source_ids := [70; 71] |});
               (1, {| from_nodes := false; source_ids := [50] |}); (2, {| from_nodes := false; source_ids := [51] |})].

(** The rows in the order of the set. *)
Definition first_rows (k : nat) (F : gset Z) : list Z := take k (elements F).

Lemma first_rows_ok : pick_ok first_rows.
Proof.
  intros k F. unfold first_rows. split_and!.
  - apply (sublist_NoDup _ (elements F)); [apply NoDup_elements|apply sublist_take].
  - intros n Hn. apply elem_of_elements. rewrite <-(take_drop k (elements F)). apply elem_of_app. by left.
  - rewrite length_take. done.
Qed.

Definition root_candidates : list CoverageNode := [cand 9 2 [3; 4]; cand 1 0 []].

Definition loaded_table : lineage := list_to_map [(9, [3; 4]); (3, [1; 2]); (4, []); (1, []); (2, [])].

Example load_example :
  load_source_lineage first_rows table [9; 1] 10 = Ok loaded_table ∧
  load_source_lineage first_rows table [9; 1] 4 = Err WorkLimit ∧
  canonical_frontier root_candidates loaded_table = Ok [cand 9 2 [3; 4]].
Proof. vm_compute. repeat split. Qed.

Theorem load_bounded_closure_witness : load_outcome table [9; 1] 10 (Ok loaded_table).
Proof. rewrite <-(proj1 load_example). exact (load_bounded_closure first_rows table [9; 1] 10 first_rows_ok). Defined.

Theorem loaded_frontier_cover_witness :
  ∃ m, m ∈ [cand 9 2 [3; 4]] ∧ rtc (source_of table) (node_id m) 1.
Proof.
  assert (NoDup (map node_id root_candidates)) as Hnd by (apply (bool_decide_unpack (NoDup [9; 1])); exact I).
  assert (∀ n, n ∈ root_candidates → node_id n ∈ [9; 1] ∧ is_Some (table !! node_id n)) as Hin.
  { apply Forall_forall. apply Forall_cons. split; [split; [by left|by eexists]|].
    apply Forall_singleton. split; [right; by left|by eexists]. }
  destruct (loaded_frontier_cover first_rows table [9; 1] 10 loaded_table root_candidates [cand 9 2 [3; 4]]
              first_rows_ok (proj1 load_example) Hnd Hin (proj2 (proj2 load_example)) (cand 1 0 []) 1
              (list_elem_of_further _ _ _ (list_elem_of_here _ _)) (rtc_refl _ _) eq_refl) as (m & Hm & Hp & _).
  exact (ex_intro _ m (conj Hm Hp)).
Defined.
