(* ===== verification/Chunking.v ===== *)
(** Chunking of a message for embedding (chunking.py): sentence spans, windows of
    about 600 tokens with one sentence of overlap, and the chunks each content
    policy selects.

    A text is a list of code points, an index a [nat].  The loops over an index
    run on fuel: one more than the length of the text, or the number of
    sentences, is enough since every round advances.  The token counter is the
    argument [count_tokens]; a message's content is its normalized text. *)

From S2P Require Import Prelude.
From stdpp Require Import options.

#[local] Open Scope Z_scope.

(** ** Text *)

Abbreviation text := (list Z).

(** [c.isspace()], also [\s] in a pattern. *)
Definition is_space (c : Z) : bool :=
  bool_decide (9 <= c <= 13) || bool_decide (28 <= c <= 32) || bool_decide (c = 133) || bool_decide (c = 160)
  || bool_decide (c = 5760) || bool_decide (8192 <= c <= 8202) || bool_decide (c = 8232) || bool_decide (c = 8233)
  || bool_decide (c = 8239) || bool_decide (c = 8287) || bool_decide (c = 12288).

(** Code points of an ASCII literal. *)
Definition ascii_text (s : string) : text := (λ a, Z.of_N (Ascii.N_of_ascii a)) <$> String.list_ascii_of_string s.

(** [s[start:end]] *)
Definition slice (t : text) (s e : nat) : text := take (e - s) (drop s t).

Fixpoint lstrip (t : text) : text := match t with c :: t' => if is_space c then lstrip t' else t | [] => [] end.
Definition strip (t : text) : text := reverse (lstrip (reverse (lstrip t))).

(** [lower()] of an ASCII letter; no other code point lowers to a letter of the
    words the code compares with. *)
Definition lower (c : Z) : Z := if bool_decide (65 <= c <= 90) then c + 32 else c.

(** Equality of [re.IGNORECASE]: the ASCII letters and the four code points that
    match one of [i], [k], [s]. *)
Definition fold_case (c : Z) : Z :=
  if bool_decide (c = 304 ∨ c = 305) then 105 else if bool_decide (c = 383) then 115
  else if bool_decide (c = 8490) then 107 else lower c.

Fixpoint prefix_match (word t : text) : option text :=
  match word, t with
  | [], _ => Some t
  | w :: word, c :: t => if bool_decide (fold_case c = w) then prefix_match word t else None
  | _ :: _, [] => None
  end.

(** [traceback|error[:\s]|exception|failed|warning] at the front of [t]. *)
Definition signature_here (t : text) : bool :=
  existsb (λ w, bool_decide (is_Some (prefix_match (ascii_text w) t)))
    ["traceback"; "exception"; "failed"; "warning"]%string
  || match prefix_match (ascii_text "error") t with
     | Some (c :: _) => bool_decide (c = 58) || is_space c
     | _ => false
     end.

Fixpoint error_signature (t : text) : bool :=
  signature_here t || match t with _ :: t => error_signature t | [] => false end.

(** ** Sentences *)

Abbreviation span := (nat * nat)%type.

(** [c in ".!?"] *)
Definition is_stop (c : Z) : bool := bool_decide (c = 46 ∨ c = 33 ∨ c = 63).

(** The number of code points at the front that satisfy [P]. *)
Fixpoint run_length (P : Z → bool) (t : text) : nat :=
  match t with c :: t => if P c then S (run_length P t) else 0%nat | [] => 0%nat end.

(** [while j < n and P(text[j]): j += 1] *)
Definition run_end (P : Z → bool) (t : text) (j : nat) : nat := (j + run_length P (drop j t))%nat.

Fixpoint sentence_loop (fuel : nat) (t : text) (start i : nat) : list span :=
  match fuel with
  | O => []
  | S fuel =>
      match t !! i with
      | None => if bool_decide (start < length t)%nat then [(start, length t)] else []
      | Some ch =>
          if is_stop ch then
            let j := run_end is_stop t (S i) in
            if match t !! j with None => true | Some c => is_space c end then
              let e := run_end is_space t j in (start, e) :: sentence_loop fuel t e e
            else sentence_loop fuel t start j
          else if bool_decide (ch = 10) then
            let j := run_end (λ c, bool_decide (c = 10)) t (S i) in (start, j) :: sentence_loop fuel t j j
          else sentence_loop fuel t start (S i)
      end
  end.

Definition sentence_spans (t : text) : list span := sentence_loop (S (length t)) t 0 0.

(** ** Windows and chunks *)

Definition CHUNK_TARGET_TOKENS : Z := 600.
Definition FULL_PER_MESSAGE_TOKEN_CAP : Z := 32000.
Definition MAX_ERROR_CHUNKS : nat := 3.

Record Chunk := {
  store_id : Z; chunk_index : nat; char_start : nat; char_end : nat; chunk_text : text; token_estimate : Z }.

Section chunks.
Variable count_tokens : text → Z.

(** The inner loop from sentence [j] on: the sentences the window takes. *)
Fixpoint take_window (t : text) (first : bool) (accumulated : Z) (sentences : list span) : list span * list span :=
  match sentences with
  | [] => ([], [])
  | (s, e) :: rest =>
      let sentence_tokens := count_tokens (slice t s e) in
      if negb first && bool_decide (accumulated + sentence_tokens > CHUNK_TARGET_TOKENS) then ([], sentences)
      else let '(w, r) := take_window t false (accumulated + sentence_tokens) rest in ((s, e) :: w, r)
  end.

(** [while i < total]: [sentences] are those from [i] on. *)
Fixpoint window_loop (fuel : nat) (t : text) (sentences : list span) : list span :=
  match fuel, sentences with
  | S fuel, (win_start, e0) :: _ =>
      let '(w, rest) := take_window t true 0 sentences in
      let final := default (win_start, e0) (last w) in
      let window := (win_start, snd final) in
      match rest with
      | [] => [window]
      | _ => window :: window_loop fuel t
               (if bool_decide (2 <= length w)%nat then final :: rest else rest)
      end
  | _, _ => []
  end.

Definition window_spans (t : text) : list span :=
  let n := length t in
  if bool_decide (n = 0%nat) then []
  else if bool_decide (count_tokens t <= CHUNK_TARGET_TOKENS) then [(0%nat, n)]
  else
    let sentences := sentence_spans t in
    if bool_decide (sentences = []) then [(0%nat, n)] else window_loop (length sentences) t sentences.

Definition make_chunk (id : Z) (index : nat) (t : text) (w : span) : Chunk :=
  let s := slice t (fst w) (snd w) in
  {| store_id := id; chunk_index := index; char_start := fst w; char_end := snd w; chunk_text := s;
     token_estimate := count_tokens s |}.

Definition full_chunks (id : Z) (t : text) : list Chunk := imap (λ i w, make_chunk id i t w) (window_spans t).

(** [for index in range(1, len(windows))]: at most [MAX_ERROR_CHUNKS] of them. *)
Fixpoint error_windows (t : text) (index errors : nat) (windows : list span) : list (nat * span) :=
  match windows with
  | [] => []
  | (s, e) :: windows =>
      if error_signature (slice t s e) then
        (index, (s, e)) ::
        (if bool_decide (MAX_ERROR_CHUNKS <= S errors)%nat then [] else error_windows t (S index) (S errors) windows)
      else error_windows t (S index) errors windows
  end.

Definition head_and_error_chunks (id : Z) (t : text) : list Chunk :=
  match window_spans t with
  | [] => []
  | w :: windows => (λ '(i, w), make_chunk id i t w) <$> ((0%nat, w) :: error_windows t 1 0 windows)
  end.

Inductive policy := Conversational | Heads | Full.

(** [normalize_content_policy] *)
Definition normalize_content_policy (value : text) : policy :=
  let v := lower <$> strip value in
  if bool_decide (v = ascii_text "heads") then Heads
  else if bool_decide (v = ascii_text "full") then Full else Conversational.

Definition chunk_message (id : Z) (role content : text) (p : text) : list Chunk :=
  if bool_decide (strip content = []) then []
  else
    let role := lower <$> strip role in
    let conversational := bool_decide (role = ascii_text "user" ∨ role = ascii_text "assistant") in
    let tool := bool_decide (role = ascii_text "tool") in
    match normalize_content_policy p with
    | Conversational => if conversational then full_chunks id content else []
    | Heads =>
        if conversational then full_chunks id content
        else if tool then head_and_error_chunks id content else []
    | Full =>
        if bool_decide (count_tokens content > FULL_PER_MESSAGE_TOKEN_CAP) then head_and_error_chunks id content
        else full_chunks id content
    end.

End chunks.

(** [group_by_store_id]: positions grouped by runs of one id; the groups so far
    with the last one's id. *)
Fixpoint group_runs (position : nat) (groups : list (list nat)) (last : option Z) (ids : list Z) : list (list nat) :=
  match ids with
  | [] => groups
  | id :: ids =>
      if bool_decide (groups ≠ []) && bool_decide (Some id = last)
      then group_runs (S position) (removelast groups ++ [List.last groups [] ++ [position]]) last ids
      else group_runs (S position) (groups ++ [[position]]) (Some id) ids
  end.

Definition group_by_store_id (ids : list Z) : list (list nat) := group_runs 0 [] None ids.

(** ** Specification *)

(** Spans that follow one another without gap or overlap, none empty. *)
Inductive tiles : nat → nat → list span → Prop :=
| tiles_nil a : tiles a a []
| tiles_cons a e b spans : (a < e)%nat → tiles e b spans → tiles a b ((a, e) :: spans).

Section windows.
Variable count_tokens : text → Z.
Variable t : text.

Definition span_tokens (s : span) : Z := count_tokens (slice t s.1 s.2).
Definition sum_tokens (w : list span) : Z := foldr (λ s acc, span_tokens s + acc) 0 w.

(** The extent of a run of sentences. *)
Definition extent (w : list span) (x : span) : Prop :=
  ∃ f l, head w = Some f ∧ last w = Some l ∧ x = (f.1, l.2).

(** Windows taken greedily: each holds one sentence, or several within the
    target; the next sentence would not have fitted; the next window opens on
    the last sentence of a window that held several. *)
Inductive windowed : list span → list span → Prop :=
| windowed_last w x :
    extent w x → (length w = 1%nat ∨ sum_tokens w <= CHUNK_TARGET_TOKENS) → windowed w [x]
| windowed_more w l next rest x wins :
    extent w x → last w = Some l → (length w = 1%nat ∨ sum_tokens w <= CHUNK_TARGET_TOKENS) →
    sum_tokens w + span_tokens next > CHUNK_TARGET_TOKENS →
    windowed (if decide (2 <= length w)%nat then l :: next :: rest else next :: rest) wins →
    windowed (w ++ next :: rest) (x :: wins).

End windows.

(** ** Sentences *)

Lemma run_length_le P t : (run_length P t ≤ length t)%nat.
Proof. induction t as [|c t IH]; cbn; [done|]. destruct (P c); lia. Qed.

Lemma run_end_bounds P t j : (j ≤ length t)%nat → (j ≤ run_end P t j ≤ length t)%nat.
Proof. intros Hj. unfold run_end. pose proof (run_length_le P (drop j t)). rewrite length_drop in *. lia. Qed.

Lemma sentence_loop_tiles t fuel start i :
  (start ≤ i ≤ length t)%nat → (length t - i < fuel)%nat → tiles start (length t) (sentence_loop fuel t start i).
Proof.
  revert start i. induction fuel as [|fuel IH]; intros start i Hi Hf; [lia|]. cbn [sentence_loop].
  destruct (t !! i) as [ch|] eqn:E; cycle 1.
  { apply lookup_ge_None in E. case_bool_decide; [by repeat constructor|].
    replace start with (length t) by lia. constructor. }
  apply lookup_lt_Some in E.
  pose proof (run_end_bounds is_stop t (S i) ltac:(lia)) as Hj.
  pose proof (run_end_bounds is_space t (run_end is_stop t (S i)) ltac:(lia)) as He.
  pose proof (run_end_bounds (λ c, bool_decide (c = 10)) t (S i) ltac:(lia)) as Hn.
  destruct (is_stop ch); [destruct (match t !! run_end is_stop t (S i) with None => true | Some c => is_space c end)|
                          case_bool_decide].
  - constructor; [lia|]. apply IH; lia.
  - apply IH; lia.
  - constructor; [lia|]. apply IH; lia.
  - apply IH; lia.
Qed.

Lemma sentence_spans_tile t : tiles 0 (length t) (sentence_spans t).
Proof. apply sentence_loop_tiles; lia. Qed.

Lemma tiles_app_inv a b w rest :
  tiles a b (w ++ rest) → ∃ m, tiles a m w ∧ tiles m b rest.
Proof.
  revert a. induction w as [|[s e] w IH]; intros a H; [exists a; split; [constructor|done]|].
  inversion H; subst. destruct (IH e) as (m & ? & ?); [done|]. exists m. split; [by constructor|done].
Qed.

Lemma tiles_le a b w : tiles a b w → (a ≤ b)%nat.
Proof. induction 1; lia. Qed.

Lemma tiles_snoc a b w l : tiles a b (w ++ [l]) → l.2 = b ∧ (a ≤ l.1 < b)%nat.
Proof.
  intros (m & Hw & Hl)%tiles_app_inv. apply tiles_le in Hw. inversion Hl as [|? e ? ? Hlt Hn]; subst.
  inversion Hn; subst. cbn. lia.
Qed.

(** A run of tiles extends over what it tiles. *)
Lemma tiles_extent a b w x : tiles a b w → extent w x → x = (a, b) ∧ (a < b)%nat.
Proof.
  intros H (f & l & Hf & Hl & ->). apply last_Some in Hl as [w' ->].
  pose proof (tiles_snoc _ _ _ _ H) as [-> Hab].
  split; [|lia]. inversion H as [a' Ha Hn|a' e b' spans Hae Ht Ha Hb Hw]; subst; [by destruct w'|].
  rewrite <-Hw in Hf. by injection Hf as <-.
Qed.

(** ** Windows *)

Section window_lemmas.
Variable count_tokens : text → Z.
Variable t : text.
#[local] Abbreviation sumt := (sum_tokens count_tokens t).
#[local] Abbreviation spant := (span_tokens count_tokens t).

Lemma sum_tokens_cons x w : sumt (x :: w) = spant x + sumt w.
Proof using Type. done. Qed.

Lemma sum_tokens_nil : sumt [] = 0.
Proof using Type. done. Qed.

Lemma take_window_more acc sentences w rest :
  take_window count_tokens t false acc sentences = (w, rest) →
  sentences = w ++ rest ∧ (w = [] ∨ acc + sumt w <= CHUNK_TARGET_TOKENS) ∧
  match rest with next :: _ => acc + sumt w + spant next > CHUNK_TARGET_TOKENS | [] => True end.
Proof using Type.
  revert acc w rest. induction sentences as [|[s e] sentences IH]; intros acc w rest; cbn [take_window].
  { intros [= <- <-]. split_and!; [done|by left|done]. }
  cbn [negb andb]. case_bool_decide as Hov.
  { intros [= <- <-]. split_and!; [done|by left|]. rewrite sum_tokens_nil. change (spant (s, e)) with (count_tokens (slice t s e)). lia. }
  destruct (take_window count_tokens t false _ sentences) as [w' r'] eqn:E. intros [= <- <-].
  destruct (IH _ _ _ E) as (-> & Hw & Hr). rewrite !sum_tokens_cons.
  change (spant (s, e)) with (count_tokens (slice t s e)).
  split_and!; [done| |].
  - right. destruct Hw as [->|Hw]; rewrite ?sum_tokens_nil; lia.
  - destruct r'; [done|]. lia.
Qed.

Lemma take_window_first s e sentences w rest :
  take_window count_tokens t true 0 ((s, e) :: sentences) = (w, rest) →
  ∃ w', w = (s, e) :: w' ∧ sentences = w' ++ rest ∧ (length w = 1%nat ∨ sumt w <= CHUNK_TARGET_TOKENS) ∧
  match rest with next :: _ => sumt w + spant next > CHUNK_TARGET_TOKENS | [] => True end.
Proof using Type.
  cbn [take_window negb andb].
  destruct (take_window count_tokens t false _ sentences) as [w' r'] eqn:E. intros [= <- <-].
  destruct (take_window_more _ _ _ _ E) as (-> & Hw & Hr). exists w'. split_and!; [done..| |].
  - destruct Hw as [->|Hw]; [by left|right]. rewrite sum_tokens_cons.
    change (spant (s, e)) with (count_tokens (slice t s e)). lia.
  - destruct r'; [done|]. rewrite sum_tokens_cons. change (spant (s, e)) with (count_tokens (slice t s e)). lia.
Qed.

Lemma last_cons_is_Some (x : span) w : ∃ l, last (x :: w) = Some l.
Proof using Type. destruct (last (x :: w)) eqn:E; [by eexists|]. by apply last_None in E. Qed.

Lemma window_loop_windowed fuel sentences :
  sentences ≠ [] → (length sentences ≤ fuel)%nat →
  windowed count_tokens t sentences (window_loop count_tokens fuel t sentences).
Proof using Type.
  revert sentences. induction fuel as [|fuel IH]; intros [|[s e] sentences] Hne Hf; cbn [length] in Hf; try done; [lia|].
  cbn [window_loop].
  destruct (take_window count_tokens t true 0 ((s, e) :: sentences)) as [w rest] eqn:E.
  destruct (take_window_first _ _ _ _ _ E) as (w' & -> & Hs & Hw & Hr).
  destruct (last_cons_is_Some (s, e) w') as [l Hl]. rewrite Hl. cbn [default].
  assert (extent ((s, e) :: w') (s, l.2)) as Hext by (by exists (s, e), l).
  rewrite Hs. destruct rest as [|next rest]; [rewrite app_nil_r; by constructor|].
  change ((s, e) :: w' ++ next :: rest) with (((s, e) :: w') ++ next :: rest).
  apply (windowed_more _ _ _ l); [done..|]. rewrite Hs, length_app in Hf. cbn [length] in Hf |- *.
  rewrite bool_decide_decide. destruct (decide _) as [H2|H2]; apply IH; try done; cbn [length]; lia.
Qed.

End window_lemmas.

(** Windows in order, the first from [a], the last up to [b], each starting
    after the one before and no later than its end. *)
Inductive chained : nat → nat → list span → Prop :=
| chained_one a b : (a < b)%nat → chained a b [(a, b)]
| chained_more a e a' e' b wins :
    (a < a' ≤ e)%nat → (e ≤ e')%nat → chained a' b ((a', e') :: wins) → chained a b ((a, e) :: (a', e') :: wins).

(** [w] holds the span [x] whole. *)
Definition holds (w x : span) : Prop := (w.1 ≤ x.1)%nat ∧ (x.2 ≤ w.2)%nat.

Lemma tiles_elem a b w x : tiles a b w → x ∈ w → holds (a, b) x.
Proof.
  induction 1 as [|a e b spans Hae H IH]; [by intros ?%not_elem_of_nil|].
  pose proof (tiles_le _ _ _ H). intros [->|Hx]%elem_of_cons; [split; cbn; lia|].
  destruct (IH Hx) as [? ?]. cbn in *. split; cbn; lia.
Qed.

Lemma tiles_head_le a b w f rest : tiles a b w → w = f :: rest → (f.2 ≤ b)%nat.
Proof. intros H ->. by apply (tiles_elem _ _ _ f) in H as [_ ?]; [|left]. Qed.

(** The tiles a window's overlap starts from. *)
Lemma next_tiles a m b w l (next : span) rest :
  tiles a m w → last w = Some l → tiles m b (next :: rest) →
  ∃ a', (a < a' ≤ m)%nat ∧
    tiles a' b (if decide (2 <= length w)%nat then l :: next :: rest else next :: rest) ∧
    ∀ f, head (if decide (2 <= length w)%nat then l :: next :: rest else next :: rest) = Some f → (m ≤ f.2)%nat.
Proof.
  intros Hw Hl Hrest. apply last_Some in Hl as [w' ->]. pose proof (tiles_snoc _ _ _ _ Hw) as [Hl2 Hl1].
  destruct (decide _) as [H2|H2].
  - apply tiles_app_inv in Hw as (a' & Hw' & Hlast).
    inversion Hlast as [|? e ? ? Hlt Hn]; subst. inversion Hn; subst. exists a'.
    destruct w' as [|[s e'] w']; [cbn in H2; lia|].
    inversion Hw' as [|? ? ? ? Hae' Ht]; subst. pose proof (tiles_le _ _ _ Ht). cbn [snd] in *.
    split; [lia|]. split; [by constructor|]. by intros f [= <-].
  - exists m. pose proof (tiles_le _ _ _ Hw).
    split; [lia|]. split; [done|]. intros f [= <-]. inversion Hrest; subst. cbn. lia.
Qed.

Lemma windowed_chained count_tokens t sentences wins :
  windowed count_tokens t sentences wins → ∀ a b, tiles a b sentences →
  ∃ e wins', wins = (a, e) :: wins' ∧ (∀ f, head sentences = Some f → (f.2 ≤ e)%nat) ∧ chained a b wins ∧
  ∀ x, x ∈ sentences → ∃ w, w ∈ wins ∧ holds w x.
Proof.
  induction 1 as [w x Hx Hw|w l next rest x wins Hx Hl Hw Hov H IH]; intros a b Ht.
  - destruct (tiles_extent _ _ _ _ Ht Hx) as [-> Hab]. exists b, []. split_and!; [done| |by constructor|].
    + intros f Hf. destruct w as [|f' w]; [done|]. injection Hf as ->. by eapply tiles_head_le.
    + intros y Hy. exists (a, b). split; [by left|]. by eapply tiles_elem.
  - apply tiles_app_inv in Ht as (m & Htw & Htr). destruct (tiles_extent _ _ _ _ Htw Hx) as [-> Ham].
    destruct (next_tiles _ _ _ _ _ _ _ Htw Hl Htr) as (a' & Ha' & Ht' & Hhead).
    destruct (IH _ _ Ht') as (e & wins' & -> & He & Hc & Hcov). clear IH.
    exists m, ((a', e) :: wins'). split_and!; [done| | |].
    + intros f Hf. destruct w as [|f' w]; [done|]. injection Hf as ->. by eapply tiles_head_le.
    + constructor; [lia| |done].
      revert Hhead He. destruct (decide _); cbn [head]; intros Hhead He.
      * specialize (Hhead l eq_refl). specialize (He l eq_refl). lia.
      * specialize (Hhead next eq_refl). specialize (He next eq_refl). lia.
    + intros y [Hy|Hy]%elem_of_app.
      * exists (a, m). split; [by left|]. by eapply tiles_elem.
      * destruct (Hcov y) as (v & Hv & Hyv); [destruct (decide _); [by right|done]|].
        exists v. split; [by right|done].
Qed.

Lemma chained_covers a b wins p : chained a b wins → (a ≤ p < b)%nat → ∃ w, w ∈ wins ∧ (w.1 ≤ p < w.2)%nat.
Proof.
  induction 1 as [a b Hab|a e a' e' b wins Ha He H IH]; intros Hp; [exists (a, b); split; [by left|done]|].
  destruct (decide (p < e)%nat); [exists (a, e); split; [by left|cbn; lia]|].
  destruct IH as (w & Hw & ?); [lia|]. exists w. split; [by right|done].
Qed.

Lemma chained_head a b wins : chained a b wins → ∃ e rest, wins = (a, e) :: rest ∧ (a < e ≤ b)%nat.
Proof.
  induction 1 as [a b Hab|a e a' e' b wins Ha He H IH]; [by exists b, []|].
  destruct IH as (e0 & rest & [= <- <-] & ?). exists e, ((a', e') :: wins). split; [done|lia].
Qed.

Lemma chained_within a b wins w : chained a b wins → w ∈ wins → (a ≤ w.1 < w.2)%nat ∧ (w.2 ≤ b)%nat.
Proof.
  intros H. pose proof (chained_head _ _ _ H) as Hh. revert Hh.
  induction H as [a b Hab|a e a' e' b wins Ha He H IH]; intros (e0 & rest & [= <- <-] & ?) Hw.
  - apply list_elem_of_singleton in Hw as ->. cbn. lia.
  - apply elem_of_cons in Hw as [->|Hw]; [cbn; lia|]. destruct (IH (chained_head _ _ _ H) Hw). lia.
Qed.

Section chunk_lemmas.
Variable count_tokens : text → Z.

Lemma window_spans_chained t : t ≠ [] → chained 0 (length t) (window_spans count_tokens t).
Proof using Type.
  intros Ht. unfold window_spans.
  assert (0 < length t)%nat by (destruct t; [done|apply Nat.lt_0_succ]).
  rewrite bool_decide_eq_false_2 by lia. case_bool_decide; [by constructor|].
  case_bool_decide as Hs; [by constructor|].
  destruct (windowed_chained _ _ _ _ (window_loop_windowed count_tokens t _ _ Hs (Nat.le_refl _)) _ _ (sentence_spans_tile t))
    as (_ & _ & _ & _ & Hc & _). done.
Qed.

Lemma error_windows_sublist t index errors windows :
  snd <$> error_windows t index errors windows `sublist_of` windows ∧
  (∀ i w, (i, w) ∈ error_windows t index errors windows → ∃ k, i = (index + k)%nat ∧ windows !! k = Some w) ∧
  ((errors < MAX_ERROR_CHUNKS)%nat → (errors + length (error_windows t index errors windows) ≤ MAX_ERROR_CHUNKS)%nat).
Proof using Type.
  revert index errors. induction windows as [|[s e] windows IH]; intros index errors; cbn [error_windows].
  { split_and!; [constructor|by intros i w ?%not_elem_of_nil|cbn; lia]. }
  destruct (error_signature (slice t s e)); [case_bool_decide as Hmax|].
  - split_and!; [apply sublist_skip, sublist_nil_l| |cbn; lia].
    intros i w [= -> ->]%list_elem_of_singleton. exists 0%nat. split; [lia|done].
  - destruct (IH (S index) (S errors)) as (Hs & Hi & Hl). split_and!; [by apply sublist_skip| |cbn; lia].
    intros i w [[= -> ->]|H]%elem_of_cons; [exists 0%nat; split; [lia|done]|].
    destruct (Hi i w H) as (k & -> & Hk). exists (S k). split; [lia|done].
  - destruct (IH (S index) errors) as (Hs & Hi & Hl). split_and!; [by apply sublist_cons| |done].
    intros i w H. destruct (Hi i w H) as (k & -> & Hk). exists (S k). split; [lia|done].
Qed.

Lemma full_chunks_lookup id t i w :
  window_spans count_tokens t !! i = Some w →
  full_chunks count_tokens id t !! i = Some (make_chunk count_tokens id i t w).
Proof using Type. intros Hw. unfold full_chunks. by rewrite list_lookup_imap, Hw. Qed.

Lemma full_chunks_elem id t c :
  c ∈ full_chunks count_tokens id t → full_chunks count_tokens id t !! chunk_index c = Some c.
Proof using Type.
  intros [i Hi]%list_elem_of_lookup. pose proof Hi as Hi'. unfold full_chunks in Hi'.
  rewrite list_lookup_imap in Hi'. destruct (window_spans count_tokens t !! i) as [w|]; [|done].
  injection Hi' as <-. done.
Qed.

Lemma head_and_error_chunks_elem id t c :
  c ∈ head_and_error_chunks count_tokens id t → full_chunks count_tokens id t !! chunk_index c = Some c.
Proof using Type.
  unfold head_and_error_chunks. destruct (window_spans count_tokens t) as [|w windows] eqn:E; [by intros ?%not_elem_of_nil|].
  intros ([i v] & -> & [[= -> ->]|Hv]%elem_of_cons)%list_elem_of_fmap; cbn [chunk_index make_chunk].
  - apply full_chunks_lookup. by rewrite E.
  - destruct (error_windows_sublist t 1 0 windows) as (_ & Hi & _). destruct (Hi _ _ Hv) as (k & -> & Hk).
    apply full_chunks_lookup. by rewrite E.
Qed.

End chunk_lemmas.

(** ** Grouping *)

(** [groups] are the maximal runs of one id: in order they list every position
    once, each holds positions of one id ([vals] gives it), and neighbours
    differ. *)
Definition runs_of (ids : list Z) (groups : list (list nat)) (vals : list Z) : Prop :=
  concat groups = seq 0 (length ids) ∧
  Forall2 (λ g v, g ≠ [] ∧ ∀ i, i ∈ g → ids !! i = Some v) groups vals ∧
  ∀ k v v', vals !! k = Some v → vals !! S k = Some v' → v ≠ v'.

Lemma runs_of_weaken ids x groups vals :
  runs_of ids groups vals →
  concat groups = seq 0 (length ids) ∧
  Forall2 (λ g v, g ≠ [] ∧ ∀ i, i ∈ g → (ids ++ [x]) !! i = Some v) groups vals.
Proof.
  intros (Hc & Hf & _). split; [done|]. eapply Forall2_impl; [exact Hf|].
  intros g v [Hg Hv]. split; [done|]. intros i Hi. by apply lookup_app_l_Some, Hv.
Qed.

Lemma runs_of_same ids gs g vals v :
  runs_of ids (gs ++ [g]) (vals ++ [v]) → runs_of (ids ++ [v]) (gs ++ [g ++ [length ids]]) (vals ++ [v]).
Proof.
  intros H. pose proof H as (_ & _ & Hd). destruct (runs_of_weaken _ v _ _ H) as [Hc Hf].
  split_and!; [| |done].
  - rewrite concat_app in *. cbn [concat] in *. rewrite length_app, seq_app. cbn [length seq].
    rewrite !app_nil_r in *. by rewrite app_assoc, Hc.
  - apply Forall2_app_inv in Hf as [Hf Hl]; [|apply Forall2_length in Hf; rewrite !length_app in Hf; cbn in Hf; lia].
    apply Forall2_app; [done|]. inversion Hl as [|? ? ? ? [Hg Hv] _]; subst. constructor; [|constructor].
    split; [by destruct g|]. intros i [Hi| ->%list_elem_of_singleton]%elem_of_app; [by apply Hv|].
    by rewrite lookup_app_r, Nat.sub_diag by lia.
Qed.

Lemma runs_of_next ids groups vals x :
  runs_of ids groups vals → (∀ v, last vals = Some v → v ≠ x) →
  runs_of (ids ++ [x]) (groups ++ [[length ids]]) (vals ++ [x]).
Proof.
  intros H Hx. pose proof H as (_ & _ & Hd). destruct (runs_of_weaken _ x _ _ H) as [Hc Hf]. split_and!.
  - rewrite concat_app, Hc, length_app, seq_app. done.
  - apply Forall2_app; [done|]. constructor; [|constructor]. split; [done|].
    intros i ->%list_elem_of_singleton. by rewrite lookup_app_r, Nat.sub_diag by lia.
  - intros k v v' Hk Hk'. assert (S k < length (vals ++ [x]))%nat as Hlt by by eapply lookup_lt_Some.
    rewrite length_app in Hlt. cbn in Hlt. rewrite lookup_app_l in Hk by lia.
    destruct (decide (S k < length vals)%nat).
    + rewrite lookup_app_l in Hk' by lia. by eapply Hd.
    + rewrite lookup_app_r in Hk' by lia. replace (S k - length vals)%nat with 0%nat in Hk' by lia.
      injection Hk' as <-. apply Hx. rewrite last_lookup. by replace (Nat.pred (length vals)) with k by lia.
Qed.

Lemma group_runs_right ids : ∀ pre groups vals,
  runs_of pre groups vals → ∃ vals', runs_of (pre ++ ids) (group_runs (length pre) groups (last vals) ids) vals'.
Proof.
  induction ids as [|x ids IH]; intros pre groups vals H; cbn [group_runs].
  { exists vals. by rewrite app_nil_r. }
  replace (pre ++ x :: ids) with ((pre ++ [x]) ++ ids) by by rewrite <-app_assoc.
  replace (S (length pre)) with (length (pre ++ [x])) by (rewrite length_app; cbn; lia).
  destruct (bool_decide (groups ≠ []) && bool_decide (Some x = last vals)) eqn:E.
  - apply andb_true_iff in E as [Hg%bool_decide_eq_true Hl%bool_decide_eq_true].
    destruct groups as [|g gs _] using rev_ind; [done|]. symmetry in Hl.
    apply last_Some in Hl as [vs ->].
    rewrite removelast_last, List.last_last. apply IH. by apply runs_of_same.
  - replace (Some x) with (last (vals ++ [x])) by apply last_snoc. apply IH. apply runs_of_next; [done|].
    intros v Hv ->. apply andb_false_iff in E as [E|E]; apply bool_decide_eq_false in E; [|by rewrite Hv in E].
    destruct groups as [|g gs]; [|by apply E]. destruct H as (_ & Hf & _). inversion Hf; subst. done.
Qed.

(** ** Properties *)

(** The windows of a text cover it without cutting a sentence: the sentence
    spans tile the text, the windows follow one another from its start to its
    end (each starts after the one before and no later than that one's end), so
    every code point is in a window; and above the token target every sentence
    is whole in some window, the windows being the greedy ones with one sentence
    of overlap. *)
Theorem windows_cover count_tokens t :
  t ≠ [] →
  tiles 0 (length t) (sentence_spans t) ∧ chained 0 (length t) (window_spans count_tokens t) ∧
  (∀ p, (p < length t)%nat → ∃ w, w ∈ window_spans count_tokens t ∧ (w.1 ≤ p < w.2)%nat) ∧
  (CHUNK_TARGET_TOKENS < count_tokens t →
   windowed count_tokens t (sentence_spans t) (window_spans count_tokens t) ∧
   ∀ x, x ∈ sentence_spans t → ∃ w, w ∈ window_spans count_tokens t ∧ holds w x).
Proof.
  intros Ht. pose proof (sentence_spans_tile t) as Htile. pose proof (window_spans_chained count_tokens t Ht) as Hc.
  assert (0 < length t)%nat by (destruct t; [done|apply Nat.lt_0_succ]).
  split_and!; [done..|intros p Hp; apply (chained_covers _ _ _ _ Hc); lia|].
  intros Hbig. assert (sentence_spans t ≠ []) as Hne.
  { intros E. rewrite E in Htile. inversion Htile. lia. }
  unfold window_spans. rewrite !bool_decide_eq_false_2 by (done || lia).
  pose proof (window_loop_windowed count_tokens t _ _ Hne (Nat.le_refl _)) as Hw. split; [done|].
  by destruct (windowed_chained _ _ _ _ Hw _ _ Htile) as (_ & _ & _ & _ & _ & ?).
Qed.

(** A chunk names the text it holds: under every policy it is the slice of the
    content between its offsets, inside the content, with the index of its
    window among all the windows, so an index stands for the same span whatever
    policy chose it; a conversational turn keeps every code point; a tool result
    under [heads] keeps at most four chunks. *)
Theorem chunk_message_spans count_tokens id role content p :
  let chunks := chunk_message count_tokens id role content p in
  (∀ c, c ∈ chunks →
     full_chunks count_tokens id content !! chunk_index c = Some c ∧ store_id c = id ∧
     chunk_text c = slice content (char_start c) (char_end c) ∧
     (char_start c < char_end c ≤ length content)%nat) ∧
  (lower <$> strip role = ascii_text "user" → normalize_content_policy p = Conversational → strip content ≠ [] →
   chunks = full_chunks count_tokens id content ∧
   ∀ i, (i < length content)%nat → ∃ c, c ∈ chunks ∧ (char_start c ≤ i < char_end c)%nat) ∧
  (lower <$> strip role = ascii_text "tool" → normalize_content_policy p = Heads → (length chunks ≤ 4)%nat).
Proof.
  intros chunks. subst chunks. split_and!.
  - intros c Hc.
    assert (full_chunks count_tokens id content !! chunk_index c = Some c) as Hfull.
    { unfold chunk_message in Hc. revert Hc. case_bool_decide; [by intros ?%not_elem_of_nil|].
      destruct (normalize_content_policy p); repeat case_bool_decide; intros Hc;
        first [by apply full_chunks_elem|by apply head_and_error_chunks_elem|by apply not_elem_of_nil in Hc]. }
    split; [done|]. unfold full_chunks in Hfull. rewrite list_lookup_imap in Hfull.
    destruct (window_spans count_tokens content !! chunk_index c) as [w|] eqn:Hw; [|done]. injection Hfull as <-.
    split_and!; [done..| |]; cbn [char_start char_end make_chunk];
      (destruct (decide (content = [])) as [->|Hne]; [done|]);
      apply list_elem_of_lookup_2 in Hw;
      destruct (chained_within _ _ _ _ (window_spans_chained count_tokens content Hne) Hw); lia.
  - intros Hrole Hp Hne. unfold chunk_message. rewrite Hp, Hrole.
    rewrite (bool_decide_eq_false_2 (strip content = [])) by done.
    rewrite bool_decide_eq_true_2 by (by left). split; [done|]. intros i Hi.
    assert (content ≠ []) as Hc by (by intros ->).
    destruct (chained_covers _ _ _ i (window_spans_chained count_tokens content Hc)) as (w & [k Hk]%list_elem_of_lookup & Hw);
      [lia|].
    exists (make_chunk count_tokens id k content w). split; [|done].
    eapply list_elem_of_lookup_2. by apply full_chunks_lookup.
  - intros Hrole Hp. unfold chunk_message. rewrite Hp, Hrole. case_bool_decide; [cbn; lia|].
    rewrite bool_decide_eq_false_2 by (vm_compute; intros [?|?]; discriminate).
    rewrite bool_decide_eq_true_2 by done. unfold head_and_error_chunks.
    destruct (window_spans count_tokens content) as [|w windows]; [cbn; lia|]. rewrite length_fmap. cbn [length].
    destruct (error_windows_sublist content 1 0 windows) as (_ & _ & Hl). unfold MAX_ERROR_CHUNKS in *. lia.
Qed.

(** Chunks are grouped by message: the groups list every position once and in
    order, each the positions of one store id, neighbouring groups of different
    ids. *)
Theorem group_by_store_id_runs ids : ∃ vals, runs_of ids (group_by_store_id ids) vals.
Proof.
  apply (group_runs_right ids [] [] []). split_and!; [done|constructor|done].
Qed.

(** ** Examples *)

(** One token per code point. *)
Definition per_char (t : text) : Z := Z.of_nat (length t).

(** Three sentences of 350, 200 and 300 code points. *)
Definition long_text : text :=
  repeat 97 348 ++ [46; 32] ++ repeat 98 199 ++ [10] ++ repeat 99 300.

Example sentence_example : sentence_spans long_text = [(0, 350); (350, 550); (550, 850)]%nat.
Proof. vm_compute. reflexivity. Qed.

Example window_example : window_spans per_char long_text = [(0, 550); (350, 850)]%nat.
Proof. vm_compute. reflexivity. Qed.

(** A sentence that fits after the overlap is not found: the second window is
    the overlap alone, inside the first. *)
Example overlap_alone :
  window_spans per_char (repeat 97 299 ++ [10] ++ repeat 98 299 ++ [10] ++ repeat 99 400) =
  [(0, 600); (300, 600); (600, 1000)]%nat.
Proof. vm_compute. reflexivity. Qed.

Example signature_example :
  error_signature (ascii_text "an Error: x") = true ∧ error_signature (ascii_text "errors") = false.
Proof. vm_compute. split; reflexivity. Qed.

Theorem windows_cover_witness : chained 0 850 [(0, 550); (350, 850)]%nat.
Proof.
  rewrite <-window_example. refine (proj1 (proj2 (windows_cover per_char long_text _))). discriminate.
Defined.

Theorem chunk_message_spans_witness :
  ∃ c, c ∈ chunk_message per_char 7 (ascii_text "User ") long_text [] ∧ (char_start c ≤ 849 < char_end c)%nat.
Proof.
  destruct (chunk_message_spans per_char 7 (ascii_text "User ") long_text []) as (_ & H & _).
  refine (proj2 (H _ _ _) 849%nat _).
  - vm_compute. reflexivity.
  - vm_compute. reflexivity.
  - vm_compute. discriminate.
  - vm_compute. lia.
Defined.
