(* ===== verification/Lifecycle.v ===== *)
(** The lifecycle of a conversation (lifecycle_state.py): which session it is
    bound to, the frontier up to which that session's rows are compacted, and
    the last finalized session with its frontier.

    The table is a finite map by conversation id; SQL's NULL is [None].  Every
    statement is atomic, but a method that reads before it writes may be
    overtaken by another process: such a method takes the row it read apart from
    the table it writes into, and [bind_session], which retries, takes what the
    others commit before each of its statements.  Times are integers. *)

From S2P Require Import Prelude.
From stdpp Require Import options.

#[local] Open Scope Z_scope.

(** ** The table *)

Record LifecycleState := {
  current_session_id : option string; last_finalized_session_id : option string;
  current_frontier_store_id : Z; last_finalized_frontier_store_id : Z;
  debt_kind : option string; debt_size_estimate : Z;
  current_bound_at : option Z; last_finalized_at : option Z; debt_updated_at : option Z;
  last_maintenance_attempt_at : option Z; last_rollover_at : option Z; last_reset_at : option Z;
  updated_at : Z }.
#[global] Instance LifecycleState_eq_dec : EqDecision LifecycleState.
Proof. solve_decision. Defined.

Abbreviation lifecycle_table := (gmap string LifecycleState).

(** [bool(s)] of a column. *)
Definition set (s : option string) : bool := match s with Some s => bool_decide (s ≠ EmptyString) | None => false end.

(** [last_reset_at IS NULL OR COALESCE(last_finalized_at, 0) >= last_reset_at] *)
Definition not_reset_since (s : LifecycleState) : bool :=
  match last_reset_at s with None => true | Some r => bool_decide (r <= default 0 (last_finalized_at s)) end.

(** ** Reading *)

Definition get_by_conversation (t : lifecycle_table) (conversation_id : string) : option LifecycleState :=
  if bool_decide (conversation_id = EmptyString) then None else t !! conversation_id.

(** Before in [ORDER BY CASE WHEN current_session_id = ? THEN 0 ELSE 1 END, updated_at DESC]. *)
Definition session_row_before (session_id : string) (a b : LifecycleState) : bool :=
  let first s := bool_decide (current_session_id s = Some session_id) in
  (first a && negb (first b)) || (bool_decide (first a = first b) && bool_decide (updated_at b < updated_at a)).

(** [scan] is the order in which SQLite visits the table. *)
Definition get_by_session (scan : lifecycle_table → list (string * LifecycleState)) (t : lifecycle_table)
    (session_id : string) : option (string * LifecycleState) :=
  if bool_decide (session_id = EmptyString) then None
  else
    match filter (λ r, current_session_id r.2 = Some session_id ∨ last_finalized_session_id r.2 = Some session_id) (scan t) with
    | [] => None
    | r :: rows => Some (foldl (λ best r, if session_row_before session_id r.2 best.2 then r else best) r rows)
    end.

(** ** Binding *)

Section bind.
Variables (session_id : string) (now : Z).

(** The frontier a binding resumes. *)
Definition resumed_frontier (existing : LifecycleState) : Z :=
  if bool_decide (current_session_id existing = None)
     && bool_decide (last_finalized_session_id existing = Some session_id) && not_reset_since existing
  then last_finalized_frontier_store_id existing else 0.

Definition rollover_at (existing : LifecycleState) : option Z :=
  if (set (current_session_id existing) && bool_decide (current_session_id existing ≠ Some session_id))
     || (bool_decide (current_session_id existing = None) && set (last_finalized_session_id existing)
         && bool_decide (last_finalized_session_id existing ≠ Some session_id))
  then Some now else last_rollover_at existing.

(** The columns the statement compares with what was read. *)
Definition bind_guard (existing row : LifecycleState) : bool :=
  bool_decide (current_session_id row = current_session_id existing)
  && bool_decide (last_finalized_session_id row = last_finalized_session_id existing)
  && bool_decide (last_finalized_frontier_store_id row = last_finalized_frontier_store_id existing)
  && bool_decide (last_finalized_at row = last_finalized_at existing)
  && bool_decide (last_reset_at row = last_reset_at existing).

Definition bound_row (frontier : Z) (rollover : option Z) (row : LifecycleState) : LifecycleState :=
  {| current_session_id := Some session_id; last_finalized_session_id := last_finalized_session_id row;
     current_frontier_store_id := frontier; last_finalized_frontier_store_id := last_finalized_frontier_store_id row;
     debt_kind := debt_kind row; debt_size_estimate := debt_size_estimate row;
     current_bound_at := Some now; last_finalized_at := last_finalized_at row; debt_updated_at := debt_updated_at row;
     last_maintenance_attempt_at := last_maintenance_attempt_at row; last_rollover_at := rollover;
     last_reset_at := last_reset_at row; updated_at := now |}.

Definition fresh_row : LifecycleState :=
  {| current_session_id := Some session_id; last_finalized_session_id := None;
     current_frontier_store_id := 0; last_finalized_frontier_store_id := 0; debt_kind := None; debt_size_estimate := 0;
     current_bound_at := Some now; last_finalized_at := None; debt_updated_at := None;
     last_maintenance_attempt_at := None; last_rollover_at := None; last_reset_at := None; updated_at := now |}.

(** [_bind_plan] executed on [t]: the new table, and whether a row was changed. *)
Definition execute_bind_plan (existing : option LifecycleState) (conversation_id : string) (t : lifecycle_table)
    : lifecycle_table * bool :=
  match existing, t !! conversation_id with
  | Some e, Some row =>
      if bind_guard e row
      then (<[conversation_id := bound_row (resumed_frontier e) (rollover_at e) row]> t, true)
      else (t, false)
  | Some _, None => (t, false)
  | None, None => (<[conversation_id := fresh_row]> t, true)
  | None, Some _ => (t, false)
  end.

(** [_bind_session_in_write_transaction]: a failed assertion rolls it back. *)
Definition bind_session_in_write_transaction (conversation_id : string) (t : lifecycle_table)
    : option LifecycleState * lifecycle_table :=
  let existing := get_by_conversation t conversation_id in
  let t' := if bool_decide (existing ≫= current_session_id = Some session_id) then t
            else fst (execute_bind_plan existing conversation_id t) in
  match get_by_conversation t' conversation_id with
  | Some state => (Some state, t')
  | None => (None, t)
  end.

Variable scan : lifecycle_table → list (string * LifecycleState).
(** What other connections commit before the [k]th statement. *)
Variable world : nat → lifecycle_table → lifecycle_table.

(** [for _ in range(_BIND_CAS_ATTEMPTS)]; [resolved] is [""] while unknown.  The
    result is the state returned, [None] where the assertion fails. *)
Fixpoint bind_loop (attempts k : nat) (resolved : string) (t : lifecycle_table)
    : option LifecycleState * lifecycle_table :=
  match attempts with
  | O => bind_session_in_write_transaction resolved (world k t)
  | S attempts =>
      let t := world k t in
      let '(existing, resolved) :=
        if bool_decide (resolved = EmptyString) then
          match get_by_session scan t session_id with
          | Some (c, s) => (Some s, c)
          | None => (None, session_id)
          end
        else (get_by_conversation t resolved, resolved) in
      if bool_decide (existing ≫= current_session_id = Some session_id) then (existing, t)
      else
        let '(t, changed) := execute_bind_plan existing resolved (world (S k) t) in
        if changed then let t := world (S (S k)) t in (get_by_conversation t resolved, t)
        else bind_loop attempts (S (S k)) resolved t
  end.

End bind.

Definition BIND_CAS_ATTEMPTS : nat := 8.

Definition bind_session (scan : lifecycle_table → list (string * LifecycleState))
    (world : nat → lifecycle_table → lifecycle_table) (session_id conversation_id : string) (now : Z)
    (t : lifecycle_table) : option LifecycleState * lifecycle_table :=
  bind_loop session_id now scan world BIND_CAS_ATTEMPTS 0 conversation_id t.

(** One conditional UPDATE. *)
Definition rebind_own_finalized (session_id conversation_id : string) (now : Z) (t : lifecycle_table)
    : option LifecycleState * lifecycle_table :=
  match t !! conversation_id with
  | Some row =>
      if bool_decide (current_session_id row = None)
         && bool_decide (last_finalized_session_id row = Some session_id) && not_reset_since row
      then
        let t := <[conversation_id :=
                     bound_row session_id now (last_finalized_frontier_store_id row) (last_rollover_at row) row]> t in
        (get_by_conversation t conversation_id, t)
      else (None, t)
  | None => (None, t)
  end.

(** ** Ending a session *)

Definition finalized_row (session_id : string) (frontier now : Z) (row : LifecycleState) : LifecycleState :=
  let mine := bool_decide (current_session_id row = Some session_id) in
  {| current_session_id := if mine then None else current_session_id row;
     last_finalized_session_id := Some session_id;
     current_frontier_store_id := if mine then 0 else current_frontier_store_id row;
     last_finalized_frontier_store_id :=
       if bool_decide (last_finalized_session_id row = Some session_id) && not_reset_since row
       then Z.max frontier (last_finalized_frontier_store_id row) else frontier;
     debt_kind := debt_kind row; debt_size_estimate := debt_size_estimate row;
     current_bound_at := current_bound_at row; last_finalized_at := Some now; debt_updated_at := debt_updated_at row;
     last_maintenance_attempt_at := last_maintenance_attempt_at row; last_rollover_at := last_rollover_at row;
     last_reset_at := last_reset_at row; updated_at := now |}.

(** An UPDATE of the row of a conversation. *)
Definition update_row (f : LifecycleState → LifecycleState) (conversation_id : string) (t : lifecycle_table)
    : lifecycle_table :=
  if bool_decide (conversation_id = EmptyString) then t else alter f conversation_id t.

Definition finalize_session (conversation_id session_id : string) (frontier now : Z) (t : lifecycle_table)
    : option LifecycleState * lifecycle_table :=
  if bool_decide (conversation_id = EmptyString) then (None, t)
  else let t := update_row (finalized_row session_id frontier now) conversation_id t in (t !! conversation_id, t).

(** The row [record_rollover] writes over [row], from the state [seen]. *)
Definition rollover_row (old_session new_session : string) (frontier now : Z) (row : option LifecycleState)
    : LifecycleState :=
  {| current_session_id := Some new_session; last_finalized_session_id := Some old_session;
     current_frontier_store_id := 0; last_finalized_frontier_store_id := frontier;
     debt_kind := row ≫= debt_kind; debt_size_estimate := default 0 (debt_size_estimate <$> row);
     current_bound_at := Some now; last_finalized_at := Some now; debt_updated_at := row ≫= debt_updated_at;
     last_maintenance_attempt_at := row ≫= last_maintenance_attempt_at; last_rollover_at := Some now;
     last_reset_at := Some now; updated_at := now |}.

Definition record_rollover (seen : option LifecycleState) (conversation_id old_session new_session : string)
    (finalized_frontier now : Z) (t : lifecycle_table) : lifecycle_table :=
  if bool_decide (seen ≫= current_session_id = Some new_session)
     && bool_decide (seen ≫= last_finalized_session_id = Some old_session)
  then t
  else
    let frontier := Z.max finalized_frontier (default 0 (last_finalized_frontier_store_id <$> seen)) in
    <[conversation_id := rollover_row old_session new_session frontier now (t !! conversation_id)]> t.

(** ** Debt, maintenance and reset *)

Definition with_debt (kind : option string) (size : Z) (reset maintenance : option Z) (debt_at : option Z) (now : Z)
    (row : LifecycleState) : LifecycleState :=
  {| current_session_id := current_session_id row; last_finalized_session_id := last_finalized_session_id row;
     current_frontier_store_id := current_frontier_store_id row;
     last_finalized_frontier_store_id := last_finalized_frontier_store_id row;
     debt_kind := kind; debt_size_estimate := size;
     current_bound_at := current_bound_at row; last_finalized_at := last_finalized_at row; debt_updated_at := debt_at;
     last_maintenance_attempt_at := maintenance; last_rollover_at := last_rollover_at row;
     last_reset_at := reset; updated_at := now |}.

Definition record_debt (conversation_id kind : string) (size now : Z) : lifecycle_table → lifecycle_table :=
  update_row (λ row, with_debt (Some kind) (Z.max 0 size) (last_reset_at row) (last_maintenance_attempt_at row)
                       (Some now) now row) conversation_id.

Definition clear_debt (conversation_id : string) (now : Z) : lifecycle_table → lifecycle_table :=
  update_row (λ row, with_debt None 0 (last_reset_at row) (last_maintenance_attempt_at row) (Some now) now row)
    conversation_id.

Definition record_maintenance_attempt (conversation_id : string) (now : Z) : lifecycle_table → lifecycle_table :=
  update_row (λ row, with_debt (debt_kind row) (debt_size_estimate row) (last_reset_at row) (Some now)
                       (debt_updated_at row) now row) conversation_id.

Definition record_reset (conversation_id : string) (now : Z) : lifecycle_table → lifecycle_table :=
  update_row (λ row, with_debt None 0 (Some now) (last_maintenance_attempt_at row) (Some now) now row) conversation_id.

(** ** Advancing the frontier *)

Definition advanced_row (frontier now : Z) (row : LifecycleState) : LifecycleState :=
  {| current_session_id := current_session_id row; last_finalized_session_id := last_finalized_session_id row;
     current_frontier_store_id := Z.max (current_frontier_store_id row) frontier;
     last_finalized_frontier_store_id := last_finalized_frontier_store_id row;
     debt_kind := debt_kind row; debt_size_estimate := debt_size_estimate row;
     current_bound_at := current_bound_at row; last_finalized_at := last_finalized_at row;
     debt_updated_at := debt_updated_at row; last_maintenance_attempt_at := last_maintenance_attempt_at row;
     last_rollover_at := last_rollover_at row; last_reset_at := last_reset_at row; updated_at := now |}.

(** The UPDATE of both advances: the new table and whether a row was changed. *)
Definition execute_advance (conversation_id session_id : string) (frontier now : Z) (t : lifecycle_table)
    : lifecycle_table * bool :=
  match t !! conversation_id with
  | Some row =>
      if bool_decide (current_session_id row = Some session_id)
      then (<[conversation_id := advanced_row frontier now row]> t, true) else (t, false)
  | None => (t, false)
  end.

(** [seen] is the state read before the statement. *)
Definition advance_frontier (seen : option LifecycleState) (conversation_id session_id : string) (frontier now : Z)
    (t : lifecycle_table) : lifecycle_table :=
  if bool_decide (seen ≫= current_session_id = Some session_id)
  then fst (execute_advance conversation_id session_id frontier now t) else t.

Inductive lifecycle_error := MissingState | BindingChanged.
#[global] Instance lifecycle_error_eq_dec : EqDecision lifecycle_error.
Proof. solve_decision. Defined.

Definition stage_frontier_advance (conversation_id session_id : string) (frontier now : Z) (t : lifecycle_table)
    : result lifecycle_error lifecycle_table :=
  let '(t', changed) := execute_advance conversation_id session_id frontier now t in
  if changed then Ok t'
  else match t !! conversation_id with None => Err MissingState | Some _ => Err BindingChanged end.

(** ** Pruning *)

Section prune.
Variables (has_data : string → bool) (protected : gset string) (max_age_seconds : option Z) (now : Z).

(** [current_bound_at or last_finalized_at or updated_at] *)
Definition row_age (row : LifecycleState) : Z :=
  match current_bound_at row with
  | Some a => if bool_decide (a ≠ 0) then a else
                match last_finalized_at row with
                | Some b => if bool_decide (b ≠ 0) then b else updated_at row
                | None => updated_at row
                end
  | None => match last_finalized_at row with
            | Some b => if bool_decide (b ≠ 0) then b else updated_at row
            | None => updated_at row
            end
  end.

Definition prunable (row : LifecycleState) : bool :=
  let cur := default EmptyString (current_session_id row) in
  let fin := default EmptyString (last_finalized_session_id row) in
  let held s := bool_decide (s ≠ EmptyString) && has_data s in
  let kept s := bool_decide (s ≠ EmptyString) && bool_decide (s ∈ protected) in
  negb (held cur || held fin) && negb (kept cur || kept fin)
  && match max_age_seconds with Some m => negb (bool_decide (now - row_age row < m)) | None => true end.

(** One write transaction; the count of rows deleted. *)
Definition prune_empty_sessions (t : lifecycle_table) : nat * lifecycle_table :=
  (size (filter (λ r, prunable r.2 = true) t), filter (λ r, prunable r.2 = false) t).

End prune.

(** ** Binding: lemmas *)

Definition bound_to (t : lifecycle_table) (conversation_id session_id : string) : Prop :=
  ∃ row, t !! conversation_id = Some row ∧ current_session_id row = Some session_id.

(** What one atomic binding does to the table: the row's own columns decide. *)
Definition binds (session_id : string) (now : Z) (conversation_id : string) (t t' : lifecycle_table) : Prop :=
  match t !! conversation_id with
  | Some row => ∃ rollover, t' = <[conversation_id := bound_row session_id now (resumed_frontier session_id row) rollover row]> t
  | None => t' = <[conversation_id := fresh_row session_id now]> t
  end.

Lemma bind_guard_resumes session_id e row :
  bind_guard e row = true → resumed_frontier session_id e = resumed_frontier session_id row.
Proof.
  unfold bind_guard. rewrite !andb_true_iff, !bool_decide_eq_true. intros ((((Hc & Hf) & Hn) & Ha) & Hr).
  unfold resumed_frontier, not_reset_since. by rewrite Hc, Hf, Hn, Ha, Hr.
Qed.

Lemma bind_guard_refl e : bind_guard e e = true.
Proof. unfold bind_guard. by rewrite !bool_decide_eq_true_2 by done. Qed.

(** However old the read, a write binds as a fresh one would. *)
Lemma execute_bind_plan_binds session_id now existing conversation_id t t' :
  execute_bind_plan session_id now existing conversation_id t = (t', true) → binds session_id now conversation_id t t'.
Proof.
  unfold execute_bind_plan, binds. destruct existing as [e|], (t !! conversation_id) as [row|] eqn:E; try done.
  - destruct (bind_guard e row) eqn:Hg; [|done]. intros [= <-].
    rewrite (bind_guard_resumes session_id e row Hg). by eexists.
  - by intros [= <-].
Qed.

Lemma execute_bind_plan_fails session_id now existing conversation_id t t' :
  execute_bind_plan session_id now existing conversation_id t = (t', false) → t' = t.
Proof.
  unfold execute_bind_plan. destruct existing as [e|], (t !! conversation_id) as [row|]; try (by intros [= <-]).
  destruct (bind_guard e row); [done|by intros [= <-]].
Qed.

Lemma execute_bind_plan_fresh session_id now conversation_id t :
  ∃ t', execute_bind_plan session_id now (t !! conversation_id) conversation_id t = (t', true).
Proof.
  unfold execute_bind_plan. destruct (t !! conversation_id) as [row|]; [|by eexists].
  rewrite bind_guard_refl. by eexists.
Qed.

Lemma binds_bound session_id now conversation_id t t' :
  binds session_id now conversation_id t t' → bound_to t' conversation_id session_id.
Proof.
  unfold binds. destruct (t !! conversation_id) as [row|]; [intros [ro ->]|intros ->];
    eexists; (split; [apply lookup_insert_eq|done]).
Qed.

Lemma binds_other session_id now conversation_id t t' c :
  binds session_id now conversation_id t t' → c ≠ conversation_id → t' !! c = t !! c.
Proof.
  unfold binds. intros H Hc. destruct (t !! conversation_id) as [row|]; [destruct H as [ro ->]|subst t'];
    by rewrite lookup_insert_ne.
Qed.

(** The state a binding finds or writes. *)
Lemma binds_row session_id now conversation_id t t' :
  binds session_id now conversation_id t t' →
  ∃ row', t' !! conversation_id = Some row' ∧ current_session_id row' = Some session_id ∧
    current_frontier_store_id row' = match t !! conversation_id with Some row => resumed_frontier session_id row | None => 0 end.
Proof.
  unfold binds. destruct (t !! conversation_id) as [row|]; [intros [ro ->]|intros ->];
    eexists; (split; [apply lookup_insert_eq|done]).
Qed.

(** ** Steps of several processes *)

(** Statements any process may commit, in any order.  Reads are earlier and
    arbitrary: they appear as free arguments.  [record_rollover] has no caller. *)
Inductive lifecycle_step : lifecycle_table → lifecycle_table → Prop :=
| step_bind s now seen c t :
    seen ≫= current_session_id ≠ Some s → lifecycle_step t (fst (execute_bind_plan s now seen c t))
| step_bind_transaction s now c t : lifecycle_step t (snd (bind_session_in_write_transaction s now c t))
| step_rebind s c now t : lifecycle_step t (snd (rebind_own_finalized s c now t))
| step_finalize c s f now t : lifecycle_step t (snd (finalize_session c s f now t))
| step_debt c kind size now t : lifecycle_step t (record_debt c kind size now t)
| step_clear c now t : lifecycle_step t (clear_debt c now t)
| step_maintenance c now t : lifecycle_step t (record_maintenance_attempt c now t)
| step_reset c now t : lifecycle_step t (record_reset c now t)
| step_advance seen c s f now t : lifecycle_step t (advance_frontier seen c s f now t)
| step_stage c s f now t t' : stage_frontier_advance c s f now t = Ok t' → lifecycle_step t t'
| step_prune has_data protected age now t : lifecycle_step t (snd (prune_empty_sessions has_data protected age now t)).

(** [f] keeps what a row is bound to and never lowers its frontier. *)
Definition keeps_frontier (s : string) (f : LifecycleState → LifecycleState) : Prop :=
  ∀ row, current_session_id row = Some s → current_session_id (f row) = Some s →
    current_frontier_store_id row <= current_frontier_store_id (f row).

Lemma update_row_frontier f conversation_id t c s row row' :
  keeps_frontier s f → t !! c = Some row → update_row f conversation_id t !! c = Some row' →
  current_session_id row = Some s → current_session_id row' = Some s →
  current_frontier_store_id row <= current_frontier_store_id row'.
Proof.
  intros Hf E. unfold update_row. case_bool_decide; [by rewrite E; intros [= <-]|].
  destruct (decide (c = conversation_id)) as [->|Hne].
  - rewrite lookup_alter_eq, E. intros [= <-]. apply Hf.
  - rewrite lookup_alter_ne by done. rewrite E. intros [= <-]. lia.
Qed.

Lemma execute_advance_frontier conversation_id session_id f now t c s row row' :
  t !! c = Some row → fst (execute_advance conversation_id session_id f now t) !! c = Some row' →
  current_session_id row = Some s → current_session_id row' = Some s →
  current_frontier_store_id row <= current_frontier_store_id row'.
Proof.
  intros E. unfold execute_advance. destruct (t !! conversation_id) as [r|] eqn:Er; cbn [fst];
    [|rewrite E; intros [= <-]; lia].
  case_bool_decide; cbn [fst]; [|rewrite E; intros [= <-]; lia].
  destruct (decide (c = conversation_id)) as [->|Hne].
  - rewrite lookup_insert_eq. intros [= <-]. rewrite E in Er. injection Er as ->. cbn. lia.
  - rewrite lookup_insert_ne by done. rewrite E. intros [= <-]. lia.
Qed.

Lemma stage_frontier_advance_Ok c s f now t t' :
  stage_frontier_advance c s f now t = Ok t' →
  ∃ row, t !! c = Some row ∧ current_session_id row = Some s ∧ t' = <[c := advanced_row f now row]> t.
Proof.
  unfold stage_frontier_advance, execute_advance. destruct (t !! c) as [row|] eqn:E; [|done].
  case_bool_decide; [|done]. intros [= <-]. by exists row.
Qed.

(** A statement that binds found the row unbound, or bound to another session. *)
Lemma binds_frontier session_id now conversation_id t t' c s row row' :
  binds session_id now conversation_id t t' →
  (∀ r, t !! conversation_id = Some r → current_session_id r ≠ Some session_id) →
  t !! c = Some row → t' !! c = Some row' → current_session_id row = Some s → current_session_id row' = Some s →
  current_frontier_store_id row <= current_frontier_store_id row'.
Proof.
  intros Hb Hne E E' Hs Hs'. destruct (decide (c = conversation_id)) as [->|Hc].
  - destruct (binds_row _ _ _ _ _ Hb) as (r & Hr & Hcur & _). rewrite E' in Hr. injection Hr as <-.
    rewrite Hs' in Hcur. injection Hcur as ->. by destruct (Hne row E).
  - rewrite (binds_other _ _ _ _ _ _ Hb Hc), E in E'. injection E' as <-. lia.
Qed.

Lemma execute_bind_plan_frontier session_id now seen conversation_id t c s row row' :
  seen ≫= current_session_id ≠ Some session_id →
  t !! c = Some row → fst (execute_bind_plan session_id now seen conversation_id t) !! c = Some row' →
  current_session_id row = Some s → current_session_id row' = Some s →
  current_frontier_store_id row <= current_frontier_store_id row'.
Proof.
  intros Hseen E E' Hs Hs'. destruct (execute_bind_plan session_id now seen conversation_id t) as [t' []] eqn:Ex; cbn in E'.
  - pose proof (execute_bind_plan_binds _ _ _ _ _ _ Ex) as Hb.
    eapply binds_frontier; [exact Hb| |exact E|exact E'|exact Hs|exact Hs']. intros r Hr Hcur. apply Hseen.
    unfold execute_bind_plan in Ex. rewrite Hr in Ex. destruct seen as [e|]; [|done].
    destruct (bind_guard e r) eqn:Hg; [|done]. unfold bind_guard in Hg. rewrite !andb_true_iff, !bool_decide_eq_true in Hg.
    destruct Hg as ((((Hc & _) & _) & _) & _). cbn. by rewrite <-Hc.
  - apply execute_bind_plan_fails in Ex as ->. rewrite E in E'. injection E' as <-. lia.
Qed.

Lemma lifecycle_step_frontier t t' c s row row' :
  lifecycle_step t t' → t !! c = Some row → t' !! c = Some row' →
  current_session_id row = Some s → current_session_id row' = Some s →
  current_frontier_store_id row <= current_frontier_store_id row'.
Proof.
  intros Hstep E E' Hs Hs'. destruct Hstep.
  - by eapply execute_bind_plan_frontier.
  - unfold bind_session_in_write_transaction in E'. case_bool_decide as Hb; case_match; cbn [snd] in E';
      first [rewrite E in E'; injection E' as <-; lia
            |exact (execute_bind_plan_frontier _ _ _ _ _ _ _ _ _ Hb E E' Hs Hs')].
  - unfold rebind_own_finalized in E'. destruct (t !! c0) as [r|] eqn:Er; cbn [snd] in E'; [|simplify_eq; lia].
    destruct (bool_decide (current_session_id r = None) && _ && _) eqn:Hg; cbn [snd] in E'; [|simplify_eq; lia].
    apply andb_true_iff in Hg as [[Hn _]%andb_true_iff _]. apply bool_decide_eq_true in Hn.
    destruct (decide (c = c0)) as [->|Hne]; [congruence|].
    rewrite lookup_insert_ne in E' by done. simplify_eq. lia.
  - unfold finalize_session in E'. case_bool_decide; cbn [snd] in E'; [simplify_eq; lia|].
    apply (update_row_frontier (finalized_row s0 f now) c0 t c s); [|done..]. clear. intros row Hr Hr'. cbn in *.
    case_bool_decide; [done|]. lia.
  - unfold record_debt in E'. eapply (update_row_frontier _ _ t c s); [|done..]. intros r _ _; cbn; lia.
  - unfold clear_debt in E'. eapply (update_row_frontier _ _ t c s); [|done..]. intros r _ _; cbn; lia.
  - unfold record_maintenance_attempt in E'. eapply (update_row_frontier _ _ t c s); [|done..]. intros r _ _; cbn; lia.
  - unfold record_reset in E'. eapply (update_row_frontier _ _ t c s); [|done..]. intros r _ _; cbn; lia.
  - unfold advance_frontier in E'. case_bool_decide; [|simplify_eq; lia]. by eapply execute_advance_frontier.
  - unfold stage_frontier_advance in H.
    destruct (execute_advance c0 s0 f now t) as [t1 []] eqn:Ex; [|by destruct (t !! c0)].
    injection H as <-. apply (execute_advance_frontier c0 s0 f now t c s); [done|by rewrite Ex|done..].
  - cbn [snd prune_empty_sessions] in E'. apply map_lookup_filter_Some in E' as [E' _]. simplify_eq. lia.
Qed.

(** The table while a conversation stays bound to a session. *)
Definition bound_step (c s : string) (t t' : lifecycle_table) : Prop :=
  lifecycle_step t t' ∧ bound_to t c s ∧ bound_to t' c s.

(** Tables the other processes can leave between two statements. *)
Definition only_others (world : nat → lifecycle_table → lifecycle_table) : lifecycle_table → lifecycle_table → Prop :=
  rtc (λ a b, ∃ k, b = world k a).

Lemma bind_transaction_binds session_id now c t :
  c ≠ EmptyString →
  let r := bind_session_in_write_transaction session_id now c t in
  r.1 = r.2 !! c ∧ ((bound_to t c session_id ∧ r.2 = t) ∨ binds session_id now c t r.2).
Proof.
  intros Hc. cbv zeta. unfold bind_session_in_write_transaction, get_by_conversation.
  rewrite !(bool_decide_eq_false_2 (c = EmptyString)) by done. case_bool_decide as Hb.
  - destruct (t !! c) as [row|] eqn:E; [|done]. cbn. split; [by rewrite E|]. left. split; [|done]. by exists row.
  - destruct (execute_bind_plan_fresh session_id now c t) as [t' Ht']. rewrite Ht'. cbn [fst].
    apply execute_bind_plan_binds in Ht'. destruct (binds_row _ _ _ _ _ Ht') as (row & E & _).
    rewrite E. cbn. split; [done|by right].
Qed.

(** How a bind left the table: it found the session bound, or made one binding. *)
Definition bound_once (session_id : string) (now : Z) (c : string) (world : nat → lifecycle_table → lifecycle_table)
    (t : lifecycle_table) (r : option LifecycleState * lifecycle_table) : Prop :=
  ∃ t0, only_others world t t0 ∧
    ((bound_to t0 c session_id ∧ r = (t0 !! c, t0)) ∨
     ∃ t1 t2, binds session_id now c t0 t1 ∧ only_others world t1 t2 ∧ r = (t2 !! c, t2)).

Lemma bind_loop_once session_id now scan world c attempts : c ≠ EmptyString → ∀ k t,
  bound_once session_id now c world t (bind_loop session_id now scan world attempts k c t).
Proof.
  intros Hc. induction attempts as [|attempts IH]; intros k t; cbn [bind_loop].
  - exists (world k t). split; [apply rtc_once; by exists k|].
    destruct (bind_transaction_binds session_id now c (world k t) Hc) as [Hr H].
    destruct (bind_session_in_write_transaction session_id now c (world k t)) as [o t1]. cbn in Hr, H. subst o.
    destruct H as [[Hb ->]|Hb]; [by left|right]. exists t1, t1. by repeat split.
  - unfold get_by_conversation. rewrite (bool_decide_eq_false_2 (c = EmptyString)) by done.
    case_bool_decide as Hb.
    { exists (world k t). split; [apply rtc_once; by exists k|]. left. split; [|done].
      destruct (world k t !! c) as [row|] eqn:E; [|done]. by exists row. }
    assert (only_others world t (world (S k) (world k t))) as Hw.
    { eapply rtc_l; [by exists k|]. apply rtc_once. by exists (S k). }
    destruct (execute_bind_plan session_id now (world k t !! c) c (world (S k) (world k t))) as [t1 []] eqn:Ex.
    + exists (world (S k) (world k t)). split; [done|]. right. exists t1, (world (S (S k)) t1).
      split; [by eapply execute_bind_plan_binds|]. split; [apply rtc_once; by exists (S (S k))|].
      by rewrite (bool_decide_eq_false_2 (c = EmptyString)) by done.
    + apply execute_bind_plan_fails in Ex as ->.
      destruct (IH (S (S k)) (world (S k) (world k t))) as (t0 & Ht0 & Hr).
      exists t0. split; [by etransitivity|done].
Qed.

Lemma only_others_alone t t' : only_others (λ _ t, t) t t' → t' = t.
Proof. induction 1 as [|a b d [k Hb] _ IH]; [done|]. by rewrite IH. Qed.

(** No other process writes between the statements. *)
Definition alone : nat → lifecycle_table → lifecycle_table := λ _ t, t.

Lemma bind_alone scan session_id c now t row :
  c ≠ EmptyString → t !! c = Some row → current_session_id row ≠ Some session_id →
  ∃ row', bind_session scan alone session_id c now t = (Some row', <[c := row']> t) ∧
    row' = bound_row session_id now (resumed_frontier session_id row) (rollover_at session_id now row) row.
Proof.
  intros Hc E Hne. eexists. split; [|reflexivity]. unfold bind_session, alone. cbn [bind_loop BIND_CAS_ATTEMPTS].
  unfold get_by_conversation. rewrite !(bool_decide_eq_false_2 (c = EmptyString)), E by done. cbn [mbind option_bind].
  rewrite (bool_decide_eq_false_2 (current_session_id row = Some session_id)) by done.
  unfold execute_bind_plan. rewrite E, bind_guard_refl.
  by rewrite ?(bool_decide_eq_false_2 (c = EmptyString)), lookup_insert_eq by done.
Qed.

(** The frontier of the state a bind returns. *)
Definition bound_frontier (r : option LifecycleState * lifecycle_table) : option Z := current_frontier_store_id <$> r.1.

Lemma bind_alone_frontier scan session_id c now t row :
  c ≠ EmptyString → t !! c = Some row → current_session_id row ≠ Some session_id →
  bound_frontier (bind_session scan alone session_id c now t) = Some (resumed_frontier session_id row).
Proof. intros Hc E Hne. destruct (bind_alone scan session_id c now t row Hc E Hne) as (? & -> & ->). done. Qed.

Lemma rebind_frontier session_id c now t row :
  c ≠ EmptyString → t !! c = Some row → current_session_id row = None →
  last_finalized_session_id row = Some session_id → not_reset_since row = true →
  bound_frontier (rebind_own_finalized session_id c now t) = Some (last_finalized_frontier_store_id row).
Proof.
  intros Hc E Hn Hf Hr. unfold rebind_own_finalized. rewrite E, Hn, Hf, Hr, !bool_decide_eq_true_2 by done. cbn [andb].
  unfold get_by_conversation. by rewrite (bool_decide_eq_false_2 (c = EmptyString)), lookup_insert_eq by done.
Qed.

Lemma finalize_lookup c session_id frontier now t row :
  c ≠ EmptyString → t !! c = Some row →
  (finalize_session c session_id frontier now t).2 !! c = Some (finalized_row session_id frontier now row).
Proof.
  intros Hc E. unfold finalize_session, update_row. rewrite !(bool_decide_eq_false_2 (c = EmptyString)) by done. cbn [snd].
  by rewrite lookup_alter_eq, E.
Qed.

Lemma reset_lookup c now t row :
  c ≠ EmptyString → t !! c = Some row →
  record_reset c now t !! c =
    Some (with_debt None 0 (Some now) (last_maintenance_attempt_at row) (Some now) now row).
Proof.
  intros Hc E. unfold record_reset, update_row. rewrite (bool_decide_eq_false_2 (c = EmptyString)) by done.
  by rewrite lookup_alter_eq, E.
Qed.

(** The sessions a row names. *)
Definition named_by (row : LifecycleState) (s : string) : Prop :=
  s ≠ EmptyString ∧ (current_session_id row = Some s ∨ last_finalized_session_id row = Some s).

Lemma none_named (p : string → bool) row :
  (bool_decide (default EmptyString (current_session_id row) ≠ EmptyString) && p (default EmptyString (current_session_id row))
   || bool_decide (default EmptyString (last_finalized_session_id row) ≠ EmptyString)
      && p (default EmptyString (last_finalized_session_id row))) = false
  ↔ ∀ s, named_by row s → p s = false.
Proof.
  unfold named_by. rewrite orb_false_iff, !andb_false_iff, !bool_decide_eq_false. split.
  - intros [H1 H2] s [Hs [H|H]]; [rewrite H in H1|rewrite H in H2]; cbn in *; tauto.
  - intros H. split.
    + destruct (current_session_id row) as [s|]; cbn; [|left; by intros []].
      destruct (decide (s = EmptyString)) as [->|]; [left; by intros []|]. right. apply H. auto.
    + destruct (last_finalized_session_id row) as [s|]; cbn; [|left; by intros []].
      destruct (decide (s = EmptyString)) as [->|]; [left; by intros []|]. right. apply H. auto.
Qed.

Lemma prunable_iff has_data protected max_age now row :
  prunable has_data protected max_age now row = true ↔
  (∀ s, named_by row s → has_data s = false ∧ s ∉ protected) ∧ (∀ m, max_age = Some m → m <= now - row_age row).
Proof.
  pose proof (none_named has_data row) as Hd. pose proof (none_named (λ s, bool_decide (s ∈ protected)) row) as Hp.
  cbv beta in Hp. unfold prunable. cbv zeta. rewrite !andb_true_iff, !negb_true_iff, Hd, Hp.
  assert (match max_age with Some m => negb (bool_decide (now - row_age row < m)) | None => true end = true
          ↔ ∀ m, max_age = Some m → m <= now - row_age row) as ->.
  { destruct max_age as [m|]; [|done]. rewrite negb_true_iff, bool_decide_eq_false.
    split; [intros ? m' [= <-]; lia|intros H; specialize (H m eq_refl); lia]. }
  setoid_rewrite bool_decide_eq_false. clear. naive_solver.
Qed.

(** ** Properties *)

(** Binding a session to a conversation, whatever other processes commit
    between its statements and however often its write loses the race: it ends
    having found the session bound or having made exactly one binding, which is
    the one a fresh read would make, so a stale read never overwrites a newer
    write; alone it always returns the bound row. *)
Theorem bind_session_once scan world session_id c now t :
  c ≠ EmptyString →
  bound_once session_id now c world t (bind_session scan world session_id c now t) ∧
  ∃ row t', bind_session scan (λ _ t, t) session_id c now t = (Some row, t') ∧
    t' !! c = Some row ∧ current_session_id row = Some session_id ∧ (∀ c', c' ≠ c → t' !! c' = t !! c').
Proof.
  intros Hc. split; [by apply bind_loop_once|].
  destruct (bind_loop_once session_id now scan (λ _ t, t) c BIND_CAS_ATTEMPTS Hc 0 t) as (t0 & Ht0 & H).
  apply only_others_alone in Ht0 as ->. destruct H as [[(row & E & Hcur) Hr]|(t1 & t2 & Hb & Ht2 & Hr)].
  - exists row, t. unfold bind_session. rewrite Hr, E. by split_and!.
  - apply only_others_alone in Ht2 as ->. destruct (binds_row _ _ _ _ _ Hb) as (row & E & Hcur & _).
    exists row, t1. unfold bind_session. rewrite Hr, E. split_and!; [done..|].
    intros c' Hc'. by eapply binds_other.
Qed.

(** A session that ended and binds again resumes the frontier its end
    recorded, which is never below that of its earlier ends unless the
    conversation was reset in between, through either way of rebinding; another
    session starts at 0, and so does the same one after a reset later than its
    end. *)
Theorem finalize_then_bind scan c session_id other frontier ended reset_at now row t :
  c ≠ EmptyString → t !! c = Some row → current_session_id row = Some session_id →
  default ended (last_reset_at row) <= ended → ended < reset_at → other ≠ session_id →
  let t1 := (finalize_session c session_id frontier ended t).2 in
  let earlier := if bool_decide (last_finalized_session_id row = Some session_id) && not_reset_since row
                 then Z.max frontier (last_finalized_frontier_store_id row) else frontier in
  bound_frontier (bind_session scan alone session_id c now t1) = Some earlier ∧
  bound_frontier (rebind_own_finalized session_id c now t1) = Some earlier ∧
  bound_frontier (bind_session scan alone other c now t1) = Some 0 ∧
  bound_frontier (bind_session scan alone session_id c now (record_reset c reset_at t1)) = Some 0.
Proof.
  intros Hc E Hcur Hr Hreset Hother. cbv zeta.
  pose proof (finalize_lookup c session_id frontier ended t row Hc E) as E1.
  set (row1 := finalized_row session_id frontier ended row) in *.
  assert (current_session_id row1 = None) as Hn.
  { cbn. by rewrite bool_decide_eq_true_2 by done. }
  assert (not_reset_since row1 = true) as Hnr.
  { unfold not_reset_since. cbn. destruct (last_reset_at row); [|done]. by apply bool_decide_eq_true_2. }
  split_and!.
  - rewrite (bind_alone_frontier _ _ _ _ _ row1) by (try done; by rewrite Hn). unfold resumed_frontier.
    by rewrite Hn, Hnr, !bool_decide_eq_true_2 by done.
  - by rewrite (rebind_frontier _ _ _ _ row1).
  - rewrite (bind_alone_frontier _ _ _ _ _ row1) by (try done; by rewrite Hn). unfold resumed_frontier.
    rewrite (bool_decide_eq_false_2 (last_finalized_session_id row1 = Some other)) by (cbn; congruence).
    by rewrite andb_false_r.
  - rewrite (bind_alone_frontier _ _ _ _ _ _ Hc (reset_lookup c reset_at _ _ Hc E1)) by (cbn [with_debt current_session_id]; by rewrite Hn).
    unfold resumed_frontier, not_reset_since. cbn [with_debt last_reset_at last_finalized_at finalized_row default row1].
    by rewrite (bool_decide_eq_false_2 (reset_at <= ended)), andb_false_r by lia.
Qed.

(** C30: while a conversation stays bound to a session, no sequence of statements
    of any processes lowers its frontier, whatever they read before; a staged
    advance reaches the frontier it was given. *)
Theorem frontier_monotone c s t t' row row' :
  rtc (bound_step c s) t t' → t !! c = Some row → t' !! c = Some row' →
  current_frontier_store_id row <= current_frontier_store_id row' ∧
  ∀ f now t'' row'', stage_frontier_advance c s f now t' = Ok t'' → t'' !! c = Some row'' →
    Z.max f (current_frontier_store_id row) <= current_frontier_store_id row''.
Proof.
  intros Hrtc E E'.
  assert (current_frontier_store_id row <= current_frontier_store_id row') as Hle.
  { revert row E. induction Hrtc as [t|t t1 t' (Hstep & (r & Er & Hr) & (r1 & Er1 & Hr1)) _ IH]; intros row E.
    - rewrite E in E'. injection E' as ->. lia.
    - rewrite E in Er. injection Er as <-. pose proof (lifecycle_step_frontier _ _ _ _ _ _ Hstep E Er1 Hr Hr1).
      specialize (IH E' _ Er1). lia. }
  split; [done|]. intros f now t'' row''. unfold stage_frontier_advance, execute_advance. rewrite E'.
  case_bool_decide; [|done]. intros [= <-]. rewrite lookup_insert_eq. intros [= <-]. cbn. lia.
Qed.

(** Pruning keeps every row it does not delete as it was, and deletes exactly
    the rows none of whose sessions has a message or a node or is protected and
    which, when an age is given, are at least that old. *)
Theorem prune_spec has_data protected max_age now t c row :
  t !! c = Some row →
  let deletable := (∀ s, named_by row s → has_data s = false ∧ s ∉ protected) ∧
                   (∀ m, max_age = Some m → m <= now - row_age row) in
  ((prune_empty_sessions has_data protected max_age now t).2 !! c = None ↔ deletable) ∧
  ((prune_empty_sessions has_data protected max_age now t).2 !! c = Some row ↔ ¬ deletable).
Proof.
  intros E. cbv zeta. rewrite <-(prunable_iff has_data protected max_age now row).
  unfold prune_empty_sessions. cbn [snd]. rewrite map_lookup_filter, E. cbn [mbind option_bind].
  case_guard as Hg; cbn [mbind option_bind mret option_ret]; cbn in Hg.
  - rewrite Hg. intuition congruence.
  - apply not_false_iff_true in Hg. rewrite Hg. clear. naive_solver.
Qed.

(** ** Witnesses *)

Section example.
(** SQLite visits the rows by key here. *)
#[local] Definition by_key (t : lifecycle_table) : list (string * LifecycleState) := map_to_list t.

(** The conversation c, bound to A at frontier 40 by two earlier statements. *)
#[local] Definition empty_table : lifecycle_table := ∅.
#[local] Definition opened : lifecycle_table := (bind_session by_key alone "A" "c" 10 empty_table).2.
#[local] Definition compacted : lifecycle_table :=
  advance_frontier (opened !! "c"%string) "c" "A" 40 20 opened.
#[local] Definition bound_A : LifecycleState := fresh_row "A" 10.
#[local] Definition advanced_A : LifecycleState := advanced_row 40 20 bound_A.
End example.

Example bind_session_once_witness :
  bind_session by_key (λ k t, if decide (k = 1%nat) then (bind_session by_key alone "B" "c" 5 t).2 else t)
    "A" "c" 10 empty_table = (Some (bound_row "A" 10 0 (Some 10) (fresh_row "B" 5)),
                             {["c"%string := bound_row "A" 10 0 (Some 10) (fresh_row "B" 5)]}) ∧
  bound_once "A" 10 "c" alone empty_table (bind_session by_key alone "A" "c" 10 empty_table).
Proof.
  split; [vm_compute; reflexivity|]. apply (bind_session_once by_key alone "A" "c" 10 empty_table). by vm_compute.
Defined.

Lemma compacted_row : compacted !! "c"%string = Some advanced_A.
Proof. vm_compute. reflexivity. Qed.

Example finalize_then_bind_witness :
  bound_frontier (bind_session by_key alone "A" "c" 50 (finalize_session "c" "A" 40 30 compacted).2) = Some 40 ∧
  bound_frontier (rebind_own_finalized "A" "c" 50 (finalize_session "c" "A" 40 30 compacted).2) = Some 40 ∧
  bound_frontier (bind_session by_key alone "B" "c" 50 (finalize_session "c" "A" 40 30 compacted).2) = Some 0 ∧
  bound_frontier (bind_session by_key alone "A" "c" 50
                    (record_reset "c" 45 (finalize_session "c" "A" 40 30 compacted).2)) = Some 0.
Proof.
  apply (finalize_then_bind by_key "c" "A" "B" 40 30 45 50 advanced_A compacted);
    [by vm_compute|apply compacted_row|vm_compute; reflexivity|by vm_compute|lia|by vm_compute].
Defined.

Example frontier_monotone_witness :
  current_frontier_store_id bound_A <= current_frontier_store_id advanced_A ∧
  ∀ f now t'' row'', stage_frontier_advance "c" "A" f now compacted = Ok t'' → t'' !! "c"%string = Some row'' →
    Z.max f (current_frontier_store_id bound_A) <= current_frontier_store_id row''.
Proof.
  apply (frontier_monotone "c" "A" opened compacted bound_A advanced_A);
    [|vm_compute; reflexivity|apply compacted_row].
  apply rtc_once. split; [apply step_advance|]. split; [exists bound_A|exists advanced_A]; split; vm_compute; reflexivity.
Defined.

Example prune_spec_witness :
  ((prune_empty_sessions (λ _, false) {["B"%string]} (Some 5) 100 compacted).2 !! "c"%string = None ↔
     (∀ s, named_by advanced_A s → false = false ∧ s ∉ ({["B"%string]} : gset string)) ∧
     (∀ m, Some 5 = Some m → m <= 100 - row_age advanced_A)) ∧
  (prune_empty_sessions (λ _, false) {["B"%string]} (Some 5) 100 compacted).1 = 1%nat.
Proof.
  split; [|vm_compute; reflexivity].
  apply (prune_spec (λ _, false) {["B"%string]} (Some 5) 100 compacted "c" advanced_A). apply compacted_row.
Defined.
