(* ===== verification/Publication.v ===== *)
(** Publishing a summary of message rows (compaction.py [_publish_leaf_node],
    dag.py [add_node], lifecycle_state.py [stage_compaction_publication]): one
    write transaction inserts the node, proves that it accounts for every row the
    conversation owns between the frontier it expects and the last row it covers,
    and advances the frontier; an exception rolls all of it back.

    Tables are finite maps by their integer keys.  A set of store ids is a [gset]
    where the code sorts one.  Times are integers. *)

From S2P Require Import Prelude PyText Lifecycle.
From stdpp Require Import options.

#[local] Open Scope Z_scope.

(** ** The tables of one database file *)

(** The columns of [messages] that publication reads. *)
Record message_row := {
  message_session_id : string; message_conversation_id : option string; content : option string; role : string;
  tool_call_id : option string; tool_calls : option string; tool_name : option string }.

Record SummaryNode := {
  session_id : string; depth : Z; summary : string; token_count : Z; source_token_count : Z;
  source_ids : list Z; source_type : string; created_at : Z;
  earliest_at : option Z; latest_at : option Z; expand_hint : string }.

(** [node_sequence] is the last [node_id] AUTOINCREMENT gave out,
    [message_sequence] the last [store_id]. *)
Record database := {
  lifecycle : lifecycle_table; messages : gmap Z message_row; message_sequence : Z;
  summary_nodes : gmap Z SummaryNode; summary_node_provenance : gmap Z (Z * string * Z); node_sequence : Z }.

Definition set_lifecycle (t : lifecycle_table) (db : database) : database :=
  {| lifecycle := t; messages := messages db; message_sequence := message_sequence db;
     summary_nodes := summary_nodes db; summary_node_provenance := summary_node_provenance db;
     node_sequence := node_sequence db |}.

(** ** The conversation a row belongs to *)

(** [str(value or "").strip()] *)
Definition normalized (value : option string) : string := strip (default EmptyString value).

(** [value is None or str(value) != str(value).strip()] *)
Definition unnormalized (value : option string) : bool :=
  match value with None => true | Some s => bool_decide (s ≠ strip s) end.

(** [SELECT DISTINCT conversation_id FROM messages] *)
Definition stored_conversation_ids (ms : gmap Z message_row) : list (option string) :=
  remove_dups ((λ r : Z * message_row, message_conversation_id r.2) <$> map_to_list ms).

(** The probe's map, as the list at each key. *)
Definition refresh_legacy_conversation_ids (ms : gmap Z message_row) (key : string) : list (option string) :=
  filter (λ value, unnormalized value = true ∧ normalized value = key) (stored_conversation_ids ms).

(** [legacy] is the map cached for the store. *)
Definition owned_conversation_values (legacy : string → list (option string)) (conversation_id : string)
    : list (option string) :=
  let wanted := remove_dups [strip conversation_id; EmptyString] in
  (Some <$> wanted) ++ wanted ≫= legacy.

(** ** What a publication claims *)

Record claim := {
  expected_frontier_store_id : Z;
  covered_store_ids : list Z; excluded_store_ids : list Z;
  filter_exclusion_proofs : gmap Z (option string);
  carried_ranges : list (string * Z * Z);
  copy_exclusion_proofs : gmap Z Z }.

Inductive conflict :=
| NoDurableCoverage | OverlapsExclusion | CopyProofNotExcluded | OwnershipChanged | FilterExclusionChanged
| CopyExclusionChanged | NotContiguous | AlreadyClaimed | FrontierGenerationChanged.

Inductive publication_error := PublicationConflict (why : conflict) | Lifecycle_error (e : lifecycle_error) | PromotionRejected.

Section claim.
Variable p : claim.

Definition expected_frontier : Z := Z.max 0 (expected_frontier_store_id p).
Definition all_covered_ids : gset Z := list_to_set (filter (λ i, 0 < i) (covered_store_ids p)).
Definition covered_end : Z := foldr Z.max expected_frontier (elements all_covered_ids).
Definition covered_ids : gset Z := filter (λ i, expected_frontier < i) all_covered_ids.
Definition excluded_ids : gset Z :=
  list_to_set (filter (λ i, expected_frontier < i ∧ i <= covered_end) (excluded_store_ids p)).
Definition copy_proofs : gmap Z Z :=
  filter (λ ct : Z * Z, expected_frontier < ct.1 ∧ ct.1 <= covered_end) (copy_exclusion_proofs p).
Definition allowed_carry_ranges : list (string * Z * Z) :=
  filter (λ r : string * Z * Z, r.1.1 ≠ EmptyString ∧ 0 <= r.1.2 ∧ r.1.2 < r.2) (carried_ranges p).

Definition row_is_owned (session : string) (store_id : Z) (row : message_row) : bool :=
  bool_decide (message_session_id row = session)
  || existsb (λ r : string * Z * Z, bool_decide (message_session_id row = r.1.1)
                                    && bool_decide (r.1.2 < store_id) && bool_decide (store_id <= r.2))
       allowed_carry_ranges.

Definition twin_ids : gset Z := list_to_set (snd <$> map_to_list copy_proofs).
Definition snapshot_ids : gset Z := all_covered_ids ∪ excluded_ids ∪ dom (filter_exclusion_proofs p) ∪ twin_ids.

(** The ranges of rows the publication must account for. *)
Definition owned_ranges (session : string) : list (string * Z * Z) :=
  (session, expected_frontier, covered_end)
  :: ((λ r : string * Z * Z, (r.1.1, Z.max expected_frontier r.1.2, Z.min covered_end r.2)) <$>
        filter (λ r : string * Z * Z, Z.max expected_frontier r.1.2 < Z.min covered_end r.2) allowed_carry_ranges).

Definition in_ranges (session : string) (store_id : Z) (row : message_row) : bool :=
  existsb (λ r : string * Z * Z, bool_decide (message_session_id row = r.1.1)
                                 && bool_decide (r.1.2 < store_id) && bool_decide (store_id <= r.2))
    (owned_ranges session).

End claim.

(** The rows a node of messages summarizes. *)
Definition summarizes (node : SummaryNode) (store_id : Z) : Prop :=
  source_type node = "messages"%string ∧ store_id ∈ source_ids node.
#[global] Instance summarizes_dec node store_id : Decision (summarizes node store_id).
Proof. unfold summarizes. apply _. Defined.

Section stage.
Variables (legacy : string → list (option string)) (conversation session : string) (p : claim).

(** [authoritative_ids] *)
Definition authoritative_ids (ms : gmap Z message_row) : gset Z :=
  dom (filter (λ r : Z * message_row,
                 in_ranges p session r.1 r.2 = true
                 ∧ message_conversation_id r.2 ∈ owned_conversation_values legacy conversation) ms).

(** [tuple(row[3:])] *)
Definition row_content (row : message_row) : option string * string * option string * option string * option string :=
  (content row, role row, tool_call_id row, tool_calls row, tool_name row).

Definition snapshot_owned (ms : gmap Z message_row) : bool :=
  forallb (λ i, match ms !! i with Some row => row_is_owned p session i row | None => false end)
    (elements (snapshot_ids p)).

Definition snapshot_conversation (ms : gmap Z message_row) : bool :=
  forallb (λ i, match ms !! i with
                | Some row => bool_decide (normalized (message_conversation_id row) ∈ [EmptyString; conversation])
                | None => false end) (elements (snapshot_ids p)).

Definition filter_exclusion_changed (ms : gmap Z message_row) : bool :=
  existsb (λ r : Z * option string, bool_decide ((content <$> ms !! r.1) ≠ Some r.2))
    (map_to_list (filter_exclusion_proofs p)).

(** Twins that some node of messages, of any session, summarizes. *)
Definition node_covered (nodes : gmap Z SummaryNode) (store_id : Z) : bool :=
  bool_decide (Exists (λ n : Z * SummaryNode, summarizes n.2 store_id) (map_to_list nodes)).

Definition copy_exclusion_changed (db : database) : bool :=
  existsb (λ r : Z * Z,
    let '(copy, twin) := r in
    bool_decide (copy <= twin)
    || bool_decide (row_content <$> messages db !! copy ≠ row_content <$> messages db !! twin)
    || negb (node_covered (summary_nodes db) twin)) (map_to_list (copy_proofs p)).

Definition already_claimed (node_id : Z) (nodes : gmap Z SummaryNode) : bool :=
  bool_decide (Exists (λ n : Z * SummaryNode,
    session_id n.2 = session ∧ n.1 ≠ node_id ∧ Exists (summarizes n.2) (elements (all_covered_ids p)))
    (map_to_list nodes)).

Definition lift_lifecycle {A} (r : result lifecycle_error A) : result publication_error A :=
  match r with Ok a => Ok a | Err e => Err (Lifecycle_error e) end.

(** The frontier published and the new lifecycle table. *)
Definition stage_compaction_publication (publication_node_id now : Z) (db : database)
    : result publication_error (Z * lifecycle_table) :=
  raise_if (bool_decide (all_covered_ids p = ∅)) (PublicationConflict NoDurableCoverage)
  (raise_if (negb (bool_decide (covered_ids p ∩ excluded_ids p = ∅))) (PublicationConflict OverlapsExclusion)
  (raise_if (negb (bool_decide (dom (copy_proofs p) ⊆ excluded_ids p))) (PublicationConflict CopyProofNotExcluded)
  (raise_if (negb (snapshot_owned (messages db))) (PublicationConflict OwnershipChanged)
  (raise_if (negb (snapshot_conversation (messages db))) (PublicationConflict OwnershipChanged)
  (raise_if (filter_exclusion_changed (messages db)) (PublicationConflict FilterExclusionChanged)
  (raise_if (copy_exclusion_changed db) (PublicationConflict CopyExclusionChanged)
  (raise_if (negb (bool_decide (authoritative_ids (messages db) = covered_ids p ∪ excluded_ids p)))
     (PublicationConflict NotContiguous)
  (raise_if (already_claimed publication_node_id (summary_nodes db)) (PublicationConflict AlreadyClaimed)
  (match lifecycle db !! conversation with
   | None => Err (Lifecycle_error MissingState)
   | Some row =>
       raise_if (bool_decide (default EmptyString (current_session_id row) ≠ session)) (Lifecycle_error BindingChanged)
       (raise_if (bool_decide (current_frontier_store_id row ≠ expected_frontier p))
          (PublicationConflict FrontierGenerationChanged)
       (let! t := lift_lifecycle (stage_frontier_advance conversation session (covered_end p) now (lifecycle db)) in
        Ok (covered_end p, t)))
   end))))))))).

End stage.

(** ** One write transaction *)

(** [insert_node] before the callback. *)
Definition insert_node (node : SummaryNode) (escalation_level : option Z) (model : string) (now : Z) (db : database)
    : Z * database :=
  let node_id := node_sequence db + 1 in
  let node := {| session_id := session_id node; depth := depth node; summary := summary node;
                 token_count := token_count node; source_token_count := source_token_count node;
                 source_ids := source_ids node; source_type := source_type node;
                 created_at := if bool_decide (created_at node = 0) then now else created_at node;
                 earliest_at := earliest_at node; latest_at := latest_at node; expand_hint := expand_hint node |} in
  (node_id,
   {| lifecycle := lifecycle db; messages := messages db; message_sequence := message_sequence db;
      summary_nodes := <[node_id := node]> (summary_nodes db);
      summary_node_provenance :=
        match escalation_level with
        | Some level => <[node_id := (level, model, now)]> (summary_node_provenance db)
        | None => summary_node_provenance db
        end;
      node_sequence := node_id |}).

(** [add_node] with its [before_commit]; the caller of an [Err] keeps the
    database it had: the transaction is rolled back. *)
Definition add_node (node : SummaryNode) (before_commit : Z → database → result publication_error database)
    (escalation_level : option Z) (model : string) (now : Z) (db : database) : result publication_error (Z * database) :=
  let '(node_id, db) := insert_node node escalation_level model now db in
  let! db := before_commit node_id db in
  Ok (node_id, db).

(** [before_publication] re-validates a promoted leaf in the transaction. *)
Definition publish_leaf_node (legacy : string → list (option string)) (conversation session : string)
    (node : SummaryNode) (level : Z) (model : string) (p : claim) (before_publication : database → bool) (now : Z)
    (db : database) : result publication_error (Z * database) :=
  let before_commit node_id db :=
    if bool_decide (session ≠ EmptyString) && bool_decide (conversation ≠ EmptyString) then
      raise_if (negb (before_publication db)) PromotionRejected
        (let! (_, t) := stage_compaction_publication legacy conversation session p node_id now db in
         Ok (set_lifecycle t db))
    else Ok db in
  add_node node before_commit (if bool_decide (level = 0) then None else Some level) model now db.

(** ** The claim: lemmas *)

Section claim_lemmas.
Variable p : claim.

Lemma expected_le_end : expected_frontier p <= covered_end p.
Proof using Type. apply (foldr_max_ge (elements (all_covered_ids p))). left. Qed.

Lemma all_covered_le_end i : i ∈ all_covered_ids p → i <= covered_end p.
Proof using Type. intros Hi. apply (foldr_max_ge (elements (all_covered_ids p))). right. by apply elem_of_elements. Qed.

Lemma covered_end_in : covered_end p = expected_frontier p ∨ covered_end p ∈ all_covered_ids p.
Proof using Type.
  pose proof (foldr_max_in (elements (all_covered_ids p)) (expected_frontier p)) as H.
  apply elem_of_cons in H as [H|H]; [by left|]. right. by apply elem_of_elements in H.
Qed.

Lemma elem_all_covered i : i ∈ all_covered_ids p ↔ 0 < i ∧ i ∈ covered_store_ids p.
Proof using Type. unfold all_covered_ids. by rewrite elem_of_list_to_set, list_elem_of_filter. Qed.

Lemma elem_covered i : i ∈ covered_ids p ↔ expected_frontier p < i ∧ i ∈ all_covered_ids p.
Proof using Type. unfold covered_ids. by rewrite elem_of_filter. Qed.

Lemma elem_excluded i :
  i ∈ excluded_ids p ↔ (expected_frontier p < i ∧ i <= covered_end p) ∧ i ∈ excluded_store_ids p.
Proof using Type. unfold excluded_ids. by rewrite elem_of_list_to_set, list_elem_of_filter. Qed.

(** The rows a claim proves lie between the frontiers. *)
Lemma proven_between i : i ∈ covered_ids p ∪ excluded_ids p → expected_frontier p < i <= covered_end p.
Proof using Type.
  rewrite elem_of_union, elem_covered, elem_excluded. intros [[H Hi]|[H _]]; [|done].
  apply all_covered_le_end in Hi. lia.
Qed.

Lemma in_ranges_iff session i row :
  in_ranges p session i row = true ↔
  row_is_owned p session i row = true ∧ expected_frontier p < i <= covered_end p.
Proof using Type.
  unfold in_ranges, row_is_owned, owned_ranges. cbn [existsb fst snd].
  rewrite !orb_true_iff, !andb_true_iff, !existsb_exists, !bool_decide_eq_true. split.
  - intros [[[Hs Hl] Hr]|(r & Hr & H)]; [split; [by left|lia]|].
    rewrite <-list_elem_of_In in Hr. apply list_elem_of_fmap in Hr as ([[s a] b] & -> & Hr).
    apply list_elem_of_filter in Hr as [Hr Hin]. cbn in H, Hr.
    rewrite !andb_true_iff, !bool_decide_eq_true in H. split; [right|lia].
    exists (s, a, b). rewrite <-list_elem_of_In. split; [done|]. cbn. rewrite !andb_true_iff, !bool_decide_eq_true.
    split_and!; [tauto|lia|lia].
  - intros [[Hs|([[s a] b] & Hr & H)] Hi]; [left; split; [split; [done|lia]|lia]|]. rewrite <-list_elem_of_In in Hr. cbn in H.
    rewrite !andb_true_iff, !bool_decide_eq_true in H. right.
    exists (s, Z.max (expected_frontier p) a, Z.min (covered_end p) b). rewrite <-list_elem_of_In. split.
    + apply list_elem_of_fmap. exists (s, a, b). split; [done|]. apply list_elem_of_filter. split; [cbn; lia|done].
    + cbn. rewrite !andb_true_iff, !bool_decide_eq_true. split_and!; [tauto|lia|lia].
Qed.

End claim_lemmas.

(** ** Conversations: lemmas *)

(** What the cached map holds: the values that stand for a key, and every
    unnormalized value of the table. *)
Definition cache_fresh (legacy : string → list (option string)) (ms : gmap Z message_row) : Prop :=
  (∀ key v, v ∈ legacy key → normalized v = key) ∧
  ∀ i row, ms !! i = Some row → unnormalized (message_conversation_id row) = true →
    message_conversation_id row ∈ legacy (normalized (message_conversation_id row)).

Lemma refresh_fresh ms : cache_fresh (refresh_legacy_conversation_ids ms) ms.
Proof.
  unfold cache_fresh, refresh_legacy_conversation_ids, stored_conversation_ids. split.
  - intros key v [[_ H] _]%list_elem_of_filter. done.
  - intros i row E Hu. apply list_elem_of_filter. split; [done|]. rewrite elem_of_remove_dups, list_elem_of_fmap.
    exists (i, row). by rewrite elem_of_map_to_list.
Qed.

(** A row belongs to the conversation, or to none. *)
Definition of_conversation (conversation : string) (row : message_row) : Prop :=
  normalized (message_conversation_id row) = strip conversation ∨ normalized (message_conversation_id row) = EmptyString.

Lemma strip_empty : strip EmptyString = EmptyString.
Proof. done. Qed.

Lemma owned_values_iff legacy ms conversation i row :
  cache_fresh legacy ms → ms !! i = Some row →
  message_conversation_id row ∈ owned_conversation_values legacy conversation ↔ of_conversation conversation row.
Proof.
  intros [Hsound Hall] E. unfold owned_conversation_values, of_conversation.
  rewrite elem_of_app, list_elem_of_fmap, list_elem_of_bind. setoid_rewrite elem_of_remove_dups.
  setoid_rewrite elem_of_cons. setoid_rewrite list_elem_of_singleton. split.
  - intros [(v & Hv & [-> | ->])|(key & Hv & [-> | ->])].
    + left. rewrite Hv. apply strip_idemp.
    + right. by rewrite Hv.
    + left. by apply Hsound.
    + right. by apply Hsound.
  - intros H. destruct (unnormalized (message_conversation_id row)) eqn:Hu.
    + right. eexists. split; [by apply (Hall i)|done].
    + left. destruct (message_conversation_id row) as [v|]; [|done].
      unfold normalized, unnormalized in Hu, H. cbn [from_option id] in Hu, H.
      apply bool_decide_eq_false, dec_stable in Hu. exists v. split; [done|]. by rewrite <-Hu in H.
Qed.

(** ** What a staged publication has checked *)

Section staged.
Variables (legacy : string → list (option string)) (conversation session : string) (p : claim).
Variables (node_id now : Z) (db : database).

Lemma snapshot_row i :
  snapshot_owned session p (messages db) = true → i ∈ snapshot_ids p →
  ∃ row, messages db !! i = Some row ∧ row_is_owned p session i row = true.
Proof using Type.
  unfold snapshot_owned. rewrite forallb_forall. intros H Hi.
  specialize (H i). rewrite <-list_elem_of_In, elem_of_elements in H. specialize (H Hi).
  destruct (messages db !! i) as [row|]; [by exists row|done].
Qed.

Lemma not_claimed n node i :
  already_claimed session p node_id (summary_nodes db) = false →
  summary_nodes db !! n = Some node → session_id node = session → n ≠ node_id → i ∈ all_covered_ids p →
  ¬ summarizes node i.
Proof using Type.
  unfold already_claimed. rewrite bool_decide_eq_false. intros H E Hs Hn Hi Hsum. apply H.
  apply Exists_exists. exists (n, node). rewrite elem_of_map_to_list. split; [done|]. split_and!; [done..|].
  apply Exists_exists. exists i. by rewrite elem_of_elements.
Qed.

Lemma copies_checked copy twin :
  copy_exclusion_changed p db = false → copy_proofs p !! copy = Some twin →
  twin < copy ∧ row_content <$> messages db !! copy = row_content <$> messages db !! twin ∧
  ∃ n node, summary_nodes db !! n = Some node ∧ summarizes node twin.
Proof using Type.
  unfold copy_exclusion_changed. intros H E. apply not_true_iff_false in H. rewrite existsb_exists in H.
  destruct (bool_decide (copy <= twin) || bool_decide (row_content <$> messages db !! copy ≠ row_content <$> messages db !! twin)
            || negb (node_covered (summary_nodes db) twin)) eqn:Hc.
  { destruct H. exists (copy, twin). rewrite <-list_elem_of_In, elem_of_map_to_list. done. }
  apply orb_false_iff in Hc as [[Hlt Heq]%orb_false_iff Hn]. apply bool_decide_eq_false in Hlt, Heq.
  apply negb_false_iff in Hn. unfold node_covered in Hn. apply bool_decide_eq_true, Exists_exists in Hn as ([n node] & Hin & Hsum).
  apply elem_of_map_to_list in Hin. split_and!; [lia|by apply dec_stable|by exists n, node].
Qed.

Lemma stage_Ok e t :
  stage_compaction_publication legacy conversation session p node_id now db = Ok (e, t) →
  e = covered_end p ∧ covered_ids p ∩ excluded_ids p = ∅ ∧ dom (copy_proofs p) ⊆ excluded_ids p ∧
  snapshot_owned session p (messages db) = true ∧ copy_exclusion_changed p db = false ∧
  authoritative_ids legacy conversation session p (messages db) = covered_ids p ∪ excluded_ids p ∧
  already_claimed session p node_id (summary_nodes db) = false ∧
  ∃ row, lifecycle db !! conversation = Some row ∧ current_session_id row = Some session ∧
    current_frontier_store_id row = expected_frontier p ∧
    t = <[conversation := advanced_row e now row]> (lifecycle db) ∧
    stage_frontier_advance conversation session e now (lifecycle db) = Ok t.
Proof using Type.
  unfold stage_compaction_publication. intros H. inv_ok.
  destruct (lifecycle db !! conversation) as [row|] eqn:Erow; [|done]. inv_ok. injection H as <- <-.
  assert (stage_frontier_advance conversation session (covered_end p) now (lifecycle db) = Ok v) as Hst.
  { unfold lift_lifecycle in Hb. destruct (stage_frontier_advance conversation session (covered_end p) now (lifecycle db)); [by injection Hb as ->|done]. }
  destruct (stage_frontier_advance_Ok _ _ _ _ _ _ Hst) as (row' & Erow' & Hcur & ->).
  rewrite Erow in Erow'. injection Erow' as <-.
  repeat match goal with
    | H : negb _ = false |- _ => apply negb_false_iff in H
    | H : bool_decide _ = true |- _ => apply bool_decide_eq_true in H
    | H : bool_decide _ = false |- _ => apply bool_decide_eq_false in H
    end.
  split_and!; try done. exists row. split_and!; try done. by apply dec_stable.
Qed.
End staged.

(** The rows the conversation owns, among those the claim may account for. *)
Definition owned (conversation session : string) (p : claim) (i : Z) (row : message_row) : Prop :=
  row_is_owned p session i row = true ∧ of_conversation conversation row.

Lemma authoritative_iff legacy conversation session p ms i :
  cache_fresh legacy ms →
  i ∈ authoritative_ids legacy conversation session p ms ↔
  ∃ row, ms !! i = Some row ∧ owned conversation session p i row ∧ expected_frontier p < i <= covered_end p.
Proof.
  intros Hf. unfold authoritative_ids, owned. rewrite elem_of_dom. unfold is_Some. setoid_rewrite map_lookup_filter_Some.
  split.
  - intros (row & E & Hr & Hv). cbn [fst snd] in Hr, Hv. exists row. apply in_ranges_iff in Hr.
    rewrite (owned_values_iff _ _ _ _ _ Hf E) in Hv. tauto.
  - intros (row & E & [Hr Hv] & Hi). exists row. split; [done|]. cbn [fst snd].
    rewrite in_ranges_iff, (owned_values_iff _ _ _ _ _ Hf E). tauto.
Qed.

(** ** The transaction *)

(** Keys are at most the last ones given out. *)
Definition sequenced (db : database) : Prop :=
  (∀ n, is_Some (summary_nodes db !! n) → n <= node_sequence db) ∧
  (∀ i, is_Some (messages db !! i) → i <= message_sequence db).

(** The stored form of a node. *)
Definition stored_as (node node' : SummaryNode) : Prop :=
  session_id node' = session_id node ∧ source_ids node' = source_ids node ∧ source_type node' = source_type node.

Lemma insert_node_spec node level model now db :
  ∃ node', stored_as node node' ∧
    (insert_node node level model now db).1 = node_sequence db + 1 ∧
    let db' := (insert_node node level model now db).2 in
    lifecycle db' = lifecycle db ∧ messages db' = messages db ∧ message_sequence db' = message_sequence db ∧
    summary_nodes db' = <[node_sequence db + 1 := node']> (summary_nodes db) ∧ node_sequence db' = node_sequence db + 1.
Proof. eexists. split; cycle 1; [unfold insert_node; cbn; split_and!; reflexivity|by unfold stored_as]. Qed.

Lemma publish_Ok legacy conversation session node level model p promoted now db id db' :
  session ≠ EmptyString → conversation ≠ EmptyString →
  publish_leaf_node legacy conversation session node level model p promoted now db = Ok (id, db') →
  id = node_sequence db + 1 ∧
  ∃ node' e t db1, stored_as node node' ∧ lifecycle db1 = lifecycle db ∧ messages db1 = messages db ∧
    summary_nodes db1 = <[id := node']> (summary_nodes db) ∧
    stage_compaction_publication legacy conversation session p id now db1 = Ok (e, t) ∧
    lifecycle db' = t ∧ messages db' = messages db ∧ message_sequence db' = message_sequence db ∧
    summary_nodes db' = <[id := node']> (summary_nodes db) ∧ node_sequence db' = id.
Proof.
  intros Hs Hc. unfold publish_leaf_node, add_node.
  set (lvl := if bool_decide (level = 0) then None else Some level).
  destruct (insert_node_spec node lvl model now db) as (node' & Hn & Hid & Hspec).
  destruct (insert_node node lvl model now db) as [nid db1]. cbn in Hid, Hspec. subst nid.
  rewrite !bool_decide_eq_true_2 by done. cbn [andb]. intros H. inv_ok. destruct v0 as [e t].
  destruct Hspec as (Hl & Hm & Hms & Hsn & Hseq). injection H as <- <-. inv_ok. split; [done|].
  exists node', e, t, db1. by split_and!.
Qed.

(** ** What processes do to the database *)

(** Whose row it is: updates in place rewrite content, never this. *)
Definition row_owner (row : message_row) : string * option string :=
  (message_session_id row, message_conversation_id row).

Definition set_messages (ms : gmap Z message_row) (sequence : Z) (db : database) : database :=
  {| lifecycle := lifecycle db; messages := ms; message_sequence := sequence;
     summary_nodes := summary_nodes db; summary_node_provenance := summary_node_provenance db;
     node_sequence := node_sequence db |}.

(** A transaction any process commits.  The sources of a leaf are among the rows
    it consumes ([_leaf_consumption]); the store strips conversation ids.  Moving
    rows or nodes to another session is not among them. *)
Inductive db_step : database → database → Prop :=
| step_publish legacy conversation session node level model p promoted now db id db' :
    session ≠ EmptyString → conversation ≠ EmptyString → session_id node = session →
    (∀ i, i ∈ source_ids node → 0 < i ∧ i ∈ covered_store_ids p) →
    publish_leaf_node legacy conversation session node level model p promoted now db = Ok (id, db') →
    db_step db db'
| step_condense node level model now db id db' :
    source_type node ≠ "messages"%string → add_node node (λ _ db, Ok db) level model now db = Ok (id, db') →
    db_step db db'
| step_lifecycle db t : lifecycle_step (lifecycle db) t → db_step db (set_lifecycle t db)
| step_ingest db row :
    unnormalized (message_conversation_id row) = false →
    db_step db (set_messages (<[message_sequence db + 1 := row]> (messages db)) (message_sequence db + 1) db)
| step_rewrite db i row row' :
    messages db !! i = Some row → row_owner row' = row_owner row →
    db_step db (set_messages (<[i := row']> (messages db)) (message_sequence db) db)
| step_delete db db' :
    lifecycle db' = lifecycle db → messages db' ⊆ messages db → summary_nodes db' ⊆ summary_nodes db →
    message_sequence db' = message_sequence db → node_sequence db' = node_sequence db → db_step db db'.

Lemma condense_spec node level model now db id db' :
  add_node node (λ _ db, Ok db) level model now db = Ok (id, db') →
  ∃ node', stored_as node node' ∧ lifecycle db' = lifecycle db ∧ messages db' = messages db ∧
    message_sequence db' = message_sequence db ∧
    summary_nodes db' = <[node_sequence db + 1 := node']> (summary_nodes db) ∧ node_sequence db' = node_sequence db + 1.
Proof.
  intros H. destruct (insert_node_spec node level model now db) as (node' & Hn & Hid & Hspec).
  unfold add_node in H. destruct (insert_node node level model now db) as [nid db1]. cbn in H, Hspec.
  injection H as <- <-. by exists node'.
Qed.

(** A row with an old key was there before, and belonged to the same. *)
Lemma db_step_messages db db' i row' :
  db_step db db' → messages db' !! i = Some row' → i <= message_sequence db →
  ∃ row, messages db !! i = Some row ∧ row_owner row' = row_owner row.
Proof.
  intros Hstep E Hi. destruct Hstep as [legacy c s node level model p pr now db id db' Hs Hc _ _ H|? ? ? ? ? ? ? _ H|? ? _|? row _|? j row0 ? E0 Ho|? ? _ Hm _ _ _].
  - destruct (publish_Ok _ _ _ _ _ _ _ _ _ _ _ _ Hs Hc H) as (_ & ? & ? & ? & ? & _ & _ & _ & _ & _ & _ & Hm & _).
    rewrite Hm in E. by eexists.
  - destruct (condense_spec _ _ _ _ _ _ _ H) as (? & _ & _ & Hm & _). rewrite Hm in E. by eexists.
  - by eexists.
  - cbn in E. rewrite lookup_insert_ne in E by lia. by eexists.
  - cbn in E. destruct (decide (i = j)) as [->|Hne].
    + rewrite lookup_insert_eq in E. injection E as <-. by eexists.
    + rewrite lookup_insert_ne in E by done. by eexists.
  - eexists. split; [by eapply lookup_weaken|done].
Qed.

Lemma db_step_sequence db db' : db_step db db' → message_sequence db <= message_sequence db'.
Proof.
  intros Hstep. destruct Hstep as [legacy c s node level model p pr now db id db' Hs Hc _ _ H|? ? ? ? ? ? ? _ H| | | |? ? _ _ _ -> _];
    cbn; try lia.
  - destruct (publish_Ok _ _ _ _ _ _ _ _ _ _ _ _ Hs Hc H) as (_ & ? & ? & ? & ? & _ & _ & _ & _ & _ & _ & _ & -> & _). lia.
  - destruct (condense_spec _ _ _ _ _ _ _ H) as (? & _ & _ & _ & -> & _). lia.
Qed.

Lemma db_step_lifecycle db db' : db_step db db' → lifecycle db' = lifecycle db ∨ lifecycle_step (lifecycle db) (lifecycle db').
Proof.
  intros Hstep. destruct Hstep as [legacy c s node level model p pr now db id db' Hs Hc _ _ H|? ? ? ? ? ? ? _ H|? ? H| | |? ? H]; try (by left).
  - right. destruct (publish_Ok _ _ _ _ _ _ _ _ _ _ _ _ Hs Hc H) as (_ & ? & e & t & db1 & _ & Hl & _ & _ & Hst & -> & _).
    apply stage_Ok in Hst as (-> & _ & _ & _ & _ & _ & _ & row & _ & _ & _ & _ & Hst). rewrite <-Hl.
    by eapply step_stage.
  - left. by destruct (condense_spec _ _ _ _ _ _ _ H) as (? & _ & -> & _).
  - by right.
Qed.

Lemma sequenced_insert_node db n node :
  sequenced db → ∀ m, is_Some ((<[node_sequence db + n := node]> (summary_nodes db)) !! m) → 0 <= n → m <= node_sequence db + n.
Proof.
  intros [Hn _] m Hm Hpos. destruct (decide (m = node_sequence db + n)) as [->|Hne]; [lia|].
  rewrite lookup_insert_ne in Hm by done. specialize (Hn m Hm). lia.
Qed.

Lemma db_step_sequenced db db' : db_step db db' → sequenced db → sequenced db'.
Proof.
  intros Hstep Hseq. destruct Hstep as [legacy c s node level model p pr now db id db' Hs Hc _ _ H|? ? ? ? ? ? ? _ H| |? row _|? j row0 ? E0 Ho|? ? _ Hm Hn Hms Hns].
  - destruct (publish_Ok _ _ _ _ _ _ _ _ _ _ _ _ Hs Hc H) as (-> & ? & ? & ? & ? & _ & _ & _ & _ & _ & _ & Hm & Hms & Hsn & Hns).
    split; [rewrite Hsn, Hns; intros m Hi; by apply (sequenced_insert_node _ _ _ Hseq m Hi)|]. rewrite Hm, Hms. apply Hseq.
  - destruct (condense_spec _ _ _ _ _ _ _ H) as (? & _ & _ & Hm & Hms & Hsn & Hns).
    split; [rewrite Hsn, Hns; intros m Hi; by apply (sequenced_insert_node _ _ _ Hseq m Hi)|]. rewrite Hm, Hms. apply Hseq.
  - done.
  - split; [apply Hseq|]. cbn. intros i Hi. destruct (decide (i = message_sequence db + 1)) as [->|Hne]; [lia|].
    rewrite lookup_insert_ne in Hi by done. apply Hseq in Hi. lia.
  - split; [apply Hseq|]. cbn. intros i Hi. destruct (decide (i = j)) as [->|Hne]; [by apply Hseq|].
    rewrite lookup_insert_ne in Hi by done. by apply Hseq.
  - split; [rewrite Hns|rewrite Hms]; intros i [x Hx]; apply Hseq; exists x; by eapply lookup_weaken.
Qed.

Lemma db_step_fresh legacy db db' :
  db_step db db' → sequenced db → cache_fresh legacy (messages db) → cache_fresh legacy (messages db').
Proof.
  intros Hstep Hseq [Hsound Hall]. split; [done|]. intros i row' E Hu.
  destruct (decide (i <= message_sequence db)) as [Hi|Hi].
  - destruct (db_step_messages _ _ _ _ Hstep E Hi) as (row & E0 & Ho). injection Ho as _ Ho. rewrite Ho in *. by eapply Hall.
  - destruct (db_step_sequenced _ _ Hstep Hseq) as [_ Hm].
    destruct Hstep as [legacy0 c s node level model p pr now db id db' Hs Hc _ _ H|? ? ? ? ? ? ? _ H| |? row Hn|? j row0 ? E0 Ho|? ? _ Hsub _ Hms _].
    + destruct (publish_Ok _ _ _ _ _ _ _ _ _ _ _ _ Hs Hc H) as (_ & ? & ? & ? & ? & _ & _ & _ & _ & _ & _ & Hm' & _).
      rewrite Hm' in E. by eapply Hall.
    + destruct (condense_spec _ _ _ _ _ _ _ H) as (? & _ & _ & Hm' & _). rewrite Hm' in E. by eapply Hall.
    + by eapply Hall.
    + cbn in E. destruct (decide (i = message_sequence db + 1)) as [->|Hne].
      * rewrite lookup_insert_eq in E. injection E as <-. congruence.
      * rewrite lookup_insert_ne in E by done. by eapply Hall.
    + destruct Hi. apply Hseq. cbn in E. destruct (decide (i = j)) as [->|Hne]; [done|].
      rewrite lookup_insert_ne in E by done. done.
    + eapply Hall; [by eapply lookup_weaken|done].
Qed.

(** ** No row is summarized twice *)

(** Two nodes of messages of one session share no row. *)
Definition claimed_once (db : database) : Prop :=
  ∀ n1 n2 a b i, summary_nodes db !! n1 = Some a → summary_nodes db !! n2 = Some b →
    session_id a = session_id b → summarizes a i → summarizes b i → n1 = n2.

Lemma claimed_once_insert db nodes id node :
  summary_nodes db = nodes → claimed_once db →
  (∀ m a i, nodes !! m = Some a → m ≠ id → session_id a = session_id node → summarizes node i → ¬ summarizes a i) →
  ∀ n1 n2 a b i, <[id := node]> nodes !! n1 = Some a → <[id := node]> nodes !! n2 = Some b →
    session_id a = session_id b → summarizes a i → summarizes b i → n1 = n2.
Proof.
  intros <- Hc Hnew n1 n2 a b i E1 E2 Hs Ha Hb.
  destruct (decide (n1 = id)) as [->|H1], (decide (n2 = id)) as [->|H2]; [done|..].
  - rewrite lookup_insert_eq in E1. injection E1 as <-. rewrite lookup_insert_ne in E2 by done.
    by destruct (Hnew n2 b i E2 H2 (eq_sym Hs) Ha).
  - rewrite lookup_insert_eq in E2. injection E2 as <-. rewrite lookup_insert_ne in E1 by done.
    by destruct (Hnew n1 a i E1 H1 Hs Hb).
  - rewrite lookup_insert_ne in E1, E2 by done. by eapply Hc.
Qed.

Lemma db_step_claimed_once db db' : db_step db db' → sequenced db → claimed_once db → claimed_once db'.
Proof.
  intros Hstep [Hseq _] Hc. destruct Hstep as [legacy c s node level model p pr now db id db' Hs Hcn Hses Hsrc H|? ? ? ? ? ? ? Ht H| | | |? ? _ _ Hn _ _]; try done.
  - destruct (publish_Ok _ _ _ _ _ _ _ _ _ _ _ _ Hs Hcn H)
      as (-> & node' & e & t & db1 & (Hn1 & Hn2 & Hn3) & _ & _ & Hsn1 & Hst & _ & _ & _ & Hsn & _).
    apply stage_Ok in Hst as (_ & _ & _ & _ & _ & _ & Hclaim & _). unfold claimed_once. rewrite Hsn.
    apply (claimed_once_insert db); [done..|]. intros m a i E Hm Hsa [_ Hi] Hsum.
    rewrite Hn2 in Hi. destruct (Hsrc i Hi) as [Hpos Hcov].
    eapply (not_claimed _ _ _ _ m a i Hclaim); [by rewrite Hsn1, lookup_insert_ne|congruence|done| |done].
    by apply elem_all_covered.
  - destruct (condense_spec _ _ _ _ _ _ _ H) as (node' & (_ & _ & Hn3) & _ & _ & _ & Hsn & _).
    unfold claimed_once. rewrite Hsn. apply (claimed_once_insert db); [done..|]. intros m a i _ _ _ [Hty _]. congruence.
  - intros n1 n2 a b i E1 E2. eapply Hc; by eapply lookup_weaken.
Qed.

(** ** One conversation's publications *)

Definition frontier_at (conversation session : string) (db : database) (frontier : Z) : Prop :=
  ∃ row, lifecycle db !! conversation = Some row ∧ current_session_id row = Some session ∧
    current_frontier_store_id row = frontier.

Lemma frontier_at_unique c s db f f' : frontier_at c s db f → frontier_at c s db f' → f = f'.
Proof. intros (r & E & _ & <-) (r' & E' & _ & <-). congruence. Qed.

(** The rows a claim proves, covered or excluded. *)
Definition proven (p : claim) : gset Z := covered_ids p ∪ excluded_ids p.

(** What a publication did, and what held when it did. *)
Lemma publish_facts legacy c s node level model p pr now db id db' :
  s ≠ EmptyString → c ≠ EmptyString → cache_fresh legacy (messages db) → sequenced db →
  publish_leaf_node legacy c s node level model p pr now db = Ok (id, db') →
  messages db' = messages db ∧ frontier_at c s db (expected_frontier p) ∧ frontier_at c s db' (covered_end p) ∧
  (∀ i, i ∈ proven p ↔ ∃ row, messages db !! i = Some row ∧ owned c s p i row ∧ expected_frontier p < i <= covered_end p) ∧
  (covered_end p = expected_frontier p ∨ covered_end p <= message_sequence db).
Proof.
  intros Hs Hc Hf [_ Hseq] H. destruct (publish_Ok _ _ _ _ _ _ _ _ _ _ _ _ Hs Hc H)
    as (-> & node' & e & t & db1 & _ & Hl & Hm1 & _ & Hst & Ht & Hm & _ & _ & _).
  apply stage_Ok in Hst as (-> & _ & _ & Hown & _ & Hauth & _ & row & E & Hcur & Hfr & -> & _).
  rewrite Hm1 in *. rewrite Hl in *. split; [done|]. split; [by exists row|]. split; [|split].
  - exists (advanced_row (covered_end p) now row). rewrite Ht, lookup_insert_eq. split_and!; [done..|].
    cbn. pose proof (expected_le_end p). lia.
  - intros i. unfold proven. rewrite <-Hauth. by apply authoritative_iff.
  - destruct (covered_end_in p) as [?|Hin]; [by left|right]. apply Hseq.
    destruct (snapshot_row s p db1 (covered_end p)) as (r & Er & _); [by rewrite Hm1| |rewrite <-Hm1; by eexists].
    unfold snapshot_ids. set_solver.
Qed.

Section conversation.
Variables (legacy : string → list (option string)) (conversation session : string).

(** The publications of one conversation and session, in order, between
    transactions of any process that leave its frontier alone. *)
Inductive publications (db : database) : list claim → database → Prop :=
| no_publication : publications db [] db
| other_transaction log db1 db2 :
    publications db log db1 → db_step db1 db2 →
    (∀ f, frontier_at conversation session db1 f → frontier_at conversation session db2 f) →
    publications db log db2
| next_publication log db1 node level model p promoted now id db2 :
    publications db log db1 → session_id node = session →
    (∀ i, i ∈ source_ids node → 0 < i ∧ i ∈ covered_store_ids p) →
    publish_leaf_node legacy conversation session node level model p promoted now db1 = Ok (id, db2) →
    publications db (log ++ [p]) db2.

End conversation.

(** Each row of the conversation and session above [f0] up to the frontier is
    proven by one publication of the log. *)
Definition tiled (conversation session : string) (f0 f : Z) (log : list claim) (db : database) : Prop :=
  ∀ i row, messages db !! i = Some row → message_session_id row = session → of_conversation conversation row →
    f0 < i <= f →
    ∃ k p, log !! k = Some p ∧ i ∈ proven p ∧ ∀ k' p', log !! k' = Some p' → i ∈ proven p' → k' = k.

Definition tiling (legacy : string → list (option string)) (conversation session : string) (f0 : Z) (log : list claim)
    (db : database) : Prop :=
  sequenced db ∧ cache_fresh legacy (messages db) ∧
  ∃ f, frontier_at conversation session db f ∧ f0 <= f <= message_sequence db ∧
    (∀ k p i, log !! k = Some p → i ∈ proven p → f0 < i <= f) ∧ tiled conversation session f0 f log db.

Lemma tiling_other legacy c s f0 log db1 db2 :
  tiling legacy c s f0 log db1 → db_step db1 db2 → (∀ f, frontier_at c s db1 f → frontier_at c s db2 f) →
  tiling legacy c s f0 log db2.
Proof.
  intros (Hseq & Hf & f & Hat & Hle & Hlog & Ht) Hstep Hkeep.
  pose proof (db_step_sequence _ _ Hstep). split; [by eapply db_step_sequenced|]. split; [by eapply db_step_fresh|].
  exists f. split; [by apply Hkeep|]. split; [lia|]. split; [done|]. intros i row E Hs Hc Hi.
  destruct (db_step_messages _ _ i row Hstep E) as (row0 & E0 & Ho); [lia|]. injection Ho as Ho1 Ho2.
  apply (Ht i row0 E0); [congruence| |done]. unfold of_conversation in *. by rewrite <-Ho2.
Qed.

Lemma tiling_publish legacy c s f0 log db1 node level model p pr now id db2 :
  s ≠ EmptyString → c ≠ EmptyString →
  tiling legacy c s f0 log db1 → session_id node = s → (∀ i, i ∈ source_ids node → 0 < i ∧ i ∈ covered_store_ids p) →
  publish_leaf_node legacy c s node level model p pr now db1 = Ok (id, db2) →
  tiling legacy c s f0 (log ++ [p]) db2.
Proof.
  intros Hs Hc (Hseq & Hf & f & Hat & Hle & Hlog & Ht) Hnode Hsrc H.
  assert (db_step db1 db2) as Hstep by exact (step_publish _ _ _ _ _ _ _ _ _ _ _ _ Hs Hc Hnode Hsrc H).
  destruct (publish_facts _ _ _ _ _ _ _ _ _ _ _ _ Hs Hc Hf Hseq H) as (Hm & Hat1 & Hat2 & Hproven & Hend).
  pose proof (frontier_at_unique _ _ _ _ _ Hat Hat1) as ->. pose proof (expected_le_end p).
  pose proof (db_step_sequence _ _ Hstep).
  split; [by eapply db_step_sequenced|]. split; [by rewrite Hm|]. exists (covered_end p).
  split; [done|]. split; [lia|]. split.
  - intros k q i Hk Hi. apply lookup_app_Some in Hk as [Hk|[_ Hk]].
    + specialize (Hlog k q i Hk Hi). lia.
    + apply list_lookup_singleton_Some in Hk as [_ <-]. apply proven_between in Hi. lia.
  - intros i row E Hsr Hcr Hi. rewrite Hm in E. destruct (decide (i <= expected_frontier p)) as [Hold|Hnew].
    + destruct (Ht i row E Hsr Hcr) as (k & q & Hk & Hq & Huniq); [lia|]. exists k, q.
      split; [by apply lookup_app_l_Some|]. split; [done|]. intros k' q' Hk' Hq'.
      apply lookup_app_Some in Hk' as [Hk'|[_ Hk']]; [by eapply Huniq|].
      apply list_lookup_singleton_Some in Hk' as [_ <-]. apply proven_between in Hq'. lia.
    + exists (length log), p. split; [by rewrite lookup_app_r, Nat.sub_diag by done|]. split.
      * apply Hproven. exists row. split; [done|]. split; [|lia]. split; [|done]. unfold row_is_owned.
        by rewrite bool_decide_eq_true_2.
      * intros k' q' Hk' Hq'. apply lookup_app_Some in Hk' as [Hk'|[Hge Hk']].
        { specialize (Hlog k' q' i Hk' Hq'). lia. }
        apply list_lookup_singleton_Some in Hk' as [Hz _]. lia.
Qed.

Lemma publications_tiling legacy c s f0 db log db' :
  s ≠ EmptyString → c ≠ EmptyString → tiling legacy c s f0 [] db → publications legacy c s db log db' →
  tiling legacy c s f0 log db'.
Proof.
  intros Hs Hc H0. induction 1 as [|log db1 db2 _ IH Hstep Hkeep|log db1 node level model p pr now id db2 _ IH Hn Hsrc H]; [done|..].
  - by eapply tiling_other.
  - by eapply tiling_publish.
Qed.

(** While the conversation stays bound, transactions only raise its frontier. *)
Definition bound_db_step (c s : string) (db db' : database) : Prop :=
  db_step db db' ∧ bound_to (lifecycle db) c s ∧ bound_to (lifecycle db') c s.

Lemma bound_db_steps_frontier c s db db' f f' :
  rtc (bound_db_step c s) db db' → frontier_at c s db f → frontier_at c s db' f' → f <= f'.
Proof.
  intros Hrtc. revert f. induction Hrtc as [db|db db1 db2 (Hstep & _ & (r1 & E1 & Hr1)) _ IH]; intros f Hf Hf'.
  - rewrite (frontier_at_unique _ _ _ _ _ Hf Hf'). lia.
  - destruct Hf as (r & E & Hr & <-). specialize (IH (current_frontier_store_id r1)). 
    assert (current_frontier_store_id r <= current_frontier_store_id r1).
    { destruct (db_step_lifecycle _ _ Hstep) as [Heq|Hl]; [rewrite Heq in E1; simplify_eq; lia|].
      by eapply lifecycle_step_frontier. }
    assert (current_frontier_store_id r1 <= f') by (apply IH; [by exists r1|done]). lia.
Qed.

(** ** Properties *)

(** C1: a publication that commits has accounted for every row: of the rows the
    conversation owns (its own and blank ones, of the session or of a carried
    range) above the old frontier up to the new one, each is either covered or
    excluded and never both, and nothing else is; no other node of the session
    summarizes a covered row; a row excluded as a copy equals an earlier row that
    a node summarizes; the frontier moves from the expected one to the new one,
    which is the last covered row or did not move. *)
Theorem publication_partitions legacy c s node level model p promoted now db id db' :
  s ≠ EmptyString → c ≠ EmptyString → cache_fresh legacy (messages db) → sequenced db →
  publish_leaf_node legacy c s node level model p promoted now db = Ok (id, db') →
  frontier_at c s db (expected_frontier p) ∧ frontier_at c s db' (covered_end p) ∧
  (covered_end p = expected_frontier p ∨ covered_end p ∈ covered_ids p) ∧
  (∀ i, (i ∈ covered_ids p ∨ i ∈ excluded_ids p) ↔
     ∃ row, messages db !! i = Some row ∧ owned c s p i row ∧ expected_frontier p < i <= covered_end p) ∧
  covered_ids p ∩ excluded_ids p = ∅ ∧
  (∀ n other i, summary_nodes db !! n = Some other → session_id other = s → i ∈ all_covered_ids p →
     ¬ summarizes other i) ∧
  (∀ copy twin, copy_proofs p !! copy = Some twin → copy ∈ excluded_ids p ∧ twin < copy ∧
     row_content <$> messages db !! copy = row_content <$> messages db !! twin ∧
     ∃ n other, summary_nodes db' !! n = Some other ∧ summarizes other twin).
Proof.
  intros Hs Hc Hf Hseq H. destruct (publish_facts _ _ _ _ _ _ _ _ _ _ _ _ Hs Hc Hf Hseq H) as (_ & Hat & Hat' & Hproven & _).
  destruct (publish_Ok _ _ _ _ _ _ _ _ _ _ _ _ Hs Hc H)
    as (-> & node' & e & t & db1 & _ & _ & Hm1 & Hsn1 & Hst & _ & _ & _ & Hsn & _).
  apply stage_Ok in Hst as (_ & Hdis & Hcopy & _ & Htwin & _ & Hclaim & _).
  split; [done|]. split; [done|]. split.
  { destruct (covered_end_in p) as [?|Hin]; [by left|]. pose proof (expected_le_end p).
    destruct (decide (covered_end p = expected_frontier p)); [by left|right]. apply elem_covered. split; [lia|done]. }
  split; [intros i; rewrite <-Hproven; by rewrite <-elem_of_union|]. split; [done|]. split.
  - intros n other i E Hso Hi. assert (n ≠ node_sequence db + 1) as Hne.
    { intros ->. destruct Hseq as [Hn _]. assert (node_sequence db + 1 <= node_sequence db) by (apply Hn; by eexists). lia. }
    eapply (not_claimed _ _ _ _ n other i Hclaim); [by rewrite Hsn1, lookup_insert_ne|done..].
  - intros copy twin E. destruct (copies_checked _ _ _ _ Htwin E) as (Hlt & Heq & n & other & En & Hsum).
    split; [apply Hcopy, elem_of_dom; by eexists|]. split; [done|]. rewrite Hm1 in Heq. split; [done|].
    exists n, other. by rewrite Hsn, <-Hsn1.
Qed.



(** C21: a leaf prepared at a frontier that a publication has moved past is
    refused: while the conversation stays bound to the session, no publication
    expecting an earlier frontier commits, whatever happened in between. *)
Theorem stale_publication_refused legacy legacy' c s node node' level level' model model' p q promoted promoted' now now' db id db1 db2 :
  s ≠ EmptyString → c ≠ EmptyString → 
  publish_leaf_node legacy c s node level model p promoted now db = Ok (id, db1) →
  rtc (bound_db_step c s) db1 db2 → expected_frontier q < covered_end p →
  ∃ e, publish_leaf_node legacy' c s node' level' model' q promoted' now' db2 = Err e.
Proof.
  intros Hs Hc H Hrun Hq.
  destruct (publish_leaf_node legacy' c s node' level' model' q promoted' now' db2) as [[id2 db3]|e] eqn:H2; [|by exists e].
  apply publish_Ok in H as (_ & n1 & e1 & t1 & dba & _ & Hl1 & _ & _ & Hst1 & Ht1 & _); [|done..].
  apply publish_Ok in H2 as (_ & n2 & e2 & t2 & dbb & _ & Hl2 & _ & _ & Hst2 & _ & _); [|done..].
  apply stage_Ok in Hst1 as (-> & _ & _ & _ & _ & _ & _ & r1 & E1 & Hr1 & Hf1 & -> & _).
  apply stage_Ok in Hst2 as (_ & _ & _ & _ & _ & _ & _ & r2 & E2 & Hr2 & Hf2 & _ & _).
  rewrite Hl2 in E2.
  assert (covered_end p <= expected_frontier q); [|lia].
  eapply (bound_db_steps_frontier c s db1 db2); [done| |by exists r2].
  exists (advanced_row (covered_end p) now r1). rewrite Ht1, lookup_insert_eq. split_and!; [done..|].
  cbn. pose proof (expected_le_end p). lia.
Qed.

(** ** Witnesses *)

(** Four rows of the session S in the conversation C, one without a conversation,
    the second a copy of the first; S is bound at the frontier 0. *)
Definition example_row (conv : option string) (text : string) : message_row :=
  {| message_session_id := "S"; message_conversation_id := conv; content := Some text; role := "user";
     tool_call_id := None; tool_calls := None; tool_name := None |}.
Definition example_db : database :=
  {| lifecycle := {["C"%string := fresh_row "S" 1]};
     messages := {[1 := example_row (Some "C"%string) "x"; 2 := example_row (Some "C"%string) "x";
                   3 := example_row None "y"; 4 := example_row (Some "C"%string) "z"]};
     message_sequence := 4; summary_nodes := ∅; summary_node_provenance := ∅; node_sequence := 0 |}.
Definition example_legacy := refresh_legacy_conversation_ids (messages example_db).
Definition example_claim (frontier : Z) (covered excluded : list Z) (copies : gmap Z Z) : claim :=
  {| expected_frontier_store_id := frontier; covered_store_ids := covered; excluded_store_ids := excluded;
     filter_exclusion_proofs := ∅; carried_ranges := []; copy_exclusion_proofs := copies |}.
Definition example_leaf (sources : list Z) : SummaryNode :=
  {| session_id := "S"; depth := 0; summary := "t"; token_count := 1; source_token_count := 3; source_ids := sources;
     source_type := "messages"; created_at := 0; earliest_at := None; latest_at := None; expand_hint := "" |}.
Definition example_publish (p : claim) (sources : list Z) (db : database) : result publication_error (Z * database) :=
  publish_leaf_node example_legacy "C" "S" (example_leaf sources) 1 "m" p (λ _, true) 9 db.
Definition committed (r : result publication_error (Z * database)) : database :=
  match r with Ok (_, db) => db | Err _ => example_db end.
Definition first_claim : claim := example_claim 0 [1; 3] [2] {[2 := 1]}.
Definition second_claim : claim := example_claim 3 [4] [] ∅.
Definition first_db : database := committed (example_publish first_claim [1; 3] example_db).
Definition second_db : database := committed (example_publish second_claim [4] first_db).

Lemma example_first : example_publish first_claim [1; 3] example_db = Ok (1, first_db).
Proof. vm_compute. reflexivity. Qed.
Lemma example_second : example_publish second_claim [4] first_db = Ok (2, second_db).
Proof. vm_compute. reflexivity. Qed.

(** Row 2 neither covered nor excluded; another process first. *)
Example example_gap : ∃ e, example_publish (example_claim 0 [1; 3] [] ∅) [1; 3] example_db = Err (PublicationConflict e) ∧ e = NotContiguous.
Proof. eexists. split; [vm_compute; reflexivity|reflexivity]. Qed.
Example example_raced : example_publish first_claim [1; 3] first_db = Err (PublicationConflict AlreadyClaimed).
Proof. vm_compute. reflexivity. Qed.

Lemma example_sequenced : sequenced example_db.
Proof.
  split; [by intros n [x Hx]|].
  assert (map_Forall (λ i _, i <= 4) (messages example_db)) as H by (apply (bool_decide_eq_true_1 _); vm_compute; reflexivity).
  intros i [x Hx]. exact (H i x Hx).
Qed.

Lemma example_frontier : frontier_at "C" "S" example_db 0.
Proof. exists (fresh_row "S" 1). by vm_compute. Qed.

Lemma example_claimed_once : claimed_once example_db.
Proof. by intros n1 n2 a b i E. Qed.

Lemma example_sources sources p :
  forallb (λ i, bool_decide (0 < i) && bool_decide (i ∈ covered_store_ids p)) sources = true →
  ∀ i, i ∈ source_ids (example_leaf sources) → 0 < i ∧ i ∈ covered_store_ids p.
Proof.
  rewrite forallb_forall. intros H i Hi. specialize (H i). rewrite <-list_elem_of_In, andb_true_iff, !bool_decide_eq_true in H.
  by apply H.
Qed.

Example publication_partitions_witness :
  frontier_at "C" "S" example_db 0 ∧ frontier_at "C" "S" first_db 3 ∧
  (∀ i, i ∈ covered_ids first_claim ∨ i ∈ excluded_ids first_claim ↔
     ∃ row, messages example_db !! i = Some row ∧ owned "C" "S" first_claim i row ∧ 0 < i <= 3).
Proof.
  destruct (publication_partitions example_legacy "C" "S" (example_leaf [1; 3]) 1 "m" first_claim (λ _, true) 9 example_db 1 first_db)
    as (H1 & H2 & _ & H3 & _); [by vm_compute|by vm_compute|apply refresh_fresh|apply example_sequenced|apply example_first|].
  split; [exact H1|]. split; [exact H2|exact H3].
Defined.



Example stale_publication_refused_witness :
  ∃ e, example_publish (example_claim 0 [4] [] ∅) [4]
         (set_lifecycle (record_debt "C" "raw_backlog" 7 11 (lifecycle first_db)) first_db) = Err e.
Proof.
  eapply (stale_publication_refused example_legacy example_legacy "C" "S" _ _ 1 1 "m" "m" first_claim);
    [by vm_compute|by vm_compute|apply example_first| |by vm_compute].
  apply rtc_once. split; [apply step_lifecycle, step_debt|]. split; eexists; split; vm_compute; reflexivity.
Defined.
