(* ===== verification/Matching.v ===== *)
(** Matching stored rows to the occurrences a host view shows
    (recognition_matching.py [_match_occurrences]): a bipartite matching by
    augmenting paths that walks the types of rows (their sets of keys) instead of
    the rows, under a budget of visits.

    A dictionary whose order matters is the list of its items, any other a finite
    map; a missing count is 0 and a missing list empty, as in [Counter] and
    [defaultdict].  [repr] is an argument.  [parent] is the dictionary's items,
    newest first: a path goes back through it. *)

From S2P Require Import Prelude.
From stdpp Require Import options.

#[local] Open Scope nat_scope.

Definition MATCH_WORK_PER_ITEM : nat := 32.
(** [_MATCH_WORK_FLOOR], 4096 *)
Definition MATCH_WORK_FLOOR : nat := 64 * 64.

(** [kind]: the type of a row, its sorted keys that some occurrence shows. *)
Abbreviation kind K := (list K).

Section definitions.
Context {K : Type} `{Countable K}.
Context {O : Type}.
Variable repr : K → string.

(** ** Slots, rows and their types *)

(** [slots[key].append(occurrence)] *)
Definition add_slot (m : gmap K (list O)) (x : O * K) : gmap K (list O) :=
  <[x.2 := default [] (m !! x.2) ++ [x.1]]> m.
Definition slots_of (occurrences : list (O * K)) : gmap K (list O) := foldl add_slot ∅ occurrences.

(** [merged.setdefault(store_id, set()).update(keys)] *)
Fixpoint merge_row (sid : Z) (ks : gset K) (merged : list (Z * gset K)) : list (Z * gset K) :=
  match merged with
  | [] => [(sid, ks)]
  | (sid', ks') :: merged =>
      if bool_decide (sid' = sid) then (sid', ks' ∪ ks) :: merged else (sid', ks') :: merge_row sid ks merged
  end.

Definition merged_rows (rows : list (Z * gset K)) : list (Z * gset K) :=
  foldl (λ merged '(sid, ks), merge_row sid ks merged) [] rows.

Variable slots : gmap K (list O).

Definition repr_le (a b : K) : Prop := string_le (repr a) (repr b).
#[export] Instance repr_le_dec : RelDecision repr_le.
Proof. intros a b. unfold repr_le. apply _. Defined.

Definition kind_of (ks : gset K) : kind K :=
  merge_sort repr_le (filter (λ k, is_Some (slots !! k)) (elements ks)).

Definition kinds_of (rows : list (Z * gset K)) : list (Z * kind K) :=
  (λ '(sid, ks), (sid, kind_of ks)) <$> merged_rows rows.

(** [len(slots[k])] *)
Definition capacity (k : K) : nat := length (default [] (slots !! k)).

(** ** The state of the matching *)

Record state := {
  load : gmap K nat; units : gmap (kind K * K) nat; movable : gmap K (list (kind K));
  dead : gset K; work : nat; spent : bool }.

(** [c[k]] *)
Definition count {A} `{Countable A} (c : gmap A nat) (a : A) : nat := default 0 (c !! a).
Definition increment {A} `{Countable A} (c : gmap A nat) (a : A) : gmap A nat := <[a := S (count c a)]> c.
Definition decrement {A} `{Countable A} (c : gmap A nat) (a : A) : gmap A nat := <[a := pred (count c a)]> c.

Definition movable_at (mv : gmap K (list (kind K))) (k : K) : list (kind K) := default [] (mv !! k).

(** [movable[k][t] = None] and [movable[k].pop(t, None)] *)
Definition add_movable (k : K) (t : kind K) (mv : gmap K (list (kind K))) : gmap K (list (kind K)) :=
  <[k := if bool_decide (t ∈ movable_at mv k) then movable_at mv k else movable_at mv k ++ [t]]> mv.
Definition drop_movable (k : K) (gone : list (kind K)) (mv : gmap K (list (kind K))) : gmap K (list (kind K)) :=
  <[k := filter (λ t, t ∉ gone) (movable_at mv k)]> mv.

Definition free (ld : gmap K nat) (k : K) : bool := bool_decide (count ld k < capacity k).

(** ** One search *)

(** [queue] holds the keys not walked yet. *)
Record search := {
  parent : list (K * option (kind K * K)); queue : list K; seen : gset (kind K);
  s_dead : gset K; s_work : nat; s_spent : bool; found : option K }.

Section search.
Variables (budget : nat) (ld : gmap K nat).

Definition tick (s : search) : search :=
  {| parent := parent s; queue := queue s; seen := seen s; s_dead := s_dead s; s_work := S (s_work s);
     s_spent := false; found := found s |}.
Definition out_of_budget (s : search) : search :=
  {| parent := parent s; queue := queue s; seen := seen s; s_dead := s_dead s; s_work := s_work s;
     s_spent := true; found := found s |}.
Definition set_queue (q : list K) (s : search) : search :=
  {| parent := parent s; queue := q; seen := seen s; s_dead := s_dead s; s_work := s_work s;
     s_spent := s_spent s; found := found s |}.
Definition see (t : kind K) (s : search) : search :=
  {| parent := parent s; queue := queue s; seen := {[t]} ∪ seen s; s_dead := s_dead s; s_work := s_work s;
     s_spent := s_spent s; found := found s |}.
Definition set_found (k : K) (s : search) : search :=
  {| parent := parent s; queue := queue s; seen := seen s; s_dead := s_dead s; s_work := s_work s;
     s_spent := s_spent s; found := Some k |}.
(** [parent[k] = p] of a key not in it. *)
Definition set_parent (k : K) (p : option (kind K * K)) (s : search) : search :=
  {| parent := (k, p) :: parent s; queue := queue s; seen := seen s; s_dead := s_dead s; s_work := s_work s;
     s_spent := s_spent s; found := found s |}.

(** [(queue.append if movable[k] else dead.add)(k)] *)
Definition enqueue (mv : gmap K (list (kind K))) (k : K) (s : search) : search :=
  {| parent := parent s;
     queue := if bool_decide (movable_at mv k = []) then queue s else queue s ++ [k];
     seen := seen s;
     s_dead := if bool_decide (movable_at mv k = []) then {[k]} ∪ s_dead s else s_dead s;
     s_work := s_work s; s_spent := s_spent s; found := found s |}.

(** [for k in own] before the walk. *)
Fixpoint start (mv : gmap K (list (kind K))) (own : list K) (s : search) : search :=
  match own with
  | [] => s
  | k :: own => start mv own (if bool_decide (k ∈ s_dead s) then s else enqueue mv k (set_parent k None s))
  end.

Definition stopped (s : search) : bool := bool_decide (found s ≠ None) || s_spent s.

(** [for other in others] *)
Fixpoint reach (mv : gmap K (list (kind K))) (t : kind K) (k : K) (others : list K) (s : search) : search :=
  match others with
  | [] => s
  | other :: others =>
      if bool_decide (other ∈ (parent s).*1) then reach mv t k others s
      else if bool_decide (s_work s = budget) then out_of_budget s
      else
        let s := set_parent other (Some (t, k)) (tick s) in
        if free ld other then set_found other s else reach mv t k others (enqueue mv other s)
  end.

(** [for kind in movable[k]]; the second component is [gone]. *)
Fixpoint scan_kinds (mv : gmap K (list (kind K))) (k : K) (ts : list (kind K)) (gone : list (kind K)) (s : search)
    : search * list (kind K) :=
  match ts with
  | [] => (s, gone)
  | t :: ts =>
      if bool_decide (s_work s = budget) then (out_of_budget s, gone)
      else
        let s := tick s in
        let others := filter (λ other, other ≠ k ∧ other ∉ s_dead s) t in
        if bool_decide (others = []) then scan_kinds mv k ts (gone ++ [t]) s
        else if bool_decide (t ∈ seen s) then scan_kinds mv k ts gone s
        else
          let s := reach mv t k others (see t s) in
          if stopped s then (s, gone) else scan_kinds mv k ts gone s
  end.

(** [for k in queue]; every key enters the queue at most once, so as many rounds
    as there are keys are enough. *)
Fixpoint walk (fuel : nat) (mv : gmap K (list (kind K))) (s : search) : search * gmap K (list (kind K)) :=
  match fuel, queue s with
  | S fuel, k :: q =>
      let '(s, gone) := scan_kinds mv k (movable_at mv k) [] (set_queue q s) in
      let mv := drop_movable k gone mv in
      if stopped s then (s, mv) else walk fuel mv s
  | _, _ => (s, mv)
  end.

End search.

(** ** One row *)

(** [while previous is not None]: the key freed for the row. *)
Fixpoint shift (ps : list (K * option (kind K * K))) (k : K) (us : gmap (kind K * K) nat)
    (mv : gmap K (list (kind K))) : K * gmap (kind K * K) nat * gmap K (list (kind K)) :=
  match ps with
  | [] => (k, us, mv)
  | (k', p) :: ps =>
      if bool_decide (k' = k) then
        match p with
        | None => (k, us, mv)
        | Some (t, previous) =>
            let us := decrement us (t, previous) in
            let mv := if bool_decide (count us (t, previous) = 0) then drop_movable previous [t] mv else mv in
            shift ps previous (increment us (t, k)) (add_movable k t mv)
        end
      else shift ps k us mv
  end.

Definition settle (own : kind K) (endpoint : K) (ps : list (K * option (kind K * K))) (st : state) : state :=
  let '(k, us, mv) := shift ps endpoint (units st) (movable st) in
  {| load := increment (load st) endpoint; units := increment us (own, k);
     movable := if bool_decide (1 < length own) then add_movable k own mv else mv;
     dead := dead st; work := work st; spent := spent st |}.

Definition empty_search (st : state) : search :=
  {| parent := []; queue := []; seen := ∅; s_dead := dead st; s_work := work st; s_spent := false; found := None |}.

Definition search_for (budget : nat) (own : kind K) (st : state) : search * gmap K (list (kind K)) :=
  walk budget (load st) (size slots) (movable st) (start (movable st) own (empty_search st)).

(** The body of [for sid, own in kinds.items()]; the boolean adds to [matched]. *)
Definition place (budget : nat) (own : kind K) (st : state) : state * bool :=
  match find_first (λ k, free (load st) k = true) own with
  | Some k => (settle own k [] st, true)
  | None =>
      if bool_decide (own = []) || spent st then (st, false)
      else
        let '(s, mv) := search_for budget own st in
        let st := {| load := load st; units := units st; movable := mv;
                     dead := if bool_decide (found s = None) && negb (s_spent s)
                             then s_dead s ∪ list_to_set (parent s).*1 else s_dead s;
                     work := s_work s; spent := s_spent s |} in
        match found s with
        | Some k => (settle own k (parent s) st, true)
        | None => (st, false)
        end
  end.

Fixpoint place_all (budget : nat) (kinds : list (Z * kind K)) (st : state) : state * gset Z :=
  match kinds with
  | [] => (st, ∅)
  | (sid, own) :: kinds =>
      let '(st, ok) := place budget own st in
      let '(st, matched) := place_all budget kinds st in
      (st, if ok then {[sid]} ∪ matched else matched)
  end.

(** ** Handing out the occurrences *)

(** [None] where [next] or the index would raise. *)
Fixpoint hand_out (us : gmap (kind K * K) nat) (matched : gset Z) (kinds : list (Z * kind K))
    (given : gmap (kind K * K) nat) (taken : gmap K nat) : option (list (Z * O)) :=
  match kinds with
  | [] => Some []
  | (sid, t) :: kinds =>
      if bool_decide (sid ∈ matched) then
        k ← find_first (λ k, count given (t, k) < count us (t, k)) t;
        o ← default [] (slots !! k) !! count taken k;
        rest ← hand_out us matched kinds (increment given (t, k)) (increment taken k);
        Some ((sid, o) :: rest)
      else hand_out us matched kinds given taken
  end.

Definition initial_state : state :=
  {| load := ∅; units := ∅; movable := ∅; dead := ∅; work := 0; spent := false |}.

End definitions.

Arguments state K {_ _}.
Arguments search K {_ _}.

(** The items of the result in order, and whether the budget was spent. *)
Definition match_occurrences {K} `{Countable K} {O} (repr : K → string) (rows : list (Z * gset K))
    (occurrences : list (O * K)) : option (list (Z * O) * bool) :=
  let slots := slots_of occurrences in
  let kinds := kinds_of repr slots rows in
  let budget := MATCH_WORK_PER_ITEM * (length kinds + length occurrences + size slots) + MATCH_WORK_FLOOR in
  let '(st, matched) := place_all slots budget kinds initial_state in
  result ← hand_out slots (units st) matched kinds ∅ ∅;
  Some (result, spent st).
