(* ===== verification/MatchingProofs.v ===== *)
(** Correctness of the occurrence matching: whatever the budget it returns a
    matching that hands every key's occurrences out in view order, and when the
    budget is not spent no matching is larger.  The augmenting searches keep, as a
    ghost, which row holds which key; the keys found dead form, at the end, a set
    whose slots are all held by rows that can use no other key. *)

From S2P Require Import Prelude Matching.
From stdpp Require Import options.

#[local] Open Scope nat_scope.

(** ** Counters and ordered dictionaries *)

Section counters.
Context {A : Type} `{Countable A}.

Lemma count_increment (c : gmap A nat) a b :
  count (increment c a) b = count c b + Nat.b2n (bool_decide (b = a)).
Proof.
  unfold count, increment. case_bool_decide as E; [subst b; rewrite lookup_insert_eq|rewrite lookup_insert_ne by done];
    unfold count; cbn [from_option id Nat.b2n]; lia.
Qed.

Lemma count_decrement (c : gmap A nat) a b :
  count (decrement c a) b = count c b - Nat.b2n (bool_decide (b = a)).
Proof.
  unfold count, decrement. case_bool_decide as E; [subst b; rewrite lookup_insert_eq|rewrite lookup_insert_ne by done];
    unfold count; cbn [from_option id Nat.b2n]; lia.
Qed.

Lemma count_empty a : count (∅ : gmap A nat) a = 0.
Proof. unfold count. by rewrite lookup_empty. Qed.
End counters.

Section movable.
Context {K : Type} `{Countable K}.

Lemma movable_add (mv : gmap K (list (kind K))) k t k' t' :
  t' ∈ movable_at (add_movable k t mv) k' ↔ (k' = k ∧ t' = t) ∨ t' ∈ movable_at mv k'.
Proof.
  unfold add_movable, movable_at at 1. destruct (decide (k' = k)) as [->|Hne].
  - rewrite lookup_insert_eq. cbn. case_bool_decide; [|rewrite elem_of_app, list_elem_of_singleton]; naive_solver.
  - rewrite lookup_insert_ne by done. unfold movable_at. naive_solver.
Qed.

Lemma movable_drop (mv : gmap K (list (kind K))) k gone k' t' :
  t' ∈ movable_at (drop_movable k gone mv) k' ↔ t' ∈ movable_at mv k' ∧ ¬ (k' = k ∧ t' ∈ gone).
Proof.
  unfold drop_movable, movable_at at 1. destruct (decide (k' = k)) as [->|Hne].
  - rewrite lookup_insert_eq. cbn. rewrite list_elem_of_filter. naive_solver.
  - rewrite lookup_insert_ne by done. unfold movable_at. naive_solver.
Qed.
End movable.

(** ** Slots, rows and their types *)

Section input.
Context {K : Type} `{Countable K} {O : Type}.
Implicit Types (occurrences : list (O * K)) (rows : list (Z * gset K)).

Lemma slots_of_lookup occurrences k :
  default [] (slots_of occurrences !! k) = (filter (λ o : O * K, o.2 = k) occurrences).*1.
Proof.
  unfold slots_of.
  assert (∀ m, default [] (foldl add_slot m occurrences !! k)
             = default [] (m !! k) ++ (filter (λ o : O * K, o.2 = k) occurrences).*1) as ->; [|by rewrite lookup_empty].
  induction occurrences as [|[o k'] occ IH]; intros m; cbn [foldl]; [by rewrite app_nil_r|]. rewrite IH.
  unfold add_slot. rewrite filter_cons. cbn [fst snd]. case_decide as E.
  - subst k'. rewrite lookup_insert_eq. cbn. by rewrite <-app_assoc.
  - by rewrite lookup_insert_ne.
Qed.

Lemma slots_of_elem occurrences k o : o ∈ default [] (slots_of occurrences !! k) ↔ (o, k) ∈ occurrences.
Proof.
  rewrite slots_of_lookup, list_elem_of_fmap. split.
  - intros ([o' k'] & -> & [E Hin]%list_elem_of_filter). cbn in *. by subst.
  - intros Hin. exists (o, k). split; [done|]. by apply list_elem_of_filter.
Qed.

Lemma slots_of_is_Some occurrences k : is_Some (slots_of occurrences !! k) ↔ ∃ o, (o, k) ∈ occurrences.
Proof.
  unfold slots_of.
  assert (∀ m, is_Some (foldl add_slot m occurrences !! k)
             ↔ is_Some (m !! k) ∨ ∃ o, (o, k) ∈ occurrences) as Hm.
  { induction occurrences as [|[o k'] occ IH]; intros m; cbn [foldl].
    - split; [by left|]. intros [?|(o & []%not_elem_of_nil)]; done.
    - rewrite IH. unfold add_slot. cbn [fst snd]. setoid_rewrite elem_of_cons. destruct (decide (k = k')) as [->|Hne].
      + rewrite lookup_insert_eq. split; [|by left]. intros _. right. exists o. by left.
      + rewrite lookup_insert_ne by done. split; [naive_solver|]. intros [?|(o' & [[= -> ->]|Hin])]; [by left|done|].
        right. by exists o'. }
  rewrite Hm, lookup_empty. split; [intros [[? [=]]|?]; done|by right].
Qed.

Lemma merge_row_elem sid (ks : gset K) merged sid' k :
  (∃ ks', (sid', ks') ∈ merge_row sid ks merged ∧ k ∈ ks') ↔
  (sid' = sid ∧ k ∈ ks) ∨ ∃ ks', (sid', ks') ∈ merged ∧ k ∈ ks'.
Proof.
  induction merged as [|[s0 ks0] merged IH]; cbn [merge_row].
  - setoid_rewrite list_elem_of_singleton. setoid_rewrite elem_of_nil. naive_solver.
  - case_bool_decide as E; setoid_rewrite elem_of_cons.
    + subst s0. split.
      * intros (ks' & [[= -> ->]|Hin] & Hk); [|naive_solver]. apply elem_of_union in Hk as [Hk|Hk]; naive_solver.
      * intros [[-> Hk]|(ks' & [[= -> ->]|Hin] & Hk)]; [| |naive_solver]; (eexists; split; [by left|]); set_solver.
    + split.
      * intros (ks' & [[= -> ->]|Hin] & Hk); [naive_solver|]. destruct IH as [IH _]. destruct IH as [?|?]; naive_solver.
      * intros [H1|(ks' & [[= -> ->]|Hin] & Hk)].
        { destruct IH as [_ IH]. destruct (IH (or_introl H1)) as (ks' & ? & ?). naive_solver. }
        { naive_solver. }
        { destruct IH as [_ IH]. destruct IH as (ks'' & ? & ?); [right; by exists ks'|]. naive_solver. }
Qed.

Lemma merge_row_NoDup sid ks (merged : list (Z * gset K)) :
  NoDup merged.*1 → NoDup (merge_row sid ks merged).*1 ∧ ∀ s, s ∈ (merge_row sid ks merged).*1 ↔ s = sid ∨ s ∈ merged.*1.
Proof.
  induction merged as [|[s0 ks0] merged IH]; cbn [merge_row]; intros Hnd.
  - split; [apply NoDup_singleton|]. intros s. cbn. set_solver.
  - cbn [fmap list_fmap fst] in Hnd. apply NoDup_cons in Hnd as [Hs0 Hnd]. destruct (IH Hnd) as [IH1 IH2].
    case_bool_decide as E; cbn.
    + subst s0. split; [by constructor|]. intros s. rewrite !elem_of_cons. tauto.
    + split; [constructor; [|done]; rewrite IH2; naive_solver|]. intros s. rewrite !elem_of_cons, IH2. tauto.
Qed.

Lemma merged_rows_spec rows :
  NoDup (merged_rows rows).*1 ∧
  ∀ sid k, (∃ ks, (sid, ks) ∈ merged_rows rows ∧ k ∈ ks) ↔ ∃ ks, (sid, ks) ∈ rows ∧ k ∈ ks.
Proof.
  unfold merged_rows.
  assert (∀ m, NoDup m.*1 →
    let m' := foldl (λ merged '(sid, ks), merge_row sid ks merged) m rows in
    NoDup m'.*1 ∧ ∀ sid k, (∃ ks, (sid, ks) ∈ m' ∧ k ∈ ks) ↔
      (∃ ks, (sid, ks) ∈ m ∧ k ∈ ks) ∨ ∃ ks, (sid, ks) ∈ rows ∧ k ∈ ks) as Hm.
  { induction rows as [|[sid ks] rows IH]; intros m Hnd; cbn.
    - split; [done|]. intros s k. split; [by left|]. intros [?|(? & []%not_elem_of_nil & _)]; done.
    - destruct (merge_row_NoDup sid ks m Hnd) as [Hnd' _]. destruct (IH _ Hnd') as [H1 H2]. split; [done|].
      intros s k. rewrite H2, merge_row_elem. setoid_rewrite elem_of_cons. naive_solver. }
  destruct (Hm [] (NoDup_nil_2)) as [H1 H2]. split; [done|]. intros sid k. rewrite H2.
  split; [intros [(? & []%not_elem_of_nil & _)|?]; done|by right].
Qed.

Variable repr : K → string.

Lemma kind_of_elem (slots : gmap K (list O)) ks k : k ∈ kind_of repr slots ks ↔ k ∈ ks ∧ is_Some (slots !! k).
Proof. unfold kind_of. rewrite merge_sort_Permutation, list_elem_of_filter, elem_of_elements. tauto. Qed.

Lemma kind_of_NoDup (slots : gmap K (list O)) ks : NoDup (kind_of repr slots ks).
Proof. unfold kind_of. rewrite merge_sort_Permutation. apply NoDup_filter, NoDup_elements. Qed.

Lemma kinds_of_spec (slots : gmap K (list O)) rows :
  NoDup (kinds_of repr slots rows).*1 ∧
  (∀ r, r ∈ kinds_of repr slots rows → NoDup r.2 ∧ ∀ k, k ∈ r.2 → is_Some (slots !! k)) ∧
  (∀ sid k, is_Some (slots !! k) →
     (∃ t, (sid, t) ∈ kinds_of repr slots rows ∧ k ∈ t) ↔ ∃ ks, (sid, ks) ∈ rows ∧ k ∈ ks).
Proof.
  destruct (merged_rows_spec rows) as [Hnd Hel]. unfold kinds_of. split_and!.
  - rewrite <-list_fmap_compose. erewrite list_fmap_ext; [exact Hnd|]. by intros i [sid ks] _.
  - intros r ([sid ks] & -> & _)%list_elem_of_fmap. split; [apply kind_of_NoDup|]. intros k [_ ?]%kind_of_elem. done.
  - intros sid k Hk. rewrite <-Hel. split.
    + intros (t & ([s ks] & [= -> ->] & Hin)%list_elem_of_fmap & [Hks _]%kind_of_elem). by exists ks.
    + intros (ks & Hin & Hks). exists (kind_of repr slots ks). split; [|by apply kind_of_elem].
      apply list_elem_of_fmap. by exists (sid, ks).
Qed.

End input.

(** ** What the state promises about types and dead keys *)

Section search.
Context {K : Type} `{Countable K} {O : Type}.
Variables (slots : gmap K (list O)) (budget : nat).
Variables (us : gmap (kind K * K) nat) (ld : gmap K nat).

(** Every movable type has a row on the key. *)
Definition movable_sound (mv : gmap K (list (kind K))) : Prop :=
  ∀ k t, t ∈ movable_at mv k → 0 < count us (t, k).
(** A type on a key is movable or has no other live key. *)
Definition movable_complete (mv : gmap K (list (kind K))) (D : gset K) : Prop :=
  ∀ k t, 0 < count us (t, k) → t ∈ movable_at mv k ∨ ∀ o, o ∈ t → o ≠ k → o ∈ D.
(** A dead key is full, of rows that can only use dead keys. *)
Definition closed (D : gset K) : Prop :=
  ∀ k, k ∈ D → free slots ld k = false ∧ ∀ t, 0 < count us (t, k) → ∀ o, o ∈ t → o ∈ D.

Variables (own : kind K) (D0 : gset K).

(** Every key but a start was reached from an older one by a type on it. *)
Fixpoint chain (ps : list (K * option (kind K * K))) : Prop :=
  match ps with
  | [] => True
  | (k, None) :: ps => k ∈ own ∧ chain ps
  | (k, Some (t, p)) :: ps => (p ∈ ps.*1 ∧ 0 < count us (t, p) ∧ k ∈ t) ∧ chain ps
  end.

Lemma chain_parent ps k t p : chain ps → (k, Some (t, p)) ∈ ps → p ∈ ps.*1.
Proof using Type.
  induction ps as [|[k' [[t' p']|]] ps IH]; intros Hch Hin; [by apply not_elem_of_nil in Hin|..];
    destruct Hch as [Hh Hch]; cbn; apply elem_of_cons in Hin as [E|Hin]; try (right; by apply IH); try done.
  injection E as <- <- <-. right. apply Hh.
Qed.

(** What holds throughout a search. *)
Record search_inv (mv : gmap K (list (kind K))) (s : search K) : Prop := {
  si_nodup : NoDup (parent s).*1;
  si_new : ∀ k, k ∈ (parent s).*1 → k ∉ D0 ∧ is_Some (slots !! k);
  si_chain : chain (parent s);
  si_through : ∀ k t p, (k, Some (t, p)) ∈ parent s → p ∉ s_dead s;
  si_dead : ∀ k, k ∈ s_dead s ↔ k ∈ D0 ∨ (k ∈ (parent s).*1 ∧ k ∈ s_dead s);
  si_closed : closed (s_dead s);
  si_full : ∀ k, k ∈ (parent s).*1 → found s ≠ Some k → free slots ld k = false;
  si_found : ∀ k, found s = Some k → k ∈ (parent s).*1 ∧ k ∉ s_dead s ∧ free slots ld k = true;
  si_queue : ∀ k, k ∈ queue s → k ∈ (parent s).*1 ∧ k ∉ s_dead s;
  si_complete : movable_complete mv (s_dead s) }.

(** A key or type all of whose ways out are known. *)
Definition reached (s : search K) (t : kind K) : Prop := ∀ o, o ∈ t → o ∈ s_dead s ∨ o ∈ (parent s).*1.

(** What also holds while a search is still looking; [cur] is being walked. *)
Record live_inv (cur : option K) (s : search K) : Prop := {
  li_found : found s = None;
  li_spent : s_spent s = false;
  li_seen : ∀ t, t ∈ seen s → reached s t;
  li_walked : ∀ k, k ∈ (parent s).*1 → k ∉ queue s → k ∉ s_dead s → cur ≠ Some k →
    ∀ t, 0 < count us (t, k) → reached s t }.

(** Later in the same search. *)
Record extends (s s' : search K) : Prop := {
  ex_parent : ∀ k, k ∈ (parent s).*1 → k ∈ (parent s').*1;
  ex_dead : ∀ k, k ∈ s_dead s → k ∈ s_dead s';
  ex_live : ∀ k, k ∈ (parent s).*1 → k ∉ s_dead s → k ∉ s_dead s';
  ex_queue : ∀ k, k ∈ queue s' → k ∈ queue s ∨ k ∉ (parent s).*1;
  ex_queue' : ∀ k, k ∈ queue s → k ∈ queue s';
  ex_new : ∀ k, k ∈ (parent s').*1 → k ∈ (parent s).*1 ∨ k ∈ queue s' ∨ k ∈ s_dead s' ∨ found s' = Some k;
  ex_found : ∀ k, found s = Some k → found s' = Some k }.

Lemma extends_refl s : extends s s.
Proof. split; auto. Qed.

Lemma extends_trans s1 s2 s3 : extends s1 s2 → extends s2 s3 → extends s1 s3.
Proof.
  intros [p1 d1 l1 q1 r1 n1 f1] [p2 d2 l2 q2 r2 n2 f2]. split; auto.
  - intros k [Hk|Hk]%q2; [by apply q1|]. right. intros Hp. by apply Hk, p1.
  - intros k [[?|[?|[?|?]]]%n1|[?|[?|?]]]%n2; auto.
Qed.

Lemma reached_extends s s' t : extends s s' → reached s t → reached s' t.
Proof. intros [p d _ _ _ _ _] Hr o Ho. destruct (Hr o Ho) as [?|?]; auto. Qed.

(** Keys that may still enter the queue. *)
Definition potential (s : search K) : nat :=
  length (queue s) + size (dom slots ∖ list_to_set (parent s).*1).

(** ** One new key *)

Lemma closed_add mv k D :
  closed D → movable_complete mv D → movable_at mv k = [] → free slots ld k = false → closed ({[k]} ∪ D).
Proof.
  intros Hc Hm Hk Hf x [->%elem_of_singleton|Hx]%elem_of_union.
  - split; [done|]. intros t Ht o Ho. destruct (decide (o = k)) as [->|Hne]; [by apply elem_of_union; left; apply elem_of_singleton|].
    apply elem_of_union; right. destruct (Hm k t Ht) as [Hin|Hin]; [rewrite Hk in Hin; by apply not_elem_of_nil in Hin|].
    by apply Hin.
  - destruct (Hc x Hx) as [Hfx Ht]. split; [done|]. intros t Hu o Ho. apply elem_of_union; right. by eapply Ht.
Qed.

Lemma complete_mono mv D D' : movable_complete mv D → (∀ k, k ∈ D → k ∈ D') → movable_complete mv D'.
Proof. intros Hm Hsub k t Ht. destruct (Hm k t Ht) as [?|Hall]; [by left|right]. auto. Qed.

(** [parent[k] = p] and then the queue or the dead keys, for a full key. *)
Lemma add_key_inv mv s k p :
  search_inv mv s → found s = None → k ∉ (parent s).*1 → k ∉ s_dead s → is_Some (slots !! k) →
  free slots ld k = false → chain ((k, p) :: parent s) → (∀ t q, p = Some (t, q) → q ∉ s_dead s) →
  let s' := enqueue mv k (set_parent k p s) in
  search_inv mv s' ∧ extends s s' ∧ potential s' ≤ potential s ∧ (parent s').*1 = k :: (parent s).*1 ∧
  seen s' = seen s ∧ found s' = None ∧ s_spent s' = s_spent s.
Proof.
  intros [Hnd Hnew Hch Hth Hd Hcl Hfull Hfo Hq Hco] Hnone Hk Hkd Hin Hfree Hchain Hp. cbv zeta.
  assert (∀ q, q ∈ (parent s).*1 → q ≠ k) as Hne by (intros q Hqq ->; done).
  assert (size (dom slots ∖ list_to_set (k :: (parent s).*1)) < size (dom slots ∖ list_to_set (parent s).*1)) as Hsize.
  { apply subset_size. split; [set_solver|]. intros Hsub. specialize (Hsub k). apply elem_of_dom in Hin. set_solver. }
  unfold enqueue, potential. cbn [set_parent parent queue seen s_dead s_spent s_work found fmap list_fmap fst].
  case_bool_decide as Hmv.
  - split_and!; [split|split|..]; cbn [parent queue seen s_dead s_spent s_work found fmap list_fmap fst]; try done.
    + by constructor.
    + intros x [->|Hx]%elem_of_cons; [|by apply Hnew]. split; [|done]. intros Hx. apply Hkd, Hd. by left.
    + intros x t q [E|Hx]%elem_of_cons.
      * injection E as -> <-. specialize (Hp t q eq_refl). assert (q ≠ k); [|set_solver]. apply Hne. by destruct Hchain as [(? & _) _].
      * specialize (Hth x t q Hx). assert (q ≠ k); [|set_solver]. apply Hne. by eapply chain_parent.
    + intros x. rewrite elem_of_union, elem_of_singleton, elem_of_cons, Hd. tauto.
    + by apply (closed_add mv).
    + intros x [->|Hx]%elem_of_cons _; [done|]. apply Hfull; [done|by rewrite Hnone].
    + intros x Hx. rewrite Hnone in Hx. done.
    + intros x Hx. destruct (Hq x Hx) as [? ?]. split; [by right|]. specialize (Hne x). set_solver.
    + eapply complete_mono; [done|]. set_solver.
    + intros x Hx. by right.
    + set_solver.
    + intros x Hx Hxd. specialize (Hne x Hx). set_solver.
    + intros x Hx. by left.
    + intros x [->|Hx]%elem_of_cons; [right; right; left; set_solver|by left].
    + lia.
  - split_and!; [split|split|..]; cbn [parent queue seen s_dead s_spent s_work found fmap list_fmap fst]; try done.
    + by constructor.
    + intros x [->|Hx]%elem_of_cons; [|by apply Hnew]. split; [|done]. intros Hx. apply Hkd, Hd. by left.
    + intros x t q [E|Hx]%elem_of_cons; [injection E as -> <-; by eapply Hp|by eapply Hth].
    + intros x. rewrite elem_of_cons. rewrite Hd at 1. split; [tauto|]. intros [?|[_ ?]]; [by left|by apply Hd].
    + intros x [->|Hx]%elem_of_cons _; [done|]. apply Hfull; [done|by rewrite Hnone].
    + intros x Hx. rewrite Hnone in Hx. done.
    + intros x [Hx| ->%list_elem_of_singleton]%elem_of_app; [|split; [by left|done]].
      destruct (Hq x Hx) as [? ?]. split; [by right|done].
    + intros x Hx. by right.
    + intros x [Hx| ->%list_elem_of_singleton]%elem_of_app; [by left|by right].
    + intros x Hx. apply elem_of_app. by left.
    + intros x [->|Hx]%elem_of_cons; [right; left; apply elem_of_app; right; by left|by left].
    + rewrite length_app. cbn [length]. lia.
Qed.
(** Flags do not matter to what a search has found out. *)
Lemma tick_inv mv s : search_inv mv s → search_inv mv (tick s).
Proof using Type. intros [Hnd Hnew Hch Hth Hd Hcl Hfull Hfo Hq Hco]. by split. Qed.
Lemma spent_inv mv s : search_inv mv s → search_inv mv (out_of_budget s).
Proof using Type. intros [Hnd Hnew Hch Hth Hd Hcl Hfull Hfo Hq Hco]. by split. Qed.
Lemma see_inv mv t s : search_inv mv s → search_inv mv (see t s).
Proof using Type. intros [Hnd Hnew Hch Hth Hd Hcl Hfull Hfo Hq Hco]. by split. Qed.

(** The same knowledge under other flags. *)
Definition alike (s s' : search K) : Prop :=
  parent s = parent s' ∧ queue s = queue s' ∧ s_dead s = s_dead s' ∧ found s = found s'.
Lemma alike_extends s1 s2 s3 : alike s1 s2 → extends s2 s3 → extends s1 s3.
Proof using Type. intros (E1 & E2 & E3 & E4) [p d l q r n f]. by split; rewrite ?E1, ?E2, ?E3, ?E4. Qed.

Lemma found_key_inv mv s k p :
  search_inv mv s → found s = None → k ∉ (parent s).*1 → k ∉ s_dead s → is_Some (slots !! k) →
  free slots ld k = true → chain ((k, p) :: parent s) → (∀ t q, p = Some (t, q) → q ∉ s_dead s) →
  let s' := set_found k (set_parent k p s) in search_inv mv s' ∧ extends s s' ∧ potential s' ≤ potential s.
Proof using Type.
  intros [Hnd Hnew Hch Hth Hd Hcl Hfull Hfo Hq Hco] Hnone Hk Hkd Hin Hfree Hchain Hp. cbv zeta.
  unfold potential. split_and!; [split|split|..]; cbn [set_found set_parent parent queue seen s_dead s_spent s_work found fmap list_fmap fst];
    try done.
  - by constructor.
  - intros x [->|Hx]%elem_of_cons; [|by apply Hnew]. split; [|done]. intros Hx. apply Hkd, Hd. by left.
  - intros x t q [E|Hx]%elem_of_cons; [injection E as -> <-; by eapply Hp|by eapply Hth].
  - intros x. rewrite elem_of_cons. rewrite Hd at 1. split; [tauto|]. intros [?|[_ ?]]; [by left|by apply Hd].
  - intros x [->|Hx]%elem_of_cons Hne; [by destruct Hne|]. apply Hfull; [done|by rewrite Hnone].
  - intros x [= <-]. split; [by left|done].
  - intros x Hx. destruct (Hq x Hx) as [? ?]. split; [by right|done].
  - intros x Hx. by right.
  - intros x Hx. by left.
  - intros x [->|Hx]%elem_of_cons; [by right; right; right|by left].
  - intros x Hx. congruence.
  - apply Nat.add_le_mono_l, subseteq_size. set_solver.
Qed.

(** ** [for other in others] *)

Lemma reach_spec mv t k others : ∀ s,
  search_inv mv s → found s = None → s_spent s = false → k ∈ (parent s).*1 → k ∉ s_dead s → 0 < count us (t, k) →
  (∀ o, o ∈ others → o ∈ t ∧ is_Some (slots !! o) ∧ (o ∉ (parent s).*1 → o ∉ s_dead s)) →
  let s' := reach slots budget ld mv t k others s in
  search_inv mv s' ∧ extends s s' ∧ potential s' ≤ potential s ∧ seen s' = seen s ∧
  (found s' = None → s_spent s' = false → ∀ o, o ∈ others → o ∈ (parent s').*1).
Proof using Type.
  induction others as [|o others IH]; intros s Hinv Hf Hsp Hk Hkd Ht Hall; cbn [reach].
  { split_and!; try done; [apply extends_refl|]. intros _ _ x []%not_elem_of_nil. }
  destruct (Hall o (list_elem_of_here _ _)) as (Hot & Ho & Hlive).
  assert (∀ x, x ∈ others → x ∈ t ∧ is_Some (slots !! x) ∧ (x ∉ (parent s).*1 → x ∉ s_dead s)) as Hall'
    by (intros x Hx; apply Hall; by right).
  case_bool_decide as Hin.
  { destruct (IH s Hinv Hf Hsp Hk Hkd Ht Hall') as (H1 & H2 & H3 & H4 & H5). split_and!; try done.
    intros Hf' Hs' x [->|Hx]%elem_of_cons; [by apply (ex_parent _ _ H2)|by apply H5]. }
  case_bool_decide as Hb.
  { split_and!; try done; [by apply spent_inv|by split; auto]. }
  assert (chain ((o, Some (t, k)) :: parent (tick s))) as Hchain by (split; [done|apply Hinv]).
  assert (∀ t' q, Some (t, k) = Some (t', q) → q ∉ s_dead (tick s)) as Hq by (by intros t' q [= <- <-]).
  assert (alike s (tick s)) as Hal by done. apply tick_inv in Hinv.
  destruct (free slots ld o) eqn:Hfree.
  - destruct (found_key_inv mv (tick s) o (Some (t, k)) Hinv Hf Hin (Hlive Hin) Ho Hfree Hchain Hq) as (H1 & H2 & H3).
    split_and!; try done. by eapply alike_extends.
  - destruct (add_key_inv mv (tick s) o (Some (t, k)) Hinv Hf Hin (Hlive Hin) Ho Hfree Hchain Hq)
      as (H1 & H2 & H3 & H4 & H5 & H6 & H7).
    set (s1 := enqueue mv o (set_parent o (Some (t, k)) (tick s))) in *.
    destruct (IH s1) as (G1 & G2 & G3 & G4 & G5); try done.
    + by apply (ex_parent _ _ H2).
    + by apply (ex_live _ _ H2).
    + intros x Hx. destruct (Hall' x Hx) as (? & ? & Hxl). split_and!; [done..|]. rewrite H4, not_elem_of_cons.
      intros [Hxo Hxp] Hxd. rewrite (si_dead _ _ H1) in Hxd. destruct Hxd as [Hxd|[Hxd _]].
      * apply Hxl; [done|]. apply (si_dead _ _ Hinv). by left.
      * rewrite H4 in Hxd. by apply elem_of_cons in Hxd as [?|?].
    + split_and!; try done.
      * eapply alike_extends; [exact Hal|]. by eapply extends_trans.
      * change (potential (tick s)) with (potential s) in H3. lia.
      * intros Hf' Hs' x [->|Hx]%elem_of_cons; [|by apply G5]. apply (ex_parent _ _ G2). rewrite H4. by left.
Qed.
(** ** [for kind in movable[k]] *)

Hypothesis us_typed : ∀ t k, 0 < count us (t, k) → ∀ o, o ∈ t → is_Some (slots !! o).

Lemma walked_extends cur s s' :
  extends s s' → found s' = None → live_inv cur s →
  ∀ x, x ∈ (parent s').*1 → x ∉ queue s' → x ∉ s_dead s' → cur ≠ Some x → ∀ t, 0 < count us (t, x) → reached s' t.
Proof using Type.
  intros Hex Hf [_ _ _ Hw] x Hx Hq Hd Hc t Ht. destruct (ex_new _ _ Hex x Hx) as [Hxs|[?|[?|?]]]; [|done|done|congruence].
  apply (reached_extends s); [done|]. apply (Hw x); [done| |intros Hxd; by apply Hd, (ex_dead _ _ Hex)|done..].
  intros Hxq. by apply Hq, (ex_queue' _ _ Hex).
Qed.

Definition stuck (s : search K) (k : K) (t : kind K) : Prop := ∀ o, o ∈ t → o ≠ k → o ∈ s_dead s.

Lemma scan_kinds_spec mv k ts : ∀ gone s,
  search_inv mv s → live_inv (Some k) s → k ∈ (parent s).*1 → k ∉ s_dead s →
  (∀ t, t ∈ ts → 0 < count us (t, k)) → (∀ t, t ∈ gone → stuck s k t) →
  let r := scan_kinds slots budget ld mv k ts gone s in
  search_inv mv r.1 ∧ extends s r.1 ∧ potential r.1 ≤ potential s ∧ (∀ t, t ∈ r.2 → stuck r.1 k t) ∧
  (stopped r.1 = false → live_inv (Some k) r.1 ∧ ∀ t, t ∈ ts → reached r.1 t).
Proof using us_typed.
  induction ts as [|t ts IH]; intros gone s Hinv Hlive Hk Hkd Hts Hgone; cbn [scan_kinds].
  { split_and!; try done; [apply extends_refl|]. intros _. split; [done|]. intros t []%not_elem_of_nil. }
  case_bool_decide as Hb.
  { split_and!; try done; [by apply spent_inv|by split; auto|]. unfold stopped. cbn. by rewrite orb_true_r. }
  assert (live_inv (Some k) (tick s)) as Hlive' by (by destruct Hlive; split).
  assert (alike s (tick s)) as Hal by done. apply tick_inv in Hinv. set (s1 := tick s) in *.
  assert (∀ t, t ∈ ts → 0 < count us (t, k)) as Hts' by (intros u Hu; apply Hts; by right).
  set (others := filter (λ o, o ≠ k ∧ o ∉ s_dead s1) t).
  assert (∀ s2, extends s1 s2 → (∀ o, o ∈ others → o ∈ (parent s2).*1 ∨ o ∈ s_dead s2) → reached s2 t) as Hreach.
  { intros s2 Hex Ho o Hot. destruct (decide (o = k)) as [->|Hne]; [right; by apply (ex_parent _ _ Hex)|].
    destruct (decide (o ∈ s_dead s1)) as [Hd|Hd]; [left; by apply (ex_dead _ _ Hex)|].
    destruct (Ho o) as [?|?]; [apply list_elem_of_filter; tauto|by right|by left]. }
  assert (∀ gone s2, extends s1 s2 → search_inv mv s2 → live_inv (Some k) s2 → potential s2 ≤ potential s →
            (∀ t, t ∈ gone → stuck s2 k t) → reached s2 t →
            let r := scan_kinds slots budget ld mv k ts gone s2 in
            search_inv mv r.1 ∧ extends s r.1 ∧ potential r.1 ≤ potential s ∧ (∀ t, t ∈ r.2 → stuck r.1 k t) ∧
            (stopped r.1 = false → live_inv (Some k) r.1 ∧ ∀ t', t' ∈ t :: ts → reached r.1 t')) as Hnext.
  { intros gone2 s2 Hex Hinv2 Hlive2 Hpot Hgone2 Hrt.
    destruct (IH gone2 s2) as (H1 & H2 & H3 & H4 & H5); try done;
      [by apply (ex_parent _ _ Hex)|by apply (ex_live _ _ Hex)|].
    cbv zeta. split_and!; try done; [eapply alike_extends; [exact Hal|by eapply extends_trans]|lia|].
    intros Hst. destruct (H5 Hst) as [H6 H7]. split; [done|].
    intros t' [->|Ht']%elem_of_cons; [by apply (reached_extends s2)|by apply H7]. }
  assert (∀ t, t ∈ gone → stuck s1 k t) as Hgone1 by done.
  case_bool_decide as Hnil.
  { apply Hnext; [apply extends_refl|done..| |].
    - intros u [Hu| ->%list_elem_of_singleton]%elem_of_app; [by apply Hgone1|]. intros o Ho Hne.
      destruct (decide (o ∈ s_dead s1)) as [?|Hd]; [done|]. assert (o ∈ others) as Hin by (by apply list_elem_of_filter).
      rewrite Hnil in Hin. by apply not_elem_of_nil in Hin.
    - apply Hreach; [apply extends_refl|]. rewrite Hnil. intros o []%not_elem_of_nil. }
  case_bool_decide as Hseen.
  { apply Hnext; [apply extends_refl|done..|]. by apply (li_seen _ _ Hlive'). }
  destruct (reach_spec mv t k others (see t s1)) as (H1 & H2 & H3 & H4 & H5);
    [by apply see_inv|apply Hlive'|apply Hlive'|done|done|apply Hts; by left| |].
  { intros o [[Hok Hod] Hot]%list_elem_of_filter. split_and!; [done| |done].
    apply (us_typed t k); [apply Hts; by left|done]. }
  set (s2 := reach slots budget ld mv t k others (see t s1)) in *.
  assert (extends s1 s2) as Hex2 by (by apply (alike_extends s1 (see t s1))).
  assert (potential s2 ≤ potential s) as Hpot by exact H3.
  assert (∀ t, t ∈ gone → stuck s2 k t) as Hgone2.
  { intros u Hu o Ho Hne. apply (ex_dead _ _ Hex2). by eapply Hgone1. }
  destruct (stopped s2) eqn:Hst.
  { cbn [fst snd]. split_and!; try done; [by apply (alike_extends s s1)|]. by rewrite Hst. }
  unfold stopped in Hst. apply orb_false_iff in Hst as [Hf Hsp]. apply bool_decide_eq_false, dec_stable in Hf.
  assert (reached s2 t) as Hrt by (apply Hreach; [done|]; intros o Ho; left; by apply H5).
  apply Hnext; try done. split; [done..| |].
  - intros u. rewrite H4. cbn [see seen]. intros [->%elem_of_singleton|Hu]%elem_of_union; [done|].
    apply (reached_extends s1); [done|]. by apply (li_seen _ _ Hlive').
  - by apply (walked_extends (Some k) s1).
Qed.
(** ** [for k in queue] *)

Lemma complete_drop mv k gone s :
  movable_complete mv (s_dead s) → (∀ t, t ∈ gone → stuck s k t) → movable_complete (drop_movable k gone mv) (s_dead s).
Proof using Type.
  intros Hm Hg x t Ht. destruct (Hm x t Ht) as [Hin|?]; [|by right]. setoid_rewrite movable_drop.
  destruct (decide (x = k ∧ t ∈ gone)) as [[-> Hgt]|Hn]; [right; exact (Hg t Hgt)|by left].
Qed.

Lemma drop_inv mv k gone s :
  search_inv mv s → (∀ t, t ∈ gone → stuck s k t) → search_inv (drop_movable k gone mv) s.
Proof using Type. intros [Hnd Hnew Hch Hth Hd Hcl Hfull Hfo Hq Hco] Hg. split; try done. by apply complete_drop. Qed.

Lemma set_queue_inv mv k q s :
  search_inv mv s → live_inv None s → queue s = k :: q →
  search_inv mv (set_queue q s) ∧ live_inv (Some k) (set_queue q s) ∧ potential s = S (potential (set_queue q s)).
Proof using Type.
  intros [Hnd Hnew Hch Hth Hd Hcl Hfull Hfo Hq Hco] [Hf Hs Hseen Hw] E. split_and!.
  - split; try done. intros x Hx. apply Hq. rewrite E. by right.
  - split; try done. intros x Hx Hxq Hxd Hne. apply (Hw x Hx); [|done..]. rewrite E.
    apply not_elem_of_cons. split; [congruence|done].
  - unfold potential. cbn. by rewrite E.
Qed.

Lemma walk_spec fuel : ∀ mv s,
  search_inv mv s → live_inv None s → movable_sound mv → potential s ≤ fuel →
  let r := walk slots budget ld fuel mv s in
  search_inv r.2 r.1 ∧ movable_sound r.2 ∧ (∀ k, k ∈ (parent s).*1 → k ∈ (parent r.1).*1) ∧
  (stopped r.1 = false → queue r.1 = [] ∧ live_inv None r.1).
Proof using us_typed.
  induction fuel as [|fuel IH]; intros mv s Hinv Hlive Hms Hpot; cbn [walk].
  { assert (queue s = []) as Hq by (apply nil_length_inv; unfold potential in Hpot; lia). by split_and!. }
  destruct (queue s) as [|k q] eqn:E; [by split_and!|].
  destruct (set_queue_inv mv k q s Hinv Hlive E) as (Hinv0 & Hlive0 & Hpot0).
  destruct (si_queue _ _ Hinv k) as [Hk Hkd]; [rewrite E; by left|].
  destruct (scan_kinds_spec mv k (movable_at mv k) [] (set_queue q s)) as (H1 & H2 & H3 & H4 & H5);
    [done..|intros t; apply Hms|by intros t Ht%not_elem_of_nil|].
  destruct (scan_kinds slots budget ld mv k (movable_at mv k) [] (set_queue q s)) as [s1 gone]. cbn [fst snd] in *.
  apply (drop_inv _ k gone) in H1; [|done].
  assert (movable_sound (drop_movable k gone mv)) as Hms' by (intros x t [Hx _]%movable_drop; by apply Hms).
  assert (∀ x, x ∈ (parent s).*1 → x ∈ (parent s1).*1) as Hpar by (intros x; apply (ex_parent _ _ H2)).
  destruct (stopped s1) eqn:Hst; [cbn [fst snd]; split_and!; try done; by rewrite Hst|].
  destruct (H5 eq_refl) as [[Hf Hs Hseen Hw] Hts].
  assert (live_inv None s1) as Hlive1.
  { split; [done..|]. intros x Hx Hxq Hxd _ t Ht. destruct (decide (x = k)) as [->|Hne]; [|apply (Hw x); congruence].
    destruct (si_complete _ _ Hinv k t Ht) as [Hin|Hall]; [by apply Hts|]. intros o Ho.
    destruct (decide (o = k)) as [->|Hne]; [by right|]. left. apply (ex_dead _ _ H2). by apply Hall. }
  destruct (IH _ _ H1 Hlive1 Hms') as (G1 & G2 & G3 & G4); [lia|]. split_and!; try done. intros x Hx. by apply G3, Hpar.
Qed.

(** ** The start and the whole search *)

Lemma start_spec mv keys : ∀ s,
  search_inv mv s → live_inv None s → NoDup keys → (∀ k, k ∈ keys → k ∈ own ∧ free slots ld k = false ∧ is_Some (slots !! k)) →
  (∀ k, k ∈ keys → k ∉ (parent s).*1) →
  let s' := start mv keys s in
  search_inv mv s' ∧ live_inv None s' ∧ potential s' ≤ potential s ∧
  (∀ k, k ∈ s_dead s ∨ k ∈ (parent s).*1 → k ∈ s_dead s' ∨ k ∈ (parent s').*1) ∧
  (∀ k, k ∈ keys → k ∈ s_dead s' ∨ k ∈ (parent s').*1).
Proof using Type.
  induction keys as [|k keys IH]; intros s Hinv Hlive Hnd Hkeys Hfresh; cbn [start].
  { split_and!; try done. intros k []%not_elem_of_nil. }
  apply NoDup_cons in Hnd as [Hk Hnd].
  assert (∀ x, x ∈ keys → x ∈ own ∧ free slots ld x = false ∧ is_Some (slots !! x)) as Hkeys'
    by (intros x Hx; apply Hkeys; by right).
  case_bool_decide as Hkd.
  { destruct (IH s Hinv Hlive Hnd Hkeys') as (H1 & H2 & H3 & H4 & H5); [intros x Hx; apply Hfresh; by right|].
    split_and!; try done. intros x [->|Hx]%elem_of_cons; [apply H4; by left|by apply H5]. }
  destruct (Hkeys k (list_elem_of_here _ _)) as (Hown & Hfree & Hin).
  destruct (add_key_inv mv s k None Hinv (li_found _ _ Hlive)) as (H1 & H2 & H3 & H4 & H5 & H6 & H7); try done.
  { apply Hfresh. by left. } { split; [done|apply Hinv]. }
  set (s1 := enqueue mv k (set_parent k None s)) in *.
  assert (live_inv None s1) as Hlive1.
  { split; [done|by rewrite H7; apply Hlive| |].
    - intros t. rewrite H5. intros Ht. apply (reached_extends s); [done|]. by apply (li_seen _ _ Hlive).
    - by apply (walked_extends None s). }
  destruct (IH s1 H1 Hlive1 Hnd Hkeys') as (G1 & G2 & G3 & G4 & G5).
  { intros x Hx. rewrite H4. apply not_elem_of_cons. split; [by intros ->|]. apply Hfresh. by right. }
  split_and!; try done; [lia| |].
  - intros x Hx. apply G4. destruct Hx as [Hx|Hx]; [left; by apply (ex_dead _ _ H2)|right; by apply (ex_parent _ _ H2)].
  - intros x [->|Hx]%elem_of_cons; [|by apply G5]. apply G4. right. rewrite H4. by left.
Qed.

Lemma closed_union mv s :
  search_inv mv s → live_inv None s → queue s = [] → closed (s_dead s ∪ list_to_set (parent s).*1).
Proof using Type.
  intros Hinv Hlive Hq k Hk. assert (∀ t, reached s t → ∀ o, o ∈ t → o ∈ s_dead s ∪ list_to_set (parent s).*1) as Hr.
  { intros t Ht o Ho. destruct (Ht o Ho); apply elem_of_union; [by left|right; by apply elem_of_list_to_set]. }
  destruct (decide (k ∈ s_dead s)) as [Hd|Hd].
  { destruct (si_closed _ _ Hinv k Hd) as [? Ht]. split; [done|]. intros t Hu. apply Hr. intros o Ho. left. by eapply Ht. }
  assert (k ∈ (parent s).*1) as Hp.
  { apply elem_of_union in Hk as [?|Hk]; [done|]. by apply elem_of_list_to_set in Hk. }
  split.
  - apply (si_full _ _ Hinv k Hp). by rewrite (li_found _ _ Hlive).
  - intros t Ht. apply Hr. eapply (li_walked _ _ Hlive k); try done. rewrite Hq. apply not_elem_of_nil.
Qed.

Lemma search_spec st :
  dead st = D0 → load st = ld → closed D0 → movable_complete (movable st) D0 → movable_sound (movable st) → NoDup own →
  (∀ k, k ∈ own → free slots ld k = false ∧ is_Some (slots !! k)) →
  let r := search_for slots budget own st in
  search_inv r.2 r.1 ∧ movable_sound r.2 ∧
  (stopped r.1 = false → let D := s_dead r.1 ∪ list_to_set (parent r.1).*1 in closed D ∧ ∀ k, k ∈ own → k ∈ D).
Proof using us_typed.
  intros Hd Hl Hcl Hco Hms Hnd Hown. unfold search_for. rewrite Hl.
  assert (search_inv (movable st) (empty_search st)) as Hinv.
  { split; cbn; rewrite ?Hd; try done; try by intros k []%not_elem_of_nil.
    - apply NoDup_nil_2.
    - by intros k t q ?%not_elem_of_nil.
    - intros k. split; [by left|]. intros [?|[?%not_elem_of_nil _]]; done. }
  assert (live_inv None (empty_search st)) as Hlive.
  { split; [done..| |]; cbn; [set_solver|]. by intros k ?%not_elem_of_nil. }
  destruct (start_spec (movable st) own (empty_search st) Hinv Hlive Hnd) as (H1 & H2 & H3 & H4 & H5).
  { intros k Hk. destruct (Hown k Hk). done. } { intros k _. cbn. apply not_elem_of_nil. }
  destruct (walk_spec (size slots) (movable st) (start (movable st) own (empty_search st))) as (G1 & G2 & G3 & G4); try done.
  { etransitivity; [exact H3|]. unfold potential. cbn. rewrite <-size_dom. apply subseteq_size. set_solver. }
  split_and!; try done. intros Hst. destruct (G4 Hst) as [Hq Hl']. split; [by eapply closed_union|].
  intros k Hk. destruct (H5 k Hk) as [Hkd|Hkp]; [|apply elem_of_union; right; apply elem_of_list_to_set; by apply G3].
  apply (si_dead _ _ H1) in Hkd as [Hk0|[Hkp _]].
  - apply elem_of_union; left. apply (si_dead _ _ G1). by left.
  - apply elem_of_union; right. apply elem_of_list_to_set. by apply G3.
Qed.

End search.

(** ** Which row holds which key *)

Section assignment.
Context {K : Type} `{Countable K} {O : Type}.
Implicit Types (l : list (Z * kind K)) (g : gmap Z K).

(** The rows of [l] that [g] gives [k], and those of type [t] among them. *)
Definition load_of g l (k : K) : nat := tally (λ r, bool_decide (g !! r.1 = Some k)) l.
Definition units_of g l (t : kind K) (k : K) : nat :=
  tally (λ r, bool_decide (r.2 = t) && bool_decide (g !! r.1 = Some k)) l.

Lemma units_of_pos g l t k : 0 < units_of g l t k → ∃ sid, (sid, t) ∈ l ∧ g !! sid = Some k.
Proof.
  unfold units_of. rewrite tally_pos. intros ([sid t'] & Hin & Hb). cbn in Hb.
  apply andb_true_iff in Hb as [Ht Hg]. apply bool_decide_eq_true in Ht, Hg. subst t'. by exists sid.
Qed.

Lemma NoDup_fst_eq l r1 r2 : NoDup l.*1 → r1 ∈ l → r2 ∈ l → r1.1 = r2.1 → r1 = r2.
Proof.
  destruct r1 as [s t1], r2 as [s' t2]. cbn. intros Hnd H1 H2 <-.
  apply (elem_of_list_to_map_1 (M := gmap Z)) in H1, H2; [|done..]. congruence.
Qed.

Lemma both_decide (t t' : kind K) (k k' : K) :
  bool_decide (t = t') && bool_decide (Some k = Some k') = bool_decide ((t', k') = (t, k)).
Proof. rewrite <-bool_decide_and. apply bool_decide_ext. naive_solver. Qed.

(** One row moves from [p] to [k]. *)
Lemma move_counts g l sid t p k :
  NoDup l.*1 → (sid, t) ∈ l → g !! sid = Some p →
  (∀ t' k', units_of (<[sid := k]> g) l t' k' + Nat.b2n (bool_decide ((t', k') = (t, p))) =
            units_of g l t' k' + Nat.b2n (bool_decide ((t', k') = (t, k)))) ∧
  (∀ k', load_of (<[sid := k]> g) l k' + Nat.b2n (bool_decide (k' = p)) = load_of g l k' + Nat.b2n (bool_decide (k' = k))).
Proof.
  intros Hnd Hin Hg.
  assert (NoDup l) as Hnd' by (by eapply NoDup_fmap_1).
  assert (∀ r, r ∈ l → r ≠ (sid, t) → <[sid := k]> g !! r.1 = g !! r.1) as Hsame.
  { intros r Hr Hne. apply lookup_insert_ne. intros E. apply Hne. by apply (NoDup_fst_eq l). }
  split.
  - intros t' k'. unfold units_of.
    pose proof (tally_change (λ r, bool_decide (r.2 = t') && bool_decide (g !! r.1 = Some k'))
      (λ r, bool_decide (r.2 = t') && bool_decide (<[sid := k]> g !! r.1 = Some k')) l (sid, t) Hnd' Hin) as Hc.
    cbn [fst snd] in Hc. rewrite Hg, lookup_insert_eq, !both_decide in Hc. apply Hc.
    intros r Hr Hne. by rewrite Hsame.
  - intros k'. unfold load_of.
    pose proof (tally_change (λ r : Z * kind K, bool_decide (g !! r.1 = Some k'))
      (λ r, bool_decide (<[sid := k]> g !! r.1 = Some k')) l (sid, t) Hnd' Hin) as Hc.
    cbn [fst snd] in Hc. rewrite Hg, lookup_insert_eq in Hc.
    rewrite (bool_decide_ext (Some p = Some k') (k' = p)), (bool_decide_ext (Some k = Some k') (k' = k)) in Hc
      by naive_solver. apply Hc.
    intros r Hr Hne. by rewrite Hsame.
Qed.

(** One row is added. *)
Lemma add_counts g l sid own k :
  sid ∉ l.*1 →
  (∀ t' k', units_of (<[sid := k]> g) (l ++ [(sid, own)]) t' k' =
            units_of g l t' k' + Nat.b2n (bool_decide ((t', k') = (own, k)))) ∧
  (∀ k', load_of (<[sid := k]> g) (l ++ [(sid, own)]) k' = load_of g l k' + Nat.b2n (bool_decide (k' = k))).
Proof.
  intros Hsid. assert (∀ r, r ∈ l → <[sid := k]> g !! r.1 = g !! r.1) as Hsame.
  { intros r Hr. apply lookup_insert_ne. intros E. apply Hsid. rewrite E. by apply list_elem_of_fmap_2. }
  split.
  - intros t' k'. unfold units_of. rewrite tally_app. cbn [tally fst snd].
    rewrite lookup_insert_eq, both_decide, Nat.add_0_r. f_equal. apply tally_ext. intros r Hr. by rewrite Hsame.
  - intros k'. unfold load_of. rewrite tally_app. cbn [tally fst snd].
    rewrite lookup_insert_eq, (bool_decide_ext (Some k = Some k') (k' = k)), Nat.add_0_r by naive_solver.
    f_equal. apply tally_ext. intros r Hr. by rewrite Hsame.
Qed.

(** An unmatched row is added. *)
Lemma skip_counts g l sid own :
  g !! sid = None →
  (∀ t k, units_of g (l ++ [(sid, own)]) t k = units_of g l t k) ∧ (∀ k, load_of g (l ++ [(sid, own)]) k = load_of g l k).
Proof.
  intros Hg. split; intros; unfold units_of, load_of; rewrite tally_app; cbn [tally fst snd]; rewrite Hg.
  - rewrite (bool_decide_eq_false_2 (None = Some k)), andb_false_r by done. cbn. lia.
  - rewrite (bool_decide_eq_false_2 (None = Some k)) by done. cbn. lia.
Qed.

(** ** The path back *)

Variables (slots : gmap K (list O)) (ld : gmap K nat) (own : kind K) (D : gset K) (l : list (Z * kind K)).

(** The path from [k] back to a key of [own]: each step has a row to move. *)
Fixpoint way (us : gmap (kind K * K) nat) (ps : list (K * option (kind K * K))) (k : K) : Prop :=
  match ps with
  | [] => k ∈ own
  | (k', p) :: ps =>
      if bool_decide (k' = k) then
        match p with
        | None => k ∈ own
        | Some (t, q) => 0 < count us (t, q) ∧ k ∈ t ∧ q ∉ D ∧ q ∈ ps.*1 ∧ way us ps q
        end
      else way us ps k
  end.

Lemma chain_way us ps : ∀ k,
  NoDup ps.*1 → chain us own ps → (∀ x t p, (x, Some (t, p)) ∈ ps → p ∉ D) → k ∈ ps.*1 → way us ps k.
Proof using Type.
  induction ps as [|[k' p] ps IH]; intros k Hnd Hch Hth Hk; [by apply not_elem_of_nil in Hk|].
  cbn [fmap list_fmap fst] in Hnd, Hk. apply NoDup_cons in Hnd as [Hk' Hnd]. cbn [way].
  assert (chain us own ps) as Hch' by (by destruct p as [[t q]|]; destruct Hch).
  assert (∀ x t p, (x, Some (t, p)) ∈ ps → p ∉ D) as Hth' by (intros x t q Hx; apply (Hth x t q); by right).
  case_bool_decide as E; [subst k'|].
  - destruct p as [[t q]|]; [|by destruct Hch]. destruct Hch as [(Hq & Hu & Hkt) _].
    split_and!; [done..| |done|by apply IH]. apply (Hth k t q). by left.
  - apply elem_of_cons in Hk as [?|Hk]; [congruence|]. by apply IH.
Qed.

Lemma way_change us us' ps : ∀ q,
  NoDup ps.*1 → (∀ t x, x ∈ ps.*1 → x ≠ q → count us (t, x) ≤ count us' (t, x)) → way us ps q → way us' ps q.
Proof using Type.
  induction ps as [|[k' p] ps IH]; intros q Hnd Hle; [done|]. cbn [way].
  cbn [fmap list_fmap fst] in Hnd, Hle. apply NoDup_cons in Hnd as [Hk' Hnd].
  case_bool_decide as E; [subst k'|].
  - destruct p as [[t x]|]; [|done]. intros (Hu & Hkt & Hx & Hxp & Hw). split_and!; try done.
    + assert (count us (t, x) ≤ count us' (t, x)); [|lia]. apply Hle; [by right|]. by intros ->.
    + apply IH; [done| |done]. intros t' y Hy _. apply Hle; [by right|]. by intros ->.
  - intros Hw. apply IH; [done| |done]. intros t' y Hy Hne. apply Hle; [by right|done].
Qed.

(** The counts agree with the rows, types and dead keys with the counts. *)
Record placed (g : gmap Z K) (us : gmap (kind K * K) nat) (mv : gmap K (list (kind K))) : Prop := {
  pl_units : ∀ t k, count us (t, k) = units_of g l t k;
  pl_keys : ∀ r k, r ∈ l → g !! r.1 = Some k → k ∈ r.2;
  pl_sound : movable_sound us mv;
  pl_complete : movable_complete us mv D;
  pl_closed : closed slots us ld D }.

(** What moving one unit of [t] from [q] to [k] does to types and dead keys. *)
Lemma move_units us mv t q k :
  movable_sound us mv → movable_complete us mv D → closed slots us ld D →
  0 < count us (t, q) → q ≠ k → k ∉ D →
  let us1 := decrement us (t, q) in
  let mv1 := if bool_decide (count us1 (t, q) = 0) then drop_movable q [t] mv else mv in
  let us2 := increment us1 (t, k) in
  movable_sound us2 (add_movable k t mv1) ∧ movable_complete us2 (add_movable k t mv1) D ∧ closed slots us2 ld D ∧
  (∀ t' x, count us2 (t', x) + Nat.b2n (bool_decide ((t', x) = (t, q))) =
           count us (t', x) + Nat.b2n (bool_decide ((t', x) = (t, k)))).
Proof using Type.
  intros Hms Hco Hcl Hu Hqk HkD. cbv zeta.
  set (us1 := decrement us (t, q)). set (us2 := increment us1 (t, k)).
  assert (∀ t' x, count us2 (t', x) + Nat.b2n (bool_decide ((t', x) = (t, q))) =
                  count us (t', x) + Nat.b2n (bool_decide ((t', x) = (t, k)))) as Hcount.
  { intros t' x. unfold us2, us1. rewrite count_increment, count_decrement.
    case_bool_decide as E1; case_bool_decide as E2; try rewrite E1 in *; try rewrite E2 in *; cbn; lia. }
  set (mv1 := if bool_decide (count us1 (t, q) = 0) then drop_movable q [t] mv else mv).
  assert (∀ x t', t' ∈ movable_at mv1 x ↔ t' ∈ movable_at mv x ∧ ¬ (count us1 (t, q) = 0 ∧ x = q ∧ t' = t)) as Hmv1.
  { intros x t'. unfold mv1. case_bool_decide as E; [rewrite movable_drop, list_elem_of_singleton|]; tauto. }
  assert (count us2 (t, q) = count us1 (t, q)) as Hq2.
  { unfold us2. rewrite count_increment, (bool_decide_eq_false_2 ((t, q) = (t, k))) by congruence. cbn. lia. }
  split_and!; [| | |done].
  - intros x t' [[-> ->]|[Hin Hn]%Hmv1]%movable_add.
    + unfold us2. rewrite count_increment, bool_decide_eq_true_2 by done. cbn. lia.
    + specialize (Hms x t' Hin). specialize (Hcount t' x). destruct (decide ((t', x) = (t, q))) as [[= -> ->]|Hne].
      * rewrite Hq2. destruct (count us1 (t, q)); [|lia]. by destruct Hn.
      * rewrite (bool_decide_eq_false_2 ((t', x) = (t, q))) in Hcount by done. cbn in Hcount. lia.
  - intros x t' Ht'. setoid_rewrite movable_add. setoid_rewrite Hmv1.
    destruct (decide ((t', x) = (t, k))) as [[= -> ->]|Hne]; [by left; left|].
    specialize (Hcount t' x). rewrite (bool_decide_eq_false_2 ((t', x) = (t, k))) in Hcount by done. cbn [Nat.b2n] in Hcount.
    destruct (Hco x t') as [Hin|Hall]; [lia| |by right]. left. right. split; [done|]. intros (Hz & -> & ->).
    rewrite Hq2 in Ht'. lia.
  - intros x Hx. destruct (Hcl x Hx) as [Hf Ht]. split; [done|]. intros t' Hu'. apply Ht.
    specialize (Hcount t' x). rewrite (bool_decide_eq_false_2 ((t', x) = (t, k))) in Hcount by (intros [= -> ->]; done).
    cbn [Nat.b2n] in Hcount. lia.
Qed.

Lemma shift_spec ps : ∀ k us mv g,
  NoDup l.*1 → NoDup ps.*1 → way us ps k → k ∉ D → placed g us mv →
  let '(k', us', mv') := shift ps k us mv in
  ∃ g', k' ∈ own ∧ k' ∉ D ∧ placed g' us' mv' ∧ dom g' = dom g ∧
    ∀ x, load_of g' l x + Nat.b2n (bool_decide (x = k')) = load_of g l x + Nat.b2n (bool_decide (x = k)).
Proof using Type.
  induction ps as [|[k' p] ps IH]; intros k us mv g Hndl Hnd Hway HkD Hpl; cbn [shift].
  { exists g. by split_and!. }
  cbn [way] in Hway. cbn [fmap list_fmap fst] in Hnd. apply NoDup_cons in Hnd as [Hk' Hnd].
  case_bool_decide as E; [subst k'|by apply IH].
  destruct p as [[t q]|]; [|exists g; by split_and!].
  destruct Hway as (Hu & Hkt & HqD & Hqp & Hw). assert (q ≠ k) as Hqk by (by intros ->).
  destruct Hpl as [Hun Hkeys Hms Hco Hcl].
  destruct (move_units us mv t q k Hms Hco Hcl Hu Hqk HkD) as (M1 & M2 & M3 & M4).
  set (us1 := decrement us (t, q)) in *. set (us2 := increment us1 (t, k)) in *.
  destruct (units_of_pos g l t q) as (sid & Hsid & Hg); [by rewrite <-Hun|].
  destruct (move_counts g l sid t q k Hndl Hsid Hg) as [C1 C2].
  specialize (IH q us2 (add_movable k t (if bool_decide (count us1 (t, q) = 0) then drop_movable q [t] mv else mv))
                 (<[sid := k]> g) Hndl Hnd).
  destruct (shift ps q us2 _) as [[k2 us'] mv'].
  destruct IH as (g' & H1 & H2 & H3 & H4 & H5).
  - apply (way_change us); [done| |done]. intros t' x Hx Hne. specialize (M4 t' x).
    rewrite (bool_decide_eq_false_2 ((t', x) = (t, q))) in M4 by (by intros [= -> ->]). cbn in M4. lia.
  - done.
  - split; try done.
    + intros t' x. specialize (M4 t' x). specialize (C1 t' x). rewrite Hun in M4. lia.
    + intros r x Hr. destruct (decide (r.1 = sid)) as [Hs|Hne]; [|rewrite lookup_insert_ne by done; by apply Hkeys].
      assert (r = (sid, t)) as -> by (by apply (NoDup_fst_eq l)). rewrite lookup_insert_eq. by intros [= <-].
  - exists g'. split_and!; try done.
    + rewrite H4, dom_insert_L. assert (sid ∈ dom g) by (apply elem_of_dom; by eexists). set_solver.
    + intros x. specialize (H5 x). specialize (C2 x). lia.
Qed.

End assignment.

(** ** The rows placed so far *)

Section placing.
Context {K : Type} `{Countable K} {O : Type}.
Variables (slots : gmap K (list O)) (budget : nat).
Implicit Types (l : list (Z * kind K)) (g : gmap Z K).

(** What the code's comments promise of the state after the rows of [l]: no key
    is over its slots, and a row left out has keys without a free slot only, dead
    ones while the budget lasts. *)
Record matching_inv l g (st : state K) : Prop := {
  mi_nodup : NoDup l.*1;
  mi_dom : ∀ sid, is_Some (g !! sid) → sid ∈ l.*1;
  mi_placed : placed slots (load st) (dead st) l g (units st) (movable st);
  mi_load : ∀ k, count (load st) k = load_of g l k;
  mi_cap : ∀ k, count (load st) k ≤ capacity slots k;
  mi_typed : ∀ r, r ∈ l → NoDup r.2 ∧ ∀ k, k ∈ r.2 → is_Some (slots !! k);
  mi_full : ∀ r, r ∈ l → g !! r.1 = None → ∀ k, k ∈ r.2 → free slots (load st) k = false;
  mi_left : spent st = false → ∀ r, r ∈ l → g !! r.1 = None → ∀ k, k ∈ r.2 → k ∈ dead st }.

Lemma matching_inv_nil : matching_inv [] ∅ initial_state.
Proof.
  split; cbn; try done; try by intros r ?%not_elem_of_nil.
  - apply NoDup_nil_2.
  - intros sid [k Hk]. by rewrite lookup_empty in Hk.
  - split; cbn; try done; try by intros r k ?%not_elem_of_nil.
    + intros k t Hk. rewrite count_empty in Hk. lia.
  - intros k. rewrite count_empty. lia.
  - by intros _ r ?%not_elem_of_nil.
Qed.

Lemma free_spec ld k : free slots ld k = true ↔ count ld k < capacity slots k.
Proof. unfold free. apply bool_decide_eq_true. Qed.

Lemma us_typed_of l g st t k o :
  matching_inv l g st → 0 < count (units st) (t, k) → o ∈ t → is_Some (slots !! o).
Proof.
  intros Hinv Hu. rewrite (pl_units _ _ _ _ _ _ _ (mi_placed _ _ _ Hinv)) in Hu.
  apply units_of_pos in Hu as (sid & Hin & _). by apply (mi_typed _ _ _ Hinv (sid, t)).
Qed.

Lemma full_increment ld k x : free slots ld x = false → free slots (increment ld k) x = false.
Proof. unfold free. rewrite !bool_decide_eq_false, count_increment. lia. Qed.

(** A row takes the key that the path from a free key opens. *)
Lemma settle_spec l g st sid own e ps :
  matching_inv l g st → sid ∉ l.*1 → NoDup own → (∀ k, k ∈ own → is_Some (slots !! k)) →
  free slots (load st) e = true → e ∉ dead st → NoDup ps.*1 → way own (dead st) (units st) ps e →
  ∃ g', matching_inv (l ++ [(sid, own)]) g' (settle own e ps st) ∧ dom g' = {[sid]} ∪ dom g ∧
    spent (settle own e ps st) = spent st.
Proof.
  intros Hinv Hsid Hnd Hown Hfree He Hps Hway. unfold settle.
  pose proof (shift_spec slots (load st) own (dead st) l ps e (units st) (movable st) g
                (mi_nodup _ _ _ Hinv) Hps Hway He (mi_placed _ _ _ Hinv)) as Hshift.
  destruct (shift ps e (units st) (movable st)) as [[k us] mv]. destruct Hshift as (g1 & Hk & HkD & Hpl & Hdom & Hload).
  destruct (add_counts g1 l sid own k Hsid) as [A1 A2]. apply free_spec in Hfree.
  assert (sid ∉ dom g1) as Hsg.
  { rewrite Hdom. intros Hd%elem_of_dom. by apply Hsid, (mi_dom _ _ _ Hinv). }
  destruct Hpl as [Hun Hkeys Hms Hco Hcl].
  exists (<[sid := k]> g1). split_and!; [|by rewrite dom_insert_L, Hdom|done]. split; cbn [load units movable dead spent].
  - rewrite fmap_app. apply NoDup_app. split_and!; [apply Hinv| |apply NoDup_singleton].
    intros x Hx ->%list_elem_of_singleton. done.
  - intros x. rewrite lookup_insert_is_Some, fmap_app, elem_of_app. intros [<-|[_ Hx]]; [right; by left|left].
    apply (mi_dom _ _ _ Hinv). apply elem_of_dom. rewrite <-Hdom. by apply elem_of_dom.
  - split.
    + intros t x. rewrite A1, count_increment, Hun. done.
    + intros r x [Hr| ->%list_elem_of_singleton]%elem_of_app.
      * rewrite lookup_insert_ne; [by apply Hkeys|]. intros E. apply Hsid. rewrite E. by apply list_elem_of_fmap_2.
      * cbn [fst snd]. rewrite lookup_insert_eq. by intros [= <-].
    + intros x t Hin. rewrite count_increment.
      assert ((x = k ∧ t = own) ∨ t ∈ movable_at mv x) as [[-> ->]|Hin'].
      { case_bool_decide; [by apply movable_add|by right]. }
      * rewrite bool_decide_eq_true_2 by done. cbn. lia.
      * specialize (Hms x t Hin'). lia.
    + intros x t. rewrite count_increment. case_bool_decide as E.
      * injection E as -> ->. intros _. case_bool_decide as Hlen; [left; apply movable_add; by left|right].
        intros o Ho Hne. destruct own as [|a [|b own]]; cbn in Hlen; [by apply not_elem_of_nil in Ho| |lia].
        apply list_elem_of_singleton in Ho, Hk. congruence.
      * cbn [Nat.b2n]. rewrite Nat.add_0_r. intros Hu. destruct (Hco x t Hu) as [Hin|Hall]; [left|by right].
        case_bool_decide; [apply movable_add; by right|done].
    + intros x Hx. destruct (Hcl x Hx) as [Hf Ht]. assert (x ≠ e) by (by intros ->). split.
      * unfold free in *. rewrite count_increment, (bool_decide_eq_false_2 (x = e)), Nat.add_0_r by done. done.
      * intros t. rewrite count_increment. case_bool_decide as E; [injection E as -> ->; done|].
        cbn [Nat.b2n]. rewrite Nat.add_0_r. apply Ht.
  - intros x. rewrite A2, count_increment, (mi_load _ _ _ Hinv x). specialize (Hload x). lia.
  - intros x. rewrite count_increment. pose proof (mi_cap _ _ _ Hinv x). case_bool_decide as E; [subst x|]; cbn; lia.
  - intros r [Hr| ->%list_elem_of_singleton]%elem_of_app; [by apply Hinv|done].
  - intros r [Hr| ->%list_elem_of_singleton]%elem_of_app; [|by cbn; rewrite lookup_insert_eq].
    rewrite lookup_insert_ne by (intros E; apply Hsid; rewrite E; by apply list_elem_of_fmap_2).
    intros Hg x Hx.
    apply full_increment, (mi_full _ _ _ Hinv r Hr); [|done]. apply not_elem_of_dom. rewrite <-Hdom. by apply not_elem_of_dom.
  - intros Hs r [Hr| ->%list_elem_of_singleton]%elem_of_app.
    + rewrite lookup_insert_ne by (intros E; apply Hsid; rewrite E; by apply list_elem_of_fmap_2).
      intros Hg. apply (mi_left _ _ _ Hinv Hs r Hr). apply not_elem_of_dom. rewrite <-Hdom. by apply not_elem_of_dom.
    + cbn. by rewrite lookup_insert_eq.
Qed.

(** A row is left out: its keys are dead, or the budget is spent. *)
Lemma leave_out l g st sid own :
  matching_inv l g st → sid ∉ l.*1 → NoDup own → (∀ k, k ∈ own → is_Some (slots !! k)) →
  (∀ k, k ∈ own → free slots (load st) k = false) →
  (spent st = false → ∀ k, k ∈ own → k ∈ dead st) → matching_inv (l ++ [(sid, own)]) g st.
Proof.
  intros [Hnd Hdom Hpl Hload Hcap Hty Hfull Hleft] Hsid Hndo Hown Hno Hdead.
  assert (g !! sid = None) as Hg by (apply eq_None_not_Some; intros Hs; by apply Hsid, Hdom).
  destruct (skip_counts g l sid own Hg) as [S1 S2]. destruct Hpl as [Hun Hkeys Hms Hco Hcl].
  split; try done.
  - rewrite fmap_app. apply NoDup_app. split_and!; [done| |apply NoDup_singleton].
    intros x Hx ->%list_elem_of_singleton. done.
  - intros x Hx. rewrite fmap_app. apply elem_of_app. left. by apply Hdom.
  - split; try done.
    + intros t k. by rewrite S1.
    + intros r k [Hr| ->%list_elem_of_singleton]%elem_of_app; [by apply Hkeys|]. cbn. by rewrite Hg.
  - intros k. by rewrite S2.
  - intros r [Hr| ->%list_elem_of_singleton]%elem_of_app; [by apply Hty|done].
  - intros r [Hr| ->%list_elem_of_singleton]%elem_of_app Hgr; [by apply Hfull|done].
  - intros Hs r [Hr| ->%list_elem_of_singleton]%elem_of_app Hgr; [by apply Hleft|]. by apply Hdead.
Qed.
(** ** One row and all rows *)

(** After a search, before its row is settled. *)
Lemma searched_inv l g st own :
  matching_inv l g st → spent st = false → NoDup own →
  (∀ k, k ∈ own → free slots (load st) k = false ∧ is_Some (slots !! k)) →
  let '(s, mv) := search_for slots budget own st in
  let st' := {| load := load st; units := units st; movable := mv;
                dead := if bool_decide (found s = None) && negb (s_spent s)
                        then s_dead s ∪ list_to_set (parent s).*1 else s_dead s;
                work := s_work s; spent := s_spent s |} in
  matching_inv l g st' ∧
  match found s with
  | Some k => k ∉ dead st' ∧ free slots (load st') k = true ∧ NoDup (parent s).*1 ∧
      way own (dead st') (units st') (parent s) k
  | None => spent st' = false → ∀ k, k ∈ own → k ∈ dead st'
  end.
Proof.
  intros Hinv Hsp Hnd Hown. pose proof (mi_placed _ _ _ Hinv) as [Hun Hkeys Hms Hco Hcl].
  pose proof (search_spec slots budget (units st) (load st) own (dead st)
    (λ t k Hu o Ho, us_typed_of l g st t k o Hinv Hu Ho) st eq_refl eq_refl Hcl Hco Hms Hnd Hown) as Hs.
  destruct (search_for slots budget own st) as [s mv]. cbn [fst snd] in Hs. cbv zeta in Hs |- *.
  destruct Hs as (Hsi & Hms' & Hstop). cbn [load units movable dead work spent].
  assert (∀ k, k ∈ dead st → k ∈ s_dead s) as Hdead by (intros k Hk; apply (si_dead _ _ _ _ _ _ _ Hsi); by left).
  assert (∀ D', (∀ k, k ∈ s_dead s → k ∈ D') → closed slots (units st) (load st) D' →
            matching_inv l g {| load := load st; units := units st; movable := mv; dead := D';
                                work := s_work s; spent := s_spent s |}) as Hnew.
  { intros D' Hsub HclD. destruct Hinv as [I1 I2 I3 I4 I5 I6 I6' I7]. split; try done.
    - split; try done. eapply complete_mono; [apply (si_complete _ _ _ _ _ _ _ Hsi)|done].
    - intros _ r Hr Hg k Hk. by eapply Hsub, Hdead, I7. }
  destruct (found s) as [k|] eqn:Hf.
  - rewrite bool_decide_eq_false_2 by done. cbn [andb].
    destruct (si_found _ _ _ _ _ _ _ Hsi k Hf) as (Hk & HkD & Hfree).
    split; [apply Hnew; [done|apply Hsi]|]. split_and!; [done..|apply Hsi|].
    apply chain_way; [apply Hsi..|done].
  - rewrite bool_decide_eq_true_2 by done. cbn [andb].
    destruct (s_spent s) eqn:Hspent; cbn [negb]; [split; [apply Hnew; [done|apply Hsi]|done]|].
    destruct Hstop as [HD Hin]; [unfold stopped; by rewrite Hf, Hspent|].
    split; [|by intros _]. apply Hnew; [|done]. intros k Hk. apply elem_of_union. by left.
Qed.

Lemma place_spec l g st sid own :
  matching_inv l g st → sid ∉ l.*1 → NoDup own → (∀ k, k ∈ own → is_Some (slots !! k)) →
  let '(st', ok) := place slots budget own st in
  ∃ g', matching_inv (l ++ [(sid, own)]) g' st' ∧ dom g' = (if ok : bool then {[sid]} else ∅) ∪ dom g ∧
    (spent st = true → spent st' = true).
Proof.
  intros Hinv Hsid Hnd Hown. unfold place.
  destruct (find_first (λ k, free slots (load st) k = true) own) as [k|] eqn:Hff.
  - apply find_first_Some in Hff as (Hk & Hfree).
    assert (k ∉ dead st) as Hkd.
    { intros Hd. destruct (pl_closed _ _ _ _ _ _ _ (mi_placed _ _ _ Hinv) k Hd). congruence. }
    destruct (settle_spec l g st sid own k [] Hinv Hsid Hnd Hown Hfree Hkd NoDup_nil_2 Hk) as (g' & H1 & H2 & H3).
    exists g'. split_and!; [done..|by rewrite H3].
  - assert (∀ k, k ∈ own → free slots (load st) k = false) as Hfull.
    { intros k Hk. apply not_true_iff_false. intros Hfree.
      assert (is_Some (find_first (λ k, free slots (load st) k = true) own)) as [? ?]; [|congruence].
      by apply (find_first_is_Some _ _ k). }
    destruct (bool_decide (own = []) || spent st) eqn:Hsp.
    + exists g. rewrite union_empty_l_L. split_and!; try done. apply leave_out; try done.
      intros Hs k Hk. rewrite Hs, orb_false_r, bool_decide_eq_true in Hsp. subst own. by apply not_elem_of_nil in Hk.
    + apply orb_false_iff in Hsp as [_ Hsp].
      pose proof (searched_inv l g st own Hinv Hsp Hnd (λ k Hk, conj (Hfull k Hk) (Hown k Hk))) as Hs.
      destruct (search_for slots budget own st) as [s mv]. cbv zeta in Hs. destruct Hs as [Hinv' Hs].
      destruct (found s) as [k|] eqn:Hf.
      * destruct Hs as (H1 & H2 & H3 & H4).
        destruct (settle_spec _ _ _ sid own k (parent s) Hinv' Hsid Hnd Hown H2 H1 H3 H4) as (g' & G1 & G2 & G3).
        exists g'. split_and!; [done..|congruence].
      * exists g. rewrite union_empty_l_L. split_and!; [by apply leave_out|done|congruence].
Qed.

Lemma place_all_spec kinds : ∀ l g st,
  matching_inv l g st → NoDup (l ++ kinds).*1 → (∀ r, r ∈ kinds → NoDup r.2 ∧ ∀ k, k ∈ r.2 → is_Some (slots !! k)) →
  let '(st', matched) := place_all slots budget kinds st in
  ∃ g', matching_inv (l ++ kinds) g' st' ∧ dom g' = matched ∪ dom g.
Proof.
  induction kinds as [|[sid own] kinds IH]; intros l g st Hinv Hnd Hty; cbn [place_all].
  { exists g. rewrite app_nil_r, union_empty_l_L. done. }
  assert (sid ∉ l.*1) as Hsid.
  { rewrite fmap_app in Hnd. apply NoDup_app in Hnd as (_ & Hd & _). intros Hs. apply (Hd sid Hs). by left. }
  destruct (Hty (sid, own)) as [Hnd' Hown]; [by left|].
  pose proof (place_spec l g st sid own Hinv Hsid Hnd' Hown) as Hp.
  destruct (place slots budget own st) as [st1 ok]. destruct Hp as (g1 & Hinv1 & Hdom1 & _).
  specialize (IH (l ++ [(sid, own)]) g1 st1 Hinv1). rewrite <-app_assoc in IH. specialize (IH Hnd).
  destruct (place_all slots budget kinds st1) as [st2 matched].
  destruct IH as (g2 & Hinv2 & Hdom2); [intros r Hr; apply Hty; by right|].
  exists g2. split; [done|]. rewrite Hdom2, Hdom1. destruct ok; set_solver.
Qed.

End placing.

(** ** No matching is larger *)

Section maximum.
Context {K : Type} `{Countable K} {O : Type}.
Variables (slots : gmap K (list O)) (l : list (Z * kind K)) (g : gmap Z K) (st : state K).
Hypothesis Hinv : matching_inv slots l g st.

(** The rows given a dead key are as many as the slots of the dead keys. *)
Definition on_dead (sid : Z) : bool :=
  match g !! sid with Some k => bool_decide (k ∈ dead st) | None => false end.

Lemma dead_slots :
  sum_list (capacity slots <$> elements (dead st)) ≤ size (filter (λ sid, on_dead sid = true) (dom g)).
Proof using Hinv.
  transitivity (tally (λ r : Z * kind K, on_dead r.1) l).
  - rewrite (tally_classes (λ r : Z * kind K, g !! r.1) _ (Some <$> elements (dead st)) l).
    + rewrite <-list_fmap_compose. apply sum_list_le. intros k Hk%elem_of_elements. cbn.
      destruct (pl_closed _ _ _ _ _ _ _ (mi_placed _ _ _ _ Hinv) k Hk) as [Hf _].
      apply bool_decide_eq_false in Hf. transitivity (count (load st) k); [lia|].
      rewrite (mi_load _ _ _ _ Hinv k). apply tally_le. intros r _ Hr. rewrite Hr.
      apply bool_decide_eq_true in Hr. unfold on_dead. rewrite Hr. by apply bool_decide_eq_true_2.
    + apply NoDup_fmap_2; [apply _|apply NoDup_elements].
    + intros r _. unfold on_dead. destruct (g !! r.1) as [k|]; [|done]. rewrite bool_decide_eq_true. intros Hk.
      apply list_elem_of_fmap_2. by apply elem_of_elements.
  - rewrite tally_length, <-(length_fmap fst).
    rewrite <-(size_list_to_set (C := gset Z)).
    + apply subseteq_size. intros sid. rewrite elem_of_list_to_set, list_elem_of_fmap, elem_of_filter.
      intros (r & -> & [Hr _]%list_elem_of_filter). split; [done|]. apply elem_of_dom. unfold on_dead in Hr.
      by destruct (g !! r.1).
    + eapply sublist_NoDup; [apply (mi_nodup _ _ _ _ Hinv)|]. apply fmap_sublist, sublist_filter.
Qed.

(** The type of a row. *)
Definition only_dead (sid : Z) : bool :=
  match (list_to_map l : gmap Z (kind K)) !! sid with Some t => forallb (λ k, bool_decide (k ∈ dead st)) t | None => false end.

Lemma only_dead_row sid t : (sid, t) ∈ l → only_dead sid = true ↔ ∀ k, k ∈ t → k ∈ dead st.
Proof using Hinv.
  intros Hin. unfold only_dead. rewrite (elem_of_list_to_map_1 l sid t) by (try apply (mi_nodup _ _ _ _ Hinv); done).
  rewrite forallb_forall. setoid_rewrite <-list_elem_of_In. setoid_rewrite bool_decide_eq_true. done.
Qed.

Lemma matching_bound (M : list (Z * O)) :
  spent st = false → NoDup M.*1 → NoDup M.*2 →
  (∀ sid o, (sid, o) ∈ M → ∃ k t, (sid, t) ∈ l ∧ k ∈ t ∧ o ∈ default [] (slots !! k)) →
  length M ≤ size (dom g).
Proof using Hinv.
  intros Hsp H1 H2 Hvalid.
  assert (length M = length (filter (λ x : Z * O, only_dead x.1 = true) M)
                     + length (filter (λ x : Z * O, ¬ only_dead x.1 = true) M)) as ->.
  { rewrite <-length_app. symmetry. apply Permutation_length, filter_app_complement. }
  assert (size (dom g) = size (filter (λ sid, on_dead sid = true) (dom g))
                       + size (filter (λ sid, ¬ on_dead sid = true) (dom g))) as ->.
  { rewrite <-size_union by set_solver. f_equal. apply set_eq. intros sid.
    rewrite elem_of_union, !elem_of_filter. destruct (decide (on_dead sid = true)); tauto. }
  apply Nat.add_le_mono.
  - etransitivity; [|apply dead_slots].
    assert (sum_list (capacity slots <$> elements (dead st))
            = length (elements (dead st) ≫= λ k, default [] (slots !! k))) as ->.
    { induction (elements (dead st)) as [|k D IH]; [done|]. cbn. rewrite length_app. unfold capacity at 1. by rewrite IH. }
    rewrite <-(length_fmap snd). apply submseteq_length, NoDup_submseteq.
    + eapply sublist_NoDup; [exact H2|]. apply fmap_sublist, sublist_filter.
    + intros o ([sid o'] & -> & [Hd Hin]%list_elem_of_filter)%list_elem_of_fmap. cbn in *.
      destruct (Hvalid sid o' Hin) as (k & t & Hr & Hk & Ho). apply list_elem_of_bind. exists k. split; [done|].
      apply elem_of_elements. by apply (only_dead_row sid t Hr).
  - rewrite <-(length_fmap fst), <-(size_list_to_set (C := gset Z)).
    + apply subseteq_size. intros sid. rewrite elem_of_list_to_set, list_elem_of_fmap, elem_of_filter.
      intros ([s o] & -> & [Hd Hin]%list_elem_of_filter). cbn in *.
      destruct (Hvalid s o Hin) as (k & t & Hr & Hk & Ho). rewrite (only_dead_row s t Hr) in Hd.
      destruct (g !! s) as [x|] eqn:Hg.
      * split; [|apply elem_of_dom; by eexists]. unfold on_dead. rewrite Hg, bool_decide_eq_true. intros Hx. apply Hd.
        destruct (pl_closed _ _ _ _ _ _ _ (mi_placed _ _ _ _ Hinv) x Hx) as [_ Ht]. apply Ht.
        rewrite (pl_units _ _ _ _ _ _ _ (mi_placed _ _ _ _ Hinv)). apply tally_pos. exists (s, t). split; [done|].
        cbn. rewrite Hg. by rewrite !bool_decide_eq_true_2.
      * destruct Hd. intros y Hy. by apply (mi_left _ _ _ _ Hinv Hsp (s, t)).
    + eapply sublist_NoDup; [exact H1|]. apply fmap_sublist, sublist_filter.
Qed.
End maximum.

(** ** Handing out the occurrences *)

Section handing.
Context {K : Type} `{Countable K} {O : Type}.
Variables (slots : gmap K (list O)).

Definition shown (k : K) : list O := default [] (slots !! k).

(** [ks] are the keys the occurrences of [res] were taken from, each key's in
    order. *)
Fixpoint served (taken : gmap K nat) (ks : list K) (res : list (Z * O)) : Prop :=
  match ks, res with
  | [], [] => True
  | k :: ks, (_, o) :: res => shown k !! count taken k = Some o ∧ served (increment taken k) ks res
  | _, _ => False
  end.

Lemma served_elem res : ∀ taken ks sid o,
  served taken ks res → (sid, o) ∈ res → ∃ k n, k ∈ ks ∧ count taken k ≤ n ∧ shown k !! n = Some o.
Proof.
  induction res as [|[s o'] res IH]; intros taken [|k ks] sid o Hs Hin; try done; [by apply not_elem_of_nil in Hin|].
  destruct Hs as [Ho Hs]. apply elem_of_cons in Hin as [[= -> ->]|Hin].
  - exists k, (count taken k). split_and!; [by left|done|done].
  - destruct (IH _ _ _ _ Hs Hin) as (k' & n & Hk' & Hn & Ho'). rewrite count_increment in Hn.
    exists k', n. split_and!; [by right|lia|done].
Qed.

Hypothesis distinct : ∀ k k' n n' o, shown k !! n = Some o → shown k' !! n' = Some o → k = k' ∧ n = n'.

Lemma served_NoDup res : ∀ taken ks, served taken ks res → NoDup res.*2.
Proof using distinct.
  induction res as [|[s o] res IH]; intros taken [|k ks] Hs; try done; [apply NoDup_nil_2|].
  destruct Hs as [Ho Hs]. cbn. constructor; [|by eapply IH].
  intros ([s' o'] & E & Hin)%list_elem_of_fmap. cbn in E. subst o'.
  destruct (served_elem _ _ _ _ _ Hs Hin) as (k' & n & _ & Hn & Ho').
  destruct (distinct _ _ _ _ _ Ho Ho') as [<- <-]. rewrite count_increment, bool_decide_eq_true_2 in Hn by done. cbn in Hn. lia.
Qed.

Lemma served_order `{EqDecision O} res k : ∀ taken ks,
  served taken ks res →
  (filter (λ x : Z * O, x.2 ∈ shown k) res).*2
  = take (tally (λ k', bool_decide (k' = k)) ks) (drop (count taken k) (shown k)).
Proof using distinct.
  induction res as [|[s o] res IH]; intros taken [|k' ks] Hs; try done.
  destruct Hs as [Ho Hs]. specialize (IH _ _ Hs). rewrite count_increment in IH.
  rewrite filter_cons. cbn [snd tally]. destruct (decide (o ∈ shown k)) as [Hin|Hin].
  - apply list_elem_of_lookup in Hin as [m Hm]. destruct (distinct _ _ _ _ _ Ho Hm) as [-> <-].
    rewrite bool_decide_eq_true_2 in IH |- * by done. rewrite (drop_S _ o) by done. cbn. f_equal.
    rewrite IH. by rewrite Nat.add_1_r.
  - assert (k' ≠ k) as Hne by (intros ->; apply Hin; by eapply list_elem_of_lookup_2).
    rewrite (bool_decide_eq_false_2 (k' = k)) by done.
    rewrite (bool_decide_eq_false_2 (k = k')), Nat.add_0_r in IH by (by intros ->). exact IH.
Qed.

Variables (l : list (Z * kind K)) (g : gmap Z K) (st : state K).
Hypothesis Hinv : matching_inv slots l g st.

Lemma assigned_of_type (h : gmap Z K) (rows : list (Z * kind K)) t :
  NoDup t → (∀ r k, r ∈ rows → h !! r.1 = Some k → k ∈ r.2) →
  tally (λ r : Z * kind K, bool_decide (r.2 = t) && bool_decide (is_Some (h !! r.1))) rows
  = sum_list (units_of h rows t <$> t).
Proof using Type.
  intros Hnd Hkeys. rewrite (tally_classes (λ r : Z * kind K, h !! r.1) _ (Some <$> t) rows).
  - rewrite <-list_fmap_compose. f_equal. apply list_fmap_ext. intros i k _. cbn. unfold units_of.
    apply tally_ext. intros r _. rewrite <-!bool_decide_and. apply bool_decide_ext.
    split; [intros (? & ? & _); done|intros [? ?]; split_and!; [done..|by eexists]].
  - apply NoDup_fmap_2; [apply _|done].
  - intros r Hr Hb. apply andb_true_iff in Hb as [Ht Hs]. apply bool_decide_eq_true in Ht, Hs. destruct Hs as [k Hk].
    rewrite Hk. apply list_elem_of_fmap_2. rewrite <-Ht. by apply (Hkeys r).
Qed.

(** The keys of each type cover the same rows, so counts below one another are equal. *)
Lemma load_of_all (h g' : gmap Z K) k :
  (∀ r, r ∈ l → NoDup r.2 ∧ ∀ x, x ∈ r.2 → is_Some (slots !! x)) → (∀ s, is_Some (h !! s) ↔ is_Some (g' !! s)) →
  (∀ r x, r ∈ l → h !! r.1 = Some x → x ∈ r.2) → (∀ r x, r ∈ l → g' !! r.1 = Some x → x ∈ r.2) →
  (∀ t x, units_of h l t x ≤ units_of g' l t x) → load_of h l k = load_of g' l k.
Proof using Type.
  intros Hty Hdom Hkh Hkg Hle. apply Nat.le_antisymm; apply (tally_le_classes snd); intros t; [apply Hle|].
  change (units_of g' l t k ≤ units_of h l t k). destruct (decide (units_of g' l t k = 0)) as [->|Hpos]; [lia|].
  destruct (units_of_pos g' l t k) as (sid & Hin & Hk); [lia|]. destruct (Hty _ Hin) as [Hnd _]. cbn in Hnd.
  apply (sum_list_squeeze (units_of h l t) (units_of g' l t) t); [intros x _; apply Hle| |by apply (Hkg (sid, t))].
  rewrite <-(assigned_of_type h l t Hnd Hkh), <-(assigned_of_type g' l t Hnd Hkg). apply Nat.eq_le_incl, tally_ext.
  intros r _. f_equal. apply bool_decide_ext. by rewrite Hdom.
Qed.

(** A matched row of a type always finds a key with units to hand out. *)
Lemma hand_out_key pre suf sid t h given :
  l = pre ++ (sid, t) :: suf → sid ∉ pre.*1 → sid ∈ dom g →
  (∀ s, is_Some (h !! s) ↔ s ∈ pre.*1 ∧ is_Some (g !! s)) →
  (∀ r k, r ∈ pre → h !! r.1 = Some k → k ∈ r.2) →
  (∀ t k, count given (t, k) = units_of h pre t k) → (∀ t k, units_of h pre t k ≤ units_of g l t k) →
  ∃ k, k ∈ t ∧ count given (t, k) < count (units st) (t, k) ∧
    find_first (λ k, count given (t, k) < count (units st) (t, k)) t = Some k.
Proof using Hinv.
  intros El Hsid Hm Hh Hkeys Hgiven Hle.
  destruct (find_first (λ k, count given (t, k) < count (units st) (t, k)) t) as [k|] eqn:Hff.
  { apply find_first_Some in Hff as Hk. exists k. tauto. }
  exfalso. assert (∀ k, k ∈ t → units_of g l t k ≤ units_of h pre t k) as Hge.
  { intros k Hk. rewrite <-Hgiven, <-(pl_units _ _ _ _ _ _ _ (mi_placed _ _ _ _ Hinv)).
    destruct (decide (count given (t, k) < count (units st) (t, k))) as [Hlt|?]; [|lia].
    destruct (find_first_is_Some (λ k, count given (t, k) < count (units st) (t, k)) t k Hk Hlt) as [x Hx]. congruence. }
  assert ((sid, t) ∈ l) as Hin by (rewrite El; apply elem_of_app; right; by left).
  destruct (mi_typed _ _ _ _ Hinv _ Hin) as [Hnd _]. cbn in Hnd.
  pose proof (sum_list_le _ _ t Hge) as Hsum.
  rewrite <-(assigned_of_type g l t Hnd), <-(assigned_of_type h pre t Hnd) in Hsum
    by (done || apply (pl_keys _ _ _ _ _ _ _ (mi_placed _ _ _ _ Hinv))).
  rewrite El, tally_app in Hsum. cbn [tally fst snd] in Hsum.
  rewrite (bool_decide_eq_true_2 (t = t)), (bool_decide_eq_true_2 (is_Some (g !! sid))) in Hsum
    by (done || by apply elem_of_dom).
  assert (tally (λ r : Z * kind K, bool_decide (r.2 = t) && bool_decide (is_Some (h !! r.1))) pre
          ≤ tally (λ r : Z * kind K, bool_decide (r.2 = t) && bool_decide (is_Some (g !! r.1))) pre) as Hpre.
  { apply tally_le. intros r _. rewrite !andb_true_iff, !bool_decide_eq_true, Hh. tauto. }
  cbn [andb Nat.b2n] in Hsum. lia.
Qed.

Lemma hand_out_spec suf : ∀ pre h given taken,
  l = pre ++ suf → (∀ sid, is_Some (h !! sid) ↔ sid ∈ pre.*1 ∧ is_Some (g !! sid)) →
  (∀ r k, r ∈ pre → h !! r.1 = Some k → k ∈ r.2) →
  (∀ t k, count given (t, k) = units_of h pre t k) → (∀ k, count taken k = load_of h pre k) →
  (∀ t k, units_of h pre t k ≤ units_of g l t k) →
  ∃ res ks, hand_out slots (units st) (dom g) suf given taken = Some res ∧ served taken ks res ∧
    res.*1 = (filter (λ r : Z * kind K, r.1 ∈ dom g) suf).*1 ∧
    (∀ sid o, (sid, o) ∈ res → ∃ k t, (sid, t) ∈ suf ∧ k ∈ t ∧ o ∈ shown k) ∧
    (∀ k, count taken k + tally (λ k', bool_decide (k' = k)) ks = count (load st) k).
Proof using Hinv.
  induction suf as [|[sid t] suf IH]; intros pre h given taken El Hh Hkeys Hgiven Htaken Hle; cbn [hand_out].
  { exists [], []. split_and!; try done; [intros s o []%not_elem_of_nil|]. intros k. cbn [tally].
    rewrite Nat.add_0_r, Htaken, (mi_load _ _ _ _ Hinv k). rewrite app_nil_r in El. subst pre.
    apply (load_of_all h g k); [apply Hinv| |done|apply (pl_keys _ _ _ _ _ _ _ (mi_placed _ _ _ _ Hinv))|done].
    intros s. rewrite Hh. split; [by intros [_ ?]|]. intros Hs. split; [by apply (mi_dom _ _ _ _ Hinv)|done]. }
  assert (l = (pre ++ [(sid, t)]) ++ suf) as El' by (by rewrite <-app_assoc).
  assert ((sid, t) ∈ l) as Hin by (rewrite El; apply elem_of_app; right; by left).
  assert (sid ∉ pre.*1) as Hsid.
  { pose proof (mi_nodup _ _ _ _ Hinv) as Hnd. rewrite El, fmap_app in Hnd. apply NoDup_app in Hnd as (_ & Hd & _).
    intros Hs. apply (Hd sid Hs). by left. }
  case_bool_decide as Hm; [|specialize (IH (pre ++ [(sid, t)]) h given taken El')].
  - destruct (hand_out_key pre suf sid t h given El Hsid Hm Hh Hkeys Hgiven Hle) as (k & Hk & Hlt & Hff).
    destruct (add_counts h pre sid t k Hsid) as [A1 A2].
    assert (∀ t' x, units_of (<[sid := k]> h) (pre ++ [(sid, t)]) t' x ≤ units_of g l t' x) as Hle'.
    { intros t' x. rewrite A1. specialize (Hle t' x). case_bool_decide as E; cbn; [|lia]. injection E as -> ->.
      rewrite Hgiven, (pl_units _ _ _ _ _ _ _ (mi_placed _ _ _ _ Hinv)) in Hlt. lia. }
    assert (count taken k < length (shown k)) as Hroom.
    { assert (load_of (<[sid := k]> h) (pre ++ [(sid, t)]) k ≤ load_of g l k) as Hl
        by (apply (tally_le_classes snd); intros t'; apply Hle').
      rewrite A2, bool_decide_eq_true_2, <-Htaken in Hl by done. cbn in Hl.
      pose proof (mi_cap _ _ _ _ Hinv k) as Hcap. rewrite (mi_load _ _ _ _ Hinv k) in Hcap. unfold capacity in Hcap.
      unfold shown. lia. }
    destruct (lookup_lt_is_Some_2 _ _ Hroom) as [o Ho].
    destruct (IH (pre ++ [(sid, t)]) (<[sid := k]> h) (increment given (t, k)) (increment taken k) El')
      as (res & ks & R1 & R2 & R3 & R4 & R5).
    + intros s. rewrite lookup_insert_is_Some, fmap_app, elem_of_app, Hh. apply elem_of_dom in Hm. cbn.
      rewrite list_elem_of_singleton. destruct (decide (sid = s)) as [<-|Hne]; [tauto|].
      split; [intros [?|[_ [? ?]]]; [done|split; [by left|done]]|intros [[?|E] ?]; [right; tauto|by rewrite E in Hne]].
    + intros r x [Hr| ->%list_elem_of_singleton]%elem_of_app; cbn [fst snd].
      * rewrite lookup_insert_ne; [by apply Hkeys|]. intros E. apply Hsid. rewrite E. by apply list_elem_of_fmap_2.
      * rewrite lookup_insert_eq. by intros [= <-].
    + intros t' x. by rewrite count_increment, Hgiven, A1.
    + intros x. by rewrite count_increment, Htaken, A2.
    + done.
    + exists ((sid, o) :: res), (k :: ks). rewrite Hff. cbn [mbind option_bind]. unfold shown in Ho. rewrite Ho. cbn [mbind option_bind].
      rewrite R1. cbn [mbind option_bind]. split_and!; [done|done| | |].
      * rewrite filter_cons_True by done. cbn. by rewrite R3.
      * intros s o' [[= -> ->]|Hr]%elem_of_cons.
        { exists k, t. split_and!; [by left|done|]. by eapply list_elem_of_lookup_2. }
        destruct (R4 s o' Hr) as (k' & t' & ? & ? & ?). exists k', t'. split_and!; [by right|done..].
      * intros x. rewrite <-(R5 x), count_increment. cbn [tally]. destruct (decide (k = x)); [rewrite !bool_decide_eq_true_2 by done|rewrite !bool_decide_eq_false_2 by done]; cbn; lia.
  - assert (h !! sid = None) as Hg.
    { apply eq_None_not_Some. intros [Hs _]%Hh. by apply Hsid. }
    destruct (skip_counts h pre sid t Hg) as [S1 S2].
    destruct IH as (res & ks & R1 & R2 & R3 & R4 & R5).
    + intros s. rewrite fmap_app, elem_of_app, Hh. cbn. rewrite list_elem_of_singleton.
      split; [tauto|]. intros [[?| ->] Hs]; [done|]. destruct Hm. by apply elem_of_dom.
    + intros r x [Hr| ->%list_elem_of_singleton]%elem_of_app; [by apply Hkeys|]. cbn. by rewrite Hg.
    + intros t' x. by rewrite S1.
    + intros x. by rewrite S2.
    + intros t' x. by rewrite S1.
    + exists res, ks. split_and!; [done..| | |done].
      * rewrite filter_cons_False by done. done.
      * intros s o Hr. destruct (R4 s o Hr) as (k' & t' & ? & ? & ?). exists k', t'. split_and!; [by right|done..].
Qed.

End handing.

(** ** The function *)

Section function.
Context {K : Type} `{Countable K} {O : Type} `{EqDecision O}.
Variable repr : K → string.

(** A matching of rows to occurrences by a key of the row, each side once. *)
Definition is_matching (rows : list (Z * gset K)) (occurrences : list (O * K)) (M : list (Z * O)) : Prop :=
  NoDup M.*1 ∧ NoDup M.*2 ∧
  ∀ sid o, (sid, o) ∈ M → ∃ k ks, (sid, ks) ∈ rows ∧ k ∈ ks ∧ (o, k) ∈ occurrences.

(** The occurrences that show a key, in view order. *)
Definition occurrences_of (occurrences : list (O * K)) (k : K) : list O :=
  (filter (λ o : O * K, o.2 = k) occurrences).*1.

Lemma shown_distinct (occurrences : list (O * K)) k k' n n' o :
  NoDup occurrences.*1 → shown (slots_of occurrences) k !! n = Some o →
  shown (slots_of occurrences) k' !! n' = Some o → k = k' ∧ n = n'.
Proof.
  unfold shown. intros Hnd H1 H2.
  assert (k = k') as <-.
  { apply list_elem_of_lookup_2, slots_of_elem in H1, H2.
    apply list_elem_of_lookup in H1 as [i Hi], H2 as [j Hj].
    assert (i = j) as ->; [|congruence].
    apply (NoDup_lookup occurrences.*1 i j o); [done|by rewrite list_lookup_fmap, Hi|by rewrite list_lookup_fmap, Hj]. }
  split; [done|]. rewrite slots_of_lookup in H1, H2. eapply NoDup_lookup; [|exact H1|exact H2].
  eapply sublist_NoDup; [exact Hnd|]. apply fmap_sublist, sublist_filter.
Qed.

(** The whole run: the ghost and what was handed out. *)
Lemma match_occurrences_run (rows : list (Z * gset K)) (occurrences : list (O * K)) :
  ∃ g st res ks, matching_inv (slots_of occurrences) (kinds_of repr (slots_of occurrences) rows) g st ∧
    match_occurrences repr rows occurrences = Some (res, spent st) ∧
    served (slots_of occurrences) ∅ ks res ∧ length res = size (dom g) ∧ NoDup res.*1 ∧
    (∀ sid o, (sid, o) ∈ res → ∃ k t, (sid, t) ∈ kinds_of repr (slots_of occurrences) rows ∧ k ∈ t ∧
       o ∈ shown (slots_of occurrences) k) ∧
    (∀ k, tally (λ k', bool_decide (k' = k)) ks = count (load st) k) ∧ (∀ sid, is_Some (g !! sid) → sid ∈ res.*1).
Proof.
  destruct (kinds_of_spec repr (slots_of occurrences) rows) as (Hnd & Hty & _).
  set (slots := slots_of occurrences) in *. set (kinds := kinds_of repr slots rows) in *.
  unfold match_occurrences. fold slots kinds.
  pose proof (place_all_spec slots (MATCH_WORK_PER_ITEM * (length kinds + length occurrences + size slots) + MATCH_WORK_FLOOR)
    kinds [] ∅ initial_state (matching_inv_nil slots) Hnd Hty) as Hp.
  destruct (place_all slots _ kinds initial_state) as [st matched]. destruct Hp as (g & Hinv & Hdom).
  cbn [app] in Hinv. rewrite dom_empty_L, union_empty_r_L in Hdom. subst matched.
  destruct (hand_out_spec slots kinds g st Hinv kinds [] ∅ ∅ ∅) as (res & ks & R1 & R2 & R3 & R4 & R5);
    [done| |by intros r k ?%not_elem_of_nil|done|done|intros t k; apply Nat.le_0_l|].
  - intros sid. rewrite lookup_empty. split; [by intros [? ?]|by intros [?%not_elem_of_nil _]].
  - exists g, st, res, ks. rewrite R1. split_and!; try done; try by (intros k; rewrite <-R5, count_empty).
    + rewrite <-(length_fmap fst), R3, <-(size_list_to_set (C := gset Z)).
      * f_equal. apply set_eq. intros sid. rewrite elem_of_list_to_set, list_elem_of_fmap.
        split; [by intros (r & -> & [Hr _]%list_elem_of_filter)|]. intros Hsid.
        pose proof (mi_dom _ _ _ _ Hinv sid) as Hk. apply elem_of_dom in Hsid as Hs.
        apply Hk, list_elem_of_fmap in Hs as (r & -> & Hr). exists r. split; [done|]. by apply list_elem_of_filter.
      * eapply sublist_NoDup; [exact Hnd|]. apply fmap_sublist, sublist_filter.
    + rewrite R3. eapply sublist_NoDup; [exact Hnd|]. apply fmap_sublist, sublist_filter.
    + intros sid Hs. rewrite R3. pose proof (mi_dom _ _ _ _ Hinv sid Hs) as (r & -> & Hr)%list_elem_of_fmap.
      apply list_elem_of_fmap_2, list_elem_of_filter. split; [by apply elem_of_dom|done].
Qed.

Lemma kinds_valid (rows : list (Z * gset K)) (occurrences : list (O * K)) sid o k :
  (∃ t, (sid, t) ∈ kinds_of repr (slots_of occurrences) rows ∧ k ∈ t ∧ o ∈ shown (slots_of occurrences) k) ↔
  (∃ ks, (sid, ks) ∈ rows ∧ k ∈ ks ∧ (o, k) ∈ occurrences).
Proof.
  destruct (kinds_of_spec repr (slots_of occurrences) rows) as (_ & _ & Hk). unfold shown. split.
  - intros (t & Hin & Hkt & Ho%slots_of_elem). assert (is_Some (slots_of occurrences !! k)) as Hs
      by (apply slots_of_is_Some; by exists o).
    destruct (proj1 (Hk sid k Hs)) as (ks & ? & ?); [by exists t|]. by exists ks.
  - intros (ks & Hin & Hks & Ho). assert (is_Some (slots_of occurrences !! k)) as Hs by (apply slots_of_is_Some; by exists o).
    destruct (proj2 (Hk sid k Hs)) as (t & ? & ?); [by exists ks|]. exists t. by rewrite slots_of_elem.
Qed.

(** A matching; the occurrences of a key that are used are its first ones; a row
    left out has no free occurrence. *)
Definition in_order (occurrences : list (O * K)) (M : list (Z * O)) : Prop :=
  ∀ k, ∃ n, (filter (λ x : Z * O, x.2 ∈ occurrences_of occurrences k) M).*2 = take n (occurrences_of occurrences k).
Definition maximal (rows : list (Z * gset K)) (occurrences : list (O * K)) (M : list (Z * O)) : Prop :=
  ∀ sid ks o k, (sid, ks) ∈ rows → sid ∉ M.*1 → k ∈ ks → (o, k) ∈ occurrences → o ∈ M.*2.

Lemma match_occurrences_matching (rows : list (Z * gset K)) (occurrences : list (O * K)) :
  NoDup occurrences.*1 →
  ∃ M spent, match_occurrences repr rows occurrences = Some (M, spent) ∧ is_matching rows occurrences M ∧
    in_order occurrences M ∧ maximal rows occurrences M.
Proof.
  intros Hnd. destruct (match_occurrences_run rows occurrences) as (g & st & res & ks & Hinv & E & Hs & _ & H1 & Hv & Hc & Hdom).
  pose proof (λ k k' n n' o, shown_distinct occurrences k k' n n' o Hnd) as Hd.
  assert (∀ k, (filter (λ x : Z * O, x.2 ∈ occurrences_of occurrences k) res).*2
               = take (count (load st) k) (occurrences_of occurrences k)) as Hserved.
  { intros k. rewrite <-Hc. pose proof (served_order _ Hd res k _ _ Hs) as Hn.
    unfold shown in Hn. rewrite slots_of_lookup, count_empty in Hn. exact Hn. }
  exists res, (spent st). split; [done|]. split; [|split].
  - split_and!; [done|by eapply served_NoDup|]. intros sid o Hin. destruct (Hv sid o Hin) as (k & t & Ht).
    destruct (proj1 (kinds_valid rows occurrences sid o k)) as (ks' & ?); [by exists t|]. by exists k, ks'.
  - intros k. exists (count (load st) k). apply Hserved.
  - intros sid ks' o k Hin Hno Hk Ho. destruct (proj2 (kinds_valid rows occurrences sid o k)) as (t & Ht & Hkt & _); [by exists ks'|].
    assert (g !! sid = None) as Hg by (apply eq_None_not_Some; intros Hsome; by apply Hno, Hdom).
    pose proof (mi_full _ _ _ _ Hinv (sid, t) Ht Hg k Hkt) as Hfull. unfold free, capacity in Hfull.
    rewrite bool_decide_eq_false, slots_of_lookup in Hfull. fold (occurrences_of occurrences k) in Hfull.
    specialize (Hserved k). rewrite take_ge in Hserved by lia.
    assert (o ∈ occurrences_of occurrences k) as Hok.
    { apply list_elem_of_fmap. exists (o, k). split; [done|]. by apply list_elem_of_filter. }
    rewrite <-Hserved in Hok. apply list_elem_of_fmap in Hok as (x & -> & [_ Hx]%list_elem_of_filter).
    by apply list_elem_of_fmap_2.
Qed.

(** ** Properties *)

(** Whatever the budget, the matching returns (no missing key, no index out of
    range), every row and every occurrence is used at most once, an occurrence
    goes to a row that has its key, the occurrences of a key that are used are its
    first ones, in view order to the rows in store order, and a row is left out
    only when every occurrence of its keys is used. *)
Theorem match_occurrences_valid (rows : list (Z * gset K)) (occurrences : list (O * K)) :
  NoDup occurrences.*1 →
  ∃ M spent, match_occurrences repr rows occurrences = Some (M, spent) ∧ is_matching rows occurrences M ∧
    in_order occurrences M ∧ maximal rows occurrences M.
Proof. apply match_occurrences_matching. Qed.

(** C4: a matching found without spending the budget is maximum: no other way of
    giving occurrences to rows by their keys, each side once, uses more rows. *)
Theorem match_occurrences_maximum (rows : list (Z * gset K)) (occurrences : list (O * K)) M M' :
  match_occurrences repr rows occurrences = Some (M, false) → is_matching rows occurrences M' → length M' ≤ length M.
Proof.
  intros E (H1 & H2 & Hv). destruct (match_occurrences_run rows occurrences) as (g & st & res & ks & Hinv & E' & _ & Hlen & _ & _).
  rewrite E in E'. injection E' as <- Hsp. rewrite Hlen.
  apply (matching_bound _ _ g st Hinv M'); [done..|].
  intros sid o Hin. destruct (Hv sid o Hin) as (k & ks' & Hks).
  destruct (proj2 (kinds_valid rows occurrences sid o k)) as (t & ?); [by exists ks'|]. by exists k, t.
Qed.
End function.

(** ** Witnesses *)

Definition example_rows : list (Z * gset string) :=
  [(1%Z, {["a"%string; "b"%string]}); (2%Z, {["a"%string]}); (3%Z, {["b"%string; "c"%string]}); (4%Z, {["c"%string]})].
Definition example_occurrences : list (Z * string) := [(10%Z, "a"%string); (11%Z, "b"%string); (12%Z, "c"%string)].

(** The second row's key is taken; the first moves to its other key.  The fourth
    finds all its keys dead. *)
Example example_matching :
  match_occurrences id example_rows example_occurrences = Some ([(1%Z, 11%Z); (2%Z, 10%Z); (3%Z, 12%Z)], false).
Proof. vm_compute. reflexivity. Qed.

Lemma example_occurrences_distinct : NoDup example_occurrences.*1.
Proof. apply (bool_decide_eq_true_1 _). vm_compute. reflexivity. Qed.

Example match_occurrences_valid_witness :
  NoDup example_occurrences.*1 ∧
  ∃ M spent, match_occurrences id example_rows example_occurrences = Some (M, spent) ∧
    is_matching example_rows example_occurrences M.
Proof.
  split; [apply example_occurrences_distinct|].
  destruct (match_occurrences_valid id example_rows example_occurrences example_occurrences_distinct) as (M & b & H1 & H2 & _).
  exists M, b. exact (conj H1 H2).
Defined.

Example match_occurrences_maximum_witness : length [(1%Z, 10%Z); (4%Z, 12%Z)] ≤ length [(1%Z, 11%Z); (2%Z, 10%Z); (3%Z, 12%Z)].
Proof.
  apply (match_occurrences_maximum id example_rows example_occurrences); [apply example_matching|].
  split_and!; [apply (bool_decide_eq_true_1 _); vm_compute; reflexivity..|].
  intros sid o [[= -> ->]|[[= -> ->]|[]%not_elem_of_nil]%elem_of_cons]%elem_of_cons; eexists _, _;
    (split; [|split]); [by left| |by left|by do 3 right; left| |by do 2 right; left]; set_solver.
Defined.
