(* ===== verification/Reservation.v ===== *)
(** Stored rows the host view shows as their own (recognition_matching.py
    [_reserve_shown] and [_reroute_for_null]): the stamped pass, the pass of the
    rows without a stamp over the occurrences left, and the re-routing of stamped
    rows for those still without one.

    A row is its store id, its normalized [observed_at] and its forms; a key is a
    stamp and a form.  [free] and [current] are finite maps; a queue of [holders] is
    a list, and [None] stands for a missing key. *)

From S2P Require Import Prelude Matching MatchingProofs.
From stdpp Require Import options.

#[local] Open Scope nat_scope.

(** [{(stamp, form) for stamp in stamps for form in forms}] *)
Definition pairs {S F} `{Countable S, Countable F} (stamps : gset S) (forms : gset F) : gset (S * F) :=
  list_to_set (s ← elements stamps; f ← elements forms; [(s, f)]).

Lemma elem_of_pairs {S F} `{Countable S, Countable F} (stamps : gset S) (forms : gset F) x :
  x ∈ pairs stamps forms ↔ x.1 ∈ stamps ∧ x.2 ∈ forms.
Proof.
  unfold pairs. rewrite elem_of_list_to_set, list_elem_of_bind. setoid_rewrite list_elem_of_bind.
  setoid_rewrite elem_of_elements. split.
  - intros (s & (f & ->%list_elem_of_singleton & Hf) & Hs). done.
  - intros [Hs Hf]. exists x.1. split; [|done]. exists x.2. split; [|done]. destruct x. by left.
Qed.

(** [Counter(l)] *)
Definition counter {A} `{Countable A} (l : list A) : gmap A nat := foldr (λ a c, increment c a) ∅ l.

Section definitions.
Context {S : Type} `{Countable S} {F : Type} `{Countable F} {O : Type} `{Countable O}.

Record row := { store_id : Z; observed_at : option S; forms_of : gset F }.
Abbreviation key := (option S * F)%type.

Variables (repr_key : key → string) (repr_form repr_null : F → string).

(** [sorted(l, key=repr)] *)
Definition sorted_by {A} (repr : A → string) (l : list A) : list A :=
  merge_sort (repr_le repr) l.

Definition keys_of (aliases : gmap Z (gset (option S))) (r : row) : gset key :=
  pairs ({[observed_at r]} ∪ default ∅ (aliases !! store_id r)) (forms_of r).

(** ** Re-routing *)

Record routing := {
  free : gmap key nat; current : gmap Z key; holders : gmap F (list Z); out : gset Z; work : nat }.

(** [holders[form].append(sid)] *)
Definition hold (m : gmap F (list Z)) (form : F) (sid : Z) : gmap F (list Z) :=
  <[form := default [] (m !! form) ++ [sid]]> m.

Section reroute.
Variables (rows : gmap Z row) (keys : row → gset key).

(** [next((k for k in sorted(keys) if k != current[sid] and free[k] > 0), None)] *)
Definition target_of (s : routing) (r : row) (cur : key) : option key :=
  find_first (λ k, k ≠ cur ∧ 0 < count (free s) k) (sorted_by repr_key (elements (keys r))).

(** [while queue and sid not in out and work < budget] of one form: every round
    takes one of the budget, so what is left of it is fuel enough. *)
Fixpoint take_holders (budget_left : nat) (form : F) (sid : Z) (s : routing) : option routing :=
  match budget_left, default [] (holders s !! form) with
  | Datatypes.S budget_left, holder :: queue =>
      if bool_decide (sid ∈ out s) then Some s
      else
        let s := {| free := free s; current := current s; holders := <[form := queue]> (holders s);
                    out := out s; work := Datatypes.S (work s) |} in
        cur ← current s !! holder;
        r ← rows !! holder;
        match target_of s r cur with
        | None => take_holders budget_left form sid s
        | Some target =>
            take_holders budget_left form sid
              {| free := decrement (free s) target; current := <[holder := target]> (current s);
                 holders := hold (holders s) target.2 holder; out := {[sid]} ∪ out s; work := work s |}
        end
  | _, _ => Some s
  end.

(** [for form in sorted(forms_of(row), key=repr)] *)
Fixpoint take_forms (budget : nat) (forms : list F) (sid : Z) (s : routing) : option routing :=
  match forms with
  | [] => Some s
  | form :: forms =>
      s ← take_holders (budget - work s) form sid s;
      if bool_decide (sid ∈ out s) then Some s else take_forms budget forms sid s
  end.

(** [for row in rest] *)
Fixpoint reroute_rows (budget : nat) (rest : list row) (s : routing) : option routing :=
  match rest with
  | [] => Some s
  | r :: rest =>
      s ← take_forms budget (sorted_by repr_form (elements (forms_of r))) (store_id r) s;
      if bool_decide (budget <= work s) then Some s else reroute_rows budget rest s
  end.

End reroute.

(** [dict(items)] *)
Definition dict_of {A B} `{Countable A} (items : list (A * B)) : gmap A B := list_to_map (reverse items).

(** [Counter(key for occurrence, key in key_of.items() if ...)] *)
Definition free_keys (key_of : gmap O key) (taken : gset O) : gmap key nat :=
  counter (filter (λ x : O * key, x.2.1 ≠ None ∧ x.1 ∉ taken) (map_to_list key_of)).*2.

(** The pairs of [current], in the order of the pool. *)
Fixpoint current_keys (pool : list row) (first : gmap Z O) (key_of : gmap O key) : option (list (Z * key)) :=
  match pool with
  | [] => Some []
  | r :: pool =>
      match first !! store_id r with
      | None => current_keys pool first key_of
      | Some o =>
          k ← key_of !! o;
          cur ← current_keys pool first key_of;
          Some (if bool_decide (k.1 = None) then cur else (store_id r, k) :: cur)
      end
  end.

Definition reroute_for_null (pool rest : list row) (first : gmap Z O) (taken : gset O) (key_of : gmap O key)
    (keys : row → gset key) : option (routing * nat) :=
  cur ← current_keys pool first key_of;
  let s := {| free := free_keys key_of taken; current := dict_of cur;
              holders := foldl (λ m '(sid, k), hold m k.2 sid) ∅ cur; out := ∅; work := 0 |} in
  let budget := MATCH_WORK_PER_ITEM * (length pool + size key_of) + MATCH_WORK_FLOOR in
  s ← reroute_rows (dict_of ((λ r, (store_id r, r)) <$> pool)) keys budget rest s;
  Some (s, budget).

(** ** Reserving *)

(** What the three passes gave, for the theorems; [reserve_shown] is its union. *)
Record passes := { first : list (Z * O); second : list (Z * O); rerouted : option (routing * nat) }.

(** [null], [left] and [rest] *)
Definition null_rows (pool : list row) (first : list (Z * O)) : list row :=
  filter (λ r, observed_at r = None ∧ store_id r ∉ first.*1) pool.
Definition left_over (occurrences : list (O * key)) (taken : gset O) : list (O * F) :=
  (λ x, (x.1, x.2.2)) <$> filter (λ x : O * key, x.2.1 ≠ None ∧ x.1 ∉ taken) occurrences.
Definition rest_rows (null : list row) (second : list (Z * O)) : list row :=
  filter (λ r, store_id r ∉ second.*1) null.

Definition run_passes (pool : list row) (occurrences : list (O * key)) (aliases : gmap Z (gset (option S)))
    : option passes :=
  '(first, _) ← match_occurrences repr_key ((λ r, (store_id r, keys_of aliases r)) <$> pool) occurrences;
  let null := null_rows pool first in
  let taken := list_to_set first.*2 in
  let left := left_over occurrences taken in
  if bool_decide (null = []) || bool_decide (left = []) then
    Some {| first := first; second := []; rerouted := None |}
  else
    '(second, _) ← match_occurrences repr_null ((λ r, (store_id r, forms_of r)) <$> null) left;
    let rest := rest_rows null second in
    if bool_decide (rest = []) then Some {| first := first; second := second; rerouted := None |}
    else
      s ← reroute_for_null pool rest (list_to_map first) (taken ∪ list_to_set second.*2) (dict_of occurrences)
            (keys_of aliases);
      Some {| first := first; second := second; rerouted := Some s |}.

Definition reserved (p : passes) : gset Z :=
  list_to_set (first p).*1 ∪ list_to_set (second p).*1
  ∪ match rerouted p with Some (s, _) => out s | None => ∅ end.

Definition reserve_shown (pool : list row) (occurrences : list (O * key)) (aliases : gmap Z (gset (option S)))
    : option (gset Z) :=
  p ← run_passes pool occurrences aliases; Some (reserved p).

End definitions.


Arguments row S F {_ _}.
Arguments routing S {_ _} F {_ _}.
Arguments passes S {_ _} F {_ _} O.

(** ** Counting and dictionaries *)

Lemma count_counter {A} `{Countable A} (l : list A) a : count (counter l) a = tally (λ x, bool_decide (x = a)) l.
Proof.
  induction l as [|x l IH]; cbn [counter foldr tally]; [apply count_empty|]. rewrite count_increment. fold (counter l).
  rewrite IH, Nat.add_comm. f_equal. f_equal. apply bool_decide_ext. done.
Qed.

Lemma tally_fmap {A B} (f : A → B) p l : tally p (f <$> l) = tally (λ x, p (f x)) l.
Proof. induction l as [|x l IH]; cbn; [done|]. by rewrite IH. Qed.

Lemma tally_filter {A} (P : A → Prop) `{!∀ x, Decision (P x)} p l :
  tally p (filter P l) = tally (λ x, bool_decide (P x) && p x) l.
Proof.
  induction l as [|x l IH]; [done|]. rewrite filter_cons. cbn [tally].
  destruct (decide (P x)); [rewrite bool_decide_eq_true_2 by done|rewrite bool_decide_eq_false_2 by done]; cbn; by rewrite IH.
Qed.

#[export] Instance tally_perm {A} (p : A → bool) : Proper ((≡ₚ) ==> (=)) (tally p).
Proof. induction 1; cbn; lia. Qed.

Lemma dict_of_lookup {A B} `{Countable A} (items : list (A * B)) a b :
  NoDup items.*1 → dict_of items !! a = Some b ↔ (a, b) ∈ items.
Proof.
  intros Hnd. unfold dict_of. rewrite <-elem_of_list_to_map; [by rewrite elem_of_reverse|].
  rewrite fmap_reverse. by rewrite reverse_Permutation.
Qed.

Lemma dict_of_items {A B} `{Countable A} (items : list (A * B)) :
  NoDup items.*1 → map_to_list (dict_of items) ≡ₚ items.
Proof.
  intros Hnd. unfold dict_of. rewrite map_to_list_to_map; [apply reverse_Permutation|].
  rewrite fmap_reverse. by rewrite reverse_Permutation.
Qed.

Section proofs.
Context {S : Type} `{Countable S} {F : Type} `{Countable F} {O : Type} `{Countable O}.
Abbreviation key := (option S * F)%type.
Implicit Types (A : gmap Z O) (s : routing S F) (r : row S F).

Lemma hold_lookup (m : gmap F (list Z)) f sid g :
  default [] (hold m f sid !! g) = default [] (m !! g) ++ (if bool_decide (g = f) then [sid] else []).
Proof.
  unfold hold. case_bool_decide as E; [subst g; by rewrite lookup_insert_eq|].
  rewrite lookup_insert_ne by done. by rewrite app_nil_r.
Qed.

Lemma sorted_by_elem {X} (repr : X → string) (l : list X) x : x ∈ sorted_by repr l ↔ x ∈ l.
Proof. unfold sorted_by. by rewrite merge_sort_Permutation. Qed.

(** ** Re-routing keeps an assignment *)

Section rerouting.
Variables (pool : list (row S F)) (occurrences : list (O * key)) (keys : row S F → gset key).
Hypothesis pool_ids : NoDup (store_id <$> pool).
Hypothesis occurrence_ids : NoDup occurrences.*1.

Definition answers r (k : key) : Prop :=
  k ∈ keys r ∨ (observed_at r = None ∧ k.1 ≠ None ∧ k.2 ∈ forms_of r).

(** Every row it gives an occurrence to answers it, and no occurrence is given
    twice. *)
Definition realizes A : Prop :=
  (∀ sid sid' o, A !! sid = Some o → A !! sid' = Some o → sid = sid') ∧
  ∀ sid o, A !! sid = Some o → ∃ r k, r ∈ pool ∧ store_id r = sid ∧ (o, k) ∈ occurrences ∧ answers r k.

Definition unused A (k : key) : nat :=
  tally (λ x, bool_decide (x.2 = k ∧ x.2.1 ≠ None ∧ x.1 ∉@{gset O} map_img A)) occurrences.

Lemma unused_pos A k :
  0 < unused A k ↔ ∃ o, (o, k) ∈ occurrences ∧ k.1 ≠ None ∧ o ∉@{gset O} map_img A.
Proof.
  unfold unused. rewrite tally_pos. setoid_rewrite bool_decide_eq_true. split.
  - intros ([o k'] & Hin & <- & Hs & Ho). by exists o.
  - intros (o & Hin & Hs & Ho). by exists (o, k).
Qed.

Variables (A0 : gmap Z O) (rest : list (row S F)).
Hypothesis rest_pool : ∀ r, r ∈ rest → r ∈ pool ∧ observed_at r = None ∧ store_id r ∉ dom A0.

Definition wanted (f : F) : Prop := ∃ r, r ∈ rest ∧ f ∈ forms_of r.

Record routing_inv A s : Prop := {
  ri_realizes : realizes A;
  ri_dom : dom A = dom A0 ∪ out s;
  ri_img : map_img A0 ⊆@{gset O} map_img A;
  ri_free : ∀ k, count (free s) k = unused A k;
  ri_current : ∀ sid k, current s !! sid = Some k →
    sid ∈ dom A0 ∧ ∃ o, A !! sid = Some o ∧ (o, k) ∈ occurrences ∧ k.1 ≠ None;
  ri_still : ∀ sid, sid ∈ dom A0 → current s !! sid = None → A !! sid = A0 !! sid;
  ri_holders : ∀ f, NoDup (default [] (holders s !! f)) ∧
    ∀ sid, sid ∈ default [] (holders s !! f) → ∃ k, current s !! sid = Some k ∧ k.2 = f;
  ri_stuck : ∀ r k k', r ∈ pool → current s !! store_id r = Some k → store_id r ∉ default [] (holders s !! k.2) →
    k' ∈ keys r → k' ≠ k → count (free s) k' = 0;
  ri_wanted : ∀ k, wanted k.2 → count (free s) k = 0 }.

(** What a step only lowers or only raises. *)
Record routes s s' : Prop := {
  ro_free : ∀ k, count (free s') k ≤ count (free s) k;
  ro_out : out s ⊆ out s';
  ro_work : work s ≤ work s';
  ro_current : dom (current s') = dom (current s);
  ro_wanted : ∀ f, wanted f → default [] (holders s !! f) = [] → default [] (holders s' !! f) = [] }.

#[local] Instance routes_preorder : PreOrder routes.
Proof.
  split; [by intros s; split|]. intros s1 s2 s3 [F1 O1 W1 C1 E1] [F2 O2 W2 C2 E2]. split.
  - intros k. by etransitivity; [apply F2|apply F1].
  - by etransitivity; [apply O1|apply O2].
  - by etransitivity; [apply W1|apply W2].
  - by rewrite C2.
  - intros f Hf Hn. by apply E2, E1.
Qed.

Lemma row_of_id r sid : r ∈ pool → store_id r = sid → dict_of ((λ r, (store_id r, r)) <$> pool) !! sid = Some r.
Proof using pool_ids.
  intros Hr <-. apply dict_of_lookup; [by rewrite <-list_fmap_compose|].
  apply list_elem_of_fmap. by exists r.
Qed.

Lemma occurrence_key o k k' : (o, k) ∈ occurrences → (o, k') ∈ occurrences → k = k'.
Proof using occurrence_ids. intros E1 E2. by apply (NoDup_fst_fun occurrences o). Qed.

(** What is left in the queues without their first holder. *)
Lemma pop_holder A s form holder queue k :
  routing_inv A s → default [] (holders s !! form) = holder :: queue → current s !! holder = Some k → k.2 = form →
  ∀ f, NoDup (default [] (<[form := queue]> (holders s) !! f)) ∧
    ∀ sid, sid ∈ default [] (<[form := queue]> (holders s) !! f) ↔ sid ∈ default [] (holders s !! f) ∧ sid ≠ holder.
Proof using Type.
  intros Hinv Hq Hk Hf f. destruct (ri_holders _ _ Hinv f) as [Hnd Hin].
  destruct (decide (f = form)) as [->|Hne].
  - rewrite lookup_insert_eq. cbn [from_option id]. rewrite Hq in *. apply NoDup_cons in Hnd as [Hh Hnd]. split; [done|].
    intros sid. rewrite elem_of_cons. split; [intros Hs|tauto]. split; [by right|]. by intros ->.
  - rewrite lookup_insert_ne by done. split; [done|]. intros sid. split; [|by intros [? _]]. intros Hs. split; [done|].
    intros ->. destruct (Hin holder Hs) as (k' & Hk' & <-). congruence.
Qed.

Lemma same_row r r' : r ∈ pool → r' ∈ pool → store_id r = store_id r' → r = r'.
Proof using pool_ids.
  intros Hr Hr' E. apply (NoDup_fst_fun ((λ r, (store_id r, r)) <$> pool) (store_id r'));
    [by rewrite <-list_fmap_compose|rewrite <-E|]; apply list_elem_of_fmap; by eexists.
Qed.

(** The first holder cannot move. *)
Lemma skip_inv A s form holder queue k r :
  routing_inv A s → default [] (holders s !! form) = holder :: queue → current s !! holder = Some k → k.2 = form →
  r ∈ pool → store_id r = holder → (∀ k', k' ∈ keys r → k' ≠ k → count (free s) k' = 0) →
  let s' := {| free := free s; current := current s; holders := <[form := queue]> (holders s);
               out := out s; work := Datatypes.S (work s) |} in
  routing_inv A s' ∧ routes s s'.
Proof using pool_ids.
  intros Hinv Hq Hk Hf Hr Hid Hno s'. subst s'. pose proof (pop_holder A s form holder queue k Hinv Hq Hk Hf) as Hpop.
  destruct Hinv as [Hre Hdom Himg Hfree Hcur Hstill Hhold Hstuck Hwant].
  split; split; cbn [free current holders out work]; try done; try lia.
  - intros f. destruct (Hpop f) as [Hnd Hin]. split; [done|]. intros sid [Hs _]%Hin. by apply Hhold.
  - intros r' k1 k' Hr' Hk1 Hnot Hk' Hne. destruct (decide (store_id r' = holder)) as [E|E].
    + assert (r' = r) as -> by (apply same_row; congruence). rewrite E, Hk in Hk1. injection Hk1 as <-. by apply Hno.
    + apply (Hstuck r' k1 k'); try done. intros Hin. apply Hnot. by apply Hpop.
  - intros f _ He. destruct (decide (f = form)) as [->|Hne]; [congruence|]. by rewrite lookup_insert_ne.
Qed.

(** The first holder moves to a free occurrence. *)
Definition moved A sid holder o o' : gmap Z O := <[sid := o]> (<[holder := o']> A).

Lemma moved_img A sid holder o o' x :
  sid ∉ dom A → A !! holder = Some o → x ∈@{gset O} map_img (moved A sid holder o o') ↔ x = o' ∨ x ∈@{gset O} map_img A.
Proof using Type.
  intros Hsid Hh. assert (sid ≠ holder) as Hne by (intros ->; apply Hsid, elem_of_dom; by eexists).
  rewrite !elem_of_map_img. unfold moved. split.
  - intros (i & Hi). destruct (decide (i = sid)) as [->|Hi1]; [rewrite lookup_insert_eq in Hi; right; exists holder; congruence|].
    rewrite lookup_insert_ne in Hi by done. destruct (decide (i = holder)) as [->|Hi2].
    + rewrite lookup_insert_eq in Hi. left. congruence.
    + rewrite lookup_insert_ne in Hi by done. right. by exists i.
  - intros [->|(j & Hj)].
    + exists holder. by rewrite lookup_insert_ne, lookup_insert_eq by done.
    + destruct (decide (j = holder)) as [->|Hj2]; [exists sid; rewrite lookup_insert_eq; congruence|].
      exists j. assert (j ≠ sid) by (intros ->; apply Hsid, elem_of_dom; by eexists). by rewrite !lookup_insert_ne by done.
Qed.

Lemma moved_unused A sid holder o o' target k :
  sid ∉ dom A → A !! holder = Some o → (o', target) ∈ occurrences → target.1 ≠ None → o' ∉@{gset O} map_img A →
  unused (moved A sid holder o o') k = unused A k - Nat.b2n (bool_decide (k = target)).
Proof using occurrence_ids.
  intros Hsid Hh Ho' Ht Hnew. unfold unused. case_bool_decide as E.
  - subst k. pose proof (tally_change (λ x : O * key, bool_decide (x.2 = target ∧ x.2.1 ≠ None ∧ x.1 ∉@{gset O} map_img A))
      (λ x : O * key, bool_decide (x.2 = target ∧ x.2.1 ≠ None ∧ x.1 ∉@{gset O} map_img (moved A sid holder o o')))
      occurrences (o', target)) as Hc. cbv beta in Hc.
    rewrite (bool_decide_eq_true_2 ((o', target).2 = target ∧ _)) in Hc by done.
    rewrite (bool_decide_eq_false_2 ((o', target).2 = target ∧ _)) in Hc
      by (intros (_ & _ & Hn); apply Hn, moved_img; [done..|by left]).
    cbn [Nat.b2n] in Hc |- *.
    assert (∀ a b, a + 1 = b + 0 → a = b - 1) as Har by lia. apply Har, Hc; [by eapply NoDup_fmap_1|done|].
    intros [y ky] Hy Hne. apply bool_decide_ext. cbn. rewrite moved_img by done. split; [|tauto].
    intros (-> & ? & ?). split_and!; [done..|]. intros [->|?]; done.
  - cbn. rewrite Nat.sub_0_r. apply tally_ext. intros [y ky] Hy. apply bool_decide_ext. cbn. rewrite moved_img by done.
    split; [tauto|]. intros (-> & ? & ?). split_and!; [done..|]. intros [->|?]; [|done].
    apply E. by apply (occurrence_key o').
Qed.

Lemma moved_realizes A r0 r o o' target (k : key) :
  realizes A → r0 ∈ pool → observed_at r0 = None → k.2 ∈ forms_of r0 → k.1 ≠ None → store_id r0 ∉ dom A →
  r ∈ pool → A !! store_id r = Some o → (o, k) ∈ occurrences →
  (o', target) ∈ occurrences → target ∈ keys r → o' ∉@{gset O} map_img A →
  realizes (moved A (store_id r0) (store_id r) o o').
Proof using Type.
  intros [Hinj Hok] Hr0 Hnull Hform Hstamp Hnew Hr Hh Ho Ho' Ht Hfresh.
  assert (∀ sid, A !! sid = Some o → sid = store_id r) as Hold by (intros sid Hs; by eapply Hinj).
  assert (store_id r0 ≠ store_id r) as Hne by (intros E; apply Hnew, elem_of_dom; rewrite E; by eexists).
  assert (∀ sid, A !! sid ≠ Some o') as Hno by (intros sid Hs; by apply Hfresh, (elem_of_map_img_2 _ sid)).
  assert (o ≠ o') as Hoo by (intros ->; by apply (Hno (store_id r))).
  assert (∀ sid x, moved A (store_id r0) (store_id r) o o' !! sid = Some x →
    (sid = store_id r0 ∧ x = o) ∨ (sid = store_id r ∧ x = o') ∨ (sid ≠ store_id r ∧ A !! sid = Some x)) as Hcase.
  { intros sid x. unfold moved. intros [[<- <-]|[_ [[<- <-]|[? ?]]%lookup_insert_Some]]%lookup_insert_Some; auto. }
  split.
  - intros sid sid' x [(-> & E)|[(-> & E)|(Hs & Hx)]]%Hcase [(-> & E')|[(-> & E')|(Hs' & Hx')]]%Hcase.
    + done.
    + destruct Hoo. congruence.
    + destruct Hs'. apply Hold. congruence.
    + destruct Hoo. congruence.
    + done.
    + destruct (Hno sid'). congruence.
    + destruct Hs. apply Hold. congruence.
    + destruct (Hno sid). congruence.
    + by eapply Hinj.
  - intros sid x [(-> & ->)|[(-> & ->)|(Hs & Hx)]]%Hcase.
    + exists r0, k. split_and!; [done..|]. by right.
    + exists r, target. split_and!; [done..|]. by left.
    + by apply Hok.
Qed.

Lemma move_inv A s form holder queue k r r0 target :
  routing_inv A s → default [] (holders s !! form) = holder :: queue → current s !! holder = Some k → k.2 = form →
  r ∈ pool → store_id r = holder → target ∈ keys r → 0 < count (free s) target →
  r0 ∈ rest → form ∈ forms_of r0 → store_id r0 ∉ out s →
  ∃ A', let s' := {| free := decrement (free s) target; current := <[holder := target]> (current s);
               holders := hold (<[form := queue]> (holders s)) target.2 holder;
               out := {[store_id r0]} ∪ out s; work := Datatypes.S (work s) |} in
  routing_inv A' s' ∧ routes s s'.
Proof using pool_ids occurrence_ids rest_pool.
  intros Hinv Hq Hk Hf Hr Hid Ht Hpos Hr0 Hform Hout. pose proof (pop_holder A s form holder queue k Hinv Hq Hk Hf) as Hpop.
  destruct Hinv as [Hre Hdom Himg Hfree Hcur Hstill Hhold Hstuck Hwant]. destruct (rest_pool r0 Hr0) as (Hp0 & Hnull & HA0).
  assert (store_id r0 ∉ dom A) as Hnew by (rewrite Hdom, not_elem_of_union; done).
  destruct (Hcur holder k Hk) as (Hd0 & o & Ho & Hok & Hstamp).
  rewrite Hfree in Hpos. apply unused_pos in Hpos as (o' & Ho' & Hts & Hfresh).
  assert (holder ≠ store_id r0) as Hne by (by intros ->).
  exists (moved A (store_id r0) holder o o'). split; split; cbn [free current holders out work].
  - subst holder. by apply (moved_realizes A r0 r o o' target k); try rewrite Hf.
  - unfold moved. rewrite !dom_insert_L, Hdom. apply elem_of_dom_2 in Ho. rewrite Hdom in Ho. set_solver.
  - intros x Hx. apply moved_img; [done..|]. right. by apply Himg.
  - intros x. by rewrite count_decrement, Hfree, (moved_unused A (store_id r0) holder o o' target).
  - intros sid x [[<- <-]|[Hns Hx]]%lookup_insert_Some.
    + split; [done|]. exists o'. unfold moved. by rewrite lookup_insert_ne, lookup_insert_eq by done.
    + destruct (Hcur sid x Hx) as (Hds & ox & Hox & ?). split; [done|]. exists ox. unfold moved.
      rewrite !lookup_insert_ne; [done|done|]. by intros <-.
  - intros sid Hs [Hx Hns]%lookup_insert_None. unfold moved. rewrite !lookup_insert_ne; [by apply Hstill|done|]. by intros <-.
  - intros f. destruct (Hpop f) as [Hnd Hin]. rewrite hold_lookup. split.
    + apply NoDup_app. split_and!; [done| |case_bool_decide; [apply NoDup_singleton|apply NoDup_nil_2]].
      intros x [_ Hx]%Hin. case_bool_decide; [by rewrite list_elem_of_singleton|apply not_elem_of_nil].
    + intros sid [[Hs Hsn]%Hin|Hs]%elem_of_app.
      * rewrite lookup_insert_ne by done. by apply Hhold.
      * case_bool_decide as E; [|by apply not_elem_of_nil in Hs]. apply list_elem_of_singleton in Hs as ->.
        exists target. by rewrite lookup_insert_eq.
  - intros r' k1 k' Hr' [[E1 <-]|[Hns Hx]]%lookup_insert_Some Hnot Hk' Hkne.
    + destruct Hnot. rewrite hold_lookup, bool_decide_eq_true_2 by done. apply elem_of_app. right.
      by apply list_elem_of_singleton.
    + rewrite count_decrement, (Hstuck r' k1 k'); try done.
      intros Hin. apply Hnot. rewrite hold_lookup. apply elem_of_app. left. by apply Hpop.
  - intros x Hx. by rewrite count_decrement, Hwant.
  - intros x. rewrite count_decrement. lia.
  - apply union_subseteq_r.
  - lia.
  - rewrite dom_insert_L. apply elem_of_dom_2 in Hk. set_solver.
  - intros f Hwf He. rewrite hold_lookup. destruct (decide (f = form)) as [->|Hnf]; [congruence|].
    rewrite lookup_insert_ne, He by done. case_bool_decide as E; [|done]. subst f.
    assert (0 < unused A target) as Hun by (apply unused_pos; by exists o'). rewrite <-Hfree, (Hwant target Hwf) in Hun. lia.
Qed.

Variables (repr_key : key → string) (repr_form : F → string).
Abbreviation rows := (dict_of ((λ r, (store_id r, r)) <$> pool)).

Lemma target_spec s r k :
  match target_of repr_key keys s r k with
  | Some target => target ∈ keys r ∧ target ≠ k ∧ 0 < count (free s) target
  | None => ∀ k', k' ∈ keys r → k' ≠ k → count (free s) k' = 0
  end.
Proof using Type.
  unfold target_of. destruct (find_first _ _) as [target|] eqn:E.
  - apply find_first_Some in E as (Hin & Hne & Hpos). apply sorted_by_elem, elem_of_elements in Hin. done.
  - intros k' Hin Hne. destruct (decide (0 < count (free s) k')) as [Hpos|]; [|lia].
    destruct (find_first_is_Some (λ k', k' ≠ k ∧ 0 < count (free s) k')
      (sorted_by repr_key (elements (keys r))) k') as [x Hx]; [|done|congruence].
    by apply sorted_by_elem, elem_of_elements.
Qed.

Lemma take_holders_spec form r0 : r0 ∈ rest → form ∈ forms_of r0 → ∀ budget_left A s,
  routing_inv A s →
  ∃ A' s', take_holders repr_key rows keys budget_left form (store_id r0) s = Some s' ∧ routing_inv A' s' ∧ routes s s' ∧
    (store_id r0 ∈ out s' ∨ work s + budget_left ≤ work s' ∨ default [] (holders s' !! form) = []).
Proof using pool_ids occurrence_ids rest_pool.
  intros Hr0 Hform. induction budget_left as [|n IH]; intros A s Hinv; cbn [take_holders].
  { exists A, s. split_and!; try done. right; left. lia. }
  destruct (default [] (holders s !! form)) as [|holder queue] eqn:Hq.
  { exists A, s. split_and!; try done. by right; right. }
  case_bool_decide as Hout; [exists A, s; split_and!; try done; by left|].
  destruct (ri_holders _ _ Hinv form) as [_ Hhold]. destruct (Hhold holder) as (k & Hk & Hf); [rewrite Hq; by left|].
  destruct (ri_current _ _ Hinv holder k Hk) as (_ & o & Ho & _).
  destruct (proj2 (ri_realizes _ _ Hinv) holder o Ho) as (r & _ & Hr & Hid & _).
  cbn [current]. rewrite Hk. cbn [mbind option_bind]. rewrite (row_of_id r holder Hr Hid). cbn [mbind option_bind].
  match goal with |- context [target_of _ _ ?s1 _ _] => pose proof (target_spec s1 r k) as Ht; destruct (target_of _ _ s1 _ _) as [target|] end.
  - destruct Ht as (Ht & Hne & Hpos).
    destruct (move_inv A s form holder queue k r r0 target) as (A1 & Hinv1 & Hro1); try done.
    destruct (IH A1 _ Hinv1) as (A2 & s2 & E & Hinv2 & Hro2 & Hend). exists A2, s2. split_and!; [done|done|by etransitivity|].
    left. apply (ro_out _ _ Hro2). cbn [out]. apply elem_of_union_l. by apply elem_of_singleton.
  - destruct (skip_inv A s form holder queue k r) as (Hinv1 & Hro1); try done.
    destruct (IH A _ Hinv1) as (A2 & s2 & E & Hinv2 & Hro2 & Hend). exists A2, s2. split_and!; [done|done|by etransitivity|].
    destruct Hend as [?|[Hw|?]]; [by left|right; left|by right; right]. cbn [work] in Hw. lia.
Qed.

Lemma take_forms_spec budget r0 fs : r0 ∈ rest → (∀ f, f ∈ fs → f ∈ forms_of r0) → ∀ A s,
  routing_inv A s →
  ∃ A' s', take_forms repr_key rows keys budget fs (store_id r0) s = Some s' ∧ routing_inv A' s' ∧ routes s s' ∧
    (store_id r0 ∈ out s' ∨ budget ≤ work s' ∨ ∀ f, f ∈ fs → default [] (holders s' !! f) = []).
Proof using pool_ids occurrence_ids rest_pool.
  intros Hr0. induction fs as [|f fs IH]; intros Hfs A s Hinv; cbn [take_forms].
  { exists A, s. split_and!; try done. right; right. by intros f ?%not_elem_of_nil. }
  destruct (take_holders_spec f r0 Hr0 (Hfs f (list_elem_of_here _ _)) (budget - work s) A s Hinv)
    as (A1 & s1 & E1 & Hinv1 & Hro1 & Hend1).
  rewrite E1. cbn [mbind option_bind]. case_bool_decide as Hout; [exists A1, s1; split_and!; try done; by left|].
  destruct (IH (λ g Hg, Hfs g (list_elem_of_further _ _ _ Hg)) A1 s1 Hinv1) as (A2 & s2 & E2 & Hinv2 & Hro2 & Hend2).
  exists A2, s2. split_and!; [done|done|by etransitivity|]. destruct Hend2 as [?|[?|Hend2]]; [by left|by right; left|].
  destruct Hend1 as [?|[Hw|He]]; [done|right; left; pose proof (ro_work _ _ Hro2); lia|right; right].
  intros g [->|Hg]%elem_of_cons; [|by apply Hend2]. apply (ro_wanted _ _ Hro2); [|done]. exists r0. split; [done|]. apply Hfs. by left.
Qed.

Lemma reroute_rows_spec budget rs : (∀ r, r ∈ rs → r ∈ rest) → ∀ A s,
  routing_inv A s →
  ∃ A' s', reroute_rows repr_key repr_form rows keys budget rs s = Some s' ∧ routing_inv A' s' ∧ routes s s' ∧
    (work s' < budget → ∀ r, r ∈ rs → store_id r ∈ out s' ∨ ∀ f, f ∈ forms_of r → default [] (holders s' !! f) = []).
Proof using pool_ids occurrence_ids rest_pool.
  induction rs as [|r0 rs IH]; intros Hrs A s Hinv; cbn [reroute_rows].
  { exists A, s. split_and!; try done. by intros _ r ?%not_elem_of_nil. }
  assert (r0 ∈ rest) as Hr0 by (apply Hrs; by left).
  destruct (take_forms_spec budget r0 (sorted_by repr_form (elements (forms_of r0))) Hr0) with (A := A) (s := s)
    as (A1 & s1 & E1 & Hinv1 & Hro1 & Hend1); [|done|].
  { intros f Hf. by apply sorted_by_elem, elem_of_elements in Hf. }
  rewrite E1. cbn [mbind option_bind]. case_bool_decide as Hb; [exists A1, s1; split_and!; try done; lia|].
  destruct (IH (λ g Hg, Hrs g (list_elem_of_further _ _ _ Hg)) A1 s1 Hinv1) as (A2 & s2 & E2 & Hinv2 & Hro2 & Hend2).
  exists A2, s2. split_and!; [done|done|by etransitivity|]. intros Hw r [->|Hr]%elem_of_cons; [|by apply Hend2].
  destruct Hend1 as [Hin|[?|He]]; [left; by apply (ro_out _ _ Hro2)|lia|right]. intros f Hf.
  apply (ro_wanted _ _ Hro2); [by exists r0|]. by apply He, sorted_by_elem, elem_of_elements.
Qed.

End rerouting.

(** ** The state the re-routing starts from *)

Section starting.
Variables (occurrences : list (O * key)).
Hypothesis occurrence_ids : NoDup occurrences.*1.

Lemma current_keys_spec (pool : list (row S F)) (first : gmap Z O) :
  NoDup (store_id <$> pool) → (∀ sid o, first !! sid = Some o → ∃ k, (o, k) ∈ occurrences) →
  ∃ cur, current_keys pool first (dict_of occurrences) = Some cur ∧ NoDup cur.*1 ∧
    ∀ sid k, (sid, k) ∈ cur ↔ sid ∈ store_id <$> pool ∧ k.1 ≠ None ∧ ∃ o, first !! sid = Some o ∧ (o, k) ∈ occurrences.
Proof using occurrence_ids.
  intros Hnd Hfirst. induction pool as [|r pool IH]; cbn [current_keys fmap list_fmap] in *.
  { exists []. split_and!; [done|apply NoDup_nil_2|]. intros sid k. split; [by intros ?%not_elem_of_nil|by intros [?%not_elem_of_nil _]]. }
  apply NoDup_cons in Hnd as [Hr Hnd]. destruct (IH Hnd) as (cur & E & Hcn & Hcur). clear IH.
  assert (store_id r ∉ cur.*1) as Hfresh by (intros ([sid k] & Es & (Hin & _)%Hcur)%list_elem_of_fmap; cbn in Es; congruence).
  destruct (first !! store_id r) as [o|] eqn:Ho.
  - destruct (Hfirst _ _ Ho) as [k Hk]. rewrite (proj2 (dict_of_lookup occurrences o k occurrence_ids) Hk), E.
    cbn [mbind option_bind]. eexists. split; [done|].
    assert (∀ k', (o, k') ∈ occurrences → k' = k) as Hfun by (intros k' Hk'; by apply (NoDup_fst_fun occurrences o)).
    case_bool_decide as Hs; (split; [first [done|constructor; done]|]); intros sid k'; rewrite elem_of_cons, ?elem_of_cons, Hcur.
    + split; [intros (? & ? & ?); split_and!; [by right|done..]|]. intros ([->|?] & Hs' & o' & Ho' & Hk'); [|by split_and!; [..|exists o']].
      rewrite Ho in Ho'. injection Ho' as <-. by rewrite (Hfun k') in Hs'.
    + split.
      * intros [[= -> ->]|(? & ? & ?)]; [split_and!; [by left|done|by exists o]|split_and!; [by right|done..]].
      * intros ([->|?] & Hs' & o' & Ho' & Hk'); [left|right; by split_and!; [..|exists o']].
        rewrite Ho in Ho'. injection Ho' as <-. by rewrite (Hfun k').
  - exists cur. split_and!; [done..|]. intros sid k. rewrite elem_of_cons, Hcur. split.
    + intros (? & ? & ?). split_and!; [by right|done..].
    + intros ([->|?] & ? & o & Ho' & ?); [congruence|]. by split_and!; [..|exists o].
Qed.

Lemma holders_spec (cur : list (Z * key)) : ∀ m f,
  default [] (foldl (λ m '(sid, k), hold m k.2 sid) m cur !! f) = default [] (m !! f) ++ (filter (λ x : Z * key, x.2.2 = f) cur).*1.
Proof using Type.
  induction cur as [|[sid k] cur IH]; intros m f; cbn [foldl]; [by rewrite app_nil_r|].
  rewrite IH, hold_lookup, filter_cons, <-app_assoc. cbn [snd]. f_equal.
  destruct (decide (k.2 = f)) as [E|E]; [by rewrite bool_decide_eq_true_2|by rewrite bool_decide_eq_false_2].
Qed.

Lemma free_keys_spec (A : gmap Z O) (taken : gset O) k :
  (∀ o, o ∈ taken ↔ o ∈@{gset O} map_img A) →
  count (free_keys (dict_of occurrences) taken) k = unused occurrences A k.
Proof using occurrence_ids.
  intros Htaken. unfold free_keys, unused. rewrite count_counter, dict_of_items, tally_fmap, tally_filter by done.
  apply tally_ext. intros x _. rewrite <-bool_decide_and. apply bool_decide_ext. rewrite Htaken. tauto.
Qed.

Lemma initial_inv pool keys (M1 M2 : list (Z * O)) rest cur :
  NoDup (store_id <$> pool) → NoDup (M1 ++ M2).*1 → realizes pool occurrences keys (list_to_map (M1 ++ M2)) →
  NoDup cur.*1 →
  (∀ sid k, (sid, k) ∈ cur ↔
     sid ∈ store_id <$> pool ∧ k.1 ≠ None ∧ ∃ o, (list_to_map M1 : gmap Z O) !! sid = Some o ∧ (o, k) ∈ occurrences) →
  (∀ r o k, r ∈ rest → (o, k) ∈ occurrences → k.1 ≠ None → k.2 ∈ forms_of r → o ∈ (M1 ++ M2).*2) →
  routing_inv pool occurrences keys (list_to_map (M1 ++ M2)) rest (list_to_map (M1 ++ M2))
    {| free := free_keys (dict_of occurrences) (list_to_set M1.*2 ∪ list_to_set M2.*2); current := dict_of cur;
       holders := foldl (λ m '(sid, k), hold m k.2 sid) ∅ cur; out := ∅; work := 0 |}.
Proof using occurrence_ids.
  intros Hids Hnd Hre Hcn Hcur Hwant. set (A := list_to_map (M1 ++ M2) : gmap Z O) in *.
  assert (∀ o, o ∈@{gset O} map_img A ↔ o ∈ (M1 ++ M2).*2) as Himg.
  { intros o. unfold A. rewrite elem_of_map_img, list_elem_of_fmap. split.
    - intros (sid & Hs%elem_of_list_to_map_2). by exists (sid, o).
    - intros ([sid o'] & -> & Hin). exists sid. by apply elem_of_list_to_map_1. }
  assert (∀ k, count (free_keys (dict_of occurrences) (list_to_set M1.*2 ∪ list_to_set M2.*2)) k = unused occurrences A k) as Hfree.
  { intros k. apply free_keys_spec. intros o. rewrite Himg, fmap_app, elem_of_app, elem_of_union, !elem_of_list_to_set. done. }
  split; cbn [free current holders out work]; try done.
  - by rewrite union_empty_r_L.
  - intros sid k Hk. apply dict_of_lookup, Hcur in Hk as (_ & Hs & o & Ho & Hok); [|done].
    assert (A !! sid = Some o) as HA.
    { apply elem_of_list_to_map_1; [done|]. apply elem_of_app. left. by apply elem_of_list_to_map_2. }
    split; [by apply elem_of_dom_2 in HA|]. by exists o.
  - intros f. rewrite holders_spec, lookup_empty. cbn [from_option app]. split.
    + eapply sublist_NoDup; [exact Hcn|]. apply fmap_sublist, sublist_filter.
    + intros sid ([sid' k] & -> & [Hf Hin]%list_elem_of_filter)%list_elem_of_fmap. exists k.
      split; [by apply dict_of_lookup|done].
  - intros r k k' Hr Hk Hnot. destruct Hnot. rewrite holders_spec. apply elem_of_app. right.
    apply list_elem_of_fmap. exists (store_id r, k). split; [done|]. apply list_elem_of_filter.
    split; [done|]. by apply dict_of_lookup in Hk.
  - intros k (r & Hr & Hf). rewrite Hfree. destruct (decide (0 < unused occurrences A k)) as [Hpos|]; [|lia].
    apply unused_pos in Hpos as (o & Ho & Hs & Hn). destruct Hn. apply Himg. by apply (Hwant r o k).
Qed.

End starting.

(** ** The three passes *)

Section reserving.
Variables (repr_key : key → string) (repr_form repr_null : F → string).
Variables (pool : list (row S F)) (occurrences : list (O * key)) (aliases : gmap Z (gset (option S))).
Hypothesis pool_ids : NoDup (store_id <$> pool).
Hypothesis occurrence_ids : NoDup occurrences.*1.

Definition within_budget (p : passes S F O) : Prop :=
  match rerouted p with Some (s, budget) => work s < budget | None => True end.

(** A row without an occurrence has no free one, and no row of the first pass can
    move to a free occurrence and leave it one. *)
Definition exhausted (p : passes S F O) A : Prop :=
  ∀ r, r ∈ pool → store_id r ∉ dom A →
    (∀ o k, (o, k) ∈ occurrences → o ∉@{gset O} map_img A → ¬ answers (keys_of aliases) r k) ∧
    (within_budget p → observed_at r = None →
     ∀ r' o k o' k', r' ∈ pool → store_id r' ∈ (first p).*1 → A !! store_id r' = Some o → (o, k) ∈ occurrences →
       k.1 ≠ None → k.2 ∈ forms_of r → (o', k') ∈ occurrences → k'.1 ≠ None → o' ∉@{gset O} map_img A →
       k' ∉ keys_of aliases r').

Lemma left_over_elem taken o f :
  (o, f) ∈ left_over occurrences taken ↔ ∃ k, (o, k) ∈ occurrences ∧ k.1 ≠ None ∧ o ∉ taken ∧ k.2 = f.
Proof using Type.
  unfold left_over. rewrite list_elem_of_fmap. split.
  - intros ([o' k] & [= -> ->] & [[Hs Ht] Hin]%list_elem_of_filter). by exists k.
  - intros (k & Hin & Hs & Ht & <-). exists (o, k). split; [done|]. by apply list_elem_of_filter.
Qed.

Lemma left_over_ids taken : NoDup (left_over occurrences taken).*1.
Proof using occurrence_ids.
  unfold left_over. rewrite <-list_fmap_compose. eapply sublist_NoDup; [exact occurrence_ids|].
  apply (fmap_sublist fst), sublist_filter.
Qed.

(** What the two passes have matched, together. *)
Lemma passes_realize M1 M2 :
  is_matching ((λ r, (store_id r, keys_of aliases r)) <$> pool) occurrences M1 →
  is_matching ((λ r, (store_id r, forms_of r)) <$> null_rows pool M1) (left_over occurrences (list_to_set M1.*2)) M2 →
  NoDup (M1 ++ M2).*1 ∧ realizes pool occurrences (keys_of aliases) (list_to_map (M1 ++ M2)).
Proof using Type.
  intros (Hn1 & Ho1 & Hv1) (Hn2 & Ho2 & Hv2).
  assert (∀ sid o, (sid, o) ∈ M2 → sid ∉ M1.*1 ∧ o ∉ M1.*2 ∧
    ∃ r k, r ∈ pool ∧ store_id r = sid ∧ (o, k) ∈ occurrences ∧ answers (keys_of aliases) r k) as Hv2'.
  { intros sid o Hin. destruct (Hv2 sid o Hin) as (f & fs & (r & [= -> ->] & Hr)%list_elem_of_fmap & Hf & Ho).
    apply list_elem_of_filter in Hr as [[Hnull Hno] Hr]. apply left_over_elem in Ho as (k & Ho & Hs & Ht & <-).
    rewrite elem_of_list_to_set in Ht. split_and!; [done..|]. exists r, k. split_and!; [done..|]. by right. }
  assert (NoDup (M1 ++ M2).*1) as Hnd.
  { rewrite fmap_app. apply NoDup_app. split_and!; [done| |done]. intros sid H1' ([sid' o] & -> & Hin)%list_elem_of_fmap.
    by destruct (Hv2' _ _ Hin). }
  assert (NoDup (M1 ++ M2).*2) as Hno.
  { rewrite fmap_app. apply NoDup_app. split_and!; [done| |done]. intros o H1' ([sid o'] & -> & Hin)%list_elem_of_fmap.
    by destruct (Hv2' _ _ Hin) as (_ & ? & _). }
  split; [done|]. split.
  - intros sid sid' o Hs%elem_of_list_to_map_2 Hs'%elem_of_list_to_map_2.
    apply (NoDup_fst_fun ((λ x, (x.2, x.1)) <$> (M1 ++ M2)) o); [by rewrite <-list_fmap_compose|..];
      apply list_elem_of_fmap; [by exists (sid, o)|by exists (sid', o)].
  - intros sid o [Hin|Hin]%elem_of_list_to_map_2%elem_of_app; [|by apply Hv2'].
    destruct (Hv1 sid o Hin) as (k & ks & (r & [= -> ->] & Hr)%list_elem_of_fmap & Hk & Ho). exists r, k. split_and!; [done..|by left].
Qed.

Lemma passes_img (M : list (Z * O)) o : NoDup M.*1 → o ∈@{gset O} map_img (list_to_map M : gmap Z O) ↔ o ∈ M.*2.
Proof using Type.
  intros Hnd. rewrite elem_of_map_img, list_elem_of_fmap. split.
  - intros (sid & Hs%elem_of_list_to_map_2). by exists (sid, o).
  - intros ([sid o'] & -> & Hin). exists sid. by apply elem_of_list_to_map_1.
Qed.

(** Nothing is free for a row neither pass has matched. *)
Lemma passes_maximal M1 M2 r o k :
  maximal ((λ r, (store_id r, keys_of aliases r)) <$> pool) occurrences M1 →
  maximal ((λ r, (store_id r, forms_of r)) <$> null_rows pool M1) (left_over occurrences (list_to_set M1.*2)) M2 →
  r ∈ pool → store_id r ∉ (M1 ++ M2).*1 → (o, k) ∈ occurrences → answers (keys_of aliases) r k → o ∈ (M1 ++ M2).*2.
Proof using Type.
  intros H1' H2' Hr Hno Ho Hans. rewrite fmap_app, not_elem_of_app in Hno. rewrite fmap_app, elem_of_app.
  destruct Hno as [Hn1 Hn2].
  destruct Hans as [Hk|(Hnull & Hs & Hf)].
  - left. eapply H1'; [apply list_elem_of_fmap; by exists r|done..].
  - destruct (decide (o ∈ M1.*2)) as [?|Hfree]; [by left|right]. eapply H2'; [|done|exact Hf|].
    + apply list_elem_of_fmap. exists r. split; [done|]. by apply list_elem_of_filter.
    + apply left_over_elem. exists k. by rewrite elem_of_list_to_set.
Qed.

Definition good (p : passes S F O) : Prop :=
  ∃ A, dom A = reserved p ∧ realizes pool occurrences (keys_of aliases) A ∧
    (∀ sid, sid ∈ (first p).*1 → sid ∈ dom A) ∧ exhausted p A.

Lemma good_without_rerouting M1 M2 :
  is_matching ((λ r, (store_id r, keys_of aliases r)) <$> pool) occurrences M1 →
  is_matching ((λ r, (store_id r, forms_of r)) <$> null_rows pool M1) (left_over occurrences (list_to_set M1.*2)) M2 →
  maximal ((λ r, (store_id r, keys_of aliases r)) <$> pool) occurrences M1 →
  maximal ((λ r, (store_id r, forms_of r)) <$> null_rows pool M1) (left_over occurrences (list_to_set M1.*2)) M2 →
  null_rows pool M1 = [] ∨ left_over occurrences (list_to_set M1.*2) = [] ∨ rest_rows (null_rows pool M1) M2 = [] →
  good {| first := M1; second := M2; rerouted := None |}.
Proof using Type.
  intros Hm1 Hm2 Hx1 Hx2 Hend. destruct (passes_realize M1 M2 Hm1 Hm2) as [Hnd Hre]. exists (list_to_map (M1 ++ M2)).
  assert (dom (list_to_map (M1 ++ M2) : gmap Z O) = list_to_set (M1 ++ M2).*1) as Hdom by apply dom_list_to_map_L.
  split_and!; [|done| |].
  - unfold reserved. cbn [first second rerouted]. by rewrite Hdom, fmap_app, list_to_set_app_L, union_empty_r_L.
  - cbn [first]. intros sid Hs. rewrite Hdom, elem_of_list_to_set, fmap_app, elem_of_app. by left.
  - intros r Hr Hno. rewrite Hdom, elem_of_list_to_set in Hno. split.
    + intros o k Ho Hfree Hans. apply Hfree, passes_img; [done|]. by apply (passes_maximal M1 M2 r o k).
    + intros _ Hnull r' o k o' k' Hr' Hf Ho Hok Hs Hfo Ho' Hs' Hfree Hk'. destruct Hend as [E|[E|E]].
      * assert (r ∈ null_rows pool M1) as Hin.
        { apply list_elem_of_filter. split; [split; [done|]|done]. intros Hin. apply Hno. rewrite fmap_app, elem_of_app. by left. }
        rewrite E in Hin. by apply not_elem_of_nil in Hin.
      * assert ((o', k'.2) ∈ left_over occurrences (list_to_set M1.*2)) as Hin.
        { apply left_over_elem. exists k'. split_and!; [done..| |done]. rewrite elem_of_list_to_set. intros Hin. apply Hfree, passes_img; [done|].
          rewrite fmap_app, elem_of_app. by left. }
        rewrite E in Hin. by apply not_elem_of_nil in Hin.
      * rewrite fmap_app, not_elem_of_app in Hno. destruct Hno as [Hn1 Hn2].
        assert (r ∈ rest_rows (null_rows pool M1) M2) as Hin.
        { apply list_elem_of_filter. split; [done|]. by apply list_elem_of_filter. }
        rewrite E in Hin. by apply not_elem_of_nil in Hin.
Qed.

Lemma good_with_rerouting M1 M2 :
  is_matching ((λ r, (store_id r, keys_of aliases r)) <$> pool) occurrences M1 →
  is_matching ((λ r, (store_id r, forms_of r)) <$> null_rows pool M1) (left_over occurrences (list_to_set M1.*2)) M2 →
  maximal ((λ r, (store_id r, keys_of aliases r)) <$> pool) occurrences M1 →
  maximal ((λ r, (store_id r, forms_of r)) <$> null_rows pool M1) (left_over occurrences (list_to_set M1.*2)) M2 →
  ∃ sb, reroute_for_null repr_key repr_form pool (rest_rows (null_rows pool M1) M2) (list_to_map M1)
          (list_to_set M1.*2 ∪ list_to_set M2.*2) (dict_of occurrences) (keys_of aliases) = Some sb ∧
    good {| first := M1; second := M2; rerouted := Some sb |}.
Proof using pool_ids occurrence_ids.
  intros Hm1 Hm2 Hx1 Hx2. destruct (passes_realize M1 M2 Hm1 Hm2) as [Hnd Hre].
  set (rest := rest_rows (null_rows pool M1) M2). set (A0 := list_to_map (M1 ++ M2) : gmap Z O) in *.
  assert (dom A0 = list_to_set (M1 ++ M2).*1) as Hdom by apply dom_list_to_map_L.
  assert (∀ r, r ∈ rest ↔ r ∈ pool ∧ observed_at r = None ∧ store_id r ∉ (M1 ++ M2).*1) as Hrest.
  { intros r. unfold rest, rest_rows, null_rows. rewrite !list_elem_of_filter, fmap_app, not_elem_of_app. tauto. }
  assert (∀ r, r ∈ rest → r ∈ pool ∧ observed_at r = None ∧ store_id r ∉ dom A0) as Hrp.
  { intros r Hr%Hrest. by rewrite Hdom, elem_of_list_to_set. }
  destruct (current_keys_spec occurrences occurrence_ids pool (list_to_map M1) pool_ids) as (cur & Ecur & Hcn & Hcur).
  { intros sid o Hs%elem_of_list_to_map_2. destruct Hm1 as (_ & _ & Hv). destruct (Hv sid o Hs) as (k & ks & _ & _ & ?). by exists k. }
  pose proof (initial_inv occurrences occurrence_ids pool (keys_of aliases) M1 M2 rest cur pool_ids Hnd Hre Hcn Hcur) as Hinv.
  unfold reroute_for_null. rewrite Ecur. cbn [mbind option_bind].
  match goal with |- context [reroute_rows _ _ _ _ ?b _ _] => set (budget := b) end.
  destruct (reroute_rows_spec pool occurrences (keys_of aliases) pool_ids occurrence_ids A0 rest Hrp repr_key repr_form budget rest
    (λ r Hr, Hr) A0 _ (Hinv (λ r o k Hr Ho Hs Hf, passes_maximal M1 M2 r o k Hx1 Hx2 (proj1 (Hrp r Hr)) (proj2 (proj2 (proj1 (Hrest r) Hr))) Ho
      (or_intror (conj (proj1 (proj2 (Hrp r Hr))) (conj Hs Hf)))))) as (A & s & E & Hinv' & Hro & Hend).
  exists (s, budget). rewrite E. split; [done|]. destruct Hinv' as [Hre' Hdom' Himg Hfree Hcur' Hstill Hhold Hstuck Hwant].
  exists A. split_and!; [|done| |].
  - unfold reserved. cbn [first second rerouted]. by rewrite Hdom', Hdom, fmap_app, list_to_set_app_L.
  - cbn [first]. intros sid Hs. rewrite Hdom', Hdom, elem_of_union, elem_of_list_to_set, fmap_app, elem_of_app. by left; left.
  - intros r Hr Hno. rewrite Hdom', not_elem_of_union, Hdom, elem_of_list_to_set in Hno. destruct Hno as [Hno Hout]. split.
    + intros o k Ho Hf Hans. apply Hf, Himg, passes_img; [done|]. by apply (passes_maximal M1 M2 r o k).
    + unfold within_budget. cbn [rerouted first]. intros Hw Hnull r' o k o' k' Hr' Hin Ho Hok Hs Hfo Ho' Hs' Hf' Hk'.
      assert (r ∈ rest) as Hrr by (by apply Hrest).
      destruct (Hend Hw r Hrr) as [?|He]; [done|].
      assert (current s !! store_id r' = Some k) as Hck.
      { assert (store_id r' ∈ dom (current s)) as [k1 Hk1]%elem_of_dom.
        { destruct (current s !! store_id r') as [k1|] eqn:Hk1; [by apply elem_of_dom_2 in Hk1|]. exfalso.
          assert ((store_id r', o) ∈ M1) as HM1.
          { apply (proj1 (list_elem_of_fmap fst M1 (store_id r'))) in Hin as ([sid o1] & E1 & HM). cbn in E1. subst sid.
            assert (A0 !! store_id r' = Some o1) as HA0 by (apply elem_of_list_to_map_1; [done|apply elem_of_app; by left]).
            rewrite <-Hstill in HA0 by (done || by apply elem_of_dom_2 in HA0). rewrite Ho in HA0. by injection HA0 as ->. }
          assert ((store_id r', k) ∈ cur) as Hc.
          { apply Hcur. split_and!; [by apply list_elem_of_fmap_2|done|]. exists o. split; [|done].
            apply elem_of_list_to_map_1; [|done]. by destruct Hm1. }
          apply dict_of_lookup, elem_of_dom_2 in Hc; [|done]. pose proof (ro_current _ _ _ Hro) as Hdc. cbn [current] in Hdc.
          rewrite <-Hdc in Hc. apply elem_of_dom in Hc as [? ?]. congruence. }
        destruct (Hcur' _ _ Hk1) as (_ & o1 & Ho1 & Hok1 & _). rewrite Ho in Ho1. injection Ho1 as <-.
        by rewrite (occurrence_key occurrences occurrence_ids o k k1). }
      assert (0 < unused occurrences A k') as Hun by (apply unused_pos; by exists o').
      assert (k' ≠ k) as Hne by (intros ->; rewrite <-Hfree, Hwant in Hun; [lia|by exists r]).
      rewrite <-Hfree, (Hstuck r' k k') in Hun; [lia|done..| |done|done]. rewrite He; [apply not_elem_of_nil|done].
Qed.

Lemma run_passes_spec : ∃ p, run_passes repr_key repr_form repr_null pool occurrences aliases = Some p ∧ good p.
Proof using pool_ids occurrence_ids.
  destruct (match_occurrences_matching repr_key ((λ r, (store_id r, keys_of aliases r)) <$> pool) occurrences occurrence_ids)
    as (M1 & spent1 & E1 & Hm1 & _ & Hx1).
  unfold run_passes. rewrite E1. cbn [mbind option_bind].
  assert (∀ rows (occs : list (O * F)), rows = [] ∨ occs = [] → is_matching rows occs [] ∧ maximal rows occs []) as Hnil.
  { intros rows occs Hor. split; [split_and!; [apply NoDup_nil_2..|by intros sid o ?%not_elem_of_nil]|].
    intros sid ks o k Hin _ _ Ho. destruct Hor as [->| ->]; [by apply not_elem_of_nil in Hin|by apply not_elem_of_nil in Ho]. }
  destruct (bool_decide (null_rows pool M1 = []) || bool_decide (left_over occurrences (list_to_set M1.*2) = [])) eqn:Hb.
  - eexists. split; [done|]. apply orb_true_iff in Hb. rewrite !bool_decide_eq_true in Hb.
    destruct (Hnil ((λ r, (store_id r, forms_of r)) <$> null_rows pool M1) (left_over occurrences (list_to_set M1.*2)))
      as [Hm2 Hx2]; [destruct Hb as [->| ->]; auto|].
    apply (good_without_rerouting M1 [] Hm1 Hm2 Hx1 Hx2). destruct Hb; auto.
  - destruct (match_occurrences_matching repr_null ((λ r, (store_id r, forms_of r)) <$> null_rows pool M1)
      (left_over occurrences (list_to_set M1.*2)) (left_over_ids _)) as (M2 & spent2 & E2 & Hm2 & _ & Hx2).
    rewrite E2. cbn [mbind option_bind]. clear Hb. case_bool_decide as Hr.
    + eexists. split; [done|]. exact (good_without_rerouting M1 M2 Hm1 Hm2 Hx1 Hx2 (or_intror (or_intror Hr))).
    + destruct (good_with_rerouting M1 M2 Hm1 Hm2 Hx1 Hx2) as (sb & E3 & Hg). rewrite E3. by eexists.
Qed.

End reserving.

(** ** Properties *)

(** Reserving always returns (no missing key), and what it reserves can be shown:
    the reserved rows can be given distinct occurrences, each row one of its own
    stamps and forms or, a row without a stamp, a stamped one of its forms; a row the
    first pass matched is never given up. *)
Theorem reserve_shown_realizable (repr_key : key → string) (repr_form repr_null : F → string) (pool : list (row S F))
    (occurrences : list (O * key)) (aliases : gmap Z (gset (option S))) :
  NoDup (store_id <$> pool) → NoDup occurrences.*1 →
  ∃ A : gmap Z O,
    reserve_shown repr_key repr_form repr_null pool occurrences aliases = Some (dom A) ∧
    realizes pool occurrences (keys_of aliases) A ∧
    ∀ first spent, match_occurrences repr_key ((λ r, (store_id r, keys_of aliases r)) <$> pool) occurrences = Some (first, spent) →
      ∀ sid, sid ∈ first.*1 → sid ∈ dom A.
Proof.
  intros Hids Hocc. destruct (run_passes_spec repr_key repr_form repr_null pool occurrences aliases Hids Hocc)
    as (p & E & A & Hdom & Hre & Hfirst & _).
  exists A. unfold reserve_shown. rewrite E. cbn [mbind option_bind]. split_and!; [by rewrite Hdom|done|].
  intros M1 spent E1. enough (first p = M1) as <- by done. revert E. unfold run_passes. rewrite E1. cbn [mbind option_bind].
  destruct (bool_decide _ || _); [by intros [= <-]|].
  destruct (match_occurrences repr_null _ _) as [[M2 ?]|]; [|done]. cbn [mbind option_bind].
  case_bool_decide; [by intros [= <-]|]. by destruct (reroute_for_null _ _ _ _ _ _ _ _) as [sb|]; [intros [= <-]|].
Qed.

(** A row that is not reserved could not be: no occurrence it answers is left
    over, and, unless the re-routing spent its budget, no row of the first pass that
    holds a stamped occurrence of one of its forms could move to a stamped
    occurrence left over. *)
Theorem reserve_shown_exhaustive (repr_key : key → string) (repr_form repr_null : F → string) (pool : list (row S F))
    (occurrences : list (O * key)) (aliases : gmap Z (gset (option S))) :
  NoDup (store_id <$> pool) → NoDup occurrences.*1 →
  ∃ (p : passes S F O) (A : gmap Z O),
    run_passes repr_key repr_form repr_null pool occurrences aliases = Some p ∧
    reserve_shown repr_key repr_form repr_null pool occurrences aliases = Some (dom A) ∧
    realizes pool occurrences (keys_of aliases) A ∧ exhausted pool occurrences aliases p A.
Proof.
  intros Hids Hocc. destruct (run_passes_spec repr_key repr_form repr_null pool occurrences aliases Hids Hocc)
    as (p & E & A & Hdom & Hre & _ & Hex).
  exists p, A. unfold reserve_shown. rewrite E. cbn [mbind option_bind]. by rewrite Hdom.
Qed.

End proofs.

(** ** Witnesses *)

(** Row 1 answers both occurrences and takes the first; row 2, without a stamp, has the
    form of that one only, so row 1 moves. *)
Definition example_pool : list (row Z string) :=
  [{| store_id := 1; observed_at := Some 7%Z; forms_of := {["a"%string; "b"%string]} |};
   {| store_id := 2; observed_at := None; forms_of := {["a"%string]} |}].
Definition example_shown : list (Z * (option Z * string)) := [(10%Z, (Some 7%Z, "a"%string)); (11%Z, (Some 7%Z, "b"%string))].
Definition example_repr (k : option Z * string) : string := k.2.

Example example_reserved : reserve_shown example_repr id id example_pool example_shown ∅ = Some {[1%Z; 2%Z]}.
Proof. vm_compute. reflexivity. Qed.

Lemma example_pool_ids : NoDup (store_id <$> example_pool).
Proof. apply (bool_decide_eq_true_1 _). vm_compute. reflexivity. Qed.
Lemma example_shown_ids : NoDup example_shown.*1.
Proof. apply (bool_decide_eq_true_1 _). vm_compute. reflexivity. Qed.

Lemma reserve_shown_realizable_witness :
  NoDup (store_id <$> example_pool) ∧ NoDup example_shown.*1 ∧
  ∃ A : gmap Z Z, dom A = {[1%Z; 2%Z]} ∧ realizes example_pool example_shown (keys_of ∅) A.
Proof.
  split; [apply example_pool_ids|]. split; [apply example_shown_ids|].
  destruct (reserve_shown_realizable example_repr id id example_pool example_shown ∅ example_pool_ids example_shown_ids)
    as (A & H1 & H2 & _).
  exists A. rewrite example_reserved in H1. split; [congruence|exact H2].
Defined.

Lemma reserve_shown_exhaustive_witness :
  NoDup (store_id <$> example_pool) ∧ NoDup example_shown.*1 ∧
  ∃ (p : passes Z string Z) A, dom A = {[1%Z; 2%Z]} ∧ within_budget p ∧ exhausted example_pool example_shown ∅ p A.
Proof.
  split; [apply example_pool_ids|]. split; [apply example_shown_ids|].
  destruct (reserve_shown_exhaustive example_repr id id example_pool example_shown ∅ example_pool_ids example_shown_ids)
    as (p & A & H0 & H1 & _ & H2).
  exists p, A. rewrite example_reserved in H1. split; [congruence|]. split; [|exact H2].
  assert (Some true = match run_passes example_repr id id example_pool example_shown ∅ with
    | Some p => Some (match rerouted p with Some (s, b) => bool_decide (work s < b) | None => true end) | None => None end) as Hw
    by (vm_compute; reflexivity).
  rewrite H0 in Hw. unfold within_budget. destruct (rerouted p) as [[s b]|]; [|exact I].
  injection Hw as Hw. exact (bool_decide_eq_true_1 _ (eq_sym Hw)).
Defined.
