(* ===== verification/Decompositions.v ===== *)
(** Splitting a text into whole known texts (recognition_matching.py
    [_decompositions]): the bounded iterative walk, the recursive walk it stands
    for, and what a split is.

    A text is the list of its code points; [texts] is the set in the order Python
    iterates it.  A frame of the stack holds its position as the rest of the
    content from there. *)

From Stdlib Require Import Ascii String.
From S2P Require Import Prelude.
From stdpp Require Import options.

#[local] Open Scope list_scope.
#[local] Open Scope nat_scope.

Abbreviation text := (list ascii).

Definition MAX_DECOMPOSITIONS : nat := 3.
Definition DECOMPOSE_BUDGET : nat := 2048.
Definition DECOMPOSE_MAX_PARTS : nat := 64.

(** ["\n\n"] *)
Definition separator : text := ["010"; "010"]%char.

(** [s.startswith(t)] *)
Definition starts_with (t s : text) : bool := bool_decide (take (length t) s = t).

Record frame := { rest : text; parts : list text; pending : list text }.

Section decompositions.
Variables (content : text) (texts : list text) (partial : bool).

(** [by_head.get(content[pos:pos + 16], []) + short] *)
Definition candidates (rest : text) : list text :=
  filter (λ t, 16 <= length t ∧ take 16 t = take 16 rest) texts
  ++ filter (λ t, 0 < length t ∧ length t < 16) texts.

(** [if partial and parts and pos < len(content): out.append(...)] *)
Definition remainder (parts : list text) (rest : text) : list (list text * text) :=
  if partial && negb (bool_decide (parts = [])) && negb (bool_decide (rest = [])) then [(parts, rest)] else [].

Definition state : Type := list (list text * text) * list frame * nat.

(** [enter]; [None] once the budget is spent. *)
Definition enter (rest : text) (parts : list text) (st : state) : option state :=
  let '(out, stack, visited) := st in
  if bool_decide (MAX_DECOMPOSITIONS <= length out) then Some st
  else
    let visited := S visited in
    if bool_decide (DECOMPOSE_BUDGET < visited) || bool_decide (DECOMPOSE_MAX_PARTS <= length stack) then None
    else Some (out ++ remainder parts rest,
               {| rest := rest; parts := parts; pending := candidates rest |} :: stack, visited).

(** [while stack]; [Err] when the fuel is not enough. *)
Fixpoint walk_stack (fuel : nat) (st : state) : result unit (option (list (list text * text))) :=
  match fuel with
  | O => Err tt
  | S fuel =>
      match st with
      | (out, [], _) => Ok (Some out)
      | (out, f :: stack, visited) =>
          match pending f with
          | [] => walk_stack fuel (out, stack, visited)
          | t :: pending =>
              let stack := {| rest := rest f; parts := parts f; pending := pending |} :: stack in
              if negb (starts_with t (rest f)) then walk_stack fuel (out, stack, visited)
              else
                let after := drop (length t) (rest f) in
                if bool_decide (after = []) && negb (bool_decide (parts f = [])) then
                  walk_stack fuel (out ++ [(parts f ++ [t], [])], stack, visited)
                else if starts_with separator after && bool_decide (2 < length after) then
                  match enter (drop 2 after) (parts f ++ [t]) (out, stack, visited) with
                  | Some st => walk_stack fuel st
                  | None => Ok None
                  end
                else walk_stack fuel (out, stack, visited)
          end
      end
  end.

Definition enough : nat := S (S DECOMPOSE_BUDGET * S (2 * length texts)).

Definition decompositions : result unit (option (list (list text * text))) :=
  match enter content [] ([], [], 0) with
  | None => Ok None
  | Some st => walk_stack enough st
  end.

(** ** The recursive walk *)

(** One text tried at [rest]; [continue] splits what follows the separator. *)
Definition branch {A} (complete : list text → list A) (continue : list text → text → list A) (parts : list text)
    (rest t : text) : list A :=
  if negb (starts_with t rest) then []
  else
    let after := drop (length t) rest in
    if bool_decide (after = []) && negb (bool_decide (parts = [])) then complete (parts ++ [t])
    else if starts_with separator after && bool_decide (2 < length after) then continue (parts ++ [t]) (drop 2 after)
    else [].

(** All splits of [rest] after [parts]; every level takes a code point, so as many
    levels as code points are enough. *)
Fixpoint splits (fuel : nat) (parts : list text) (rest : text) : list (list text * text) :=
  match fuel with
  | O => []
  | S fuel => remainder parts rest ++ (candidates rest ≫= branch (λ ps, [(ps, [])]) (splits fuel) parts rest)
  end.
Definition all_splits (parts : list text) (rest : text) : list (list text * text) :=
  splits (S (length rest)) parts rest.

(** The prefixes that walk visits. *)
Fixpoint prefixes (fuel : nat) (parts : list text) (rest : text) : list (list text * text) :=
  match fuel with
  | O => []
  | S fuel => (parts, rest) :: (candidates rest ≫= branch (λ _, []) (prefixes fuel) parts rest)
  end.
Definition all_prefixes (parts : list text) (rest : text) : list (list text * text) :=
  prefixes (S (length rest)) parts rest.

(** [t_1 "\n\n" ... "\n\n" t_n] *)
Fixpoint join (ps : list text) : text :=
  match ps with
  | [] => []
  | [t] => t
  | t :: ps => t ++ separator ++ join ps
  end.

(** At least two whole texts, or some and a remainder. *)
Definition is_split (d : list text * text) : Prop :=
  Forall (λ t, t ∈ texts ∧ t ≠ []) d.1 ∧
  ((d.2 = [] ∧ 2 <= length d.1 ∧ content = join d.1) ∨
   (partial = true ∧ d.2 ≠ [] ∧ d.1 ≠ [] ∧ content = join d.1 ++ separator ++ d.2)).

(** ** The recursive walk finds the splits *)

Lemma candidates_elem t rest :
  starts_with t rest = true → t ∈ candidates rest ↔ t ∈ texts ∧ t ≠ [].
Proof.
  unfold starts_with, candidates. rewrite bool_decide_eq_true. intros Hs.
  rewrite elem_of_app, !list_elem_of_filter. split.
  - intros [[[H _] ?]|[[H _] ?]]; (split; [done|]); intros ->; cbn in H; lia.
  - intros [Ht Hne]. assert (0 < length t) by (destruct t; [done|cbn; lia]).
    destruct (decide (16 <= length t)); [left|right; split; [lia|done]]. split; [split; [done|]|done].
    rewrite <-Hs at 1. by rewrite take_take, Nat.min_l.
Qed.

Lemma branch_ext {A} (complete : list text → list A) (f g : list text → text → list A) parts rest t :
  (∀ ps r, length r < length rest → f ps r = g ps r) → branch complete f parts rest t = branch complete g parts rest t.
Proof.
  intros H. unfold branch. destruct (starts_with t rest); [|done]. cbn [negb].
  destruct (bool_decide (drop (length t) rest = []) && negb (bool_decide (parts = []))); [done|].
  destruct (starts_with separator (drop (length t) rest)); [|done]. cbn [andb].
  case_bool_decide as Hl; [|done]. apply H. rewrite length_drop in *. rewrite length_drop. lia.
Qed.
Lemma splits_fuel fuel1 : ∀ fuel2 parts rest,
  length rest < fuel1 → length rest < fuel2 → splits fuel1 parts rest = splits fuel2 parts rest.
Proof.
  induction fuel1 as [|fuel1 IH]; intros [|fuel2] parts rest H1 H2; [lia..|]. cbn [splits]. f_equal.
  apply list_bind_ext; [|done]. intros t. apply branch_ext. intros ps r Hr. apply IH; lia.
Qed.

Lemma all_splits_eq parts rest :
  all_splits parts rest = remainder parts rest ++ (candidates rest ≫= branch (λ ps, [(ps, [])]) all_splits parts rest).
Proof.
  unfold all_splits at 1. cbn [splits]. f_equal. apply list_bind_ext; [|done]. intros t. apply branch_ext.
  intros ps r Hr. unfold all_splits. apply splits_fuel; lia.
Qed.

Lemma prefixes_fuel fuel1 : ∀ fuel2 parts rest,
  length rest < fuel1 → length rest < fuel2 → prefixes fuel1 parts rest = prefixes fuel2 parts rest.
Proof.
  induction fuel1 as [|fuel1 IH]; intros [|fuel2] parts rest H1 H2; [lia..|]. cbn [prefixes]. f_equal.
  apply list_bind_ext; [|done]. intros t. apply branch_ext. intros ps r Hr. apply IH; lia.
Qed.

Lemma all_prefixes_eq parts rest :
  all_prefixes parts rest = (parts, rest) :: (candidates rest ≫= branch (λ _, []) all_prefixes parts rest).
Proof.
  unfold all_prefixes at 1. cbn [prefixes]. f_equal. apply list_bind_ext; [|done]. intros t. apply branch_ext.
  intros ps r Hr. unfold all_prefixes. apply prefixes_fuel; lia.
Qed.

Lemma remainder_elem parts rest d :
  d ∈ remainder parts rest ↔ partial = true ∧ parts ≠ [] ∧ rest ≠ [] ∧ d = (parts, rest).
Proof.
  unfold remainder. destruct partial; cbn; [|split; [by intros ?%not_elem_of_nil|by intros [? _]]].
  case_bool_decide as H1; cbn; [split; [by intros ?%not_elem_of_nil|by intros (_ & ? & _)]|].
  case_bool_decide as H2; cbn; [split; [by intros ?%not_elem_of_nil|by intros (_ & _ & ? & _)]|].
  rewrite list_elem_of_singleton. tauto.
Qed.

(** What follows [parts] in a split of the rest. *)
Definition continues (parts : list text) (rest : text) (more : list text) (r : text) : Prop :=
  Forall (λ t, t ∈ texts ∧ t ≠ []) more ∧
  ((r = [] ∧ more ≠ [] ∧ 2 <= length (parts ++ more) ∧ rest = join more) ∨
   (partial = true ∧ r ≠ [] ∧ parts ++ more ≠ [] ∧
    rest = match more with [] => r | _ => join more ++ separator ++ r end)).

Lemma starts_with_app t s : starts_with t s = true ↔ ∃ s', s = t ++ s' ∧ drop (length t) s = s'.
Proof.
  unfold starts_with. rewrite bool_decide_eq_true. split.
  - intros H. exists (drop (length t) s). split; [|done]. rewrite <-H at 1. by rewrite take_drop.
  - intros (s' & -> & _). by rewrite take_app_length.
Qed.

(** The branch of one text, in terms of what follows it. *)
Lemma branch_elem (continue : list text → text → list (list text * text)) parts rest t d :
  d ∈ branch (λ ps, [(ps, [])]) continue parts rest t ↔
  ∃ after, rest = t ++ after ∧
    ((after = [] ∧ parts ≠ [] ∧ d = (parts ++ [t], [])) ∨
     (∃ rest', after = separator ++ rest' ∧ rest' ≠ [] ∧ d ∈ continue (parts ++ [t]) rest')).
Proof.
  unfold branch. destruct (starts_with t rest) eqn:Hs; cbn [negb].
  - apply starts_with_app in Hs as (after & -> & Hd). rewrite Hd.
    transitivity ((after = [] ∧ parts ≠ [] ∧ d = (parts ++ [t], [])) ∨
      (∃ rest', after = separator ++ rest' ∧ rest' ≠ [] ∧ d ∈ continue (parts ++ [t]) rest')).
    2:{ split; [intros H'; by exists after|]. intros (after' & E & H'). by apply app_inv_head in E as <-. }
    destruct (bool_decide (after = []) && negb (bool_decide (parts = []))) eqn:Hc.
    + apply andb_true_iff in Hc as [H1%bool_decide_eq_true H2%negb_true_iff%bool_decide_eq_false].
      rewrite list_elem_of_singleton. split; [by left|]. intros [(_ & _ & ?)|(rest' & E & _)]; [done|].
      rewrite H1 in E. done.
    + assert (¬ (after = [] ∧ parts ≠ [])) as Hn.
      { intros [H1 H2]. by rewrite (bool_decide_eq_true_2 (after = [])), (bool_decide_eq_false_2 (parts = [])) in Hc. }
      destruct (starts_with separator after && bool_decide (2 < length after)) eqn:Hsep.
      * apply andb_true_iff in Hsep as [(rest' & -> & _)%starts_with_app Hl%bool_decide_eq_true].
        cbn [separator app drop]. split.
        { intros H'. right. exists rest'. split_and!; [done| |done]. intros ->. cbn in Hl. lia. }
        { intros [(? & _)|(r' & E & _ & H')]; [done|]. injection E as <-. done. }
      * split; [by intros ?%not_elem_of_nil|]. intros [(H1 & H2 & _)|(rest' & -> & Hne & _)]; [by destruct Hn|].
        rewrite (proj2 (starts_with_app separator (separator ++ rest'))) in Hsep by (by eexists).
        rewrite bool_decide_eq_true_2 in Hsep; [done|]. destruct rest'; [done|cbn; lia].
  - split; [by intros ?%not_elem_of_nil|]. intros (after & -> & _).
    rewrite (proj2 (starts_with_app t (t ++ after))) in Hs; [done|]. exists after. by rewrite drop_app_length.
Qed.
Lemma join_cons t ps : ps ≠ [] → join (t :: ps) = t ++ separator ++ join ps.
Proof. by destruct ps. Qed.

Lemma join_ne ps : ps ≠ [] → Forall (λ t, t ∈ texts ∧ t ≠ []) ps → join ps ≠ [].
Proof.
  destruct ps as [|t [|t' ps]]; [done|..]; intros _ [[_ Ht] _]%Forall_cons; cbn [join]; [done|].
  by destruct t.
Qed.

(** A split starts with its first text. *)
Lemma continues_cons parts rest t more r :
  continues parts rest (t :: more) r ↔
  (t ∈ texts ∧ t ≠ []) ∧
  ∃ after, rest = t ++ after ∧
    ((after = [] ∧ parts ≠ [] ∧ more = [] ∧ r = []) ∨
     ∃ rest', after = separator ++ rest' ∧ rest' ≠ [] ∧ continues (parts ++ [t]) rest' more r).
Proof.
  unfold continues. rewrite Forall_cons. rewrite <-app_assoc. cbn [app]. split.
  - intros ([Ht Hm] & [(-> & _ & Hl & ->)|(Hp & Hr & _ & ->)]); (split; [done|]).
    + destruct (decide (more = [])) as [->|Hne].
      * exists []. cbn [join]. rewrite app_nil_r. split; [done|]. left. split_and!; try done. intros ->. cbn in Hl. lia.
      * exists (separator ++ join more). split; [by apply join_cons|]. right. exists (join more).
        split_and!; [done|by apply join_ne|done|by left].
    + destruct (decide (more = [])) as [->|Hne].
      * exists (separator ++ r). split; [done|]. right. exists r. split_and!; [done..|]. right. split_and!; [done..| |done].
        by destruct parts.
      * exists (separator ++ join more ++ separator ++ r). rewrite join_cons, <-!app_assoc by done. split; [done|]. right.
        exists (join more ++ separator ++ r). split_and!; [done|intros E; by destruct (join more)|done|].
        right. split_and!; [done..|by destruct parts|by destruct more].
  - intros ([Ht Hne] & after & -> & [(-> & Hp & -> & ->)|(rest' & -> & Hr' & Hm & Hc)]).
    + rewrite app_nil_r. split; [done|]. left. split_and!; try done. rewrite length_app. cbn. destruct parts; [done|cbn; lia].
    + split; [done|]. destruct Hc as [(-> & Hmne & Hl & ->)|(Hp & Hr & _ & ->)]; [left|right].
      * split_and!; [done..|by rewrite join_cons].
      * split_and!; [done..|by destruct parts|]. destruct more as [|t' more]; [done|].
        rewrite (join_cons t (t' :: more)) by done. by rewrite <-!app_assoc.
Qed.

Lemma all_splits_elem n : ∀ parts rest ps r,
  length rest < n → (ps, r) ∈ all_splits parts rest ↔ ∃ more, ps = parts ++ more ∧ continues parts rest more r.
Proof.
  induction n as [|n IH]; intros parts rest ps r Hn; [lia|].
  rewrite all_splits_eq, elem_of_app, list_elem_of_bind, remainder_elem. setoid_rewrite branch_elem. split.
  - intros [(Hp & Hne & Hr & [= -> ->])|(t & (after & -> & Hd) & Ht)].
    + exists []. rewrite app_nil_r. split; [done|]. split; [done|]. right. rewrite app_nil_r. done.
    + apply candidates_elem in Ht as [Ht Htne]; [|apply starts_with_app; exists after; by rewrite drop_app_length].
      destruct Hd as [(-> & Hp & [= -> ->])|(rest' & -> & Hr' & Hd)].
      * exists [t]. split; [done|]. apply continues_cons. split; [done|]. exists []. split; [done|]. by left.
      * apply IH in Hd as (more & -> & Hc); [|rewrite !length_app in Hn; cbn in Hn; lia].
        exists (t :: more). rewrite <-app_assoc. split; [done|]. apply continues_cons. split; [done|].
        exists (separator ++ rest'). split; [done|]. right. by exists rest'.
  - intros (more & -> & Hc). destruct more as [|t more].
    + left. destruct Hc as (_ & [(_ & ? & _)|(Hp & Hr & Hne & ->)]); [done|]. rewrite app_nil_r in *. done.
    + right. apply continues_cons in Hc as ([Ht Htne] & after & -> & Hc). exists t. split.
      * exists after. split; [done|]. destruct Hc as [(-> & Hp & -> & ->)|(rest' & -> & Hr' & Hc)]; [by left|right].
        exists rest'. split_and!; [done..|]. apply IH; [rewrite !length_app in Hn; cbn in Hn; lia|].
        exists more. by rewrite <-app_assoc.
      * apply candidates_elem; [|done]. apply starts_with_app. exists after. by rewrite drop_app_length.
Qed.

Lemma all_splits_spec d : d ∈ all_splits [] content ↔ is_split d.
Proof.
  destruct d as [ps r]. rewrite (all_splits_elem (S (length content))) by lia. unfold is_split, continues. cbn [app fst snd]. split.
  - intros (more & -> & Hf & Hc). split; [done|]. destruct Hc as [(-> & _ & Hl & E)|(Hp & Hr & Hne & E)]; [by left|right].
    split_and!; [done..|]. by destruct more.
  - intros [Hf Hc]. exists ps. split; [done|]. split; [done|].
    destruct Hc as [(-> & Hl & E)|(Hp & Hr & Hne & E)]; [left|right].
    + split_and!; try done. intros ->. cbn in Hl. lia.
    + split_and!; [done..|]. by destruct ps.
Qed.

(** Splits are found once each. *)
Lemma candidates_NoDup rest : NoDup texts → NoDup (candidates rest).
Proof.
  intros Hnd. unfold candidates. apply NoDup_app. split_and!; [by apply NoDup_filter| |by apply NoDup_filter].
  intros t [[? _] _]%list_elem_of_filter [[_ ?] _]%list_elem_of_filter. lia.
Qed.

Lemma branch_NoDup (continue : list text → text → list (list text * text)) parts rest t :
  (∀ rest', length rest' < length rest → NoDup (continue (parts ++ [t]) rest')) →
  NoDup (branch (λ ps, [(ps, [])]) continue parts rest t).
Proof.
  intros H. unfold branch. destruct (negb (starts_with t rest)); [apply NoDup_nil_2|].
  destruct (bool_decide (drop (length t) rest = []) && negb (bool_decide (parts = []))); [apply NoDup_singleton|].
  destruct (starts_with separator (drop (length t) rest)); [|apply NoDup_nil_2]. cbn [andb].
  case_bool_decide as Hl; [|apply NoDup_nil_2]. apply H. rewrite length_drop in *. rewrite length_drop. lia.
Qed.

Lemma all_splits_NoDup n : ∀ parts rest, NoDup texts → length rest < n → NoDup (all_splits parts rest).
Proof.
  induction n as [|n IH]; intros parts rest Hnd Hn; [lia|]. rewrite all_splits_eq.
  assert (∀ t d, d ∈ branch (λ ps, [(ps, [])]) all_splits parts rest t → ∃ more, d.1 = parts ++ t :: more) as Hb.
  { intros t [ps r] (after & -> & [(_ & _ & [= -> ->])|(rest' & _ & _ & Hd)])%branch_elem; [by exists []|].
    apply (all_splits_elem (S (length rest'))) in Hd as (more & -> & _); [|lia]. exists more. cbn. by rewrite <-app_assoc. }
  apply NoDup_app. split_and!.
  - unfold remainder. destruct (partial && _ && _); [apply NoDup_singleton|apply NoDup_nil_2].
  - intros d (_ & _ & _ & ->)%remainder_elem (t & Ht & _)%list_elem_of_bind. apply Hb in Ht as [more E]. cbn in E.
    apply (f_equal length) in E. rewrite length_app in E. cbn in E. lia.
  - apply NoDup_bind; [| |by apply candidates_NoDup].
    + intros t1 t2 d _ _ [m1 E1]%Hb [m2 E2]%Hb. rewrite E1 in E2. apply app_inv_head in E2. congruence.
    + intros t _. apply branch_NoDup. intros rest' Hr. apply IH; [done|lia].
Qed.

(** ** The iterative walk *)

(** What the frames have left to find, and to visit. *)
Definition left_to_find (stack : list frame) : list (list text * text) :=
  stack ≫= λ f, pending f ≫= branch (λ ps, [(ps, [])]) all_splits (parts f) (rest f).
Definition left_to_visit (stack : list frame) : nat :=
  length (stack ≫= λ f, pending f ≫= branch (λ _, []) all_prefixes (parts f) (rest f)).

(** Every level of the stack is at least three code points further. *)
Fixpoint deepening (stack : list frame) : Prop :=
  match stack with
  | [] => True
  | f :: stack =>
      3 * length stack + length (rest f) <= length content ∧ Forall (λ t, 0 < length t) (pending f) ∧ deepening stack
  end.

(** [found] is what is still to come before the stack. *)
Definition finds (out found : list (list text * text)) (stack : list frame) : Prop :=
  (out ++ found ++ left_to_find stack) `sublist_of` all_splits [] content ∧
  (length out < MAX_DECOMPOSITIONS → out ++ found ++ left_to_find stack = all_splits [] content).

Definition walk_inv (st : state) : Prop :=
  let '(out, stack, visited) := st in
  visited <= DECOMPOSE_BUDGET ∧ finds out [] stack ∧ deepening stack ∧
  visited + left_to_visit stack <= length (all_prefixes [] content).

Definition measure (st : state) : nat :=
  let '(_, stack, visited) := st in
  sum_list ((λ f, S (length (pending f))) <$> stack) + (DECOMPOSE_BUDGET - visited) * S (2 * length texts).

(** The walk can be cut short only when it is too long or too deep. *)
Definition within_bounds : Prop :=
  length (all_prefixes [] content) <= DECOMPOSE_BUDGET ∧ length content < 3 * DECOMPOSE_MAX_PARTS.

Lemma length_candidates rest : length (candidates rest) <= 2 * length texts.
Proof.
  unfold candidates. rewrite length_app.
  pose proof (length_filter (λ t, 16 <= length t ∧ take 16 t = take 16 rest) texts).
  pose proof (length_filter (λ t, 0 < length t ∧ length t < 16) texts). lia.
Qed.

Lemma enter_spec r ps out stack visited :
  visited <= DECOMPOSE_BUDGET → finds out (all_splits ps r) stack → deepening stack →
  3 * length stack + length r <= length content →
  visited + length (all_prefixes ps r) + left_to_visit stack <= length (all_prefixes [] content) →
  match enter r ps (out, stack, visited) with
  | Some st => walk_inv st ∧ measure st <= measure (out, stack, visited)
  | None => ¬ within_bounds
  end.
Proof.
  intros Hv [Hsub Heq] Hdeep Hlen Hvis. unfold enter. case_bool_decide as Hout.
  { split; [|done]. split; [done|]. split; [split|split; [done|]].
    - etransitivity; [|exact Hsub]. apply sublist_app; [done|]. by apply sublist_inserts_l.
    - unfold MAX_DECOMPOSITIONS in *. lia.
    - lia. }
  rewrite all_prefixes_eq in Hvis. cbn [length] in Hvis.
  case_bool_decide as Hb; cbn [orb].
  { intros [Hw _]. lia. }
  case_bool_decide as Hp.
  { intros [_ Hw]. lia. }
  rewrite all_splits_eq in Hsub, Heq.
  assert (Forall (λ t, 0 < length t) (candidates r)) as Hpos.
  { apply Forall_forall. intros t [[[? _] _]%list_elem_of_filter|[[? _] _]%list_elem_of_filter]%elem_of_app; lia. }
  split; [split; [lia|]; split; [|split; [done|]]|].
  - unfold finds, left_to_find in *. cbn [mbind list_bind app pending parts rest] in *. rewrite <-!app_assoc in *.
    split; [done|]. rewrite length_app. intros Hl. apply Heq. lia.
  - unfold left_to_visit in *. cbn [mbind list_bind pending parts rest]. rewrite length_app. lia.
  - cbn [measure fmap list_fmap pending sum_list sum_list_with]. pose proof (length_candidates r).
    replace (DECOMPOSE_BUDGET - visited) with (S (DECOMPOSE_BUDGET - S visited)) by lia. cbn [Nat.mul]. unfold id. lia.
Qed.

Lemma walk_stack_spec fuel : ∀ st,
  measure st < fuel → walk_inv st →
  match walk_stack fuel st with
  | Ok (Some out) => out `sublist_of` all_splits [] content ∧ (length out < MAX_DECOMPOSITIONS → out = all_splits [] content)
  | Ok None => ¬ within_bounds
  | Err _ => False
  end.
Proof.
  induction fuel as [|fuel IH]; intros [[out stack] visited] Hm Hinv; [lia|]. cbn [walk_stack].
  destruct Hinv as (Hv & Hfind & Hdeep & Hvis). destruct stack as [|f stack].
  { destruct Hfind as [Hsub Heq]. cbn in Hsub, Heq. rewrite app_nil_r in *. done. }
  destruct Hdeep as (Hlen & Hpos & Hdeep). destruct (pending f) as [|t pend] eqn:Ep.
  { apply IH.
    - cbn in Hm. rewrite Ep in Hm. cbn in Hm |- *. lia.
    - unfold finds, left_to_find, left_to_visit in Hfind, Hvis. cbn [mbind list_bind] in Hfind, Hvis.
      rewrite Ep in Hfind, Hvis. by split_and!. }
  apply Forall_cons in Hpos as [Ht Hpos].
  set (f' := {| rest := rest f; parts := parts f; pending := pend |}).
  assert (deepening (f' :: stack)) as Hdeep' by (by split_and!).
  assert (measure (out, f :: stack, visited) = S (measure (out, f' :: stack, visited))) as Hm'.
  { cbn. rewrite Ep. cbn. lia. }
  assert (finds out (branch (λ ps, [(ps, [])]) all_splits (parts f) (rest f) t) (f' :: stack)) as Hfind'.
  { unfold finds, left_to_find in *. cbn in *. rewrite Ep in Hfind. cbn in Hfind. by rewrite <-!app_assoc in *. }
  assert (visited + length (branch (λ _, []) all_prefixes (parts f) (rest f) t) + left_to_visit (f' :: stack)
          <= length (all_prefixes [] content)) as Hvis'.
  { unfold left_to_visit in *. cbn in *. rewrite Ep in Hvis. cbn in Hvis. rewrite <-!app_assoc, !length_app in *. lia. }
  clear Hfind Hvis. unfold branch in Hfind', Hvis'. rewrite Hm' in Hm. destruct (starts_with t (rest f)); cbn [negb] in *.
  2:{ apply IH; [lia|]. split_and!; [done..|]. cbn [length] in Hvis'. lia. }
  destruct (bool_decide (drop (length t) (rest f) = []) && negb (bool_decide (parts f = []))).
  { apply IH; [exact (proj2 (Nat.succ_lt_mono _ _) Hm)|]. split_and!; [done| |done|cbn [length] in Hvis'; lia].
    destruct Hfind' as [Hsub Heq]. split.
    - rewrite <-app_assoc. exact Hsub.
    - rewrite length_app, <-app_assoc. intros Hl. apply Heq. lia. }
  destruct (starts_with separator (drop (length t) (rest f)) && bool_decide (2 < length (drop (length t) (rest f)))) eqn:Hsep.
  2:{ apply IH; [lia|]. split_and!; [done..|]. cbn [length] in Hvis'. lia. }
  apply andb_true_iff in Hsep as [_ Hl%bool_decide_eq_true].
  pose proof (enter_spec (drop 2 (drop (length t) (rest f))) (parts f ++ [t]) out (f' :: stack) visited Hv Hfind' Hdeep') as He.
  destruct (enter _ _ (out, f' :: stack, visited)) as [st|].
  - destruct He as [Hinv Hme]; [|done|].
    + rewrite !length_drop in *. cbn [length]. lia.
    + apply IH; [lia|done].
  - apply He; [|done]. rewrite !length_drop in *. cbn [length]. lia.
Qed.

Lemma decompositions_run :
  match decompositions with
  | Ok (Some out) => out `sublist_of` all_splits [] content ∧ (length out < MAX_DECOMPOSITIONS → out = all_splits [] content)
  | Ok None => ¬ within_bounds
  | Err _ => False
  end.
Proof.
  unfold decompositions.
  assert (finds [] (all_splits [] content) []) as Hf by (unfold finds, left_to_find; cbn [mbind list_bind app]; by rewrite app_nil_r).
  assert (0 + length (all_prefixes [] content) + left_to_visit [] <= length (all_prefixes [] content)) as Hv
    by (unfold left_to_visit; cbn [mbind list_bind length]; lia).
  pose proof (enter_spec content [] [] [] 0 (Nat.le_0_l _) Hf I (Nat.le_refl _) Hv) as He. destruct (enter content [] ([], [], 0)) as [st|].
  - destruct He as [Hinv Hme]. apply walk_stack_spec; [|done]. unfold enough.
    cbn [measure fmap list_fmap sum_list sum_list_with] in Hme. lia.
  - done.
Qed.

End decompositions.

(** ** Properties *)

(** C36: the bounded walk always ends; when it does not give up it lists splits of the
    content only, none twice, and unless it stopped at the limit of three it lists
    every split there is, in the order of the recursive walk: "there is none" and
    "there is exactly one" are decided rightly. *)
Theorem decompositions_exact (content : text) (texts : list text) (partial : bool) :
  NoDup texts →
  match decompositions content texts partial with
  | Err _ => False
  | Ok None => ¬ within_bounds content texts
  | Ok (Some out) =>
      NoDup out ∧ Forall (is_split content texts partial) out ∧
      (length out < MAX_DECOMPOSITIONS →
       out = all_splits texts partial [] content ∧ ∀ d, d ∈ out ↔ is_split content texts partial d)
  end.
Proof.
  intros Hnd. pose proof (decompositions_run content texts partial) as H.
  destruct (decompositions content texts partial) as [[out|]|]; [|done..]. destruct H as [Hsub Heq]. split_and!.
  - eapply sublist_NoDup; [|exact Hsub]. apply (all_splits_NoDup texts partial (S (length content))); [done|lia].
  - apply Forall_forall. intros d Hd. apply all_splits_spec. by eapply elem_of_sublist.
  - intros Hl. specialize (Heq Hl). split; [done|]. intros d. rewrite Heq. apply all_splits_spec.
Qed.

(** The walk gives up only on a content that is too deep or too branching: below
    192 code points and at most 2048 visited prefixes it answers, and answers the
    empty list exactly when there is no split. *)
Theorem decompositions_within_bounds (content : text) (texts : list text) (partial : bool) :
  length content < 192 → length (all_prefixes texts [] content) <= 2048 →
  ∃ out, decompositions content texts partial = Ok (Some out) ∧
    (out = [] ↔ ∀ d, ¬ is_split content texts partial d).
Proof.
  intros Hl Hp. pose proof (decompositions_run content texts partial) as H.
  destruct (decompositions content texts partial) as [[out|]|]; [|by destruct H|done]. exists out. split; [done|].
  destruct H as [Hsub Heq]. split.
  - intros -> d Hd. apply all_splits_spec in Hd. rewrite <-(Heq (Nat.lt_0_succ _)) in Hd. by apply not_elem_of_nil in Hd.
  - intros Hno. destruct out as [|d out]; [done|]. destruct (Hno d). apply all_splits_spec.
    eapply elem_of_sublist; [|exact Hsub]. left.
Qed.

(** "ab", blank line, "c", blank line, "ab": two ways to split. *)
Definition witness_content : text := String.list_ascii_of_string "ab" ++ separator ++ String.list_ascii_of_string "c".
Definition witness_texts : list text :=
  [String.list_ascii_of_string "ab"; String.list_ascii_of_string "c"; witness_content].

Lemma decompositions_exact_witness :
  NoDup witness_texts ∧
  ∃ out, decompositions witness_content witness_texts true = Ok (Some out) ∧ length out = 2 ∧
    ∀ d, d ∈ out ↔ is_split witness_content witness_texts true d.
Proof.
  assert (NoDup witness_texts) as Hnd by (eapply bool_decide_unpack; vm_compute; exact I).
  split; [exact Hnd|]. pose proof (decompositions_exact witness_content witness_texts true Hnd) as H.
  destruct (decompositions witness_content witness_texts true) as [[out|]|] eqn:E.
  - exists out. vm_compute in E. injection E as <-. split; [reflexivity|]. split; [reflexivity|].
    apply H. cbn. unfold MAX_DECOMPOSITIONS. lia.
  - vm_compute in E. discriminate E.
  - destruct H.
Defined.

Lemma decompositions_within_bounds_witness :
  length witness_content < 192 ∧ length (all_prefixes witness_texts [] witness_content) <= 2048 ∧
  ∃ out, decompositions witness_content witness_texts false = Ok (Some out) ∧
    (out = [] ↔ ∀ d, ¬ is_split witness_content witness_texts false d).
Proof.
  assert (length witness_content < 192) as H1 by (cbn; lia).
  assert (length (all_prefixes witness_texts [] witness_content) <= 2048) as H2 by (vm_compute; lia).
  split; [exact H1|]. split; [exact H2|]. exact (decompositions_within_bounds _ _ false H1 H2).
Defined.
