(* ===== verification/Calendar.v ===== *)
(** Calendar days: what the rollup code uses of [datetime.date] (the Gregorian
    calendar as Python's library computes it), and the periods of rollup_store.py.

    A day is the number of days since 1970-01-01, a month the number of months since
    January of year 0.  The ISO texts the code stores order as the days do. *)

From S2P Require Import Prelude.
From stdpp Require Import options.

#[local] Open Scope Z_scope.

(** [date.weekday()]: Monday is 0 *)
Definition weekday (d : Z) : Z := (d + 3) mod 7.

Definition is_leap (y : Z) : bool :=
  bool_decide (y mod 4 = 0) && (negb (bool_decide (y mod 100 = 0)) || bool_decide (y mod 400 = 0)).

(** Days before January 1 of year [y], and before a month of it, in days since
    January 1 of year 1. *)
Definition days_before_year (y : Z) : Z :=
  let y := y - 1 in y * 365 + y / 4 - y / 100 + y / 400.
Definition days_before_month (y m : Z) : Z :=
  match m with
  | 0 => 0 | 1 => 31 | 2 => 59 | 3 => 90 | 4 => 120 | 5 => 151
  | 6 => 181 | 7 => 212 | 8 => 243 | 9 => 273 | 10 => 304 | _ => 334
  end + (if (1 <? m) && is_leap y then 1 else 0).

(** The first day of a month. *)
Definition month_first (k : Z) : Z := days_before_year (k / 12) + days_before_month (k / 12) (k mod 12) - 719162.

(** January 1970 *)
Definition epoch_month : Z := 23640.

(** The month of a day: searched upwards from a month that is not after it. *)
Fixpoint month_from (fuel : nat) (k d : Z) : Z :=
  match fuel with
  | O => k
  | S fuel => if bool_decide (month_first (k + 1) <= d) then month_from fuel (k + 1) d else k
  end.
Definition month_of (d : Z) : Z :=
  month_from (S (Z.to_nat (Z.abs (d / 28 - d / 31)))) (epoch_month + Z.min (d / 28) (d / 31)) d.

(** [d.replace(day=1)] *)
Definition month_start (d : Z) : Z := month_first (month_of d).
(** [d.replace(month=d.month + 1, day=1)], January of the next year after December *)
Definition next_month_start (d : Z) : Z := month_first (month_of d + 1).

(** ** Periods *)

Inductive period_kind := Day | Week | Month.
#[global] Instance period_kind_eq_dec : EqDecision period_kind.
Proof. solve_decision. Defined.

(** The start of the period of a day, [_period_starts_for_day]; the last day of the
    period with a given start. *)
Definition period_start_of (kind : period_kind) (d : Z) : Z :=
  match kind with Day => d | Week => d - weekday d | Month => month_start d end.
Definition period_end (kind : period_kind) (start : Z) : Z :=
  match kind with Day => start | Week => start + 6 | Month => next_month_start start - 1 end.

Definition aligned (kind : period_kind) (start : Z) : Prop := period_start_of kind start = start.
Definition in_period (kind : period_kind) (start d : Z) : Prop := start <= d <= period_end kind start.

Example calendar_2024 : (month_start 19782, next_month_start 19782 - 1, period_start_of Week 19782, month_start (-1)) = (19754, 19782, 19779, -31).
Proof. vm_compute. reflexivity. Qed.

(** ** Months *)

Lemma div_pred a n : 0 < n → (a - 1) / n = a / n - (if bool_decide (a mod n = 0) then 1 else 0).
Proof.
  intros Hn. pose proof (Z.div_mod a n). pose proof (Z.mod_pos_bound a n Hn). symmetry. case_bool_decide.
  - apply (Z.div_unique _ n _ (n - 1)); [lia|]. nia.
  - apply (Z.div_unique _ n _ (a mod n - 1)); [lia|]. nia.
Qed.

Lemma days_before_next_year y :
  days_before_year (y + 1) = days_before_year y + 365 + (if is_leap y then 1 else 0).
Proof.
  unfold days_before_year, is_leap. replace (y + 1 - 1) with y by lia. rewrite !div_pred by lia.
  assert (y mod 400 = 0 → y mod 100 = 0) as H1 by (Z.div_mod_to_equations; lia).
  assert (y mod 100 = 0 → y mod 4 = 0) as H2 by (Z.div_mod_to_equations; lia).
  repeat case_bool_decide; cbn [andb orb negb]; lia.
Qed.

Lemma month_first_next y m : 0 <= m < 12 →
  month_first (12 * y + m) + 28 <= month_first (12 * y + m + 1) <= month_first (12 * y + m) + 31.
Proof.
  intros Hm. unfold month_first.
  assert ((12 * y + m) / 12 = y ∧ (12 * y + m) mod 12 = m) as [-> ->]
    by (split; [symmetry; apply (Z.div_unique _ 12 y m)|symmetry; apply (Z.mod_unique _ 12 y m)]; lia).
  destruct (decide (m = 11)) as [->|Hne].
  - assert ((12 * y + 11 + 1) / 12 = y + 1 ∧ (12 * y + 11 + 1) mod 12 = 0) as [-> ->]
      by (split; [symmetry; apply (Z.div_unique _ 12 (y + 1) 0)|symmetry; apply (Z.mod_unique _ 12 (y + 1) 0)]; lia).
    rewrite days_before_next_year. unfold days_before_month. cbn -[Z.add Z.sub Z.mul is_leap days_before_year].
    destruct (is_leap y); lia.
  - assert ((12 * y + m + 1) / 12 = y ∧ (12 * y + m + 1) mod 12 = m + 1) as [-> ->]
      by (split; [symmetry; apply (Z.div_unique _ 12 y (m + 1))|symmetry; apply (Z.mod_unique _ 12 y (m + 1))]; lia).
    assert (m = 0 ∨ m = 1 ∨ m = 2 ∨ m = 3 ∨ m = 4 ∨ m = 5 ∨ m = 6 ∨ m = 7 ∨ m = 8 ∨ m = 9 ∨ m = 10) as Hc by lia.
    destruct Hc as [->|[->|[->|[->|[->|[->|[->|[->|[->|[->| ->]]]]]]]]]];
      match goal with |- context [days_before_month y (?a + 1)] => let v := eval vm_compute in (a + 1) in change (a + 1) with v end;
      unfold days_before_month; cbn -[Z.add Z.sub Z.mul is_leap]; destruct (is_leap y); lia.
Qed.

Lemma month_first_step k : month_first k + 28 <= month_first (k + 1) <= month_first k + 31.
Proof.
  pose proof (Z.mod_pos_bound k 12). pose proof (month_first_next (k / 12) (k mod 12)) as H'.
  rewrite <-Z.div_mod in H' by lia. apply H'. lia.
Qed.

Lemma month_first_add k n : 0 <= n → month_first k + 28 * n <= month_first (k + n) <= month_first k + 31 * n.
Proof.
  intros Hn. revert n Hn. apply (natlike_ind (λ n, month_first k + 28 * n <= month_first (k + n) <= month_first k + 31 * n)).
  - rewrite (Z.add_0_r k). lia.
  - intros n Hn IH. pose proof (month_first_step (k + n)). rewrite Z.add_succ_r. unfold Z.succ. lia.
Qed.

Lemma month_first_mono k k' : k <= k' → month_first k <= month_first k'.
Proof. intros Hk. pose proof (month_first_add k (k' - k)). replace (k + (k' - k)) with k' in * by lia. lia. Qed.

Lemma month_from_spec fuel : ∀ k d, month_first k <= d < month_first (k + Z.of_nat fuel) →
  month_first (month_from fuel k d) <= d < month_first (month_from fuel k d + 1).
Proof.
  induction fuel as [|fuel IH]; intros k d [Hk Hd]; cbn [month_from]; [replace (k + Z.of_nat 0) with k in Hd by lia; lia|].
  case_bool_decide as Hn; [|lia]. apply IH. split; [done|]. by replace (k + 1 + Z.of_nat fuel) with (k + Z.of_nat (S fuel)) by lia.
Qed.

Lemma month_of_spec d : month_first (month_of d) <= d < month_first (month_of d + 1).
Proof.
  unfold month_of. apply month_from_spec. assert (month_first epoch_month = 0) as He by reflexivity.
  set (a := Z.min (d / 28) (d / 31)). rewrite Nat2Z.inj_succ, Z2Nat.id by lia. set (n := Z.succ (Z.abs (d / 28 - d / 31))).
  destruct (decide (0 <= d)) as [Hd|Hd].
  - assert (0 <= a ∧ 31 * a <= d ∧ d < 28 * (a + n)) as (H1 & H2 & H3) by (unfold a, n; Z.div_mod_to_equations; lia).
    pose proof (month_first_add epoch_month a H1). pose proof (month_first_add epoch_month (a + n)) as H4.
    rewrite Z.add_assoc in H4. lia.
  - assert (0 <= - a ∧ 28 * a <= d ∧ (0 <= a + n ∨ d < 31 * (a + n))) as (H1 & H2 & H3) by (unfold a, n; Z.div_mod_to_equations; lia).
    pose proof (month_first_add (epoch_month + a) (- a) H1) as H4. replace (epoch_month + a + - a) with epoch_month in H4 by lia.
    split; [lia|]. destruct (decide (0 <= a + n)) as [Hp|Hp].
    + pose proof (month_first_mono epoch_month (epoch_month + a + n)). lia.
    + pose proof (month_first_add (epoch_month + a + n) (- (a + n))) as H5.
      replace (epoch_month + a + n + - (a + n)) with epoch_month in H5 by lia. lia.
Qed.

Lemma month_of_unique k d : month_first k <= d < month_first (k + 1) → month_of d = k.
Proof.
  intros Hk. pose proof (month_of_spec d).
  destruct (Z.lt_trichotomy (month_of d) k) as [Hlt|[?|Hlt]]; [|done|].
  - pose proof (month_first_mono (month_of d + 1) k). lia.
  - pose proof (month_first_mono (k + 1) (month_of d)). lia.
Qed.

(** ** Periods partition the days *)

Lemma month_of_first k : month_of (month_first k) = k.
Proof. apply month_of_unique. pose proof (month_first_step k). lia. Qed.

Lemma period_start_aligned kind d : aligned kind (period_start_of kind d).
Proof.
  unfold aligned. destruct kind; cbn [period_start_of]; [done| |].
  - unfold weekday. rewrite <-(Z.mod_unique (d - (d + 3) mod 7 + 3) 7 ((d + 3) / 7) 0); [lia..|].
    pose proof (Z.div_mod (d + 3) 7). lia.
  - unfold month_start. by rewrite month_of_first.
Qed.

Lemma in_week_iff start d : aligned Week start → in_period Week start d ↔ period_start_of Week d = start.
Proof.
  unfold aligned, in_period. cbn [period_start_of period_end]. unfold weekday. intros Ha.
  pose proof (Z.mod_pos_bound (d + 3) 7). pose proof (Z.div_mod (start + 3) 7). split; [|lia].
  intros Hd. rewrite <-(Z.mod_unique (d + 3) 7 ((start + 3) / 7) (d - start)); lia.
Qed.

Lemma in_month_iff start d : aligned Month start → in_period Month start d ↔ period_start_of Month d = start.
Proof.
  unfold aligned, in_period. cbn [period_start_of period_end]. unfold month_start, next_month_start. intros Ha.
  pose proof (month_of_spec d) as Hm. rewrite <-Ha. rewrite month_of_first. split; intros Hd.
  - f_equal. apply month_of_unique. lia.
  - assert (month_of d = month_of start) as E; [|rewrite E in Hm; lia].
    rewrite <-(month_of_first (month_of d)), Hd. apply month_of_first.
Qed.

Lemma in_period_iff kind start d : aligned kind start → in_period kind start d ↔ period_start_of kind d = start.
Proof.
  destruct kind; [|apply in_week_iff|apply in_month_iff].
  intros _. unfold in_period. cbn [period_start_of period_end]. lia.
Qed.
