(* ===== verification/RollupStore.v ===== *)
(** Temporal rollups (rollup_store.py): the rollup rows with their leases and
    generations, the sources of what was published, and the outbox of invalidations
    that the triggers on [summary_nodes] fill (db_bootstrap.py
    [ensure_temporal_rollup_invalidation_triggers]).

    Tables are lists of rows in rowid order; every operation is one transaction, a
    function of the database.  [period_start] and [next_day] are days, times are
    seconds, a summary is its code points; the clock and the nonce of a claim are
    arguments. *)

From S2P Require Import Prelude Calendar.
From stdpp Require Import options.

#[local] Open Scope Z_scope.

(** ** Tables *)

Inductive rollup_status := Building | Ready | Stale | Failed.
#[global] Instance rollup_status_eq_dec : EqDecision rollup_status.
Proof. solve_decision. Defined.

(** A row of [lcm_rollups]. *)
Record rollup := {
  rollup_id : Z; kind : period_kind; period_start : Z; scope : string;
  summary : option (list Z); token_count : option Z; status : rollup_status; built_at : option Z;
  source_fingerprint : option string; error : option string; generation : Z;
  lease_expires_at : option Z; lease_nonce : string; failed_at : option Z }.

(** A row of [summary_nodes]; [from_nodes] is [source_type == "nodes"]. *)
Record node := {
  session_id : string; depth : Z; node_summary : list Z; source_ids : list Z; from_nodes : bool;
  earliest_at : option Z; latest_at : option Z; created_at : Z }.

Inductive operation := Insert | Delete | Update.

(** A row of [lcm_rollup_invalidations]. *)
Record invalidation := {
  event_id : Z; event_node : Z; event_scope : string; covered_start : Z; covered_end : Z;
  next_day : option Z; event_operation : operation }.

Record database := {
  rollups : list rollup; rollup_sources : gset (Z * Z); invalidations : list invalidation;
  summary_nodes : gmap Z node; cursors : list ((period_kind * string) * (option string * Z));
  next_rollup_id : Z; next_event_id : Z; next_node_id : Z }.

Definition set_rollups (rs : list rollup) (db : database) : database :=
  {| rollups := rs; rollup_sources := rollup_sources db; invalidations := invalidations db;
     summary_nodes := summary_nodes db; cursors := cursors db; next_rollup_id := next_rollup_id db;
     next_event_id := next_event_id db; next_node_id := next_node_id db |}.
Definition set_sources (ss : gset (Z * Z)) (db : database) : database :=
  {| rollups := rollups db; rollup_sources := ss; invalidations := invalidations db;
     summary_nodes := summary_nodes db; cursors := cursors db; next_rollup_id := next_rollup_id db;
     next_event_id := next_event_id db; next_node_id := next_node_id db |}.
Definition set_invalidations (es : list invalidation) (db : database) : database :=
  {| rollups := rollups db; rollup_sources := rollup_sources db; invalidations := es;
     summary_nodes := summary_nodes db; cursors := cursors db; next_rollup_id := next_rollup_id db;
     next_event_id := next_event_id db; next_node_id := next_node_id db |}.

(** ** The triggers *)

Definition day_of (t : Z) : Z := t / 86400.

(** [MIN] and [MAX] of [COALESCE(earliest_at, created_at)] and [COALESCE(latest_at, created_at)] *)
Definition span_start (n : node) : Z := Z.min (default (created_at n) (earliest_at n)) (default (created_at n) (latest_at n)).
Definition span_end (n : node) : Z := Z.max (default (created_at n) (earliest_at n)) (default (created_at n) (latest_at n)).

Definition event_of (event : Z) (id : Z) (n : node) (op : operation) : invalidation :=
  {| event_id := event; event_node := id; event_scope := session_id n; covered_start := span_start n;
     covered_end := span_end n; next_day := None; event_operation := op |}.

(** A statement on [summary_nodes] that changes one row. *)
Inductive mutation := InsertNode (n : node) | DeleteNode (id : Z) | UpdateNode (id : Z) (n : node).

Definition events_of (m : mutation) (db : database) : list invalidation :=
  match m with
  | InsertNode n => [event_of (next_event_id db) (next_node_id db) n Insert]
  | DeleteNode id => match summary_nodes db !! id with
                     | Some old => [event_of (next_event_id db) id old Delete]
                     | None => []
                     end
  | UpdateNode id n => match summary_nodes db !! id with
                       | Some old => [event_of (next_event_id db) id old Update; event_of (next_event_id db + 1) id n Update]
                       | None => []
                       end
  end.

Definition mutated_nodes (m : mutation) (db : database) : gmap Z node :=
  match m with
  | InsertNode n => <[next_node_id db := n]> (summary_nodes db)
  | DeleteNode id => delete id (summary_nodes db)
  | UpdateNode id n => match summary_nodes db !! id with
                       | Some _ => <[id := n]> (summary_nodes db)
                       | None => summary_nodes db
                       end
  end.

Definition mutate (m : mutation) (db : database) : database :=
  {| rollups := rollups db; rollup_sources := rollup_sources db; invalidations := invalidations db ++ events_of m db;
     summary_nodes := mutated_nodes m db; cursors := cursors db; next_rollup_id := next_rollup_id db;
     next_event_id := next_event_id db + Z.of_nat (length (events_of m db));
     next_node_id := match m with InsertNode _ => next_node_id db + 1 | _ => next_node_id db end |}.

(** ** Rows *)

Definition has_key (k : period_kind) (start : Z) (s : string) (r : rollup) : bool :=
  bool_decide (kind r = k) && bool_decide (period_start r = start) && bool_decide (scope r = s).

(** [UPDATE lcm_rollups SET f WHERE p], with its row count *)
Definition update_rows (p : rollup → bool) (f : rollup → rollup) (rs : list rollup) : list rollup :=
  (λ r, if p r then f r else r) <$> rs.
Definition row_count (p : rollup → bool) (rs : list rollup) : Z := Z.of_nat (tally p rs).

(** [status = st, lease_expires_at = NULL, lease_nonce = ''] *)
Definition released (st : rollup_status) (r : rollup) : rollup :=
  {| rollup_id := rollup_id r; kind := kind r; period_start := period_start r; scope := scope r; summary := summary r;
     token_count := token_count r; status := st; built_at := built_at r; source_fingerprint := source_fingerprint r;
     error := error r; generation := generation r; lease_expires_at := None; lease_nonce := ""; failed_at := failed_at r |}.

(** [generation = generation + 1] *)
Definition bumped (r : rollup) : rollup :=
  {| rollup_id := rollup_id r; kind := kind r; period_start := period_start r; scope := scope r; summary := summary r;
     token_count := token_count r; status := status r; built_at := built_at r; source_fingerprint := source_fingerprint r;
     error := error r; generation := generation r + 1; lease_expires_at := lease_expires_at r;
     lease_nonce := lease_nonce r; failed_at := failed_at r |}.

Definition with_error (e : option string) (r : rollup) : rollup :=
  {| rollup_id := rollup_id r; kind := kind r; period_start := period_start r; scope := scope r; summary := summary r;
     token_count := token_count r; status := status r; built_at := built_at r; source_fingerprint := source_fingerprint r;
     error := e; generation := generation r; lease_expires_at := lease_expires_at r;
     lease_nonce := lease_nonce r; failed_at := failed_at r |}.

Definition with_failed_at (t : option Z) (r : rollup) : rollup :=
  {| rollup_id := rollup_id r; kind := kind r; period_start := period_start r; scope := scope r; summary := summary r;
     token_count := token_count r; status := status r; built_at := built_at r; source_fingerprint := source_fingerprint r;
     error := error r; generation := generation r; lease_expires_at := lease_expires_at r;
     lease_nonce := lease_nonce r; failed_at := t |}.

(** The columns that describe the published summary. *)
Definition with_summary (text : option (list Z)) (count : option Z) (built : option Z) (fingerprint : option string)
    (r : rollup) : rollup :=
  {| rollup_id := rollup_id r; kind := kind r; period_start := period_start r; scope := scope r; summary := text;
     token_count := count; status := status r; built_at := built; source_fingerprint := fingerprint;
     error := error r; generation := generation r; lease_expires_at := lease_expires_at r;
     lease_nonce := lease_nonce r; failed_at := failed_at r |}.

(** ** Claims *)

Record token := { token_id : Z; token_generation : Z; nonce : string }.
#[global] Instance token_eq_dec : EqDecision token.
Proof. solve_decision. Defined.

Definition BUILD_LEASE_SECONDS : Z := 900.

(** [WHERE rollup_id = ? AND generation = ? AND lease_nonce = ? AND status = 'building'] *)
Definition owns (t : token) (r : rollup) : bool :=
  bool_decide (rollup_id r = token_id t) && bool_decide (generation r = token_generation t)
  && bool_decide (lease_nonce r = nonce t) && bool_decide (status r = Building).

Definition claimed_row (now : Z) (n : string) (r : rollup) : rollup :=
  {| rollup_id := rollup_id r; kind := kind r; period_start := period_start r; scope := scope r; summary := summary r;
     token_count := token_count r; status := Building; built_at := Some now; source_fingerprint := None;
     error := None; generation := generation r + 1; lease_expires_at := Some (now + BUILD_LEASE_SECONDS);
     lease_nonce := n; failed_at := None |}.

Definition new_row (id : Z) (k : period_kind) (start : Z) (s : string) (st : rollup_status) (built lease : option Z)
    (n : string) : rollup :=
  {| rollup_id := id; kind := k; period_start := start; scope := s; summary := None; token_count := None; status := st;
     built_at := built; source_fingerprint := None; error := None; generation := 0; lease_expires_at := lease;
     lease_nonce := n; failed_at := None |}.

(** [INSERT ... ON CONFLICT(period_kind, period_start, scope) DO UPDATE SET f WHERE p] *)
Definition upsert_row (k : period_kind) (start : Z) (s : string) (row : Z → rollup) (p : rollup → bool) (f : rollup → rollup)
    (db : database) : database :=
  if existsb (has_key k start s) (rollups db) then
    set_rollups (update_rows (λ r, has_key k start s r && p r) f (rollups db)) db
  else
    {| rollups := rollups db ++ [row (next_rollup_id db)]; rollup_sources := rollup_sources db;
       invalidations := invalidations db; summary_nodes := summary_nodes db; cursors := cursors db;
       next_rollup_id := next_rollup_id db + 1; next_event_id := next_event_id db; next_node_id := next_node_id db |}.

Definition token_of (r : rollup) : token :=
  {| token_id := rollup_id r; token_generation := generation r; nonce := lease_nonce r |}.

Definition get_rollup (k : period_kind) (start : Z) (s : string) (db : database) : option rollup :=
  find_first (λ r, has_key k start s r = true) (rollups db).

Definition source_node_ids (id : Z) (db : database) : gset Z :=
  set_map snd (filter (λ x : Z * Z, x.1 = id) (rollup_sources db)).

(** [None] where the row just written could not be read back. *)
Definition upsert_building (k : period_kind) (start : Z) (s : string) (now : Z) (n : string) (db : database)
    : option (database * token) :=
  let db := upsert_row k start s
              (λ id, new_row id k start s Building (Some now) (Some (now + BUILD_LEASE_SECONDS)) n)
              (λ _, true) (claimed_row now n) db in
  r ← get_rollup k start s db; Some (db, token_of r).

(** ** The ends of a claim *)

Inductive store_error := UnknownRollup.

Definition window_start (r : rollup) : Z := period_start r * 86400.
Definition window_end (r : rollup) : Z := (period_end (kind r) (period_start r) + 1) * 86400.

(** [WHERE scope = ? AND covered_start < ? AND covered_end >= ?] *)
Definition pending_in_window (r : rollup) (i : invalidation) : bool :=
  bool_decide (event_scope i = scope r) && bool_decide (covered_start i < window_end r)
  && bool_decide (window_start r <= covered_end i).

(** What the claim's row becomes when its result cannot be published. *)
Definition superseded (e : string) (r : rollup) : rollup := released Stale (bumped (with_error (Some e) r)).

Definition published_row (text : list Z) (count now : Z) (fingerprint : string) (r : rollup) : rollup :=
  released Ready (with_failed_at None (with_error None (with_summary (Some text) (Some count) (Some now) (Some fingerprint) r))).

Definition update_owned (t : token) (f : rollup → rollup) (db : database) : database :=
  set_rollups (update_rows (owns t) f (rollups db)) db.

Definition mark_ready (t : token) (text : list Z) (count : Z) (ids : list Z) (fingerprint : string) (now : Z) (db : database)
    : result store_error (database * bool) :=
  let ids := remove_dups ids in
  match find_first (λ r, owns t r = true) (rollups db) with
  | None =>
      raise_if (negb (existsb (λ r, bool_decide (rollup_id r = token_id t)) (rollups db))) UnknownRollup (Ok (db, false))
  | Some r =>
      if existsb (pending_in_window r) (invalidations db) then
        Ok (update_owned t (superseded "source mutation pending") db, false)
      else if existsb (λ id, bool_decide (summary_nodes db !! id = None)) ids then
        Ok (update_owned t (superseded "source changed during build") db, false)
      else
        let db := update_owned t (published_row text count now fingerprint) db in
        Ok (set_sources (filter (λ x : Z * Z, x.1 ≠ token_id t) (rollup_sources db)
                         ∪ list_to_set (pair (token_id t) <$> ids)) db, true)
  end.

(** [int(cur.rowcount or 0) > 0] *)
Definition affected (t : token) (db : database) : bool := existsb (owns t) (rollups db).

Definition mark_failed (t : token) (e : string) (now : Z) (db : database) : database * bool :=
  (update_owned t (λ r, released Failed (with_failed_at (Some now) (with_error (Some e) r))) db, affected t db).

Definition defer_incomplete (t : token) (reason : string) (db : database) : database * bool :=
  (update_owned t (λ r, released Stale (with_error (Some reason) r)) db, affected t db).

Definition resolve_no_source (t : token) (db : database) : database * bool :=
  if affected t db then
    (set_sources (filter (λ x : Z * Z, x.1 ≠ token_id t) (rollup_sources db))
       (set_rollups (filter (λ r, owns t r = false) (rollups db)) db), true)
  else (db, false).

(** ** Invalidation *)

(** One row of [VALUES ... ON CONFLICT ... DO UPDATE SET status = 'stale', ...]. *)
Definition stale_row (p : rollup → bool) (k : period_kind) (start : Z) (s : string) (db : database) : database :=
  upsert_row k start s (λ id, new_row id k start s Stale None None "") p (λ r, released Stale (bumped r)) db.

(** The row count is 1 unless a conflicting row fails [p]. *)
Definition stale_count (p : rollup → bool) (k : period_kind) (start : Z) (s : string) (db : database) : Z :=
  match get_rollup k start s db with Some r => if p r then 1 else 0 | None => 1 end.

Definition stale_aggregates_for_day (d : Z) (s : string) (db : database) : database :=
  stale_row (λ _, true) Month (period_start_of Month d) s (stale_row (λ _, true) Week (period_start_of Week d) s db).
Definition mark_stale_for_day (d : Z) (s : string) (db : database) : database :=
  stale_aggregates_for_day d s (stale_row (λ _, true) Day d s db).

Abbreviation target := (period_kind * Z * string)%type.

(** [dict.fromkeys]-like: each value once, at its first place. *)
Fixpoint first_seen (seen ts : list target) : list target :=
  match ts with
  | [] => []
  | t :: ts => if bool_decide (t ∈ seen) then first_seen seen ts else t :: first_seen (t :: seen) ts
  end.
Definition expand_stale_targets (ts : list target) : list target :=
  first_seen [] (ts ≫= λ t, match t with
                            | (Day, d, s) => [(Day, d, s); (Week, period_start_of Week d, s); (Month, period_start_of Month d, s)]
                            | _ => [t]
                            end).

Definition not_building (r : rollup) : bool := negb (bool_decide (status r = Building)).

Definition upsert_stale_many (ts : list target) (db : database) : database * Z :=
  foldl (λ '(db, n) '(k, start, s), (stale_row not_building k start s db, n + stale_count not_building k start s db))
    (db, 0) (expand_stale_targets ts).
Definition upsert_stale (k : period_kind) (start : Z) (s : string) (db : database) : database * Z :=
  upsert_stale_many [(k, start, s)] db.

(** [ORDER BY lease_expires_at, rollup_id] *)
Definition lease_le (a b : rollup) : Prop :=
  default 0 (lease_expires_at a) < default 0 (lease_expires_at b) ∨
  default 0 (lease_expires_at a) = default 0 (lease_expires_at b) ∧ rollup_id a <= rollup_id b.
#[export] Instance lease_le_dec : RelDecision lease_le.
Proof. intros a b. unfold lease_le. apply _. Defined.

Definition expired (cutoff : Z) (r : rollup) : Prop :=
  status r = Building ∧ match lease_expires_at r with Some t => t < cutoff | None => False end.
#[export] Instance expired_dec cutoff r : Decision (expired cutoff r).
Proof. unfold expired. destruct (lease_expires_at r); apply _. Defined.

Definition reclaimed_ids (cutoff : Z) (limit : nat) (db : database) : list Z :=
  rollup_id <$> take limit (merge_sort lease_le (filter (expired cutoff) (rollups db))).

Definition reclaim_stale_building (cutoff : Z) (limit : nat) (db : database) : database * Z :=
  let ids := reclaimed_ids cutoff limit db in
  let p r := bool_decide (rollup_id r ∈ ids) in
  (set_rollups (update_rows p (λ r, released Stale (bumped r)) (rollups db)) db, row_count p (rollups db)).

(** ** The outbox *)

Definition has_pending_invalidations (s : option string) (db : database) : bool :=
  existsb (λ i, match s with Some s => bool_decide (event_scope i = s) | None => true end) (invalidations db).

(** The days of an event, and the first one not applied yet. *)
Definition event_first (i : invalidation) : Z := Z.min (day_of (covered_start i)) (day_of (covered_end i)).
Definition event_last (i : invalidation) : Z := Z.max (day_of (covered_start i)) (day_of (covered_end i)).
Definition event_cursor (i : invalidation) : Z := default (event_first i) (next_day i).

(** [while current <= end and remaining_days > 0] *)
Fixpoint drain_days (remaining : nat) (s : string) (current last : Z) (db : database) : Z * nat * database :=
  match remaining with
  | O => (current, O, db)
  | S n => if bool_decide (current <= last) then drain_days n s (current + 1) last (mark_stale_for_day current s db)
           else (current, remaining, db)
  end.

Definition set_next_day (id d : Z) (es : list invalidation) : list invalidation :=
  (λ i, if bool_decide (event_id i = id) then
          {| event_id := event_id i; event_node := event_node i; event_scope := event_scope i;
             covered_start := covered_start i; covered_end := covered_end i; next_day := Some d;
             event_operation := event_operation i |}
        else i) <$> es.

(** [for row in rows]; the number is [remaining_days] at the end. *)
Fixpoint drain_events (rows : list invalidation) (remaining : nat) (db : database) : nat * database :=
  match rows with
  | [] => (remaining, db)
  | i :: rows =>
      let '(current, remaining, db) := drain_days remaining (event_scope i) (event_cursor i) (event_last i) db in
      if bool_decide (event_last i < current) then
        let db := set_invalidations (filter (λ j, event_id j ≠ event_id i) (invalidations db)) db in
        if bool_decide (remaining = 0%nat) then (remaining, db) else drain_events rows remaining db
      else (remaining, set_invalidations (set_next_day (event_id i) current (invalidations db)) db)
  end.

Definition drain_invalidations (event_limit day_budget : Z) (db : database) : database * Z :=
  let days := Z.to_nat day_budget in
  if bool_decide (Z.to_nat event_limit = 0%nat) || bool_decide (days = 0%nat) then (db, 0)
  else
    let '(remaining, db) := drain_events (take (Z.to_nat event_limit) (invalidations db)) days db in
    (db, Z.of_nat (days - remaining)).

(** ** Reads, cursors, purging *)

Definition start_le (a b : rollup) : Prop := period_start a <= period_start b.
#[export] Instance start_le_dec : RelDecision start_le.
Proof. intros a b. unfold start_le. apply _. Defined.

Definition ready_rollups_for_window (k : period_kind) (first last : Z) (s : string) (db : database) : list rollup :=
  merge_sort start_le (filter (λ r, kind r = k ∧ first <= period_start r ∧ period_start r <= last ∧ scope r = s ∧ status r = Ready)
                         (rollups db)).

Definition get_cursor (k : period_kind) (s : string) (db : database) : option string :=
  x ← find_first (λ x, x.1 = (k, s)) (cursors db); x.2.1.

Definition set_cursor (k : period_kind) (cursor : option string) (s : string) (built : Z) (db : database) : database :=
  {| rollups := rollups db; rollup_sources := rollup_sources db; invalidations := invalidations db;
     summary_nodes := summary_nodes db;
     cursors := (if existsb (λ x : (period_kind * string) * (option string * Z), bool_decide (x.1 = (k, s))) (cursors db)
                 then (λ x : (period_kind * string) * (option string * Z), if bool_decide (x.1 = (k, s)) then (x.1, (cursor, built)) else x) <$> cursors db
                 else cursors db ++ [((k, s), (cursor, built))]);
     next_rollup_id := next_rollup_id db; next_event_id := next_event_id db; next_node_id := next_node_id db |}.

Definition uses_sources (ids : list Z) (db : database) (id : Z) : bool :=
  bool_decide (filter (λ x : Z * Z, x.1 = id ∧ x.2 ∈ ids) (rollup_sources db) ≠ ∅).

Definition purge_rollups_for_sources (ids : list Z) (db : database) : database * Z :=
  if bool_decide (ids = []) then (db, 0)
  else
    let p r := uses_sources ids db (rollup_id r) in
    (set_sources (filter (λ x : Z * Z, uses_sources ids db x.1 = false) (rollup_sources db))
       (set_rollups (update_rows p (λ r, released Stale (bumped (with_error None (with_summary None None (built_at r) None r))))
                       (rollups db)) db),
     row_count p (rollups db)).
