(* ===== verification/RollupProofs.v ===== *)
(** What the rollup store promises while writers, builders and maintenance of
    several processes interleave: a claim is settled at most once, a ready rollup
    lags behind the summary nodes only while the outbox says so, and draining the
    outbox ends.

    A state holds the database and, beside it, what the theorems speak of: every
    event the triggers ever wrote, the summary nodes at each claim, the tokens handed
    out and those that settled their claim. *)

From S2P Require Import Prelude Calendar RollupStore.
From stdpp Require Import options.

#[local] Open Scope Z_scope.

(** ** Calls and steps *)

Inductive call :=
  | MarkReady (t : token) (text : list Z) (count : Z) (ids : list Z) (fingerprint : string) (now : Z)
  | MarkFailed (t : token) (e : string) (now : Z)
  | DeferIncomplete (t : token) (reason : string)
  | ResolveNoSource (t : token)
  | MarkStaleForDay (d : Z) (s : string)
  | StaleAggregatesForDay (d : Z) (s : string)
  | UpsertStaleMany (ts : list target)
  | ReclaimStaleBuilding (cutoff : Z) (limit : nat)
  | DrainInvalidations (event_limit day_budget : Z)
  | PurgeRollupsForSources (ids : list Z)
  | SetCursor (k : period_kind) (cursor : option string) (s : string) (built : Z).

Definition run (c : call) (db : database) : database :=
  match c with
  | MarkReady t text count ids fp now => match mark_ready t text count ids fp now db with Ok (db, _) => db | Err _ => db end
  | MarkFailed t e now => (mark_failed t e now db).1
  | DeferIncomplete t reason => (defer_incomplete t reason db).1
  | ResolveNoSource t => (resolve_no_source t db).1
  | MarkStaleForDay d s => mark_stale_for_day d s db
  | StaleAggregatesForDay d s => stale_aggregates_for_day d s db
  | UpsertStaleMany ts => (upsert_stale_many ts db).1
  | ReclaimStaleBuilding cutoff limit => (reclaim_stale_building cutoff limit db).1
  | DrainInvalidations ev days => (drain_invalidations ev days db).1
  | PurgeRollupsForSources ids => (purge_rollups_for_sources ids db).1
  | SetCursor k cursor s built => set_cursor k cursor s built db
  end.

(** The token whose claim the call settles: the methods that answer [True]. *)
Definition settles (c : call) (db : database) : list token :=
  match c with
  | MarkReady t text count ids fp now => match mark_ready t text count ids fp now db with Ok (_, true) => [t] | _ => [] end
  | MarkFailed t e now => if (mark_failed t e now db).2 then [t] else []
  | DeferIncomplete t reason => if (defer_incomplete t reason db).2 then [t] else []
  | ResolveNoSource t => if (resolve_no_source t db).2 then [t] else []
  | _ => []
  end.

Record system := {
  db : database; log : list invalidation; claims : gmap (Z * Z) (gmap Z node * Z);
  issued : list token; settled : list token }.

Inductive step : system → system → Prop :=
  | step_mutate m s :
      step s {| db := mutate m (db s); log := log s ++ events_of m (db s); claims := claims s; issued := issued s;
                settled := settled s |}
  | step_claim k start sc now n s db' t :
      aligned k start → upsert_building k start sc now n (db s) = Some (db', t) →
      step s {| db := db'; log := log s;
                claims := <[(token_id t, token_generation t) := (summary_nodes (db s), next_event_id (db s))]> (claims s);
                issued := issued s ++ [t]; settled := settled s |}
  | step_call c s :
      step s {| db := run c (db s); log := log s; claims := claims s; issued := issued s;
                settled := settled s ++ settles c (db s) |}.

(** Before the first claim: no rollup, no event. *)
Definition initial (s : system) : Prop :=
  (∀ id n, summary_nodes (db s) !! id = Some n → id < next_node_id (db s)) ∧ rollups (db s) = [] ∧ invalidations (db s) = [] ∧ log s = [] ∧ claims s = ∅ ∧ issued s = [] ∧ settled s = [].
Definition reachable (s : system) : Prop := ∃ s0, initial s0 ∧ rtc step s0 s.

(** ** Well-formed databases *)

Definition key_of (r : rollup) : period_kind * Z * string := (kind r, period_start r, scope r).

Record wf (db : database) : Prop := {
  wf_keys : NoDup (key_of <$> rollups db);
  wf_ids : NoDup (rollup_id <$> rollups db);
  wf_next : ∀ r, r ∈ rollups db → rollup_id r < next_rollup_id db;
  wf_events : NoDup (event_id <$> invalidations db);
  wf_next_event : ∀ i, i ∈ invalidations db → event_id i < next_event_id db }.

Lemma has_key_spec k start s r : has_key k start s r = true ↔ key_of r = (k, start, s).
Proof.
  unfold has_key, key_of. rewrite !andb_true_iff, !bool_decide_eq_true. split; [by intros [[-> ->] ->]|by intros [= -> -> ->]].
Qed.

(** ** How rows change *)

Definition live (r : rollup) : Prop := status r = Building ∨ status r = Ready.

Record evolves (r r' : rollup) : Prop := {
  ev_id : rollup_id r' = rollup_id r;
  ev_key : key_of r' = key_of r;
  ev_generation : generation r <= generation r';
  ev_building : status r' = Building → r' = r;
  ev_live : live r' → live r ∧ generation r' = generation r }.

#[export] Instance evolves_preorder : PreOrder evolves.
Proof.
  split.
  - intros r. split; [done|done|lia|done|done].
  - intros r1 r2 r3 [I1 K1 G1 B1 L1] [I2 K2 G2 B2 L2]. split; [congruence|congruence|lia| |].
    + intros Hb. specialize (B2 Hb). subst r3. by apply B1.
    + intros [Hl Eg]%L2. apply L1 in Hl as [Hl Eg']. split; [done|congruence].
Qed.

(** What every transaction but a claim does to the rows. *)
Record evolution (db db' : database) : Prop := {
  el_rows : ∀ r', r' ∈ rollups db' →
    (∃ r, r ∈ rollups db ∧ evolves r r') ∨ (¬ live r' ∧ next_rollup_id db <= rollup_id r');
  el_next : next_rollup_id db <= next_rollup_id db';
  el_nodes : summary_nodes db' = summary_nodes db;
  el_next_event : next_event_id db' = next_event_id db;
  el_next_node : next_node_id db' = next_node_id db;
  el_wf : wf db → wf db' }.

#[export] Instance evolution_preorder : PreOrder evolution.
Proof.
  split; [intros d; split; [intros r Hr; left; by exists r|done..]|].
  intros d1 d2 d3 [R1 N1 S1 E1 D1 W1] [R2 N2 S2 E2 D2 W2]. split; [|lia|congruence|congruence|congruence|auto].
  intros r3 [(r2 & Hr2 & He2)|[Hl Hid]]%R2; [|right; split; [done|lia]].
  apply R1 in Hr2 as [(r1 & Hr1 & He1)|[Hl Hid]].
  - left. exists r1. split; [done|by etransitivity].
  - right. split; [by intros [? _]%(ev_live _ _ He2)|by rewrite (ev_id _ _ He2)].
Qed.

Lemma update_rows_elem p f rs r' : r' ∈ update_rows p f rs ↔ ∃ r, r ∈ rs ∧ r' = if p r then f r else r.
Proof. unfold update_rows. rewrite list_elem_of_fmap. naive_solver. Qed.

Lemma update_rows_fmap {A} (g : rollup → A) p f rs : (∀ r, g (f r) = g r) → g <$> update_rows p f rs = g <$> rs.
Proof.
  intros Hg. unfold update_rows. rewrite <-list_fmap_compose. apply list_fmap_ext. intros i r _. cbn. by destruct (p r).
Qed.

(** A change of rows in place. *)
Lemma update_evolution p f db0 : (∀ r, r ∈ rollups db0 → p r = true → evolves r (f r)) →
  (∀ r, rollup_id (f r) = rollup_id r) → (∀ r, key_of (f r) = key_of r) →
  evolution db0 (set_rollups (update_rows p f (rollups db0)) db0).
Proof.
  intros Hf Hid Hk. split; cbn; try done.
  - intros r' (r & Hr & ->)%update_rows_elem. left. exists r. split; [done|]. destruct (p r) eqn:Hp; [by apply Hf|done].
  - intros [W1 W2 W3 W4 W5]. split; cbn; try done; [by rewrite update_rows_fmap|by rewrite update_rows_fmap|].
    intros r' (r & Hr & ->)%update_rows_elem. destruct (p r); [rewrite Hid|]; by apply W3.
Qed.

Lemma released_evolves st g r : st ≠ Building → st ≠ Ready → rollup_id (g r) = rollup_id r → key_of (g r) = key_of r →
  generation r <= generation (g r) → evolves r (released st (g r)).
Proof. intros H1 H2 E1 E2 E3. split; cbn; try done. intros [?|?]; cbn in *; congruence. Qed.

Lemma no_key k start s db0 : existsb (has_key k start s) (rollups db0) = false → (k, start, s) ∉ (key_of <$> rollups db0).
Proof.
  intros Hno (r & E & Hr)%list_elem_of_fmap. assert (existsb (has_key k start s) (rollups db0) = true); [|congruence].
  apply existsb_exists. exists r. split; [by apply list_elem_of_In|]. by apply has_key_spec.
Qed.

Lemma insert_wf row db0 :
  wf db0 → rollup_id row = next_rollup_id db0 → key_of row ∉ (key_of <$> rollups db0) →
  NoDup (key_of <$> rollups db0 ++ [row]) ∧ NoDup (rollup_id <$> rollups db0 ++ [row]) ∧
  ∀ r, r ∈ rollups db0 ++ [row] → rollup_id r < next_rollup_id db0 + 1.
Proof.
  intros [W1 W2 W3 _ _] Hid Hk. rewrite !fmap_app. cbn [fmap list_fmap]. split_and!.
  - apply NoDup_app. split_and!; [done| |apply NoDup_singleton]. intros x Hx ->%list_elem_of_singleton. done.
  - apply NoDup_app. split_and!; [done| |apply NoDup_singleton]. rewrite Hid.
    intros x (r & -> & Hr)%list_elem_of_fmap E%list_elem_of_singleton. specialize (W3 r Hr). lia.
  - intros r [Hr| ->%list_elem_of_singleton]%elem_of_app; [specialize (W3 r Hr)|]; lia.
Qed.

Lemma upsert_evolution k start s row p f db0 :
  (∀ r, r ∈ rollups db0 → has_key k start s r = true → p r = true → evolves r (f r)) →
  (∀ r, rollup_id (f r) = rollup_id r) → (∀ r, key_of (f r) = key_of r) →
  (∀ id, rollup_id (row id) = id ∧ key_of (row id) = (k, start, s) ∧ ¬ live (row id)) →
  evolution db0 (upsert_row k start s row p f db0).
Proof.
  intros Hf Hid Hk Hrow. unfold upsert_row. destruct (existsb (has_key k start s) (rollups db0)) eqn:He.
  - apply update_evolution; [|done..]. intros r Hr [? ?]%andb_true_iff. by apply Hf.
  - destruct (Hrow (next_rollup_id db0)) as (H1 & H2 & H3). split; cbn; try done; try lia.
    + intros r' [Hr| ->%list_elem_of_singleton]%elem_of_app; [left; by exists r'|right; split; [done|lia]].
    + intros Hwf. destruct (insert_wf (row (next_rollup_id db0)) db0 Hwf) as (N1 & N2 & N3); [done|rewrite H2; by apply no_key|].
      destruct Hwf. by split.
Qed.

Lemma stale_row_evolution p k start s db0 : evolution db0 (stale_row p k start s db0).
Proof.
  unfold stale_row. apply upsert_evolution; [|done..|].
  - intros r _ _ _. apply released_evolves; cbn; try done. lia.
  - intros id. split_and!; [done..|]. by intros [?|?].
Qed.

Lemma stale_row_outbox p k start s db0 : invalidations (stale_row p k start s db0) = invalidations db0.
Proof. unfold stale_row, upsert_row. by destruct (existsb _ _). Qed.

Lemma mark_stale_evolution d s db0 : evolution db0 (mark_stale_for_day d s db0).
Proof.
  unfold mark_stale_for_day, stale_aggregates_for_day.
  etransitivity; [apply stale_row_evolution|]. etransitivity; apply stale_row_evolution.
Qed.

Lemma mark_stale_outbox d s db0 : invalidations (mark_stale_for_day d s db0) = invalidations db0.
Proof. unfold mark_stale_for_day, stale_aggregates_for_day. by rewrite !stale_row_outbox. Qed.

(** Only rows, or only the outbox, change. *)
Lemma set_sources_evolution ss db0 : evolution db0 (set_sources ss db0).
Proof. split; cbn; try done; [intros r Hr; left; by exists r|]. by intros []. Qed.

Lemma set_invalidations_evolution es db0 :
  (wf db0 → NoDup (event_id <$> es) ∧ ∀ i, i ∈ es → event_id i < next_event_id db0) →
  evolution db0 (set_invalidations es db0).
Proof. intros Hes. split; cbn; try done; [intros r Hr; left; by exists r|]. intros Hwf. destruct (Hes Hwf), Hwf. by split. Qed.

Lemma owned_evolution t st g db0 : st ≠ Building → st ≠ Ready →
  (∀ r, rollup_id (g r) = rollup_id r) → (∀ r, key_of (g r) = key_of r) → (∀ r, generation r <= generation (g r)) →
  evolution db0 (update_owned t (λ r, released st (g r)) db0).
Proof. intros H1 H2 Hi Hk Hg. apply update_evolution; [|done..]. intros r _ _. by apply released_evolves. Qed.

Lemma owns_spec t r :
  owns t r = true ↔ rollup_id r = token_id t ∧ generation r = token_generation t ∧ lease_nonce r = nonce t ∧ status r = Building.
Proof. unfold owns. rewrite !andb_true_iff, !bool_decide_eq_true. tauto. Qed.

Lemma publish_evolution t text count fp now db0 : evolution db0 (update_owned t (published_row text count now fp) db0).
Proof.
  apply update_evolution; [|done..]. intros r _ (_ & _ & _ & Hb)%owns_spec.
  split; cbn; [done|done|lia|done|]. intros _. split; [by left|done].
Qed.

Lemma mark_ready_evolution t text count ids fp now db0 : evolution db0 (run (MarkReady t text count ids fp now) db0).
Proof.
  cbn [run]. unfold mark_ready. destruct (find_first _ _) as [r|]; [|unfold raise_if; by destruct (negb _)].
  destruct (existsb (pending_in_window r) _); [|destruct (existsb _ _)].
  - apply (owned_evolution t Stale (λ r, bumped (with_error (Some "source mutation pending") r))); try done. cbn. lia.
  - apply (owned_evolution t Stale (λ r, bumped (with_error (Some "source changed during build") r))); try done. cbn. lia.
  - etransitivity; [apply publish_evolution|apply set_sources_evolution].
Qed.

Lemma resolve_evolution t db0 : evolution db0 (resolve_no_source t db0).1.
Proof.
  unfold resolve_no_source. destruct (affected t db0); [|done]. cbn [fst].
  etransitivity; [|apply set_sources_evolution]. split; cbn; try done.
  - intros r [_ Hr]%list_elem_of_filter. left. by exists r.
  - intros [W1 W2 W3 W4 W5]. split; cbn; try done.
    + eapply sublist_NoDup; [exact W1|]. apply fmap_sublist, sublist_filter.
    + eapply sublist_NoDup; [exact W2|]. apply fmap_sublist, sublist_filter.
    + intros r [_ Hr]%list_elem_of_filter. by apply W3.
Qed.

Lemma upsert_stale_many_evolution ts db0 : evolution db0 (upsert_stale_many ts db0).1.
Proof.
  unfold upsert_stale_many. set (f := λ '(db, n) '(k, start, s), (stale_row not_building k start s db, n + stale_count not_building k start s db)).
  assert (∀ ts (x : database * Z), evolution x.1 (foldl f x ts).1) as H; [|exact (H _ (db0, 0))].
  clear ts db0. induction ts as [|[[k start] s] ts IH]; intros [d n]; [done|]. cbn [foldl].
  etransitivity; [|apply IH]. cbn. apply stale_row_evolution.
Qed.

(** ** Draining *)

(** Every rollup of the day is there and stale. *)
Definition staled (db : database) (s : string) (d : Z) : Prop :=
  ∀ k, (k, period_start_of k d, s) ∈ (key_of <$> rollups db) ∧
    ∀ r, r ∈ rollups db → key_of r = (k, period_start_of k d, s) → status r = Stale.

(** What only marks rows stale. *)
Record staling (db db' : database) : Prop := {
  sl_evolution : evolution db db';
  sl_keys : ∀ x, x ∈ (key_of <$> rollups db) → x ∈ (key_of <$> rollups db');
  sl_stale : ∀ r', r' ∈ rollups db' → status r' = Stale ∨ r' ∈ rollups db }.

#[export] Instance staling_preorder : PreOrder staling.
Proof.
  split; [by intros d; split; auto|]. intros d1 d2 d3 [E1 K1 S1] [E2 K2 S2]. split; [by etransitivity|auto|].
  intros r [?|Hr]%S2; [by left|by apply S1].
Qed.

Lemma staling_staled db0 db1 s d : staling db0 db1 → staled db0 s d → staled db1 s d.
Proof.
  intros [_ Hk Hs] H k. destruct (H k) as [H1 H2]. split; [by apply Hk|].
  intros r Hr E. destruct (Hs r Hr) as [?|Hr0]; [done|by apply H2].
Qed.

Lemma stale_row_staling k start s db0 : staling db0 (stale_row (λ _, true) k start s db0).
Proof.
  split; [apply stale_row_evolution| |]; unfold stale_row, upsert_row; destruct (existsb _ _) eqn:He; cbn.
  - intros x. by rewrite update_rows_fmap.
  - intros x Hx. rewrite fmap_app. apply elem_of_app. by left.
  - intros r' (r & Hr & ->)%update_rows_elem. rewrite andb_true_r. destruct (has_key _ _ _ r); [by left|by right].
  - intros r' [Hr| ->%list_elem_of_singleton]%elem_of_app; [by right|by left].
Qed.

Lemma stale_row_done k start s db0 :
  let db1 := stale_row (λ _, true) k start s db0 in
  (k, start, s) ∈ (key_of <$> rollups db1) ∧ ∀ r, r ∈ rollups db1 → key_of r = (k, start, s) → status r = Stale.
Proof.
  unfold stale_row, upsert_row. destruct (existsb _ _) eqn:He; cbn; split.
  - rewrite update_rows_fmap by done. apply existsb_exists in He as (r & Hr%list_elem_of_In & E%has_key_spec).
    apply list_elem_of_fmap. by exists r.
  - intros r' (r & Hr & ->)%update_rows_elem E. rewrite andb_true_r in *. destruct (has_key k start s r) eqn:Hk; [done|].
    apply has_key_spec in E. congruence.
  - rewrite fmap_app. apply elem_of_app. right. by left.
  - intros r' [Hr| ->%list_elem_of_singleton]%elem_of_app E; [|done].
    exfalso. apply (no_key _ _ _ _ He). apply list_elem_of_fmap. by exists r'.
Qed.

Lemma mark_stale_staling d s db0 : staling db0 (mark_stale_for_day d s db0).
Proof.
  unfold mark_stale_for_day, stale_aggregates_for_day.
  etransitivity; [apply stale_row_staling|]. etransitivity; apply stale_row_staling.
Qed.

Lemma mark_stale_staled d s db0 : staled (mark_stale_for_day d s db0) s d.
Proof.
  unfold mark_stale_for_day, stale_aggregates_for_day.
  set (d1 := stale_row _ Day d s db0). set (d2 := stale_row _ Week _ s d1).
  assert (∀ k start d0, let d1 := stale_row (λ _, true) k start s d0 in ∀ d2, staling d1 d2 →
    (k, start, s) ∈ (key_of <$> rollups d2) ∧ ∀ r, r ∈ rollups d2 → key_of r = (k, start, s) → status r = Stale) as Hk.
  { intros k start d0 d1' d2' [_ Hkeys Hs]. destruct (stale_row_done k start s d0) as [H1 H2]. split; [by apply Hkeys|].
    intros r Hr E. destruct (Hs r Hr) as [?|Hr0]; [done|by apply H2]. }
  intros [| |]; [apply (Hk Day _ db0)|apply (Hk Week _ d1)|by apply (Hk Month _ d2)]; [etransitivity|]; apply stale_row_staling.
Qed.

(** Days are applied in order until the last one or the budget. *)
Lemma drain_days_spec n s last : ∀ current db0,
  let '(current', n', db1) := drain_days n s current last db0 in
  staling db0 db1 ∧ invalidations db1 = invalidations db0 ∧ (∀ d, current <= d < current' → staled db1 s d) ∧
  current <= current' ∧ current' + Z.of_nat n' = current + Z.of_nat n ∧
  (current' <= Z.max current (last + 1)) ∧ (n' = O ∨ last < current').
Proof.
  induction n as [|n IH]; intros current db0; cbn [drain_days].
  { split_and!; try done; try lia. }
  case_bool_decide as Hc; [|split_and!; try done; try lia; right; lia].
  specialize (IH (current + 1) (mark_stale_for_day current s db0)).
  destruct (drain_days n s (current + 1) last (mark_stale_for_day current s db0)) as [[current' n'] db1].
  destruct IH as (H1 & H2 & H3 & H4 & H5 & H6 & H7). split_and!; try done; try lia.
  - etransitivity; [apply mark_stale_staling|done].
  - by rewrite H2, mark_stale_outbox.
  - intros d Hd. destruct (decide (d = current)) as [->|]; [|apply H3; lia].
    eapply staling_staled; [done|]. apply mark_stale_staled.
Qed.

(** The days an event still has to be applied to. *)
Definition waits (i : invalidation) (d : Z) : Prop := event_cursor i <= d <= event_last i.
Definition same_span (i e : invalidation) : Prop :=
  event_id i = event_id e ∧ event_scope i = event_scope e ∧ covered_start i = covered_start e ∧ covered_end i = covered_end e.
#[export] Instance same_span_equiv : Equivalence same_span.
Proof.
  unfold same_span. split.
  - intros i. by split_and!.
  - intros i j (? & ? & ? & ?). by split_and!.
  - intros i j l (? & ? & ? & ?) (? & ? & ? & ?). split_and!; congruence.
Qed.
Definition pending (db : database) (e : invalidation) (d : Z) : Prop :=
  ∃ i, i ∈ invalidations db ∧ same_span i e ∧ waits i d.

(** No day is lost: it is still pending or its rollups are stale. *)
Definition accounted (db db' : database) : Prop :=
  ∀ i d, i ∈ invalidations db → waits i d → pending db' i d ∨ staled db' (event_scope i) d.

Lemma accounted_trans db0 db1 db2 : accounted db0 db1 → staling db1 db2 → accounted db1 db2 → accounted db0 db2.
Proof.
  intros H1 Hs H2 i d Hi Hw. destruct (H1 i d Hi Hw) as [(j & Hj & Ej & Hwj)|Hd]; [|right; by eapply staling_staled].
  destruct (H2 j d Hj Hwj) as [(j' & ? & ? & ?)|Hd]; [left|right; destruct Ej as (_ & <- & _); done].
  exists j'. split_and!; [done|by etransitivity|done].
Qed.

Definition moved_on (id d : Z) (i : invalidation) : invalidation :=
  if bool_decide (event_id i = id) then
    {| event_id := event_id i; event_node := event_node i; event_scope := event_scope i;
       covered_start := covered_start i; covered_end := covered_end i; next_day := Some d;
       event_operation := event_operation i |}
  else i.

Lemma same_event es i j : NoDup (event_id <$> es) → i ∈ es → j ∈ es → event_id i = event_id j → i = j.
Proof.
  intros Hnd Hi Hj E. apply (NoDup_fst_fun ((λ i, (event_id i, i)) <$> es) (event_id j));
    [by rewrite <-list_fmap_compose|rewrite <-E|]; apply list_elem_of_fmap; by eexists.
Qed.

(** What one event's turn leaves in the outbox. *)
Lemma outbox_step db0 db1 i c : wf db0 → staling db0 db1 → invalidations db1 = invalidations db0 →
  i ∈ invalidations db0 → event_cursor i <= c → (∀ d, event_cursor i <= d < c → staled db1 (event_scope i) d) →
  let es := if bool_decide (event_last i < c) then filter (λ j, event_id j ≠ event_id i) (invalidations db1)
            else set_next_day (event_id i) c (invalidations db1) in
  staling db0 (set_invalidations es db1) ∧ accounted db0 (set_invalidations es db1).
Proof.
  intros Hwf Hst Ho Hi Hc Hdone es.
  assert (∀ j, j ∈ invalidations db0 → event_id j = event_id i → j = i) as Hsame
    by (intros j Hj E; apply (same_event (invalidations db0)); [apply Hwf|done..]).
  split.
  - destruct Hst as [He Hk Hs]. split; [|done|done]. etransitivity; [exact He|]. apply set_invalidations_evolution.
    intros [_ _ _ Hnd Hlt]. unfold es. case_bool_decide.
    + split; [eapply sublist_NoDup; [exact Hnd|apply fmap_sublist, sublist_filter]|].
      intros j [_ Hj]%list_elem_of_filter. by apply Hlt.
    + unfold set_next_day. rewrite <-list_fmap_compose. split.
      * erewrite list_fmap_ext; [exact Hnd|]. intros n j _. cbn. by destruct (bool_decide _).
      * intros j (j0 & -> & Hj)%list_elem_of_fmap. specialize (Hlt j0 Hj). by destruct (bool_decide _).
  - intros j d Hj Hw. destruct (decide (event_id j = event_id i)) as [E|E].
    + rewrite (Hsame j Hj E) in *. destruct (decide (d < c)) as [Hd|Hd]; [right; intros k; apply Hdone; unfold waits in Hw; lia|].
      left. unfold es, pending. unfold waits in Hw. rewrite bool_decide_eq_false_2 by lia. cbn [invalidations set_invalidations].
      exists (moved_on (event_id i) c i). unfold moved_on. rewrite bool_decide_eq_true_2 by done. split_and!; try done.
      * rewrite Ho. apply list_elem_of_fmap. exists i. rewrite bool_decide_eq_true_2 by done. done.
      * unfold waits, event_cursor. cbn. change (event_last _) with (event_last i). lia.
    + left. exists j. cbn [invalidations set_invalidations]. unfold es. rewrite Ho. split_and!; [|done|done].
      case_bool_decide; [by apply list_elem_of_filter|]. apply list_elem_of_fmap. exists j.
      by rewrite bool_decide_eq_false_2.
Qed.

(** The days left to apply, and one more for each event. *)
Definition weight (i : invalidation) : nat := S (Z.to_nat (event_last i + 1 - event_cursor i)).
Definition backlog (db : database) : nat := sum_list (weight <$> invalidations db).

Lemma sum_list_lt {T} (f g : T → nat) ts t :
  (∀ u, u ∈ ts → (f u ≤ g u)%nat) → t ∈ ts → (f t < g t)%nat → (sum_list (f <$> ts) < sum_list (g <$> ts))%nat.
Proof.
  induction ts as [|u ts IH]; intros Hle Ht Hlt; [by apply not_elem_of_nil in Ht|]. cbn.
  pose proof (Hle u (list_elem_of_here _ _)). assert (∀ v, v ∈ ts → (f v ≤ g v)%nat) as Hle' by (intros v Hv; apply Hle; by right).
  pose proof (sum_list_le f g ts Hle'). apply elem_of_cons in Ht as [->|Ht]; [lia|]. specialize (IH Hle' Ht Hlt). lia.
Qed.

Lemma sum_list_filter {T} (f : T → nat) (P : T → Prop) `{!∀ x, Decision (P x)} ts :
  sum_list (f <$> filter P ts) = sum_list ((λ x, if decide (P x) then f x else 0%nat) <$> ts).
Proof.
  induction ts as [|t ts IH]; [done|]. rewrite filter_cons. cbn. rewrite <-IH. by destruct (decide (P t)).
Qed.

Lemma outbox_step_backlog db0 db1 i c : wf db0 → invalidations db1 = invalidations db0 → i ∈ invalidations db0 →
  event_cursor i <= c → event_cursor i < c ∨ event_last i < c →
  let es := if bool_decide (event_last i < c) then filter (λ j, event_id j ≠ event_id i) (invalidations db1)
            else set_next_day (event_id i) c (invalidations db1) in
  (backlog (set_invalidations es db1) < backlog db0)%nat.
Proof.
  intros Hwf Ho Hi Hc Hor es. unfold backlog, es. cbn [invalidations set_invalidations]. rewrite Ho.
  case_bool_decide as Hl.
  - rewrite sum_list_filter. apply (sum_list_lt _ _ _ i); [|done|].
    + intros j _. destruct (decide _); lia.
    + destruct (decide _) as [E|]; [done|]. unfold weight. lia.
  - unfold set_next_day. rewrite <-list_fmap_compose. apply (sum_list_lt _ _ _ i); [|done|].
    + intros j Hj. cbn. case_bool_decide as E; [|done].
      assert (j = i) as -> by (apply (same_event (invalidations db0)); [apply Hwf|done..]).
      unfold weight, event_cursor. cbn. change (event_last _) with (event_last i). fold (event_cursor i). lia.
    + cbn. rewrite bool_decide_eq_true_2 by done. unfold weight, event_cursor. cbn. change (event_last _) with (event_last i).
      fold (event_cursor i). lia.
Qed.

Lemma drain_events_spec rows : ∀ n db0,
  wf db0 → NoDup (event_id <$> rows) → (∀ i, i ∈ rows → i ∈ invalidations db0) →
  let '(n', db1) := drain_events rows n db0 in
  staling db0 db1 ∧ accounted db0 db1 ∧ (n' ≤ n)%nat ∧ (backlog db1 ≤ backlog db0)%nat ∧
  (rows ≠ [] → n ≠ O → (backlog db1 < backlog db0)%nat).
Proof.
  induction rows as [|i rows IH]; intros n db0 Hwf Hnd Hin; cbn [drain_events].
  { split_and!; try done. intros j d Hj Hw. left. exists j. by split_and!. }
  pose proof (drain_days_spec n (event_scope i) (event_last i) (event_cursor i) db0) as Hdays.
  destruct (drain_days _ _ _ _ _) as [[c n'] db1]. destruct Hdays as (H1 & H2 & H3 & H4 & H5 & H6 & H7).
  assert (i ∈ invalidations db0) as Hi by (apply Hin; by left).
  destruct (outbox_step db0 db1 i c Hwf H1 H2 Hi H4 H3) as [Hst Hacc].
  pose proof (outbox_step_backlog db0 db1 i c Hwf H2 Hi H4) as Hwork. cbv zeta in Hst, Hacc, Hwork.
  destruct (decide (event_last i < c)) as [Hl|Hl].
  - rewrite bool_decide_eq_true_2 in Hst, Hacc, Hwork |- * by done. specialize (Hwork (or_intror Hl)).
    case_bool_decide as Hz; [split_and!; try done; lia|]. apply NoDup_cons in Hnd as [Hfresh Hnd].
    set (db2 := set_invalidations _ db1) in *. specialize (IH n' db2 (el_wf _ _ (sl_evolution _ _ Hst) Hwf) Hnd).
    destruct (drain_events rows n' db2) as [n'' db3]. destruct IH as (G1 & G2 & G3 & G4 & G5).
    { intros j Hj. unfold db2. cbn. apply list_elem_of_filter. rewrite H2. split; [|apply Hin; by right].
      intros E. apply Hfresh. rewrite <-E. by apply list_elem_of_fmap_2. }
    split_and!; [by etransitivity|by eapply accounted_trans|lia|lia|lia].
  - rewrite bool_decide_eq_false_2 in Hst, Hacc, Hwork |- * by done. split_and!; [done|done|lia| |].
    + destruct (decide (event_cursor i < c)) as [Hm|Hm]; [specialize (Hwork (or_introl Hm)); lia|].
      assert (c = event_cursor i) as -> by lia. unfold backlog. cbn [invalidations set_invalidations]. rewrite H2.
      unfold set_next_day. rewrite <-list_fmap_compose. apply sum_list_le. intros j Hj. cbn. case_bool_decide as E; [|done].
      assert (j = i) as -> by (apply (same_event (invalidations db0)); [apply Hwf|done..]).
      unfold weight, event_cursor at 1. cbn. change (event_last _) with (event_last i). lia.
    + intros _ Hn. apply Hwork. left. destruct H7 as [->|?]; lia.
Qed.

Lemma drain_spec ev days db0 : wf db0 →
  let db1 := (drain_invalidations ev days db0).1 in
  staling db0 db1 ∧ accounted db0 db1 ∧
  (1 <= ev → 1 <= days → invalidations db0 ≠ [] → (backlog db1 < backlog db0)%nat).
Proof.
  intros Hwf. unfold drain_invalidations. destruct (_ || _) eqn:Hz.
  - cbn. split_and!; [done|intros i d Hi Hw; left; exists i; by split_and!|]. intros H1 H2 _.
    apply orb_true_iff in Hz as [Hz|Hz]; apply bool_decide_eq_true in Hz; lia.
  - apply orb_false_iff in Hz as [Hev Hdays]. apply bool_decide_eq_false in Hev, Hdays.
    pose proof (drain_events_spec (take (Z.to_nat ev) (invalidations db0)) (Z.to_nat days) db0 Hwf) as H.
    destruct (drain_events _ _ _) as [n db1]. cbn [fst]. destruct H as (H1 & H2 & _ & _ & H3).
    + rewrite fmap_take. eapply sublist_NoDup; [exact (wf_events _ Hwf)|apply sublist_take].
    + intros i Hi. eapply elem_of_sublist; [exact Hi|apply sublist_take].
    + split_and!; [done|done|]. intros _ _ Hne. apply H3; [|done].
      destruct (invalidations db0); [done|]. destruct (Z.to_nat ev); done.
Qed.

(** ** Every transaction *)

Lemma run_evolution c db0 : wf db0 → evolution db0 (run c db0).
Proof.
  intros Hwf. destruct c; cbn [run].
  - apply mark_ready_evolution.
  - apply (owned_evolution t Failed (λ r, with_failed_at (Some now) (with_error (Some e) r))); done.
  - apply (owned_evolution t Stale (with_error (Some reason))); done.
  - apply resolve_evolution.
  - apply mark_stale_evolution.
  - unfold stale_aggregates_for_day. etransitivity; apply stale_row_evolution.
  - apply upsert_stale_many_evolution.
  - unfold reclaim_stale_building. cbn [fst]. apply update_evolution; [|done..].
    intros r _ _. apply released_evolves; cbn; try done. lia.
  - apply drain_spec, Hwf.
  - unfold purge_rollups_for_sources. case_bool_decide; [done|]. cbn [fst].
    etransitivity; [|apply set_sources_evolution]. apply update_evolution; [|done..]. intros r _ _.
    apply (released_evolves Stale (λ r, bumped (with_error None (with_summary None None (built_at r) None r)))); cbn; try done. lia.
  - unfold set_cursor. split; cbn; try done; [intros r Hr; left; by exists r|]. by intros [].
Qed.

Lemma upsert_stale_many_outbox ts db0 : invalidations (upsert_stale_many ts db0).1 = invalidations db0.
Proof.
  unfold upsert_stale_many. set (f := λ '(db, n) '(k, start, s), (stale_row not_building k start s db, n + stale_count not_building k start s db)).
  assert (∀ ts (x : database * Z), invalidations (foldl f x ts).1 = invalidations x.1) as H; [|exact (H _ (db0, 0))].
  clear ts db0. induction ts as [|[[k start] s] ts IH]; intros [d n]; [done|]. cbn [foldl]. rewrite IH. apply stale_row_outbox.
Qed.

(** Only draining touches the outbox, and it accounts for every day. *)
Lemma run_accounted c db0 : wf db0 → accounted db0 (run c db0).
Proof.
  intros Hwf. assert (∀ d, invalidations d = invalidations db0 → accounted db0 d) as Hsame.
  { intros d E i x Hi Hw. left. exists i. rewrite E. by split_and!. }
  destruct c; cbn [run]; try (apply Hsame; done).
  - apply Hsame. unfold mark_ready. destruct (find_first _ _) as [r|]; [|unfold raise_if; by destruct (negb _)].
    destruct (existsb (pending_in_window r) _); [done|]. by destruct (existsb _ _).
  - apply Hsame. unfold resolve_no_source. by destruct (affected t db0).
  - apply Hsame, mark_stale_outbox.
  - apply Hsame. unfold stale_aggregates_for_day. by rewrite !stale_row_outbox.
  - apply Hsame, upsert_stale_many_outbox.
  - apply drain_spec, Hwf.
  - apply Hsame. unfold purge_rollups_for_sources. by case_bool_decide.
Qed.

(** ** Claims *)

Lemma same_key db0 r r' : wf db0 → r ∈ rollups db0 → r' ∈ rollups db0 → key_of r = key_of r' → r = r'.
Proof.
  intros Hwf Hr Hr' E. apply (NoDup_fst_fun ((λ r, (key_of r, r)) <$> rollups db0) (key_of r'));
    [rewrite <-list_fmap_compose; apply Hwf|rewrite <-E|]; apply list_elem_of_fmap; by eexists.
Qed.
Lemma same_id db0 r r' : wf db0 → r ∈ rollups db0 → r' ∈ rollups db0 → rollup_id r = rollup_id r' → r = r'.
Proof.
  intros Hwf Hr Hr' E. apply (NoDup_fst_fun ((λ r, (rollup_id r, r)) <$> rollups db0) (rollup_id r'));
    [rewrite <-list_fmap_compose; apply Hwf|rewrite <-E|]; apply list_elem_of_fmap; by eexists.
Qed.

(** A claim replaces one row, at a higher generation, or adds one. *)
Lemma claim_spec k start s now n db0 db1 t : wf db0 → upsert_building k start s now n db0 = Some (db1, t) →
  wf db1 ∧ invalidations db1 = invalidations db0 ∧ summary_nodes db1 = summary_nodes db0 ∧
  next_event_id db1 = next_event_id db0 ∧ next_rollup_id db0 <= next_rollup_id db1 ∧ token_id t < next_rollup_id db1 ∧
  (next_rollup_id db0 <= token_id t ∨ ∃ r0, r0 ∈ rollups db0 ∧ rollup_id r0 = token_id t ∧ key_of r0 = (k, start, s) ∧ generation r0 < token_generation t) ∧
  ∀ r, r ∈ rollups db1 →
    (r ∈ rollups db0 ∧ rollup_id r ≠ token_id t) ∨
    (key_of r = (k, start, s) ∧ rollup_id r = token_id t ∧ generation r = token_generation t ∧ status r = Building).
Proof.
  intros Hwf. unfold upsert_building. set (d1 := upsert_row _ _ _ _ _ _ _).
  destruct (get_rollup k start s d1) as [r1|] eqn:E; [|done]. cbn [mbind option_bind]. intros [= <- <-].
  apply find_first_Some in E as [Hr1 Hk1]. unfold d1, upsert_row in *. clear d1. destruct (existsb (has_key k start s) (rollups db0)) eqn:He.
  - cbn [rollups set_rollups] in Hr1. assert (wf (set_rollups (update_rows (λ r, has_key k start s r && true) (claimed_row now n) (rollups db0)) db0)) as Hwf1.
    { destruct Hwf as [W1 W2 W3 W4 W5]. split; cbn; try done; [by rewrite update_rows_fmap|by rewrite update_rows_fmap|].
      intros r' (r & Hr & ->)%update_rows_elem. destruct (_ && _); exact (W3 r Hr). }
    apply update_rows_elem in Hr1 as (r0 & Hr0 & E). rewrite andb_true_r in E.
    assert (has_key k start s r0 = true) as Hk0 by (destruct (has_key k start s r0) eqn:X; [done|congruence]).
    rewrite Hk0 in E. subst r1. split_and!; try done.
    + apply (wf_next _ Hwf1). cbn. apply update_rows_elem. exists r0. by rewrite Hk0.
    + right. exists r0. split_and!; [done|done|by apply has_key_spec|]. cbn. lia.
    + cbn [rollups set_rollups]. intros r' (r & Hr & ->)%update_rows_elem. rewrite andb_true_r.
      destruct (has_key k start s r) eqn:Hk.
      * right. assert (r = r0) as -> by (apply (same_key db0); [done..|]; apply has_key_spec in Hk, Hk0; congruence).
        split_and!; try done. by apply has_key_spec.
      * left. split; [done|]. cbn. intros Eid. rewrite (same_id db0 r r0) in Hk by done. congruence.
  - cbn [rollups] in Hr1. set (row := new_row _ _ _ _ _ _ _ _) in *.
    assert (r1 = row) as ->.
    { apply elem_of_app in Hr1 as [Hr1|Hr1%list_elem_of_singleton]; [|done].
      exfalso. apply (no_key _ _ _ _ He), list_elem_of_fmap. exists r1. split; [|done]. by apply has_key_spec in Hk1. }
    destruct (insert_wf row db0 Hwf) as (N1 & N2 & N3); [done|by apply no_key|]. split_and!; cbn; try done; try lia.
    + destruct Hwf. by split.
    + intros r [Hr| ->%list_elem_of_singleton]%elem_of_app; [left|by right].
      split; [done|]. pose proof (wf_next _ Hwf r Hr). lia.
Qed.

Lemma events_of_spec m db0 :
  NoDup (event_id <$> events_of m db0) ∧
  ∀ i, i ∈ events_of m db0 → next_event_id db0 <= event_id i < next_event_id db0 + Z.of_nat (length (events_of m db0)).
Proof.
  destruct m as [n|id|id n]; cbn.
  - split; [apply NoDup_singleton|]. intros i ->%list_elem_of_singleton. cbn. lia.
  - destruct (summary_nodes db0 !! id) as [old|]; cbn; [|split; [apply NoDup_nil_2|by intros i ?%not_elem_of_nil]].
    split; [apply NoDup_singleton|]. intros i ->%list_elem_of_singleton. cbn. lia.
  - destruct (summary_nodes db0 !! id) as [old|]; cbn; [|split; [apply NoDup_nil_2|by intros i ?%not_elem_of_nil]].
    split; [|intros i [->| ->%list_elem_of_singleton]%elem_of_cons; cbn; lia].
    constructor; [|apply NoDup_singleton]. intros E%list_elem_of_singleton. lia.
Qed.

Lemma mutate_wf m db0 : wf db0 → wf (mutate m db0).
Proof.
  intros [W1 W2 W3 W4 W5]. destruct (events_of_spec m db0) as [E1 E2]. split; cbn; try done.
  - rewrite fmap_app. apply NoDup_app. split_and!; [done| |done].
    intros x (i & -> & Hi)%list_elem_of_fmap (j & E & Hj)%list_elem_of_fmap. specialize (W5 i Hi). specialize (E2 j Hj). lia.
  - intros i [Hi|Hi]%elem_of_app; [specialize (W5 i Hi)|specialize (E2 i Hi)]; lia.
Qed.

(** ** The invariant *)

(** The event covers the day. *)
Definition covers (e : invalidation) (d : Z) : Prop := event_first e <= d <= event_last e.

(** The event is about the node. *)
Definition logs (e : invalidation) (n : node) : Prop :=
  event_scope e = session_id n ∧ covered_start e = span_start n ∧ covered_end e = span_end n.

(** Every difference between two node tables is in the log since [first]. *)
Definition changes_logged (old now : gmap Z node) (log : list invalidation) (first : Z) : Prop :=
  ∀ id, old !! id = now !! id ∨
    ∀ n, old !! id = Some n ∨ now !! id = Some n →
      ∃ e, e ∈ log ∧ first <= event_id e ∧ logs e n.

(** Since the row's claim, every event on its days is still pending. *)
Definition tracked (claims : gmap (Z * Z) (gmap Z node * Z)) (log : list invalidation) (db : database) (r : rollup) : Prop :=
  aligned (kind r) (period_start r) ∧
  ∃ old first, claims !! (rollup_id r, generation r) = Some (old, first) ∧ first <= next_event_id db ∧
    changes_logged old (summary_nodes db) log first ∧
    ∀ e d, e ∈ log → first <= event_id e → event_scope e = scope r →
      in_period (kind r) (period_start r) d → covers e d → pending db e d.

(** The token is not of a later claim than its row's, and can settle it no more. *)
Definition known (db : database) (t : token) : Prop :=
  token_id t < next_rollup_id db ∧ ∀ r, r ∈ rollups db → rollup_id r = token_id t → token_generation t <= generation r.
Definition spent (db : database) (t : token) : Prop := ∀ r, r ∈ rollups db → owns t r = false.

Record sys_inv (s : system) : Prop := {
  si_wf : wf (db s);
  si_nodes : ∀ id n, summary_nodes (db s) !! id = Some n → id < next_node_id (db s);
  si_log : ∀ e, e ∈ log s → event_id e < next_event_id (db s) ∧ covered_start e <= covered_end e;
  si_tracked : ∀ r, r ∈ rollups (db s) → live r → tracked (claims s) (log s) (db s) r;
  si_building : ∀ r, r ∈ rollups (db s) → status r = Building → token_of r ∈ issued s;
  si_issued : NoDup (issued s) ∧ ∀ t, t ∈ issued s → known (db s) t;
  si_settled : NoDup (settled s) ∧ ∀ t, t ∈ settled s → t ∈ issued s ∧ spent (db s) t }.

Lemma initial_sys_inv s : initial s → sys_inv s.
Proof.
  intros (H0 & H1 & H2 & H3 & H4 & H5 & H6). split; [|exact H0|..]; try (rewrite ?H1, ?H3, ?H5, ?H6; by intros ? ?%not_elem_of_nil).
  - split; rewrite ?H1, ?H2; try apply NoDup_nil_2; by intros ? ?%not_elem_of_nil.
  - rewrite H5. split; [apply NoDup_nil_2|by intros ? ?%not_elem_of_nil].
  - rewrite H6. split; [apply NoDup_nil_2|by intros ? ?%not_elem_of_nil].
Qed.

(** *** Mutations *)

Lemma span_order n : span_start n <= span_end n.
Proof. unfold span_start, span_end. lia. Qed.

Lemma changes_logged_mono old now log log' first :
  (∀ e, e ∈ log → e ∈ log') → changes_logged old now log first → changes_logged old now log' first.
Proof. intros Hsub H id. destruct (H id) as [?|Hn]; [by left|right]. intros n Ho. destruct (Hn n Ho) as (e & ? & ?). eauto. Qed.

Lemma mutate_logged m db0 : (∀ id n, summary_nodes db0 !! id = Some n → id < next_node_id db0) → ∀ id,
  summary_nodes db0 !! id = mutated_nodes m db0 !! id ∨
  ∀ n, summary_nodes db0 !! id = Some n ∨ mutated_nodes m db0 !! id = Some n → ∃ e, e ∈ events_of m db0 ∧ logs e n.
Proof.
  intros Hlt id. destruct m as [n0|id0|id0 n0]; cbn.
  - destruct (decide (id = next_node_id db0)) as [->|Hne]; [right|left; by rewrite lookup_insert_ne].
    intros n [Hn|Hn]; [specialize (Hlt _ _ Hn); lia|]. rewrite lookup_insert_eq in Hn. injection Hn as <-.
    eexists. split; [by left|unfold logs; by split_and!].
  - destruct (decide (id = id0)) as [->|Hne]; [|left; by rewrite lookup_delete_ne]. rewrite lookup_delete_eq.
    destruct (summary_nodes db0 !! id0) as [old|]; [right|by left]. intros n [[= <-]|?]; [|done].
    eexists. split; [by left|unfold logs; by split_and!].
  - destruct (summary_nodes db0 !! id0) as [old|] eqn:Ho; [|by left].
    destruct (decide (id = id0)) as [->|Hne]; [right|left; by rewrite lookup_insert_ne]. rewrite Ho, lookup_insert_eq.
    intros n [[= <-]|[= <-]].
    + eexists. split; [by left|unfold logs; by split_and!].
    + eexists. split; [right; by left|unfold logs; by split_and!].
Qed.

Lemma mutate_changes m db0 old log first :
  (∀ id n, summary_nodes db0 !! id = Some n → id < next_node_id db0) → first <= next_event_id db0 →
  changes_logged old (summary_nodes db0) log first →
  changes_logged old (mutated_nodes m db0) (log ++ events_of m db0) first.
Proof.
  intros Hlt Hfirst Hch id.
  assert (∀ n, (∃ e, e ∈ events_of m db0 ∧ logs e n) → ∃ e, e ∈ log ++ events_of m db0 ∧ first <= event_id e ∧ logs e n) as Hnew.
  { intros n (e & He & Hl). exists e. split_and!; [apply elem_of_app; by right| |done].
    destruct (events_of_spec m db0) as [_ H]. specialize (H e He). lia. }
  destruct (mutate_logged m db0 Hlt id) as [E|H].
  - rewrite <-E. by apply (changes_logged_mono _ _ log); [intros e He; apply elem_of_app; left|].
  - right. intros n [Hn|Hn]; [|by apply Hnew, H; right].
    destruct (Hch id) as [Eo|Ho]; [apply Hnew, H; left; congruence|].
    destruct (Ho n (or_introl Hn)) as (e & He & Hf & Hl). exists e. split_and!; [apply elem_of_app; by left|done..].
Qed.

Lemma events_order m db0 e : e ∈ events_of m db0 → covered_start e <= covered_end e.
Proof.
  destruct m as [n|id|id n]; cbn; try destruct (summary_nodes db0 !! id); rewrite ?elem_of_cons, ?elem_of_nil;
    intros He; repeat destruct He as [->|He]; try done; apply span_order.
Qed.

Lemma mutate_inv s m : sys_inv s →
  sys_inv {| db := mutate m (db s); log := log s ++ events_of m (db s); claims := claims s; issued := issued s;
             settled := settled s |}.
Proof.
  intros [Hwf Hnodes Hlog Htr Hb Hi Hs]. destruct (events_of_spec m (db s)) as [_ Hev].
  split; cbn [db log claims issued settled]; try done.
  - by apply mutate_wf.
  - intros id n Hn. cbn in Hn |- *. destruct m as [n0|id0|id0 n0]; cbn in Hn.
    + apply lookup_insert_Some in Hn as [[<- _]|[_ Hn]]; [lia|]. specialize (Hnodes _ _ Hn). lia.
    + apply lookup_delete_Some in Hn as [_ Hn]. by apply Hnodes in Hn.
    + destruct (summary_nodes (db s) !! id0) eqn:Ho; [|by apply Hnodes in Hn].
      apply lookup_insert_Some in Hn as [[<- _]|[_ Hn]]; [by apply Hnodes in Ho|by apply Hnodes in Hn].
  - intros e [He|He]%elem_of_app; cbn; [specialize (Hlog e He); lia|]. split; [specialize (Hev e He); lia|].
    by apply (events_order m (db s)).
  - intros r Hr Hl. destruct (Htr r Hr Hl) as (Ha & old & first & Hc & Hf & Hch & Hp). split; [done|].
    exists old, first. split_and!; [done|cbn; lia|by apply mutate_changes|].
    intros e d [He|He]%elem_of_app Hfe Hsc Hd Hcov.
    + destruct (Hp e d He Hfe Hsc Hd Hcov) as (i & Hin & Hrest). exists i. split; [|done]. cbn. apply elem_of_app. by left.
    + exists e. split_and!; [cbn; apply elem_of_app; by right|done|]. unfold waits, event_cursor.
      assert (next_day e = None) as -> by (destruct m; cbn in He; try destruct (summary_nodes (db s) !! id); set_solver).
      exact Hcov.
Qed.

(** *** Claims *)

Lemma known_claim k start sc now n db0 db1 t u : wf db0 → upsert_building k start sc now n db0 = Some (db1, t) →
  known db0 u → known db1 u ∧ (token_id u ≠ token_id t ∨ token_generation u < token_generation t).
Proof.
  intros Hwf E [Hlt Hgen]. destruct (claim_spec _ _ _ _ _ _ _ _ Hwf E) as (_ & _ & _ & _ & Hn & _ & Hold & Hrows).
  assert (token_id u ≠ token_id t ∨ token_generation u < token_generation t) as Hor.
  { destruct Hold as [?|(r0 & Hr0 & E0 & _ & Hg)]; [left; lia|]. destruct (decide (token_id u = token_id t)) as [Eu|]; [right|by left].
    specialize (Hgen r0 Hr0). lia. }
  split; [|done]. split; [lia|]. intros r Hr Eid. destruct (Hrows r Hr) as [[Hr0 _]|(_ & E1 & E2 & _)]; [by apply Hgen|].
  destruct Hor as [?|?]; [congruence|lia].
Qed.

Lemma spent_claim k start sc now n db0 db1 t u : wf db0 → upsert_building k start sc now n db0 = Some (db1, t) →
  known db0 u → spent db0 u → spent db1 u.
Proof.
  intros Hwf E Hk Hsp r Hr. apply not_true_iff_false. intros Hown. destruct (proj1 (owns_spec u r) Hown) as (E1 & E2 & _ & _).
  destruct (claim_spec _ _ _ _ _ _ _ _ Hwf E) as (_ & _ & _ & _ & _ & _ & _ & Hrows).
  destruct (Hrows r Hr) as [[Hr0 _]|(_ & F1 & F2 & _)]; [by rewrite (Hsp r Hr0) in Hown|].
  destruct (known_claim _ _ _ _ _ _ _ _ u Hwf E Hk) as [_ [?|?]]; [congruence|lia].
Qed.

Lemma claim_inv s k start sc now n db' t : aligned k start → upsert_building k start sc now n (db s) = Some (db', t) →
  sys_inv s →
  sys_inv {| db := db'; log := log s;
             claims := <[(token_id t, token_generation t) := (summary_nodes (db s), next_event_id (db s))]> (claims s);
             issued := issued s ++ [t]; settled := settled s |}.
Proof.
  intros Ha E [Hwf Hnodes Hlog Htr Hb [Hin Hi] [Hsn Hs]].
  destruct (claim_spec _ _ _ _ _ _ _ _ Hwf E) as (Hwf' & Ho & Hsn' & Hne & Hn & Hid & Hold & Hrows).
  pose proof (λ u Hu, known_claim _ _ _ _ _ _ _ _ u Hwf E (Hi u Hu)) as Hknown.
  split; cbn [db log claims issued settled]; try done.
  - intros id nd Hnd. rewrite Hsn' in Hnd. apply Hnodes in Hnd. unfold upsert_building in E.
    destruct (get_rollup _ _ _ _); [|done]. cbn in E. injection E as <- _. unfold upsert_row. by destruct (existsb _ _).
  - intros e He. rewrite Hne. by apply Hlog.
  - intros r Hr Hl. destruct (Hrows r Hr) as [[Hr0 Hnid]|(Hk & E1 & E2 & Hbr)].
    + destruct (Htr r Hr0 Hl) as (Har & old & first & Hc & Hf & Hch & Hp). split; [done|]. exists old, first.
      rewrite lookup_insert_ne by congruence. rewrite Hne, Hsn'. split_and!; [done..|].
      intros e d He Hfe Hsc Hd Hcov. unfold pending. rewrite Ho. by apply Hp.
    + unfold key_of in Hk; injection Hk as <- <- <-. split; [done|]. exists (summary_nodes (db s)), (next_event_id (db s)).
      rewrite E1, E2, lookup_insert_eq. rewrite Hne, Hsn'. split_and!; [done|done|by left|].
      intros e d He Hfe. specialize (Hlog e He). lia.
  - intros r Hr Hbr. apply elem_of_app. destruct (Hrows r Hr) as [[Hr0 Hnid]|(Hk & E1 & E2 & _)]; [left; by apply Hb|right].
    apply list_elem_of_singleton. unfold upsert_building in E. destruct (get_rollup k start sc _) as [r1|] eqn:E3; [|done]. cbn in E.
    injection E as <- <-. apply find_first_Some in E3 as [Hr1 Hk1]. by rewrite (same_id _ r r1 Hwf' Hr Hr1 E1).
  - split.
    + apply NoDup_app. split_and!; [done| |apply NoDup_singleton]. intros u Hu ->%list_elem_of_singleton.
      destruct (Hknown t Hu) as [_ [?|?]]; [done|lia].
    + intros u [Hu| ->%list_elem_of_singleton]%elem_of_app; [by apply Hknown|]. split; [done|].
      intros r Hr Eid. destruct (Hrows r Hr) as [[_ ?]|(_ & _ & E2 & _)]; [done|lia].
  - split; [done|]. intros u Hu. destruct (Hs u Hu) as [Hui Hsp]. split; [apply elem_of_app; by left|].
    by eapply spent_claim; [..|apply Hi|].
Qed.

(** *** Calls *)

Lemma known_run db0 db1 u : evolution db0 db1 → known db0 u → known db1 u.
Proof.
  intros He [Hlt Hgen]. split; [pose proof (el_next _ _ He); lia|]. intros r' Hr' Eid.
  destruct (el_rows _ _ He r' Hr') as [(r & Hr & Hev)|[_ Hid]]; [|lia].
  pose proof (ev_generation _ _ Hev). specialize (Hgen r Hr). rewrite <-(ev_id _ _ Hev) in Hgen. specialize (Hgen Eid). lia.
Qed.

Lemma spent_run db0 db1 u : evolution db0 db1 → spent db0 u → spent db1 u.
Proof.
  intros He Hsp r' Hr'. apply not_true_iff_false. intros Hown. destruct (proj1 (owns_spec u r') Hown) as (_ & _ & _ & Hb).
  destruct (el_rows _ _ He r' Hr') as [(r & Hr & Hev)|[Hl _]]; [|apply Hl; by left].
  rewrite (ev_building _ _ Hev Hb), (Hsp r Hr) in Hown. done.
Qed.

Lemma tracked_run db0 db1 cl lg r' : evolution db0 db1 → accounted db0 db1 → r' ∈ rollups db1 → live r' →
  (∀ r, r ∈ rollups db0 → live r → tracked cl lg db0 r) → tracked cl lg db1 r'.
Proof.
  intros He Hacc Hr' Hl Htr. destruct (el_rows _ _ He r' Hr') as [(r & Hr & Hev)|[Hnl _]]; [|done].
  destruct (ev_live _ _ Hev Hl) as [Hl0 Hg]. destruct (Htr r Hr Hl0) as (Ha & old & first & Hc & Hf & Hch & Hp).
  pose proof (ev_key _ _ Hev) as Hk. unfold key_of in Hk. injection Hk as Ek Es Esc.
  unfold tracked. rewrite Ek, Es, Esc, Hg, (ev_id _ _ Hev), (el_nodes _ _ He), (el_next_event _ _ He).
  split; [done|]. exists old, first. split_and!; [done..|]. intros e d Hin Hfe Hsc Hd Hcov.
  destruct (Hp e d Hin Hfe Hsc Hd Hcov) as (i & Hi & Ei & Hw). destruct (Hacc i d Hi Hw) as [(j & Hj & Ej & Hwj)|Hst].
  - exists j. split_and!; [done|by etransitivity|done].
  - exfalso. destruct Ei as (_ & Esi & _). destruct (Hst (kind r)) as [_ Hs]. apply in_period_iff in Hd; [|done].
    assert (status r' = Stale) as E by (apply Hs; [done|unfold key_of; congruence]). destruct Hl as [?|?]; congruence.
Qed.

(** A call settles a claim only for the token of a row still building, and the
    token is spent after it. *)
Lemma update_owned_spent t f db0 : (∀ r, status (f r) ≠ Building) → spent (update_owned t f db0) t.
Proof.
  intros Hf r (r0 & Hr0 & ->)%update_rows_elem. destruct (owns t r0) eqn:E; [|done].
  apply not_true_iff_false. intros (_ & _ & _ & ?)%owns_spec. by apply (Hf r0).
Qed.

Lemma affected_owned t db0 : affected t db0 = true ↔ ∃ r, r ∈ rollups db0 ∧ owns t r = true.
Proof. unfold affected. rewrite existsb_exists. by setoid_rewrite <-list_elem_of_In. Qed.

Lemma settles_spec c db0 t : t ∈ settles c db0 →
  settles c db0 = [t] ∧ (∃ r, r ∈ rollups db0 ∧ owns t r = true) ∧ spent (run c db0) t.
Proof.
  destruct c as [u text count ids fp now|u e now|u reason|u|d sc|d sc|ts|cutoff limit|ev days|ids|k cursor sc built];
    cbn [settles run]; try by intros ?%not_elem_of_nil.
  - unfold mark_ready. destruct (find_first _ _) as [r|] eqn:Hf; [|unfold raise_if; destruct (negb _); by intros ?%not_elem_of_nil].
    destruct (existsb (pending_in_window r) _); [by intros ?%not_elem_of_nil|].
    destruct (existsb _ (remove_dups ids)); [by intros ?%not_elem_of_nil|].
    intros ->%list_elem_of_singleton. apply find_first_Some in Hf as [Hr Ho]. split_and!; [done|by exists r|].
    intros r1 Hr1. by apply (update_owned_spent u (published_row text count now fp) db0).
  - unfold mark_failed. cbn [fst snd]. destruct (affected u db0) eqn:Ha; [|by intros ?%not_elem_of_nil].
    intros ->%list_elem_of_singleton. split_and!; [done|by apply affected_owned|]. by apply update_owned_spent.
  - unfold defer_incomplete. cbn [fst snd]. destruct (affected u db0) eqn:Ha; [|by intros ?%not_elem_of_nil].
    intros ->%list_elem_of_singleton. split_and!; [done|by apply affected_owned|]. by apply update_owned_spent.
  - unfold resolve_no_source. destruct (affected u db0) eqn:Ha; cbn [fst snd]; [|by intros ?%not_elem_of_nil].
    intros ->%list_elem_of_singleton. split_and!; [done|by apply affected_owned|].
    intros r [Ho _]%list_elem_of_filter. done.
Qed.

Lemma run_inv s c : sys_inv s →
  sys_inv {| db := run c (db s); log := log s; claims := claims s; issued := issued s; settled := settled s ++ settles c (db s) |}.
Proof.
  intros [Hwf Hnodes Hlog Htr Hb [Hin Hi] [Hsn Hs]]. pose proof (run_evolution c (db s) Hwf) as He.
  split; cbn [db log claims issued settled].
  - by apply He.
  - intros id n Hn. rewrite (el_nodes _ _ He) in Hn. rewrite (el_next_node _ _ He). by apply (Hnodes id n).
  - intros e Hin'. rewrite (el_next_event _ _ He). by apply Hlog.
  - intros r Hr Hl. apply (tracked_run (db s)); try done. by apply run_accounted.
  - intros r' Hr' Hbr. destruct (el_rows _ _ He r' Hr') as [(r & Hr & Hev)|[Hl _]]; [|destruct Hl; by left].
    pose proof (ev_building _ _ Hev Hbr) as ->. by apply Hb.
  - split; [done|]. intros t Ht. by apply (known_run (db s)), Hi.
  - split.
    + apply NoDup_app. split_and!; [done| |].
      * intros t Ht Ht'. destruct (settles_spec c (db s) t Ht') as (_ & (r & Hr & Ho) & _).
        destruct (Hs t Ht) as [_ Hsp]. by rewrite (Hsp r Hr) in Ho.
      * destruct (settles c (db s)) as [|t ts] eqn:E; [apply NoDup_nil_2|].
        destruct (settles_spec c (db s) t) as (E' & _); [rewrite E; by left|]. rewrite <-E, E'. apply NoDup_singleton.
    + intros t [Ht|Ht]%elem_of_app; [destruct (Hs t Ht); split; [done|by apply (spent_run (db s))]|].
      destruct (settles_spec c (db s) t Ht) as (_ & (r & Hr & Ho) & Hsp). split; [|done].
      apply owns_spec in Ho as (E1 & E2 & E3 & Hbr). specialize (Hb r Hr Hbr).
      destruct t as [t1 t2 t3]. cbn in *. subst. exact Hb.
Qed.

Lemma reachable_inv s : reachable s → sys_inv s.
Proof.
  intros (s0 & H0 & Hr). apply initial_sys_inv in H0. induction Hr as [s|s1 s2 s3 Hstep _ IH]; [done|]. apply IH.
  destruct Hstep; [by apply mutate_inv|by eapply claim_inv|by apply run_inv].
Qed.

(** ** Properties *)

(** The node belongs to the scope and a day of its span to the period. *)
Definition meets (n : node) (k : period_kind) (start : Z) (s : string) : Prop :=
  session_id n = s ∧ ∃ d, in_period k start d ∧ day_of (span_start n) <= d <= day_of (span_end n).

(** Nothing pending meets the row's period. *)
Definition settled_period (db : database) (r : rollup) : Prop :=
  ∀ i d, i ∈ invalidations db → event_scope i = scope r → in_period (kind r) (period_start r) d → ¬ waits i d.

Lemma logs_covers e n d : logs e n → day_of (span_start n) <= d <= day_of (span_end n) → covers e d.
Proof. intros (_ & E1 & E2). unfold covers, event_first, event_last. rewrite E1, E2. lia. Qed.

(** No event since the claim: the nodes of the period are those of the claim. *)
Lemma unchanged_nodes old now log first r :
  changes_logged old now log first →
  (∀ e d, e ∈ log → first <= event_id e → event_scope e = scope r → in_period (kind r) (period_start r) d → ¬ covers e d) →
  ∀ id n, meets n (kind r) (period_start r) (scope r) → old !! id = Some n ↔ now !! id = Some n.
Proof.
  intros Hch Hno id n (Hs & d & Hd & Hspan). destruct (Hch id) as [->|Hl]; [done|].
  assert (old !! id = Some n ∨ now !! id = Some n → False) as Hn; [|tauto].
  intros Hor. destruct (Hl n Hor) as (e & He & Hf & Hlog). apply (Hno e d He Hf); [destruct Hlog; congruence|done|].
  by eapply logs_covers.
Qed.

(** C2: a rollup that is being built or ready lags behind the summary nodes only while
    the outbox says so: when no pending event reaches a day of its period, the nodes
    of its scope on those days are exactly the ones there were at its claim, whatever
    every writer, builder and maintenance pass did since. *)
Theorem ready_rollup_current s r :
  reachable s → r ∈ rollups (db s) → live r → settled_period (db s) r →
  ∃ old first, claims s !! (rollup_id r, generation r) = Some (old, first) ∧
    ∀ id n, meets n (kind r) (period_start r) (scope r) → old !! id = Some n ↔ summary_nodes (db s) !! id = Some n.
Proof.
  intros Hs Hr Hl Hset. destruct (reachable_inv s Hs) as [_ _ _ Htr _ _ _].
  destruct (Htr r Hr Hl) as (Ha & old & first & Hc & _ & Hch & Hp). exists old, first. split; [done|].
  apply (unchanged_nodes old _ (log s) first r Hch). intros e d He Hf Hsc Hd Hcov.
  destruct (Hp e d He Hf Hsc Hd Hcov) as (i & Hi & (_ & Esc & _) & Hw). by apply (Hset i d Hi); [congruence|..].
Qed.

Lemma pending_seen r i e d : same_span i e → covered_start e <= covered_end e → event_scope e = scope r →
  in_period (kind r) (period_start r) d → covers e d → pending_in_window r i = true.
Proof.
  intros (_ & Es & E1 & E2) Hle Hsc [Hd1 Hd2] [Hc1 Hc2]. unfold pending_in_window, window_start, window_end, event_first, event_last, day_of in *.
  rewrite !andb_true_iff, !bool_decide_eq_true, Es, E1, E2.
  pose proof (Z.div_le_mono (covered_start e) (covered_end e) 86400). rewrite Z.min_l, Z.max_r in * by lia.
  pose proof (Z.div_mod (covered_start e) 86400). pose proof (Z.mod_pos_bound (covered_start e) 86400).
  pose proof (Z.div_mod (covered_end e) 86400). pose proof (Z.mod_pos_bound (covered_end e) 86400).
  split_and!; [done|lia|lia].
Qed.

(** No pending event reaches the window: none on the period came since the claim. *)
Lemma silent_window s r : sys_inv s → r ∈ rollups (db s) → live r → existsb (pending_in_window r) (invalidations (db s)) = false →
  ∃ old first, claims s !! (rollup_id r, generation r) = Some (old, first) ∧
    changes_logged old (summary_nodes (db s)) (log s) first ∧
    ∀ e d, e ∈ log s → first <= event_id e → event_scope e = scope r → in_period (kind r) (period_start r) d → ¬ covers e d.
Proof.
  intros Hinv Hr Hl Hp. destruct (si_tracked _ Hinv r Hr Hl) as (_ & old & first & Hc & _ & Hch & Hpend).
  exists old, first. split_and!; [done|done|]. intros e d Hin Hfe Hsc Hd Hcov.
  destruct (Hpend e d Hin Hfe Hsc Hd Hcov) as (i & Hi & Hsame & _).
  assert (pending_in_window r i = true) as Hpi by (apply (pending_seen r i e d); [done|by apply Hinv|done..]).
  apply not_true_iff_false in Hp. apply Hp, existsb_exists. exists i. split; [by apply list_elem_of_In|done].
Qed.

Lemma owned_row t db0 db1 r f : wf db0 → r ∈ rollups db0 → owns t r = true → db1 = update_owned t f db0 →
  f r ∈ rollups db1.
Proof. intros Hwf Hr Ho ->. apply update_rows_elem. exists r. by rewrite Ho. Qed.

(** After relinking a rollup its sources are exactly the given ones. *)
Lemma relinked_sources id ids db0 db1 :
  source_node_ids id (set_sources (filter (λ x : Z * Z, x.1 ≠ id) (rollup_sources db0) ∪ list_to_set (pair id <$> remove_dups ids)) db1) =
  list_to_set ids.
Proof.
  unfold source_node_ids. cbn [rollup_sources set_sources]. apply set_eq. intros i. rewrite elem_of_map, elem_of_list_to_set. split.
  - intros ([x y] & -> & [Ex [[Hx _]%elem_of_filter|Hin]%elem_of_union]%elem_of_filter); [done|].
    apply elem_of_list_to_set, list_elem_of_fmap in Hin as (z & E & Hz). rewrite elem_of_remove_dups in Hz.
    injection E as _ ->. exact Hz.
  - intros Hid. exists (id, i). split; [done|]. apply elem_of_filter. split; [done|]. apply elem_of_union. right.
    apply elem_of_list_to_set, list_elem_of_fmap. exists i. split; [done|]. by apply elem_of_remove_dups.
Qed.


(** A spent token stays spent. *)
Lemma spent_later s s' t : reachable s → rtc step s s' → t ∈ issued s → spent (db s) t → spent (db s') t.
Proof.
  intros Hs%reachable_inv Hr. induction Hr as [s|s1 s2 s3 Hstep _ IH]; [done|]. intros Ht Hsp.
  destruct (si_issued _ Hs) as [_ Hk]. specialize (Hk t Ht). pose proof (si_wf _ Hs) as Hwf.
  destruct Hstep as [m s|k start sc now n s db' u Ha E|c s]; apply IH; cbn [db issued].
  - by apply mutate_inv.
  - done.
  - done.
  - by eapply claim_inv.
  - apply elem_of_app. by left.
  - by eapply spent_claim.
  - by apply run_inv.
  - done.
  - eapply spent_run; [|done]. by apply run_evolution.
Qed.

(** C14: a claim is settled at most once: over any interleaving no token makes two of
    the calls that publish, fail, defer or drop a build answer [True], each that did
    was handed out, and a token whose row was published, reclaimed, invalidated or
    claimed again never owns a row again. *)
Theorem claims_settled_once s s' t :
  reachable s → rtc step s s' →
  NoDup (settled s') ∧ (∀ u, u ∈ settled s' → u ∈ issued s' ∧ spent (db s') u) ∧
  (t ∈ issued s → spent (db s) t → spent (db s') t).
Proof.
  intros Hs Hr. assert (reachable s') as Hs'.
  { destruct Hs as (s0 & H0 & H1). exists s0. split; [done|by etransitivity]. }
  destruct (si_settled _ (reachable_inv s' Hs')) as [H1 H2]. split_and!; [done|done|]. by apply spent_later.
Qed.

Definition drain_pass (event_limit day_budget : Z) (db : database) : database :=
  (drain_invalidations event_limit day_budget db).1.

(** C26: draining ends and loses nothing: with limits of at least one, as many passes as
    the backlog empty the outbox, and then every day of every event that was pending
    has its day, week and month rollups stored and stale. *)
Theorem drains_empty_outbox event_limit day_budget db0 :
  wf db0 → 1 <= event_limit → 1 <= day_budget →
  let db1 := Nat.iter (backlog db0) (drain_pass event_limit day_budget) db0 in
  invalidations db1 = [] ∧ ∀ i d, i ∈ invalidations db0 → waits i d → staled db1 (event_scope i) d.
Proof.
  intros Hwf Hev Hdays. cbv zeta.
  assert (∀ n db0, wf db0 → (backlog db0 <= n)%nat →
    let db1 := Nat.iter n (drain_pass event_limit day_budget) db0 in
    invalidations db1 = [] ∧ staling db0 db1 ∧ accounted db0 db1) as H.
  { clear db0 Hwf. induction n as [|n IH]; intros db0 Hwf Hn; cbv zeta.
    - cbn. unfold backlog in Hn. destruct (invalidations db0) as [|i es] eqn:E; [|cbn in Hn; lia]. split_and!; [done..|].
      intros i d Hi. rewrite E in Hi. by apply not_elem_of_nil in Hi.
    - rewrite Nat.iter_succ_r. destruct (drain_spec event_limit day_budget db0 Hwf) as (H1 & H2 & H3).
      fold (drain_pass event_limit day_budget db0) in H1, H2, H3.
      destruct (IH (drain_pass event_limit day_budget db0)) as (I1 & I2 & I3); [by apply H1| |].
      + destruct (decide (invalidations db0 = [])) as [E|Hne]; [|specialize (H3 Hev Hdays Hne); lia].
        assert (backlog (drain_pass event_limit day_budget db0) = 0%nat) as ->; [|lia].
        unfold drain_pass, drain_invalidations. rewrite E. rewrite take_nil. destruct (_ || _); cbn; unfold backlog; by rewrite E.
      + split_and!; [done|by etransitivity|by eapply accounted_trans]. }
  destruct (H (backlog db0) db0 Hwf (Nat.le_refl _)) as (H1 & _ & H2). split; [done|]. intros i d Hi Hw.
  destruct (H2 i d Hi Hw) as [(j & Hj & _)|Hst]; [|done]. rewrite H1 in Hj. by apply not_elem_of_nil in Hj.
Qed.

(** ** Witnesses *)

(** A node on 2024-02-29 is stored, its event drained, the day claimed and
    published. *)
Definition sample_node : node :=
  {| session_id := "s"; depth := 0; node_summary := [116]; source_ids := [1]; from_nodes := false;
     earliest_at := Some (19782 * 86400); latest_at := Some (19782 * 86400 + 60); created_at := 19782 * 86400 + 100 |}.
Definition empty_database : database :=
  {| rollups := []; rollup_sources := ∅; invalidations := []; summary_nodes := ∅; cursors := [];
     next_rollup_id := 1; next_event_id := 1; next_node_id := 1 |}.

Definition after_call (c : call) (s : system) : system :=
  {| db := run c (db s); log := log s; claims := claims s; issued := issued s; settled := settled s ++ settles c (db s) |}.
Definition after_mutation (m : mutation) (s : system) : system :=
  {| db := mutate m (db s); log := log s ++ events_of m (db s); claims := claims s; issued := issued s; settled := settled s |}.
Definition after_claim (k : period_kind) (start : Z) (sc : string) (now : Z) (n : string) (s : system) : system :=
  match upsert_building k start sc now n (db s) with
  | Some (db', t) =>
      {| db := db'; log := log s;
         claims := <[(token_id t, token_generation t) := (summary_nodes (db s), next_event_id (db s))]> (claims s);
         issued := issued s ++ [t]; settled := settled s |}
  | None => s
  end.

Lemma after_claim_step k start sc now n s :
  aligned k start → is_Some (upsert_building k start sc now n (db s)) → step s (after_claim k start sc now n s).
Proof. intros Ha [[db' t] E]. unfold after_claim. rewrite E. exact (step_claim k start sc now n s db' t Ha E). Qed.

Definition sample_start : system := {| db := empty_database; log := []; claims := ∅; issued := []; settled := [] |}.
Definition sample_drained : system := after_call (DrainInvalidations 256 256) (after_mutation (InsertNode sample_node) sample_start).
Definition sample_claimed : system := after_claim Day 19782 "s" 7 "n" sample_drained.
Definition sample_token : token := {| token_id := 1; token_generation := 1; nonce := "n" |}.
Definition sample_ready : system := after_call (MarkReady sample_token [115; 117; 109] 3 [1] "f" 8) sample_claimed.

Lemma sample_claimed_reachable : reachable sample_claimed.
Proof.
  exists sample_start. split; [split_and!; try done|].
  eapply rtc_l; [apply (step_mutate (InsertNode sample_node))|]. eapply rtc_l; [apply (step_call (DrainInvalidations 256 256))|].
  apply rtc_once. apply after_claim_step; [done|]. vm_compute. by eexists.
Qed.
Lemma sample_ready_reachable : reachable sample_ready.
Proof.
  destruct sample_claimed_reachable as (s0 & H0 & Hr). exists s0. split; [done|]. eapply rtc_r; [exact Hr|]. apply step_call.
Qed.

Definition sample_row : rollup := default (new_row 0 Day 0 "" Stale None None "") (get_rollup Day 19782 "s" (db sample_ready)).

Lemma sample_row_ready : sample_row ∈ rollups (db sample_ready) ∧ live sample_row ∧ settled_period (db sample_ready) sample_row.
Proof.
  split_and!.
  - apply (find_first_Some (λ r, has_key Day 19782 "s" r = true)). vm_compute. reflexivity.
  - right. vm_compute. reflexivity.
  - intros i d Hi. assert (invalidations (db sample_ready) = []) as E by (vm_compute; reflexivity).
    rewrite E in Hi. by apply not_elem_of_nil in Hi.
Qed.

Lemma ready_rollup_current_witness :
  status sample_row = Ready ∧
  ∃ old first, claims sample_ready !! (1, 1) = Some (old, first) ∧ old !! 1 = Some sample_node ∧
    summary_nodes (db sample_ready) !! 1 = Some sample_node.
Proof.
  split; [vm_compute; reflexivity|]. destruct sample_row_ready as (H1 & H2 & H3).
  destruct (ready_rollup_current sample_ready sample_row sample_ready_reachable H1 H2 H3) as (old & first & Hc & Hn).
  exists old, first. split; [exact Hc|].
  assert (summary_nodes (db sample_ready) !! 1 = Some sample_node) as E by (vm_compute; reflexivity).
  split; [|exact E]. apply Hn; [|exact E]. split; [reflexivity|]. exists 19782. split.
  - apply in_period_iff; reflexivity.
  - vm_compute. split; discriminate.
Defined.


Lemma claims_settled_once_witness :
  settled sample_ready = [sample_token] ∧ NoDup (settled sample_ready) ∧ spent (db sample_ready) sample_token.
Proof.
  assert (settled sample_ready = [sample_token]) as E by (vm_compute; reflexivity). split; [exact E|].
  destruct (claims_settled_once sample_claimed sample_ready sample_token sample_claimed_reachable) as (H1 & H2 & _).
  - apply rtc_once. apply step_call.
  - split; [exact H1|]. apply H2. rewrite E. left.
Defined.

Lemma drains_empty_outbox_witness :
  let db0 := db (after_mutation (InsertNode sample_node) sample_start) in
  wf db0 ∧ backlog db0 = 2%nat ∧ invalidations (Nat.iter (backlog db0) (drain_pass 1 1) db0) = [].
Proof.
  assert (wf (db (after_mutation (InsertNode sample_node) sample_start))) as Hwf.
  { apply mutate_wf. split; cbn; try apply NoDup_nil_2; intros ? ?%not_elem_of_nil; done. }
  split; [exact Hwf|]. split; [vm_compute; reflexivity|].
  apply (drains_empty_outbox 1 1 _ Hwf); lia.
Defined.
