(* ===== verification/Truncation.v ===== *)
(** The last level of summarization (escalation.py [_deterministic_truncate]): cut a
    text to a number of tokens, with the encoder or, without one, by the estimate of
    tokens.py.

    A text is a list of code points.  The encoder is an argument; a call of it that
    raises is [None].  The quotients the code computes in floating point are the exact
    ones rounded down: they agree while lengths and budgets stay below 2^53. *)

From S2P Require Import Prelude Chunking.
From stdpp Require Import options.

#[local] Open Scope Z_scope.

(** ** Counting *)

Record encoder := { encode : text → option (list Z); decode : list Z → option text }.

Definition CHARS_PER_TOKEN : Z := 4.

(** [sum(1 for ch in text if ord(ch) > 127)] *)
Definition non_ascii (t : text) : Z := Z.of_nat (tally (λ c, bool_decide (127 < c)) t).
Definition text_length (t : text) : Z := Z.of_nat (length t).

(** The divisors 1.5, 2.5 and 4, by the share of code points beyond ASCII: a numerator
    and a denominator. *)
Definition divisor (t : text) : Z * Z :=
  if bool_decide (text_length t <= 2 * non_ascii t) then (3, 2)
  else if bool_decide (text_length t <= 5 * non_ascii t) then (5, 2)
  else (CHARS_PER_TOKEN, 1).

Definition fallback_token_estimate (t : text) : Z :=
  if bool_decide (text_length t = 0) then 0
  else if bool_decide (non_ascii t = 0) then text_length t / CHARS_PER_TOKEN + 1
  else text_length t * (divisor t).2 / (divisor t).1 + 1.

Section counting.
Variable enc : option encoder.

Definition encoded (t : text) : option (list Z) := e ← enc; encode e t.

Definition count_tokens (t : text) : Z :=
  if bool_decide (t = []) then 0
  else match encoded t with Some ts => Z.of_nat (length ts) | None => fallback_token_estimate t end.

(** ** Cutting *)

(** [text[:n]], [text[-n:]] *)
Definition head_of {A} (n : Z) (l : list A) : list A := take (Z.to_nat n) l.
Definition tail_of {A} (n : Z) (l : list A) : list A := drop (length l - Z.to_nat n) l.
Definition cut {A} (from_end : bool) (n : Z) (l : list A) : list A := if from_end then tail_of n l else head_of n l.

(** [for _ in range(8)], and the return after it. *)
Fixpoint shrink (rounds : nat) (t : text) (max_tokens : Z) (from_end : bool) (char_budget : Z) : text :=
  match rounds with
  | O => cut from_end char_budget t
  | S rounds =>
      let candidate := cut from_end char_budget t in
      let estimated := count_tokens candidate in
      if bool_decide (estimated <= max_tokens) || bool_decide (char_budget <= 1) then candidate
      else shrink rounds t max_tokens from_end (Z.max 1 (char_budget * max_tokens / estimated - 1))
  end.

(** [max(1, int(max_tokens * divisor))] *)
Definition char_budget (t : text) (max_tokens : Z) : Z := Z.max 1 (max_tokens * (divisor t).1 / (divisor t).2).

(** The [try] block: [None] where it raises. *)
Definition cut_encoded (t : text) (max_tokens : Z) (from_end : bool) : option text :=
  e ← enc; tokens ← encode e t;
  if bool_decide (Z.of_nat (length tokens) <= max_tokens) then Some t else decode e (cut from_end max_tokens tokens).

Definition truncate_text_to_tokens (t : text) (max_tokens : Z) (from_end : bool) : text :=
  if bool_decide (max_tokens <= 0) || bool_decide (t = []) then []
  else
    match cut_encoded t max_tokens from_end with
    | Some s => s
    | None =>
        if bool_decide (count_tokens t <= max_tokens) then t
        else shrink 8 t max_tokens from_end (char_budget t max_tokens)
    end.

Definition L3_TRUNCATION_MARKER : text :=
  [10; 10] ++ ascii_text "[...deterministic truncation " ++ [8212] ++ ascii_text " details available via lcm_expand...]" ++ [10; 10].

Definition assemble (t : text) (body_tokens : Z) : text :=
  let head_tokens := body_tokens / 2 in
  truncate_text_to_tokens t head_tokens false ++ L3_TRUNCATION_MARKER
  ++ truncate_text_to_tokens t (body_tokens - head_tokens) true.

(** [while low <= high], with a bound on its rounds. *)
Fixpoint bisect (rounds : nat) (t : text) (max_tokens : Z) (best : text) (low high : Z) : option text :=
  match rounds with
  | O => None
  | S rounds =>
      if bool_decide (low <= high) then
        let body_tokens := (low + high) / 2 in
        let candidate := assemble t body_tokens in
        if bool_decide (count_tokens candidate <= max_tokens) then bisect rounds t max_tokens candidate (body_tokens + 1) high
        else bisect rounds t max_tokens best low (body_tokens - 1)
      else Some best
  end.

Definition deterministic_truncate (t : text) (max_tokens : Z) : option text :=
  if bool_decide (count_tokens t <= max_tokens) then Some t
  else
    let marker_tokens := count_tokens L3_TRUNCATION_MARKER in
    if bool_decide (max_tokens <= marker_tokens + 4) then Some (truncate_text_to_tokens t max_tokens false)
    else
      let high := max_tokens - marker_tokens in
      bisect (S (S (Z.to_nat high))) t max_tokens L3_TRUNCATION_MARKER 0 high.

End counting.

Example marker_estimate : count_tokens None L3_TRUNCATION_MARKER = 18.
Proof. vm_compute. reflexivity. Qed.
Example truncate_short : deterministic_truncate None (ascii_text "abcdefghijklmnop") 2 = Some (ascii_text "abcd").
Proof. vm_compute. reflexivity. Qed.

(** ** The estimate *)

(** The classes of texts by density; [ratio] gives code points per token. *)
Definition density (t : text) : nat :=
  if bool_decide (text_length t <= 2 * non_ascii t) then 0%nat
  else if bool_decide (text_length t <= 5 * non_ascii t) then 1%nat else 2%nat.
Definition ratio (q : nat) : Z * Z := match q with 0%nat => (3, 2) | 1%nat => (5, 2) | _ => (4, 1) end.

Lemma divisor_density t : divisor t = ratio (density t).
Proof. unfold divisor, density. by repeat case_bool_decide. Qed.

Lemma density_bound t : (density t < 3)%nat.
Proof. unfold density. repeat case_bool_decide; lia. Qed.

Lemma ratio_pos q : 0 < (ratio q).1 ∧ 0 < (ratio q).2.
Proof. by destruct q as [|[|q]]. Qed.

(** Denser classes have fewer code points per token. *)
Lemma ratio_mono q q' : (q <= q')%nat → (ratio q).1 * (ratio q').2 <= (ratio q').1 * (ratio q).2.
Proof. intros Hq. destruct q as [|[|q]], q' as [|[|q']]; cbn; lia. Qed.

Lemma estimate_density t : t ≠ [] →
  fallback_token_estimate t = text_length t * (ratio (density t)).2 / (ratio (density t)).1 + 1.
Proof.
  intros Hne. assert (0 < text_length t) as Hl by (unfold text_length; destruct t; [done|cbn [length]; lia]).
  unfold fallback_token_estimate. rewrite bool_decide_eq_false_2 by lia. rewrite divisor_density.
  case_bool_decide as Hz; [|done]. unfold density. rewrite Hz, !bool_decide_eq_false_2 by lia.
  cbn [ratio fst snd]. by rewrite Z.mul_1_r.
Qed.

Lemma estimate_count t : t ≠ [] → count_tokens None t = fallback_token_estimate t.
Proof. intros Hne. unfold count_tokens. by rewrite bool_decide_eq_false_2. Qed.

(** Fewer code points than [max_tokens] at a class's ratio: such a text fits. *)
Definition room (q : nat) (n max_tokens : Z) : Prop := n * (ratio q).2 < (ratio q).1 * max_tokens.

Lemma room_mono q q' n m : (q <= q')%nat → 0 <= n → room q n m → room q' n m.
Proof.
  unfold room. intros Hq Hn Hr. pose proof (ratio_mono q q' Hq). destruct (ratio_pos q), (ratio_pos q').
  apply (Z.mul_lt_mono_pos_r (ratio q).2); [done|].
  assert (n * ((ratio q).1 * (ratio q').2) <= n * ((ratio q').1 * (ratio q).2)) by (apply Z.mul_le_mono_nonneg_l; lia).
  assert ((n * (ratio q).2) * (ratio q').2 < ((ratio q).1 * m) * (ratio q').2) by (apply Z.mul_lt_mono_pos_r; lia).
  destruct q as [|[|q]], q' as [|[|q']]; cbn in *; lia.
Qed.

Lemma room_fits t m : t ≠ [] → room (density t) (text_length t) m → count_tokens None t <= m.
Proof.
  intros Hne Hr. rewrite estimate_count, estimate_density by done. destruct (ratio_pos (density t)) as [H1 _].
  pose proof (Z.div_lt_upper_bound _ _ m H1 Hr). lia.
Qed.

(** What a round leaves has room for the class of what it cut. *)
Lemma shrunk_room q n m : 0 <= n → 0 < m →
  room q (n * m / (n * (ratio q).2 / (ratio q).1 + 1) - 1) m.
Proof.
  intros Hn Hm. unfold room. destruct (ratio_pos q) as [H1 H2]. set (a := (ratio q).1) in *. set (b := (ratio q).2) in *.
  pose proof (Z.div_mod (n * b) a). pose proof (Z.mod_pos_bound (n * b) a H1).
  assert (0 <= n * b / a) by (apply Z.div_pos; nia). set (e := n * b / a + 1) in *.
  assert (n * b < a * e) by (unfold e; lia). pose proof (Z.mul_div_le (n * m) e). set (x := n * m / e) in *.
  assert (x * b < a * m); [|lia]. apply (Z.mul_lt_mono_pos_r e); [lia|].
  assert (e * x * b <= n * m * b) by (apply Z.mul_le_mono_nonneg_r; lia).
  assert (n * b * m < a * e * m) by (apply Z.mul_lt_mono_pos_r; lia). lia.
Qed.

(** ** Cutting fits *)

Lemma cut_length {A} fe n (l : list A) : 0 <= n → n <= Z.of_nat (length l) → Z.of_nat (length (cut fe n l)) = n.
Proof. intros H0 Hn. unfold cut, tail_of, head_of. destruct fe; [rewrite length_drop|rewrite length_take]; lia. Qed.

Lemma shrink_fits rounds : ∀ t m fe n j,
  1 <= m → 1 <= n <= text_length t → (j < rounds)%nat → n = 1 ∨ (∀ q, (j <= q < 3)%nat → room q n m) →
  count_tokens None (shrink None rounds t m fe n) <= m.
Proof.
  induction rounds as [|rounds IH]; intros t m fe n j Hm Hn Hj Hr; [lia|]. cbn [shrink].
  assert (text_length (cut fe n t) = n) as Hl by (apply cut_length; unfold text_length in *; lia).
  assert (cut fe n t ≠ []) as Hne by (intros E; rewrite E in Hl; unfold text_length in Hl; cbn in Hl; lia).
  case_bool_decide as Hf; [done|]. cbn [orb]. case_bool_decide as H1.
  - exfalso. apply Hf. assert (n = 1) as -> by lia. rewrite estimate_count, estimate_density, Hl by done.
    assert (1 * (ratio (density (cut fe 1 t))).2 / (ratio (density (cut fe 1 t))).1 = 0) as ->; [|lia].
    by destruct (density _) as [|[|?]].
  - set (q := density (cut fe n t)). pose proof (density_bound (cut fe n t)). destruct Hr as [->|Hr]; [lia|].
    assert (q < j)%nat as Hq.
    { destruct (decide (q < j)%nat) as [?|Hge]; [done|]. exfalso. apply Hf, room_fits; [done|]. rewrite Hl. apply Hr. unfold q in *. lia. }
    assert (count_tokens None (cut fe n t) = n * (ratio q).2 / (ratio q).1 + 1) as E
      by (by rewrite estimate_count, estimate_density, Hl).
    rewrite E in Hf |- *. pose proof (shrunk_room q n m ltac:(lia) ltac:(lia)) as Hroom.
    assert (n * m / (n * (ratio q).2 / (ratio q).1 + 1) <= n).
    { apply Z.div_le_upper_bound; [lia|]. nia. }
    apply (IH t m fe _ q Hm); [lia|lia|].
    destruct (decide (n * m / (n * (ratio q).2 / (ratio q).1 + 1) - 1 <= 1)) as [Hs|Hs]; [left; lia|right].
    intros q' Hq'. rewrite Z.max_r by lia. apply (room_mono q); [lia|lia|done].
Qed.

(** Without an encoder every cut fits, eight rounds being more than the three classes. *)
Lemma truncate_text_fits t m fe : 0 <= m → count_tokens None (truncate_text_to_tokens None t m fe) <= m.
Proof.
  intros Hm. unfold truncate_text_to_tokens. case_bool_decide as H0; cbn [orb]; [exact Hm|].
  case_bool_decide as Hne; [exact Hm|]. change (cut_encoded None t m fe) with (@None text).
  case_bool_decide as Hc; [done|].
  assert (1 <= text_length t) as Hl by (unfold text_length; destruct t; [done|cbn [length]; lia]).
  apply (shrink_fits 8 t m fe _ 3); [lia| |lia|right; lia].
  rewrite estimate_count, estimate_density in Hc by done. unfold char_budget. rewrite divisor_density.
  destruct (ratio_pos (density t)) as [H1 H2]. split; [lia|]. apply Z.max_lub; [done|].
  apply Z.div_le_upper_bound; [done|].
  assert (m <= text_length t * (ratio (density t)).2 / (ratio (density t)).1) as Hd by lia.
  pose proof (Z.mul_div_le (text_length t * (ratio (density t)).2) (ratio (density t)).1 H1).
  pose proof (Z.mul_le_mono_nonneg_l _ _ (ratio (density t)).1 ltac:(lia) Hd). lia.
Qed.

(** ** The level fits *)

Lemma bisect_spec enc rounds : ∀ t m best low high, (Z.to_nat (high + 1 - low) < rounds)%nat →
  count_tokens enc best <= m →
  ∃ s, bisect enc rounds t m best low high = Some s ∧ count_tokens enc s <= m ∧ (s = best ∨ ∃ b, low <= b <= high ∧ s = assemble enc t b).
Proof.
  induction rounds as [|rounds IH]; intros t m best low high Hr Hb; [lia|]. cbn [bisect].
  case_bool_decide as Hle; [|exists best; split_and!; [done|done|by left]].
  assert (low <= (low + high) / 2 <= high) as Hmid.
  { split; [apply Z.div_le_lower_bound|apply Z.div_le_upper_bound]; lia. }
  case_bool_decide as Hc.
  - destruct (IH t m (assemble enc t ((low + high) / 2)) ((low + high) / 2 + 1) high) as (s & E & H1 & [->|(b & Hb' & ->)]); [lia|done|..].
    + exists (assemble enc t ((low + high) / 2)). split_and!; [done|done|right]. by exists ((low + high) / 2).
    + exists (assemble enc t b). split_and!; [done|done|right]. exists b. split; [lia|done].
  - destruct (IH t m best low ((low + high) / 2 - 1)) as (s & E & H1 & [->|(b & Hb' & ->)]); [lia|done|..].
    + exists best. split_and!; [done|done|by left].
    + exists (assemble enc t b). split_and!; [done|done|right]. exists b. split; [lia|done].
Qed.

Lemma cut_head {A} n (l : list A) : cut false n l `prefix_of` l.
Proof. exists (drop (Z.to_nat n) l). unfold cut, head_of. by rewrite take_drop. Qed.
Lemma cut_tail {A} n (l : list A) : cut true n l `suffix_of` l.
Proof. exists (take (length l - Z.to_nat n) l). unfold cut, tail_of. by rewrite take_drop. Qed.

Lemma shrink_cut rounds : ∀ t m fe n, ∃ n', shrink None rounds t m fe n = cut fe n' t.
Proof.
  induction rounds as [|rounds IH]; intros t m fe n; cbn [shrink]; [by exists n|].
  destruct (_ || _); [by exists n|]. apply IH.
Qed.

Lemma truncate_text_cut t m fe : ∃ n, truncate_text_to_tokens None t m fe = cut fe n t.
Proof.
  assert (∃ n, t = cut fe n t) as Hall.
  { exists (text_length t). unfold text_length, cut, head_of, tail_of. rewrite Nat2Z.id, Nat.sub_diag.
    by destruct fe; [|rewrite take_ge]. }
  unfold truncate_text_to_tokens. destruct (_ || _).
  - exists 0. unfold cut, head_of, tail_of. destruct fe; [|done]. rewrite Z2Nat.inj_0, Nat.sub_0_r. by rewrite drop_all.
  - change (cut_encoded None t m fe) with (@None text). case_bool_decide; [done|]. apply shrink_cut.
Qed.

(** What the level keeps of a text: all of it, a head, or a head and a tail around the
    marker. *)
Definition cut_of (t s : text) : Prop :=
  s = t ∨ s `prefix_of` t ∨ ∃ h l, s = h ++ L3_TRUNCATION_MARKER ++ l ∧ h `prefix_of` t ∧ l `suffix_of` t.

Lemma bisect_or_cut enc t m :
  0 <= m → enc = None ∨ count_tokens enc L3_TRUNCATION_MARKER + 4 < m →
  ∃ s, deterministic_truncate enc t m = Some s ∧ count_tokens enc s <= m ∧
    (count_tokens enc t <= m → s = t) ∧ (enc = None → cut_of t s).
Proof.
  intros Hm Henc. unfold deterministic_truncate. case_bool_decide as Ht.
  { exists t. split_and!; [done|done|done|by left]. }
  case_bool_decide as Hs.
  - destruct Henc as [->|?]; [|lia]. exists (truncate_text_to_tokens None t m false). split_and!; [done|by apply truncate_text_fits|done|].
    intros _. right. left. destruct (truncate_text_cut t m false) as [n ->]. apply cut_head.
  - destruct (bisect_spec enc (S (S (Z.to_nat (m - count_tokens enc L3_TRUNCATION_MARKER)))) t m L3_TRUNCATION_MARKER 0
      (m - count_tokens enc L3_TRUNCATION_MARKER)) as (s & E & Hc & Hsh); [lia|lia|].
    exists s. split_and!; [done|done|done|]. intros ->. right. right. destruct Hsh as [->|(b & _ & ->)].
    + exists [], []. split_and!; [by rewrite app_nil_r|apply prefix_nil|apply suffix_nil].
    + unfold assemble. destruct (truncate_text_cut t (b / 2) false) as [n ->], (truncate_text_cut t (b - b / 2) true) as [n' ->].
      exists (cut false n t), (cut true n' t). split_and!; [done|apply cut_head|apply cut_tail].
Qed.


(** Forty CJK characters at the budgets of 27 and 5 tokens. *)
Definition dense_text : text := replicate 40 20013 ++ ascii_text "tail".

