(* ===== verification/SpendGuard.v ===== *)
(** The spend guard of the summarizer (escalation.py [SummarySpendGuard]): a sliding
    window over the calls granted, and a backoff once the window is full.

    Every method runs under the guard's lock, so it is one function of the state;
    [now] is the clock it reads.  The ghost of the theorems is the list of the times
    at which a call was granted. *)

From S2P Require Import Prelude.
From stdpp Require Import options.

#[local] Open Scope Z_scope.

(** ** Definitions *)

Record guard := { max_calls : Z; window_seconds : Z; backoff_seconds : Z; calls : list Z; backoff_until : Z }.

Definition set_calls (cs : list Z) (g : guard) : guard :=
  {| max_calls := max_calls g; window_seconds := window_seconds g; backoff_seconds := backoff_seconds g;
     calls := cs; backoff_until := backoff_until g |}.
Definition set_backoff (t : Z) (g : guard) : guard :=
  {| max_calls := max_calls g; window_seconds := window_seconds g; backoff_seconds := backoff_seconds g;
     calls := calls g; backoff_until := t |}.

Definition recent (cutoff : Z) (cs : list Z) : list Z := filter (λ t, cutoff <= t) cs.

Definition prune (now : Z) (g : guard) : guard :=
  let cutoff := now - window_seconds g in
  match calls g with
  | t :: _ => if bool_decide (t < cutoff) then set_calls (recent cutoff (calls g)) g else g
  | [] => g
  end.

Definition call_count (g : guard) : Z := Z.of_nat (length (calls g)).

Definition allows (now : Z) (g : guard) : guard * bool :=
  if bool_decide (max_calls g <= 0) then (g, true)
  else if bool_decide (now < backoff_until g) then (g, false)
  else let g := prune now g in (g, bool_decide (call_count g < max_calls g)).

Definition record_call_locked (now : Z) (g : guard) : guard :=
  let g := set_calls (calls g ++ [now]) g in
  if bool_decide (max_calls g <= call_count g) && bool_decide (backoff_until g <= now)
  then set_calls [] (set_backoff (now + Z.max 0 (backoff_seconds g)) g)
  else g.

Definition try_record_call (now : Z) (g : guard) : guard * bool :=
  if bool_decide (max_calls g <= 0) then (g, true)
  else if bool_decide (now < backoff_until g) then (g, false)
  else
    let g := prune now g in
    if bool_decide (max_calls g <= call_count g) then (g, false) else (record_call_locked now g, true).

Definition record_call (now : Z) (g : guard) : guard :=
  if bool_decide (max_calls g <= 0) then g else record_call_locked now (prune now g).

(** [None] is [math.inf]. *)
Definition remaining (now : Z) (g : guard) : option Z :=
  if bool_decide (max_calls g <= 0) then None
  else if bool_decide (now < backoff_until g) then Some 0
  else Some (Z.max 0 (max_calls g - Z.of_nat (length (recent (now - window_seconds g) (calls g))))).

Definition clear (g : guard) : guard := set_backoff 0 (set_calls [] g).

(** ** Traces *)

Inductive request := Ask | Reserve.

Definition answer (r : request) (now : Z) (g : guard) : guard * bool :=
  match r with Ask => allows now g | Reserve => try_record_call now g end.

(** The requests of a run at their times; a reservation and its answer are recorded. *)
Fixpoint replay (rs : list (request * Z)) (g : guard) : guard * list (Z * bool) :=
  match rs with
  | [] => (g, [])
  | (r, now) :: rs =>
      let '(g, b) := answer r now g in
      let '(g, log) := replay rs g in
      (g, match r with Reserve => (now, b) :: log | Ask => log end)
  end.

Definition granted (log : list (Z * bool)) : list Z := omap (λ '(t, b), if b : bool then Some t else None) log.

(** Calls granted at or after [t] and before [t + w]. *)
Definition in_window (t w x : Z) : bool := bool_decide (t <= x < t + w).

(** ** Invariant *)

Definition since (t x : Z) : bool := bool_decide (t <= x).
Definition between (t u x : Z) : bool := bool_decide (t <= x <= u).

(** The calls were full at [t]: as many as the limit within a window that ends there. *)
Definition full_at (g : guard) (grants : list Z) (t : Z) : Prop :=
  t ∈ grants ∧ max_calls g <= Z.of_nat (tally (between (t - window_seconds g) t) grants).

(** [old] holds the calls up to the last trip, [cur] those since; of these the guard
    lists all that are still in the window. *)
Record guarded (g : guard) (grants : list Z) (last : Z) (old cur : list Z) : Prop := {
  gd_grants : grants = old ++ cur;
  gd_before : ∀ x, x ∈ grants → x <= last;
  gd_old : ∀ x, x ∈ old → x + backoff_seconds g <= backoff_until g;
  gd_listed : ∀ t, last - window_seconds g <= t → (tally (since t) cur <= tally (since t) (calls g))%nat;
  gd_calls : ∀ p, (tally p (calls g) <= tally p grants)%nat;
  gd_sorted : StronglySorted Z.le (calls g);
  gd_few : call_count g < max_calls g;
  gd_trip : backoff_until g <= 0 ∨ ∃ t, full_at g grants t ∧ backoff_until g = t + backoff_seconds g;
  gd_rate : ∀ t, Z.of_nat (tally (in_window t (window_seconds g)) grants) <= max_calls g }.

(** ** Pruning *)

Lemma recent_sorted cutoff cs : StronglySorted Z.le cs → StronglySorted Z.le (recent cutoff cs).
Proof.
  induction 1 as [|t cs Hs IH Ht]; [constructor|]. unfold recent in *. rewrite filter_cons. case_decide; [|done].
  constructor; [done|]. apply Forall_forall. intros x Hx. apply list_elem_of_filter in Hx as [_ Hx].
  rewrite Forall_forall in Ht. by apply Ht.
Qed.

Lemma tally_recent p cutoff cs : (tally p (recent cutoff cs) <= tally p cs)%nat.
Proof. unfold recent. induction cs as [|t cs IH]; [done|]. rewrite filter_cons. case_decide; cbn [tally]; lia. Qed.

Lemma since_recent t cutoff cs : cutoff <= t → tally (since t) (recent cutoff cs) = tally (since t) cs.
Proof.
  intros Ht. unfold recent. induction cs as [|x cs IH]; [done|]. rewrite filter_cons.
  case_decide; cbn [tally]; [by rewrite IH|]. unfold since at 2. rewrite bool_decide_eq_false_2 by lia. cbn. lia.
Qed.

Lemma recent_all cutoff cs : (∀ x, x ∈ cs → cutoff <= x) → recent cutoff cs = cs.
Proof.
  intros Hall. unfold recent. induction cs as [|x cs IH]; [done|]. rewrite filter_cons_True by (apply Hall; left).
  f_equal. apply IH. intros y Hy. apply Hall. by right.
Qed.

(** What pruning leaves, however it was reached. *)
Lemma prune_calls now g : StronglySorted Z.le (calls g) → calls (prune now g) = recent (now - window_seconds g) (calls g).
Proof.
  intros Hs. unfold prune. destruct (calls g) as [|t cs] eqn:E; [by rewrite E|]. case_bool_decide; [done|].
  rewrite E. symmetry. apply recent_all. intros x Hx. apply StronglySorted_inv in Hs as [_ Ht].
  rewrite Forall_forall in Ht. apply elem_of_cons in Hx as [->|Hx]; [lia|]. specialize (Ht x Hx). lia.
Qed.

Lemma prune_rest now g :
  max_calls (prune now g) = max_calls g ∧ window_seconds (prune now g) = window_seconds g ∧
  backoff_seconds (prune now g) = backoff_seconds g ∧ backoff_until (prune now g) = backoff_until g.
Proof. unfold prune. destruct (calls g); [done|]. by case_bool_decide. Qed.

Lemma prune_guarded now g grants last old cur : last <= now →
  guarded g grants last old cur → guarded (prune now g) grants now old cur.
Proof.
  intros Hnow [H1 H2 H3 H4 H5 H6 H7 H8 H9]. destruct (prune_rest now g) as (E1 & E2 & E3 & E4).
  pose proof (prune_calls now g H6) as Ec. split; rewrite ?Ec, ?E1, ?E2, ?E3, ?E4; try done.
  - intros x Hx. specialize (H2 x Hx). lia.
  - intros t Ht. rewrite since_recent by done. apply H4. lia.
  - intros p. etransitivity; [apply tally_recent|done].
  - by apply recent_sorted.
  - unfold call_count in *. rewrite Ec. unfold recent. pose proof (length_filter (λ t, now - window_seconds g <= t) (calls g)). lia.
  - destruct H8 as [?|(t & [Ht Hf] & ?)]; [by left|]. right. exists t. split; [|done]. split; [done|]. by rewrite E1, E2.
Qed.

Lemma unchanged_guarded now g grants last old cur : last <= now →
  guarded g grants last old cur → guarded g grants now old cur.
Proof.
  intros Hnow [H1 H2 H3 H4 H5 H6 H7 H8 H9]. split; try done.
  - intros x Hx. specialize (H2 x Hx). lia.
  - intros t Ht. apply H4. lia.
Qed.

(** ** Granting *)

Lemma tally_window t w now grants : (∀ x, x ∈ grants → x <= now) → now < t + w →
  (tally (in_window t w) grants <= tally (since t) grants)%nat.
Proof. intros _ _. apply tally_le. intros x _. unfold in_window, since. rewrite !bool_decide_eq_true. lia. Qed.

(** A window that reaches [now] holds no call from before the last trip, and at most
    the listed ones since. *)
Lemma window_listed g grants now old cur t :
  guarded g grants now old cur → window_seconds g <= backoff_seconds g → backoff_until g <= now → now < t + window_seconds g →
  Z.of_nat (tally (in_window t (window_seconds g)) grants) <= call_count g.
Proof.
  intros [-> H2 H3 H4 _ _ _ _ _] Hw Hb Ht. rewrite tally_app.
  assert (tally (in_window t (window_seconds g)) old = 0%nat) as ->.
  { apply tally_zero. intros x Hx. specialize (H3 x Hx). unfold in_window. apply bool_decide_eq_false_2. lia. }
  assert (∀ x, x ∈ cur → x <= now) as Hc by (intros x Hx; apply H2, elem_of_app; by right).
  pose proof (tally_window t (window_seconds g) now cur Hc Ht). specialize (H4 t ltac:(lia)).
  unfold call_count. rewrite (tally_length _ (calls g)) in H4. pose proof (length_filter (λ x, since t x = true) (calls g)). lia.
Qed.

Lemma sorted_snoc (cs : list Z) now : StronglySorted Z.le cs → (∀ x, x ∈ cs → x <= now) → StronglySorted Z.le (cs ++ [now]).
Proof.
  induction 1 as [|t cs Hs IH Ht]; intros Hn; cbn; [by repeat constructor|]. constructor.
  - apply IH. intros x Hx. apply Hn. by right.
  - apply Forall_app. split; [done|]. constructor; [apply Hn; left|constructor].
Qed.

Lemma calls_before g grants last old cur x : guarded g grants last old cur → x ∈ calls g → x <= last.
Proof.
  intros Hg Hx. apply (gd_before _ _ _ _ _ Hg). pose proof (gd_calls _ _ _ _ _ Hg (λ y, bool_decide (y = x))) as H.
  assert (0 < tally (λ y, bool_decide (y = x)) (calls g))%nat as Hp.
  { apply tally_pos. exists x. split; [done|by apply bool_decide_eq_true_2]. }
  assert (0 < tally (λ y, bool_decide (y = x)) grants)%nat as (y & Hy & Ey)%tally_pos by lia.
  apply bool_decide_eq_true in Ey. by subst y.
Qed.

(** The new grant keeps the rate. *)
Lemma grant_rate g grants now old cur t :
  guarded g grants now old cur → window_seconds g <= backoff_seconds g → backoff_until g <= now →
  Z.of_nat (tally (in_window t (window_seconds g)) (grants ++ [now])) <= max_calls g.
Proof.
  intros Hg Hw Hb. rewrite tally_app. cbn [tally]. destruct (in_window t (window_seconds g) now) eqn:E; cbn [Nat.b2n].
  - apply bool_decide_eq_true in E. pose proof (window_listed g grants now old cur t Hg Hw Hb ltac:(lia)).
    pose proof (gd_few _ _ _ _ _ Hg). lia.
  - pose proof (gd_rate _ _ _ _ _ Hg t). lia.
Qed.

Lemma grant_calls g grants now old cur p : guarded g grants now old cur →
  (tally p (calls g ++ [now]) <= tally p (grants ++ [now]))%nat.
Proof. intros Hg. rewrite !tally_app. pose proof (gd_calls _ _ _ _ _ Hg p). lia. Qed.

Lemma tally_true (l : list Z) : tally (λ _, true) l = length l.
Proof. induction l as [|x l IH]; [done|]. cbn. by rewrite IH. Qed.

(** What is listed lies within a window of [now], right after pruning. *)
Lemma grant_full g grants now old cur :
  guarded g grants now old cur → 0 <= window_seconds g → (∀ x, x ∈ calls g → now - window_seconds g <= x) →
  max_calls g <= call_count g + 1 → full_at g (grants ++ [now]) now.
Proof.
  intros Hg Hw Hr Hm. split; [apply elem_of_app; right; by left|].
  pose proof (grant_calls g grants now old cur (between (now - window_seconds g) now) Hg) as H.
  assert (tally (between (now - window_seconds g) now) (calls g ++ [now]) = length (calls g ++ [now])) as E.
  { rewrite (tally_ext _ (λ _, true)).
    - apply tally_true.
    - intros x [Hx|[->|[]%not_elem_of_nil]%elem_of_cons]%elem_of_app; apply bool_decide_eq_true_2; [|lia].
      split; [by apply Hr|]. by eapply calls_before. }
  rewrite E, length_app in H. cbn in H. unfold call_count in Hm. lia.
Qed.

Lemma full_at_grows g grants x t : full_at g grants t → full_at g (grants ++ [x]) t.
Proof. intros [H1 H2]. split; [apply elem_of_app; by left|]. rewrite tally_app. lia. Qed.

Lemma record_guarded g grants now old cur :
  guarded g grants now old cur → 0 < max_calls g → 0 <= window_seconds g <= backoff_seconds g → backoff_until g <= now →
  (∀ x, x ∈ calls g → now - window_seconds g <= x) →
  ∃ old' cur', guarded (record_call_locked now g) (grants ++ [now]) now old' cur'.
Proof.
  intros Hg Hmax Hw Hb Hr. pose proof (grant_rate g grants now old cur) as Hrate. pose proof (λ p, grant_calls g grants now old cur p Hg) as Hcalls.
  destruct (Hg) as [E H2 H3 H4 H5 H6 H7 H8 H9]. unfold record_call_locked. cbn [max_calls set_calls backoff_until].
  assert (∀ x, x ∈ grants ++ [now] → x <= now) as Hle.
  { intros x [Hx|[->|[]%not_elem_of_nil]%elem_of_cons]%elem_of_app; [by apply H2|lia]. }
  rewrite (bool_decide_eq_true_2 (backoff_until g <= now)), andb_true_r by done. case_bool_decide as Hm.
  - exists (grants ++ [now]), []. split; cbn [set_calls set_backoff calls backoff_seconds backoff_until window_seconds max_calls].
    + by rewrite app_nil_r.
    + done.
    + intros x Hx. specialize (Hle x Hx). lia.
    + intros t _. done.
    + intros p. cbn [tally]. lia.
    + constructor.
    + unfold call_count. cbn. lia.
    + right. exists now. split; [|lia]. apply (grant_full g grants now old cur Hg); [lia|done|].
      unfold call_count in *. cbn [set_calls calls] in Hm. rewrite length_app in Hm. cbn in Hm. lia.
    + intros t. apply (Hrate t Hg); lia.
  - exists old, (cur ++ [now]). split; cbn [set_calls set_backoff calls backoff_seconds backoff_until window_seconds max_calls].
    + by rewrite E, app_assoc.
    + done.
    + done.
    + intros t Ht. rewrite !tally_app. specialize (H4 t Ht). lia.
    + done.
    + apply sorted_snoc; [done|]. intros x Hx. by eapply calls_before.
    + lia.
    + destruct H8 as [?|(t & Hf & ?)]; [by left|]. right. exists t. split; [by apply full_at_grows|done].
    + intros t. apply (Hrate t Hg); lia.
Qed.

Lemma answer_limits r now g :
  max_calls (answer r now g).1 = max_calls g ∧ window_seconds (answer r now g).1 = window_seconds g ∧
  backoff_seconds (answer r now g).1 = backoff_seconds g.
Proof.
  destruct (prune_rest now g) as (E1 & E2 & E3 & _). destruct r; cbn [answer]; unfold allows, try_record_call, record_call_locked;
    repeat case_bool_decide; cbn [andb fst]; done.
Qed.

(** One request: the guard stays sound; a grant is recorded, a refusal is justified. *)
Lemma answer_guarded r now g grants last old cur :
  guarded g grants last old cur → 0 < max_calls g → 0 <= window_seconds g <= backoff_seconds g → 0 <= last <= now →
  let '(g', b) := answer r now g in
  (∃ old' cur', guarded g' (match r with Reserve => if b : bool then grants ++ [now] else grants | Ask => grants end) now old' cur') ∧
  (b = false → ∃ t, full_at g grants t ∧ t <= now < t + backoff_seconds g).
Proof.
  intros Hg Hmax Hw Hnow. pose proof (unchanged_guarded now g grants last old cur ltac:(lia) Hg) as Hu.
  pose proof (prune_guarded now g grants last old cur ltac:(lia) Hg) as Hp. destruct (prune_rest now g) as (E1 & E2 & E3 & E4).
  assert (now < backoff_until g → ∃ t, full_at g grants t ∧ t <= now < t + backoff_seconds g) as Hback.
  { intros Hn. destruct (gd_trip _ _ _ _ _ Hg) as [?|(t & Hf & E)]; [lia|]. exists t. split; [done|].
    pose proof (gd_before _ _ _ _ _ Hg t (proj1 Hf)). lia. }
  pose proof (gd_few _ _ _ _ _ Hp) as Hfew. rewrite E1 in Hfew.
  destruct r; cbn [answer]; unfold allows, try_record_call; rewrite bool_decide_eq_false_2 by lia; case_bool_decide as Hb.
  - split; [by exists old, cur|]. intros _. by apply Hback.
  - split; [by exists old, cur|]. rewrite E1, bool_decide_eq_true_2 by done. done.
  - split; [by exists old, cur|]. intros _. by apply Hback.
  - rewrite E1, bool_decide_eq_false_2 by lia. split; [|done]. apply (record_guarded _ grants now old cur Hp); rewrite ?E1, ?E2, ?E3, ?E4; try lia.
    intros x Hx. rewrite prune_calls in Hx by apply Hg. by apply list_elem_of_filter in Hx as [? _].
Qed.

(** ** The rate *)

Definition fresh (max window backoff : Z) : guard :=
  {| max_calls := max; window_seconds := window; backoff_seconds := backoff; calls := []; backoff_until := 0 |}.

(** The clock never goes back. *)
Fixpoint ordered (last : Z) (rs : list (request * Z)) : Prop :=
  match rs with [] => True | (_, now) :: rs => last <= now ∧ ordered now rs end.

(** The limit was reached within a window that ends at [t], by calls of [grants]. *)
Definition reached (max w : Z) (grants : list Z) (t : Z) : Prop :=
  t ∈ grants ∧ max <= Z.of_nat (tally (between (t - w) t) grants).

Lemma replay_guarded rs : ∀ g grants last old cur,
  guarded g grants last old cur → 0 < max_calls g → 0 <= window_seconds g <= backoff_seconds g → 0 <= last → ordered last rs →
  (∀ t, Z.of_nat (tally (in_window t (window_seconds g)) (grants ++ granted (replay rs g).2)) <= max_calls g) ∧
  ∀ before now after, (replay rs g).2 = before ++ (now, false) :: after →
    ∃ t, reached (max_calls g) (window_seconds g) (grants ++ granted before) t ∧ t <= now < t + backoff_seconds g.
Proof.
  induction rs as [|[r now] rs IH]; intros g grants last old cur Hg Hmax Hw Hlast Ho; cbn [replay].
  - cbn. rewrite app_nil_r. split; [apply Hg|]. by intros [|? ?].
  - destruct Ho as [Hn Ho]. pose proof (answer_guarded r now g grants last old cur Hg Hmax Hw ltac:(lia)) as Hstep.
    pose proof (answer_limits r now g) as Hlim. destruct (answer r now g) as [g' b]. destruct Hlim as (E1 & E2 & E3). cbn [fst] in *.
    destruct Hstep as [(old' & cur' & Hg') Href].
    specialize (IH g' _ now old' cur' Hg'). rewrite E1, E2, E3 in IH. specialize (IH Hmax Hw ltac:(lia) Ho).
    destruct (replay rs g') as [g2 log]. cbn [snd] in *. destruct IH as [Hrate Hlog]. destruct r; [by split|].
    split.
    + intros t. specialize (Hrate t). destruct b; cbn [granted omap list_omap]; [|done]. by rewrite <-app_assoc in Hrate.
    + intros before now' after E. destruct before as [|[t0 b0] before]; injection E as E0 E'.
      * destruct (Href E') as (t & Hf & Ht). exists t. cbn [granted omap list_omap]. rewrite app_nil_r. subst now'. by split.
      * subst t0 b0. destruct (Hlog before now' after H) as (t & Hf & Ht). exists t. split; [|done].
        destruct b; cbn [granted omap list_omap]; [|done]. by rewrite <-app_assoc in Hf.
Qed.

Lemma fresh_guarded max w b : 0 < max → guarded (fresh max w b) [] 0 [] [].
Proof.
  intros Hmax. split; cbn; try done.
  - by intros x Hx%not_elem_of_nil.
  - by intros x Hx%not_elem_of_nil.
  - constructor.
  - by left.
  - lia.
Qed.

(** The guard bounds the spending and refuses nothing without cause: whatever is
    asked of it and when, with a backoff at least as long as the window no stretch of
    a window's length holds more than [max_calls] grants, and a refused call finds
    [max_calls] of them within one window, the last less than a backoff before. *)
Theorem spend_guard_rate max w b rs :
  0 < max → 0 <= w <= b → ordered 0 rs →
  let log := (replay rs (fresh max w b)).2 in
  (∀ t, Z.of_nat (tally (in_window t w) (granted log)) <= max) ∧
  ∀ before now after, log = before ++ (now, false) :: after →
    ∃ t, reached max w (granted before) t ∧ t <= now < t + b.
Proof.
  intros Hmax Hw Ho. by apply (replay_guarded rs (fresh max w b) [] 0 [] []); [apply fresh_guarded|..].
Qed.

(** Two calls in ten seconds, then twenty of backoff. *)
Definition sample_requests : list (request * Z) := [(Reserve, 1); (Ask, 2); (Reserve, 3); (Reserve, 4); (Reserve, 23)].

Lemma spend_guard_rate_witness :
  (replay sample_requests (fresh 2 10 20)).2 = [(1, true); (3, true); (4, false); (23, true)] ∧
  (∀ t, Z.of_nat (tally (in_window t 10) [1; 3; 23]) <= 2) ∧ ∃ t, reached 2 10 [1; 3] t ∧ t <= 4 < t + 20.
Proof.
  assert ((replay sample_requests (fresh 2 10 20)).2 = [(1, true); (3, true); (4, false); (23, true)]) as E by (vm_compute; reflexivity).
  split; [exact E|]. destruct (spend_guard_rate 2 10 20 sample_requests) as [H1 H2]; [lia|lia|cbn; lia|].
  split; [intros t; specialize (H1 t); rewrite E in H1; exact H1|].
  apply (H2 [(1, true); (3, true)] 4 [(23, true)]). exact E.
Defined.
