(* ===== verification/CircuitBreaker.v ===== *)
(** The circuit breaker of the summary routes (escalation.py
    [SummaryCircuitBreaker]): per route key the failures and rejections since its last
    success, the time until which the route is refused, and what was last seen of it.

    Every method runs under the breaker's lock; [now] is the clock it reads.  The
    specification is the history of the calls, newest first. *)

From S2P Require Import Prelude PyText.
From stdpp Require Import options.

#[local] Open Scope Z_scope.

(** ** Definitions *)

Definition DEFAULT_ROUTE_KEY : string := "<task-default>".

Inductive error_class := Hung | ConfigError | ProviderFailure | Rejected.
#[global] Instance error_class_eq_dec : EqDecision error_class.
Proof. solve_decision. Defined.

(** [route.get("provider")], [route.get("model")] of a route that is not empty. *)
Abbreviation route := (option string * option string)%type.

Record route_note := { provider : option string; model : option string; last_error_class : option error_class }.

Record breaker := {
  failure_threshold : Z; cooldown_seconds : Z; rejection_threshold : Z;
  failures : gmap string Z; rejections : gmap string Z; open_until : gmap string Z;
  route_state : gmap string route_note; config_episodes : gset string }.

Definition set_failures (m : gmap string Z) (b : breaker) : breaker :=
  {| failure_threshold := failure_threshold b; cooldown_seconds := cooldown_seconds b; rejection_threshold := rejection_threshold b;
     failures := m; rejections := rejections b; open_until := open_until b; route_state := route_state b;
     config_episodes := config_episodes b |}.
Definition set_rejections (m : gmap string Z) (b : breaker) : breaker :=
  {| failure_threshold := failure_threshold b; cooldown_seconds := cooldown_seconds b; rejection_threshold := rejection_threshold b;
     failures := failures b; rejections := m; open_until := open_until b; route_state := route_state b;
     config_episodes := config_episodes b |}.
Definition set_open_until (m : gmap string Z) (b : breaker) : breaker :=
  {| failure_threshold := failure_threshold b; cooldown_seconds := cooldown_seconds b; rejection_threshold := rejection_threshold b;
     failures := failures b; rejections := rejections b; open_until := m; route_state := route_state b;
     config_episodes := config_episodes b |}.
Definition set_route_state (m : gmap string route_note) (b : breaker) : breaker :=
  {| failure_threshold := failure_threshold b; cooldown_seconds := cooldown_seconds b; rejection_threshold := rejection_threshold b;
     failures := failures b; rejections := rejections b; open_until := open_until b; route_state := m;
     config_episodes := config_episodes b |}.
Definition set_config_episodes (s : gset string) (b : breaker) : breaker :=
  {| failure_threshold := failure_threshold b; cooldown_seconds := cooldown_seconds b; rejection_threshold := rejection_threshold b;
     failures := failures b; rejections := rejections b; open_until := open_until b; route_state := route_state b;
     config_episodes := s |}.

Definition key (m : string) : string := let k := strip m in if bool_decide (k = "") then DEFAULT_ROUTE_KEY else k.

Definition opened_until (k : string) (b : breaker) : Z := default 0 (open_until b !! k).

Definition allows (m : string) (now : Z) (prune : bool) (b : breaker) : breaker * bool :=
  let k := key m in
  if bool_decide (opened_until k b <= now) then
    (if prune && bool_decide (is_Some (open_until b !! k)) then set_open_until (delete k (open_until b)) b else b, true)
  else (b, false).

Definition note (k : string) (e : option error_class) (r : option route) (b : breaker) : breaker :=
  let old := default {| provider := None; model := None; last_error_class := None |} (route_state b !! k) in
  let new := match r with
             | Some (p, m) => {| provider := p; model := m; last_error_class := e |}
             | None => {| provider := provider old; model := model old; last_error_class := e |}
             end in
  set_route_state (<[k := new]> (route_state b)) b.

Definition last_class (k : string) (b : breaker) : option error_class :=
  n ← route_state b !! k; last_error_class n.

Definition in_config_episode (m : string) (b : breaker) : bool := bool_decide (key m ∈ config_episodes b).

Definition note_route (m : string) (r : option route) (b : breaker) : breaker :=
  note (key m) (last_class (key m) b) r b.

Definition record_success (m : string) (b : breaker) : breaker :=
  let k := key m in
  note k None None
    (set_config_episodes (config_episodes b ∖ {[k]})
       (set_open_until (delete k (open_until b)) (set_rejections (delete k (rejections b)) (set_failures (delete k (failures b)) b)))).

Definition release_hang (m : string) (b : breaker) : breaker :=
  let k := key m in
  if bool_decide (last_class k b = Some Hung) then set_open_until (delete k (open_until b)) b else b.

(** [self._open_until[key] = current_time + max(0, int(self.cooldown_seconds or 0))] *)
Definition open_route (k : string) (now : Z) (b : breaker) : breaker :=
  set_open_until (<[k := now + Z.max 0 (cooldown_seconds b)]> (open_until b)) b.

Definition record_hang (m : string) (now : Z) (b : breaker) : breaker :=
  let k := key m in note k (Some Hung) None (open_route k now b).

Definition record_config_error (m : string) (r : option route) (now : Z) (b : breaker) : breaker :=
  let k := key m in
  let b := open_route k now (note k (Some ConfigError) r b) in
  set_config_episodes ({[k]} ∪ config_episodes b) b.

(** [max(1, int(self.failure_threshold or 1))] *)
Definition at_least_one (n : Z) : Z := Z.max 1 (if bool_decide (n = 0) then 1 else n).

Definition record_failure (m : string) (now : Z) (b : breaker) : breaker :=
  let k := key m in
  let b := note k (Some ProviderFailure) None b in
  let n := default 0 (failures b !! k) + 1 in
  let b := set_failures (<[k := n]> (failures b)) b in
  if bool_decide (at_least_one (failure_threshold b) <= n) then open_route k now b else b.

Definition record_rejection (m : string) (now : Z) (b : breaker) : breaker :=
  let k := key m in
  let b := note k (Some Rejected) None b in
  let n := default 0 (rejections b !! k) + 1 in
  let b := set_rejections (<[k := n]> (rejections b)) b in
  if bool_decide (at_least_one (rejection_threshold b) <= n) then open_route k now b else b.

(** [max(0.0, min(...))] of a first model and the others. *)
Fixpoint seconds_from (best : Z) (ms : list string) (now : Z) (b : breaker) : Z :=
  match ms with [] => best | m :: ms => seconds_from (Z.min best (opened_until (key m) b - now)) ms now b end.
Definition seconds_until_allowed (m : string) (ms : list string) (now : Z) (b : breaker) : Z :=
  Z.max 0 (seconds_from (opened_until (key m) b - now) ms now b).

Record status := { is_open : bool; seconds_left : Z; status_class : option error_class; status_route : route }.
Definition closed_summary_route_status : status :=
  {| is_open := false; seconds_left := 0; status_class := None; status_route := (None, None) |}.
Definition route_status (models : list string) (now : Z) (prefix : string) (b : breaker) : status :=
  match (λ m, prefix +:+ m) <$> models with
  | [] => closed_summary_route_status
  | k :: keys =>
      let seconds := seconds_until_allowed k keys now b in
      let n := route_state b !! key k in
      {| is_open := bool_decide (0 < seconds); seconds_left := seconds; status_class := n ≫= last_error_class;
         status_route := (n ≫= provider, n ≫= model) |}
  end.

(** ** Histories *)

Inductive event :=
  | Asked (prune : bool) | NotedRoute (r : option route) | Succeeded | ReleasedHang | RecordedHang
  | RecordedConfigError (r : option route) | RecordedFailure | RecordedRejection.

(** A call on the breaker: the event, its model and the clock. *)
Definition apply_event (e : event * string * Z) (b : breaker) : breaker :=
  let '(e, m, now) := e in
  match e with
  | Asked prune => (allows m now prune b).1
  | NotedRoute r => note_route m r b
  | Succeeded => record_success m b
  | ReleasedHang => release_hang m b
  | RecordedHang => record_hang m now b
  | RecordedConfigError r => record_config_error m r now b
  | RecordedFailure => record_failure m now b
  | RecordedRejection => record_rejection m now b
  end.

Abbreviation history := (list (event * string * Z)).

(** The breaker after a history, newest event first. *)
Definition after (h : history) (b : breaker) : breaker := foldr apply_event b h.

Definition about (k : string) (e : event * string * Z) : bool := bool_decide (key e.1.2 = k).
Definition is_success (e : event * string * Z) : bool := match e.1.1 with Succeeded => true | _ => false end.

(** The events on a route that match [p] since its last success. *)
Fixpoint count_since (p : event → bool) (k : string) (h : history) : Z :=
  match h with
  | [] => 0
  | e :: h => if about k e then if is_success e then 0 else (if p e.1.1 then 1 else 0) + count_since p k h
              else count_since p k h
  end.

Definition is_failure (e : event) : bool := match e with RecordedFailure => true | _ => false end.
Definition is_rejection (e : event) : bool := match e with RecordedRejection => true | _ => false end.

(** The last outcome on a route. *)
Fixpoint last_outcome (k : string) (h : history) : option error_class :=
  match h with
  | [] => None
  | e :: h =>
      if about k e then
        match e.1.1 with
        | Succeeded => None
        | RecordedHang => Some Hung
        | RecordedConfigError _ => Some ConfigError
        | RecordedFailure => Some ProviderFailure
        | RecordedRejection => Some Rejected
        | _ => last_outcome k h
        end
      else last_outcome k h
  end.

(** [e] opened its route, after [h]. *)
Definition opens (b0 : breaker) (e : event * string * Z) (h : history) : Prop :=
  match e.1.1 with
  | RecordedHang | RecordedConfigError _ => True
  | RecordedFailure => at_least_one (failure_threshold b0) <= count_since is_failure (key e.1.2) (e :: h)
  | RecordedRejection => at_least_one (rejection_threshold b0) <= count_since is_rejection (key e.1.2) (e :: h)
  | _ => False
  end.

(** [e] closed its route, after [h]. *)
Definition closes (e : event * string * Z) (h : history) : Prop :=
  match e.1.1 with
  | Succeeded => True
  | ReleasedHang => last_outcome (key e.1.2) h = Some Hung
  | _ => False
  end.

(** The route is refused at [now]: some event opened it less than a cooldown ago, and
    none closed it since. *)
Definition refused (b0 : breaker) (k : string) (now : Z) (h : history) : Prop :=
  ∃ newer e older, h = newer ++ e :: older ∧ key e.1.2 = k ∧ opens b0 e older ∧
    now < e.2 + Z.max 0 (cooldown_seconds b0) ∧
    ∀ newer1 c newer2, newer = newer1 ++ c :: newer2 → key c.1.2 = k → ¬ closes c (newer2 ++ e :: older).

Definition fresh (failure cooldown rejection : Z) : breaker :=
  {| failure_threshold := failure; cooldown_seconds := cooldown; rejection_threshold := rejection; failures := ∅;
     rejections := ∅; open_until := ∅; route_state := ∅; config_episodes := ∅ |}.

(** ** The breaker after a history *)

Lemma refused_cons b0 k now e h :
  refused b0 k now (e :: h) ↔
  (key e.1.2 = k ∧ opens b0 e h ∧ now < e.2 + Z.max 0 (cooldown_seconds b0)) ∨
  (¬ (key e.1.2 = k ∧ closes e h) ∧ refused b0 k now h).
Proof.
  split.
  - intros (newer & e' & older & E & Hk & Ho & Hn & Hc). destruct newer as [|c newer]; injection E as -> ->; [by left|]. right. split.
    + intros [Hkc Hcl]. by apply (Hc [] c newer eq_refl Hkc).
    + exists newer, e', older. split_and!; [done..|]. intros n1 c' n2 ->. by apply (Hc (c :: n1) c' n2).
  - intros [(Hk & Ho & Hn)|(Hnc & newer & e' & older & -> & Hk & Ho & Hn & Hc)].
    + exists [], e, h. split_and!; [done..|]. by intros [|? ?] ? ?.
    + exists (e :: newer), e', older. split_and!; [done..|]. intros [|c1 n1] c n2 [= E1 E2].
      * subst c n2. intros Hkc Hcl. by apply Hnc.
      * intros Hkc. by apply (Hc n1 c n2).
Qed.

Lemma refused_nil b0 k now : ¬ refused b0 k now [].
Proof. by intros ([|? ?] & e & older & E & _). Qed.

(** The clock does not go back: no event of [h] is later than [t]. *)
Fixpoint ordered (t : Z) (h : history) : Prop :=
  match h with [] => 0 <= t | e :: h => e.2 <= t ∧ ordered e.2 h end.

Lemma ordered_later t t' h : t <= t' → ordered t h → ordered t' h.
Proof. destruct h as [|e h]; cbn; [lia|]. intros Ht [? ?]. split; [lia|done]. Qed.

Lemma ordered_nonneg t h : ordered t h → 0 <= t.
Proof. revert t. induction h as [|e h IH]; intros t; [done|]. intros [Ht H]. specialize (IH _ H). lia. Qed.

Lemma refused_time b0 k now t h : ordered t h → refused b0 k now h → now < t + Z.max 0 (cooldown_seconds b0).
Proof.
  intros Ho (newer & e & older & -> & _ & _ & Hn & _). revert t Ho. induction newer as [|c newer IH]; intros t [Ht Ho]; [lia|].
  specialize (IH c.2 Ho). lia.
Qed.

(** What the breaker records of one route. *)
Record faithful (b0 : breaker) (k : string) (h : history) (b : breaker) : Prop := {
  fa_limits : failure_threshold b = failure_threshold b0 ∧ cooldown_seconds b = cooldown_seconds b0 ∧
              rejection_threshold b = rejection_threshold b0;
  fa_failures : default 0 (failures b !! k) = count_since is_failure k h;
  fa_rejections : default 0 (rejections b !! k) = count_since is_rejection k h;
  fa_class : last_class k b = last_outcome k h;
  fa_open : ∀ t now, ordered t h → t <= now → now < opened_until k b ↔ refused b0 k now h }.

Lemma last_class_note k k' e r b : last_class k (note k' e r b) = if decide (k = k') then e else last_class k b.
Proof.
  unfold last_class, note. cbn [route_state set_route_state]. case_decide as Hk.
  - subst k'. rewrite lookup_insert_eq. by destruct r as [[? ?]|].
  - by rewrite lookup_insert_ne.
Qed.

Definition same_limits (b b' : breaker) : Prop :=
  failure_threshold b' = failure_threshold b ∧ cooldown_seconds b' = cooldown_seconds b ∧
  rejection_threshold b' = rejection_threshold b.

Lemma apply_event_limits e b : same_limits b (apply_event e b).
Proof.
  destruct e as [[[] m] now]; cbn [apply_event]; unfold allows, release_hang, record_failure, record_rejection;
    repeat first [case_bool_decide | destruct (_ && _)]; done.
Qed.

(** An event leaves the other routes alone. *)
Lemma apply_event_other e b k : key e.1.2 ≠ k →
  failures (apply_event e b) !! k = failures b !! k ∧ rejections (apply_event e b) !! k = rejections b !! k ∧
  open_until (apply_event e b) !! k = open_until b !! k ∧ last_class k (apply_event e b) = last_class k b.
Proof.
  intros Hk. destruct e as [[e m] now]. cbn [fst snd] in Hk.
  assert (∀ c r b, last_class k (note (key m) c r b) = last_class k b) as Hn by (intros c r b'; by rewrite last_class_note, decide_False).
  destruct e; cbn [apply_event]; unfold allows, note_route, record_success, release_hang, record_hang, record_config_error,
    record_failure, record_rejection, open_route; cbn zeta;
    repeat match goal with |- context [if ?c then _ else _] => destruct c end;
    (split_and!; [unfold note; cbn; try by rewrite ?lookup_insert_ne, ?lookup_delete_ne by done..|first [done|exact (Hn _ _ _)]]).
Qed.

Lemma count_since_other p k e h : key e.1.2 ≠ k → count_since p k (e :: h) = count_since p k h.
Proof. intros Hk. cbn. unfold about. by rewrite bool_decide_eq_false_2. Qed.
Lemma last_outcome_other k e h : key e.1.2 ≠ k → last_outcome k (e :: h) = last_outcome k h.
Proof. intros Hk. cbn. unfold about. by rewrite bool_decide_eq_false_2. Qed.

Lemma refused_other b0 k now e h : key e.1.2 ≠ k → refused b0 k now (e :: h) ↔ refused b0 k now h.
Proof. intros Hk. rewrite refused_cons. tauto. Qed.

Section events.
Context (b0 : breaker) (k : string) (h : history) (b : breaker).
Hypothesis Hb : faithful b0 k h b.

(** The three ways an event on the route changes its answer. *)
Lemma answer_kept e u : key e.1.2 = k → ¬ opens b0 e h → ¬ closes e h → u = opened_until k b →
  ∀ t now, ordered t (e :: h) → t <= now → now < u ↔ refused b0 k now (e :: h).
Proof using Hb.
  intros Hk Ho Hc -> t now [Ht Hord] Hn. rewrite refused_cons, (fa_open _ _ _ _ Hb e.2 now Hord) by lia. tauto.
Qed.

Lemma answer_opened e u : key e.1.2 = k → opens b0 e h → ¬ closes e h → u = e.2 + Z.max 0 (cooldown_seconds b0) →
  ∀ t now, ordered t (e :: h) → t <= now → now < u ↔ refused b0 k now (e :: h).
Proof using Type.
  intros Hk Ho Hc -> t now [Ht Hord] Hn. rewrite refused_cons. split; [tauto|].
  intros [(_ & _ & ?)|[_ Hr]]; [done|]. by apply (refused_time b0 k now e.2 h).
Qed.

Lemma answer_closed e u : key e.1.2 = k → ¬ opens b0 e h → closes e h → u <= 0 →
  ∀ t now, ordered t (e :: h) → t <= now → now < u ↔ refused b0 k now (e :: h).
Proof using Type.
  intros Hk Ho Hc Hu t now [Ht Hord] Hn. apply ordered_nonneg in Hord. rewrite refused_cons. split; [lia|tauto].
Qed.

Lemma count_since_own p e : key e.1.2 = k →
  count_since p k (e :: h) = if is_success e then 0 else (if p e.1.1 then 1 else 0) + count_since p k h.
Proof using Type. intros Hk. cbn. unfold about. by rewrite bool_decide_eq_true_2. Qed.

(** The counters of [record_failure] and [record_rejection] are those of the history. *)
Lemma failure_faithful m now : key m = k →
  faithful b0 k ((RecordedFailure, m, now) :: h) (record_failure m now b).
Proof using Hb.
  intros Hk. destruct (Hb) as [(L1 & L2 & L3) Hf Hr Hc Ho].
  set (n := default 0 (failures b !! k) + 1).
  assert (count_since is_failure k ((RecordedFailure, m, now) :: h) = n) as En
    by (rewrite count_since_own by done; cbn; unfold n; lia).
  assert (last_class k (note k (Some ProviderFailure) None b) = Some ProviderFailure) as Ec
    by (rewrite last_class_note; by rewrite decide_True).
  unfold record_failure. rewrite Hk. cbn zeta. fold n.
  change (failures (note k (Some ProviderFailure) None b)) with (failures b). fold n.
  change (failure_threshold (set_failures (<[k:=n]> (failures b)) (note k (Some ProviderFailure) None b))) with (failure_threshold b).
  assert (last_outcome k ((RecordedFailure, m, now) :: h) = Some ProviderFailure) as El
    by (cbn; unfold about; cbn; by rewrite bool_decide_eq_true_2).
  case_bool_decide as Hthr; (split; [done| | | |]); cbn [open_route failures rejections set_open_until set_failures];
    try (by rewrite lookup_insert_eq, En); try (rewrite count_since_own by done; cbn; by rewrite <-Hr); try (etransitivity; [exact Ec|done]).
  - apply answer_opened; cbn [fst snd]; [done| |by intros []|].
    + unfold opens. cbn [fst snd]. rewrite Hk, En, <-L1. done.
    + unfold opened_until, open_route. cbn. by rewrite lookup_insert_eq, L2.
  - apply answer_kept; cbn [fst snd]; [done| |by intros []|done].
    unfold opens. cbn [fst snd]. rewrite Hk, En, <-L1. done.
Qed.

Lemma rejection_faithful m now : key m = k →
  faithful b0 k ((RecordedRejection, m, now) :: h) (record_rejection m now b).
Proof using Hb.
  intros Hk. destruct (Hb) as [(L1 & L2 & L3) Hf Hr Hc Ho].
  set (n := default 0 (rejections b !! k) + 1).
  assert (count_since is_rejection k ((RecordedRejection, m, now) :: h) = n) as En
    by (rewrite count_since_own by done; cbn; unfold n; lia).
  assert (last_class k (note k (Some Rejected) None b) = Some Rejected) as Ec
    by (rewrite last_class_note; by rewrite decide_True).
  unfold record_rejection. rewrite Hk. cbn zeta. change (rejections (note k (Some Rejected) None b)) with (rejections b). fold n.
  change (rejection_threshold (set_rejections (<[k:=n]> (rejections b)) (note k (Some Rejected) None b))) with (rejection_threshold b).
  assert (last_outcome k ((RecordedRejection, m, now) :: h) = Some Rejected) as El
    by (cbn; unfold about; cbn; by rewrite bool_decide_eq_true_2).
  case_bool_decide as Hthr; (split; [done| | | |]); cbn [open_route failures rejections set_open_until set_rejections];
    try (by rewrite lookup_insert_eq, En); try (rewrite count_since_own by done; cbn; by rewrite <-Hf); try (etransitivity; [exact Ec|done]).
  - apply answer_opened; cbn [fst snd]; [done| |by intros []|].
    + unfold opens. cbn [fst snd]. rewrite Hk, En, <-L3. done.
    + unfold opened_until, open_route. cbn. by rewrite lookup_insert_eq, L2.
  - apply answer_kept; cbn [fst snd]; [done| |by intros []|done].
    unfold opens. cbn [fst snd]. rewrite Hk, En, <-L3. done.
Qed.

Lemma own_outcome e : key e.1.2 = k →
  last_outcome k (e :: h) = match e.1.1 with
    | Succeeded => None | RecordedHang => Some Hung | RecordedConfigError _ => Some ConfigError
    | RecordedFailure => Some ProviderFailure | RecordedRejection => Some Rejected | _ => last_outcome k h end.
Proof using Type. intros Hk. cbn. unfold about. by rewrite bool_decide_eq_true_2. Qed.

(** An event that counts nothing keeps both counters. *)
Lemma kept_counters e b' : key e.1.2 = k → is_success e = false → is_failure e.1.1 = false → is_rejection e.1.1 = false →
  failures b' = failures b → rejections b' = rejections b →
  default 0 (failures b' !! k) = count_since is_failure k (e :: h) ∧
  default 0 (rejections b' !! k) = count_since is_rejection k (e :: h).
Proof using Hb.
  intros Hk H1 H2 H3 -> ->. rewrite !count_since_own, H1, H2, H3 by done. rewrite !Z.add_0_l. split; apply Hb.
Qed.

Lemma asked_faithful prune m now : key m = k → faithful b0 k ((Asked prune, m, now) :: h) (allows m now prune b).1.
Proof using Hb.
  intros Hk. assert (failures (allows m now prune b).1 = failures b ∧ rejections (allows m now prune b).1 = rejections b ∧
    last_class k (allows m now prune b).1 = last_class k b) as (E1 & E2 & E3).
  { unfold allows. case_bool_decide; [|done]. by destruct (prune && _). }
  destruct (kept_counters (Asked prune, m, now) (allows m now prune b).1 Hk eq_refl eq_refl eq_refl E1 E2).
  split; [|done|done|by rewrite E3, own_outcome by done; apply Hb|].
  - pose proof (apply_event_limits (Asked prune, m, now) b) as (L1 & L2 & L3). cbn [apply_event] in *.
    destruct (fa_limits _ _ _ _ Hb) as (? & ? & ?). split_and!; congruence.
  - intros t now' Hord Hn. cbn in Hord. destruct Hord as [Ht Hord]. pose proof (ordered_nonneg _ _ Hord).
    rewrite refused_cons. cbn [fst snd]. unfold opens, closes. cbn [fst snd].
    pose proof (fa_open _ _ _ _ Hb now now' Hord ltac:(lia)) as Hr. rewrite <-Hr.
    assert (now' < opened_until k (allows m now prune b).1 ↔ now' < opened_until k b) as ->; [|tauto].
    unfold allows. rewrite Hk. case_bool_decide as Hle; [|done]. destruct (prune && _); [|done].
    unfold opened_until in *. cbn. rewrite lookup_delete_eq. cbn. lia.
Qed.

Lemma event_faithful e : key e.1.2 = k → faithful b0 k (e :: h) (apply_event e b).
Proof using Hb.
  intros Hk. destruct e as [[e m] now]. cbn [fst snd] in Hk. pose proof (fa_limits _ _ _ _ Hb) as (L1 & L2 & L3).
  pose proof (apply_event_limits (e, m, now) b) as (L1' & L2' & L3').
  assert (failure_threshold (apply_event (e, m, now) b) = failure_threshold b0 ∧
    cooldown_seconds (apply_event (e, m, now) b) = cooldown_seconds b0 ∧
    rejection_threshold (apply_event (e, m, now) b) = rejection_threshold b0) as HL by (split_and!; congruence).
  destruct e; cbn [apply_event] in *.
  - by apply asked_faithful.
  - destruct (kept_counters (NotedRoute r, m, now) (note_route m r b) Hk eq_refl eq_refl eq_refl eq_refl eq_refl).
    split; [done|done|done| |apply answer_kept; [done|by intros []|by intros []|done]].
    unfold note_route. rewrite Hk, last_class_note, decide_True, own_outcome by done. apply Hb.
  - split; [done| | | |].
    + rewrite count_since_own by done. unfold record_success. rewrite Hk. cbn. by rewrite lookup_delete_eq.
    + rewrite count_since_own by done. unfold record_success. rewrite Hk. cbn. by rewrite lookup_delete_eq.
    + unfold record_success. rewrite Hk. by rewrite last_class_note, decide_True, own_outcome.
    + apply answer_closed; [done|by intros []|done|]. unfold record_success, opened_until. rewrite Hk. cbn. by rewrite lookup_delete_eq.
  - assert (failures (release_hang m b) = failures b ∧ rejections (release_hang m b) = rejections b ∧
      last_class k (release_hang m b) = last_class k b) as (E1 & E2 & E3) by (unfold release_hang; by case_bool_decide).
    destruct (kept_counters (ReleasedHang, m, now) (release_hang m b) Hk eq_refl eq_refl eq_refl E1 E2).
    split; [done|done|done|by rewrite E3, own_outcome by done; apply Hb|]. pose proof (fa_class _ _ _ _ Hb) as Hc.
    unfold release_hang. rewrite Hk. case_bool_decide as Hh.
    + apply answer_closed; [done|by intros []| |unfold opened_until; cbn; by rewrite lookup_delete_eq].
      unfold closes. cbn. by rewrite Hk, <-Hc.
    + apply answer_kept; [done|by intros []| |done]. unfold closes. cbn. by rewrite Hk, <-Hc.
  - destruct (kept_counters (RecordedHang, m, now) (record_hang m now b) Hk eq_refl eq_refl eq_refl eq_refl eq_refl).
    split; [done|done|done|unfold record_hang; by rewrite Hk, last_class_note, decide_True, own_outcome|].
    apply answer_opened; [done|done|by intros []|]. unfold record_hang, opened_until. rewrite Hk. cbn. by rewrite lookup_insert_eq, L2.
  - destruct (kept_counters (RecordedConfigError r, m, now) (record_config_error m r now b) Hk eq_refl eq_refl eq_refl eq_refl eq_refl).
    split; [done|done|done| |].
    + unfold record_config_error. rewrite Hk, own_outcome by done. cbn [fst snd].
      etransitivity; [exact (last_class_note k k (Some ConfigError) r b)|by rewrite decide_True].
    + apply answer_opened; [done|done|by intros []|]. unfold record_config_error, opened_until. rewrite Hk. cbn. by rewrite lookup_insert_eq, L2.
  - by apply failure_faithful.
  - by apply rejection_faithful.
Qed.

End events.

Lemma other_faithful b0 k h b e : faithful b0 k h b → key e.1.2 ≠ k → faithful b0 k (e :: h) (apply_event e b).
Proof.
  intros [HL Hf Hr Hc Ho] Hk. destruct (apply_event_other e b k Hk) as (E1 & E2 & E3 & E4).
  destruct (apply_event_limits e b) as (? & ? & ?). split.
  - destruct HL as (? & ? & ?). split_and!; congruence.
  - by rewrite E1, count_since_other.
  - by rewrite E2, count_since_other.
  - by rewrite E4, last_outcome_other.
  - intros t now [Ht Hord] Hn. unfold opened_until in *. rewrite E3, refused_other by done. apply (Ho e.2); [done|lia].
Qed.

Lemma after_faithful failure cooldown rejection k h :
  faithful (fresh failure cooldown rejection) k h (after h (fresh failure cooldown rejection)).
Proof.
  induction h as [|e h IH].
  - split; try done. intros t now Ho Hn. cbn in Ho. split; [|by intros ?%refused_nil].
    unfold opened_until. cbn. rewrite lookup_empty. cbn. lia.
  - cbn. destruct (decide (key e.1.2 = k)); [by apply event_faithful|by apply other_faithful].
Qed.

(** ** The answer *)

Lemma allows_opened m now prune b : (allows m now prune b).2 = bool_decide (opened_until (key m) b <= now).
Proof. unfold allows. by case_bool_decide. Qed.

Lemma seconds_from_spec ms : ∀ best now b,
  seconds_from best ms now b <= 0 ↔ best <= 0 ∨ ∃ m, m ∈ ms ∧ opened_until (key m) b <= now.
Proof.
  induction ms as [|m ms IH]; intros best now b; cbn [seconds_from].
  - split; [by left|]. by intros [?|(m & Hm%not_elem_of_nil & _)].
  - rewrite IH. setoid_rewrite elem_of_cons. split.
    + intros [?|(m' & ? & ?)]; [|right; exists m'; tauto].
      destruct (decide (best <= 0)); [by left|]. right. exists m. split; [by left|lia].
    + intros [?|(m' & [->|?] & ?)]; [left; lia|left; lia|right; by exists m'].
Qed.

(** C28: the breaker answers what its history says: a route is refused exactly when a
    hang, a configuration error or the failure or rejection that reached its limit
    since the last success came less than a cooldown ago, and no success, nor the
    release of a hang that was the last outcome, came after it; whatever happens on
    other routes. *)
Theorem breaker_refuses_iff failure cooldown rejection h m now prune :
  ordered now h →
  let b := after h (fresh failure cooldown rejection) in
  ((allows m now prune b).2 = false ↔ refused (fresh failure cooldown rejection) (key m) now h) ∧
  ∀ ms, seconds_until_allowed m ms now b = 0 ↔ ∃ m', m' ∈ m :: ms ∧ (allows m' now prune b).2 = true.
Proof.
  intros Ho b. split.
  - rewrite allows_opened, bool_decide_eq_false. pose proof (fa_open _ _ _ _ (after_faithful failure cooldown rejection (key m) h) now now Ho ltac:(lia)) as E.
    rewrite <-E. unfold b. lia.
  - intros ms. setoid_rewrite allows_opened. setoid_rewrite bool_decide_eq_true. setoid_rewrite elem_of_cons.
    unfold seconds_until_allowed. pose proof (seconds_from_spec ms (opened_until (key m) b - now) now b) as E. split.
    + intros Hs. destruct (proj1 E ltac:(lia)) as [?|(m' & ? & ?)]; [exists m; split; [by left|lia]|exists m'; tauto].
    + intros (m' & [->|?] & ?); (rewrite Z.max_l; [done|apply E]); [left; lia|right; by exists m'].
Qed.

(** Two failures at 10 and 20 with a cooldown of 300, on routes named with blanks. *)
Definition sample_history : history :=
  [(RecordedFailure, " a ", 20); (RecordedRejection, "b", 15); (RecordedFailure, "a", 10); (Succeeded, "a", 5)].

Lemma breaker_refuses_iff_witness :
  ordered 30 sample_history ∧ refused (fresh 2 300 6) "a" 30 sample_history ∧ ¬ refused (fresh 2 300 6) "b" 30 sample_history.
Proof.
  assert (ordered 30 sample_history) as Ho by (cbn; lia). split; [exact Ho|]. split.
  - apply (breaker_refuses_iff 2 300 6 sample_history "a" 30 true Ho). vm_compute. reflexivity.
  - intros Hr. apply (breaker_refuses_iff 2 300 6 sample_history "b" 30 true Ho) in Hr. vm_compute in Hr. discriminate Hr.
Defined.
