(* ===== verification/SummaryOutcome.v ===== *)
(** What one summary attempt means for its route (summary_attempt.py,
    summary_outcome.py): predicates over the provider's error, and the decision the
    route loop acts on.

    An exception is a record of what the predicates read of it.  The patterns are
    hand-written matchers: a token occurs in a text, a status in the words around it.
    Durations are integers; a factor 0.9 is multiplied out. *)

From Stdlib Require Import Ascii.
From S2P Require Import Prelude Chunking PyText.
From stdpp Require Import options.

#[local] Open Scope Z_scope.

(** ** Text matching *)

Definition lower_ascii (a : ascii) : ascii :=
  let n := nat_of_ascii a in if bool_decide (65 <= n <= 90)%nat then ascii_of_nat (n + 32) else a.
Fixpoint lower (s : string) : string :=
  match s with String a s => String (lower_ascii a) (lower s) | EmptyString => EmptyString end.

(** What follows a prefix, where it is one. *)
Fixpoint after_prefix (p s : string) : option string :=
  match p, s with
  | EmptyString, _ => Some s
  | String a p, String b s => if bool_decide (a = b) then after_prefix p s else None
  | _, EmptyString => None
  end.

(** [token in s] *)
Fixpoint occurs (token s : string) : bool :=
  bool_decide (is_Some (after_prefix token s)) || match s with String _ s => occurs token s | EmptyString => false end.
Definition any_occurs (tokens : list string) (s : string) : bool := existsb (λ t, occurs t s) tokens.

Definition digit (a : ascii) : option Z :=
  let n := Z.of_nat (nat_of_ascii a) in if bool_decide (48 <= n <= 57) then Some (n - 48) else None.
(** [\w] *)
Definition is_word (a : ascii) : bool :=
  let n := Z.of_nat (nat_of_ascii a) in
  bool_decide (48 <= n <= 57) || bool_decide (65 <= n <= 90) || bool_decide (97 <= n <= 122)
  || bool_decide (n ∈ [95; 170; 178; 179; 181; 185; 186; 188; 189; 190]) || bool_decide (192 <= n <= 255 ∧ n ≠ 215 ∧ n ≠ 247).
(** [\b] after a word character. *)
Definition at_boundary (s : string) : bool := match s with String a _ => negb (is_word a) | EmptyString => true end.

(** [\s*[:=]?\s*(\d{3})\b] *)
Definition skip_sign (s : string) : string :=
  match s with String a s' => if bool_decide (a = ":"%char ∨ a = "="%char) then s' else s | EmptyString => s end.
Definition three_digits (s : string) : option Z :=
  match lstrip (skip_sign (lstrip s)) with
  | String a (String b (String c s)) =>
      x ← digit a; y ← digit b; z ← digit c; if at_boundary s then Some (100 * x + 10 * y + z) else None
  | _ => None
  end.

(** [(?:error code|status(?: code)?)...] at one place: the first alternative that matches. *)
Definition status_here (s : string) : option Z :=
  match after_prefix "error code" s ≫= three_digits with
  | Some n => Some n
  | None => match after_prefix "status code" s ≫= three_digits with
            | Some n => Some n
            | None => after_prefix "status" s ≫= three_digits
            end
  end.
Fixpoint status_in_message (s : string) : option Z :=
  match status_here s with
  | Some n => Some n
  | None => match s with String _ s => status_in_message s | EmptyString => None end
  end.

(** [re.search(r"\b1301\b", s)]; [inside] says that a word character precedes. *)
Fixpoint has_word_1301 (inside : bool) (s : string) : bool :=
  (negb inside && match after_prefix "1301" s with Some r => at_boundary r | None => false end)
  || match s with String a s => has_word_1301 (is_word a) s | EmptyString => false end.

(** [re.sub(r"[-_\s]+", " ", s)]; [inside] says that the run has been replaced. *)
Definition separates (a : ascii) : bool := bool_decide (a = "-"%char ∨ a = "_"%char) || is_space a.
Fixpoint respaced (inside : bool) (s : string) : string :=
  match s with
  | EmptyString => EmptyString
  | String a s => if separates a then (if inside then respaced true s else String " "%char (respaced true s))
                  else String a (respaced false s)
  end.
(** [token.replace("_", " ")] *)
Fixpoint spaced (s : string) : string :=
  match s with
  | EmptyString => EmptyString
  | String a s => String (if bool_decide (a = "_"%char) then " "%char else a) (spaced s)
  end.

(** ** Provider errors *)

(** [status_code] is the one of the error or of its response; 0 counts as none. *)
Record provider_error := {
  type_name : string; is_timeout : bool; message : string; status_code : option Z; plain_status : option Z;
  body_text : string; response_text : string }.

Definition effective_status (e : provider_error) (m : string) : option Z :=
  match status_code e with Some n => Some n | None => status_in_message m end.

Definition ROUTE_CONFIG_ERROR_TOKENS : list string :=
  ["model not found"; "model_not_found"; "unknown model"; "no such model"; "is not a valid model";
   "model not supported"; "model is not supported"; "model_not_supported"; "unsupported model"].
Definition ROUTE_CONFIG_ERROR_GENERIC_TOKENS : list string :=
  ["not_found_error"; "does not exist"; "not supported when using"].
Definition NOT_ROUTE_CONFIG_TOKENS : list string :=
  ["context length"; "context_length"; "context window"; "maximum context"; "too many tokens"; "rate limit";
   "rate_limit"; "too many requests"; "billing"; "credits"; "insufficient"; "quota"; "payment"; "free tier";
   "timed out"; "timeout"].

Definition is_summary_route_config_error (e : option provider_error) : bool :=
  match e with
  | None => false
  | Some e =>
      if is_timeout e then false else
      let m := lower (message e) in
      if negb (bool_decide (effective_status e m = Some 400 ∨ effective_status e m = Some 404 ∨ effective_status e m = None))
         || any_occurs NOT_ROUTE_CONFIG_TOKENS m then false
      else any_occurs ROUTE_CONFIG_ERROR_TOKENS m || occurs "model" m && any_occurs ROUTE_CONFIG_ERROR_GENERIC_TOKENS m
  end.

Definition CONTEXT_LENGTH_ERROR_TOKENS : list string :=
  ["context length"; "context_length"; "context window"; "maximum context"; "max context"; "too many tokens";
   "token limit"; "prompt is too long"; "input too long"; "request too large"; "context limit"; "maximum number of tokens"].
Definition NOT_CONTEXT_LENGTH_TOKENS : list string := ["rate limit"; "rate_limit"; "too many requests"; "quota"].

Definition is_summary_context_length_error (e : option provider_error) : bool :=
  match e with
  | None => false
  | Some e =>
      if is_timeout e then false else
      let m := lower (message e) in
      if bool_decide (effective_status e m = Some 429) || bool_decide (plain_status e = Some 429) then false
      else if any_occurs (spaced <$> NOT_CONTEXT_LENGTH_TOKENS) (respaced false m) then false
      else any_occurs CONTEXT_LENGTH_ERROR_TOKENS m
  end.

Definition is_summary_content_filter_error (e : option provider_error) : bool :=
  match e with
  | None => false
  | Some e =>
      if is_timeout e then false else
      let m := lower (message e +:+ " " +:+ body_text e +:+ " " +:+ response_text e) in
      bool_decide (effective_status e m = Some 400)
      && (any_occurs ["contentfilter"; "content_filter"; "content_policy_violation"] m
          || has_word_1301 false m && occurs "sensitive" m)
  end.

(** ** Attempts and outcomes *)

(** [ended] is read under a budget only. *)
Record timing := { started : Z; ended : Z; deadline_installed : bool }.

(** [None] for the text is a call without a result, [route] is empty or what the host named. *)
Record attempt := { result_text : option text; attempt_error : option provider_error;
                    attempt_route : option (option string * option string); attempt_timing : timing }.

Inductive outcome_kind :=
  | BudgetCut | Accepted | VerbatimSmallSource | RejectedResult | ConfigErrorOutcome | ContentFilter | ContextLength
  | Failure | Rejection.
#[global] Instance outcome_kind_eq_dec : EqDecision outcome_kind.
Proof. solve_decision. Defined.

Record outcome := { outcome_is : outcome_kind; hang : bool; record_hang : bool }.
Definition plain (k : outcome_kind) : outcome := {| outcome_is := k; hang := false; record_hang := false |}.

Record facts := {
  budget_present : bool; budget_bound : bool; call_timeout : option Z; configured_timeout : Z; hard : Z; reserve : Z;
  leaf_reserve : Z; usable_deadline : Z; now : Z; breaker_present : bool; accepts_result : bool;
  verbatim_small_source : bool; source_tokens : option Z; result_tokens : Z; context_length_rescue : bool }.

Definition is_budget_cut (e : option provider_error) (bound : bool) (wall : Z) (timeout : option Z) (installed : bool)
    (now usable : Z) : bool :=
  match e with
  | None => false
  | Some e =>
      let m := lower (message e) in
      let timeout_like := is_timeout e || occurs "timed out" m || occurs "timeout" m in
      let at_deadline := bool_decide (usable - 1 <= now) in
      timeout_like && occurs "host compression deadline" m
      || bound && at_deadline
      || timeout_like && bound && match timeout with Some t => bool_decide (t - 1 <= wall) | None => false end
      || installed && match timeout with Some t => bool_decide (t + 1 < wall) | None => false end && at_deadline
  end.

(** [bool(text)] *)
Definition has_text (r : option text) : bool := match r with Some (_ :: _) => true | _ => false end.

(** The outcome of an attempt the budget did not cut. *)
Definition settled_outcome (a : attempt) (f : facts) : outcome :=
  if has_text (result_text a) && accepts_result f then plain Accepted
  else if has_text (result_text a) && verbatim_small_source f
          && match source_tokens f with Some n => bool_decide (n <= result_tokens f) | None => false end
       then plain VerbatimSmallSource
  else match result_text a with
       | Some _ => plain (if breaker_present f then Rejection else RejectedResult)
       | None =>
           plain (if is_summary_route_config_error (attempt_error a) then ConfigErrorOutcome
                  else if is_summary_content_filter_error (attempt_error a) then ContentFilter
                  else if context_length_rescue f && is_summary_context_length_error (attempt_error a) then ContextLength
                  else Failure)
       end.

(** A budget-cut call that used nine tenths of the window hung. *)
Definition cut_outcome (a : attempt) (f : facts) : outcome :=
  let wall := ended (attempt_timing a) - started (attempt_timing a) in
  let window := hard f - reserve f - leaf_reserve f in
  let full_window := if budget_bound f then Z.min (configured_timeout f) window else window in
  let used_window :=
    budget_bound f && match call_timeout f with Some t => bool_decide (9 * full_window <= 10 * t) | None => false end
    || deadline_installed (attempt_timing a) && bool_decide (usable_deadline f - 1 <= ended (attempt_timing a)) in
  let h := used_window && bool_decide (9 * full_window <= 10 * wall) in
  {| outcome_is := BudgetCut; hang := h; record_hang := breaker_present f && h |}.

Definition classify_summary_outcome (a : attempt) (f : facts) : outcome :=
  if budget_present f && negb (bool_decide (is_Some (result_text a)))
     && is_budget_cut (attempt_error a) (budget_bound f) (ended (attempt_timing a) - started (attempt_timing a))
          (call_timeout f) (deadline_installed (attempt_timing a)) (now f) (usable_deadline f)
  then cut_outcome a f
  else settled_outcome a f.

Definition error_of (m : string) : option provider_error :=
  Some {| type_name := "BadRequestError"; is_timeout := false; message := m; status_code := None; plain_status := None;
          body_text := ""; response_text := "" |}.
Example predicates :
  (is_summary_route_config_error (error_of "Error code: 404 - Unknown model x"),
   is_summary_route_config_error (error_of "status 500: unknown model"),
   is_summary_route_config_error (error_of "model does not exist; rate limit"),
   is_summary_context_length_error (error_of "Prompt is too long"),
   is_summary_context_length_error (error_of "Rate-Limit: too many tokens"),
   is_summary_content_filter_error (error_of "error code: 400, 1301 sensitive"))
  = (true, false, false, true, false, true).
Proof. vm_compute. reflexivity. Qed.
