(* ===== verification/Escalation.v ===== *)
(** Summarization by escalation (escalation.py): the chain of model routes behind the
    circuit breaker, the spend guard and the foreground budget, and the three levels
    of [summarize_with_escalation].

    A call of the host's model is the argument [call_model]; the clock is [clock n],
    its [n]-th reading, and the prompts are functions of the text and the budget.  The
    state is what the code mutates; the calls made are recorded in it.  Only the
    budget raises. *)

From S2P Require Import Prelude Chunking PyText Truncation SpendGuard CircuitBreaker SummaryOutcome.
From stdpp Require Import options.

#[local] Open Scope Z_scope.

(** ** The foreground budget *)

Inductive stop := TimeBudgetExhausted | SoftTargetReached.

Record estimates := { est_calls : gmap string (list Z); est_finalize : list Z }.

(** [sorted(samples)[math.ceil(0.9 * len(samples)) - 1]] *)
Definition p90 (samples : list Z) (cold : Z) : Z :=
  match samples with
  | [] => cold
  | _ => default cold (merge_sort Z.le samples !! ((9 * length samples + 9) / 10 - 1)%nat)
  end.

(** [l[-8:]] *)
Definition last_eight (l : list Z) : list Z := drop (length l - 8) l.

Definition MIN_CALL_SECONDS : Z := 15.

Definition call_estimate (route_key : string) (ceiling : Z) (e : estimates) : Z :=
  Z.min (Z.max (p90 (default [] (est_calls e !! route_key)) 30) MIN_CALL_SECONDS) ceiling.
Definition record_estimate (route_key : string) (wall : Z) (e : estimates) : estimates :=
  {| est_calls := <[route_key := last_eight (default [] (est_calls e !! route_key) ++ [wall])]> (est_calls e);
     est_finalize := est_finalize e |}.
Definition record_finalize (wall : Z) (e : estimates) : estimates :=
  {| est_calls := est_calls e; est_finalize := last_eight (est_finalize e ++ [wall]) |}.
Definition finalize_reserve (e : estimates) : Z := Z.min 20 (Z.max 5 (p90 (est_finalize e) 0)).

Record budget := {
  b_t0 : Z; b_soft : Z; b_hard : Z; b_configured : Z; b_reserve : Z; b_leaf_reserve : Z; b_progress : string;
  b_estimates : estimates; b_slot_taken : bool; b_stop_reason : option stop; b_hung_route : option string;
  b_first_started : option Z; b_last_ended : option Z; b_summary_failure : string }.

Definition b_usable_deadline (b : budget) : Z := b_t0 b + b_hard b - b_reserve b - b_leaf_reserve b.
Definition b_estimate (route_key : string) (b : budget) : Z :=
  call_estimate route_key (Z.min (b_configured b) (b_hard b - b_reserve b)) (b_estimates b).

Definition with_stop (r : stop) (b : budget) : budget :=
  {| b_t0 := b_t0 b; b_soft := b_soft b; b_hard := b_hard b; b_configured := b_configured b; b_reserve := b_reserve b;
     b_leaf_reserve := b_leaf_reserve b; b_progress := b_progress b; b_estimates := b_estimates b;
     b_slot_taken := b_slot_taken b; b_stop_reason := Some r; b_hung_route := b_hung_route b;
     b_first_started := b_first_started b; b_last_ended := b_last_ended b; b_summary_failure := b_summary_failure b |}.
Definition with_slot (b : budget) : budget :=
  {| b_t0 := b_t0 b; b_soft := b_soft b; b_hard := b_hard b; b_configured := b_configured b; b_reserve := b_reserve b;
     b_leaf_reserve := b_leaf_reserve b; b_progress := b_progress b; b_estimates := b_estimates b;
     b_slot_taken := true; b_stop_reason := b_stop_reason b; b_hung_route := b_hung_route b;
     b_first_started := b_first_started b; b_last_ended := b_last_ended b; b_summary_failure := b_summary_failure b |}.
Definition with_hung (k : string) (b : budget) : budget :=
  {| b_t0 := b_t0 b; b_soft := b_soft b; b_hard := b_hard b; b_configured := b_configured b; b_reserve := b_reserve b;
     b_leaf_reserve := b_leaf_reserve b; b_progress := b_progress b; b_estimates := b_estimates b;
     b_slot_taken := b_slot_taken b; b_stop_reason := b_stop_reason b; b_hung_route := Some k;
     b_first_started := b_first_started b; b_last_ended := b_last_ended b; b_summary_failure := b_summary_failure b |}.
Definition with_failure (e : string) (b : budget) : budget :=
  {| b_t0 := b_t0 b; b_soft := b_soft b; b_hard := b_hard b; b_configured := b_configured b; b_reserve := b_reserve b;
     b_leaf_reserve := b_leaf_reserve b; b_progress := b_progress b; b_estimates := b_estimates b;
     b_slot_taken := b_slot_taken b; b_stop_reason := b_stop_reason b; b_hung_route := b_hung_route b;
     b_first_started := b_first_started b; b_last_ended := b_last_ended b;
     b_summary_failure := "summary call failed: " +:+ e |}.
(** [record_call] *)
Definition with_call (route_key : string) (t : timing) (b : budget) : budget :=
  {| b_t0 := b_t0 b; b_soft := b_soft b; b_hard := b_hard b; b_configured := b_configured b; b_reserve := b_reserve b;
     b_leaf_reserve := b_leaf_reserve b; b_progress := b_progress b;
     b_estimates := record_estimate route_key (ended t - started t) (b_estimates b);
     b_slot_taken := b_slot_taken b; b_stop_reason := b_stop_reason b; b_hung_route := b_hung_route b;
     b_first_started := match b_first_started b with Some x => Some x | None => Some (started t) end;
     b_last_ended := Some (ended t); b_summary_failure := b_summary_failure b |}.

(** [admit]: the time left, or why not to start. *)
Definition admit_call (route_key : string) (now : Z) (b : budget) : stop + Z :=
  let estimate := b_estimate route_key b in
  let usable_left := b_usable_deadline b - now in
  if bool_decide (b_progress b = "") then
    if bool_decide (usable_left < MIN_CALL_SECONDS) then inl TimeBudgetExhausted else inr usable_left
  else if bool_decide (usable_left < estimate) then inl TimeBudgetExhausted
  else if bool_decide (0 < b_soft b) && bool_decide (b_t0 b + b_soft b < now + estimate) then inl SoftTargetReached
  else inr usable_left.

(** ** State *)

(** What the caller's [provenance] is told. *)
Record provenance := { prov_model : option string; content_filter_error : bool; context_length_error : bool }.

Record call_entry := { call_key : string; call_prompt : text; call_max : Z; call_attempt : attempt }.

Record state := {
  breaker_of : option breaker; guard_of : option guard; budget_of : option budget; prov : provenance;
  chain_error : option string; context_length_handoff : bool; readings : nat; calls_made : list call_entry }.

Definition set_breaker (b : breaker) (s : state) : state :=
  {| breaker_of := Some b; guard_of := guard_of s; budget_of := budget_of s; prov := prov s; chain_error := chain_error s;
     context_length_handoff := context_length_handoff s; readings := readings s; calls_made := calls_made s |}.
Definition set_guard (g : guard) (s : state) : state :=
  {| breaker_of := breaker_of s; guard_of := Some g; budget_of := budget_of s; prov := prov s; chain_error := chain_error s;
     context_length_handoff := context_length_handoff s; readings := readings s; calls_made := calls_made s |}.
Definition map_budget (f : budget → budget) (s : state) : state :=
  {| breaker_of := breaker_of s; guard_of := guard_of s; budget_of := f <$> budget_of s; prov := prov s;
     chain_error := chain_error s; context_length_handoff := context_length_handoff s; readings := readings s;
     calls_made := calls_made s |}.
Definition set_prov (p : provenance) (s : state) : state :=
  {| breaker_of := breaker_of s; guard_of := guard_of s; budget_of := budget_of s; prov := p; chain_error := chain_error s;
     context_length_handoff := context_length_handoff s; readings := readings s; calls_made := calls_made s |}.
Definition set_chain_error (e : option string) (h : bool) (s : state) : state :=
  {| breaker_of := breaker_of s; guard_of := guard_of s; budget_of := budget_of s; prov := prov s; chain_error := e;
     context_length_handoff := h; readings := readings s; calls_made := calls_made s |}.
Definition next_reading (s : state) : state :=
  {| breaker_of := breaker_of s; guard_of := guard_of s; budget_of := budget_of s; prov := prov s;
     chain_error := chain_error s; context_length_handoff := context_length_handoff s; readings := S (readings s);
     calls_made := calls_made s |}.
Definition log_call (c : call_entry) (s : state) : state :=
  {| breaker_of := breaker_of s; guard_of := guard_of s; budget_of := budget_of s; prov := prov s;
     chain_error := chain_error s; context_length_handoff := context_length_handoff s; readings := readings s;
     calls_made := calls_made s ++ [c] |}.

(** Code over the state that may raise a stop. *)
Definition M (A : Type) : Type := state → (stop + A) * state.
#[export] Instance M_ret : MRet M := λ A a s, (inr a, s).
#[export] Instance M_bind : MBind M := λ A B f m s,
  match m s with (inr a, s) => f a s | (inl e, s) => (inl e, s) end.
Definition modify (f : state → state) : M unit := λ s, (inr tt, f s).
Definition read {A} (f : state → A) : M A := λ s, (inr (f s), s).
Definition throw {A} (e : stop) : M A := λ s, (inl e, s).

(** ** The chain of routes *)

(** [_summary_model_chain] *)
Definition add_model (chain : list string) (m : string) : list string :=
  let m := strip m in if bool_decide (m ∈ chain) then chain else chain ++ [m].
Definition summary_model_chain (primary : string) (fallback : list string) : list string :=
  foldl add_model [] (primary :: fallback).

Section chain.
Variable clock : nat → Z.
(** The call number, the prompt, the output limit, the model and the timeout. *)
Variable call_model : nat → text → Z → string → option Z → attempt.
Variable count : text → Z.

Definition tick : M Z := now ← read (λ s, clock (readings s)); _ ← modify next_reading; mret now.

(** [circuit_breaker is None or circuit_breaker.allows(route_key)] *)
Definition ask_breaker (k : string) : M bool :=
  b ← read breaker_of;
  match b with
  | None => mret true
  | Some b => now ← tick; let '(b, ok) := CircuitBreaker.allows k now true b in _ ← modify (set_breaker b); mret ok
  end.
Definition tell_breaker (f : breaker → breaker) : M unit :=
  b ← read breaker_of; match b with None => mret tt | Some b => modify (set_breaker (f b)) end.
(** For the methods that read the clock. *)
Definition tell_breaker_now (f : Z → breaker → breaker) : M unit :=
  b ← read breaker_of; match b with None => mret tt | Some b => now ← tick; modify (set_breaker (f now b)) end.

(** [raise budget.stop(...)] *)
Definition raise_stop {A} (r : stop) : M A := _ ← modify (map_budget (with_stop r)); throw r.

Record options := {
  opt_model : string; opt_fallback : list string; opt_timeout : option Z; opt_deadline : option Z; opt_prefix : string;
  opt_source_tokens : Z; opt_verbatim : bool; opt_rescue : bool }.

(** [summary_route_available]: some route of the chain is not refused. *)
Fixpoint any_allowed (keys : list string) : M bool :=
  match keys with
  | [] => mret false
  | k :: keys => ok ← ask_breaker k; if ok : bool then mret true else any_allowed keys
  end.
Definition summary_route_available (model : string) (fallback : list string) (prefix : string) : M bool :=
  b ← read breaker_of;
  match b with
  | None => mret true
  | Some _ => any_allowed ((λ m, prefix +:+ m) <$> summary_model_chain model fallback)
  end.

Section routes.
Variable o : options.
(** [accepts_result], the prompt and the output limit of the level; whether a result
    that is not shorter returns the source. *)
Variable accepts : text → bool.
Variable prompt : text.
Variable limit : Z.
Variable whole : bool.

(** The timeout of an attempt, and whether the budget bound it. *)
Definition admit_attempt (route_key : string) : M (option Z * bool) :=
  b ← read budget_of;
  match b, opt_deadline o with
  | Some b, _ =>
      now ← tick;
      match admit_call route_key now b with
      | inl r => raise_stop r
      | inr usable_left =>
          let bound := match opt_timeout o with None => true | Some t => bool_decide (usable_left < t) end in
          mret (if bound then Some usable_left else opt_timeout o, bound)
      end
  | None, Some deadline =>
      now ← tick;
      let remaining := deadline - now in
      if bool_decide (remaining < MIN_CALL_SECONDS) then throw TimeBudgetExhausted
      else mret (Some match opt_timeout o with None => remaining | Some t => Z.min t remaining end, false)
  | None, None => mret (opt_timeout o, false)
  end.

(** The spend guard; a foreground compaction takes one slot. *)
Definition take_slot : M bool :=
  g ← read guard_of; b ← read budget_of;
  match g with
  | None => mret true
  | Some g =>
      if match b with Some b => b_slot_taken b | None => false end then mret true
      else
        now ← (if bool_decide (max_calls g <= 0) then mret 0 else tick);
        let '(g, ok) := try_record_call now g in
        _ ← modify (set_guard g);
        if ok : bool then _ ← modify (map_budget with_slot); mret true else mret false
  end.

Definition make_call (k m : string) (timeout : option Z) : M attempt :=
  n ← read (λ s, length (calls_made s));
  let a := call_model n prompt limit m timeout in
  _ ← modify (log_call {| call_key := k; call_prompt := prompt; call_max := limit; call_attempt := a |});
  mret a.

(** [note_error] *)
Definition note_error (e : option provider_error) : M unit :=
  match e with
  | None => modify (λ s, set_chain_error (chain_error s) true s)
  | Some e => modify (λ s, set_chain_error (Some (type_name e)) (context_length_handoff s) s)
  end.

Definition tell_provenance (f : provenance → provenance) : M unit := modify (λ s, set_prov (f (prov s)) s).
Definition with_model (m : string) (p : provenance) : provenance :=
  {| prov_model := Some m; content_filter_error := content_filter_error p; context_length_error := context_length_error p |}.
Definition with_content_filter (p : provenance) : provenance :=
  {| prov_model := prov_model p; content_filter_error := true; context_length_error := context_length_error p |}.
Definition with_context_length (p : provenance) : provenance :=
  {| prov_model := prov_model p; content_filter_error := content_filter_error p; context_length_error := true |}.

(** The facts of an attempt, read after it. *)
Definition gather (a : attempt) (timeout : option Z) (bound : bool) : M facts :=
  b ← read budget_of;
  breaker ← read breaker_of;
  let accepted := has_text (result_text a) && match result_text a with Some t => accepts t | None => false end in
  now ← (if bool_decide (is_Some b) && negb (bool_decide (is_Some (result_text a)))
            && match attempt_error a with Some _ => true | None => false end then tick else mret 0);
  mret {|
    budget_present := bool_decide (is_Some b); budget_bound := bound; call_timeout := timeout;
    configured_timeout := from_option b_configured 0 b; hard := from_option b_hard 0 b; reserve := from_option b_reserve 0 b;
    leaf_reserve := from_option b_leaf_reserve 0 b; usable_deadline := from_option b_usable_deadline 0 b; now := now;
    breaker_present := bool_decide (is_Some breaker); accepts_result := accepted; verbatim_small_source := whole;
    source_tokens := Some (opt_source_tokens o);
    result_tokens := if has_text (result_text a) && negb accepted && whole then from_option count 0 (result_text a) else 0;
    context_length_rescue := opt_rescue o |}.

(** What the loop does with an outcome: [Some] ends it with a result. *)
Definition settle (m route_key : string) (a : attempt) (oc : outcome) : M (option text) :=
  match outcome_is oc with
  | Accepted => _ ← tell_breaker (record_success route_key); _ ← tell_provenance (with_model m); mret (result_text a)
  | VerbatimSmallSource => _ ← tell_provenance (with_model "deterministic"); mret (result_text a)
  | ConfigErrorOutcome => _ ← tell_breaker_now (record_config_error route_key (attempt_route a)); mret None
  | ContentFilter => _ ← tell_provenance with_content_filter; mret None
  | ContextLength => _ ← note_error None; _ ← tell_provenance with_context_length; mret None
  | Failure => _ ← tell_breaker_now (record_failure route_key); mret None
  | Rejection => _ ← tell_breaker_now (record_rejection route_key); mret None
  | RejectedResult | BudgetCut => mret None
  end.

(** [if outcome.kind is SummaryOutcomeKind.BUDGET_CUT] *)
Definition cut_by_budget {A} (route_key : string) (oc : outcome) : M A :=
  _ ← (if SummaryOutcome.record_hang oc then
         _ ← tell_breaker_now (CircuitBreaker.record_hang route_key);
         ok ← ask_breaker route_key;
         if ok : bool then mret tt else modify (map_budget (with_hung route_key))
       else mret tt);
  raise_stop TimeBudgetExhausted.

(** [circuit_breaker.note_route(route_key, route)] where the host named a route. *)
Definition note_host_route (route_key : string) (a : attempt) : M unit :=
  match attempt_route a with None => mret tt | Some r => tell_breaker (note_route route_key (Some r)) end.

(** The effects of an attempt, and its result. *)
Definition digest (m route_key : string) (timeout : option Z) (bound : bool) (a : attempt) : M (option text) :=
  _ ← match attempt_error a with Some e => note_error (Some e) | None => mret tt end;
  _ ← modify (map_budget (with_call route_key (attempt_timing a)));
  _ ← (if bool_decide (is_Some (result_text a)) then note_host_route route_key a else mret tt);
  f ← gather a timeout bound;
  let oc := classify_summary_outcome a f in
  if bool_decide (outcome_is oc = BudgetCut) then cut_by_budget route_key oc
  else
    _ ← (if bool_decide (is_Some (result_text a)) then mret tt else note_host_route route_key a);
    settle m route_key a oc.

Definition try_route (m route_key : string) (timeout : option Z) (bound : bool) : M (option text) :=
  a ← make_call route_key m timeout; digest m route_key timeout bound a.

Fixpoint invoke_routes (chain : list string) : M (option text) :=
  match chain with
  | [] => mret None
  | m :: chain =>
      let route_key := opt_prefix o +:+ m in
      open ← ask_breaker route_key;
      if negb open then invoke_routes chain
      else
        '(timeout, bound) ← admit_attempt route_key;
        granted ← take_slot;
        if negb granted then mret None
        else
          r ← try_route m route_key timeout bound;
          match r with Some t => mret (Some t) | None => invoke_routes chain end
  end.

(** [_invoke_summary_llm_chain] *)
Definition fail_budget (s : state) : state :=
  match chain_error s with Some e => map_budget (with_failure e) s | None => s end.
Definition invoke_chain : M (option text) := λ s,
  match invoke_routes (summary_model_chain (opt_model o) (opt_fallback o)) (set_chain_error None false s) with
  | (inl e, s) => (inl e, fail_budget s)
  | (inr None, s) => (inr None, if context_length_handoff s then s else fail_budget s)
  | (inr (Some t), s) => (inr (Some t), s)
  end.

End routes.

(** ** The three levels *)

Variable l1_prompt l2_prompt : text → Z → text.
Variable truncate : text → Z → text.

Definition verbatim_source (t : text) (l3_truncate_tokens : Z) : bool := bool_decide (count t <= l3_truncate_tokens).

(** [int(token_budget * l2_budget_ratio)], the ratio a fraction. *)
Definition l2_budget (token_budget : Z) (ratio : Z * Z) : Z := Z.quot (token_budget * ratio.1) ratio.2.

Definition deterministic (t : text) : M (text * Z) := _ ← tell_provenance (with_model "deterministic"); mret (t, 3).

(** One level's call: [Some] ends the escalation. *)
Definition level (o : options) (whole : bool) (t prompt : text) (limit : Z) (number : Z) : M (option (text * Z)) :=
  r ← invoke_chain o (λ r, bool_decide (count r < opt_source_tokens o)) prompt limit whole;
  mret match r with
       | Some (c :: r) =>
           if whole && bool_decide (opt_source_tokens o <= count (c :: r)) then Some (t, 3) else Some (c :: r, number)
       | _ => None
       end.

(** The check before level 3. *)
Definition check_time (o : options) : M unit :=
  b ← read budget_of;
  match match b with Some b => Some (b_usable_deadline b) | None => opt_deadline o end with
  | None => mret tt
  | Some deadline =>
      now ← tick; if bool_decide (deadline - now < MIN_CALL_SECONDS) then raise_stop TimeBudgetExhausted else mret tt
  end.

Definition summarize_with_escalation (o : options) (t : text) (token_budget : Z) (ratio : Z * Z) (l3_truncate_tokens : Z)
    (prompt_version : Z) : M (text * Z) :=
  let factor := if bool_decide (prompt_version = 2) then 3 else 2 in
  if opt_verbatim o && verbatim_source t l3_truncate_tokens then deterministic t
  else
    let whole := opt_verbatim o && bool_decide (count t <= 2 * l3_truncate_tokens) in
    r1 ← level o whole t (l1_prompt t token_budget) (token_budget * factor) 1;
    match r1 with
    | Some r => mret r
    | None =>
        let b2 := l2_budget token_budget ratio in
        r2 ← level o whole t (l2_prompt t b2) (b2 * factor) 2;
        match r2 with
        | Some r => mret r
        | None => _ ← check_time o; deterministic (truncate t l3_truncate_tokens)
        end
    end.

End chain.
