(* ===== verification/EscalationProofs.v ===== *)
(** What summarization promises: a summary of level 1 or 2 is shorter than its source,
    level 3 is the source or its truncation, and only the time limits raise; however
    often it runs, the calls of the host's model in a window stay within the spend
    guard's limit.

    Code is reasoned about by its weakest precondition [wp], for results and stops. *)

From S2P Require Import Prelude Chunking PyText Truncation SpendGuard CircuitBreaker SummaryOutcome Escalation.
From stdpp Require Import options.

#[local] Open Scope Z_scope.

(** ** Weakest preconditions *)

Definition wp {A} (m : M A) (P : A → state → Prop) (E : stop → state → Prop) (s : state) : Prop :=
  match m s with (inr a, s') => P a s' | (inl e, s') => E e s' end.

Lemma wp_bind {A B} (m : M A) (f : A → M B) P E s : wp m (λ a, wp (f a) P E) E s → wp (m ≫= f) P E s.
Proof. unfold wp, mbind, M_bind. by destruct (m s) as [[e|a] s']. Qed.

Lemma wp_mono {A} (m : M A) (P Q : A → state → Prop) (E F : stop → state → Prop) s :
  wp m P E s → (∀ a s', P a s' → Q a s') → (∀ e s', E e s' → F e s') → wp m Q F s.
Proof. unfold wp. destruct (m s) as [[e|a] s']; auto. Qed.

Lemma wp_and {A} (m : M A) (P Q : A → state → Prop) (E F : stop → state → Prop) s :
  wp m P E s → wp m Q F s → wp m (λ a s', P a s' ∧ Q a s') (λ e s', E e s' ∧ F e s') s.
Proof. unfold wp. by destruct (m s) as [[e|a] s']. Qed.

Lemma wp_tick clock (P : Z → state → Prop) E s : P (clock (readings s)) (next_reading s) → wp (tick clock) P E s.
Proof. done. Qed.

(** ** Balance of calls and grants *)

Lemma replay_app rs1 : ∀ rs2 g,
  replay (rs1 ++ rs2) g = ((replay rs2 (replay rs1 g).1).1, (replay rs1 g).2 ++ (replay rs2 (replay rs1 g).1).2).
Proof.
  induction rs1 as [|[r now] rs1 IH]; intros rs2 g; cbn [app replay]; [cbn; by destruct (replay rs2 g)|].
  destruct (answer r now g) as [g' b]. rewrite IH. destruct (replay rs1 g') as [g1 log1]. cbn [fst snd].
  destruct (replay rs2 g1) as [g2 log2]. cbn. by destruct r.
Qed.

Lemma granted_app l1 l2 : granted (l1 ++ l2) = granted l1 ++ granted l2.
Proof. unfold granted. induction l1 as [|[t b] l1 IH]; [done|]. cbn. rewrite IH. by destruct b. Qed.

Lemma replay_limit rs : ∀ g, max_calls (replay rs g).1 = max_calls g.
Proof.
  induction rs as [|[r now] rs IH]; intros g; cbn [replay]; [done|]. pose proof (answer_limits r now g) as (E & _).
  destruct (answer r now g) as [g' b]. specialize (IH g'). destruct (replay rs g') as [g2 log]. cbn in *. congruence.
Qed.

Section balance.
Variable clock : nat → Z.

(** The reservations made at some readings of the clock. *)
Definition reservations (readings : list nat) : list (request * Z) := (λ i, (Reserve, clock i)) <$> readings.

(** The code made [new] calls and asked the guard at the readings [asked]; the guard
    granted [k] more than were made. *)
Record spends (k : Z) (s s' : state) (asked : list nat) (new : list call_entry) : Prop := {
  sp_calls : calls_made s' = calls_made s ++ new;
  sp_readings : (readings s <= readings s')%nat;
  sp_asked : StronglySorted lt asked ∧ ∀ i, i ∈ asked → (readings s <= i < readings s')%nat;
  sp_budget : budget_of s = None → budget_of s' = None;
  sp_guard : ∀ g, guard_of s = Some g → 0 < max_calls g → budget_of s = None →
    guard_of s' = Some (replay (reservations asked) g).1 ∧
    Z.of_nat (length (granted (replay (reservations asked) g).2)) = Z.of_nat (length new) + k }.

Definition balance (k : Z) (s s' : state) : Prop := ∃ asked new, spends k s s' asked new.

Lemma balance_refl s : balance 0 s s.
Proof.
  exists [], []. split.
  - by rewrite app_nil_r.
  - done.
  - split; [constructor|by intros i Hi%not_elem_of_nil].
  - done.
  - by intros g Hg _ _.
Qed.

Lemma sorted_app (l1 l2 : list nat) m :
  StronglySorted lt l1 → StronglySorted lt l2 → (∀ i, i ∈ l1 → (i < m)%nat) → (∀ i, i ∈ l2 → (m <= i)%nat) →
  StronglySorted lt (l1 ++ l2).
Proof.
  intros H1 H2 Hlt Hge. induction H1 as [|i l1 Hs IH Hi]; cbn; [done|]. constructor.
  - apply IH. intros j Hj. apply Hlt. by right.
  - apply Forall_app. split; [done|]. apply Forall_forall. intros j Hj. specialize (Hge j Hj).
    specialize (Hlt i (list_elem_of_here _ _)). lia.
Qed.

Lemma balance_trans j k s1 s2 s3 : balance j s1 s2 → balance k s2 s3 → balance (j + k) s1 s3.
Proof.
  intros (a1 & n1 & [C1 R1 [S1 A1] B1 G1]) (a2 & n2 & [C2 R2 [S2 A2] B2 G2]). exists (a1 ++ a2), (n1 ++ n2). split.
  - by rewrite C2, C1, app_assoc.
  - lia.
  - split; [apply (sorted_app _ _ (readings s2)); [done|done|apply A1|apply A2]|].
    intros i [Hi%A1|Hi%A2]%elem_of_app; lia.
  - auto.
  - intros g Hg Hm Hb. destruct (G1 g Hg Hm Hb) as [E1 L1].
    destruct (G2 _ E1 ltac:(by rewrite replay_limit) (B1 Hb)) as [E2 L2].
    unfold reservations in *. rewrite fmap_app, replay_app. cbn [fst snd]. split; [done|].
    rewrite granted_app, !length_app. lia.
Qed.

(** A change of anything but the calls, the guard and the presence of a budget. *)
Lemma balance_same s s' : calls_made s' = calls_made s → (readings s <= readings s')%nat → guard_of s' = guard_of s →
  (budget_of s = None → budget_of s' = None) → balance 0 s s'.
Proof.
  intros Hc Hr Hg Hb. exists [], []. split; [by rewrite app_nil_r|done| |done|].
  - split; [constructor|by intros i Hi%not_elem_of_nil].
  - intros g E _ _. by rewrite Hg, E.
Qed.

Definition keeps {A} (m : M A) : Prop := ∀ s, wp m (λ _, balance 0 s) (λ _, balance 0 s) s.

Lemma keeps_bind {A B} (m : M A) (f : A → M B) : keeps m → (∀ a, keeps (f a)) → keeps (m ≫= f).
Proof.
  intros Hm Hf s. apply wp_bind. eapply wp_mono; [apply Hm| |done]. intros a s' Hs. cbn.
  eapply wp_mono; [apply Hf|..]; cbn; intros x s2 H2; exact (balance_trans 0 0 _ _ _ Hs H2).
Qed.

Lemma keeps_ret {A} (a : A) : keeps (mret a).
Proof. intros s. apply balance_refl. Qed.
Lemma keeps_read {A} (f : state → A) : keeps (read f).
Proof. intros s. apply balance_refl. Qed.
Lemma keeps_throw {A} e : keeps (throw e : M A).
Proof. intros s. apply balance_refl. Qed.
Lemma keeps_modify f :
  (∀ s, calls_made (f s) = calls_made s ∧ readings (f s) = readings s ∧ guard_of (f s) = guard_of s ∧
        (budget_of s = None → budget_of (f s) = None)) → keeps (modify f).
Proof. intros Hf s. destruct (Hf s) as (? & Hr & ? & ?). apply balance_same; [done|by rewrite Hr|done|done]. Qed.
Lemma keeps_tick : keeps (tick clock).
Proof. intros s. apply balance_same; cbn; [done|lia|done|done]. Qed.

End balance.

Create HintDb keeps discriminated.
#[local] Hint Resolve keeps_ret keeps_read keeps_throw keeps_tick : keeps.

(** Code built from what keeps the balance. *)
Ltac keep :=
  repeat first
    [ solve [eauto with keeps]
    | match goal with |- keeps _ (mbind _ _) => apply keeps_bind; [|intros ?] end
    | apply keeps_modify; intros ?; cbn; split_and!; [done..|by intros ->]
    | match goal with |- keeps _ (match ?x with _ => _ end) => destruct x end ].

(** ** The chain keeps the balance *)

Section chain.
Variable clock : nat → Z.
Variable call_model : nat → text → Z → string → option Z → attempt.
Variable count : text → Z.

Lemma keeps_ask k : keeps clock (ask_breaker clock k).
Proof. unfold ask_breaker. keep. Qed.
Lemma keeps_tell f : keeps clock (tell_breaker f).
Proof. unfold tell_breaker. keep. Qed.
Lemma keeps_tell_now f : keeps clock (tell_breaker_now clock f).
Proof. unfold tell_breaker_now. keep. Qed.
Lemma keeps_stop {A} r : keeps clock (raise_stop r : M A).
Proof. unfold raise_stop. keep. Qed.
#[local] Hint Resolve keeps_ask keeps_tell keeps_tell_now keeps_stop : keeps.

Lemma keeps_admit o k : keeps clock (admit_attempt clock o k).
Proof. unfold admit_attempt. keep; cbn zeta; keep. Qed.
Lemma keeps_note e : keeps clock (note_error e).
Proof. unfold note_error. keep. Qed.
Lemma keeps_provenance f : keeps clock (tell_provenance f).
Proof. unfold tell_provenance. keep. Qed.
Lemma keeps_note_host k a : keeps clock (note_host_route k a).
Proof. unfold note_host_route. keep. Qed.
Lemma keeps_gather o accepts whole a timeout bound : keeps clock (gather clock count o accepts whole a timeout bound).
Proof. unfold gather. keep; cbn zeta; keep. Qed.
#[local] Hint Resolve keeps_admit keeps_note keeps_provenance keeps_note_host keeps_gather : keeps.

Lemma keeps_settle m k a oc : keeps clock (settle clock m k a oc).
Proof. unfold settle. keep. Qed.
Lemma keeps_cut {A} k oc : keeps clock (cut_by_budget clock k oc : M A).
Proof. unfold cut_by_budget. keep. Qed.
#[local] Hint Resolve keeps_settle keeps_cut : keeps.

Lemma spends_vacuous k s s' : (∀ g, guard_of s = Some g → 0 < max_calls g → budget_of s = None → False) →
  calls_made s' = calls_made s → (readings s <= readings s')%nat → (budget_of s = None → budget_of s' = None) →
  balance clock k s s'.
Proof.
  intros Hv Hc Hr Hb. exists [], []. split; [by rewrite app_nil_r|done| |done|].
  - split; [constructor|by intros i Hi%not_elem_of_nil].
  - intros g Hg Hm Hn. by destruct (Hv g Hg Hm Hn).
Qed.

(** A slot is one grant. *)
Lemma slot_balance s :
  wp (take_slot clock) (λ ok s', balance clock (Z.b2z ok) s s') (λ _, balance clock 0 s) s.
Proof.
  unfold take_slot. apply wp_bind. cbn. apply wp_bind. cbn. destruct (guard_of s) as [g|] eqn:Eg.
  2: { apply spends_vacuous; [by rewrite Eg|done..]. }
  destruct (budget_of s) as [b|] eqn:Eb.
  { assert (∀ k s', calls_made s' = calls_made s → (readings s <= readings s')%nat → balance clock k s s') as Hv.
    { intros k s' Hc Hr. apply spends_vacuous; [by rewrite Eb|done..|by rewrite Eb]. }
    destruct (b_slot_taken b); [by apply Hv|]. apply wp_bind.
    eapply (wp_mono _ (λ _ s', calls_made s' = calls_made s ∧ (readings s <= readings s')%nat) _ (λ _ _, False)); [|intros now s' [Hc Hr]|done].
    - case_bool_decide; [done|]. apply wp_tick. cbn. split; [done|lia].
    - cbn. destruct (try_record_call now g) as [g' ok]. apply wp_bind. cbn. destruct ok; cbn; apply Hv; done. }
  apply wp_bind. case_bool_decide as Hm.
  - cbn. destruct (try_record_call 0 g) as [g' ok] eqn:Et. apply wp_bind. cbn. destruct ok; cbn; (apply spends_vacuous; [|done..|cbn; by rewrite Eb]);
      intros g2 E2; rewrite Eg in E2; injection E2 as <-; lia.
  - apply wp_tick. destruct (try_record_call (clock (readings s)) g) as [g' ok] eqn:Et. apply wp_bind. cbn.
    assert (∀ s', calls_made s' = calls_made s → readings s' = S (readings s) → guard_of s' = Some g' → budget_of s' = None →
      balance clock (Z.b2z ok) s s') as Hb.
    { intros s' Hc Hr Hg Hb. exists [readings s], []. split; [by rewrite app_nil_r|lia| |done|].
      - split; [by repeat constructor|]. intros i [->|[]%not_elem_of_nil]%elem_of_cons. lia.
      - intros g2 E2 _ _. rewrite Eg in E2. injection E2 as <-. cbn. rewrite Et. cbn. split; [done|]. by destruct ok. }
    destruct ok; cbn; apply Hb; cbn; rewrite ?Eb; done.
Qed.

Lemma call_balance prompt limit k m timeout s :
  wp (make_call call_model prompt limit k m timeout)
     (λ a s', balance clock (-1) s s' ∧ calls_made s' = calls_made s ++
        [{| call_key := k; call_prompt := prompt; call_max := limit; call_attempt := a |}] ∧
        budget_of s' = budget_of s) (λ _ _, False) s.
Proof.
  unfold make_call. apply wp_bind. cbn. split; [|done]. eexists [], [_]. split; cbn; [done|done| |done|].
  - split; [constructor|by intros i Hi%not_elem_of_nil].
  - intros g Hg _ _. split; [done|lia].
Qed.

Lemma keeps_digest o accepts whole m k timeout bound a :
  keeps clock (digest clock count o accepts whole m k timeout bound a).
Proof. unfold digest. keep; cbn zeta; keep. Qed.

Lemma try_balance o accepts prompt limit whole m k timeout bound s :
  wp (try_route clock call_model count o accepts prompt limit whole m k timeout bound)
     (λ _, balance clock (-1) s) (λ _, balance clock (-1) s) s.
Proof.
  unfold try_route. apply wp_bind. eapply wp_mono; [apply call_balance| |done]. intros a s1 [H1 _]. cbn.
  eapply wp_mono; [apply keeps_digest|..]; intros ? s2 H2; exact (balance_trans clock (-1) 0 _ _ _ H1 H2).
Qed.

(** However the chain ends, it made as many calls as it was granted. *)
Lemma routes_balance o accepts prompt limit whole chain :
  keeps clock (invoke_routes clock call_model count o accepts prompt limit whole chain).
Proof.
  induction chain as [|m chain IH]; cbn [invoke_routes]; [apply keeps_ret|]. cbn zeta.
  apply keeps_bind; [apply keeps_ask|]. intros [|]; cbn [negb]; [|done]. apply keeps_bind; [apply keeps_admit|]. intros [timeout bound].
  intros s. apply wp_bind. eapply wp_mono; [apply slot_balance| |done]. intros [|] s1 H1; cbn [negb]; [|exact H1].
  apply wp_bind. eapply wp_mono; [apply try_balance|..].
  - intros r s2 H2. pose proof (balance_trans clock 1 (-1) _ _ _ H1 H2) as H12. cbn in H12. destruct r as [t|]; [exact H12|].
    eapply wp_mono; [apply IH|..]; intros ? s3 H3; exact (balance_trans clock 0 0 _ _ _ H12 H3).
  - intros e s2 H2. exact (balance_trans clock 1 (-1) _ _ _ H1 H2).
Qed.

Lemma fail_budget_same s : calls_made (fail_budget s) = calls_made s ∧ readings (fail_budget s) = readings s ∧
  guard_of (fail_budget s) = guard_of s ∧ (budget_of (fail_budget s) = None ↔ budget_of s = None).
Proof. unfold fail_budget. destruct (chain_error s); [|done]. cbn. split_and!; [done..|]. destruct (budget_of s); done. Qed.

Lemma fail_budget_balance s : balance clock 0 s (fail_budget s).
Proof. destruct (fail_budget_same s) as (? & E & ? & Hb). apply balance_same; [done|by rewrite E|done|apply Hb]. Qed.

Lemma chain_balance o accepts prompt limit whole : keeps clock (invoke_chain clock call_model count o accepts prompt limit whole).
Proof.
  intros s. unfold wp, invoke_chain.
  pose proof (routes_balance o accepts prompt limit whole (summary_model_chain (opt_model o) (opt_fallback o))
    (set_chain_error None false s)) as H. unfold wp in H.
  assert (balance clock 0 s (set_chain_error None false s)) as H0 by (apply balance_same; cbn; [done|lia|done..]).
  destruct (invoke_routes _ _ _ _ _ _ _ _ _ _) as [[e|[t|]] s'].
  - pose proof (balance_trans clock 0 0 _ _ _ H0 H) as H1. exact (balance_trans clock 0 0 _ _ _ H1 (fail_budget_balance s')).
  - exact (balance_trans clock 0 0 _ _ _ H0 H).
  - pose proof (balance_trans clock 0 0 _ _ _ H0 H) as H1. destruct (context_length_handoff s'); [done|].
    exact (balance_trans clock 0 0 _ _ _ H1 (fail_budget_balance s')).
Qed.
#[local] Hint Resolve chain_balance : keeps.

Lemma keeps_level o whole t prompt limit n : keeps clock (level clock call_model count o whole t prompt limit n).
Proof. unfold level. keep. Qed.
Lemma keeps_check o : keeps clock (check_time clock o).
Proof. unfold check_time. keep. Qed.
Lemma keeps_deterministic t : keeps clock (deterministic t).
Proof. unfold deterministic. keep. Qed.
#[local] Hint Resolve keeps_level keeps_check keeps_deterministic : keeps.

Lemma summarize_balance l1 l2 truncate o t budget ratio l3 version :
  keeps clock (summarize_with_escalation clock call_model count l1 l2 truncate o t budget ratio l3 version).
Proof. unfold summarize_with_escalation. cbn zeta. keep; cbn zeta; keep. Qed.

(** ** Results *)

(** An attempt of this call gave [t]. *)
Definition answered (s s' : state) (t : text) : Prop :=
  ∃ new c, calls_made s' = calls_made s ++ new ∧ c ∈ new ∧ result_text (call_attempt c) = Some t.

(** A run of code since [s]: some calls were made, a budget neither came nor went. *)
Definition since (s s' : state) : Prop :=
  (∃ new, calls_made s' = calls_made s ++ new) ∧ (budget_of s = None → budget_of s' = None).

Lemma balance_since k s s' : balance clock k s s' → since s s'.
Proof. intros (asked & new & [Hc _ _ Hb _]). split; [by exists new|done]. Qed.

Lemma since_trans s1 s2 s3 : since s1 s2 → since s2 s3 → since s1 s3.
Proof. intros [[n1 E1] B1] [[n2 E2] B2]. split; [exists (n1 ++ n2); by rewrite E2, E1, app_assoc|auto]. Qed.

Lemma answered_later s1 s2 s3 t : since s1 s2 → answered s2 s3 t → answered s1 s3 t.
Proof.
  intros [[n1 E1] _] (n2 & c & E2 & Hc & Hr). exists (n1 ++ n2), c. split_and!; [by rewrite E2, E1, app_assoc| |done].
  apply elem_of_app. by right.
Qed.

Lemma answered_grows s1 s2 s3 t : answered s1 s2 t → since s2 s3 → answered s1 s3 t.
Proof.
  intros (n1 & c & E1 & Hc & Hr) [[n2 E2] _]. exists (n1 ++ n2), c. split_and!; [by rewrite E2, E1, app_assoc| |done].
  apply elem_of_app. by left.
Qed.

(** Why a run may stop: a budget or a deadline was set. *)
Definition timed (o : options) (s : state) : Prop := budget_of s ≠ None ∨ opt_deadline o ≠ None.

(** Code that never stops. *)
Definition calm {A} (m : M A) : Prop := ∀ s, wp m (λ _ _, True) (λ _ _, False) s.

Lemma calm_ret {A} (a : A) : calm (mret a).
Proof. done. Qed.
Lemma calm_read {A} (f : state → A) : calm (read f).
Proof. done. Qed.
Lemma calm_modify f : calm (modify f).
Proof. done. Qed.
Lemma calm_tick : calm (tick clock).
Proof. done. Qed.
Lemma calm_bind {A B} (m : M A) (f : A → M B) : calm m → (∀ a, calm (f a)) → calm (m ≫= f).
Proof. intros Hm Hf s. apply wp_bind. eapply wp_mono; [apply Hm| |done]. intros a s' _. apply Hf. Qed.
Create HintDb calm discriminated.
#[local] Hint Resolve calm_ret calm_read calm_modify calm_tick : calm.

#[local] Ltac calmly :=
  repeat first
    [ solve [eauto with calm]
    | match goal with |- calm (mbind _ _) => apply calm_bind; [|intros ?] | |- calm (match ?x with _ => _ end) => destruct x end ].

Lemma calm_ask k : calm (ask_breaker clock k).
Proof using clock. unfold ask_breaker. calmly. Qed.
Lemma calm_tell f : calm (tell_breaker f).
Proof using clock. unfold tell_breaker. calmly. Qed.
Lemma calm_tell_now f : calm (tell_breaker_now clock f).
Proof using clock. unfold tell_breaker_now. calmly. Qed.
Lemma calm_note e : calm (note_error e).
Proof using clock. unfold note_error. calmly. Qed.
Lemma calm_provenance f : calm (tell_provenance f).
Proof using clock. unfold tell_provenance. calmly. Qed.
#[local] Hint Resolve calm_ask calm_tell calm_tell_now calm_note calm_provenance : calm.
Lemma calm_note_host k a : calm (note_host_route k a).
Proof using clock. unfold note_host_route. calmly. Qed.
Lemma calm_slot : calm (take_slot clock).
Proof using clock. unfold take_slot. calmly. Qed.
Lemma calm_settle m k a oc : calm (settle clock m k a oc).
Proof using clock. unfold settle. calmly. Qed.
#[local] Hint Resolve calm_note_host calm_slot calm_settle : calm.

(** Calm code before a claim about the result alone. *)
Lemma wp_after {A B} (m : M A) (f : A → M B) (P : B → Prop) (E : stop → state → Prop) s :
  calm m → (∀ a s', wp (f a) (λ b _, P b) E s') → wp (m ≫= f) (λ b _, P b) E s.
Proof. intros Hm Hf. apply wp_bind. eapply wp_mono; [apply Hm| |done]. intros a s' _. apply Hf. Qed.

Section routes.
Context (o : options) (accepts : text → bool) (prompt : text) (limit : Z) (whole : bool).

(** A result the loop returns. *)
Definition good (s s' : state) (r : option text) : Prop :=
  ∀ t, r = Some t → t ≠ [] ∧ answered s s' t ∧ (accepts t = true ∨ whole = true ∧ opt_source_tokens o <= count t).

Lemma settled_kind a f :
  match outcome_is (settled_outcome a f) with
  | Accepted => has_text (result_text a) = true ∧ accepts_result f = true
  | VerbatimSmallSource => has_text (result_text a) = true ∧ accepts_result f = false ∧ verbatim_small_source f = true ∧
                           ∃ n, source_tokens f = Some n ∧ n <= result_tokens f
  | BudgetCut => False
  | _ => True
  end.
Proof.
  unfold settled_outcome. destruct (has_text (result_text a) && accepts_result f) eqn:E1; [by apply andb_true_iff in E1|].
  destruct (has_text (result_text a) && _ && _) eqn:E2.
  - apply andb_true_iff in E2 as [[E2 E3]%andb_true_iff E4]. rewrite E2 in E1. cbn in *. split_and!; [done..|].
    destruct (source_tokens f) as [n|]; [|done]. apply bool_decide_eq_true in E4. by exists n.
  - destruct (result_text a); cbn; repeat case_match; done.
Qed.

Lemma classify_kind a f :
  match outcome_is (classify_summary_outcome a f) with
  | Accepted => has_text (result_text a) = true ∧ accepts_result f = true
  | VerbatimSmallSource => has_text (result_text a) = true ∧ accepts_result f = false ∧ verbatim_small_source f = true ∧
                           ∃ n, source_tokens f = Some n ∧ n <= result_tokens f
  | BudgetCut => budget_present f = true
  | _ => True
  end.
Proof.
  unfold classify_summary_outcome. destruct (budget_present f && _ && _) eqn:E; cbn.
  - by apply andb_true_iff in E as [[E _]%andb_true_iff _].
  - pose proof (settled_kind a f) as H. by destruct (outcome_is _).
Qed.

(** The facts are those of the attempt. *)
Lemma gather_facts a timeout bound s :
  wp (gather clock count o accepts whole a timeout bound)
     (λ f s', budget_present f = bool_decide (is_Some (budget_of s)) ∧ verbatim_small_source f = whole ∧
        source_tokens f = Some (opt_source_tokens o) ∧
        (accepts_result f = true → ∃ t, result_text a = Some t ∧ accepts t = true) ∧
        (has_text (result_text a) = true → accepts_result f = false → whole = true → result_tokens f = from_option count 0 (result_text a)))
     (λ _ _, False) s.
Proof.
  unfold gather. apply wp_bind. cbn. apply wp_bind. cbn. apply wp_bind.
  eapply (wp_mono _ (λ _ _, True) _ (λ _ _, False)); [by destruct (_ && _)| |done]. intros now s' _. cbn.
  split_and!; [done..| |].
  - intros [_ H]%andb_true_iff. destruct (result_text a) as [t|]; [|done]. by exists t.
  - intros Ht Ha Hw. by rewrite Ht, Ha, Hw in *.
Qed.

Definition facts_of (a : attempt) (f : facts) : Prop :=
  verbatim_small_source f = whole ∧ source_tokens f = Some (opt_source_tokens o) ∧
  (accepts_result f = true → ∃ t, result_text a = Some t ∧ accepts t = true) ∧
  (has_text (result_text a) = true → accepts_result f = false → whole = true → result_tokens f = from_option count 0 (result_text a)).

Definition usable (t : text) : Prop := t ≠ [] ∧ (accepts t = true ∨ whole = true ∧ opt_source_tokens o <= count t).

(** The loop ends with the attempt's text, and only with a usable one. *)
Lemma settle_usable m k a f s : facts_of a f →
  wp (settle clock m k a (classify_summary_outcome a f)) (λ r _, ∀ t, r = Some t → result_text a = Some t ∧ usable t) (λ _ _, False) s.
Proof.
  intros (Hw & Hs & Ha & Hr). pose proof (classify_kind a f) as Hk. unfold settle.
  destruct (outcome_is _); try (by repeat (apply wp_after; [by eauto with calm|intros ? ?])).
  - destruct Hk as [Ht Hacc]. apply wp_after; [by eauto with calm|intros _ s1]. apply wp_after; [by eauto with calm|intros _ s2].
    intros t E. split; [done|]. destruct (Ha Hacc) as (t' & E' & Hok). rewrite E in E'. injection E' as <-. split; [|by left].
    intros ->. by rewrite E in Ht.
  - destruct Hk as (Ht & Hna & Hv & n & Hn & Hle). apply wp_after; [by eauto with calm|intros _ s1].
    intros t E. split; [done|]. rewrite Hw in Hv. rewrite Hr, E in Hle by done. split; [intros ->; by rewrite E in Ht|].
    right. split; [done|]. rewrite Hs in Hn. injection Hn as <-. exact Hle.
Qed.

(** A state that agrees on the presence of a budget. *)
Definition same_budget (s s' : state) : Prop := budget_of s' = None ↔ budget_of s = None.

Lemma wp_budget {A B} (m : M A) (f : A → M B) (P : B → Prop) (E : stop → state → Prop) s :
  wp m (λ _ s', same_budget s s') (λ _ _, False) s → (∀ a s', same_budget s s' → wp (f a) (λ b _, P b) E s') →
  wp (m ≫= f) (λ b _, P b) E s.
Proof using All. intros Hm Hf. apply wp_bind. eapply wp_mono; [exact Hm| |done]. intros a s' H. by apply Hf. Qed.

Lemma note_host_budget k a s : wp (note_host_route k a) (λ _ s', same_budget s s') (λ _ _, False) s.
Proof using Type. unfold note_host_route, tell_breaker. destruct (attempt_route a); [|done]. apply wp_bind. cbn. by destruct (breaker_of s). Qed.

Lemma cut_stops {A} k oc s : wp (cut_by_budget clock k oc : M A) (λ _ _, False) (λ _ _, True) s.
Proof using All.
  unfold cut_by_budget. apply wp_bind.
  assert (calm (if SummaryOutcome.record_hang oc then
         _ ← tell_breaker_now clock (CircuitBreaker.record_hang k); ok ← ask_breaker clock k;
         if ok : bool then mret tt else modify (map_budget (with_hung k)) else mret tt)) as Hc by calmly.
  eapply wp_mono; [apply Hc|done|done].
Qed.

Lemma digest_usable m k timeout bound a s :
  wp (digest clock count o accepts whole m k timeout bound a)
     (λ r _, ∀ t, r = Some t → result_text a = Some t ∧ usable t) (λ _ _, timed o s) s.
Proof using All.
  unfold digest. apply (wp_budget _ _ (λ r, ∀ t, r = Some t → result_text a = Some t ∧ usable t)); [by destruct (attempt_error a)|].
  intros _ s1 H1. apply (wp_budget _ _ (λ r, ∀ t, r = Some t → result_text a = Some t ∧ usable t)).
  { cbn. unfold same_budget. cbn. by destruct (budget_of s1). }
  intros _ s2 H2. apply (wp_budget _ _ (λ r, ∀ t, r = Some t → result_text a = Some t ∧ usable t)).
  { case_bool_decide; [apply note_host_budget|done]. }
  intros _ s3 H3. apply wp_bind. eapply wp_mono; [apply gather_facts| |done]. intros f s4 (Hbp & Hf). cbn.
  assert (budget_present f = true → is_Some (budget_of s3)) as Hb by (rewrite Hbp; apply bool_decide_eq_true). clear Hbp.
  case_bool_decide as Hcut.
  - pose proof (classify_kind a f) as Hk. rewrite Hcut in Hk. apply Hb in Hk.
    assert (timed o s) as Ht.
    { left. intros E. apply not_eq_None_Some in Hk. apply Hk. by apply H3, H2, H1. }
    eapply wp_mono; [apply cut_stops|done|done].
  - apply wp_after; [case_bool_decide; [done|apply calm_note_host]|]. intros _ s6.
    eapply wp_mono; [apply settle_usable; exact Hf|done|done].
Qed.

(** One route: the text that ends the loop is the attempt's. *)
Lemma try_usable m k timeout bound s :
  wp (try_route clock call_model count o accepts prompt limit whole m k timeout bound)
     (λ r s', ∀ t, r = Some t → answered s s' t ∧ usable t) (λ _ _, timed o s) s.
Proof using All.
  unfold try_route. apply wp_bind. eapply wp_mono; [apply call_balance| |done]. intros a s1 (_ & Hc & Hb). cbn.
  eapply wp_mono; [apply (wp_and _ _ _ _ _ _ (keeps_digest o accepts whole m k timeout bound a s1) (digest_usable m k timeout bound a s1))|..].
  - intros r s2 [H1 H2] t E. destruct (H2 t E) as [Ht Hu]. split; [|done]. apply balance_since in H1 as [[n E1] _].
    eexists _, _. split_and!; [rewrite E1, Hc, <-app_assoc; done|apply elem_of_app; left; by left|done].
  - intros e s2 [_ H]. unfold timed in *. by rewrite Hb in H.
Qed.

Lemma admit_timed k s : wp (admit_attempt clock o k) (λ _ _, True) (λ _ _, timed o s) s.
Proof using All.
  unfold admit_attempt. apply wp_bind. cbn. destruct (budget_of s) as [b|] eqn:Eb.
  - assert (timed o s) as Ht by (left; by rewrite Eb). apply wp_bind, wp_tick. by destruct (admit_call _ _ _).
  - destruct (opt_deadline o) eqn:Ed; [|done]. apply wp_bind, wp_tick. cbn. case_bool_decide; [|done]. right. by rewrite Ed.
Qed.

Lemma since_timed s s' : since s s' → timed o s' → timed o s.
Proof using Type. unfold timed. intros [_ Hb] [H|H]; [left; intros E; by apply H, Hb|by right]. Qed.

(** The loop returns usable texts of its attempts; only the time limits stop it. *)
Lemma routes_usable chain : ∀ s,
  wp (invoke_routes clock call_model count o accepts prompt limit whole chain)
     (λ r s', ∀ t, r = Some t → answered s s' t ∧ usable t) (λ _ _, timed o s) s.
Proof using All.
  induction chain as [|m chain IH]; intros s; cbn [invoke_routes]; [done|]. cbn zeta.
  assert (∀ s', since s s' → wp (invoke_routes clock call_model count o accepts prompt limit whole chain)
     (λ r s'', ∀ t, r = Some t → answered s s'' t ∧ usable t) (λ _ _, timed o s) s') as Hnext.
  { intros s' Hs. eapply wp_mono; [apply (IH s')|..].
    - intros r s2 H t E. destruct (H t E). split; [by eapply answered_later|done].
    - intros e s2 H. by apply (since_timed s s'). }
  apply wp_bind. eapply wp_mono; [apply (wp_and _ _ _ _ _ _ (calm_ask _ s) (keeps_ask _ s))| |by intros e s' [? _]].
  intros open s1 [_ H1]. apply balance_since in H1. destruct open; cbn [negb]; [|by apply Hnext].
  apply wp_bind. eapply wp_mono; [apply (wp_and _ _ _ _ _ _ (keeps_admit o (opt_prefix o +:+ m) s1) (admit_timed (opt_prefix o +:+ m) s1))|..].
  2: { intros e s2 [_ H]. by apply (since_timed s s1). }
  intros [timeout bound] s2 [H2 _]. apply balance_since in H2. apply wp_bind.
  eapply wp_mono; [apply (wp_and _ _ _ _ _ _ (calm_slot s2) (slot_balance s2))| |by intros e s' [? _]].
  intros granted s3 [_ H3]. apply balance_since in H3. pose proof (since_trans _ _ _ (since_trans _ _ _ H1 H2) H3) as Hs.
  destruct granted; cbn [negb]; [|done]. apply wp_bind.
  eapply wp_mono; [apply (wp_and _ _ _ _ _ _ (try_balance o accepts prompt limit whole m (opt_prefix o +:+ m) timeout bound s3)
    (try_usable m (opt_prefix o +:+ m) timeout bound s3))|..].
  2: { intros e s4 [_ H]. by apply (since_timed s s3). }
  intros r s4 [H4 H]. apply balance_since in H4. destruct r as [t|]; [|apply Hnext; by eapply since_trans].
  intros t' [= <-]. destruct (H t eq_refl). split; [by eapply answered_later|done].
Qed.

Lemma answered_same s1 s2 s1' s2' t : calls_made s1' = calls_made s1 → calls_made s2' = calls_made s2 →
  answered s1 s2 t → answered s1' s2' t.
Proof using Type. unfold answered. by intros -> ->. Qed.

Lemma chain_usable s :
  wp (invoke_chain clock call_model count o accepts prompt limit whole)
     (λ r s', ∀ t, r = Some t → answered s s' t ∧ usable t) (λ _ _, timed o s) s.
Proof using All.
  pose proof (routes_usable (summary_model_chain (opt_model o) (opt_fallback o)) (set_chain_error None false s)) as H.
  unfold wp, invoke_chain in *. destruct (invoke_routes _ _ _ _ _ _ _ _ _ _) as [[e|[t|]] s']; [exact H| |done].
  intros t' E. destruct (H t' E). split; [|done]. by eapply answered_same.
Qed.

End routes.

(** ** Levels *)

(** One level: a shorter summary of an attempt, or the source where it may be kept. *)
Lemma level_result o whole t prompt limit n s :
  wp (level clock call_model count o whole t prompt limit n)
     (λ r s', ∀ out number, r = Some (out, number) →
        number = n ∧ out ≠ [] ∧ count out < opt_source_tokens o ∧ answered s s' out ∨ number = 3 ∧ out = t ∧ whole = true)
     (λ _ _, timed o s) s.
Proof.
  unfold level. apply wp_bind. eapply wp_mono; [apply chain_usable| |done]. intros [[|c r]|] s' H out number; cbn; [done| |done].
  destruct (H (c :: r) eq_refl) as [Ha [Hne Hok]]. destruct (whole && _) eqn:Ew.
  - intros [= <- <-]. right. by apply andb_true_iff in Ew as [? _].
  - intros [= <- <-]. left. split_and!; [done|done| |done]. destruct Hok as [Hok%bool_decide_eq_true|[-> Hok]]; [done|].
    cbn in Ew. apply bool_decide_eq_false in Ew. lia.
Qed.

Lemma check_timed o s : wp (check_time clock o) (λ _ _, True) (λ _ _, timed o s) s.
Proof.
  unfold check_time. apply wp_bind. cbn. destruct (budget_of s) as [b|] eqn:Eb; [|destruct (opt_deadline o) eqn:Ed; [|done]];
    (apply wp_bind, wp_tick; case_bool_decide; [|done]); [left; by rewrite Eb|right; by rewrite Ed].
Qed.

(** What [summarize_with_escalation] returns for a source. *)
Definition summary_of (truncate : text → Z → text) (o : options) (t : text) (l3 : Z) (s s' : state) (out : text) (lvl : Z) : Prop :=
  (lvl = 1 ∨ lvl = 2) ∧ out ≠ [] ∧ count out < opt_source_tokens o ∧ answered s s' out ∨
  lvl = 3 ∧ out = t ∧ opt_verbatim o = true ∧ count t <= 2 * l3 ∨ lvl = 3 ∧ out = truncate t l3.

Lemma summarize_result l1 l2 truncate o t budget ratio l3 version s : 0 <= l3 ∨ opt_verbatim o = false →
  wp (summarize_with_escalation clock call_model count l1 l2 truncate o t budget ratio l3 version)
     (λ r s', summary_of truncate o t l3 s s' r.1 r.2) (λ _ _, timed o s) s.
Proof.
  intros Hl3. unfold summarize_with_escalation. cbn zeta. destruct (opt_verbatim o && verbatim_source _ _ _) eqn:Ev.
  { apply andb_true_iff in Ev as [Ev Hc%bool_decide_eq_true]. right. left. cbn. split_and!; [done..|].
    destruct Hl3 as [?|Hf]; [lia|congruence]. }
  apply wp_bind. eapply wp_mono; [apply (wp_and _ _ _ _ _ _ (keeps_level o _ t _ _ 1 s) (level_result o _ t _ _ 1 s))| |by intros e s' [_ ?]].
  intros r1 s1 [H1 Hr1]. apply balance_since in H1. destruct r1 as [[out n]|].
  { destruct (Hr1 out n eq_refl) as [(-> & ? & ? & ?)|(-> & -> & Hw)]; cbn; [left; split_and!; [by left|done..]|].
    apply andb_true_iff in Hw as [? ?%bool_decide_eq_true]. right. left. by split_and!. }
  apply wp_bind. eapply wp_mono; [apply (wp_and _ _ _ _ _ _ (keeps_level o _ t _ _ 2 s1) (level_result o _ t _ _ 2 s1))|..].
  2: { intros e s2 [_ H]. by eapply since_timed. }
  intros r2 s2 [H2 Hr2]. apply balance_since in H2. destruct r2 as [[out n]|].
  { destruct (Hr2 out n eq_refl) as [(-> & ? & ? & ?)|(-> & -> & Hw)]; cbn.
    - left. split_and!; [by right|done|done|by eapply answered_later].
    - apply andb_true_iff in Hw as [? ?%bool_decide_eq_true]. right. left. by split_and!. }
  apply wp_bind. eapply wp_mono; [apply check_timed|..].
  - intros _ s3 _. right. right. by split.
  - intros e s3 H. apply (since_timed o s s2); [by eapply since_trans|done].
Qed.

End chain.

(** ** The theorems *)

Section tokens.
Variable enc : option encoder.

(** The truncation, whose fuel is enough. *)
Definition truncate_with (t : text) (m : Z) : text := default [] (deterministic_truncate enc t m).

End tokens.

(** C6: a summary converges: whatever the routes answer and the guards refuse, a result
    of level 1 or 2 is a text a route gave in this call, with fewer tokens than the
    source; otherwise level 3 returns a small source whole or cuts it within its
    budget; and only a budget or a deadline makes the call stop without a result. *)
Theorem summarize_converges enc clock call_model l1 l2 o t budget ratio l3 version s :
  0 <= l3 → enc = None ∨ count_tokens enc L3_TRUNCATION_MARKER + 4 < l3 →
  match summarize_with_escalation clock call_model (count_tokens enc) l1 l2 (truncate_with enc) o t budget ratio l3 version s with
  | (inr (out, lvl), s') =>
      (lvl = 1 ∨ lvl = 2) ∧ out ≠ [] ∧ count_tokens enc out < opt_source_tokens o ∧ answered s s' out ∨
      lvl = 3 ∧ (out = t ∧ opt_verbatim o = true ∧ count_tokens enc t <= 2 * l3 ∨
                 deterministic_truncate enc t l3 = Some out ∧ count_tokens enc out <= l3)
  | (inl _, _) => timed o s
  end.
Proof.
  intros H0 Henc. pose proof (summarize_result clock call_model (count_tokens enc) l1 l2 (truncate_with enc) o t budget ratio l3 version s (or_introl H0)) as H.
  unfold wp in H. destruct (summarize_with_escalation _ _ _ _ _ _ _ _ _ _ _ _ _) as [[e|[out lvl]] s']; [done|].
  unfold summary_of in H. cbn [fst snd] in H. destruct H as [?|[(? & ? & ? & ?)|[-> ->]]]; [by left|right; split; [done|by left]|].
  right. split; [done|]. right. destruct (bisect_or_cut enc t l3 H0 Henc) as (out' & E & Hc & _). unfold truncate_with. by rewrite E.
Qed.

(** A process summarizes, with any texts and options, without a foreground budget. *)
Definition summarizes (enc : option encoder) (clock : nat → Z) (call_model : nat → text → Z → string → option Z → attempt)
    (s s' : state) : Prop :=
  ∃ l1 l2 o t budget ratio l3 version,
    s' = (summarize_with_escalation clock call_model (count_tokens enc) l1 l2 (truncate_with enc) o t budget ratio l3 version s).2.

Lemma summarizes_balance enc clock call_model s s' : rtc (summarizes enc clock call_model) s s' → balance clock 0 s s'.
Proof.
  induction 1 as [s|s1 s2 s3 (l1 & l2 & o & t & b & ratio & l3 & v & ->) _ IH]; [apply balance_refl|].
  pose proof (summarize_balance clock call_model (count_tokens enc) l1 l2 (truncate_with enc) o t b ratio l3 v s1) as H. unfold wp in H.
  destruct (summarize_with_escalation _ _ _ _ _ _ _ _ _ _ _ _ _) as [[e|r] s2]; exact (balance_trans clock 0 0 _ _ _ H IH).
Qed.

Lemma reservations_ordered clock : (∀ i j, (i <= j)%nat → clock i <= clock j) →
  ∀ asked last, StronglySorted lt asked → (∀ i, i ∈ asked → last <= clock i) → SpendGuard.ordered last (reservations clock asked).
Proof.
  intros Hc asked. induction asked as [|i asked IH]; intros last Hs Hl; cbn; [done|]. apply StronglySorted_inv in Hs as [Hs Hi].
  split; [apply Hl; by left|]. apply IH; [done|]. intros j Hj. rewrite Forall_forall in Hi. apply Hc. specialize (Hi j Hj). lia.
Qed.

Lemma granted_times clock asked : ∀ g x, x ∈ granted (replay (reservations clock asked) g).2 → ∃ i, i ∈ asked ∧ x = clock i.
Proof.
  induction asked as [|i asked IH]; intros g x; cbn; [by intros Hx%not_elem_of_nil|].
  destruct (try_record_call (clock i) g) as [g' b]. specialize (IH g'). unfold reservations in *. destruct (replay _ g') as [g2 log]. cbn in *.
  destruct b; cbn.
  - intros [->|Hx]%elem_of_cons; [exists i; split; [by left|done]|]. destruct (IH x Hx) as (j & ? & ?). exists j. split; [by right|done].
  - intros Hx. destruct (IH x Hx) as (j & ? & ?). exists j. split; [by right|done].
Qed.

Lemma tally_all {A} (p : A → bool) l : (∀ x, x ∈ l → p x = true) → tally p l = length l.
Proof.
  induction l as [|x l IH]; intros H; cbn; [done|]. rewrite (H x), IH; [done| |by left]. intros y Hy. apply H. by right.
Qed.


(** Two routes: the first call fails and opens its route, later ones answer; the guard
    grants two calls, so the second summary is cut. *)
Definition sample_error : provider_error :=
  {| type_name := "APIError"; is_timeout := false; message := "boom"; status_code := Some 500; plain_status := None;
     body_text := ""; response_text := "" |}.
Definition sample_model (n : nat) (_ : text) (_ : Z) (_ : string) (_ : option Z) : attempt :=
  {| result_text := if bool_decide (n = 0%nat) then None else Some (ascii_text "short");
     attempt_error := if bool_decide (n = 0%nat) then Some sample_error else None; attempt_route := None;
     attempt_timing := {| started := 0; ended := 0; deadline_installed := false |} |}.
Definition sample_options : options :=
  {| opt_model := " a"; opt_fallback := ["b"; "a"]; opt_timeout := None; opt_deadline := None; opt_prefix := "";
     opt_source_tokens := 15; opt_verbatim := false; opt_rescue := false |}.
Definition sample_state : state :=
  {| breaker_of := Some (CircuitBreaker.fresh 1 300 6); guard_of := Some (SpendGuard.fresh 2 60 90); budget_of := None;
     prov := {| prov_model := None; content_filter_error := false; context_length_error := false |};
     chain_error := None; context_length_handoff := false; readings := 0; calls_made := [] |}.
Definition sample_source : text := ascii_text "a text that is long enough to be summarized by the host".
Definition sample_run (s : state) : (stop + text * Z) * state :=
  summarize_with_escalation Z.of_nat sample_model (count_tokens None) (λ t _, t) (λ t _, t) (truncate_with None)
    sample_options sample_source 10 (1, 2) 5 1 s.

Lemma summarize_converges_witness :
  (sample_run sample_state).1 = inr (ascii_text "short", 1) ∧
  (∃ s', answered sample_state s' (ascii_text "short")) ∧
  (sample_run (sample_run sample_state).2).1 = inr (ascii_text "a text that is ", 3).
Proof.
  assert ((sample_run sample_state).1 = inr (ascii_text "short", 1)) as E by (vm_compute; reflexivity).
  split; [exact E|]. split; [|vm_compute; reflexivity].
  pose proof (summarize_converges None Z.of_nat sample_model (λ t _, t) (λ t _, t) sample_options sample_source 10 (1, 2) 5 1 sample_state
    ltac:(lia) (or_introl eq_refl)) as H. change (summarize_with_escalation _ _ _ _ _ _ _ _ _ _ _ _ sample_state) with (sample_run sample_state) in H.
  destruct (sample_run sample_state) as [r s']. cbn in E. subst r. exists s'. destruct H as [(_ & _ & _ & H)|[H _]]; [exact H|discriminate H].
Defined.

