(* ===== verification/RollupBuilder.v ===== *)
(** Building rollups (rollup_builder.py): the sources of a day, the builds of days,
    weeks and months over the rollup store, and the bounded maintenance pass.

    A build is a sequence of accesses to the database.  Other processes act between
    them: [others n] is what they did before the [n]-th access.  The summarizer, the
    hashes, SQLite's choice [pick], the clocks and the texts for people are arguments;
    an exception is an [Err] that the build catches itself. *)

From S2P Require Import Prelude PyText Calendar Frontier LineageLoad RollupStore Chunking Truncation.
From stdpp Require Import options.

#[local] Open Scope Z_scope.

(** ** Errors and sources *)

Inductive build_error :=
  | WorkLimitExceeded | NotCanonical (e : frontier_error) | Level3NotStored | SummarizerRaised (e : string)
  | StoreRaised (e : store_error).

(** A node of the frontier: its id, its summary and the interval it covers. *)
Record source := { source_id : Z; source_summary : text; source_start : Z; source_end : Z }.

Definition FRONTIER_WORK_LIMIT : Z := 4096.

Definition node_earliest (n : node) : Z := default (created_at n) (RollupStore.earliest_at n).
Definition node_latest (n : node) : Z := default (created_at n) (RollupStore.latest_at n).

Definition lineage_table (db : database) : gmap Z summary_row :=
  (λ n, {| LineageLoad.from_nodes := RollupStore.from_nodes n; LineageLoad.source_ids := RollupStore.source_ids n |}) <$> summary_nodes db.

Definition candidate (x : Z * node) : CoverageNode :=
  {| node_id := x.1; Frontier.depth := RollupStore.depth x.2;
     Frontier.source_node_ids := if RollupStore.from_nodes x.2 then RollupStore.source_ids x.2 else [];
     Frontier.earliest_at := Some (node_earliest x.2); Frontier.latest_at := Some (node_latest x.2) |}.

(** [ORDER BY COALESCE(latest_at, created_at), node_id]; [ORDER BY node_id] *)
Definition latest_le (x y : Z * node) : Prop :=
  node_latest x.2 < node_latest y.2 ∨ node_latest x.2 = node_latest y.2 ∧ x.1 <= y.1.
#[export] Instance latest_le_dec : RelDecision latest_le.
Proof. intros x y. unfold latest_le. apply _. Defined.
Definition id_le (x y : Z * node) : Prop := x.1 <= y.1.
#[export] Instance id_le_dec : RelDecision id_le.
Proof. intros x y. unfold id_le. apply _. Defined.

Definition source_of_node (x : Z * node) : source :=
  {| source_id := x.1; source_summary := node_summary x.2;
     source_start := Z.min (node_earliest x.2) (node_latest x.2); source_end := Z.max (node_earliest x.2) (node_latest x.2) |}.

Section frontier.
Variable pick : nat → gset Z → list Z.

(** The canonical frontier of some stored rows, from the lineage below [roots]. *)
Definition frontier_of (rows : list (Z * node)) (roots : list Z) (db : database) : result build_error (list source) :=
  match load_source_lineage pick (lineage_table db) roots FRONTIER_WORK_LIMIT with
  | Err _ => Err WorkLimitExceeded
  | Ok lin =>
      match canonical_frontier (candidate <$> rows) lin with
      | Err e => Err (NotCanonical e)
      | Ok nodes => Ok (omap (λ n, source_of_node ∘ pair (node_id n) <$> summary_nodes db !! node_id n) nodes)
      end
  end.

Definition scope_rows (db : database) (s : string) : list (Z * node) :=
  filter (λ x, session_id x.2 = s) (map_to_list (summary_nodes db)).

Definition scope_frontier (db : database) (s : string) : result build_error (list source) :=
  let rows := scope_rows db s in
  if bool_decide (FRONTIER_WORK_LIMIT < Z.of_nat (length rows)) then Err WorkLimitExceeded
  else if bool_decide (rows = []) then Ok []
  else let rows := merge_sort latest_le rows in frontier_of rows rows.*1 db.

(** [covered_start < day_end and covered_end >= day_start] *)
Definition covers_day (d : Z) (x : source) : bool :=
  bool_decide (source_start x < (d + 1) * 86400) && bool_decide (d * 86400 <= source_end x).

Definition daily_sources (db : database) (s : string) (d : Z) : result build_error (list source) :=
  let! frontier := scope_frontier db s in Ok (filter (λ x, covers_day d x = true) frontier).

(** [while current <= end] *)
Definition days_between (first last : Z) : list Z := seqZ first (last + 1 - first).

Definition days_with_content (db : database) (s : string) (first last : Z) : result build_error (list Z) :=
  let! frontier := scope_frontier db s in
  Ok (filter (λ d, existsb (covers_day d) frontier = true) (days_between first last)).

Definition canonical_aggregate_sources (db : database) (ids : list Z) : result build_error (list source) :=
  let unique := fromkeys ids in
  if bool_decide (FRONTIER_WORK_LIMIT < Z.of_nat (length unique)) then Err WorkLimitExceeded
  else if bool_decide (unique = []) then Ok []
  else
    let rows := merge_sort id_le (omap (λ id, pair id <$> summary_nodes db !! id) unique) in
    frontier_of rows unique db.

(** [SELECT DISTINCT node_id ... ORDER BY node_id] *)
Definition rollup_source_ids (db : database) (ids : list Z) : list Z :=
  merge_sort Z.le (elements (set_map snd (filter (λ x : Z * Z, x.1 ∈ ids) (rollup_sources db)) : gset Z)).

End frontier.

(** ** Capped summaries *)

Section summarize.
Variable enc : option encoder.
(** The call number, the text, its tokens, the target and the hard limit. *)
Variable summarizer : nat → text → Z → Z → Z → result build_error (text * Z).

(** [while True], with a bound on its rounds: [None] if it is spent. *)
Fixpoint summarize_rounds (fuel n : nat) (source candidate : text) (target hard_max previous : Z)
    : option (result build_error (text * Z)) :=
  match fuel with
  | O => None
  | S fuel =>
      match summarizer n candidate (Z.max 1 previous) target hard_max with
      | Err e => Some (Err e)
      | Ok (summary, level) =>
          if bool_decide (level = 3) && negb (bool_decide (summary = source)) then Some (Err Level3NotStored)
          else
            let tokens := count_tokens enc summary in
            if bool_decide (tokens <= hard_max) then Some (Ok (summary, tokens))
            else if bool_decide (previous <= tokens) then
              let truncated := default [] (deterministic_truncate enc summary hard_max) in
              Some (Ok (truncated, count_tokens enc truncated))
            else summarize_rounds fuel (S n) source summary target hard_max tokens
      end
  end.

Definition summarize_capped (t : text) (target_tokens max_tokens : Z) : option (result build_error (text * Z)) :=
  let target := Z.max 1 (Z.min target_tokens max_tokens) in
  let hard_max := Z.max 1 max_tokens in
  let previous := count_tokens enc t in
  summarize_rounds (S (Z.to_nat previous)) 0 t t target hard_max previous.

End summarize.

(** ** Accesses *)

(** [published]: the publications that answered [True], for the statements about them. *)
Record world := { store : database; accesses : nat; readings : nat; published : list (token * list Z) }.

Definition B (A : Type) : Type := world → result build_error A * world.
#[export] Instance B_ret : MRet B := λ A a w, (Ok a, w).
#[export] Instance B_bind : MBind B := λ A C f m w,
  match m w with (Ok a, w) => f a w | (Err e, w) => (Err e, w) end.

Definition lift {A} (r : result build_error A) : B A := λ w, (r, w).
Definition catch {A} (m : B A) (handler : build_error → B A) : B A := λ w,
  match m w with (Err e, w) => handler e w | r => r end.

Record config := { rollup_daily_target_tokens : Z; rollup_daily_max_tokens : Z; rollup_aggregate_max_tokens : Z;
                   rollup_builds_per_pass : Z; rollup_maintenance_budget_ms : Z }.

(** The texts and hashes of the builder, which only their readers interpret. *)
Record rendering := {
  daily_fingerprint : list (Z * text) → string;
  days_fingerprint : list (Z * option rollup) → string;
  describe : build_error → string;
  pending_reason : list Z → string }.

Section builds.
Variable pick : nat → gset Z → list Z.
Variable enc : option encoder.
(** The answers of the summarizer, by the accesses before the build asks it. *)
Variable summarizer : nat → nat → text → Z → Z → Z → result build_error (text * Z).
Variable others : nat → database → database.
Variable now : nat → Z.
Variable nonce_of : nat → string.
Variable cfg : config.
Variable render : rendering.

(** One transaction: after what the others did, with the clock of this access. *)
Definition access {A} (f : Z → database → database * A) : B A := λ w,
  let '(d, a) := f (now (accesses w)) (others (accesses w) (store w)) in
  (Ok a, {| store := d; accesses := S (accesses w); readings := readings w; published := published w |}).
Definition query {A} (f : database → A) : B A := access (λ _ d, (d, f d)).

Definition drain : B Z := access (λ _ d, drain_invalidations 256 256 d).

(** After a summary node was published: apply the outbox, each day marking three periods. *)
Definition mark_stale_for_published_summary (s : string) : B Z :=
  if bool_decide (s = "") then mret 0 else n ← drain; mret (n * 3).

(** [store.upsert_building]; [None] where it returns no token. *)
Definition claim (k : period_kind) (start : Z) (s : string) : B (option token) := λ w,
  access (λ t d, match upsert_building k start s t (nonce_of (accesses w)) d with
                 | Some (d, tok) => (d, Some tok)
                 | None => (d, None)
                 end) w.

Definition note_publication (tok : token) (ids : list Z) : B unit := λ w,
  (Ok tt, {| store := store w; accesses := accesses w; readings := readings w; published := published w ++ [(tok, ids)] |}).

(** [store.mark_ready], which may raise. *)
Definition publish (tok : token) (t : text) (count : Z) (ids : list Z) (fp : string) : B bool :=
  r ← access (λ t0 d, match mark_ready tok t count ids fp t0 d with
                      | Ok (d, b) => (d, Ok b)
                      | Err e => (d, Err (StoreRaised e))
                      end);
  b ← lift r;
  _ ← (if b : bool then note_publication tok ids else mret tt);
  mret b.

(** [_defer_level3] and [_mark_failed] *)
Definition fail_build (tok : token) (e : build_error) : B unit :=
  match e with
  | Level3NotStored => _ ← access (λ _ d, defer_incomplete tok "incomplete: summary at level 3; not stored" d); mret tt
  | _ => _ ← access (λ t d, mark_failed tok (describe render e) t d); mret tt
  end.

Definition newline : text := [10].
Definition node_block (x : source) : text := ascii_text ("[Summary node " +:+ pretty (source_id x) +:+ "]") ++ newline ++ source_summary x.
(** ["\n\n".join(...)] *)
Definition source_text (xs : list source) : text :=
  match node_block <$> xs with [] => [] | b :: bs => b ++ (bs ≫= λ b, newline ++ newline ++ b) end.

Definition by_id (x y : source) : Prop := source_id x <= source_id y.
#[export] Instance by_id_dec : RelDecision by_id.
Proof. intros x y. unfold by_id. apply _. Defined.

(** [_summarize_capped]; a text that is never cut short would be [None]. *)
Definition summarize (t : text) (target_tokens max_tokens : Z) : B (text * Z) := λ w,
  lift (default (Err (SummarizerRaised "out of rounds")) (summarize_capped enc (summarizer (accesses w)) t target_tokens max_tokens)) w.

(** The build of a day once it is claimed. *)
Definition day_body (tok : token) (d : Z) (s : string) : B (option rollup) :=
  r ← query (λ db, daily_sources pick db s d);
  sources ← lift r;
  match sources with
  | [] => _ ← access (λ _ db, resolve_no_source tok db); mret None
  | _ =>
      let ids := merge_sort Z.le (source_id <$> sources) in
      let fp := daily_fingerprint render ((λ x, (source_id x, source_summary x)) <$> merge_sort by_id sources) in
      '(summary, count) ← summarize (source_text sources) (rollup_daily_target_tokens cfg) (rollup_daily_max_tokens cfg);
      ok ← publish tok summary count ids fp;
      _ ← (if ok : bool then access (λ _ db, (stale_aggregates_for_day d s db, tt)) else mret tt);
      query (get_rollup Day d s)
  end.

(** A claimed build, with the handlers around it. *)
Definition guarded (tok : token) (m : B (option rollup)) : B (option rollup) :=
  catch m (λ e, _ ← fail_build tok e; mret None).

Definition build_day (d : Z) (s : string) : B (option rollup) :=
  _ ← drain;
  tok ← claim Day d s;
  match tok with None => mret None | Some tok => guarded tok (day_body tok d s) end.

(** ** Weeks and months *)

Definition period_window (k : period_kind) (d : Z) : Z * Z := (period_start_of k d, period_end k (period_start_of k d)).

(** [_daily_statuses]: the rows of the window's days. *)
Definition daily_statuses (db : database) (first last : Z) (s : string) : list rollup :=
  filter (λ r, kind r = Day ∧ first <= period_start r <= last ∧ scope r = s) (rollups db).
Definition status_of (rows : list rollup) (d : Z) : option rollup := find_first (λ r, period_start r = d) rows.
Definition is_ready (r : option rollup) : bool := match r with Some r => bool_decide (status r = Ready) | None => false end.

Definition aggregate_body (tok : token) (k : period_kind) (first last : Z) (s : string) : B (option rollup) :=
  rows ← query (λ db, daily_statuses db first last s);
  r ← query (λ db, days_with_content pick db s first last);
  content ← lift r;
  let pending := filter (λ d, is_ready (status_of rows d) = false) content in
  match pending with
  | _ :: _ => _ ← access (λ _ db, defer_incomplete tok (pending_reason render pending) db); mret None
  | [] =>
      let days := (λ d, (d, status_of rows d)) <$> days_between first last in
      let ready := omap snd (filter (λ x, is_ready x.2 = true) days) in
      match ready with
      | [] => _ ← access (λ _ db, resolve_no_source tok db); mret None
      | _ =>
          ids ← query (λ db, rollup_source_ids db (rollup_id <$> ready));
          r ← query (λ db, canonical_aggregate_sources pick db ids);
          sources ← lift r;
          match sources with
          | [] => _ ← access (λ _ db, defer_incomplete tok "incomplete: no canonical aggregate sources" db); mret None
          | _ =>
              '(summary, count) ← summarize (source_text sources) (rollup_aggregate_max_tokens cfg) (rollup_aggregate_max_tokens cfg);
              _ ← publish tok summary count (source_id <$> sources) (days_fingerprint render days);
              query (get_rollup k first s)
          end
      end
  end.

Definition build_aggregate (k : period_kind) (d : Z) (s : string) : B (option rollup) :=
  let '(first, last) := period_window k d in
  _ ← drain;
  tok ← claim k first s;
  match tok with None => mret None | Some tok => guarded tok (aggregate_body tok k first last s) end.

Definition build (k : period_kind) (d : Z) (s : string) : B (option rollup) :=
  match k with Day => build_day d s | _ => build_aggregate k d s end.

(** ** Maintenance *)

(** [elapsed n]: the milliseconds since the start at the [n]-th look at the clock. *)
Variable elapsed : nat → Z.
(** Whether a summary route is available before the [n]-th build of the pass. *)
Variable route_available : nat → bool.
(** [now - _FAILED_ROLLUP_BACKOFF] *)
Variable retry_before : Z.

Definition out_of_time : B bool := λ w,
  (Ok (bool_decide (rollup_maintenance_budget_ms cfg <= elapsed (readings w))),
   {| store := store w; accesses := accesses w; readings := S (readings w); published := published w |}).

(** The period kinds in the order of their names. *)
Definition kind_rank (k : period_kind) : Z := match k with Day => 0 | Month => 1 | Week => 2 end.
Definition period_le (a b : rollup) : Prop :=
  period_start a < period_start b ∨ period_start a = period_start b ∧ kind_rank (kind a) <= kind_rank (kind b).
#[export] Instance period_le_dec : RelDecision period_le.
Proof. intros a b. unfold period_le. apply _. Defined.
(** [ORDER BY failed_at, period_start, period_kind], no [failed_at] first. *)
Definition failed_le (a b : rollup) : Prop :=
  match failed_at a, failed_at b with
  | None, None => period_le a b
  | None, Some _ => True
  | Some _, None => False
  | Some x, Some y => x < y ∨ x = y ∧ period_le a b
  end.
#[export] Instance failed_le_dec : RelDecision failed_le.
Proof. intros a b. unfold failed_le. destruct (failed_at a), (failed_at b); apply _. Defined.

Definition is_aggregate (r : rollup) : bool := match kind r with Day => false | _ => true end.
Definition retriable (r : rollup) : Prop :=
  status r = Failed ∧ match failed_at r with Some t => t <= retry_before | None => True end.
#[export] Instance retriable_dec r : Decision (retriable r).
Proof. unfold retriable. destruct (failed_at r); apply _. Defined.

Definition period_of (r : rollup) : period_kind * Z := (kind r, period_start r).
Definition stale_rows (aggregates : bool) (s : string) (limit : nat) (db : database) : list (period_kind * Z) :=
  period_of <$> take limit (merge_sort period_le (filter (λ r, scope r = s ∧ status r = Stale ∧ is_aggregate r = aggregates) (rollups db))).
Definition failed_rows (aggregates : bool) (s : string) (limit : nat) (db : database) : list (period_kind * Z) :=
  period_of <$> take limit (merge_sort failed_le (filter (λ r, scope r = s ∧ retriable r ∧ is_aggregate r = aggregates) (rollups db))).

(** [if len(rows) < limit and there is time: rows.extend(...)] *)
Definition extend (limit : nat) (f : nat → database → list (period_kind * Z)) (rows : list (period_kind * Z))
    : B (list (period_kind * Z)) :=
  if bool_decide (length rows < limit)%nat then
    late ← out_of_time;
    if late : bool then mret rows else more ← query (f (limit - length rows)%nat); mret (rows ++ more)
  else mret rows.

Definition select_rows (s : string) (limit : nat) : B (list (period_kind * Z)) :=
  rows ← query (stale_rows false s limit);
  rows ← extend limit (failed_rows false s) rows;
  rows ← extend limit (stale_rows true s) rows;
  extend limit (failed_rows true s) rows.

Fixpoint run_builds (started : nat) (rows : list (period_kind * Z)) (s : string) : B nat :=
  match rows with
  | [] => mret started
  | (k, d) :: rows =>
      late ← out_of_time;
      if late : bool then mret started
      else if negb (route_available started) then mret started
      else _ ← build k d s; run_builds (S started) rows s
  end.

Definition run_rollup_maintenance (s : string) : B nat :=
  let limit := Z.to_nat (rollup_builds_per_pass cfg) in
  if bool_decide (rollup_builds_per_pass cfg <= 0) || bool_decide (rollup_maintenance_budget_ms cfg <= 0) then mret O
  else
    late ← out_of_time;
    if late : bool then mret O
    else
      _ ← drain;
      late ← out_of_time;
      if late : bool then mret O
      else
        _ ← access (λ t d, reclaim_stale_building t 256%nat d);
        late ← out_of_time;
        if late : bool then mret O
        else rows ← select_rows s limit; run_builds O rows s.

End builds.
