(* ===== verification/RollupBuilds.v ===== *)
(** What building rollups promises while other processes act between its accesses: a
    build ends its claim on every path, errors included; what it publishes for a day
    covers the nodes the day has at publication, what it publishes for a week or a
    month rests on ready days only; and a pass of maintenance starts a bounded number
    of builds.

    A world is followed by a state of the store's system, so that every access is a
    step of it and the store's theorems apply. *)

From S2P Require Import Prelude PyText Calendar Frontier LineageLoad RollupStore RollupProofs Chunking Truncation RollupBuilder.
From stdpp Require Import options.

#[local] Open Scope Z_scope.

(** ** The store, step by step *)

Lemma reachable_later s s' : reachable s → rtc step s s' → reachable s'.
Proof. intros (s0 & H0 & H1) H2. exists s0. split; [done|by etransitivity]. Qed.

Lemma issued_later s s' t : rtc step s s' → t ∈ issued s → t ∈ issued s'.
Proof.
  induction 1 as [s|s1 s2 s3 Hstep _ IH]; [done|]. intros Ht. apply IH. destruct Hstep; cbn; [done| |done].
  apply elem_of_app. by left.
Qed.

Lemma log_later s s' e : rtc step s s' → e ∈ log s → e ∈ log s'.
Proof.
  induction 1 as [s|s1 s2 s3 Hstep _ IH]; [done|]. intros He. apply IH. destruct Hstep; cbn; [|done|done].
  apply elem_of_app. by left.
Qed.

(** The snapshot of a claim is never overwritten. *)
Lemma claims_later s s' t v : reachable s → rtc step s s' → t ∈ issued s →
  claims s !! (token_id t, token_generation t) = Some v → claims s' !! (token_id t, token_generation t) = Some v.
Proof.
  intros Hs Hr. induction Hr as [s|s1 s2 s3 Hstep Hr IH]; [done|]. intros Ht Hc.
  assert (reachable s2) as Hs2 by (apply (reachable_later s1); [done|by apply rtc_once]). apply IH; [done| |].
  - apply (issued_later s1); [by apply rtc_once|done].
  - apply reachable_inv in Hs. destruct Hstep as [m s|k start sc now n s db' u Ha E|c s]; cbn; [done| |done].
    destruct (si_issued _ Hs) as [_ Hk]. destruct (known_claim _ _ _ _ _ _ _ _ t (si_wf _ Hs) E (Hk t Ht)) as [_ Hne].
    rewrite lookup_insert_ne; [done|]. intros [=]. destruct Hne; [congruence|lia].
Qed.

(** A token that owns a row owned it at every state since it was issued. *)
Lemma owned_before s s' t : reachable s → rtc step s s' → t ∈ issued s →
  (∃ r, r ∈ rollups (db s') ∧ owns t r = true) → ∃ r, r ∈ rollups (db s) ∧ owns t r = true.
Proof.
  intros Hs Hr Ht (r & Hin & Ho). destruct (existsb (owns t) (rollups (db s))) eqn:E.
  - apply existsb_exists in E as (r0 & H0 & H1). exists r0. split; [by apply list_elem_of_In|done].
  - exfalso. assert (spent (db s) t) as Hsp.
    { intros r0 Hr0. apply not_true_iff_false. intros Ho0. apply not_true_iff_false in E. apply E, existsb_exists.
      exists r0. split; [by apply list_elem_of_In|done]. }
    pose proof (spent_later s s' t Hs Hr Ht Hsp r Hin). congruence.
Qed.

Lemma find_first_None {A} (P : A → Prop) `{!∀ x, Decision (P x)} (l : list A) x : find_first P l = None → x ∈ l → ¬ P x.
Proof.
  unfold find_first. destruct (list_find P l) as [y|] eqn:E; [done|]. intros _ Hx. apply list_find_None in E.
  rewrite Forall_forall in E. by apply E.
Qed.

(** Every transaction that ends a claim leaves its token spent. *)
Lemma mark_ready_spent t text count ids fp now db0 db1 b :
  mark_ready t text count ids fp now db0 = Ok (db1, b) → spent db1 t.
Proof.
  unfold mark_ready. destruct (find_first _ _) as [r|] eqn:Hf.
  - destruct (existsb (pending_in_window r) _); [intros [= <- <-]; by apply update_owned_spent|].
    destruct (existsb _ (remove_dups ids)); [intros [= <- <-]; by apply update_owned_spent|].
    intros [= <- <-] r1 Hr1. by apply (update_owned_spent t (published_row text count now fp) db0).
  - unfold raise_if. destruct (negb _); [done|]. intros [= <- <-] r Hr. apply not_true_iff_false. intros Ho.
    by apply (find_first_None (λ r, owns t r = true) (rollups db0) r Hf Hr).
Qed.

Lemma resolve_spent t db0 : spent (resolve_no_source t db0).1 t.
Proof.
  unfold resolve_no_source. destruct (affected t db0) eqn:Ha; cbn [fst].
  - by intros r [Ho _]%list_elem_of_filter.
  - intros r Hr. apply not_true_iff_false. intros Ho. apply not_true_iff_false in Ha. apply Ha, affected_owned. by exists r.
Qed.

Lemma defer_spent t reason db0 : spent (defer_incomplete t reason db0).1 t.
Proof. by apply update_owned_spent. Qed.
Lemma failed_spent t e now db0 : spent (mark_failed t e now db0).1 t.
Proof. by apply update_owned_spent. Qed.

(** A rollup id keeps its period and scope, even after its row is gone. *)
Definition keyed (db : database) (id : Z) (key : period_kind * Z * string) : Prop :=
  id < next_rollup_id db ∧ ∀ r, r ∈ rollups db → rollup_id r = id → key_of r = key.

Lemma keyed_later s s' id key : reachable s → rtc step s s' → keyed (db s) id key → keyed (db s') id key.
Proof.
  intros Hs Hr. induction Hr as [s|s1 s2 s3 Hstep Hr IH]; [done|]. intros [Hlt Hk]. pose proof (reachable_inv _ Hs) as Hi.
  apply IH; [apply (reachable_later s1); [done|by apply rtc_once]|]. destruct Hstep as [m s|k start sc now n s db' t Ha E|c s]; cbn; [done| |].
  - destruct (claim_spec _ _ _ _ _ _ _ _ (si_wf _ Hi) E) as (_ & _ & _ & _ & Hn & _ & Hold & Hrows). split; [lia|].
    intros r Hr' Eid. destruct (Hrows r Hr') as [[Hr0 _]|(Ek & E1 & _)]; [by apply Hk|]. rewrite Ek.
    destruct Hold as [?|(r0 & Hr0 & E0 & Ek0 & _)]; [lia|]. rewrite <-Ek0. apply Hk; [done|congruence].
  - pose proof (run_evolution c (db s) (si_wf _ Hi)) as He. split; [pose proof (el_next _ _ He); lia|].
    intros r' Hr' Eid. destruct (el_rows _ _ He r' Hr') as [(r & Hr0 & Hev)|[_ Hid]]; [|lia].
    rewrite (ev_key _ _ Hev). apply Hk; [done|]. by rewrite <-(ev_id _ _ Hev).
Qed.

(** A claim just made: its token, issued, of a row with this key. *)
Definition claimed (s : system) (t : token) (k : period_kind) (start : Z) (sc : string) : Prop :=
  reachable s ∧ t ∈ issued s ∧ keyed (db s) (token_id t) (k, start, sc) ∧
  is_Some (claims s !! (token_id t, token_generation t)).

Lemma claim_claimed s k start sc now n db' t : reachable s → aligned k start → upsert_building k start sc now n (db s) = Some (db', t) →
  ∃ s', step s s' ∧ db s' = db' ∧ claimed s' t k start sc.
Proof.
  intros Hs Ha E. eexists. split; [by eapply step_claim|]. cbn. split; [done|]. unfold claimed. cbn. split_and!.
  - eapply reachable_later; [exact Hs|]. apply rtc_once. by eapply step_claim.
  - apply elem_of_app. right. by left.
  - destruct (claim_spec _ _ _ _ _ _ _ _ (si_wf _ (reachable_inv _ Hs)) E) as (_ & _ & _ & _ & _ & Hid & _ & Hrows). split; [done|].
    intros r Hr Eid. by destruct (Hrows r Hr) as [[_ ?]|(? & _)].
  - rewrite lookup_insert_eq. by eexists.
Qed.

(** The nodes of the period are the same when the sources were read and when the
    publication was accepted. *)
Lemma nodes_between s sr sp t k start sc text count ids fp now db' id n :
  claimed s t k start sc → rtc step s sr → rtc step sr sp →
  mark_ready t text count ids fp now (db sp) = Ok (db', true) → meets n k start sc →
  summary_nodes (db sr) !! id = Some n ↔ summary_nodes (db sp) !! id = Some n.
Proof.
  intros (Hs & Hi & Hk & [v Hv]) H1 H2 Hm Hmeets. pose proof (reachable_later _ _ Hs H1) as Hsr. pose proof (reachable_later _ _ Hsr H2) as Hsp.
  unfold mark_ready in Hm. destruct (find_first _ _) as [r|] eqn:Hf; [|unfold raise_if in Hm; by destruct (negb _)].
  apply find_first_Some in Hf as [Hr Ho]. destruct (existsb (pending_in_window r) _) eqn:Hp; [done|]. clear Hm.
  destruct (proj1 (owns_spec t r) Ho) as (E1 & E2 & _ & Hb).
  assert (key_of r = (k, start, sc)) as Ekey.
  { destruct (keyed_later s sp (token_id t) (k, start, sc) Hs ltac:(by etransitivity) Hk) as [_ H]. by apply H. }
  unfold key_of in Ekey. injection Ekey as Ek Es Esc.
  destruct (silent_window sp r) as (old & first & Hc & Hch & Hno); [by apply reachable_inv|done|by left|done|].
  rewrite E1, E2 in Hc. assert (v = (old, first)) as ->.
  { pose proof (claims_later s sp t v Hs ltac:(by etransitivity) Hi Hv) as Hc'. congruence. }
  destruct (owned_before sr sp t Hsr H2 (issued_later s sr t H1 Hi)) as (r0 & Hr0 & Ho0); [by exists r|].
  destruct (proj1 (owns_spec t r0) Ho0) as (F1 & F2 & _ & Hb0).
  destruct (si_tracked _ (reachable_inv _ Hsr) r0 Hr0) as (_ & old0 & first0 & Hc0 & _ & Hch0 & _); [by left|].
  rewrite F1, F2, (claims_later s sr t (old, first) Hs H1 Hi Hv) in Hc0. injection Hc0 as <- <-.
  assert (meets n (kind r) (period_start r) (scope r)) as Hmr by (by rewrite Ek, Es, Esc).
  rewrite <-(unchanged_nodes old _ (log sp) first r Hch Hno id n Hmr). symmetry.
  apply (unchanged_nodes old _ (log sr) first r); [done| |done]. intros e d He. apply Hno. by apply (log_later sr).
Qed.

(** ** Sources *)

Lemma canonical_frontier_subset nodes lin sel n : canonical_frontier nodes lin = Ok sel → n ∈ sel → n ∈ nodes.
Proof. intros H. unfold canonical_frontier in H. inv_ok. intros [_ Hn]%list_elem_of_filter. exact Hn. Qed.

(** The source is the node as the database has it. *)
Definition source_in (db : database) (x : source) (n : node) : Prop :=
  summary_nodes db !! source_id x = Some n ∧ source_summary x = node_summary n ∧
  source_start x = span_start n ∧ source_end x = span_end n.

Lemma frontier_of_sources pick rows roots db xs x : frontier_of pick rows roots db = Ok xs → x ∈ xs →
  ∃ n, source_in db x n ∧ source_id x ∈ rows.*1.
Proof.
  unfold frontier_of. destruct (load_source_lineage _ _ _ _) as [lin|]; [|done].
  destruct (canonical_frontier _ lin) as [sel|] eqn:E; [|done]. intros [= <-] Hx.
  apply list_elem_of_omap in Hx as (c & Hc & Ex). destruct (summary_nodes db !! node_id c) as [n|] eqn:En; [|done].
  cbn in Ex. injection Ex as <-. exists n. split; [by split_and!|]. cbn.
  apply (canonical_frontier_subset _ _ _ _ E) in Hc. apply list_elem_of_fmap in Hc as ([id m] & -> & Hc). cbn.
  apply list_elem_of_fmap. by exists (id, m).
Qed.

Lemma scope_frontier_sources pick db s xs x : scope_frontier pick db s = Ok xs → x ∈ xs →
  ∃ n, source_in db x n ∧ session_id n = s.
Proof.
  unfold scope_frontier. case_bool_decide; [done|]. case_bool_decide; [intros [= <-] Hx; by apply not_elem_of_nil in Hx|].
  intros H1 Hx. destruct (frontier_of_sources _ _ _ _ _ _ H1 Hx) as (n & Hn & Hin). exists n. split; [done|].
  apply list_elem_of_fmap in Hin as ([id m] & Eid & Hm). rewrite merge_sort_Permutation in Hm.
  unfold scope_rows in Hm. apply list_elem_of_filter in Hm as [Hs Hm]. apply elem_of_map_to_list in Hm. cbn in Eid, Hs. subst id.
  destruct Hn as (Hn & _). congruence.
Qed.

Lemma covers_meets d x n db : source_in db x n → covers_day d x = true → meets n Day d (session_id n).
Proof.
  intros (_ & _ & E1 & E2) [H1%bool_decide_eq_true H2%bool_decide_eq_true]%andb_true_iff. split; [done|]. exists d.
  split; [split; cbn; lia|]. rewrite E1 in H1. rewrite E2 in H2. unfold day_of. split.
  - apply Z.lt_succ_r. apply Z.div_lt_upper_bound; lia.
  - apply Z.div_le_lower_bound; lia.
Qed.

Lemma daily_sources_meet pick db s d xs x : daily_sources pick db s d = Ok xs → x ∈ xs →
  ∃ n, source_in db x n ∧ meets n Day d s.
Proof.
  unfold daily_sources. intros H Hx. inv_ok. apply list_elem_of_filter in Hx as [Hd Hx].
  destruct (scope_frontier_sources _ _ _ _ _ Hb Hx) as (n & Hn & <-). exists n. split; [done|]. by eapply covers_meets.
Qed.


(** ** Capped summaries end *)

(** An answer of the summarizer that may be stored: a level 3 one only verbatim. *)
Definition answered (summarizer : nat → text → Z → Z → Z → result build_error (text * Z)) (t : text) (target hard : Z) (a : text) : Prop :=
  ∃ n c tokens level, summarizer n c tokens target hard = Ok (a, level) ∧ (level = 3 → a = t).

(** What is returned: an answer that fits, or the truncation of one that does not. *)
Definition capped (enc : option encoder) (hard : Z) (a s : text) : Prop :=
  s = a ∧ count_tokens enc a <= hard ∨ s = default [] (deterministic_truncate enc a hard).

Lemma rounds_end enc summarizer t target hard fuel : ∀ n c previous, 1 <= hard → (Z.to_nat previous < fuel)%nat →
  ∃ r, summarize_rounds enc summarizer fuel n t c target hard previous = Some r ∧
    ∀ s k, r = Ok (s, k) → k = count_tokens enc s ∧ ∃ a, answered summarizer t target hard a ∧ capped enc hard a s.
Proof.
  induction fuel as [|fuel IH]; intros n c previous Hh Hf; [lia|]. cbn [summarize_rounds].
  destruct (summarizer n c (Z.max 1 previous) target hard) as [[a level]|e] eqn:E; [|exists (Err e); by split].
  destruct (bool_decide (level = 3) && negb (bool_decide (a = t))) eqn:E3; [eexists; split; [reflexivity|done]|].
  assert (answered summarizer t target hard a) as Ha.
  { exists n, c, (Z.max 1 previous), level. split; [done|]. intros ->. rewrite bool_decide_eq_true_2 in E3 by done. cbn in E3.
    apply negb_false_iff in E3. by apply bool_decide_eq_true in E3. }
  clear E3 E.
  case_bool_decide as Hfit.
  - eexists. split; [reflexivity|]. intros s k [= <- <-]. split; [done|]. exists a. split; [done|by left].
  - case_bool_decide as Hp; [|apply IH; lia]. eexists. split; [reflexivity|]. intros s k [= <- <-]. split; [done|]. exists a. split; [done|by right].
Qed.

(** Capping a summary ends after at most as many calls as the text has tokens; a
    summary it returns comes with its token count and is an answer of the summarizer
    that fits, or the truncation of one; a level 3 answer is stored only when it is the
    source itself; without an encoder, or with room for the marker, it is within the cap. *)
Theorem capped_summary_fits enc summarizer t target_tokens max_tokens :
  ∃ r, summarize_capped enc summarizer t target_tokens max_tokens = Some r ∧
    ∀ s n, r = Ok (s, n) → n = count_tokens enc s ∧
      (∃ a, answered summarizer t (Z.max 1 (Z.min target_tokens max_tokens)) (Z.max 1 max_tokens) a ∧ capped enc (Z.max 1 max_tokens) a s) ∧
      (enc = None ∨ count_tokens enc L3_TRUNCATION_MARKER + 4 < max_tokens → n <= Z.max 1 max_tokens).
Proof.
  unfold summarize_capped. destruct (rounds_end enc summarizer t (Z.max 1 (Z.min target_tokens max_tokens)) (Z.max 1 max_tokens)
    (S (Z.to_nat (count_tokens enc t))) 0 t (count_tokens enc t)) as (r & E & H); [lia|lia|].
  exists r. split; [done|]. intros s n En. destruct (H s n En) as (-> & a & Ha & Hc). split; [done|]. split; [by exists a|].
  intros Hroom. destruct Hc as [[-> Hfit]| ->]; [done|].
  destruct (bisect_or_cut enc a (Z.max 1 max_tokens)) as (s' & -> & Hs' & _); [lia| |done].
  destruct Hroom as [?|?]; [by left|right; lia].
Qed.

(** ** Weakest preconditions of a build *)

Section builds.
Variable pick : nat → gset Z → list Z.
Variable enc : option encoder.
Variable summarizer : nat → nat → text → Z → Z → Z → result build_error (text * Z).
Variable others : nat → database → database.
Variable now : nat → Z.
Variable nonce_of : nat → string.
Variable cfg : config.
Variable render : rendering.

(** Between the accesses the others take steps of the store. *)
Hypothesis others_step : ∀ n s, ∃ s', rtc step s s' ∧ db s' = others n (db s).

Definition wp {A} (m : B A) (P : A → world → Prop) (E : build_error → world → Prop) (w : world) : Prop :=
  match m w with (Ok a, w') => P a w' | (Err e, w') => E e w' end.

Lemma wpb_bind {A C} (m : B A) (f : A → B C) P E w : wp m (λ a, wp (f a) P E) E w → wp (m ≫= f) P E w.
Proof using Type. unfold wp, mbind, B_bind. by destruct (m w) as [[a|e] w']. Qed.

Lemma wpb_mono {A} (m : B A) (P Q : A → world → Prop) (E F : build_error → world → Prop) w :
  wp m P E w → (∀ a w', P a w' → Q a w') → (∀ e w', E e w' → F e w') → wp m Q F w.
Proof using Type. unfold wp. destruct (m w) as [[a|e] w']; auto. Qed.

Lemma wpb_then {A} (m : B A) (P Q : A → world → Prop) E w : wp m P E w → (∀ a w', P a w' → Q a w') → wp m Q E w.
Proof using Type. intros H HPQ. by eapply wpb_mono. Qed.

Lemma wpb_ret {A} (a : A) (P : A → world → Prop) (E : build_error → world → Prop) w : P a w → wp (mret a) P E w.
Proof using Type. done. Qed.

Lemma wpb_catch {A} (m : B A) h P E w : wp m P (λ e, wp (h e) P E) w → wp (catch m h) P E w.
Proof using Type. unfold wp, catch. by destruct (m w) as [[a|e] w']. Qed.

Lemma wpb_lift {A} (r : result build_error A) (P : A → world → Prop) (E : build_error → world → Prop) w :
  (∀ a, r = Ok a → P a w) → (∀ e, r = Err e → E e w) → wp (lift r) P E w.
Proof using Type. unfold wp, lift. destruct r; auto. Qed.

(** The world is at a state of the system after [s]; [noted] is what was published. *)
Definition at_state (s : system) (noted : list (token * list Z)) (w : world) (s' : system) : Prop :=
  reachable s ∧ rtc step s s' ∧ store w = db s' ∧ published w = noted.

(** A transaction of this process is some steps of the system. *)
Definition acts {A} (f : Z → database → database * A) : Prop := ∀ t s, ∃ s', rtc step s s' ∧ db s' = (f t (db s)).1.

Lemma at_later s noted w s1 s2 w' : at_state s noted w s1 → rtc step s1 s2 → store w' = db s2 → published w' = noted → at_state s noted w' s2.
Proof using Type. intros (H1 & H2 & H3 & H4) ???. split_and!; [done|by etransitivity|done|done]. Qed.

(** An access: the others' steps, then this process's, on the state in between. *)
Lemma wp_access {A} (f : Z → database → database * A) s noted w s1 (P : A → world → Prop) E :
  acts f → at_state s noted w s1 →
  (∀ w' s2 s3 t, rtc step s1 s2 → rtc step s2 s3 → db s3 = (f t (db s2)).1 → at_state s noted w' s3 → P (f t (db s2)).2 w') →
  wp (access others now f) P E w.
Proof using others_step.
  intros Hf Hat HP. pose proof Hat as (Hr & Hs & Hst & Hp). unfold wp, access.
  destruct (others_step (accesses w) s1) as (s2 & H12 & E2). destruct (Hf (now (accesses w)) s2) as (s3 & H23 & E3).
  rewrite Hst, <-E2. destruct (f (now (accesses w)) (db s2)) as [d a] eqn:Ef. cbn [fst] in E3.
  specialize (HP {| store := d; accesses := S (accesses w); readings := readings w; published := published w |} s2 s3 (now (accesses w)) H12 H23).
  rewrite Ef in HP. cbn [fst snd] in HP. apply HP; [done|].
  apply (at_later _ _ w s1 s3); [done|by etransitivity|by rewrite E3|done].
Qed.

Lemma acts_query {A} (f : database → A) : acts (λ _ d, (d, f d)).
Proof using Type. intros t s. by exists s. Qed.

Lemma acts_call {A} (f : Z → database → database * A) (c : Z → database → call) :
  (∀ t d, (f t d).1 = run (c t d) d) → acts f.
Proof using Type. intros Hf t s. eexists. split; [apply rtc_once, (step_call (c t (db s)))|]. by rewrite Hf. Qed.

(** ** Ending a claim *)

(** The claim is over: the world's state has no row its token owns. *)
Definition ended (s : system) (noted : list (token * list Z)) (t : token) (w : world) : Prop :=
  ∃ s', at_state s noted w s' ∧ spent (db s') t.
Definition pending_end (s : system) (noted : list (token * list Z)) (w : world) : Prop := ∃ s', at_state s noted w s'.

(** A transaction that ends the claim, and code after it. *)
Lemma wp_end {A} (f : Z → database → database * A) s noted t w s1 (E : build_error → world → Prop) :
  acts f → (∀ t0 d, spent (f t0 d).1 t) → at_state s noted w s1 →
  wp (access others now f) (λ _ w', ended s noted t w') E w.
Proof using others_step.
  intros Hf Hsp Hat. apply (wp_access f s noted w s1 _ _ Hf Hat). intros w' s2 s3 t0 _ _ E3 Hat'. exists s3. split; [done|]. by rewrite E3.
Qed.

Lemma wp_ended {A} (f : Z → database → database * A) s noted t w (E : build_error → world → Prop) :
  acts f → t ∈ issued s → ended s noted t w → wp (access others now f) (λ _ w', ended s noted t w') E w.
Proof using others_step.
  intros Hf Ht (s1 & Hat & Hsp). apply (wp_access f s noted w s1 _ _ Hf Hat). intros w' s2 s3 t0 H12 H23 _ Hat'.
  exists s3. split; [done|]. pose proof Hat as (Hr & Hs & _). apply (spent_later s1); [by eapply reachable_later|by etransitivity| |done].
  by apply (issued_later s).
Qed.

Lemma acts_drain : acts (λ _ d, drain_invalidations 256 256 d).
Proof using Type. by apply (acts_call _ (λ _ _, DrainInvalidations 256 256)). Qed.
Lemma acts_resolve t : acts (λ _ d, resolve_no_source t d).
Proof using Type. by apply (acts_call _ (λ _ _, ResolveNoSource t)). Qed.
Lemma acts_defer t reason : acts (λ _ d, defer_incomplete t reason d).
Proof using Type. by apply (acts_call _ (λ _ _, DeferIncomplete t reason)). Qed.
Lemma acts_failed t e : acts (λ n d, mark_failed t e n d).
Proof using Type. by apply (acts_call _ (λ n _, MarkFailed t e n)). Qed.
Lemma acts_stale d sc : acts (λ _ db, (stale_aggregates_for_day d sc db, tt)).
Proof using Type. by apply (acts_call _ (λ _ _, StaleAggregatesForDay d sc)). Qed.
Lemma acts_reclaim limit : acts (λ n db, reclaim_stale_building n limit db).
Proof using Type. by apply (acts_call _ (λ n _, ReclaimStaleBuilding n limit)). Qed.
Lemma acts_publish t text count ids fp :
  acts (λ n d, match mark_ready t text count ids fp n d with Ok (d, b) => (d, Ok b) | Err e => (d, Err (StoreRaised e)) end).
Proof using Type.
  apply (acts_call _ (λ n _, MarkReady t text count ids fp n)). intros n d. cbn [run].
  by destruct (mark_ready t text count ids fp n d) as [[d' b]|e].
Qed.

(** The handlers end the claim whatever was raised. *)
Lemma fail_ends t e s noted w s1 (E : build_error → world → Prop) : at_state s noted w s1 →
  wp (fail_build others now render t e) (λ _ w', ended s noted t w') E w.
Proof using others_step.
  intros Hat. assert (∀ A (f : Z → database → database * A), acts f → (∀ n d, spent (f n d).1 t) →
    wp (_ ← access others now f; mret tt) (λ _ w', ended s noted t w') E w) as H.
  { intros A f Hf Hsp. apply wpb_bind. by apply (wp_end f s noted t w s1). }
  unfold fail_build. destruct e.
  3: { apply H; [apply acts_defer|intros n d; apply defer_spent]. }
  all: apply H; [apply acts_failed|intros n d; apply failed_spent].
Qed.

(** What a build that is accepted has published. *)
Definition accepted (s : system) (t : token) (ids : list Z) (sp : system) : Prop :=
  rtc step s sp ∧ ∃ text count fp n db', mark_ready t text count ids fp n (db sp) = Ok (db', true).

(** Publishing ends the claim unless it raises; it notes what was accepted. *)
Lemma publish_ends t text count ids fp s noted w s1 : at_state s noted w s1 →
  wp (publish others now t text count ids fp)
     (λ b w', if b then ended s (noted ++ [(t, ids)]) t w' ∧ ∃ sp, rtc step s1 sp ∧ accepted s t ids sp else ended s noted t w')
     (λ _ w', pending_end s noted w') w.
Proof using others_step.
  intros Hat. unfold publish. apply wpb_bind. apply (wp_access _ s noted w s1 _ _ (acts_publish t text count ids fp) Hat).
  intros w' s2 s3 n H12 H23 E3 Hat'. apply wpb_bind. apply wpb_lift.
  - intros b E. destruct (mark_ready t text count ids fp n (db s2)) as [[d b']|e] eqn:Em; cbn in E, E3; [|done]. injection E as ->.
    assert (spent (db s3) t) as Hsp by (rewrite E3; by eapply mark_ready_spent). apply wpb_bind. destruct b; cbn.
    + destruct Hat' as (H1 & H2 & H3 & H4). split; [exists s3; split; [split_and!; [done|done|done|cbn; by rewrite H4]|done]|].
      exists s2. split; [done|]. split; [destruct Hat as (_ & Hs1 & _); by transitivity s1|]. by exists text, count, fp, n, d.
    + by exists s3.
  - intros e _. by exists s3.
Qed.

(** ** Days *)

(** The accepted sources of a day were read after the claim, and are the day's nodes
    of the accepting state. *)
Definition day_published (s : system) (t : token) (d : Z) (sc : string) (ids : list Z) : Prop :=
  ∃ sr sp sources, rtc step s sr ∧ rtc step sr sp ∧ daily_sources pick (db sr) sc d = Ok sources ∧ sources ≠ [] ∧
    ids = merge_sort Z.le (source_id <$> sources) ∧ accepted s t ids sp.

(** How a build leaves the world. *)
Definition outcome (s : system) (noted : list (token * list Z)) (t : token) (Q : list Z → Prop) (w : world) : Prop :=
  ended s noted t w ∨ ∃ ids, ended s (noted ++ [(t, ids)]) t w ∧ Q ids.

Lemma summarize_pure t target max_tokens s noted w s1 (P : text * Z → world → Prop) : at_state s noted w s1 →
  (∀ r, P r w) → wp (summarize enc summarizer t target max_tokens) P (λ _ w', pending_end s noted w') w.
Proof using Type.
  intros Hat HP. unfold summarize, wp, lift. destruct (default _ _) as [a|e]; [apply HP|by exists s1].
Qed.

Lemma day_body_ends t d sc s noted w s1 : t ∈ issued s → at_state s noted w s1 →
  wp (day_body pick enc summarizer others now cfg render t d sc)
     (λ _ w', outcome s noted t (day_published s t d sc) w') (λ _ w', pending_end s noted w') w.
Proof using others_step.
  intros Ht Hat. unfold day_body. apply wpb_bind. apply (wp_access _ s noted w s1 _ _ (acts_query _) Hat).
  intros w1 s2 s3 n H12 H23 _ Hat1. cbn [snd]. apply wpb_bind. apply wpb_lift; [|intros e _; by exists s3].
  intros sources Hsrc. destruct sources as [|x xs]; [|cbn zeta].
  - apply wpb_bind. eapply wpb_then; [apply (wp_end _ s noted t w1 s3); [apply acts_resolve|intros ? ?; apply resolve_spent|done]|].
    intros ? w2 He. by left.
  - apply wpb_bind. apply (summarize_pure _ _ _ s noted w1 s3); [done|]. intros [summary count].
    apply wpb_bind. eapply wpb_then; [apply publish_ends; exact Hat1|]. intros b w2 Hb. apply wpb_bind. destruct b.
    + destruct Hb as [He (sp & Hsp & Hacc)]. eapply wpb_then; [apply (wp_ended _ s _ t w2 _ (acts_stale d sc) Ht He)|].
      intros ? w3 He3. eapply wpb_then; [apply (wp_ended _ s _ t w3 _ (acts_query _) Ht He3)|]. intros ? w4 He4. right.
      eexists. split; [exact He4|]. exists s2, sp, (x :: xs). destruct Hat as (_ & Hs1 & _). split_and!; try done.
      * by transitivity s1.
      * by transitivity s3.
    + apply wpb_ret. eapply wpb_then; [apply (wp_ended _ s _ t w2 _ (acts_query _) Ht Hb)|]. intros ? w4 He4. by left.
Qed.

(** ** Weeks and months *)

(** Every day that had content when it was looked at had a ready row, and the accepted
    sources are stored nodes that ready days of the window use. *)
Definition aggregate_published (s : system) (t : token) (first last : Z) (sc : string) (ids : list Z) : Prop :=
  ∃ sr sd si sj sp content, rtc step s sr ∧ rtc step sr sd ∧ rtc step sd si ∧ rtc step si sj ∧ rtc step sj sp ∧ accepted s t ids sp ∧
    days_with_content pick (db sd) sc first last = Ok content ∧
    (∀ d, d ∈ content → ∃ r, r ∈ rollups (db sr) ∧ key_of r = (Day, d, sc) ∧ status r = Ready) ∧
    ∀ i, i ∈ ids → is_Some (summary_nodes (db sj) !! i) ∧
      ∃ r, r ∈ rollups (db sr) ∧ kind r = Day ∧ first <= period_start r <= last ∧ scope r = sc ∧ status r = Ready ∧
           (rollup_id r, i) ∈ rollup_sources (db si).

Lemma status_of_ready d0 first last sc d : is_ready (status_of (daily_statuses d0 first last sc) d) = true →
  ∃ r, status_of (daily_statuses d0 first last sc) d = Some r ∧ r ∈ rollups d0 ∧ key_of r = (Day, d, sc) ∧
       first <= d <= last ∧ status r = Ready.
Proof using Type.
  destruct (status_of _ d) as [r|] eqn:E; [|done]. intros H%bool_decide_eq_true. exists r. split; [done|].
  apply find_first_Some in E as [[(Hk & Hw & Hs) Hr]%list_elem_of_filter E]. unfold key_of. split_and!; try done; try lia.
  by rewrite Hk, Hs, E.
Qed.

Lemma ready_day_elem d0 first last sc r :
  r ∈ omap snd (filter (λ x : Z * option rollup, is_ready x.2 = true)
                 ((λ d, (d, status_of (daily_statuses d0 first last sc) d)) <$> days_between first last)) →
  r ∈ rollups d0 ∧ kind r = Day ∧ first <= period_start r <= last ∧ scope r = sc ∧ status r = Ready.
Proof using Type.
  intros ([d o] & [Hd Hin]%list_elem_of_filter & E)%list_elem_of_omap. cbn in E, Hd. subst o.
  apply list_elem_of_fmap in Hin as (d' & [= -> E] & _). rewrite E in Hd.
  destruct (status_of_ready d0 first last sc d' Hd) as (r' & E' & Hr & [= Ek <- <-] & Hw & Hs). assert (r' = r) as -> by congruence. done.
Qed.

Lemma rollup_source_ids_elem d0 ids i : i ∈ rollup_source_ids d0 ids → ∃ r, r ∈ ids ∧ (r, i) ∈ rollup_sources d0.
Proof using Type.
  unfold rollup_source_ids. rewrite merge_sort_Permutation, elem_of_elements, elem_of_map. intros ([r i'] & -> & H).
  apply elem_of_filter in H as [H1 H2]. by exists r.
Qed.

(** The sources of an aggregate are among the rows asked for. *)
Lemma canonical_sources_in d0 ids xs i : canonical_aggregate_sources pick d0 ids = Ok xs → i ∈ source_id <$> xs →
  i ∈ ids ∧ is_Some (summary_nodes d0 !! i).
Proof using Type.
  unfold canonical_aggregate_sources. case_bool_decide; [done|]. case_bool_decide; [by intros [= <-] ?%not_elem_of_nil|].
  intros E (x & -> & Hx)%list_elem_of_fmap. destruct (frontier_of_sources _ _ _ _ _ _ E Hx) as (n & (Hn & _) & Hin). split; [|by exists n].
  apply list_elem_of_fmap in Hin as ([id m] & Eid & Hm). rewrite merge_sort_Permutation in Hm.
  apply list_elem_of_omap in Hm as (id' & Hid & Em). destruct (summary_nodes d0 !! id'); [|done]. cbn in Em, Eid. injection Em as -> _.
  rewrite Eid. by apply fromkeys_elem.
Qed.

Lemma outcome_end {A} (f : Z → database → database * A) s noted t w s1 Q E :
  acts f → (∀ n d, spent (f n d).1 t) → at_state s noted w s1 →
  wp (_ ← access others now f; mret (None : option rollup)) (λ _ w', outcome s noted t Q w') E w.
Proof using others_step.
  intros Hf Hsp Hat. apply wpb_bind. eapply wpb_then; [by apply (wp_end f s noted t w s1)|]. intros ? w2 He. by left.
Qed.

Lemma outcome_query {A} (f : database → A) s noted t w Q E : t ∈ issued s → outcome s noted t Q w →
  wp (query others now f) (λ _ w', outcome s noted t Q w') E w.
Proof using others_step.
  intros Ht [He|(ids & He & HQ)]; (eapply wpb_then; [apply (wp_ended _ s _ t w _ (acts_query f) Ht He)|]; intros ? w' He'); [by left|].
  right. by exists ids.
Qed.

Lemma aggregate_body_ends t k first last sc s noted w s1 : t ∈ issued s → at_state s noted w s1 →
  wp (aggregate_body pick enc summarizer others now cfg render t k first last sc)
     (λ _ w', outcome s noted t (aggregate_published s t first last sc) w') (λ _ w', pending_end s noted w') w.
Proof using others_step.
  intros Ht Hat. unfold aggregate_body. apply wpb_bind. apply (wp_access _ s noted w s1 _ _ (acts_query _) Hat).
  intros w1 r1 r2 n1 H1 H1' _ Hat1. cbn [snd]. apply wpb_bind. apply (wp_access _ s noted w1 r2 _ _ (acts_query _) Hat1).
  intros w2 d1 d2 n2 H2 H2' _ Hat2. cbn [snd]. apply wpb_bind. apply wpb_lift; [|intros e _; by exists d2].
  intros content Hcontent. cbn zeta. destruct (filter _ content) as [|x xs] eqn:Hpend.
  2: { apply (outcome_end _ s noted t w2 d2); [apply acts_defer|intros n d; apply defer_spent|done]. }
  destruct (omap snd _) as [|x xs] eqn:Hready.
  { apply (outcome_end _ s noted t w2 d2); [apply acts_resolve|intros n d; apply resolve_spent|done]. }
  apply wpb_bind. apply (wp_access _ s noted w2 d2 _ _ (acts_query _) Hat2). intros w3 i1 i2 n3 H3 H3' _ Hat3. cbn [snd].
  apply wpb_bind. apply (wp_access _ s noted w3 i2 _ _ (acts_query _) Hat3). intros w4 j1 j2 n4 H4 H4' _ Hat4. cbn [snd].
  apply wpb_bind. apply wpb_lift; [|intros e _; by exists j2]. intros sources Hsrc. destruct sources as [|y ys].
  { apply (outcome_end _ s noted t w4 j2); [apply acts_defer|intros n d; apply defer_spent|done]. }
  apply wpb_bind. apply (summarize_pure _ _ _ s noted w4 j2); [done|]. intros [summary count].
  apply wpb_bind. eapply wpb_then; [apply publish_ends; exact Hat4|]. intros b w5 Hb. apply outcome_query; [done|].
  destruct b; [right|by left]. destruct Hb as [He (sp & Hsp & Hacc)]. eexists. split; [exact He|]. destruct Hat as (_ & Hs1 & _).
  exists r1, d1, i1, j1, sp, content. split; [by transitivity s1|].
  split; [by transitivity r2|]. split; [by transitivity d2|]. split; [by transitivity i2|]. split; [by transitivity j2|]. do 2 (split; [done|]). split.
  - intros d Hd. assert (is_ready (status_of (daily_statuses (db r1) first last sc) d) = true) as Hr.
    { destruct (is_ready _) eqn:E; [done|]. exfalso. apply (not_elem_of_nil d). rewrite <-Hpend. by apply list_elem_of_filter. }
    destruct (status_of_ready _ _ _ _ _ Hr) as (r & _ & Hin & Hk & _ & Hst). by exists r.
  - intros i Hi. destruct (canonical_sources_in _ _ _ _ Hsrc Hi) as [Hin Hsome]. split; [done|].
    apply rollup_source_ids_elem in Hin as (id & Hid & Hin). apply list_elem_of_fmap in Hid as (r & -> & Hr).
    rewrite <-Hready in Hr. apply ready_day_elem in Hr as (Hr & Hk & Hw & Hs & Hst). exists r. by do 5 (split; [done|]).
Qed.

(** ** A build from its claim on *)

(** The database the build claims in: after its drain and what the others did. *)
Definition before_claim (w : world) : database :=
  others (S (accesses w)) (drain_invalidations 256 256 (others (accesses w) (store w))).1.
Definition claim_of (w : world) (k : period_kind) (d : Z) (sc : string) : option (database * token) :=
  upsert_building k (period_start_of k d) sc (now (S (accesses w))) (nonce_of (S (accesses w))) (before_claim w).
Definition claim_world (w : world) (d : database) : world :=
  {| store := d; accesses := S (S (accesses w)); readings := readings w; published := published w |}.

Definition claimed_body (k : period_kind) (d : Z) (sc : string) (t : token) : B (option rollup) :=
  match k with
  | Day => day_body pick enc summarizer others now cfg render t d sc
  | _ => aggregate_body pick enc summarizer others now cfg render t k (period_start_of k d) (period_end k (period_start_of k d)) sc
  end.

(** Every kind of build drains, claims and goes on with its token. *)
Lemma drain_claim {A} k start sc (body : token → B (option A)) w :
  (_ ← drain others now; tok ← claim others now nonce_of k start sc; match tok with None => mret None | Some t => body t end) w =
  match upsert_building k start sc (now (S (accesses w))) (nonce_of (S (accesses w))) (before_claim w) with
  | None => (Ok None, claim_world w (before_claim w))
  | Some (d2, t) => body t (claim_world w d2)
  end.
Proof using Type.
  unfold before_claim, drain. generalize (drain_invalidations 256 256). intros f.
  unfold mbind, B_bind, claim, access. destruct (f (others (accesses w) (store w))) as [d1 n1]. cbn [accesses store readings published fst].
  destruct (upsert_building k start sc _ _ _) as [[d2 t]|]; reflexivity.
Qed.

Lemma build_claims k d sc w :
  build pick enc summarizer others now nonce_of cfg render k d sc w =
  match claim_of w k d sc with
  | None => (Ok None, claim_world w (before_claim w))
  | Some (d2, t) => guarded others now render t (claimed_body k d sc t) (claim_world w d2)
  end.
Proof using Type.
  destruct k; [exact (drain_claim Day d sc (λ t, guarded others now render t (claimed_body Day d sc t)) w)|
    exact (drain_claim Week _ sc (λ t, guarded others now render t (claimed_body Week d sc t)) w)|
    exact (drain_claim Month _ sc (λ t, guarded others now render t (claimed_body Month d sc t)) w)].
Qed.

(** What a publication of the build rests on. *)
Definition sound_publication (s : system) (t : token) (k : period_kind) (d : Z) (sc : string) (ids : list Z) : Prop :=
  match k with
  | Day => day_published s t d sc ids
  | _ => aggregate_published s t (period_start_of k d) (period_end k (period_start_of k d)) sc ids
  end.

Lemma guarded_ends t k d sc s w : t ∈ issued s → at_state s (published w) w s →
  wp (guarded others now render t (claimed_body k d sc t))
     (λ _ w', outcome s (published w) t (sound_publication s t k d sc) w') (λ _ _, False) w.
Proof using others_step.
  intros Ht Hat. unfold guarded. apply wpb_catch. apply (wpb_mono _ (λ _ w', outcome s (published w) t (sound_publication s t k d sc) w')
    _ (λ _ w', pending_end s (published w) w')).
  - destruct k; [by apply (day_body_ends t d sc s _ w s)|by apply (aggregate_body_ends t Week _ _ sc s _ w s)|
                 by apply (aggregate_body_ends t Month _ _ sc s _ w s)].
  - done.
  - intros e w' (s' & Hat'). apply wpb_bind. eapply wpb_then; [by apply (fail_ends t e s (published w) w' s')|]. intros ? w2 He. by left.
Qed.

Lemma build_result k d sc w s0 : reachable s0 → store w = db s0 →
  ∃ r w' s1, build pick enc summarizer others now nonce_of cfg render k d sc w = (Ok r, w') ∧ rtc step s0 s1 ∧ db s1 = before_claim w ∧
  match claim_of w k d sc with
  | None => r = None ∧ store w' = db s1 ∧ published w' = published w
  | Some (d2, t) => ∃ s2, step s1 s2 ∧ claimed s2 t k (period_start_of k d) sc ∧
                          outcome s2 (published w) t (sound_publication s2 t k d sc) w'
  end.
Proof using others_step.
  intros Hr Hst. destruct (others_step (accesses w) s0) as (sa & Ha & Ea).
  pose proof (step_call (DrainInvalidations 256 256) sa) as Hb. set (sb := {| db := _ |}) in Hb.
  destruct (others_step (S (accesses w)) sb) as (s1 & H1 & E1).
  assert (rtc step s0 s1) as H01 by (etransitivity; [exact Ha|]; eapply rtc_l; [exact Hb|exact H1]).
  assert (db s1 = before_claim w) as E1' by (rewrite E1; unfold before_claim; by rewrite Hst, <-Ea).
  rewrite build_claims. destruct (claim_of w k d sc) as [[d2 t]|] eqn:Ec.
  - unfold claim_of in Ec. rewrite <-E1' in Ec.
    destruct (claim_claimed s1 _ _ _ _ _ _ _ (reachable_later _ _ Hr H01) (period_start_aligned k d) Ec) as (s2 & H12 & E2 & Hcl).
    pose proof (guarded_ends t k d sc s2 (claim_world w d2)) as Hg. unfold wp in Hg.
    destruct (guarded _ _ _ _ _ _) as [[r|e] w'].
    + exists r, w', s1. do 3 (split; [done|]). exists s2. do 2 (split; [done|]). apply Hg; [apply Hcl|]. by split_and!; [apply Hcl| | |].
    + destruct Hg; [apply Hcl|]. by split_and!; [apply Hcl| | |].
  - exists None, (claim_world w (before_claim w)), s1. by split_and!.
Qed.



(** C18: a week or month is published only over ready days: every day that had content
    when the build looked had a ready row of its own, and each source it names is a
    stored node that a ready day of the window used. *)
Theorem build_aggregate_complete k d sc w s0 r w' : k ≠ Day → reachable s0 → store w = db s0 →
  build pick enc summarizer others now nonce_of cfg render k d sc w = (Ok r, w') →
  published w' = published w ∨
  ∃ t ids s2, published w' = published w ++ [(t, ids)] ∧ rtc step s0 s2 ∧
    aggregate_published s2 t (period_start_of k d) (period_end k (period_start_of k d)) sc ids.
Proof using others_step.
  intros Hk Hr Hst E'. destruct (build_result k d sc w s0 Hr Hst) as (r0 & w0 & s1 & E & H01 & _ & H). rewrite E in E'. injection E' as -> ->.
  destruct (claim_of w k d sc) as [[d2 t]|]; [|left; by destruct H as (_ & _ & ?)].
  destruct H as (s2 & H12 & _ & [(s' & (_ & _ & _ & Hp) & _)|(ids & (s' & (_ & _ & _ & Hp) & _) & HQ)]); [by left|right].
  exists t, ids, s2. split; [done|]. split; [by eapply rtc_r|]. by destruct k.
Qed.

(** ** A pass of maintenance *)

(** The store is at a state of the system that [s] can step to. *)
Definition led (s : system) (w : world) : Prop := ∃ s' noted, at_state s noted w s'.

Lemma led_access {A} (f : Z → database → database * A) s w (P : A → world → Prop) (E : build_error → world → Prop) :
  acts f → led s w → (∀ t d w', led s w' → P (f t d).2 w') → wp (access others now f) P E w.
Proof using others_step.
  intros Hf (s1 & noted & Hat) HP. apply (wp_access f s noted w s1 P E Hf Hat). intros w' s2 s3 t _ _ _ Hat'. apply HP. by exists s3, noted.
Qed.

Lemma led_out_of_time elapsed s w (P : bool → world → Prop) (E : build_error → world → Prop) :
  led s w → (∀ b w', led s w' → P b w') → wp (out_of_time cfg elapsed) P E w.
Proof using Type. intros (s1 & noted & Hat) HP. apply HP. by exists s1, noted. Qed.

Lemma led_build k d sc s w (P : option rollup → world → Prop) (E : build_error → world → Prop) :
  led s w → (∀ r w', led s w' → P r w') → wp (build pick enc summarizer others now nonce_of cfg render k d sc) P E w.
Proof using others_step.
  intros (s0 & noted & Hr & Hs & Hst & _) HP. unfold wp.
  destruct (build_result k d sc w s0 (reachable_later _ _ Hr Hs) Hst) as (r & w' & s1 & -> & H01 & _ & H). apply HP.
  assert (rtc step s s1) as Hs1 by (by transitivity s0).
  destruct (claim_of w k d sc) as [[d2 t]|]; [|exists s1, (published w'); by destruct H as (_ & ? & _)].
  destruct H as (s2 & H12 & _ & Ho). assert (rtc step s s2) as Hs2 by (by eapply rtc_r).
  assert (∃ n', ended s2 n' t w') as (n' & s' & (_ & Hs' & Es & Hp) & _) by (destruct Ho as [?|(ids & ? & _)]; by eexists).
  exists s', n'. split_and!; [done|by transitivity s2|done|done].
Qed.

Variable elapsed : nat → Z.
Variable route_available : nat → bool.
Variable retry_before : Z.

Lemma led_run_builds rows sc : ∀ started s w, led s w →
  wp (run_builds pick enc summarizer others now nonce_of cfg render elapsed route_available started rows sc)
     (λ n w', led s w' ∧ (started <= n <= started + length rows)%nat) (λ _ _, False) w.
Proof using others_step.
  induction rows as [|[k d] rows IH]; intros started s w Hl; cbn [run_builds length].
  - split; [done|lia].
  - apply wpb_bind. apply (led_out_of_time elapsed s w); [done|]. intros [|] w1 H1; [split; [done|lia]|].
    destruct (route_available started); cbn [negb]; [|split; [done|lia]].
    apply wpb_bind. apply (led_build k d sc s w1); [done|]. intros r w2 H2. eapply wpb_then; [by apply IH|]. cbn. intros n w3 [? ?]. split; [done|lia].
Qed.

(** Days come before the weeks and months they feed, and no more rows than asked. *)
Definition selection (limit : nat) (rows : list (period_kind * Z)) : Prop :=
  (length rows ≤ limit)%nat ∧ ∃ days aggregates, rows = days ++ aggregates ∧ Forall (λ x, x.1 = Day) days ∧ Forall (λ x, x.1 ≠ Day) aggregates.

Definition all_kinds (agg : bool) (rows : list (period_kind * Z)) : Prop := Forall (λ x, if agg then x.1 ≠ Day else x.1 = Day) rows.

Lemma stale_rows_kinds agg sc limit d : all_kinds agg (stale_rows agg sc limit d) ∧ (length (stale_rows agg sc limit d) ≤ limit)%nat.
Proof using Type.
  unfold stale_rows. split; [|rewrite length_fmap, length_take; lia]. apply Forall_fmap, Forall_take.
  rewrite merge_sort_Permutation. apply Forall_forall. intros r [(_ & _ & Hk) _]%list_elem_of_filter. unfold is_aggregate in Hk. cbn.
  destruct agg, (kind r); done.
Qed.

Lemma failed_rows_kinds agg sc limit d :
  all_kinds agg (failed_rows retry_before agg sc limit d) ∧ (length (failed_rows retry_before agg sc limit d) ≤ limit)%nat.
Proof using Type.
  unfold failed_rows. split; [|rewrite length_fmap, length_take; lia]. apply Forall_fmap, Forall_take.
  rewrite merge_sort_Permutation. apply Forall_forall. intros r [(_ & _ & Hk) _]%list_elem_of_filter. unfold is_aggregate in Hk. cbn.
  destruct agg, (kind r); done.
Qed.

Lemma led_extend limit f rows s w (P : list (period_kind * Z) → world → Prop) E : led s w → (length rows ≤ limit)%nat →
  (∀ n d, (length (f n d) ≤ n)%nat) →
  (∀ more w', led s w' → (length (rows ++ more) ≤ limit)%nat → more = [] ∨ (∃ n d, more = f n d) → P (rows ++ more) w') →
  wp (extend others now cfg elapsed limit f rows) P E w.
Proof using others_step.
  intros Hl Hlen Hf HP. unfold extend. pose proof (HP [] w Hl) as H0. rewrite app_nil_r in H0.
  case_bool_decide as Hlt; [|by apply H0; [lia|left]].
  apply wpb_bind. apply (led_out_of_time elapsed s w); [done|]. intros [|] w1 H1.
  - pose proof (HP [] w1 H1) as H0'. rewrite app_nil_r in H0'. by apply H0'; [lia|left].
  - apply wpb_bind. apply (led_access _ s w1); [apply acts_query|done|]. intros t d w2 H2. cbn [snd].
    apply HP; [done| |right; by eexists _, _]. rewrite length_app. specialize (Hf (limit - length rows)%nat d). lia.
Qed.

Lemma led_select sc limit s w : led s w →
  wp (select_rows others now cfg elapsed retry_before sc limit) (λ rows w', led s w' ∧ selection limit rows) (λ _ _, False) w.
Proof using others_step.
  intros Hl. unfold select_rows. apply wpb_bind. apply (led_access _ s w); [apply acts_query|done|]. intros t d w1 H1. cbn [snd].
  destruct (stale_rows_kinds false sc limit d) as [K1 L1]. set (r1 := stale_rows _ _ _ _) in *. clearbody r1.
  apply wpb_bind. apply (led_extend limit _ r1 s w1); [done|done|intros; apply failed_rows_kinds|]. intros m2 w2 H2 L2 E2.
  assert (all_kinds false m2) as K2 by (destruct E2 as [->|(n & d2 & ->)]; [by apply Forall_nil|apply failed_rows_kinds]).
  apply wpb_bind. apply (led_extend limit _ (r1 ++ m2) s w2); [done|done|intros; apply stale_rows_kinds|]. intros m3 w3 H3 L3 E3.
  assert (all_kinds true m3) as K3 by (destruct E3 as [->|(n & d3 & ->)]; [by apply Forall_nil|apply stale_rows_kinds]).
  apply (led_extend limit _ ((r1 ++ m2) ++ m3) s w3); [done|done|intros; apply failed_rows_kinds|]. intros m4 w4 H4 L4 E4.
  assert (all_kinds true m4) as K4 by (destruct E4 as [->|(n & d4 & ->)]; [by apply Forall_nil|apply failed_rows_kinds]).
  split; [done|]. split; [done|]. exists (r1 ++ m2), (m3 ++ m4). split; [by rewrite <-app_assoc|]. by split; apply Forall_app.
Qed.

Lemma led_maintenance sc s w : led s w →
  wp (run_rollup_maintenance pick enc summarizer others now nonce_of cfg render elapsed route_available retry_before sc)
     (λ n w', led s w' ∧ (n ≤ Z.to_nat (rollup_builds_per_pass cfg))%nat) (λ _ _, False) w.
Proof using others_step.
  intros Hl. unfold run_rollup_maintenance. cbn zeta. destruct (_ || _); [split; [done|lia]|].
  apply wpb_bind, (led_out_of_time elapsed s w _ _ Hl). intros [|] w1 H1; [split; [done|lia]|].
  apply wpb_bind, (led_access _ s w1 _ _ acts_drain H1). intros t d w2 H2.
  apply wpb_bind, (led_out_of_time elapsed s w2 _ _ H2). intros [|] w3 H3; [split; [done|lia]|].
  apply wpb_bind, (led_access _ s w3 _ _ (acts_reclaim 256) H3). intros t4 d4 w4 H4.
  apply wpb_bind, (led_out_of_time elapsed s w4 _ _ H4). intros [|] w5 H5; [split; [done|lia]|].
  apply wpb_bind. eapply wpb_then; [by apply led_select|]. intros rows w6 (H6 & Hlen & _). eapply wpb_then; [by apply (led_run_builds rows sc 0 s)|].
  cbn. intros n w7 [H7 Hn]. split; [done|lia].
Qed.

(** A pass of maintenance returns, only takes steps of the store's system, and starts
    at most the configured number of builds; no budget, in builds or in time, starts none. *)
Theorem maintenance_bounded sc w s0 : reachable s0 → store w = db s0 →
  ∃ n w' s', run_rollup_maintenance pick enc summarizer others now nonce_of cfg render elapsed route_available retry_before sc w = (Ok n, w') ∧
    rtc step s0 s' ∧ store w' = db s' ∧ Z.of_nat n <= Z.max 0 (rollup_builds_per_pass cfg) ∧
    (rollup_maintenance_budget_ms cfg <= 0 → n = 0%nat ∧ w' = w).
Proof using others_step.
  intros Hr Hst. pose proof (led_maintenance sc s0 w) as H. unfold wp in H.
  destruct (run_rollup_maintenance _ _ _ _ _ _ _ _ _ _ _ _ w) as [[n|e] w'] eqn:E.
  2: { destruct H. exists s0, (published w). by split_and!. }
  destruct H as [(s' & noted & _ & Hs & Es & _) Hn]; [exists s0, (published w); by split_and!|].
  exists n, w', s'. do 3 (split; [done|]). split; [lia|]. intros Hb. unfold run_rollup_maintenance in E. cbn zeta in E.
  rewrite (bool_decide_eq_true_2 (rollup_maintenance_budget_ms cfg <= 0)), orb_true_r in E by done. by injection E as <- <-.
Qed.

End builds.

(** ** Builds of a sample store *)

Definition sample_config : config :=
  {| rollup_daily_target_tokens := 80; rollup_daily_max_tokens := 100; rollup_aggregate_max_tokens := 100;
     rollup_builds_per_pass := 4; rollup_maintenance_budget_ms := 1000 |}.
Definition sample_rendering : rendering :=
  {| daily_fingerprint := λ _, "f"; days_fingerprint := λ _, "g"; describe := λ _, "error"; pending_reason := λ _, "incomplete" |}.
Definition sample_world (s : system) : world := {| store := db s; accesses := 0; readings := 0; published := [] |}.
Definition alone (n : nat) (d : database) : database := d.
Definition sample_summarizer (n r : nat) (t : text) (tokens target hard : Z) : result build_error (text * Z) := Ok ([115], 1).

Lemma alone_steps : ∀ (n : nat) s, ∃ s', rtc step s s' ∧ db s' = alone n (db s).
Proof. intros n s. by exists s. Qed.

Lemma sample_drained_reachable : reachable sample_drained.
Proof.
  exists sample_start. split; [split_and!; try done|].
  eapply rtc_l; [apply (step_mutate (InsertNode sample_node))|]. eapply rtc_l; [apply (step_call (DrainInvalidations 256 256))|]. done.
Qed.

(** Another process adds a node of the day just before the publication. *)
Definition meddling (n : nat) (d : database) : database := if bool_decide (n = 3%nat) then mutate (InsertNode sample_node) d else d.

Lemma meddling_steps : ∀ (n : nat) s, ∃ s', rtc step s s' ∧ db s' = meddling n (db s).
Proof.
  intros n s. unfold meddling. case_bool_decide; [|by exists s]. eexists. split; [apply rtc_once, (step_mutate (InsertNode sample_node))|done].
Qed.

Definition sample_build (others : nat → database → database) (k : period_kind) (d : Z) (s : system) :=
  build (λ _ X, elements X) None sample_summarizer others (λ _, 9) (λ _, "n") sample_config sample_rendering k d "s" (sample_world s).



Lemma build_aggregate_complete_witness :
  reachable sample_ready ∧
  ∃ r w' t s2 ids, sample_build alone Week 19782 sample_ready = (Ok r, w') ∧ published w' = [(t, ids)] ∧ ids = [1] ∧
    aggregate_published (λ _ X, elements X) s2 t 19779 19785 "s" ids.
Proof.
  split; [exact sample_ready_reachable|].
  destruct (sample_build alone Week 19782 sample_ready) as [[r|e] w'] eqn:E; [|vm_compute in E; discriminate E].
  assert (snd <$> published w' = [[1]]) as Hp.
  { change w' with (@Ok build_error _ r, w').2. rewrite <-E. vm_compute. reflexivity. }
  destruct (build_aggregate_complete (λ _ X, elements X) None sample_summarizer alone (λ _, 9) (λ _, "n") sample_config sample_rendering
    alone_steps Week 19782 "s" (sample_world sample_ready) sample_ready r w' ltac:(discriminate) sample_ready_reachable eq_refl E)
    as [H|(t & ids & s2 & Hp' & _ & H)]; [rewrite H in Hp; discriminate Hp|].
  cbn in Hp'. rewrite Hp' in Hp. cbn in Hp. injection Hp as ->. exists r, w', t, s2, [1]. by split_and!.
Defined.

Lemma maintenance_bounded_witness :
  reachable sample_ready ∧
  ∃ n w', run_rollup_maintenance (λ _ X, elements X) None sample_summarizer alone (λ _, 9) (λ _, "n") sample_config sample_rendering
    (λ _, 1) (λ _, true) 0 "s" (sample_world sample_ready) = (Ok n, w') ∧ n = 2%nat ∧ length (published w') = 2%nat ∧ Z.of_nat n <= 4.
Proof.
  split; [exact sample_ready_reachable|].
  destruct (maintenance_bounded (λ _ X, elements X) None sample_summarizer alone (λ _, 9) (λ _, "n") sample_config sample_rendering
    alone_steps (λ _, 1) (λ _, true) 0 "s" (sample_world sample_ready) sample_ready sample_ready_reachable eq_refl)
    as (n & w' & s' & E & _ & _ & Hn & _).
  assert (match run_rollup_maintenance (λ _ X, elements X) None sample_summarizer alone (λ _, 9) (λ _, "n") sample_config sample_rendering
    (λ _, 1) (λ _, true) 0 "s" (sample_world sample_ready) with (Ok n, w') => (n, length (published w')) = (2%nat, 2%nat) | _ => False end) as H
    by (vm_compute; reflexivity).
  rewrite E in H. injection H as H1 H2. exists n, w'. by split_and!.
Defined.
