(* ===== verification/RollupLiveness.v ===== *)
(** Builds that nobody disturbs: with an empty outbox and a summarizer that answers, the
    build of a day with sources publishes them, and the day's row is ready. *)

From S2P Require Import Prelude PyText Calendar Frontier LineageLoad RollupStore RollupProofs Chunking Truncation RollupBuilder RollupBuilds.
From stdpp Require Import options.

#[local] Open Scope Z_scope.

(** ** Reading a row by its key *)

Lemma get_rollup_iff k start s db r : wf db → get_rollup k start s db = Some r ↔ r ∈ rollups db ∧ key_of r = (k, start, s).
Proof.
  intros Hwf. unfold get_rollup. split.
  - intros [Hr Hk]%find_first_Some. split; [done|by apply has_key_spec].
  - intros [Hr Hk]. destruct (find_first_is_Some (λ r, has_key k start s r = true) (rollups db) r) as [r' E]; [done|by apply has_key_spec|].
    rewrite E. apply find_first_Some in E as [Hr' Hk']. apply has_key_spec in Hk'. f_equal. apply (same_key db); congruence.
Qed.

Lemma upsert_row_keeps k start s row p f db r : r ∈ rollups db → key_of r ≠ (k, start, s) → r ∈ rollups (upsert_row k start s row p f db).
Proof.
  intros Hr Hk. unfold upsert_row. destruct (existsb _ _); [|by apply elem_of_app; left].
  apply update_rows_elem. exists r. split; [done|]. destruct (has_key k start s r) eqn:E; [|done]. by apply has_key_spec in E.
Qed.

Lemma stale_aggregates_keeps d s db r : r ∈ rollups db → kind r = Day → r ∈ rollups (stale_aggregates_for_day d s db).
Proof.
  intros Hr Hk. unfold stale_aggregates_for_day, stale_row. unfold key_of.
  apply upsert_row_keeps; [apply upsert_row_keeps; [done|]|]; unfold key_of; rewrite Hk; done.
Qed.

Lemma upsert_row_sources k start s row p f db : rollup_sources (upsert_row k start s row p f db) = rollup_sources db.
Proof. unfold upsert_row. by destruct (existsb _ _). Qed.

Lemma stale_aggregates_sources d s db : rollup_sources (stale_aggregates_for_day d s db) = rollup_sources db.
Proof. unfold stale_aggregates_for_day, stale_row. by rewrite !upsert_row_sources. Qed.

(** ** Claiming and publishing *)

(** A claim always succeeds, and its token owns the row of the period. *)
Lemma claim_owns k start s now n db0 : wf db0 →
  ∃ db1 t r, upsert_building k start s now n db0 = Some (db1, t) ∧ r ∈ rollups db1 ∧ owns t r = true ∧ key_of r = (k, start, s).
Proof.
  intros Hwf. destruct (upsert_building k start s now n db0) as [[db1 t]|] eqn:E.
  - exists db1, t. pose proof (claim_spec _ _ _ _ _ _ _ _ Hwf E) as (_ & _ & _ & _ & _ & _ & _ & Hrows).
    unfold upsert_building in E. destruct (get_rollup k start s _) as [r|] eqn:Er; [|done]. cbn in E. injection E as <- <-.
    apply find_first_Some in Er as [Hr Hk]. exists r. destruct (Hrows r Hr) as [[_ Hne]|(Hk' & _ & _ & Hb)]; [by destruct Hne|].
    split; [done|]. split; [done|]. split; [by apply owns_spec|done].
  - exfalso. unfold upsert_building in E. destruct (get_rollup k start s _) as [r|] eqn:Er; [done|].
    unfold upsert_row in Er. destruct (existsb (has_key k start s) (rollups db0)) eqn:He.
    + apply existsb_exists in He as (r & Hr%list_elem_of_In & Hk).
      apply (find_first_None _ _ (claimed_row now n r) Er).
      * apply update_rows_elem. exists r. by rewrite Hk.
      * apply has_key_spec. by apply has_key_spec in Hk.
    + apply (find_first_None _ _ (new_row (next_rollup_id db0) k start s Building (Some now) (Some (now + BUILD_LEASE_SECONDS)) n) Er).
      * apply elem_of_app. right. by left.
      * by apply has_key_spec.
Qed.

Lemma mark_ready_accepts t text count ids fp now db0 r : wf db0 → r ∈ rollups db0 → owns t r = true →
  invalidations db0 = [] → (∀ i, i ∈ ids → is_Some (summary_nodes db0 !! i)) →
  ∃ db1, mark_ready t text count ids fp now db0 = Ok (db1, true) ∧ published_row text count now fp r ∈ rollups db1 ∧
         source_node_ids (token_id t) db1 = list_to_set ids.
Proof.
  intros Hwf Hr Ho Hinv Hids. unfold mark_ready. destruct (find_first_is_Some (λ r, owns t r = true) (rollups db0) r Hr Ho) as [r' E].
  rewrite E. rewrite Hinv. cbn [existsb]. destruct (existsb _ (remove_dups ids)) eqn:He.
  { apply existsb_exists in He as (i & Hi%list_elem_of_In & Hn%bool_decide_eq_true). rewrite elem_of_remove_dups in Hi.
    destruct (Hids i Hi) as [n Hn']. congruence. }
  eexists. split; [done|]. split; [exact (owned_row t db0 _ r (published_row text count now fp) Hwf Hr Ho eq_refl)|apply relinked_sources].
Qed.

(** ** Undisturbed builds *)

Section undisturbed.
Variable pick : nat → gset Z → list Z.
Variable enc : option encoder.
Variable summarizer : nat → nat → text → Z → Z → Z → result build_error (text * Z).
Variable now : nat → Z.
Variable nonce_of : nat → string.
Variable cfg : config.
Variable render : rendering.

Lemma run_bind {A C} (m : B A) (f : A → B C) w a w' : m w = (Ok a, w') → (m ≫= f) w = f a w'.
Proof using Type. unfold mbind, B_bind. by intros ->. Qed.

Lemma run_access {A} (f : Z → database → database * A) w :
  access alone now f w = (Ok (f (now (accesses w)) (store w)).2,
    {| store := (f (now (accesses w)) (store w)).1; accesses := S (accesses w); readings := readings w; published := published w |}).
Proof using Type. unfold access, alone. by destruct (f _ _). Qed.

(** The build of a day once claimed, when nobody interferes. *)
Lemma day_body_alone t d sc x xs text count db0 r w : wf db0 → r ∈ rollups db0 → owns t r = true → key_of r = (Day, d, sc) →
  invalidations db0 = [] → store w = db0 → daily_sources pick db0 sc d = Ok (x :: xs) →
  summarize_capped enc (summarizer (S (accesses w))) (source_text (x :: xs)) (rollup_daily_target_tokens cfg) (rollup_daily_max_tokens cfg) = Some (Ok (text, count)) →
  ∃ fp r1 w1, day_body pick enc summarizer alone now cfg render t d sc w = (Ok (Some r1), w1) ∧
    r1 = published_row text count (now (S (accesses w))) fp r ∧ get_rollup Day d sc (store w1) = Some r1 ∧
    source_node_ids (token_id t) (store w1) = list_to_set (source_id <$> x :: xs) ∧
    published w1 = published w ++ [(t, merge_sort Z.le (source_id <$> x :: xs))].
Proof using Type.
  intros Hwf Hr Ho Hk Hinv Hst Hsrc Hsum. set (ids := merge_sort Z.le (source_id <$> x :: xs)).
  set (fp := daily_fingerprint render ((λ x, (source_id x, source_summary x)) <$> merge_sort by_id (x :: xs))).
  destruct (mark_ready_accepts t text count ids fp (now (S (accesses w))) db0 r Hwf Hr Ho Hinv) as (db1 & Em & Hr1 & Hs1).
  { intros i Hi. unfold ids in Hi. rewrite merge_sort_Permutation in Hi. apply list_elem_of_fmap in Hi as (y & -> & Hy).
    destruct (daily_sources_meet _ _ _ _ _ _ Hsrc Hy) as (n & (Hn & _) & _). by exists n. }
  set (r1 := published_row text count (now (S (accesses w))) fp r) in *. set (db2 := stale_aggregates_for_day d sc db1).
  assert (r1 ∈ rollups db2) as Hr2.
  { apply stale_aggregates_keeps; [done|]. unfold r1. cbn. unfold key_of in Hk. congruence. }
  assert (wf db2) as Hwf2.
  { assert (wf db1) as Hwf1.
    { pose proof (el_wf _ _ (run_evolution (MarkReady t text count ids fp (now (S (accesses w)))) db0 Hwf) Hwf) as H.
      cbn [run] in H. by rewrite Em in H. }
    exact (el_wf _ _ (run_evolution (StaleAggregatesForDay d sc) db1 Hwf1) Hwf1). }
  assert (get_rollup Day d sc db2 = Some r1) as Hg by (by apply get_rollup_iff).
  exists fp, r1, {| store := db2; accesses := S (S (S (S (accesses w)))); readings := readings w; published := published w ++ [(t, ids)] |}.
  split; [|split; [done|split; [done|split; [|done]]]].
  - unfold day_body. erewrite run_bind by apply run_access. cbn [snd]. rewrite Hst. erewrite run_bind by (unfold lift; by rewrite Hsrc).
    cbn zeta iota. erewrite run_bind by (unfold summarize, lift; cbn [accesses]; by rewrite Hsum).
    fold ids. fold fp. cbn iota beta. erewrite run_bind; [|unfold publish; erewrite run_bind by apply run_access].
    2: { cbn [accesses store fst snd]. unfold alone. rewrite Em. by cbn. }
    cbn iota. erewrite run_bind by apply run_access. unfold query. by rewrite run_access; cbn; fold db2; rewrite Hg.
  - cbn [store]. unfold source_node_ids, db2. rewrite stale_aggregates_sources. fold (source_node_ids (token_id t) db1). rewrite Hs1.
    apply set_eq. intros i. rewrite !elem_of_list_to_set. unfold ids. by rewrite merge_sort_Permutation.
Qed.

(** C27: a build that nobody disturbs makes the day ready: when the drain empties the
    outbox, the day has sources and the summary of their texts is found, the build
    returns the day's row, ready, with that summary and exactly those sources. *)
Theorem undisturbed_day_ready d sc w x xs text count :
  wf (store w) →
  invalidations (before_claim alone w) = [] →
  daily_sources pick (before_claim alone w) sc d = Ok (x :: xs) →
  summarize_capped enc (summarizer (3 + accesses w)) (source_text (x :: xs)) (rollup_daily_target_tokens cfg) (rollup_daily_max_tokens cfg)
    = Some (Ok (text, count)) →
  ∃ r w', build pick enc summarizer alone now nonce_of cfg render Day d sc w = (Ok (Some r), w') ∧
    get_rollup Day d sc (store w') = Some r ∧ status r = Ready ∧ summary r = Some text ∧ token_count r = Some count ∧
    source_node_ids (rollup_id r) (store w') = list_to_set (source_id <$> x :: xs).
Proof using Type.
  intros Hwf Hinv Hsrc Hsum.
  assert (wf (before_claim alone w)) as Hwf0.
  { exact (el_wf _ _ (run_evolution (DrainInvalidations 256 256) (store w) Hwf) Hwf). }
  destruct (claim_owns Day d sc (now (S (accesses w))) (nonce_of (S (accesses w))) _ Hwf0) as (db1 & t & r0 & Ec & Hr & Ho & Hk).
  destruct (claim_spec _ _ _ _ _ _ _ _ Hwf0 Ec) as (Hwf1 & Hinv1 & Hnodes & _).
  assert (daily_sources pick db1 sc d = Ok (x :: xs)) as Hsrc1.
  { rewrite <-Hsrc. unfold daily_sources, scope_frontier, scope_rows, frontier_of, lineage_table. by rewrite Hnodes. }
  destruct (day_body_alone t d sc x xs text count db1 r0 (claim_world w db1) Hwf1 Hr Ho Hk) as (fp & r1 & w1 & Eb & Er1 & Hg1 & Hs1 & _);
    [congruence|done|done|exact Hsum|].
  exists r1, w1. rewrite build_claims. unfold claim_of. cbn [period_start_of]. rewrite Ec. unfold guarded, catch, claimed_body. rewrite Eb.
  assert (rollup_id r1 = token_id t) as Eid by (rewrite Er1; cbn; by apply owns_spec in Ho as (? & _)).
  split; [done|]. split; [done|]. do 3 (split; [by rewrite Er1|]). by rewrite Eid.
Qed.

End undisturbed.

Definition sample_source : source := source_of_node (1, sample_node).

Lemma undisturbed_day_ready_witness :
  wf (db sample_drained) ∧
  ∃ r w', sample_build alone Day 19782 sample_drained = (Ok (Some r), w') ∧ status r = Ready ∧ summary r = Some [115] ∧
    source_node_ids (rollup_id r) (store w') = {[1]}.
Proof.
  assert (wf (db sample_drained)) as Hwf by (exact (si_wf _ (reachable_inv _ sample_drained_reachable))). split; [exact Hwf|].
  destruct (undisturbed_day_ready (λ _ X, elements X) None sample_summarizer (λ _, 9) (λ _, "n") sample_config sample_rendering
    19782 "s" (sample_world sample_drained) sample_source [] [115] 1 Hwf) as (r & w' & E & _ & H1 & H2 & _ & H3);
    [vm_compute; reflexivity..|].
  exists r, w'. split; [exact E|]. split; [exact H1|]. split; [exact H2|]. rewrite H3. vm_compute. reflexivity.
Defined.
