(* ===== verification/Scheduler.v ===== *)
(** The background scheduler (maintenance_scheduler.py): jobs deduplicated by key, one
    worker, a ready queue and a deferred bank of bounded size, one slot for the follow-up
    of the running key, exclusive keys of operators, and the owners of each key.

    Every method runs under one lock, so a critical section is a function of the state:
    the waits cut a method into several.  Jobs and owners are identities, the clock is an
    argument; logging is left out. *)

From S2P Require Import Prelude.
From stdpp Require Import options.

#[local] Open Scope Z_scope.

(** ** The state *)

Definition key : Type := string * string.
Definition job : Type := Z.
Definition owner : Type := Z.

(** No thread, one that waits for work, or one that runs a job of a key. *)
Inductive worker_state := NoWorker | Waiting | Running (k : key) (j : job).
#[global] Instance worker_state_eq_dec : EqDecision worker_state.
Proof. solve_decision. Defined.

Record scheduler := {
  max_pending : nat;
  (** the instance of the embeddings *)
  embedding : bool;
  jobs : list (key * job);
  queued_keys : gset key;
  deferred_jobs : list (key * job);
  not_before : gmap key Z;
  active_keys : gset key;
  follow_up_key : option key;
  follow_up_job : option job;
  running_follow_up : bool;
  exclusive_keys : gset key;
  owned_keys : gmap owner (gset key);
  key_owners : gmap key (gset owner);
  (** by key, the owners' jobs in insertion order *)
  handoff_jobs : gmap key (list (owner * job));
  retired_active_keys : gmap owner (gset key);
  worker : worker_state;
  closed : bool;
  (** [_STOP_EMBEDDING_MAINTENANCE] *)
  stopped : bool }.

(** [__init__] with its default number of jobs *)
Definition new_scheduler (max_pending_jobs : Z) (is_embedding : bool) : scheduler :=
  {| max_pending := Z.to_nat (Z.max 1 max_pending_jobs); embedding := is_embedding; jobs := []; queued_keys := ∅; deferred_jobs := [];
     not_before := ∅; active_keys := ∅; follow_up_key := None; follow_up_job := None; running_follow_up := false; exclusive_keys := ∅;
     owned_keys := ∅; key_owners := ∅; handoff_jobs := ∅; retired_active_keys := ∅; worker := NoWorker; closed := false; stopped := false |}.

(** ** Assignments *)

Definition set_jobs (js : list (key * job)) (q : gset key) (s : scheduler) : scheduler :=
  {| max_pending := max_pending s; embedding := embedding s; jobs := js; queued_keys := q; deferred_jobs := deferred_jobs s;
     not_before := not_before s; active_keys := active_keys s; follow_up_key := follow_up_key s; follow_up_job := follow_up_job s;
     running_follow_up := running_follow_up s; exclusive_keys := exclusive_keys s; owned_keys := owned_keys s; key_owners := key_owners s;
     handoff_jobs := handoff_jobs s; retired_active_keys := retired_active_keys s; worker := worker s; closed := closed s; stopped := stopped s |}.

Definition set_deferred (js : list (key * job)) (s : scheduler) : scheduler :=
  {| max_pending := max_pending s; embedding := embedding s; jobs := jobs s; queued_keys := queued_keys s; deferred_jobs := js;
     not_before := not_before s; active_keys := active_keys s; follow_up_key := follow_up_key s; follow_up_job := follow_up_job s;
     running_follow_up := running_follow_up s; exclusive_keys := exclusive_keys s; owned_keys := owned_keys s; key_owners := key_owners s;
     handoff_jobs := handoff_jobs s; retired_active_keys := retired_active_keys s; worker := worker s; closed := closed s; stopped := stopped s |}.

Definition set_not_before (m : gmap key Z) (s : scheduler) : scheduler :=
  {| max_pending := max_pending s; embedding := embedding s; jobs := jobs s; queued_keys := queued_keys s; deferred_jobs := deferred_jobs s;
     not_before := m; active_keys := active_keys s; follow_up_key := follow_up_key s; follow_up_job := follow_up_job s;
     running_follow_up := running_follow_up s; exclusive_keys := exclusive_keys s; owned_keys := owned_keys s; key_owners := key_owners s;
     handoff_jobs := handoff_jobs s; retired_active_keys := retired_active_keys s; worker := worker s; closed := closed s; stopped := stopped s |}.

(** [_follow_up_key] and [_follow_up_job] *)
Definition set_follow_up (k : option key) (j : option job) (s : scheduler) : scheduler :=
  {| max_pending := max_pending s; embedding := embedding s; jobs := jobs s; queued_keys := queued_keys s; deferred_jobs := deferred_jobs s;
     not_before := not_before s; active_keys := active_keys s; follow_up_key := k; follow_up_job := j;
     running_follow_up := running_follow_up s; exclusive_keys := exclusive_keys s; owned_keys := owned_keys s; key_owners := key_owners s;
     handoff_jobs := handoff_jobs s; retired_active_keys := retired_active_keys s; worker := worker s; closed := closed s; stopped := stopped s |}.

Definition set_exclusive (ks : gset key) (s : scheduler) : scheduler :=
  {| max_pending := max_pending s; embedding := embedding s; jobs := jobs s; queued_keys := queued_keys s; deferred_jobs := deferred_jobs s;
     not_before := not_before s; active_keys := active_keys s; follow_up_key := follow_up_key s; follow_up_job := follow_up_job s;
     running_follow_up := running_follow_up s; exclusive_keys := ks; owned_keys := owned_keys s; key_owners := key_owners s;
     handoff_jobs := handoff_jobs s; retired_active_keys := retired_active_keys s; worker := worker s; closed := closed s; stopped := stopped s |}.

Definition set_owners (owned : gmap owner (gset key)) (owners : gmap key (gset owner)) (handoffs : gmap key (list (owner * job))) (s : scheduler) : scheduler :=
  {| max_pending := max_pending s; embedding := embedding s; jobs := jobs s; queued_keys := queued_keys s; deferred_jobs := deferred_jobs s;
     not_before := not_before s; active_keys := active_keys s; follow_up_key := follow_up_key s; follow_up_job := follow_up_job s;
     running_follow_up := running_follow_up s; exclusive_keys := exclusive_keys s; owned_keys := owned; key_owners := owners;
     handoff_jobs := handoffs; retired_active_keys := retired_active_keys s; worker := worker s; closed := closed s; stopped := stopped s |}.

Definition set_retired (m : gmap owner (gset key)) (s : scheduler) : scheduler :=
  {| max_pending := max_pending s; embedding := embedding s; jobs := jobs s; queued_keys := queued_keys s; deferred_jobs := deferred_jobs s;
     not_before := not_before s; active_keys := active_keys s; follow_up_key := follow_up_key s; follow_up_job := follow_up_job s;
     running_follow_up := running_follow_up s; exclusive_keys := exclusive_keys s; owned_keys := owned_keys s; key_owners := key_owners s;
     handoff_jobs := handoff_jobs s; retired_active_keys := m; worker := worker s; closed := closed s; stopped := stopped s |}.

(** The keys being run, the worker, and whether it runs a follow-up. *)
Definition set_worker (active : gset key) (w : worker_state) (again : bool) (s : scheduler) : scheduler :=
  {| max_pending := max_pending s; embedding := embedding s; jobs := jobs s; queued_keys := queued_keys s; deferred_jobs := deferred_jobs s;
     not_before := not_before s; active_keys := active; follow_up_key := follow_up_key s; follow_up_job := follow_up_job s;
     running_follow_up := again; exclusive_keys := exclusive_keys s; owned_keys := owned_keys s; key_owners := key_owners s;
     handoff_jobs := handoff_jobs s; retired_active_keys := retired_active_keys s; worker := w; closed := closed s; stopped := stopped s |}.

Definition set_closed (c st : bool) (s : scheduler) : scheduler :=
  {| max_pending := max_pending s; embedding := embedding s; jobs := jobs s; queued_keys := queued_keys s; deferred_jobs := deferred_jobs s;
     not_before := not_before s; active_keys := active_keys s; follow_up_key := follow_up_key s; follow_up_job := follow_up_job s;
     running_follow_up := running_follow_up s; exclusive_keys := exclusive_keys s; owned_keys := owned_keys s; key_owners := key_owners s;
     handoff_jobs := handoff_jobs s; retired_active_keys := retired_active_keys s; worker := worker s; closed := c; stopped := st |}.

(** ** Owners *)

Definition deferred_keys (s : scheduler) : gset key := list_to_set (deferred_jobs s).*1.

(** [d[o] = j] on an insertion-ordered dict *)
Fixpoint assoc_set (o : owner) (j : job) (l : list (owner * job)) : list (owner * job) :=
  match l with
  | [] => [(o, j)]
  | x :: l => if bool_decide (x.1 = o) then (o, j) :: l else x :: assoc_set o j l
  end.

Definition track_owner (k : key) (o : option owner) (j : option job) (s : scheduler) : scheduler :=
  match o with
  | None => s
  | Some o =>
      set_owners (<[o := default ∅ (owned_keys s !! o) ∪ {[k]}]> (owned_keys s))
        (<[k := default ∅ (key_owners s !! k) ∪ {[o]}]> (key_owners s))
        (match j with Some j => <[k := assoc_set o j (default [] (handoff_jobs s !! k))]> (handoff_jobs s) | None => handoff_jobs s end) s
  end.

(** The key is queued, deferred, running, held by an operator or to be run again. *)
Definition outstanding (s : scheduler) (k : key) : bool :=
  bool_decide (k ∈ queued_keys s) || bool_decide (k ∈ deferred_keys s) || bool_decide (k ∈ active_keys s)
  || bool_decide (k ∈ exclusive_keys s) || bool_decide (follow_up_key s = Some k).

(** The key leaves its owners' sets, and an owner without keys leaves the table. *)
Definition disown (owners : gset owner) (k : key) (owned : gmap owner (gset key)) : gmap owner (gset key) :=
  map_imap (λ o ks, if bool_decide (o ∈ owners) then (if bool_decide (ks ∖ {[k]} = ∅) then None else Some (ks ∖ {[k]})) else Some ks) owned.

Definition release_key_owners_if_idle (k : key) (s : scheduler) : scheduler :=
  if outstanding s k then s
  else set_owners (disown (default ∅ (key_owners s !! k)) k (owned_keys s)) (delete k (key_owners s)) (delete k (handoff_jobs s)) s.

(** ** Scheduling *)

Definition start_worker (s : scheduler) : scheduler :=
  match worker s with NoWorker => set_worker (active_keys s) Waiting (running_follow_up s) s | _ => s end.

Definition schedule (k : key) (j : job) (o : option owner) (delay : Z) (handoff : bool) (now : Z) (s : scheduler) : scheduler * bool :=
  let hj := if handoff then Some j else None in
  if closed s then (s, false)
  else if bool_decide (k ∈ exclusive_keys s) then (s, false)
  else if bool_decide (k ∈ queued_keys s) || bool_decide (k ∈ deferred_keys s) then
    let s := if bool_decide (0 < delay) then set_not_before (<[k := Z.max (default 0 (not_before s !! k)) (now + delay)]> (not_before s)) s else s in
    (track_owner k o hj s, true)
  else
    let s := if bool_decide (0 < delay) then
               let s := set_not_before (<[k := now + delay]> (not_before s)) s in
               if bool_decide (follow_up_key s = Some k) then set_follow_up None None s else s
             else s in
    if bool_decide (k ∈ active_keys s) && negb (running_follow_up s) && bool_decide (delay <= 0) then
      (track_owner k o hj (set_follow_up (Some k) (Some j) s), true)
    else if bool_decide (max_pending s <= length (jobs s))%nat then
      if embedding s && bool_decide (length (deferred_jobs s) < max_pending s)%nat then
        (track_owner k o hj (set_deferred (deferred_jobs s ++ [(k, j)]) s), true)
      else (set_not_before (delete k (not_before s)) s, false)
    else
      let s := start_worker s in
      (track_owner k o hj (set_jobs (jobs s ++ [(k, j)]) (queued_keys s ∪ {[k]}) s), true).

Definition handoff (k : key) (retired : owner) (delay now : Z) (s : scheduler) : scheduler * bool :=
  match find_first (λ x : owner * job, x.1 ≠ retired) (default [] (handoff_jobs s !! k)) with
  | Some (o, j) => schedule k j (Some o) delay true now s
  | None => (s, false)
  end.

(** ** Exclusive keys *)

Definition try_acquire_exclusive (k : key) (s : scheduler) : scheduler * bool :=
  if outstanding s k then (s, false)
  else if bool_decide (max_pending s <= size (exclusive_keys s))%nat then (s, false)
  else (set_exclusive (exclusive_keys s ∪ {[k]}) s, true).

Definition release_exclusive (k : key) (s : scheduler) : scheduler := set_exclusive (exclusive_keys s ∖ {[k]}) s.

(** ** Waiting *)

(** A wait loop over what it sees each time it holds the lock: the state and the clock. *)
Fixpoint await (done : scheduler → bool) (deadline : option Z) (seen : list (scheduler * Z)) : option bool :=
  match seen with
  | [] => None
  | (s, now) :: seen =>
      if done s then Some true
      else match deadline with
           | Some t => if bool_decide (t - now <= 0) then Some false else await done deadline seen
           | None => await done deadline seen
           end
  end.

Definition follow_up_set (s : scheduler) : gset key := match follow_up_key s with Some k => {[k]} | None => ∅ end.
Definition drained (ks : gset key) (s : scheduler) : bool :=
  bool_decide (ks ∩ (queued_keys s ∪ deferred_keys s ∪ active_keys s ∪ exclusive_keys s ∪ follow_up_set s) = ∅).
Definition owner_drained (o : owner) (s : scheduler) : bool := bool_decide (default ∅ (owned_keys s !! o) = ∅).

Definition drain (ks : gset key) (deadline : option Z) (seen : list (scheduler * Z)) : option bool := await (drained ks) deadline seen.
Definition drain_owner (o : owner) (deadline : option Z) (seen : list (scheduler * Z)) : option bool := await (owner_drained o) deadline seen.

(** ** Retirement *)

Definition replace_job (k : key) (j : job) (l : list (key * job)) : list (key * job) :=
  (λ x, if bool_decide (x.1 = k) then (k, j) else x) <$> l.
Definition without (k : key) (l : list (key * job)) : list (key * job) := filter (λ x, x.1 ≠ k) l.

(** One key of a retired owner: its other owners keep it, or its pending work is dropped. *)
Definition retire_key (o : owner) (k : key) (s : scheduler) : scheduler :=
  let owners := default ∅ (key_owners s !! k) ∖ {[o]} in
  let handoffs := filter (λ x : owner * job, x.1 ≠ o) (default [] (handoff_jobs s !! k)) in
  if bool_decide (owners = ∅) then
    let s := set_owners (owned_keys s) (delete k (key_owners s)) (delete k (handoff_jobs s)) s in
    let s := set_deferred (without k (deferred_jobs s)) s in
    let s := set_not_before (delete k (not_before s)) s in
    let s := if bool_decide (k ∈ queued_keys s) then set_jobs (without k (jobs s)) (queued_keys s ∖ {[k]}) s else s in
    if bool_decide (follow_up_key s = Some k) then set_follow_up None None s else s
  else
    let s := set_owners (owned_keys s) (<[k := owners]> (key_owners s))
               (match handoff_jobs s !! k with Some _ => <[k := handoffs]> (handoff_jobs s) | None => handoff_jobs s end) s in
    match handoffs with
    | [] => s
    | (_, j) :: _ =>
        let s := set_jobs (replace_job k j (jobs s)) (queued_keys s) s in
        let s := set_deferred (replace_job k j (deferred_jobs s)) s in
        if bool_decide (follow_up_key s = Some k) then set_follow_up (Some k) (Some j) s else s
    end.

Fixpoint retire_keys (o : owner) (ks : list key) (s : scheduler) : scheduler :=
  match ks with [] => s | k :: ks => retire_keys o ks (retire_key o k s) end.

(** Up to the wait: the state, the keys to wait for, and the answer where it does not wait. *)
Definition retire_owner (o : owner) (timeout : Z) (s : scheduler) : scheduler * gset key * option bool :=
  let ks := default ∅ (owned_keys s !! o) in
  let s := retire_keys o (elements ks) (set_owners (delete o (owned_keys s)) (key_owners s) (handoff_jobs s) s) in
  let ks := ks ∪ (default ∅ (retired_active_keys s !! o) ∩ active_keys s) in
  let s := set_retired (delete o (retired_active_keys s)) s in
  if bool_decide (timeout <= 0) then
    let active := ks ∩ active_keys s in
    if bool_decide (active = ∅) then (s, ks, Some true) else (set_retired (<[o := active]> (retired_active_keys s)) s, ks, Some false)
  else (s, ks, None).

(** The wait of a retirement, and of the shutdown for every active key. *)
Definition inactive (ks : gset key) (s : scheduler) : bool := bool_decide (ks ∩ active_keys s = ∅).
Definition quiet (s : scheduler) : bool := bool_decide (active_keys s = ∅).

(** ** Shutdown *)

Fixpoint release_idle (ks : list key) (s : scheduler) : scheduler :=
  match ks with [] => s | k :: ks => release_idle ks (release_key_owners_if_idle k s) end.

(** The critical section of [quiesce] up to its wait. *)
Definition quiesce (s : scheduler) : scheduler :=
  let pending := queued_keys s ∪ deferred_keys s ∪ follow_up_set s in
  let s := set_closed true (stopped s) s in
  let s := set_not_before ∅ (set_deferred [] s) in
  let s := set_follow_up None None (set_jobs [] ∅ s) in
  release_idle (elements pending) s.

(** Its first statement, before the lock. *)
Definition stop (s : scheduler) : scheduler := if embedding s then set_closed (closed s) true s else s.

(** ** The worker *)

(** [clock n] is the [n]-th reading of the monotonic clock in one round of the worker. *)
Definition held (clock : nat → Z) (n : nat) (s : scheduler) (k : key) : bool := bool_decide (clock n < default 0 (not_before s !! k)).

(** [all(...)]: [None] when no job is due, or the readings used to find one. *)
Fixpoint first_due (clock : nat → Z) (n : nat) (s : scheduler) (js : list (key * job)) : option nat :=
  match js with [] => None | (k, _) :: js => if held clock n s k then first_due clock (S n) s js else Some (S n) end.

(** [while ...: self._jobs.rotate(-1)] *)
Fixpoint rotate (fuel : nat) (clock : nat → Z) (n : nat) (s : scheduler) (js : list (key * job)) : option (list (key * job)) :=
  match fuel with
  | O => None
  | S fuel =>
      match js with
      | [] => None
      | (k, j) :: js => if held clock n s k then rotate fuel clock (S n) s (js ++ [(k, j)]) else Some ((k, j) :: js)
      end
  end.

(** The first deferred job enters the ready queue. *)
Definition promote (s : scheduler) : scheduler :=
  match deferred_jobs s with
  | [] => s
  | (k, j) :: ds => set_deferred ds (set_jobs (jobs s ++ [(k, j)]) (queued_keys s ∪ {[k]}) s)
  end.

(** The job at the head is taken. *)
Definition begin (k : key) (j : job) (js : list (key * job)) (s : scheduler) : scheduler :=
  let s := promote (set_not_before (delete k (not_before s)) (set_jobs js (queued_keys s) s)) in
  set_worker (active_keys s ∪ {[k]}) (Running k j) false (set_jobs (jobs s) (queued_keys s ∖ {[k]}) s).

Definition exit_worker (s : scheduler) : scheduler := set_worker (active_keys s) NoWorker (running_follow_up s) s.

(** A waiting worker looks for work once: it leaves, waits or takes a job. *)
Definition take_job (clock : nat → Z) (s : scheduler) : scheduler :=
  let s := if bool_decide (jobs s = []) then promote s else s in
  match jobs s with
  | [] => if closed s then exit_worker s else s
  | _ =>
      match first_due clock 0 s (jobs s) with
      | None => if embedding s && stopped s then exit_worker (quiesce s) else s
      | Some n =>
          match rotate (length (jobs s)) clock n s (jobs s) with
          | Some ((k, j) :: js) => begin k j js s
          | _ => s
          end
      end
  end.

(** The retired owners no longer wait for the key. *)
Definition forget_retired (k : key) (m : gmap owner (gset key)) : gmap owner (gset key) :=
  omap (λ ks : gset key, if bool_decide (ks ∖ {[k]} = ∅) then None else Some (ks ∖ {[k]})) m.

Definition end_key (k : key) (s : scheduler) : scheduler :=
  release_key_owners_if_idle k
    (set_worker (active_keys s ∖ {[k]}) Waiting false (set_retired (forget_retired k (retired_active_keys s)) s)).

(** The end of a job: its follow-up starts at once, or the key becomes idle. *)
Definition finish_job (k : key) (s : scheduler) : scheduler :=
  match follow_up_job s with
  | Some j =>
      if bool_decide (follow_up_key s = Some k) then set_worker (active_keys s) (Running k j) true (set_follow_up None None s)
      else end_key k s
  | None => end_key k s
  end.

(** ** The scheduler among its threads *)

(** A critical section of some thread. *)
Inductive operation :=
  | Schedule (k : key) (j : job) (o : option owner) (delay : Z) (handing : bool) (now : Z)
  | Handoff (k : key) (retired : owner) (delay now : Z)
  | TryAcquireExclusive (k : key)
  | ReleaseExclusive (k : key)
  | RetireOwner (o : owner) (timeout : Z)
  | Quiesce
  | Stop
  | TakeJob (clock : nat → Z)
  | FinishJob.

(** The worker takes when it waits and finishes when it runs. *)
Definition perform (op : operation) (s : scheduler) : scheduler :=
  match op with
  | Schedule k j o delay handing now => (schedule k j o delay handing now s).1
  | Handoff k retired delay now => (handoff k retired delay now s).1
  | TryAcquireExclusive k => (try_acquire_exclusive k s).1
  | ReleaseExclusive k => release_exclusive k s
  | RetireOwner o timeout => (retire_owner o timeout s).1.1
  | Quiesce => quiesce s
  | Stop => stop s
  | TakeJob clock => match worker s with Waiting => take_job clock s | _ => s end
  | FinishJob => match worker s with Running k _ => finish_job k s | _ => s end
  end.

(** The run that the section starts: a job taken, or the follow-up of the one that ended. *)
Definition starts (op : operation) (s : scheduler) : option (key * job) :=
  let running := match worker (perform op s) with Running k j => Some (k, j) | _ => None end in
  match op, worker s with
  | TakeJob _, Waiting => running
  | FinishJob, Running _ _ => running
  | _, _ => None
  end.
