(* ===== verification/SchedulerProofs.v ===== *)
(** The scheduler over every interleaving of its threads: what is pending and who owns
    it stay consistent, an exclusive key excludes runs, accepted work is kept until it
    runs, and a worker left alone runs everything in order. *)

From S2P Require Import Prelude Scheduler.
From stdpp Require Import options.

#[local] Open Scope Z_scope.

(** ** Reachable states *)

Definition step (s s' : scheduler) : Prop := ∃ op, s' = perform op s.
Definition reachable (s : scheduler) : Prop := ∃ m e, rtc step (new_scheduler m e) s.

(** Waiting to run: in the queue, in the bank, or in the follow-up slot. *)
Definition pending (s : scheduler) (k : key) : Prop :=
  k ∈ (jobs s).*1 ∨ k ∈ (deferred_jobs s).*1 ∨ follow_up_key s = Some k.
Definition working (s : scheduler) (k : key) : Prop := pending s k ∨ k ∈ active_keys s.
Definition busy (s : scheduler) (k : key) : Prop := working s k ∨ k ∈ exclusive_keys s.

Definition owned_by (s : scheduler) (o : owner) : gset key := default ∅ (owned_keys s !! o).
Definition owners_of (s : scheduler) (k : key) : gset owner := default ∅ (key_owners s !! k).
Definition handoffs_of (s : scheduler) (k : key) : list (owner * job) := default [] (handoff_jobs s !! k).

(** ** The invariant *)

(** The queue, the bank, the running key and the operators' keys. *)
Record queues (s : scheduler) : Prop := {
  q_max : (1 ≤ max_pending s)%nat;
  q_queued : ∀ k, k ∈ queued_keys s ↔ k ∈ (jobs s).*1;
  q_jobs_nodup : NoDup (jobs s).*1;
  q_deferred_nodup : NoDup (deferred_jobs s).*1;
  q_apart : ∀ k, k ∈ (jobs s).*1 → k ∉ (deferred_jobs s).*1;
  q_jobs : (length (jobs s) ≤ max_pending s)%nat;
  q_deferred : (length (deferred_jobs s) ≤ max_pending s)%nat;
  q_exclusive : (size (exclusive_keys s) ≤ max_pending s)%nat;
  q_active : ∀ k, k ∈ active_keys s ↔ ∃ j, worker s = Running k j;
  q_follow : ∀ k, follow_up_key s = Some k →
    k ∈ active_keys s ∧ running_follow_up s = false ∧ k ∉ (jobs s).*1 ∧ k ∉ (deferred_jobs s).*1;
  q_slot : is_Some (follow_up_key s) ↔ is_Some (follow_up_job s);
  q_free : ∀ k, k ∈ exclusive_keys s → ¬ pending s k ∧ k ∉ active_keys s }.

(** The tables of owners mirror each other. *)
Record linked (s : scheduler) : Prop := {
  l_inverse : ∀ o k, k ∈ owned_by s o ↔ o ∈ owners_of s k;
  l_owned : ∀ o ks, owned_keys s !! o = Some ks → ks ≠ ∅;
  l_owners : ∀ k os, key_owners s !! k = Some os → os ≠ ∅;
  l_handoffs : ∀ k, NoDup (handoffs_of s k).*1 ∧ ∀ o, o ∈ (handoffs_of s k).*1 → o ∈ owners_of s k }.

(** An owned key waits or runs. *)
Definition covered (s : scheduler) : Prop := ∀ o k, o ∈ owners_of s k → working s k.

Record sound (s : scheduler) : Prop := {
  s_queues : queues s;
  s_linked : linked s;
  s_covered : covered s;
  s_retired : ∀ o ks, retired_active_keys s !! o = Some ks → ks ≠ ∅ ∧ ks ⊆ active_keys s }.

Lemma pending_working s k : pending s k → working s k.
Proof. by left. Qed.
Lemma active_working s k : k ∈ active_keys s → working s k.
Proof. by right. Qed.

Lemma deferred_keys_elem s k : k ∈ deferred_keys s ↔ k ∈ (deferred_jobs s).*1.
Proof. unfold deferred_keys. apply elem_of_list_to_set. Qed.

Lemma outstanding_iff s k : queues s → outstanding s k = true ↔ busy s k.
Proof.
  intros Hq. unfold outstanding, busy, working, pending. rewrite !orb_true_iff, !bool_decide_eq_true, deferred_keys_elem, (q_queued s Hq). tauto.
Qed.

Lemma outstanding_false s k : queues s → outstanding s k = false ↔ ¬ busy s k.
Proof. intros Hq. rewrite <-(outstanding_iff s k Hq). by destruct (outstanding s k). Qed.

Lemma new_sound m e : sound (new_scheduler m e).
Proof.
  split.
  - split; cbn; try lia; try apply NoDup_nil_2; try (by split; intros [? ?]); try (intros k; set_solver).
    rewrite size_empty. lia.
  - split; unfold owned_by, owners_of, handoffs_of; cbn; try (intros ? ?; rewrite !lookup_empty; set_solver).
    intros k. rewrite lookup_empty. split; [apply NoDup_nil_2|set_solver].
  - intros o k Ho. unfold owners_of in Ho. cbn in Ho. rewrite lookup_empty in Ho. set_solver.
  - intros o ks. cbn. by rewrite lookup_empty.
Qed.

(** ** Owners *)

Lemma assoc_set_elem o j l : NoDup l.*1 → ∀ o', o' ∈ (assoc_set o j l).*1 ↔ o' = o ∨ o' ∈ l.*1.
Proof.
  induction l as [|[o1 j1] l IH]; cbn [assoc_set]; intros Hnd o'; [cbn; set_solver|]. cbn [fmap list_fmap fst].
  apply NoDup_cons in Hnd as [H1 H2]. case_bool_decide as E; cbn in *; [subst; set_solver|]. rewrite elem_of_cons, IH by done. set_solver.
Qed.

Lemma assoc_set_nodup o j l : NoDup l.*1 → NoDup (assoc_set o j l).*1.
Proof.
  induction l as [|[o1 j1] l IH]; cbn [assoc_set]; intros Hnd; [apply NoDup_singleton|].
  cbn in Hnd. apply NoDup_cons in Hnd as [H1 H2]. case_bool_decide as E; cbn in *; [subst; by constructor|].
  constructor; [|by apply IH]. rewrite assoc_set_elem by done. set_solver.
Qed.

Lemma track_queues k o j s : queues s → queues (track_owner k o j s).
Proof. intros []. destruct o; [|done]. by split. Qed.

(** Tracking adds one owner to one key. *)
Lemma track_owners k o j s k' : owners_of (track_owner k o j s) k' =
  match o with Some o => if bool_decide (k' = k) then owners_of s k ∪ {[o]} else owners_of s k' | None => owners_of s k' end.
Proof.
  destruct o as [o|]; [|done]. unfold owners_of. cbn. case_bool_decide as E; [subst; by rewrite lookup_insert_eq|by rewrite lookup_insert_ne].
Qed.

Lemma track_owned k o j s o' : owned_by (track_owner k o j s) o' =
  match o with Some o => if bool_decide (o' = o) then owned_by s o ∪ {[k]} else owned_by s o' | None => owned_by s o' end.
Proof.
  destruct o as [o|]; [|done]. unfold owned_by. cbn. case_bool_decide as E; [subst; by rewrite lookup_insert_eq|by rewrite lookup_insert_ne].
Qed.

Lemma track_handoffs k o j s k' : NoDup (handoffs_of s k).*1 →
  (k' ≠ k → handoffs_of (track_owner k o j s) k' = handoffs_of s k') ∧ NoDup (handoffs_of (track_owner k o j s) k).*1 ∧
  ∀ o', o' ∈ (handoffs_of (track_owner k o j s) k).*1 → o = Some o' ∨ o' ∈ (handoffs_of s k).*1.
Proof.
  intros Hnd. destruct o as [o|]; [|split_and!; auto]. destruct j as [j|]; unfold handoffs_of in *; cbn.
  - rewrite lookup_insert_eq. cbn. split; [intros ?; by rewrite lookup_insert_ne|]. split; [by apply assoc_set_nodup|].
    intros o' Ho. apply assoc_set_elem in Ho as [->|Ho]; [by left|by right|done].
  - split_and!; auto.
Qed.

Lemma track_linked k o j s : linked s → linked (track_owner k o j s).
Proof.
  intros [L1 L2 L3 L4]. split.
  - intros o' k'. rewrite track_owned, track_owners. destruct o as [o|]; [|apply L1]. specialize (L1 o' k').
    repeat case_bool_decide; subst; set_solver.
  - destruct o as [o|]; [|done]. cbn. intros o' ks [[-> <-]|[_ H]]%lookup_insert_Some; [set_solver|by eapply L2].
  - destruct o as [o|]; [|done]. cbn. intros k' ks [[-> <-]|[_ H]]%lookup_insert_Some; [set_solver|by eapply L3].
  - intros k'. destruct (L4 k) as [Hn Hin]. destruct (track_handoffs k o j s k' Hn) as (T1 & T2 & T3). rewrite track_owners.
    destruct (decide (k' = k)) as [->|Hne].
    + split; [done|]. intros o' Ho. destruct (T3 o' Ho) as [->|Ho']; [rewrite bool_decide_eq_true_2 by done; set_solver|].
      apply Hin in Ho'. destruct o; [rewrite bool_decide_eq_true_2 by done; set_solver|done].
    + rewrite T1 by done. destruct (L4 k') as [? Hin']. split; [done|]. intros o' Ho. apply Hin' in Ho. destruct o; [|done].
      by rewrite bool_decide_eq_false_2.
Qed.

Lemma track_sound k o j s : sound s → working s k → sound (track_owner k o j s).
Proof.
  intros [Hq Hl Hc Hr] Hb. assert (∀ k', working (track_owner k o j s) k' ↔ working s k') as E by (by destruct o).
  split; [by apply track_queues|by apply track_linked| |by destruct o].
  intros o' k' Ho. apply E. rewrite track_owners in Ho. destruct o as [o|]; [|by eapply Hc]. case_bool_decide; subst; [done|by eapply Hc].
Qed.

(** ** Releasing an idle key *)

(** The owned keys are working, except the given ones. *)
Definition covered_but (X : gset key) (s : scheduler) : Prop := ∀ o k, o ∈ owners_of s k → working s k ∨ k ∈ X.

Lemma disown_lookup os k m o : default ∅ (disown os k m !! o) = (if bool_decide (o ∈ os) then default ∅ (m !! o) ∖ {[k]} else default ∅ (m !! o) : gset key).
Proof.
  unfold disown. rewrite map_lookup_imap. destruct (m !! o) as [ks|]; cbn; [|case_bool_decide; set_solver].
  case_bool_decide; [|done]. case_bool_decide as E; cbn; [by rewrite E|done].
Qed.

(** Only the tables of owners change. *)
Lemma release_same k s : ∃ a b c, release_key_owners_if_idle k s = set_owners a b c s.
Proof.
  unfold release_key_owners_if_idle. destruct (outstanding s k); [|by eexists _, _, _].
  exists (owned_keys s), (key_owners s), (handoff_jobs s). by destruct s.
Qed.

Lemma set_owners_queues a b c s : queues s → queues (set_owners a b c s).
Proof. intros []. by split. Qed.

Lemma release_queues k s : queues s → queues (release_key_owners_if_idle k s).
Proof. destruct (release_same k s) as (a & b & c & ->). apply set_owners_queues. Qed.

Lemma release_working k s k' : working (release_key_owners_if_idle k s) k' ↔ working s k'.
Proof. destruct (release_same k s) as (a & b & c & ->). done. Qed.

Lemma release_linked k s : linked s → linked (release_key_owners_if_idle k s).
Proof.
  unfold release_key_owners_if_idle. destruct (outstanding s k); [done|]. intros [L1 L2 L3 L4]. split; cbn.
  - intros o k'. unfold owned_by, owners_of. cbn. rewrite disown_lookup. change (default ∅ (owned_keys s !! o)) with (owned_by s o).
    fold (owners_of s k). specialize (L1 o k'). destruct (decide (k' = k)) as [->|Hne].
    + rewrite lookup_delete_eq. cbn. case_bool_decide; set_solver.
    + rewrite lookup_delete_ne by done. fold (owners_of s k'). case_bool_decide; set_solver.
  - intros o ks E. unfold disown in E. rewrite map_lookup_imap in E. destruct (owned_keys s !! o) as [ks0|] eqn:E0; [|done]. cbn in E.
    case_bool_decide; [case_bool_decide; [done|by injection E as <-]|injection E as <-; by eapply L2].
  - intros k' os [_ E]%lookup_delete_Some. by eapply L3.
  - intros k'. unfold handoffs_of, owners_of. cbn. destruct (decide (k' = k)) as [->|Hne].
    + rewrite !lookup_delete_eq. cbn. split; [apply NoDup_nil_2|set_solver].
    + rewrite !lookup_delete_ne by done. apply L4.
Qed.

Lemma release_owners k s k' : owners_of (release_key_owners_if_idle k s) k' =
  if outstanding s k then owners_of s k' else if bool_decide (k' = k) then ∅ else owners_of s k'.
Proof.
  unfold release_key_owners_if_idle. destruct (outstanding s k); [done|]. unfold owners_of. cbn.
  case_bool_decide as E; [subst; by rewrite lookup_delete_eq|by rewrite lookup_delete_ne].
Qed.

Lemma release_covered k X s : queues s → k ∉ exclusive_keys s → covered_but (X ∪ {[k]}) s → covered_but X (release_key_owners_if_idle k s).
Proof.
  intros Hq Hx Hc o k' Ho. rewrite release_working. rewrite release_owners in Ho. destruct (outstanding s k) eqn:E.
  - apply outstanding_iff in E as [E|?]; [|done..]. destruct (Hc o k' Ho) as [?|?]; [by left|]. destruct (decide (k' = k)) as [->|]; [by left|right; set_solver].
  - case_bool_decide as E'; [set_solver|]. destruct (Hc o k' Ho); [by left|right; set_solver].
Qed.

(** What is owned stays owned until its key is idle. *)
Lemma release_keeps k s o k' : queues s → linked s → k' ∈ owned_by s o →
  k' ∈ owned_by (release_key_owners_if_idle k s) o ∨ ¬ working s k'.
Proof.
  intros Hq Hl Hk. rewrite (l_inverse _ (release_linked k s Hl)), release_owners. apply (l_inverse s Hl) in Hk.
  destruct (outstanding s k) eqn:E; [by left|]. case_bool_decide; [|by left]. subst. right. apply outstanding_false in E; [|done]. unfold busy in E. tauto.
Qed.

Lemma release_idle_same ks : ∀ s, ∃ a b c, release_idle ks s = set_owners a b c s.
Proof.
  induction ks as [|k ks IH]; intros s; cbn [release_idle].
  - exists (owned_keys s), (key_owners s), (handoff_jobs s). by destruct s.
  - destruct (release_same k s) as (a & b & c & ->). destruct (IH (set_owners a b c s)) as (a' & b' & c' & ->). by exists a', b', c'.
Qed.

Lemma release_idle_sound ks : ∀ s, queues s → linked s → (∀ k, k ∈ ks → k ∉ exclusive_keys s) → covered_but (list_to_set ks) s →
  queues (release_idle ks s) ∧ linked (release_idle ks s) ∧ covered (release_idle ks s).
Proof.
  induction ks as [|k ks IH]; intros s Hq Hl Hx Hc; cbn [release_idle].
  - split_and!; [done|done|]. intros o k Ho. destruct (Hc o k Ho); [done|set_solver].
  - apply IH; [by apply release_queues|by apply release_linked| |].
    { destruct (release_same k s) as (a & b & c & ->). intros k' Hk'. apply Hx. by right. }
    apply release_covered; [done|apply Hx; by left|]. intros o k' Ho. destruct (Hc o k' Ho); [by left|right; set_solver].
Qed.

Lemma release_idle_keeps ks o k : ∀ s, queues s → linked s → k ∈ owned_by s o → k ∈ owned_by (release_idle ks s) o ∨ ¬ working s k.
Proof.
  induction ks as [|k0 ks IH]; intros s Hq Hl Hk; cbn [release_idle]; [by left|].
  destruct (release_keeps k0 s o k Hq Hl Hk) as [Hk'|?]; [|by right].
  destruct (IH _ (release_queues k0 s Hq) (release_linked k0 s Hl) Hk') as [?|Hb]; [by left|right]. by rewrite release_working in Hb.
Qed.

(** ** Scheduling *)

Lemma set_not_before_sound m s : sound s → sound (set_not_before m s).
Proof. intros [[] [] Hc Hr]. split; [by split|by split|exact Hc|exact Hr]. Qed.

(** The slot's key is running, so emptying the slot leaves it working. *)
Lemma empty_slot_working s k : queues s → working (set_follow_up None None s) k ↔ working s k.
Proof.
  intros Hq. unfold working, pending. cbn. pose proof (q_follow s Hq k) as H. split; [intros [[?|[?|?]]|?]; first [done|by auto]|].
  intros [[?|[?|E]]|?]; [by auto|by auto| |by auto]. apply H in E as (? & _). auto.
Qed.

Lemma empty_slot_sound s : sound s → sound (set_follow_up None None s).
Proof.
  intros [Hq [] Hc Hr]. split; [|by split| |exact Hr].
  - destruct Hq as [Q1 Q2 Q3 Q4 Q5 Q6 Q7 Q8 Q9 Q10 Q11 Q12]. split; cbn; try done.
    intros k Hk. destruct (Q12 k Hk) as [Hp ?]. split; [|done]. unfold pending in *. cbn. intros [?|[?|?]]; [tauto|tauto|done].
  - intros o k Ho. apply empty_slot_working; [done|]. by apply (Hc o k).
Qed.

Lemma fill_slot_sound k j s : sound s → k ∈ active_keys s → running_follow_up s = false → ¬ pending s k ∨ follow_up_key s = Some k →
  sound (set_follow_up (Some k) (Some j) s).
Proof.
  intros [Hq [] Hc Hr] Ha Hf Hp. assert (k ∉ (jobs s).*1 ∧ k ∉ (deferred_jobs s).*1) as [Hj Hd].
  { destruct Hp as [Hp|E]; [unfold pending in Hp; tauto|]. by apply (q_follow s Hq). }
  split; [|by split| |exact Hr].
  - destruct Hq as [Q1 Q2 Q3 Q4 Q5 Q6 Q7 Q8 Q9 Q10 Q11 Q12]. split; cbn; try done.
    + by intros k' [= <-].
    + intros k' Hk. destruct (Q12 k' Hk) as [Hp' Ha']. split; [|done]. unfold pending in *. cbn. intros [?|[?|[= <-]]]; tauto.
  - intros o k' Ho. apply Hc in Ho. unfold working, pending in *. cbn. destruct Ho as [[?|[?|E]]|?]; auto.
    right. by apply (q_follow s Hq).
Qed.

Lemma defer_sound k j s : sound s → ¬ pending s k → k ∉ exclusive_keys s → (length (deferred_jobs s) < max_pending s)%nat →
  sound (set_deferred (deferred_jobs s ++ [(k, j)]) s).
Proof.
  intros [Hq [] Hc Hr] Hp Hx Hlen. unfold pending in Hp. split; [|by split| |exact Hr].
  - destruct Hq as [Q1 Q2 Q3 Q4 Q5 Q6 Q7 Q8 Q9 Q10 Q11 Q12]. split; cbn; try done; rewrite ?fmap_app; cbn.
    + apply NoDup_app. split; [done|]. split; [set_solver|apply NoDup_singleton].
    + intros k' Hk'. specialize (Q5 k' Hk'). set_solver.
    + rewrite length_app. cbn. lia.
    + intros k' Hk'. destruct (Q10 k' Hk') as (? & ? & ? & ?). split_and!; [done..|]. set_solver.
    + intros k' Hk. destruct (Q12 k' Hk) as [Hp' Ha']. split; [|done]. unfold pending in *. cbn. rewrite fmap_app. cbn. set_solver.
  - intros o k' Ho. apply Hc in Ho. unfold working, pending in *. cbn. rewrite fmap_app. cbn. set_solver.
Qed.

Lemma enqueue_sound k j s : sound s → ¬ pending s k → k ∉ exclusive_keys s → (length (jobs s) < max_pending s)%nat →
  sound (set_jobs (jobs s ++ [(k, j)]) (queued_keys s ∪ {[k]}) s).
Proof.
  intros [Hq [] Hc Hr] Hp Hx Hlen. unfold pending in Hp. split; [|by split| |exact Hr].
  - destruct Hq as [Q1 Q2 Q3 Q4 Q5 Q6 Q7 Q8 Q9 Q10 Q11 Q12]. split; cbn; try done; rewrite ?fmap_app; cbn.
    + intros k'. rewrite elem_of_union, elem_of_app, Q2. set_solver.
    + apply NoDup_app. split; [done|]. split; [set_solver|apply NoDup_singleton].
    + intros k' Hk'. specialize (Q5 k'). set_solver.
    + rewrite length_app. cbn. lia.
    + intros k' Hk'. destruct (Q10 k' Hk') as (? & ? & ? & ?). split_and!; [done..| |done]. set_solver.
    + intros k' Hk. destruct (Q12 k' Hk) as [Hp' Ha']. split; [|done]. unfold pending in *. cbn. rewrite fmap_app. cbn. set_solver.
  - intros o k' Ho. apply Hc in Ho. unfold working, pending in *. cbn. rewrite fmap_app. cbn. set_solver.
Qed.

Lemma start_worker_sound s : sound s → sound (start_worker s).
Proof.
  intros Hs. unfold start_worker. destruct (worker s) eqn:E; [|done..]. destruct Hs as [Hq [] Hc Hr]. split; [|by split|exact Hc|exact Hr].
  destruct Hq as [Q1 Q2 Q3 Q4 Q5 Q6 Q7 Q8 Q9 Q10 Q11 Q12]. split; cbn; try done. intros k. rewrite Q9, E. split; by intros [? ?].
Qed.

(** The delayed part of a request: it may empty the slot, nothing else. *)
Definition delayed (k : key) (delay now : Z) (s : scheduler) : scheduler :=
  if bool_decide (0 < delay) then
    let s := set_not_before (<[k := now + delay]> (not_before s)) s in
    if bool_decide (follow_up_key s = Some k) then set_follow_up None None s else s
  else s.

Lemma delayed_sound k delay now s : sound s → sound (delayed k delay now s).
Proof.
  intros Hs. unfold delayed. case_bool_decide; [|done]. cbn. case_bool_decide; [apply empty_slot_sound|]; by apply set_not_before_sound.
Qed.

Lemma delayed_same k delay now s : let s' := delayed k delay now s in
  jobs s' = jobs s ∧ deferred_jobs s' = deferred_jobs s ∧ active_keys s' = active_keys s ∧ exclusive_keys s' = exclusive_keys s ∧
  running_follow_up s' = running_follow_up s ∧ max_pending s' = max_pending s ∧ worker s' = worker s ∧ closed s' = closed s ∧
  owned_keys s' = owned_keys s ∧
  (follow_up_key s' = follow_up_key s ∧ (0 < delay → follow_up_key s ≠ Some k) ∨ follow_up_key s = Some k ∧ follow_up_key s' = None ∧ 0 < delay).
Proof.
  cbn. unfold delayed. case_bool_decide; cbn; [case_bool_decide; cbn|]; split_and!; auto.
Qed.

Lemma schedule_sound k j o delay handing now s : sound s → sound (schedule k j o delay handing now s).1.
Proof.
  intros Hs. unfold schedule. cbn zeta. destruct (closed s); [done|]. case_bool_decide as Hx; [done|].
  destruct (bool_decide _ || bool_decide _) eqn:Hp; cbn [fst].
  { assert (pending s k) as Hpend.
    { apply orb_true_iff in Hp as [H%bool_decide_eq_true|H%bool_decide_eq_true]; [left; by apply (q_queued _ (s_queues _ Hs))|].
      right. left. by apply deferred_keys_elem. }
    clear Hp. apply track_sound; [case_bool_decide; [by apply set_not_before_sound|done]|].
    apply pending_working. by case_bool_decide. }
  apply orb_false_iff in Hp as [Hj%bool_decide_eq_false Hd%bool_decide_eq_false].
  rewrite (q_queued _ (s_queues _ Hs)) in Hj. rewrite deferred_keys_elem in Hd.
  fold (delayed k delay now s). pose proof (delayed_sound k delay now s Hs) as Hs1. pose proof (delayed_same k delay now s) as D. cbn in D.
  set (s1 := delayed k delay now s) in *. clearbody s1. destruct D as (E1 & E2 & E3 & E4 & E5 & E6 & _ & _ & _ & E7). rewrite <-E4 in Hx. rewrite <-E1 in Hj. rewrite <-E2 in Hd.
  destruct (bool_decide (k ∈ active_keys s1) && _ && _) eqn:Ha; cbn [fst].
  - apply andb_true_iff in Ha as [[Ha%bool_decide_eq_true Hf%negb_true_iff]%andb_true_iff _].
    apply track_sound; [|by apply active_working]. apply fill_slot_sound; [done|done|done|]. unfold pending.
    destruct (decide (follow_up_key s1 = Some k)); [by right|left; tauto].
  - assert (¬ pending s1 k) as Hnp.
    { unfold pending. intros [?|[?|E]]; [done..|]. destruct (q_follow _ (s_queues _ Hs1) k E) as (Hact & Hrun & _).
      destruct E7 as [[E7 Hd0]|(_ & E7 & _)]; [|congruence]. rewrite Hrun, bool_decide_eq_true_2 in Ha by done. cbn in Ha.
      apply bool_decide_eq_false in Ha. apply Hd0; [lia|congruence]. }
    clear Ha. case_bool_decide as Hlen; cbn [fst].
    + destruct (embedding s1 && _) eqn:He; cbn [fst]; [|by apply set_not_before_sound].
      apply andb_true_iff in He as [_ He%bool_decide_eq_true]. apply track_sound; [by apply defer_sound|].
      apply pending_working. right. left. cbn. rewrite fmap_app. cbn. set_solver.
    + assert (jobs (start_worker s1) = jobs s1 ∧ queued_keys (start_worker s1) = queued_keys s1) as [-> ->] by (unfold start_worker; by destruct (worker s1)).
      apply track_sound; [|apply pending_working; left; cbn; rewrite fmap_app; cbn; set_solver].
      replace (jobs s1) with (jobs (start_worker s1)) by (unfold start_worker; by destruct (worker s1)).
      replace (queued_keys s1) with (queued_keys (start_worker s1)) by (unfold start_worker; by destruct (worker s1)).
      apply enqueue_sound; [by apply start_worker_sound| | |]; unfold start_worker, pending in *; destruct (worker s1); cbn; try done; lia.
Qed.

Lemma handoff_sound k retired delay now s : sound s → sound (handoff k retired delay now s).1.
Proof. intros Hs. unfold handoff. destruct (find_first _ _) as [[o j]|]; [by apply schedule_sound|done]. Qed.

(** ** Exclusive keys *)

Lemma try_acquire_sound k s : sound s → sound (try_acquire_exclusive k s).1.
Proof.
  intros [Hq [] Hc Hr]. unfold try_acquire_exclusive. destruct (outstanding s k) eqn:E; [by split|]. case_bool_decide as Hn; cbn [fst]; [by split|].
  apply outstanding_false in E; [|done]. split; [|by split| |exact Hr].
  - destruct Hq as [Q1 Q2 Q3 Q4 Q5 Q6 Q7 Q8 Q9 Q10 Q11 Q12]. split; cbn; try done.
    + rewrite size_union_alt, difference_disjoint, size_singleton; [lia|]. unfold busy in E. set_solver.
    + intros k' [Hk| ->%elem_of_singleton]%elem_of_union; [by apply Q12|]. unfold busy, working in E. change (¬ pending s k ∧ k ∉ active_keys s). tauto.
  - intros o k' Ho. by apply (Hc o k').
Qed.

(** An exclusive key has no owner, so nothing is left behind. *)
Lemma release_exclusive_sound k s : sound s → sound (release_exclusive k s).
Proof.
  intros [Hq [] Hc Hr]. split; [|by split| |exact Hr].
  - destruct Hq as [Q1 Q2 Q3 Q4 Q5 Q6 Q7 Q8 Q9 Q10 Q11 Q12]. split; cbn; try done.
    + etransitivity; [apply subseteq_size; apply subseteq_difference_l; reflexivity|done].
    + intros k' [Hk _]%elem_of_difference. by apply Q12.
  - intros o k' Ho. by apply (Hc o k').
Qed.

(** ** Retirement *)

Lemma without_keys k l : (without k l).*1 = filter (λ k', k' ≠ k) l.*1.
Proof.
  unfold without. induction l as [|[k1 j1] l IH]; [done|]. rewrite filter_cons. cbn [fmap list_fmap fst]. rewrite filter_cons. cbn [fst].
  case_decide; cbn; by rewrite IH.
Qed.

Lemma without_absent k l : k ∉ l.*1 → without k l = l.
Proof.
  unfold without. induction l as [|[k1 j1] l IH]; [done|]. intros [H1 H2]%not_elem_of_cons. rewrite filter_cons, decide_True by (cbn; intros ->; by apply H1). f_equal. by apply IH.
Qed.

Lemma without_elem k l k' : k' ∈ (without k l).*1 ↔ k' ∈ l.*1 ∧ k' ≠ k.
Proof. rewrite without_keys, list_elem_of_filter. tauto. Qed.

Lemma without_length k l : (length (without k l) ≤ length l)%nat.
Proof. apply length_filter. Qed.

Lemma replace_keys k j l : (replace_job k j l).*1 = l.*1.
Proof.
  unfold replace_job. rewrite <-list_fmap_compose. apply list_fmap_ext. intros i [k1 j1] _. cbn. by case_bool_decide.
Qed.

Lemma replace_length k j l : length (replace_job k j l) = length l.
Proof. apply length_fmap. Qed.

(** The fields a retired key leaves alone. *)
Record kept_by_retire (s s' : scheduler) : Prop := {
  k_max : max_pending s' = max_pending s; k_embedding : embedding s' = embedding s; k_active : active_keys s' = active_keys s;
  k_exclusive : exclusive_keys s' = exclusive_keys s; k_owned : owned_keys s' = owned_keys s; k_retired : retired_active_keys s' = retired_active_keys s;
  k_worker : worker s' = worker s; k_running : running_follow_up s' = running_follow_up s; k_closed : closed s' = closed s; k_stopped : stopped s' = stopped s }.

Lemma retire_key_kept o k s : kept_by_retire s (retire_key o k s).
Proof.
  unfold retire_key. cbn zeta. case_bool_decide.
  - repeat case_bool_decide; by split.
  - destruct (filter _ _) as [|[o1 j1] l]; [by split|]. repeat case_bool_decide; by split.
Qed.

(** What the retirement does to the places of a key, when its owners are gone and when not. *)
Lemma retire_key_places o k s : queues s → let s' := retire_key o k s in
  if bool_decide (owners_of s k ∖ {[o]} = ∅) then
    jobs s' = without k (jobs s) ∧ queued_keys s' = queued_keys s ∖ {[k]} ∧ deferred_jobs s' = without k (deferred_jobs s) ∧
    follow_up_key s' = (if bool_decide (follow_up_key s = Some k) then None else follow_up_key s) ∧
    (is_Some (follow_up_key s') ↔ is_Some (follow_up_job s'))
  else (jobs s').*1 = (jobs s).*1 ∧ queued_keys s' = queued_keys s ∧ (deferred_jobs s').*1 = (deferred_jobs s).*1 ∧
    follow_up_key s' = follow_up_key s ∧ (is_Some (follow_up_key s') ↔ is_Some (follow_up_job s')).
Proof.
  intros Hq. pose proof (q_slot s Hq) as Hslot. cbn zeta. unfold retire_key. cbn zeta. fold (owners_of s k). case_bool_decide as E.
  - assert (bool_decide (k ∈ queued_keys s) = false → jobs s = without k (jobs s) ∧ queued_keys s = queued_keys s ∖ {[k]}) as Hno.
    { intros Hk%bool_decide_eq_false. split; [|set_solver]. rewrite (q_queued s Hq) in Hk. by rewrite without_absent. }
    cbn [queued_keys set_not_before set_deferred set_owners].
    destruct (bool_decide (k ∈ queued_keys s)) eqn:Ek; cbn [follow_up_key set_jobs set_not_before set_deferred set_owners].
    + destruct (bool_decide (follow_up_key s = Some k)); cbn; split_and!; done.
    + destruct (Hno eq_refl) as [H1 H2]. destruct (bool_decide (follow_up_key s = Some k)); cbn; split_and!; done.
  - destruct (filter _ _) as [|[o1 j1] l]; cbn [follow_up_key set_jobs set_deferred set_owners]; [by split_and!|].
    destruct (bool_decide (follow_up_key s = Some k)) eqn:Ef; cbn -[replace_job]; rewrite ?replace_keys; split_and!; try done.
    apply bool_decide_eq_true in Ef. congruence.
Qed.

Lemma retire_key_queues o k s : queues s → queues (retire_key o k s).
Proof.
  intros Hq. pose proof (retire_key_places o k s Hq) as P. pose proof (retire_key_kept o k s) as K. cbn zeta in P.
  set (s' := retire_key o k s) in *. clearbody s'. destruct K as [K1 _ K3 K4 _ _ K7 K8 _ _].
  assert (NoDup (jobs s').*1 ∧ NoDup (deferred_jobs s').*1 ∧ (length (jobs s') ≤ length (jobs s))%nat ∧
    (length (deferred_jobs s') ≤ length (deferred_jobs s))%nat ∧ (∀ k', k' ∈ queued_keys s' ↔ k' ∈ (jobs s').*1) ∧
    (∀ k', k' ∈ (jobs s').*1 → k' ∈ (jobs s).*1) ∧ (∀ k', k' ∈ (deferred_jobs s').*1 → k' ∈ (deferred_jobs s).*1) ∧
    (∀ k', follow_up_key s' = Some k' → follow_up_key s = Some k') ∧ (is_Some (follow_up_key s') ↔ is_Some (follow_up_job s')))
    as (F1 & F2 & F3 & F4 & F5 & F6 & F7 & F8 & F9).
  { destruct Hq as [Q1 Q2 Q3 Q4 Q5 Q6 Q7 Q8 Q9 Q10 Q11 Q12]. case_bool_decide as E.
    - destruct P as (-> & P2 & -> & P4 & P5). rewrite P2. setoid_rewrite without_elem. rewrite !without_keys. split_and!; try done.
      + by apply NoDup_filter. + by apply NoDup_filter. + apply without_length. + apply without_length.
      + intros k'. rewrite elem_of_difference, Q2. set_solver.
      + tauto. + tauto.
      + intros k'. rewrite P4. by case_bool_decide.
    - destruct P as (P1 & P2 & P3 & P4 & P5). rewrite P1, P2, P3, P4. split_and!; try done.
      + rewrite <-(length_fmap fst (jobs s')), P1, length_fmap. lia.
      + rewrite <-(length_fmap fst (deferred_jobs s')), P3, length_fmap. lia.
      + by rewrite <-P4. }
  destruct Hq as [Q1 Q2 Q3 Q4 Q5 Q6 Q7 Q8 Q9 Q10 Q11 Q12]. split; rewrite ?K1, ?K3, ?K4, ?K7; try done; try lia.
  - intros k' H1 H2. apply (Q5 k'); auto.
  - intros k' Hf. destruct (Q10 k' (F8 k' Hf)) as (? & ? & ? & ?). rewrite K8. split_and!; auto.
  - intros k' Hx. destruct (Q12 k' Hx) as [Hp ?]. split; [|done]. unfold pending in *. intros [?|[?|?]]; apply Hp; auto.
Qed.

Lemma retire_key_owners o k s k' : owners_of (retire_key o k s) k' = if bool_decide (k' = k) then owners_of s k ∖ {[o]} else owners_of s k'.
Proof.
  unfold retire_key. cbn zeta. fold (owners_of s k). case_bool_decide as E.
  - assert (∀ s', key_owners s' = delete k (key_owners s) → owners_of s' k' = if bool_decide (k' = k) then owners_of s k ∖ {[o]} else owners_of s k') as H.
    { intros s' Es. unfold owners_of at 1. rewrite Es. case_bool_decide as Ek; [subst; rewrite lookup_delete_eq; by rewrite E|by rewrite lookup_delete_ne]. }
    apply H. repeat case_bool_decide; done.
  - assert (∀ s', key_owners s' = <[k := owners_of s k ∖ {[o]}]> (key_owners s) → owners_of s' k' = if bool_decide (k' = k) then owners_of s k ∖ {[o]} else owners_of s k') as H.
    { intros s' Es. unfold owners_of at 1. rewrite Es. case_bool_decide as Ek; [subst; by rewrite lookup_insert_eq|by rewrite lookup_insert_ne]. }
    apply H. destruct (filter _ _) as [|[o1 j1] l]; [done|]. repeat case_bool_decide; done.
Qed.

Lemma retire_key_handoffs o k s k' : handoffs_of (retire_key o k s) k' =
  if bool_decide (k' = k) then (if bool_decide (owners_of s k ∖ {[o]} = ∅) then [] else filter (λ x : owner * job, x.1 ≠ o) (handoffs_of s k))
  else handoffs_of s k'.
Proof.
  unfold retire_key. cbn zeta. fold (owners_of s k) (handoffs_of s k). destruct (bool_decide (owners_of s k ∖ {[o]} = ∅)) eqn:E.
  - assert (∀ s', handoff_jobs s' = delete k (handoff_jobs s) → handoffs_of s' k' = if bool_decide (k' = k) then [] else handoffs_of s k') as H.
    { intros s' Es. unfold handoffs_of at 1. rewrite Es. destruct (bool_decide_reflect (k' = k)) as [Ek|Ek]; [subst; by rewrite lookup_delete_eq|by rewrite lookup_delete_ne]. }
    apply H. clear E. repeat case_bool_decide; done.
  - set (l := filter _ (handoffs_of s k)).
    assert (∀ s', handoff_jobs s' = match handoff_jobs s !! k with Some _ => <[k := l]> (handoff_jobs s) | None => handoff_jobs s end →
      handoffs_of s' k' = if bool_decide (k' = k) then l else handoffs_of s k') as H.
    { intros s' Es. unfold handoffs_of at 1. rewrite Es. destruct (bool_decide_reflect (k' = k)) as [Ek|Ek].
      - subst k'. unfold l, handoffs_of. destruct (handoff_jobs s !! k) eqn:Eh; [by rewrite lookup_insert_eq|by rewrite Eh].
      - destruct (handoff_jobs s !! k) eqn:Eh; [by rewrite lookup_insert_ne|done]. }
    apply H. destruct l as [|[o1 j1] l']; [done|]. clear E. repeat case_bool_decide; done.
Qed.

(** A key keeps its places unless it is the retired one, left without owners. *)
Lemma retire_key_pending o k s k' : queues s →
  pending (retire_key o k s) k' ↔ pending s k' ∧ (k' = k → owners_of s k ∖ {[o]} ≠ ∅).
Proof.
  intros Hq. pose proof (retire_key_places o k s Hq) as P. cbn zeta in P. unfold pending. case_bool_decide as E.
  - destruct P as (-> & _ & -> & -> & _). rewrite !without_elem. case_bool_decide as Ef; destruct (decide (k' = k)) as [->|Hne].
    + split; [intros [[_ ?]|[[_ ?]|?]]; [done..|congruence]|intros [_ H]; by destruct H].
    + split; [intros [[? _]|[[? _]|?]]; [by split; [auto|]..|congruence]|]. intros [[?|[?|Hf]] _]; [by left|by right; left|congruence].
    + split; [intros [[_ ?]|[[_ ?]|?]]; done|intros [_ H]; by destruct H].
    + tauto.
  - destruct P as (-> & _ & -> & -> & _). tauto.
Qed.

(** Halfway through a retirement: the owner is gone from its own table, and left in the
    owners of the remaining keys only. *)
Record retiring (o : owner) (ks : list key) (s : scheduler) : Prop := {
  r_queues : queues s;
  r_inverse : ∀ o' k, k ∈ owned_by s o' ↔ o' ∈ owners_of s k ∧ o' ≠ o;
  r_left : ∀ k, o ∈ owners_of s k → k ∈ ks;
  r_owned : ∀ o ks, owned_keys s !! o = Some ks → ks ≠ ∅;
  r_owners : ∀ k os, key_owners s !! k = Some os → os ≠ ∅;
  r_handoffs : ∀ k, NoDup (handoffs_of s k).*1 ∧ ∀ o, o ∈ (handoffs_of s k).*1 → o ∈ owners_of s k;
  r_covered : covered s }.

Lemma filter_owners_elem (o o' : owner) (l : list (owner * job)) :
  o' ∈ (filter (λ x : owner * job, x.1 ≠ o) l).*1 ↔ o' ∈ l.*1 ∧ o' ≠ o.
Proof.
  rewrite !list_elem_of_fmap. setoid_rewrite list_elem_of_filter. split.
  - intros ([o1 j1] & -> & H & Hin). split; [by exists (o1, j1)|done].
  - intros [([o1 j1] & -> & Hin) H]. by exists (o1, j1).
Qed.

Lemma filter_owners_nodup (o : owner) (l : list (owner * job)) : NoDup l.*1 → NoDup (filter (λ x : owner * job, x.1 ≠ o) l).*1.
Proof.
  induction l as [|[o1 j1] l IH]; [done|]. cbn [fmap list_fmap fst]. intros [H1 H2]%NoDup_cons. rewrite filter_cons.
  case_decide; [|by apply IH]. cbn. constructor; [|by apply IH]. rewrite filter_owners_elem. tauto.
Qed.

Lemma key_owners_some s k os : (∀ k os, key_owners s !! k = Some os → os ≠ ∅) → key_owners s !! k = Some os → owners_of s k = os ∧ os ≠ ∅.
Proof. intros H E. split; [unfold owners_of; by rewrite E|by eapply H]. Qed.

Lemma retire_key_some o k s k' os : key_owners (retire_key o k s) !! k' = Some os →
  key_owners s !! k' = Some os ∨ os = owners_of s k ∖ {[o]} ∧ os ≠ ∅.
Proof.
  unfold retire_key. cbn zeta. fold (owners_of s k). case_bool_decide as E.
  - assert (∀ s', key_owners s' = delete k (key_owners s) → key_owners s' !! k' = Some os → key_owners s !! k' = Some os ∨ os = owners_of s k ∖ {[o]} ∧ os ≠ ∅) as H.
    { intros s' -> [_ ?]%lookup_delete_Some. by left. }
    apply H. repeat case_bool_decide; done.
  - assert (∀ s', key_owners s' = <[k := owners_of s k ∖ {[o]}]> (key_owners s) → key_owners s' !! k' = Some os → key_owners s !! k' = Some os ∨ os = owners_of s k ∖ {[o]} ∧ os ≠ ∅) as H.
    { intros s' -> [[-> <-]|[_ ?]]%lookup_insert_Some; [by right|by left]. }
    apply H. destruct (filter _ _) as [|[o1 j1] l]; [done|]. repeat case_bool_decide; done.
Qed.

Lemma retire_key_step o k ks s : retiring o (k :: ks) s → retiring o ks (retire_key o k s).
Proof.
  intros [Hq Hi Hl Ho Hw Hh Hc]. pose proof (retire_key_kept o k s) as K. split.
  - by apply retire_key_queues.
  - intros o' k'. unfold owned_by. rewrite (k_owned _ _ K). fold (owned_by s o'). rewrite retire_key_owners, Hi.
    case_bool_decide as E; [subst; set_solver|done].
  - intros k'. rewrite retire_key_owners. case_bool_decide as E; [set_solver|]. intros Hk%Hl. set_solver.
  - intros o' ks'. rewrite (k_owned _ _ K). apply Ho.
  - intros k' os E. destruct (retire_key_some _ _ _ _ _ E) as [?|[_ ?]]; [by eapply Hw|done].
  - intros k'. rewrite retire_key_handoffs, retire_key_owners. destruct (Hh k') as [Hn Hin]. destruct (decide (k' = k)) as [->|Hne].
    + rewrite !(bool_decide_eq_true_2 (k = k)) by done. case_bool_decide as E; [split; [apply NoDup_nil_2|set_solver]|].
      split; [by apply filter_owners_nodup|]. intros o' [Ho' Hne]%filter_owners_elem. apply Hin in Ho'. set_solver.
    + by rewrite !(bool_decide_eq_false_2 (k' = k)).
  - intros o' k' Ho'. rewrite retire_key_owners in Ho'. unfold working. rewrite retire_key_pending by done. rewrite (k_active _ _ K).
    assert (o' ∈ owners_of s k') as Ho0 by (case_bool_decide; subst; set_solver). destruct (Hc o' k' Ho0) as [Hp|?]; [|by right].
    left. split; [done|]. intros ->. rewrite bool_decide_eq_true_2 in Ho' by done. set_solver.
Qed.

Lemma retire_keys_done o ks : ∀ s, retiring o ks s → retiring o [] (retire_keys o ks s).
Proof. induction ks as [|k ks IH]; intros s Hs; cbn [retire_keys]; [done|]. by apply IH, retire_key_step. Qed.

Lemma retire_keys_kept o ks : ∀ s, kept_by_retire s (retire_keys o ks s).
Proof.
  induction ks as [|k ks IH]; intros s; cbn [retire_keys]; [by split|]. destruct (retire_key_kept o k s), (IH (retire_key o k s)).
  split; congruence.
Qed.

(** The state in which a retirement goes through its keys. *)
Definition retire_start (o : owner) (s : scheduler) : scheduler := set_owners (delete o (owned_keys s)) (key_owners s) (handoff_jobs s) s.

Lemma retire_start_retiring o s : sound s → retiring o (elements (owned_by s o)) (retire_start o s).
Proof.
  intros [Hq [L1 L2 L3 L4] Hc _]. split; [by apply set_owners_queues| | | |exact L3|exact L4|exact Hc].
  - intros o' k. change (owners_of (retire_start o s) k) with (owners_of s k). unfold owned_by. cbn. destruct (decide (o' = o)) as [->|Hne].
    + rewrite lookup_delete_eq. set_solver.
    + rewrite lookup_delete_ne by done. fold (owned_by s o'). rewrite L1. tauto.
  - intros k Hk. apply elem_of_elements, L1. exact Hk.
  - intros o' ks E. cbn in E. apply lookup_delete_Some in E as [_ E]. by eapply L2.
Qed.

(** The state after the keys: what the rest of the retirement starts from. *)
Definition retire_all (o : owner) (s : scheduler) : scheduler := retire_keys o (elements (owned_by s o)) (retire_start o s).

Lemma retire_all_sound o s : sound s → sound (retire_all o s).
Proof.
  intros Hs. pose proof (retire_keys_done o _ _ (retire_start_retiring o s Hs)) as [Hq Hi Hl Ho Hw Hh Hc]. fold (retire_all o s) in *.
  pose proof (retire_keys_kept o (elements (owned_by s o)) (retire_start o s)) as K. fold (retire_all o s) in K. split; [done| |exact Hc|].
  - split; [|exact Ho|exact Hw|exact Hh]. intros o' k. rewrite Hi. split; [tauto|]. intros Hk. split; [done|]. intros ->.
    apply Hl in Hk. by apply not_elem_of_nil in Hk.
  - rewrite (k_retired _ _ K), (k_active _ _ K). apply Hs.
Qed.

Lemma set_retired_sound m s : sound s → (∀ o ks, m !! o = Some ks → ks ≠ ∅ ∧ ks ⊆ active_keys s) → sound (set_retired m s).
Proof. intros [[] [] Hc Hr] Hm. split; [by split|by split|exact Hc|exact Hm]. Qed.

Lemma retire_owner_sound o timeout s : sound s → sound (retire_owner o timeout s).1.1.
Proof.
  intros Hs. unfold retire_owner. cbn zeta. fold (owned_by s o). fold (retire_start o s). fold (retire_all o s).
  pose proof (retire_all_sound o s Hs) as Hs'. pose proof (s_retired _ Hs') as Hr. set (s' := retire_all o s) in *. clearbody s'.
  assert (sound (set_retired (delete o (retired_active_keys s')) s')) as Hs1.
  { apply set_retired_sound; [done|]. intros o' ks [_ E]%lookup_delete_Some. by eapply Hr. }
  case_bool_decide; [|done]. case_bool_decide as E; [done|]. cbn [fst]. apply set_retired_sound; [done|].
  intros o' ks [[_ <-]|[_ E']]%lookup_insert_Some; [split; [done|]; cbn; set_solver|]. apply (s_retired _ Hs1 o'). exact E'.
Qed.

(** ** Shutdown *)

(** The state before the keys are released. *)
Definition cleared (s : scheduler) : scheduler :=
  set_follow_up None None (set_jobs [] ∅ (set_not_before ∅ (set_deferred [] (set_closed true (stopped s) s)))).
Definition pending_keys (s : scheduler) : gset key := queued_keys s ∪ deferred_keys s ∪ follow_up_set s.

Lemma pending_keys_elem s k : queues s → k ∈ pending_keys s ↔ pending s k.
Proof.
  intros Hq. unfold pending_keys, pending, follow_up_set. rewrite !elem_of_union, (q_queued s Hq), deferred_keys_elem.
  destruct (follow_up_key s); [rewrite elem_of_singleton; naive_solver|]. split; [set_solver|naive_solver].
Qed.

Lemma cleared_pending s k : ¬ pending (cleared s) k.
Proof. unfold pending. cbn. intros [?|[?|?]]; [set_solver..|done]. Qed.

Lemma cleared_queues s : queues s → queues (cleared s).
Proof.
  intros [Q1 Q2 Q3 Q4 Q5 Q6 Q7 Q8 Q9 Q10 Q11 Q12].
  split; [done|intros k; cbn; set_solver|apply NoDup_nil_2|apply NoDup_nil_2|by intros k ?%not_elem_of_nil|cbn; lia|cbn; lia|done|done|done| |].
  - split; by intros [? ?].
  - intros k Hk. destruct (Q12 k Hk) as [_ ?]. split; [apply cleared_pending|done].
Qed.

Lemma quiesce_sound s : sound s → sound (quiesce s).
Proof.
  intros [Hq [] Hc Hr]. unfold quiesce. cbn zeta. fold (pending_keys s). fold (cleared s).
  destruct (release_idle_sound (elements (pending_keys s)) (cleared s)) as (H1 & H2 & H3).
  - by apply cleared_queues.
  - by split.
  - intros k Hk%elem_of_elements. rewrite pending_keys_elem in Hk by done. intros Hx. by apply (q_free s Hq) in Hx as [? _].
  - intros o k Ho. rewrite elem_of_list_to_set, elem_of_elements, pending_keys_elem by done. destruct (Hc o k Ho) as [?|?]; [by right|left; by right].
  - destruct (release_idle_same (elements (pending_keys s)) (cleared s)) as (a & b & c & E). rewrite E in *. by split.
Qed.

Lemma stop_sound s : sound s → sound (stop s).
Proof. intros [[] [] Hc Hr]. unfold stop. destruct (embedding s); [|by split; [split|split|exact Hc|exact Hr]]. split; [by split|by split|exact Hc|exact Hr]. Qed.

(** ** The worker *)

(** The result is a rotation of the queue, with a due key at its head. *)
Lemma rotate_spec fuel : ∀ clock n s js r, rotate fuel clock n s js = Some r →
  r ≡ₚ js ∧ ∃ k j l m, r = (k, j) :: l ∧ held clock m s k = false.
Proof.
  induction fuel as [|fuel IH]; intros clock n s js r; cbn [rotate]; [done|]. destruct js as [|[k j] js]; [done|].
  destruct (held clock n s k) eqn:E; [|intros [= <-]; split; [done|by exists k, j, js, n]].
  intros H. apply IH in H as [Hp Hd]. split; [|done]. rewrite Hp. by rewrite Permutation_app_comm.
Qed.

(** While the clock does not go back, a queue with a due key at hand is rotated in at
    most as many rounds as the key is deep. *)
Lemma rotate_returns clock s : (∀ m n, (m ≤ n)%nat → clock m <= clock n) → ∀ a fuel n m k j b,
  held clock m s k = false → (m ≤ n)%nat → (length a < fuel)%nat → is_Some (rotate fuel clock n s (a ++ (k, j) :: b)).
Proof.
  intros Hc. induction a as [|[k0 j0] a IH]; intros fuel n m k j b Hd Hm Hf; (destruct fuel as [|fuel]; [cbn in Hf; lia|]); cbn [rotate app].
  - assert (held clock n s k = false) as ->.
    { unfold held in *. apply bool_decide_eq_false in Hd. apply bool_decide_eq_false. specialize (Hc m n Hm). lia. }
    by eexists.
  - destruct (held clock n s k0); [|by eexists]. rewrite <-app_assoc. cbn [app]. apply (IH fuel (S n) m); [done|lia|cbn in Hf; lia].
Qed.

Lemma first_due_spec clock s : ∀ js n r, first_due clock n s js = Some r →
  ∃ a k j b m, js = a ++ (k, j) :: b ∧ held clock m s k = false ∧ (m < r)%nat.
Proof.
  induction js as [|[k j] js IH]; intros n r; cbn [first_due]; [done|]. destruct (held clock n s k) eqn:E.
  - intros H. apply IH in H as (a & k' & j' & b & m & -> & Hd & Hm). by exists ((k, j) :: a), k', j', b, m.
  - intros [= <-]. exists [], k, j, js, n. split_and!; [done|done|lia].
Qed.

Lemma first_due_none clock s : ∀ js n, first_due clock n s js = None → ∀ k, k ∈ js.*1 → ∃ m, held clock m s k = true.
Proof.
  induction js as [|[k j] js IH]; intros n; cbn [first_due]; [intros _ k Hk; by apply not_elem_of_nil in Hk|].
  destruct (held clock n s k) eqn:E; [|done]. intros H k'. cbn. intros [->|Hk]%elem_of_cons; [by exists n|by eapply IH].
Qed.

Lemma promote_sound s : sound s → (length (jobs s) < max_pending s)%nat → sound (promote s).
Proof.
  intros [Hq [] Hc Hr] Hlen. unfold promote. destruct (deferred_jobs s) as [|[k j] ds] eqn:Ed; [by split|]. split; [|by split| |exact Hr].
  - destruct Hq as [Q1 Q2 Q3 Q4 Q5 Q6 Q7 Q8 Q9 Q10 Q11 Q12]. rewrite Ed in *. cbn in Q4, Q5, Q7. apply NoDup_cons in Q4 as [Q4 Q4'].
    split; cbn; rewrite ?fmap_app; cbn; try done.
    + intros k'. rewrite elem_of_union, elem_of_app, Q2. set_solver.
    + apply NoDup_app. split; [done|]. split; [|apply NoDup_singleton]. intros k' H1 ->%list_elem_of_singleton. by apply (Q5 k H1); left.
    + intros k' [H1| ->%list_elem_of_singleton]%elem_of_app; [|done]. intros H2. by apply (Q5 k' H1); right.
    + rewrite length_app. cbn. lia.
    + lia.
    + intros k' Hk'. destruct (Q10 k' Hk') as (? & ? & ? & Hd). cbn in Hd. split_and!; [done..| |]; set_solver.
    + intros k' Hk. destruct (Q12 k' Hk) as [Hp Ha]. split; [|done]. unfold pending in *. cbn. rewrite fmap_app. cbn. rewrite Ed in Hp. set_solver.
  - intros o k' Ho. apply Hc in Ho. unfold working, pending in *. cbn. rewrite fmap_app. cbn. rewrite Ed in Ho. set_solver.
Qed.

(** The job leaves the queue and runs, before the bank is looked at. *)
Definition start_job (k : key) (j : job) (js : list (key * job)) (s : scheduler) : scheduler :=
  set_worker (active_keys s ∪ {[k]}) (Running k j) false
    (set_not_before (delete k (not_before s)) (set_jobs js (queued_keys s ∖ {[k]}) s)).

Lemma begin_promote k j js s : k ∉ (deferred_jobs s).*1 → begin k j js s = promote (start_job k j js s).
Proof.
  intros Hk. unfold begin, promote, start_job. cbn [deferred_jobs set_worker set_not_before set_jobs jobs queued_keys].
  destruct (deferred_jobs s) as [|[d jd] ds]; [done|]. cbn in Hk. apply not_elem_of_cons in Hk as [Hne _]. cbn.
  assert ((queued_keys s ∪ {[d]}) ∖ {[k]} = queued_keys s ∖ {[k]} ∪ {[d]}) as E by set_solver. unfold set_worker, set_jobs, set_deferred. cbn. by rewrite E.
Qed.

Lemma waiting_idle s : sound s → worker s = Waiting → active_keys s = ∅ ∧ follow_up_key s = None.
Proof.
  intros Hs Hw. assert (active_keys s = ∅) as Ha.
  { apply set_eq. intros k. rewrite (q_active _ (s_queues _ Hs)), Hw. split; [by intros [? ?]|set_solver]. }
  split; [done|]. destruct (follow_up_key s) as [k|] eqn:E; [|done]. apply (q_follow _ (s_queues _ Hs)) in E as (Hk & _). set_solver.
Qed.

Lemma start_job_sound k j js s : sound s → worker s = Waiting → (k, j) :: js ≡ₚ jobs s → sound (start_job k j js s).
Proof.
  intros Hs Hw Hp. destruct (waiting_idle s Hs Hw) as [Ha Hf]. destruct Hs as [Hq [] Hc Hr].
  assert (Hk : k :: js.*1 ≡ₚ (jobs s).*1) by (by rewrite <-Hp).
  assert (Hlen : length (jobs s) = S (length js)) by (by rewrite <-Hp).
  split; [|by split| |].
  - destruct Hq as [Q1 Q2 Q3 Q4 Q5 Q6 Q7 Q8 Q9 Q10 Q11 Q12]. rewrite <-Hk in Q3. apply NoDup_cons in Q3 as [Q3 Q3'].
    assert (∀ k', k' ∈ (jobs s).*1 ↔ k' = k ∨ k' ∈ js.*1) as Hin by (intros k'; by rewrite <-Hk, elem_of_cons).
    split; cbn; try done.
    + intros k'. rewrite elem_of_difference, Q2, Hin. set_solver.
    + intros k' Hk'. apply Q5, Hin. by right.
    + lia.
    + intros k'. rewrite Ha. split; [intros [?| ->%elem_of_singleton]%elem_of_union; [set_solver|by exists j]|intros [? [= <-]]; set_solver].
    + intros k'. by rewrite Hf.
    + intros k' Hx. destruct (Q12 k' Hx) as [Hnp Hna]. unfold pending in *. cbn. rewrite Hin in Hnp. set_solver.
  - intros o k' Ho. apply Hc in Ho. unfold working, pending in *. cbn. rewrite <-Hk in Ho. set_solver.
  - intros o ks E. cbn. destruct (Hr o ks E). set_solver.
Qed.

Lemma begin_sound k j js s : sound s → worker s = Waiting → (k, j) :: js ≡ₚ jobs s → sound (begin k j js s).
Proof.
  intros Hs Hw Hp. rewrite begin_promote.
  - apply promote_sound; [by apply start_job_sound|]. cbn. pose proof (q_jobs _ (s_queues _ Hs)) as H. rewrite <-Hp in H. cbn in H. lia.
  - apply (q_apart _ (s_queues _ Hs)). rewrite <-Hp. by left.
Qed.

Lemma exit_sound s : sound s → worker s = Waiting ∨ active_keys s = ∅ → sound (exit_worker s).
Proof.
  intros Hs Hw. assert (active_keys s = ∅) as Ha by (destruct Hw; [by apply waiting_idle|done]).
  destruct Hs as [[Q1 Q2 Q3 Q4 Q5 Q6 Q7 Q8 Q9 Q10 Q11 Q12] [] Hc Hr]. split; [|by split|exact Hc|exact Hr].
  split; cbn; try done. intros k. rewrite Ha. split; [set_solver|by intros [? ?]].
Qed.

Lemma promote_worker s : worker (promote s) = worker s.
Proof. unfold promote. by destruct (deferred_jobs s) as [|[? ?] ?]. Qed.

Lemma quiesce_fields s : let s' := quiesce s in worker s' = worker s ∧ active_keys s' = active_keys s ∧ jobs s' = [] ∧ deferred_jobs s' = [] ∧
  follow_up_key s' = None ∧ follow_up_job s' = None ∧ closed s' = true ∧ exclusive_keys s' = exclusive_keys s.
Proof.
  cbn. unfold quiesce. cbn zeta. fold (pending_keys s). fold (cleared s).
  destruct (release_idle_same (elements (pending_keys s)) (cleared s)) as (a & b & c & ->). by split_and!.
Qed.

(** The worker's look at the queue, once the bank has been tried. *)
Definition look (clock : nat → Z) (s : scheduler) : scheduler :=
  match jobs s with
  | [] => if closed s then exit_worker s else s
  | _ =>
      match first_due clock 0 s (jobs s) with
      | None => if embedding s && stopped s then exit_worker (quiesce s) else s
      | Some n =>
          match rotate (length (jobs s)) clock n s (jobs s) with
          | Some ((k, j) :: js) => begin k j js s
          | _ => s
          end
      end
  end.

Lemma take_job_look clock s : take_job clock s = look clock (if bool_decide (jobs s = []) then promote s else s).
Proof. done. Qed.

Lemma look_sound clock s : sound s → worker s = Waiting → sound (look clock s).
Proof.
  intros Hs Hw. unfold look. destruct (jobs s) as [|x js] eqn:Ej; [destruct (closed s); [apply exit_sound; auto|done]|]. rewrite <-Ej.
  destruct (first_due clock 0 s (jobs s)) as [n|].
  - destruct (rotate _ _ _ _ _) as [[|[k j] l]|] eqn:Er; [done| |done]. apply rotate_spec in Er as [Hp _]. by apply begin_sound.
  - destruct (_ && _); [|done]. apply exit_sound; [by apply quiesce_sound|]. right. destruct (quiesce_fields s) as (_ & -> & _). by apply waiting_idle.
Qed.

Lemma take_job_sound clock s : sound s → worker s = Waiting → sound (take_job clock s).
Proof.
  intros Hs Hw. rewrite take_job_look. case_bool_decide as E; [|by apply look_sound]. apply look_sound; [|by rewrite promote_worker].
  apply promote_sound; [done|]. rewrite E. cbn. pose proof (q_max _ (s_queues _ Hs)). lia.
Qed.

(** ** The end of a job *)

Lemma running_active s k j : sound s → worker s = Running k j → active_keys s = {[k]}.
Proof.
  intros Hs Hw. apply set_eq. intros k'. rewrite (q_active _ (s_queues _ Hs)), Hw, elem_of_singleton. split; [by intros [? [= <- _]]|intros ->; by exists j].
Qed.

Lemma forget_retired_sound (k : key) (m : gmap owner (gset key)) (X : gset key) o ks : (∀ o ks, m !! o = Some ks → ks ≠ ∅ ∧ ks ⊆ X) → forget_retired k m !! o = Some ks → ks ≠ ∅ ∧ ks ⊆ X ∖ {[k]}.
Proof.
  intros Hm E. unfold forget_retired in E. rewrite lookup_omap in E. destruct (m !! o) as [ks0|] eqn:E0; [|done]. cbn in E.
  destruct (Hm o ks0 E0). case_bool_decide as E1; [done|]. injection E as <-. set_solver.
Qed.

(** The running key stops, before its owners are released. *)
Definition stopped_key (k : key) (s : scheduler) : scheduler :=
  set_worker (active_keys s ∖ {[k]}) Waiting false (set_retired (forget_retired k (retired_active_keys s)) s).

Lemma stopped_key_queues k j s : sound s → worker s = Running k j → follow_up_key s = None → queues (stopped_key k s).
Proof.
  intros Hs Hw Hf. pose proof (running_active s k j Hs Hw) as Ha. destruct Hs as [[Q1 Q2 Q3 Q4 Q5 Q6 Q7 Q8 Q9 Q10 Q11 Q12] _ _ _].
  split; cbn; try done.
  - intros k'. rewrite Ha. split; [set_solver|by intros [? ?]].
  - intros k'. by rewrite Hf.
  - intros k' Hx. destruct (Q12 k' Hx). split; [done|set_solver].
Qed.

Lemma stopped_key_linked k s : linked s → linked (stopped_key k s).
Proof. intros []. by split. Qed.

Lemma end_key_sound k j s : sound s → worker s = Running k j → follow_up_key s = None → sound (end_key k s).
Proof.
  intros Hs Hw Hf. pose proof (stopped_key_queues k j s Hs Hw Hf) as Hq'. pose proof (running_active s k j Hs Hw) as Ha. destruct Hs as [Hq Hl Hc Hr]. unfold end_key. fold (stopped_key k s).
  split.
  - by apply release_queues.
  - by apply release_linked, stopped_key_linked.
  - assert (covered_but ∅ (release_key_owners_if_idle k (stopped_key k s))) as H.
    { apply release_covered; [done| |].
      - cbn. intros Hx. destruct (q_free s Hq k Hx) as [_ H]. apply H, (q_active s Hq). by exists j.
      - intros o k' Ho. destruct (Hc o k' Ho) as [?|Hk']; [by left; left|right; set_solver]. }
    intros o k' Ho. destruct (H o k' Ho); [done|set_solver].
  - intros o ks E. destruct (release_same k (stopped_key k s)) as (a & b & c & E'). rewrite E' in *. cbn in *. by eapply forget_retired_sound.
Qed.

Lemma rerun_sound k j j0 s : sound s → worker s = Running k j0 → follow_up_key s = Some k →
  sound (set_worker (active_keys s) (Running k j) true (set_follow_up None None s)).
Proof.
  intros Hs Hw Hf. pose proof (running_active s k j0 Hs Hw) as Ha. apply empty_slot_sound in Hs. destruct Hs as [[Q1 Q2 Q3 Q4 Q5 Q6 Q7 Q8 Q9 Q10 Q11 Q12] [] Hc Hr].
  split; [|by split|exact Hc|exact Hr]. split; cbn; try done. intros k'. rewrite Ha. split; [intros ->%elem_of_singleton; by exists j|by intros [? [= <- _]]; set_solver].
Qed.

Lemma finish_job_sound k j s : sound s → worker s = Running k j → sound (finish_job k s).
Proof.
  intros Hs Hw. unfold finish_job. pose proof (q_slot _ (s_queues _ Hs)) as Hslot.
  destruct (follow_up_job s) as [j'|] eqn:Ej.
  - case_bool_decide as Ef; [by apply (rerun_sound k j' j)|]. exfalso. destruct Hslot as [_ [k' E]]; [by eexists|].
    destruct (q_follow _ (s_queues _ Hs) k' E) as (Hk & _). rewrite (running_active s k j Hs Hw) in Hk. set_solver.
  - apply (end_key_sound k j); [done|done|]. destruct (follow_up_key s); [|done]. destruct Hslot as [[? ?] _]; [by eexists|done].
Qed.

(** ** Every reachable state is sound *)

Lemma perform_sound op s : sound s → sound (perform op s).
Proof.
  intros Hs. destruct op; cbn [perform].
  - by apply schedule_sound.
  - by apply handoff_sound.
  - by apply try_acquire_sound.
  - by apply release_exclusive_sound.
  - by apply retire_owner_sound.
  - by apply quiesce_sound.
  - by apply stop_sound.
  - destruct (worker s) eqn:E; [done|by apply take_job_sound|done].
  - destruct (worker s) eqn:E; [done|done|by eapply finish_job_sound].
Qed.

Lemma scheduler_sound s : reachable s → sound s.
Proof.
  intros (m & e & H). pose proof (new_sound m e) as H0. induction H as [s|s1 s2 s3 [op ->] _ IH]; [done|]. by apply IH, perform_sound.
Qed.
