(* ===== verification/SchedulerResults.v ===== *)
(** What the scheduler promises: exclusive keys, owners that wait, accepted work that is
    kept until it runs, an ordered worker, and a final shutdown. *)

From S2P Require Import Prelude Scheduler SchedulerProofs.
From stdpp Require Import options.

#[local] Open Scope Z_scope.

(** A run of critical sections. *)
Definition performs (ops : list operation) (s : scheduler) : scheduler := foldl (λ s op, perform op s) s ops.

Lemma reachable_perform op s : reachable s → reachable (perform op s).
Proof. intros (m & e & H). exists m, e. eapply rtc_r; [exact H|by exists op]. Qed.

Lemma reachable_performs ops : ∀ s, reachable s → reachable (performs ops s).
Proof. induction ops as [|op ops IH]; intros s Hs; [done|]. cbn. by apply IH, reachable_perform. Qed.

(** ** The fields the operations leave alone *)

Lemma promote_exclusive s : exclusive_keys (promote s) = exclusive_keys s.
Proof. unfold promote. by destruct (deferred_jobs s) as [|[? ?] ?]. Qed.

Lemma track_fields k o j s : let s' := track_owner k o j s in
  jobs s' = jobs s ∧ deferred_jobs s' = deferred_jobs s ∧ follow_up_key s' = follow_up_key s ∧ exclusive_keys s' = exclusive_keys s.
Proof. by destruct o. Qed.

(** The outcomes of a request. *)
Inductive scheduled (k : key) (j : job) (delay : Z) (s : scheduler) : scheduler → bool → Prop :=
  | refused_closed : closed s = true → scheduled k j delay s s false
  | refused_exclusive : closed s = false → k ∈ exclusive_keys s → scheduled k j delay s s false
  | joined s' : pending s k → jobs s' = jobs s → deferred_jobs s' = deferred_jobs s → follow_up_key s' = follow_up_key s →
      exclusive_keys s' = exclusive_keys s → scheduled k j delay s s' true
  | filled s' : k ∈ active_keys s → jobs s' = jobs s → deferred_jobs s' = deferred_jobs s → follow_up_key s' = Some k →
      exclusive_keys s' = exclusive_keys s → scheduled k j delay s s' true
  | banked s' : jobs s' = jobs s → deferred_jobs s' = deferred_jobs s ++ [(k, j)] →
      follow_up_key s' = follow_up_key s ∨ follow_up_key s = Some k → exclusive_keys s' = exclusive_keys s → scheduled k j delay s s' true
  | queued s' : jobs s' = jobs s ++ [(k, j)] → deferred_jobs s' = deferred_jobs s →
      follow_up_key s' = follow_up_key s ∨ follow_up_key s = Some k → exclusive_keys s' = exclusive_keys s → scheduled k j delay s s' true
  | refused_full s' : jobs s' = jobs s → deferred_jobs s' = deferred_jobs s →
      follow_up_key s' = follow_up_key s ∨ follow_up_key s = Some k ∧ 0 < delay → exclusive_keys s' = exclusive_keys s →
      (max_pending s ≤ length (jobs s))%nat → scheduled k j delay s s' false.

Lemma schedule_scheduled k j o delay handing now s : sound s →
  scheduled k j delay s (schedule k j o delay handing now s).1 (schedule k j o delay handing now s).2.
Proof.
  intros Hs. unfold schedule. cbn zeta. destruct (closed s) eqn:Ec; [by apply refused_closed|].
  case_bool_decide as Hx; [by apply refused_exclusive|].
  destruct (bool_decide _ || bool_decide _) eqn:Hp; cbn [fst snd].
  { destruct (track_fields k o (if handing then Some j else None) (if bool_decide (0 < delay) then
      set_not_before (<[k:=Z.max (default 0 (not_before s !! k)) (now + delay)]> (not_before s)) s else s)) as (T1 & T2 & T3 & T4).
    apply joined; rewrite ?T1, ?T2, ?T3, ?T4; [|by destruct (bool_decide (0 < delay))..].
    apply orb_true_iff in Hp as [H%bool_decide_eq_true|H%bool_decide_eq_true]; [left; by apply (q_queued _ (s_queues _ Hs))|].
    right. left. by apply deferred_keys_elem. }
  clear Hp. fold (delayed k delay now s). pose proof (delayed_same k delay now s) as D. cbn in D.
  set (s1 := delayed k delay now s) in *. clearbody s1. destruct D as (E1 & E2 & E3 & E4 & E5 & E6 & _ & _ & _ & E7).
  assert (follow_up_key s1 = follow_up_key s ∨ follow_up_key s = Some k ∧ 0 < delay) as Hf by tauto.
  destruct (bool_decide (k ∈ active_keys s1) && _ && _) eqn:Ha; cbn [fst snd].
  - apply andb_true_iff in Ha as [[Ha%bool_decide_eq_true _]%andb_true_iff _].
    destruct (track_fields k o (if handing then Some j else None) (set_follow_up (Some k) (Some j) s1)) as (T1 & T2 & T3 & T4).
    apply filled; rewrite ?T1, ?T2, ?T3, ?T4; cbn; congruence.
  - clear Ha. case_bool_decide as Hlen; cbn [fst snd].
    + destruct (embedding s1 && _); cbn [fst snd].
      * destruct (track_fields k o (if handing then Some j else None) (set_deferred (deferred_jobs s1 ++ [(k, j)]) s1)) as (T1 & T2 & T3 & T4).
        apply banked; rewrite ?T1, ?T2, ?T3, ?T4; cbn; [done|by rewrite E2|tauto|done].
      * apply refused_full; cbn; [done..|by rewrite <-E6, <-E1].
    + destruct (track_fields k o (if handing then Some j else None)
        (set_jobs (jobs (start_worker s1) ++ [(k, j)]) (queued_keys (start_worker s1) ∪ {[k]}) (start_worker s1))) as (T1 & T2 & T3 & T4).
      assert (jobs (start_worker s1) = jobs s1 ∧ deferred_jobs (start_worker s1) = deferred_jobs s1 ∧
        follow_up_key (start_worker s1) = follow_up_key s1 ∧ exclusive_keys (start_worker s1) = exclusive_keys s1) as (W1 & W2 & W3 & W4)
        by (unfold start_worker; by destruct (worker s1)).
      apply queued; rewrite ?T1, ?T2, ?T3, ?T4; cbn; [by rewrite W1, E1|by rewrite W2|rewrite W3; tauto|by rewrite W4].
Qed.

Lemma scheduled_exclusive k j delay s s' b : scheduled k j delay s s' b → exclusive_keys s' = exclusive_keys s.
Proof. by destruct 1. Qed.

(** A handed over job is a request of its own. *)
Lemma handoff_cases k retired delay now s :
  handoff k retired delay now s = (s, false) ∨
  ∃ o j, handoff k retired delay now s = schedule k j (Some o) delay true now s.
Proof. unfold handoff. destruct (find_first _ _) as [[o j]|]; [right; by exists o, j|by left]. Qed.

(** What a retirement leaves alone. *)
Lemma retire_owner_fields o timeout s : let s' := (retire_owner o timeout s).1.1 in
  jobs s' = jobs (retire_all o s) ∧ deferred_jobs s' = deferred_jobs (retire_all o s) ∧ follow_up_key s' = follow_up_key (retire_all o s) ∧
  owned_keys s' = owned_keys (retire_all o s) ∧ key_owners s' = key_owners (retire_all o s) ∧
  exclusive_keys s' = exclusive_keys s ∧ active_keys s' = active_keys s ∧ worker s' = worker s ∧ closed s' = closed s.
Proof.
  cbn. unfold retire_owner. cbn zeta. fold (owned_by s o). fold (retire_start o s). fold (retire_all o s).
  destruct (retire_keys_kept o (elements (owned_by s o)) (retire_start o s)) as [K1 K2 K3 K4 K5 K6 K7 K8 K9 K10]. fold (retire_all o s) in *.
  case_bool_decide; [case_bool_decide|]; by split_and!.
Qed.

(** A worker that finds no job first tries the bank. *)
Definition ready (s : scheduler) : scheduler := if bool_decide (jobs s = []) then promote s else s.

Lemma ready_sound s : sound s → sound (ready s).
Proof.
  intros Hs. unfold ready. case_bool_decide as Ej; [|done]. apply promote_sound; [done|]. rewrite Ej. cbn.
  pose proof (q_max _ (s_queues _ Hs)). lia.
Qed.

Lemma ready_fields s : worker (ready s) = worker s ∧ exclusive_keys (ready s) = exclusive_keys s ∧ closed (ready s) = closed s ∧
  owned_keys (ready s) = owned_keys s ∧ active_keys (ready s) = active_keys s ∧ follow_up_key (ready s) = follow_up_key s ∧ not_before (ready s) = not_before s.
Proof. unfold ready, promote. case_bool_decide; [|done]. by destruct (deferred_jobs s) as [|[? ?] ?]. Qed.

Lemma ready_jobs s : jobs (ready s) ++ deferred_jobs (ready s) = jobs s ++ deferred_jobs s.
Proof.
  unfold ready, promote. case_bool_decide as E; [|done]. destruct (deferred_jobs s) as [|[d jd] ds] eqn:Ed; [by rewrite E, Ed|].
  cbn. by rewrite E.
Qed.

Lemma look_cases clock s : sound s → worker s = Waiting →
  look clock s = s ∨ look clock s = exit_worker s ∧ jobs s = [] ∧ closed s = true ∨
  look clock s = exit_worker (quiesce s) ∧ embedding s = true ∧ stopped s = true ∨
  ∃ k j js m, look clock s = begin k j js s ∧ (k, j) :: js ≡ₚ jobs s ∧ held clock m s k = false.
Proof.
  intros Hs Hw. unfold look. destruct (jobs s) as [|x js0] eqn:Ej; [destruct (closed s); auto|]. rewrite <-Ej.
  destruct (first_due clock 0 s (jobs s)) as [n|].
  - destruct (rotate _ _ _ _ _) as [[|[k j] l]|] eqn:Er; [by left| |by left]. apply rotate_spec in Er as [Hp (k' & j' & l' & m & [= <- <- <-] & Hd)].
    right. right. right. by exists k, j, l, m.
  - destruct (embedding s && stopped s) eqn:E; [|by left]. apply andb_true_iff in E. auto.
Qed.

Lemma begin_fields k j js s : exclusive_keys (begin k j js s) = exclusive_keys s ∧ worker (begin k j js s) = Running k j ∧ closed (begin k j js s) = closed s.
Proof. unfold begin, promote. cbn. by destruct (deferred_jobs s) as [|[d jd] ds]. Qed.

Lemma finish_cases k j s : sound s → worker s = Running k j →
  (∃ j', follow_up_key s = Some k ∧ follow_up_job s = Some j' ∧ finish_job k s = set_worker (active_keys s) (Running k j') true (set_follow_up None None s)) ∨
  follow_up_key s = None ∧ finish_job k s = end_key k s.
Proof.
  intros Hs Hw. unfold finish_job. pose proof (q_slot _ (s_queues _ Hs)) as Hslot.
  destruct (follow_up_key s) as [k'|] eqn:Ef.
  - destruct (q_follow _ (s_queues _ Hs) k' Ef) as (Hk & _). rewrite (running_active s k j Hs Hw) in Hk. apply elem_of_singleton in Hk as ->.
    destruct (follow_up_job s) as [j'|]; [|destruct Hslot as [[? ?] _]; [by eexists|done]]. left. exists j'. by rewrite bool_decide_eq_true_2.
  - right. destruct (follow_up_job s); [|done]. destruct Hslot as [_ [? ?]]; [by eexists|done].
Qed.

Lemma end_key_fields k s : let s' := end_key k s in exclusive_keys s' = exclusive_keys s ∧ jobs s' = jobs s ∧ deferred_jobs s' = deferred_jobs s ∧
  follow_up_key s' = follow_up_key s ∧ worker s' = Waiting ∧ closed s' = closed s ∧ active_keys s' = active_keys s ∖ {[k]}.
Proof. cbn. unfold end_key. fold (stopped_key k s). destruct (release_same k (stopped_key k s)) as (a & b & c & ->). by split_and!. Qed.

(** Only an operator takes or gives back an exclusive key. *)
Lemma perform_exclusive op s k : sound s → k ∈ exclusive_keys s → op ≠ ReleaseExclusive k → k ∈ exclusive_keys (perform op s).
Proof.
  intros Hs Hk Hop. destruct op as [k' j o delay handing now|k' retired delay now|k'|k'|o timeout| | |clock|]; cbn [perform].
  - by rewrite (scheduled_exclusive _ _ _ _ _ _ (schedule_scheduled k' j o delay handing now s Hs)).
  - destruct (handoff_cases k' retired delay now s) as [->|(o & j & ->)]; [done|].
    by rewrite (scheduled_exclusive _ _ _ _ _ _ (schedule_scheduled k' j (Some o) delay true now s Hs)).
  - unfold try_acquire_exclusive. destruct (outstanding s k'); [done|]. case_bool_decide; cbn; set_solver.
  - cbn. assert (k ≠ k') by congruence. set_solver.
  - by destruct (retire_owner_fields o timeout s) as (_ & _ & _ & _ & _ & -> & _).
  - by destruct (quiesce_fields s) as (_ & _ & _ & _ & _ & _ & _ & ->).
  - unfold stop. by destruct (embedding s).
  - destruct (worker s) eqn:Hw; [done| |done]. rewrite take_job_look. fold (ready s).
    destruct (ready_fields s) as (Rw & Rx & _). rewrite <-Rx in Hk. rewrite <-Rw in Hw.
    destruct (look_cases clock (ready s) (ready_sound s Hs) Hw) as [->|[(-> & _)|[(-> & _)|(k1 & j1 & js & m & -> & _)]]]; [done..| |].
    + cbn. by destruct (quiesce_fields (ready s)) as (_ & _ & _ & _ & _ & _ & _ & ->).
    + by destruct (begin_fields k1 j1 js (ready s)) as (-> & _).
  - destruct (worker s) as [| |k' j] eqn:Hw; [done..|]. destruct (finish_cases k' j s Hs Hw) as [(j' & _ & _ & ->)|[_ ->]]; [done|].
    by destruct (end_key_fields k' s) as (-> & _).
Qed.

(** What starts is then active. *)
Lemma starts_active op s k j : sound s → starts op s = Some (k, j) → k ∈ active_keys (perform op s).
Proof.
  intros Hs H. apply (q_active _ (s_queues _ (perform_sound op s Hs))). exists j. unfold starts in H.
  destruct op; try done; destruct (worker s); try done; destruct (worker (perform _ s)); congruence.
Qed.

(** C17: an operator's exclusive key shuts the background out: in every reachable state the
    key is not pending and not running, no operation but its own release takes it away or
    starts a job of it, and requests and other acquisitions of it are refused. *)
Theorem exclusive_key_excludes s k : reachable s → k ∈ exclusive_keys s →
  ¬ pending s k ∧ k ∉ active_keys s ∧
  (∀ op, op ≠ ReleaseExclusive k → k ∈ exclusive_keys (perform op s) ∧ ∀ j, starts op s ≠ Some (k, j)) ∧
  (∀ j o delay handing now, schedule k j o delay handing now s = (s, false)) ∧ try_acquire_exclusive k s = (s, false).
Proof.
  intros Hr%scheduler_sound Hk. destruct (q_free _ (s_queues _ Hr) k Hk) as [Hp Ha]. split; [done|]. split; [done|]. split; [|split].
  - intros op Hop. pose proof (perform_exclusive op s k Hr Hk Hop) as Hk'. split; [done|]. intros j Hj.
    apply (starts_active op s k j Hr) in Hj. by apply (q_free _ (s_queues _ (perform_sound op s Hr)) k Hk') in Hj.
  - intros j o delay handing now. unfold schedule. cbn zeta. destruct (closed s); [done|]. by rewrite bool_decide_eq_true_2.
  - unfold try_acquire_exclusive. assert (outstanding s k = true) as ->; [|done]. apply outstanding_iff; [apply Hr|by right].
Qed.

(** ** Owners that wait *)

Lemma set_worker_owned a w b s o : owned_by (set_worker a w b s) o = owned_by s o.
Proof. done. Qed.

Lemma schedule_owned k j o delay handing now s o' : owned_by s o' ⊆ owned_by (schedule k j o delay handing now s).1 o'.
Proof.
  assert (∀ hj s0, owned_keys s0 = owned_keys s → owned_by s o' ⊆ owned_by (track_owner k o hj s0) o') as H.
  { intros hj s0 E. rewrite track_owned. unfold owned_by. rewrite E. destruct o as [o|]; [|done]. case_bool_decide; subst; set_solver. }
  unfold schedule. cbn zeta. destruct (closed s); [done|]. case_bool_decide; [done|]. destruct (bool_decide _ || bool_decide _); cbn [fst].
  - apply H. by destruct (bool_decide (0 < delay)).
  - fold (delayed k delay now s). destruct (delayed_same k delay now s) as (_ & _ & _ & _ & _ & _ & _ & _ & Ho & _).
    set (s1 := delayed k delay now s) in *. clearbody s1. destruct (bool_decide (k ∈ active_keys s1) && _ && _); cbn [fst]; [by apply H|].
    destruct (bool_decide (max_pending s1 <= length (jobs s1))%nat); cbn [fst].
    + destruct (embedding s1 && _); cbn [fst]; [by apply H|]. unfold owned_by. cbn. by rewrite Ho.
    + apply H. cbn. unfold start_worker. by destruct (worker s1).
Qed.

Lemma quiesce_owned s o k : sound s → k ∈ owned_by s o → k ∈ owned_by (quiesce s) o ∨ ¬ working (quiesce s) k.
Proof.
  intros Hs Hk. unfold quiesce. cbn zeta. fold (pending_keys s). fold (cleared s).
  destruct (release_idle_keeps (elements (pending_keys s)) o k (cleared s)) as [H|H].
  - apply cleared_queues, Hs.
  - destruct Hs as [_ [] _ _]. by split.
  - done.
  - by left.
  - right. destruct (release_idle_same (elements (pending_keys s)) (cleared s)) as (a & b & c & ->). done.
Qed.

(** A key stays with its owner until it neither waits nor runs, or the owner retires. *)
Lemma perform_owned op s o k : sound s → k ∈ owned_by s o → (∀ t, op ≠ RetireOwner o t) →
  k ∈ owned_by (perform op s) o ∨ ¬ working (perform op s) k.
Proof.
  intros Hs Hk Hop. destruct op as [k' j o' delay handing now|k' retired delay now|k'|k'|o' timeout| | |clock|]; cbn [perform].
  - left. by apply schedule_owned.
  - left. destruct (handoff_cases k' retired delay now s) as [->|(o' & j & ->)]; [done|by apply schedule_owned].
  - left. unfold try_acquire_exclusive. destruct (outstanding s k'); [done|]. by case_bool_decide.
  - by left.
  - left. destruct (retire_owner_fields o' timeout s) as (_ & _ & _ & E & _). unfold owned_by. rewrite E. unfold retire_all.
    rewrite (k_owned _ _ (retire_keys_kept o' _ _)). cbn. rewrite lookup_delete_ne; [done|]. intros ->. by apply (Hop timeout).
  - by apply quiesce_owned.
  - left. unfold stop. by destruct (embedding s).
  - destruct (worker s) eqn:Hw; [by left| |by left]. rewrite take_job_look. fold (ready s).
    destruct (ready_fields s) as (Rw & _ & _ & Ro & _). rewrite <-Rw in Hw. assert (k ∈ owned_by (ready s) o) as Hk' by (unfold owned_by; by rewrite Ro).
    destruct (look_cases clock (ready s) (ready_sound s Hs) Hw) as [->|[(-> & _)|[(-> & _)|(k1 & j1 & js & m & -> & _)]]]; [by left|by left| |].
    + exact (quiesce_owned (ready s) o k (ready_sound s Hs) Hk').
    + left. unfold begin, promote. cbn. destruct (deferred_jobs (ready s)) as [|[d jd] ds]; done.
  - destruct (worker s) as [| |k' j] eqn:Hw; [by left|by left|]. destruct (finish_cases k' j s Hs Hw) as [(j' & _ & _ & ->)|[Hf ->]]; [by left|].
    unfold end_key. fold (stopped_key k' s). rewrite release_working.
    apply (release_keeps k' (stopped_key k' s) o k (stopped_key_queues k' j s Hs Hw Hf)); [by apply stopped_key_linked, Hs|done].
Qed.

(** An accepted request is owned at once. *)
Lemma scheduled_owned k j o delay handing now s :
  (schedule k j (Some o) delay handing now s).2 = true → k ∈ owned_by (schedule k j (Some o) delay handing now s).1 o.
Proof.
  assert (∀ hj s0, k ∈ owned_by (track_owner k (Some o) hj s0) o) as H.
  { intros hj s0. rewrite track_owned, bool_decide_eq_true_2 by done. set_solver. }
  unfold schedule. cbn zeta. destruct (closed s); [done|]. case_bool_decide; [done|]. destruct (bool_decide _ || bool_decide _); cbn [fst snd]; [intros _; apply H|].
  fold (delayed k delay now s). set (s1 := delayed k delay now s). clearbody s1.
  destruct (bool_decide (k ∈ active_keys s1) && _ && _); cbn [fst snd]; [intros _; apply H|].
  destruct (bool_decide (max_pending s1 <= length (jobs s1))%nat); cbn [fst snd]; [|intros _; apply H].
  destruct (embedding s1 && _); [intros _; apply H|done].
Qed.

(** C29: waiting for an owner's work to drain means what it says: once a request of the owner
    is accepted, however the threads interleave, the owner's keys are not reported drained
    before the requested key was neither waiting nor running at some moment since, unless
    the owner retires. *)
Theorem drain_owner_waits k j o delay handing now s ops :
  reachable s → (schedule k j (Some o) delay handing now s).2 = true → (∀ t, RetireOwner o t ∉ ops) →
  let s' := (schedule k j (Some o) delay handing now s).1 in
  owner_drained o (performs ops s') = true → ∃ before after, ops = before ++ after ∧ ¬ working (performs before s') k.
Proof.
  intros Hr Hacc Hops. cbn zeta. pose proof (scheduled_owned k j o delay handing now s Hacc) as Hk.
  assert (sound (schedule k j (Some o) delay handing now s).1) as Hs by (by apply schedule_sound, scheduler_sound).
  revert Hs Hk. generalize (schedule k j (Some o) delay handing now s).1 as s1. clear Hr Hacc.
  induction ops as [|op ops IH]; intros s1 Hs Hk; cbn [performs foldl].
  - intros Hd%bool_decide_eq_true. unfold owned_by in Hk. set_solver.
  - intros Hd. destruct (perform_owned op s1 o k Hs Hk) as [Hk'|Hw].
    + intros t ->. apply (Hops t). by left.
    + destruct (IH) with (s1 := perform op s1) as (b & a & -> & Hb); [|by apply perform_sound|done|done|].
      * intros t Ht. apply (Hops t). by right.
      * by exists (op :: b), a.
    + exists [op], ops. by split.
Qed.

(** ** Shutdown is final *)

(** Nothing is accepted and nothing waits. *)
Definition shut (s : scheduler) : Prop := closed s = true ∧ jobs s = [] ∧ deferred_jobs s = [] ∧ follow_up_key s = None.

Lemma retire_keys_empty o ks : ∀ s, queues s → (∀ k, ¬ pending s k) → ∀ k, ¬ pending (retire_keys o ks s) k.
Proof.
  induction ks as [|k0 ks IH]; intros s Hq Hp; cbn [retire_keys]; [done|]. apply IH; [by apply retire_key_queues|].
  intros k. rewrite retire_key_pending by done. intros [? _]. by apply (Hp k).
Qed.

Lemma shut_pending s : (jobs s = [] ∧ deferred_jobs s = [] ∧ follow_up_key s = None) ↔ ∀ k, ¬ pending s k.
Proof.
  unfold pending. split.
  - intros (-> & -> & ->) k. cbn. intros [?%not_elem_of_nil|[?%not_elem_of_nil|?]]; done.
  - intros H. split_and!.
    + destruct (jobs s) as [|[k j] l]; [done|]. destruct (H k). left. by left.
    + destruct (deferred_jobs s) as [|[k j] l]; [done|]. destruct (H k). right. left. by left.
    + destruct (follow_up_key s) as [k|]; [|done]. destruct (H k). by right; right.
Qed.

Lemma shut_perform op s : sound s → shut s → shut (perform op s) ∧ starts op s = None.
Proof.
  intros Hs (Hc & Hp). assert (∀ s', closed s' = true → (∀ k, ¬ pending s' k) → shut s') as Hshut.
  { intros s' Hc' Hp'%shut_pending. by split. }
  assert (∀ k j o delay handing now, schedule k j o delay handing now s = (s, false)) as Hsched by (intros; unfold schedule; by rewrite Hc).
  destruct op as [k' j o' delay handing now|k' retired delay now|k'|k'|o' timeout| | |clock|]; cbn [perform starts].
  - rewrite Hsched. by split.
  - destruct (handoff_cases k' retired delay now s) as [->|(o' & j & ->)]; [by split|]. rewrite Hsched. by split.
  - unfold try_acquire_exclusive. destruct (outstanding s k'); [by split|]. case_bool_decide; by split.
  - by split.
  - split; [|done]. destruct (retire_owner_fields o' timeout s) as (E1 & E2 & E3 & _ & _ & _ & _ & _ & E4).
    apply Hshut; [by rewrite E4|]. unfold pending. rewrite E1, E2, E3. apply (retire_keys_empty o' _ (retire_start o' s)).
    + apply set_owners_queues, Hs.
    + exact (proj1 (shut_pending s) Hp).
  - split; [|done]. destruct (quiesce_fields s) as (_ & _ & ? & ? & ? & _ & ? & _). by split_and!.
  - split; [|done]. unfold stop. by destruct (embedding s).
  - destruct (worker s) eqn:Hw; [by split| |by split]. rewrite take_job_look. destruct Hp as (Ej & Ed & Ef).
    assert ((if bool_decide (jobs s = []) then promote s else s) = s) as -> by (rewrite bool_decide_eq_true_2 by done; unfold promote; by rewrite Ed).
    unfold look. rewrite Ej, Hc. by split.
  - destruct (worker s) as [| |k' j] eqn:Hw; [by split|by split|]. destruct Hp as (Ej & Ed & Ef).
    destruct (finish_cases k' j s Hs Hw) as [(j' & Ef' & _)|[_ E]]; [congruence|]. rewrite E.
    destruct (end_key_fields k' s) as (_ & E1 & E2 & E3 & -> & E5 & _). split; [|done]. unfold shut. by rewrite E1, E2, E3, E5.
Qed.

(** A shutdown is final: however the threads go on, nothing waits, no job starts and no
    request is accepted. *)
Theorem quiesce_final s ops op k j o delay handing now : reachable s → let s' := performs ops (quiesce s) in
  (∀ k, ¬ pending s' k) ∧ starts op s' = None ∧ schedule k j o delay handing now s' = (s', false).
Proof.
  intros Hr. cbn zeta. assert (shut (quiesce s)) as Hshut.
  { destruct (quiesce_fields s) as (_ & _ & ? & ? & ? & _ & ? & _). by split_and!. }
  assert (sound (quiesce s)) as Hs by (by apply quiesce_sound, scheduler_sound). revert Hs Hshut. generalize (quiesce s) as s0.
  induction ops as [|op0 ops IH]; intros s0 Hs Hshut.
  - cbn. split; [apply shut_pending, Hshut|]. split; [by apply shut_perform|]. unfold schedule. by destruct Hshut as [-> _].
  - cbn. apply IH; [by apply perform_sound|by apply shut_perform].
Qed.

(** ** Accepted work is kept until it runs *)

(** The ways in which waiting work of a key is given up: a shutdown, the retirement of its
    last owner, and a delayed request of the running key that finds the queue full. *)
Definition given_up (op : operation) (s : scheduler) (k : key) : Prop :=
  match op with
  | Quiesce => True
  | TakeJob _ => stopped s = true
  | RetireOwner o _ => owners_of s k = {[o]}
  | Schedule k' _ _ delay _ _ | Handoff k' _ delay _ =>
      k' = k ∧ 0 < delay ∧ follow_up_key s = Some k ∧ (max_pending s ≤ length (jobs s))%nat
  | _ => False
  end.

Lemma retire_keys_pending o ks k : ∀ s, queues s →
  pending s k → (k ∈ ks → owners_of s k ∖ {[o]} ≠ ∅) → pending (retire_keys o ks s) k.
Proof.
  induction ks as [|k0 ks IH]; intros s Hq Hp Hk; cbn [retire_keys]; [done|]. apply IH; [by apply retire_key_queues| |].
  - apply retire_key_pending; [done|]. split; [done|]. intros ->. apply Hk. by left.
  - intros Hin. rewrite retire_key_owners. case_bool_decide as E; [subst|apply Hk; by right].
    assert (owners_of s k0 ∖ {[o]} ≠ ∅) as H by (apply Hk; by left). set_solver.
Qed.

Lemma scheduled_pending k0 j delay s s' b k : sound s → scheduled k0 j delay s s' b → pending s k →
  pending s' k ∨ k0 = k ∧ 0 < delay ∧ follow_up_key s = Some k ∧ (max_pending s ≤ length (jobs s))%nat.
Proof.
  intros Hs H Hp. unfold pending in *. destruct H as [|? ?|s' ? -> -> -> ?|s' Ha -> -> E ?|s' -> -> E ?|s' -> -> E ?|s' -> -> E ? Hlen]; rewrite ?fmap_app; cbn.
  - by left.
  - by left.
  - by left.
  - left. destruct Hp as [?|[?|Hf]]; [by left|by right; left|]. right. right. rewrite E. f_equal.
    destruct (q_follow _ (s_queues _ Hs) k Hf) as (Hk & _). apply (q_active _ (s_queues _ Hs)) in Ha as [j1 E1], Hk as [j2 E2]. congruence.
  - left. destruct Hp as [?|[?|Hf]]; [by left|right; left; set_solver|]. destruct E as [->|Hf']; [by right; right|]. right. left.
    assert (k0 = k) as -> by congruence. set_solver.
  - left. destruct Hp as [?|[?|Hf]]; [left; set_solver|by right; left|]. destruct E as [->|Hf']; [by right; right|]. left.
    assert (k0 = k) as -> by congruence. set_solver.
  - destruct Hp as [?|[?|Hf]]; [by left; left|by left; right; left|]. destruct E as [->|[Hf' ?]]; [by left; right; right|]. right.
    assert (k0 = k) as -> by congruence. done.
Qed.

Lemma ready_pending s k : pending s k → pending (ready s) k.
Proof.
  unfold pending. destruct (ready_fields s) as (_ & _ & _ & _ & _ & -> & _).
  assert (k ∈ (jobs (ready s) ++ deferred_jobs (ready s)).*1 ↔ k ∈ (jobs s ++ deferred_jobs s).*1) as H by (by rewrite ready_jobs).
  rewrite !fmap_app, !elem_of_app in H. tauto.
Qed.

Lemma begin_jobs k j js s : jobs (begin k j js s) ++ deferred_jobs (begin k j js s) = js ++ deferred_jobs s.
Proof. unfold begin, promote. cbn. destruct (deferred_jobs s) as [|[d jd] ds] eqn:E; cbn; [by rewrite E|by rewrite <-app_assoc]. Qed.

Lemma begin_pending k0 j js s k : (k0, j) :: js ≡ₚ jobs s → follow_up_key s = None → pending s k → k ≠ k0 → pending (begin k0 j js s) k.
Proof.
  intros Hp Hf Hk Hne. assert (k ∈ (jobs (begin k0 j js s) ++ deferred_jobs (begin k0 j js s)).*1) as H.
  { rewrite begin_jobs, fmap_app, elem_of_app. unfold pending in Hk. rewrite <-Hp, Hf in Hk. cbn in Hk. set_solver. }
  rewrite fmap_app, elem_of_app in H. unfold pending. tauto.
Qed.

(** C16: accepted work is kept: a key that waits goes on waiting over any operation of any
    thread until a job of it starts, but for a shutdown, the retirement of its last
    owner, and a delayed request of the running key when the queue is full. *)
Theorem accepted_work_kept op s k : reachable s → pending s k →
  pending (perform op s) k ∨ (∃ j, starts op s = Some (k, j)) ∨ given_up op s k.
Proof.
  intros Hs%scheduler_sound Hp. destruct op as [k' j o' delay handing now|k' retired delay now|k'|k'|o timeout| | |clock|]; cbn [perform starts given_up].
  - destruct (scheduled_pending _ _ _ _ _ _ k Hs (schedule_scheduled k' j o' delay handing now s Hs) Hp); auto.
  - destruct (handoff_cases k' retired delay now s) as [->|(o' & j & ->)]; [by left|].
    destruct (scheduled_pending _ _ _ _ _ _ k Hs (schedule_scheduled k' j (Some o') delay true now s Hs) Hp); auto.
  - left. unfold try_acquire_exclusive. destruct (outstanding s k'); [done|]. by case_bool_decide.
  - by left.
  - destruct (decide (k ∈ owned_by s o ∧ owners_of s k ∖ {[o]} = ∅)) as [[Hk E]|Hno].
    + right. right. apply (l_inverse _ (s_linked _ Hs)) in Hk. apply (anti_symm (⊆)); [|set_solver].
      intros x Hx. destruct (decide (x = o)) as [->|Hne]; [set_solver|]. assert (x ∈ owners_of s k ∖ {[o]}) by set_solver. set_solver.
    + left. destruct (retire_owner_fields o timeout s) as (E1 & E2 & E3 & _). unfold pending. rewrite E1, E2, E3.
      apply (retire_keys_pending o _ k (retire_start o s)); [apply set_owners_queues, Hs|exact Hp|].
      intros Hk%elem_of_elements E. by apply Hno.
  - by right; right.
  - left. unfold stop. by destruct (embedding s).
  - destruct (worker s) eqn:Hw; [by left| |by left]. rewrite take_job_look. fold (ready s).
    destruct (ready_fields s) as (Rw & _ & _ & _ & _ & Rf & _). apply ready_pending in Hp. rewrite <-Rw in Hw. pose proof (ready_sound s Hs) as Hr.
    destruct (look_cases clock (ready s) Hr Hw) as [->|[(-> & _)|[(-> & _ & Hst)|(k1 & j1 & js & m & -> & Hperm & _)]]]; [by left|by left| |].
    + right. right. revert Hst. unfold ready, promote. case_bool_decide; [|done]. by destruct (deferred_jobs s) as [|[? ?] ?].
    + destruct (begin_fields k1 j1 js (ready s)) as (_ & Hwb & _). rewrite Hwb. destruct (decide (k = k1)) as [->|Hne]; [right; left; by exists j1|].
      left. apply begin_pending; [done| |done|done]. by apply waiting_idle.
  - destruct (worker s) as [| |k' j] eqn:Hw; [by left|by left|]. destruct (finish_cases k' j s Hs Hw) as [(j' & Hf & _ & ->)|[Hf ->]].
    + cbn. destruct Hp as [?|[?|E]]; [by left; left|by left; right; left|]. right. left. exists j'. congruence.
    + left. destruct (end_key_fields k' s) as (_ & E1 & E2 & E3 & _). unfold pending. by rewrite E1, E2, E3.
Qed.

(** ** A worker left alone *)

(** [n] turns of the worker, and the jobs it starts. *)
Fixpoint work (clock : nat → Z) (n : nat) (s : scheduler) : scheduler * list (key * job) :=
  match n with
  | O => (s, [])
  | S n =>
      let op := match worker s with Running _ _ => FinishJob | _ => TakeJob clock end in
      let r := work clock n (perform op s) in
      (r.1, option_list (starts op s) ++ r.2)
  end.

Definition slot (s : scheduler) : list (key * job) :=
  match follow_up_key s, follow_up_job s with Some k, Some j => [(k, j)] | _, _ => [] end.
Definition backlog (s : scheduler) : list (key * job) := slot s ++ jobs s ++ deferred_jobs s.
(** The turns it takes: one to end what runs, one for its follow-up, two for each job. *)
Definition load (s : scheduler) : nat :=
  (match worker s with Running _ _ => 1 | _ => 0 end + length (slot s) + 2 * length (jobs s ++ deferred_jobs s))%nat.

(** Every delay is over. *)
Definition due (clock : nat → Z) (s : scheduler) : Prop := ∀ n k, held clock n s k = false.

Lemma due_intro clock s s' : (∀ n, 0 <= clock n) → due clock s → (∀ k t, not_before s' !! k = Some t → not_before s !! k = Some t) → due clock s'.
Proof.
  intros H0 Hd Hn n k. specialize (Hd n k). unfold held in *. apply bool_decide_eq_false. apply bool_decide_eq_false in Hd.
  destruct (not_before s' !! k) as [t|] eqn:E; cbn; [by rewrite (Hn k t E) in Hd|]. specialize (H0 n). lia.
Qed.

(** A turn that takes: the first of the queue, or of the bank. *)
Lemma take_first clock s x xs : (∀ n, 0 <= clock n) → sound s → due clock s → worker s = Waiting → jobs s ++ deferred_jobs s = x :: xs →
  let s' := take_job clock s in worker s' = Running x.1 x.2 ∧ jobs s' ++ deferred_jobs s' = xs ∧ slot s' = [] ∧ due clock s'.
Proof.
  intros H0 Hs Hd Hw E. cbn. rewrite take_job_look. fold (ready s). pose proof (ready_jobs s) as Rj. rewrite E in Rj.
  pose proof (ready_sound s Hs) as Hrs. destruct (ready_fields s) as (Rw & _ & _ & _ & _ & Rf & Rn). rewrite <-Rw in Hw.
  destruct (waiting_idle _ Hrs Hw) as [_ Hf].
  assert (due clock (ready s)) as Hdr by (apply (due_intro clock s); [done|done|by rewrite Rn]).
  assert (∃ k j js, jobs (ready s) = (k, j) :: js) as (k & j & js & Ej).
  { destruct (jobs (ready s)) as [|[k j] js] eqn:Ej; [|by eexists _, _, _]. exfalso. revert Ej. unfold ready, promote. case_bool_decide as Ej; [|done].
    destruct (deferred_jobs s) as [|[d jd] ds]; [rewrite Ej in E; done|]. cbn. rewrite Ej. done. }
  rewrite Ej in Rj. injection Rj as <- Rj. unfold look. rewrite Ej. cbn [first_due rotate length]. rewrite (Hdr 0%nat k). cbn [rotate]. rewrite (Hdr 1%nat k).
  destruct (begin_fields k j js (ready s)) as (_ & Wb & _). split; [done|]. split; [by rewrite begin_jobs|]. split.
  - unfold slot. assert (follow_up_key (begin k j js (ready s)) = follow_up_key (ready s)) as ->; [|by rewrite Hf].
    unfold begin, promote. cbn. by destruct (deferred_jobs (ready s)) as [|[? ?] ?].
  - apply (due_intro clock (ready s)); [done|done|]. intros k' t. assert (not_before (begin k j js (ready s)) = delete k (not_before (ready s))) as ->.
    { unfold begin, promote. cbn. by destruct (deferred_jobs (ready s)) as [|[? ?] ?]. }
    by intros [_ ?]%lookup_delete_Some.
Qed.

Lemma end_key_not_before k s : not_before (end_key k s) = not_before s ∧ follow_up_job (end_key k s) = follow_up_job s.
Proof. unfold end_key. fold (stopped_key k s). by destruct (release_same k (stopped_key k s)) as (a & b & c & ->). Qed.

Lemma work_all clock n : ∀ s, (∀ n, 0 <= clock n) → sound s → due clock s → worker s ≠ NoWorker → load s = n →
  (work clock n s).2 = backlog s ∧ let s' := (work clock n s).1 in worker s' = Waiting ∧ backlog s' = [] ∧ sound s'.
Proof.
  induction n as [|n IH]; intros s H0 Hs Hd Hw Hn; cbn [work fst snd].
  - unfold load in Hn. destruct (worker s) eqn:E; [done| |lia]. assert (length (backlog s) = 0%nat) as Hb.
    { unfold backlog. rewrite length_app. lia. }
    apply nil_length_inv in Hb. by rewrite Hb.
  - destruct (worker s) as [| |k j] eqn:E; [done| |].
    + destruct (waiting_idle s Hs E) as [_ Hf]. assert (slot s = []) as Hslot by (unfold slot; by rewrite Hf).
      unfold load in Hn. rewrite E, Hslot in Hn. destruct (jobs s ++ deferred_jobs s) as [|[k j] xs] eqn:Ej; [cbn in Hn; lia|].
      destruct (take_first clock s (k, j) xs H0 Hs Hd E Ej) as (T1 & T2 & T3 & T4). cbn [perform starts]. rewrite E, T1.
      destruct (IH (take_job clock s)) as (I1 & I2); [done|by apply take_job_sound|done|by rewrite T1| |].
      { unfold load. rewrite T1, T2, T3. cbn in Hn |- *. lia. }
      split; [|done]. rewrite I1. unfold backlog. by rewrite Hslot, T3, T2, Ej.
    + pose proof (finish_job_sound k j s Hs E) as Hsf. cbn [perform starts]. rewrite E.
      destruct (finish_cases k j s Hs E) as [(j' & Hf & Hj & Ef)|[Hf Ef]]; rewrite Ef in *.
      * destruct (IH (set_worker (active_keys s) (Running k j') true (set_follow_up None None s))) as (I1 & I2); [done|done|exact Hd|done| |].
        { unfold load, slot in *. rewrite Hf, Hj, E in Hn. cbn in Hn |- *. lia. }
        split; [|done]. rewrite I1. unfold backlog, slot. by rewrite Hf, Hj.
      * destruct (end_key_fields k s) as (_ & E1 & E2 & E3 & E4 & _ & _). destruct (end_key_not_before k s) as [E5 E6].
        destruct (IH (end_key k s)) as (I1 & I2); [done|done| |by rewrite E4| |].
        { apply (due_intro clock s); [done|done|by rewrite E5]. }
        { unfold load, slot in *. rewrite Hf, E in Hn. rewrite E1, E2, E3, E4, Hf. cbn in Hn |- *. lia. }
        rewrite E4. split; [|done]. cbn [option_list app]. rewrite I1. unfold backlog, slot. by rewrite E1, E2, E3, E6.
Qed.

(** A worker left alone starts everything that waits, each job once and in order (the
    follow-up, then the queue, then the bank), and ends with every key idle, once the
    delays are over. *)
Theorem worker_runs_backlog clock s : reachable s → worker s ≠ NoWorker → (∀ n, 0 <= clock n) →
  (∀ n k t, not_before s !! k = Some t → t <= clock n) →
  (work clock (load s) s).2 = backlog s ∧ ∀ k, ¬ working (work clock (load s) s).1 k.
Proof.
  intros Hs%scheduler_sound Hw H0 Hd. destruct (work_all clock (load s) s H0 Hs) as (H1 & H2 & H3 & H4); [|done|done|].
  { intros n k. unfold held. apply bool_decide_eq_false. destruct (not_before s !! k) as [t|] eqn:E; cbn; [specialize (Hd n k t E); lia|specialize (H0 n); lia]. }
  split; [done|]. intros k. unfold working. destruct (waiting_idle _ H4 H2) as [-> Hf]. intros [Hp|?]; [|set_solver].
  unfold backlog in H3. apply app_nil in H3 as [_ [E1 E2]%app_nil]. unfold pending in Hp. rewrite E1, E2, Hf in Hp. set_solver.
Qed.

(** While the clock does not go back, the search for a due job and the rotation agree: the
    worker never turns its queue in vain. *)
Lemma look_starts clock s n : (∀ m n, (m ≤ n)%nat → clock m <= clock n) → first_due clock 0 s (jobs s) = Some n →
  ∃ k j js, look clock s = begin k j js s ∧ (k, j) :: js ≡ₚ jobs s.
Proof.
  intros Hc E. unfold look. destruct (jobs s) as [|x js] eqn:Ej; [done|]. rewrite <-Ej in *. rewrite E.
  apply first_due_spec in E as (a & k & j & b & m & Ea & Hd & Hm).
  destruct (rotate_returns clock s Hc a (length (jobs s)) n m k j b Hd) as [r Er]; [lia|rewrite Ea, length_app; cbn; lia|].
  rewrite <-Ea in Er. rewrite Er. apply rotate_spec in Er as [Hp (k' & j' & l & _ & -> & _)]. by exists k', j', l.
Qed.

(** ** Sample runs *)

Definition k1 : key := ("db", "one").
Definition k2 : key := ("db", "two").
Definition k3 : key := ("db", "three").
Definition at_five (n : nat) : Z := 5.

Lemma performs_reachable m e ops : reachable (performs ops (new_scheduler m e)).
Proof. apply reachable_performs. by exists m, e. Qed.

Lemma exclusive_key_excludes_witness :
  let s := performs [TryAcquireExclusive k1] (new_scheduler 64 false) in
  reachable s ∧ schedule k1 7 (Some 1) 0 false 3 s = (s, false).
Proof.
  cbn zeta. assert (reachable (performs [TryAcquireExclusive k1] (new_scheduler 64 false))) as Hr by (apply performs_reachable). split; [exact Hr|].
  destruct (exclusive_key_excludes _ k1 Hr) as (_ & _ & _ & H & _); [vm_compute; reflexivity|]. apply H.
Defined.

Lemma drain_owner_waits_witness :
  let s := new_scheduler 64 false in
  let s' := (schedule k1 7 (Some 1) 0 false 3 s).1 in
  owner_drained 1 (performs [TakeJob at_five; FinishJob] s') = true ∧ ∃ before after, [TakeJob at_five; FinishJob] = before ++ after ∧ ¬ working (performs before s') k1.
Proof.
  cbn zeta. assert (owner_drained 1 (performs [TakeJob at_five; FinishJob] (schedule k1 7 (Some 1) 0 false 3 (new_scheduler 64 false)).1) = true) as H
    by (vm_compute; reflexivity).
  split; [exact H|]. apply (drain_owner_waits k1 7 1 0 false 3 (new_scheduler 64 false)); [by exists 64, false|vm_compute; reflexivity| |exact H].
  intros t [?|[?|?%not_elem_of_nil]%elem_of_cons]%elem_of_cons; discriminate || contradiction.
Defined.

Lemma quiesce_final_witness :
  let s := performs [Schedule k1 7 None 0 false 3] (new_scheduler 64 false) in
  pending s k1 ∧ starts (TakeJob at_five) (quiesce s) = None.
Proof.
  cbn zeta. split; [vm_compute; left; left|].
  destruct (quiesce_final (performs [Schedule k1 7 None 0 false 3] (new_scheduler 64 false)) [] (TakeJob at_five) k1 7 None 0 false 3) as (_ & H & _);
    [apply performs_reachable|exact H].
Defined.

(** A running key, its follow-up, and two more keys. *)
Definition sample_ops : list operation :=
  [Schedule k1 1 (Some 1) 0 false 0; TakeJob at_five; Schedule k1 2 (Some 1) 0 false 0; Schedule k2 3 (Some 1) 0 false 0; Schedule k3 4 (Some 1) 0 false 0].

Lemma accepted_work_kept_witness :
  let s := performs sample_ops (new_scheduler 64 false) in
  pending s k1 ∧ ∃ j, starts FinishJob s = Some (k1, j).
Proof.
  cbn zeta. assert (pending (performs sample_ops (new_scheduler 64 false)) k1) as Hp by (vm_compute; right; right; reflexivity). split; [exact Hp|].
  destruct (accepted_work_kept FinishJob _ k1 (performs_reachable 64 false sample_ops) Hp) as [H|[H|[]]]; [|exact H].
  vm_compute in H. exfalso. destruct H as [H|[H|H]]; [| |discriminate H].
  - apply elem_of_cons in H as [H|H]; [discriminate H|]. apply list_elem_of_singleton in H. discriminate H.
  - by apply not_elem_of_nil in H.
Defined.

Lemma worker_runs_backlog_witness :
  let s := performs sample_ops (new_scheduler 64 false) in
  (work at_five (load s) s).2 = [(k1, 2); (k2, 3); (k3, 4)] ∧ ∀ k, ¬ working (work at_five (load s) s).1 k.
Proof.
  cbn zeta. destruct (worker_runs_backlog at_five _ (performs_reachable 64 false sample_ops)) as [H1 H2].
  - vm_compute. discriminate.
  - intros n. unfold at_five. lia.
  - intros n k t E. assert (not_before (performs sample_ops (new_scheduler 64 false)) = ∅) as E0 by (vm_compute; reflexivity).
    rewrite E0, lookup_empty in E. discriminate E.
  - split; [|exact H2]. rewrite H1. vm_compute. reflexivity.
Defined.

(** A finding: with the queue and the bank full, a delayed request of the running key is
    refused and takes with it the follow-up that had been accepted. *)
Definition saturated : scheduler := performs (sample_ops) (new_scheduler 1 true).

Example saturated_delay_drops_follow_up :
  slot saturated = [(k1, 2)] ∧ (schedule k1 5 (Some 1) 9 false 0 saturated).2 = false ∧
  slot (schedule k1 5 (Some 1) 9 false 0 saturated).1 = [] ∧
  backlog (schedule k1 5 (Some 1) 9 false 0 saturated).1 = [(k2, 3); (k3, 4)].
Proof. vm_compute. by split_and!. Qed.
