(* ===== verification/LeafSummary.v ===== *)
(** The summary of one leaf (engine.py [summarize_leaf_chunk_with_rescue] and its
    helpers, compaction.py [select_oldest_leaf_chunk], [_working_leaf_chunk_tokens]):
    which rows go into a chunk, and the adaptive rescue that retries with fewer rows or
    a shorter clip of them.

    The serializer, an attempt and the check of a rescue chunk are operations of a
    [service] over a state of the caller's; [escalating] makes the attempt the
    escalation.  A ratio is a fraction. *)

From S2P Require Import Prelude PyText Messages FreshTail Chunking Truncation SpendGuard CircuitBreaker SummaryOutcome.
From S2P Require Import Escalation EscalationProofs.
From stdpp Require Import options.

#[local] Open Scope Z_scope.

(** ** Configuration *)

Record leaf_config := {
  leaf_chunk_tokens : Z; dynamic_leaf_chunk_enabled : bool; dynamic_leaf_chunk_max : Z;
  leaf_target_ratio : Z * Z; leaf_target_min_tokens : Z; leaf_target_max_tokens : Z }.

(** [_context_aware_leaf_cap] *)
Definition context_aware_leaf_cap (context_length : Z) : option Z :=
  if bool_decide (context_length < 50000) then None else Some (Z.max 1 (context_length * 2 / 5)).

Definition capped (cap : option Z) (n : Z) : Z := match cap with Some c => Z.min n c | None => n end.

(** [while working < ceiling and raw_tokens > working * 2], with a bound on its rounds:
    [None] if it is spent. *)
Fixpoint double_chunk (fuel : nat) (ceiling raw_tokens working : Z) : option Z :=
  if bool_decide (working < ceiling) && bool_decide (raw_tokens > working * 2) then
    match fuel with
    | O => None
    | S fuel => double_chunk fuel ceiling raw_tokens (Z.min ceiling (working * 2))
    end
  else Some working.

Definition chunk_base (cfg : leaf_config) (context_length : Z) : Z :=
  capped (context_aware_leaf_cap context_length) (Z.max 1 (leaf_chunk_tokens cfg)).
Definition chunk_ceiling (cfg : leaf_config) (context_length : Z) : Z :=
  capped (context_aware_leaf_cap context_length) (Z.max (chunk_base cfg context_length) (dynamic_leaf_chunk_max cfg)).

(** [_working_leaf_chunk_tokens] *)
Definition working_leaf_chunk_tokens (cfg : leaf_config) (context_length raw_tokens : Z) : option Z :=
  let base := chunk_base cfg context_length in
  if dynamic_leaf_chunk_enabled cfg then
    let ceiling := chunk_ceiling cfg context_length in
    double_chunk (Z.to_nat (ceiling - base)) ceiling raw_tokens base
  else Some base.

(** [_leaf_target_tokens_for] *)
Definition leaf_target_tokens (cfg : leaf_config) (source_tokens : Z) : Z :=
  Z.min (leaf_target_max_tokens cfg)
    (Z.max (leaf_target_min_tokens cfg) (Z.quot (source_tokens * (leaf_target_ratio cfg).1) (leaf_target_ratio cfg).2)).

Definition LEAF_RESCUE_FLOOR_TOKENS : Z := 8000.

(** ** Chunks *)

Section chunks.
Context `{!Tokens}.

(** How many of the messages fit, the first always. *)
Fixpoint fitting (limit used : Z) (selected : nat) (messages : list row) : nat :=
  match messages with
  | [] => selected
  | m :: messages =>
      let used' := used + count_message_tokens m in
      if bool_decide (limit < used') && bool_decide (selected ≠ O) then selected
      else fitting limit used' (S selected) messages
  end.

Definition select_oldest_leaf_chunk (candidates : list row) (limit : Z) : list row :=
  take (tool_group_safe_end candidates (fitting limit 0 0 candidates)) candidates.

Definition rescue_floor (cfg : leaf_config) : Z := Z.max 1 (Z.min (leaf_chunk_tokens cfg) LEAF_RESCUE_FLOOR_TOKENS).

Definition shrink_targets (cfg : leaf_config) (source_tokens : Z) (final : bool) : list Z :=
  let floor := rescue_floor cfg in
  if final && bool_decide (floor < leaf_chunk_tokens cfg) then [floor]
  else [Z.max floor (source_tokens * 3 / 4); Z.max floor (source_tokens / 2)].

Definition shrunk (chunk : list row) (source_tokens target : Z) : option (list row) :=
  if bool_decide (source_tokens <= target) then None
  else
    let smaller := select_oldest_leaf_chunk chunk target in
    if bool_decide (smaller ≠ []) && bool_decide (length smaller < length chunk)%nat then Some smaller else None.

(** [_next_leaf_rescue_chunk_for] *)
Definition next_leaf_rescue_chunk (cfg : leaf_config) (chunk : list row) (source_tokens : Z) (final : bool) : list row :=
  if bool_decide (length chunk <= 1)%nat then []
  else match omap (shrunk chunk source_tokens) (shrink_targets cfg source_tokens final) with
       | smaller :: _ => smaller
       | [] => take (tool_group_safe_end chunk (length chunk - 1)) chunk
       end.

End chunks.

(** ** The rescue *)

Inductive leaf_error :=
  | SweepBudgetExhausted (why : stop) | UnattributedRescueRefused | LeafPrepUnavailable | RescueExhausted
  | Raised (is_timeout : bool) (message : string).

Record LeafSummaryResult := {
  chunk : list row; source_tokens : Z; summary : text; result_level : Z; attempts : nat; result_model : string;
  content_filter : bool; level_3_verbatim : bool }.

(** What an attempt is called with, and what it answers with its provenance. *)
Record request := { req_text : text; req_source_tokens : Z; req_token_budget : Z; req_verbatim : bool; req_rescue : bool }.
Record answer := {
  ans_text : text; ans_level : Z; ans_model : string; ans_content_filter : bool; ans_context_length : bool }.

Definition RETRY_MARKERS : list string :=
  ["context length"; "maximum context"; "max context"; "too many tokens"; "token limit"; "prompt is too long";
   "input too long"; "request too large"; "timed out"; "timeout"].

(** [_is_retry_worthy_leaf_summary_error], of the errors it is asked about. *)
Definition retry_worthy (e : leaf_error) : bool :=
  match e with
  | Raised is_timeout message => is_timeout || any_occurs RETRY_MARKERS (lower message)
  | _ => false
  end.

(** Code over the caller's state [Σ]. *)
Definition L (Σ A : Type) : Type := Σ → result leaf_error A * Σ.
#[export] Instance L_ret Σ : MRet (L Σ) := λ A a s, (Ok a, s).
#[export] Instance L_bind Σ : MBind (L Σ) := λ A B f m s, match m s with (Ok a, s) => f a s | (Err e, s) => (Err e, s) end.
Definition raise {Σ A} (e : leaf_error) : L Σ A := λ s, (Err e, s).
(** [try: m except: ...]: the error is a value. *)
Definition attempted {Σ A} (m : L Σ A) : L Σ (result leaf_error A) := λ s, let '(r, s) := m s in (Ok r, s).

Record service (Σ : Type) := {
  (** [serialize(chunk, budget_tokens=...)]: the text, and whether it was clipped *)
  serialize : list row → Z → L Σ (text * bool);
  (** the admission by the sweep's budget or deadline, and the call *)
  attempt : request → L Σ answer;
  (** [admit_rescue], which does not raise *)
  admit_rescue : list row → Σ → bool * Σ }.
Arguments serialize {Σ}. Arguments attempt {Σ}. Arguments admit_rescue {Σ}.

Section rescue.
Context `{!Tokens} {Σ : Type}.
Variable cfg : leaf_config.
Variable count : text → Z.
Variable service : service Σ.

Definition clip_floor : Z := Z.min (leaf_chunk_tokens cfg) LEAF_RESCUE_FLOOR_TOKENS.

(** The chunk and the clip budget of the next attempt, when one can be tried: [more]
    attempts remain. *)
Definition rescue_plan (more : nat) (chunk : list row) (source_tokens : Z) (serialized : text) (clip_budget : Z)
    : option (list row * Z) :=
  let rescue_chunk :=
    if bool_decide (more = O) then [] else next_leaf_rescue_chunk cfg chunk source_tokens (bool_decide (more <= 1)%nat) in
  let smaller := bool_decide (rescue_chunk ≠ []) && bool_decide (length rescue_chunk < length chunk)%nat in
  if bool_decide (more ≠ O) && bool_decide (clip_floor < clip_budget) && bool_decide (clip_floor < count serialized)
     && (negb smaller || bool_decide (more <= 1)%nat && bool_decide (clip_floor < count_messages_tokens rescue_chunk))
  then Some (if smaller then rescue_chunk else chunk, clip_floor)
  else if smaller then Some (rescue_chunk, clip_budget) else None.

Definition ask_rescue {A} (c : list row) (k : L Σ A) : L Σ A := λ s,
  let '(ok, s) := admit_rescue service c s in
  if ok : bool then k s else (Err UnattributedRescueRefused, s).

(** The source came back cut because the model refused its size. *)
Definition refused_for_size (serialized : text) (a : answer) : bool :=
  bool_decide (ans_level a = 3) && ans_context_length a && negb (bool_decide (ans_text a = serialized)).

Definition leaf_result (c : list row) (number : nat) (serialized : text) (clipped : bool) (a : answer) : LeafSummaryResult :=
  {| chunk := c; source_tokens := count_messages_tokens c; summary := ans_text a; result_level := ans_level a;
     attempts := number; result_model := ans_model a; content_filter := ans_content_filter a;
     level_3_verbatim := bool_decide (ans_level a = 3) && negb clipped && bool_decide (ans_text a = serialized) |}.

(** [while attempt_chunk and attempt_number < max_attempts], from [max_attempts - attempt_number = more]. *)
Fixpoint rescue_loop (more number : nat) (c : list row) (clip_budget : Z) : L Σ LeafSummaryResult :=
  match more with
  | O => raise RescueExhausted
  | S more =>
      if bool_decide (c = []) then raise RescueExhausted
      else
        let tokens := count_messages_tokens c in
        '(serialized, clipped) ← serialize service c clip_budget;
        let plan := rescue_plan more c tokens serialized clip_budget in
        r ← attempted (attempt service
              {| req_text := serialized; req_source_tokens := tokens; req_token_budget := leaf_target_tokens cfg tokens;
                 req_verbatim := negb clipped; req_rescue := bool_decide (plan ≠ None) |});
        match r, plan with
        | Ok a, Some (c', clip') =>
            if refused_for_size serialized a
            then ask_rescue c' (rescue_loop more (S number) c' clip')
            else mret (leaf_result c (S number) serialized clipped a)
        | Ok a, None => mret (leaf_result c (S number) serialized clipped a)
        | Err e, Some (c', clip') =>
            if retry_worthy e && bool_decide (more ≠ O) then ask_rescue c' (rescue_loop more (S number) c' clip') else raise e
        | Err e, None => raise e
        end
  end.

Definition MAX_ATTEMPTS : nat := 3.

Definition summarize_leaf_chunk_with_rescue (initial_chunk : list row) : L Σ LeafSummaryResult :=
  rescue_loop MAX_ATTEMPTS 0 initial_chunk (leaf_chunk_tokens cfg).

End rescue.

(** ** The escalation as the attempt *)

Section escalating.
Variable clock : nat → Z.
Variable call_model : nat → text → Z → string → option Z → SummaryOutcome.attempt.
Variable count : text → Z.
Variable l1_prompt l2_prompt : text → Z → text.
Variable truncate : text → Z → text.
(** The routes and the time limits of the call. *)
Variable base : options.
Variable ratio : Z * Z.
Variable l3_truncate_tokens prompt_version : Z.

Definition no_provenance : provenance := {| prov_model := None; content_filter_error := false; context_length_error := false |}.

(** [_primary_summary_route_for] *)
Fixpoint first_allowed (default_route : string) (routes : list string) : M string :=
  match routes with
  | [] => mret default_route
  | m :: routes => ok ← ask_breaker clock m; if ok : bool then mret m else first_allowed default_route routes
  end.
Definition primary_summary_route : M string :=
  let chain := summary_model_chain (opt_model base) (opt_fallback base) in first_allowed (default "" (head chain)) chain.

(** [budget.admit], which reads the clock and keeps the reason of a stop. *)
Definition admit_start (route_key : string) : M unit :=
  now ← tick clock;
  b ← read budget_of;
  match b with
  | Some b => match admit_call route_key now b with inl e => raise_stop e | inr _ => mret tt end
  | None => mret tt
  end.

(** The timeout of the attempt, once the budget or the deadline admits it. *)
Definition admission : M (option Z) :=
  b ← read budget_of;
  match b, opt_deadline base with
  | Some _, _ => k ← primary_summary_route; _ ← admit_start k; mret (opt_timeout base)
  | None, Some deadline =>
      now ← tick clock;
      if bool_decide (deadline - now < MIN_CALL_SECONDS) then throw TimeBudgetExhausted
      else mret (Some (match opt_timeout base with Some t => Z.min t (deadline - now) | None => deadline - now end))
  | None, None => mret (opt_timeout base)
  end.

Definition call_options (timeout : option Z) (r : request) : options :=
  {| opt_model := opt_model base; opt_fallback := opt_fallback base; opt_timeout := timeout; opt_deadline := opt_deadline base;
     opt_prefix := opt_prefix base; opt_source_tokens := req_source_tokens r; opt_verbatim := req_verbatim r;
     opt_rescue := req_rescue r |}.

Definition call (r : request) : M answer :=
  timeout ← admission;
  _ ← modify (set_prov no_provenance);
  '(t, l) ← summarize_with_escalation clock call_model count l1_prompt l2_prompt truncate (call_options timeout r) (req_text r)
              (req_token_budget r) ratio l3_truncate_tokens prompt_version;
  p ← read prov;
  mret {| ans_text := t; ans_level := l; ans_model := default "" (prov_model p);
          ans_content_filter := content_filter_error p; ans_context_length := context_length_error p |}.

Definition escalate (r : request) : L Escalation.state answer := λ s,
  match call r s with
  | (inr a, s) => (Ok a, s)
  | (inl e, s) => (Err (SweepBudgetExhausted e), s)
  end.

Definition escalating (ser : list row → Z → L Escalation.state (text * bool)) (ask : list row → Escalation.state → bool * Escalation.state)
    : service Escalation.state :=
  {| serialize := ser; attempt := escalate; admit_rescue := ask |}.

End escalating.

(** ** The size of a chunk *)

Lemma double_chunk_spec ceiling raw fuel : ∀ working, 0 < working <= ceiling → (Z.to_nat (ceiling - working) ≤ fuel)%nat →
  ∃ out, double_chunk fuel ceiling raw working = Some out ∧ working <= out <= ceiling ∧
    (out = ceiling ∨ raw <= 2 * out) ∧ (out = working ∨ out < raw).
Proof.
  induction fuel as [|fuel IH]; intros w Hw Hf; cbn [double_chunk].
  - rewrite (bool_decide_eq_false_2 (w < ceiling)) by lia. exists w. cbn [andb]. split; [done|]. lia.
  - case_bool_decide; cbn [andb]; [|exists w; split; [done|]; lia].
    case_bool_decide; [|exists w; split; [done|]; lia].
    destruct (IH (Z.min ceiling (w * 2))) as (out & -> & ? & ? & ?); [lia|lia|].
    exists out. split; [done|]. lia.
Qed.

Lemma chunk_bounds cfg ctx : 0 < chunk_base cfg ctx <= chunk_ceiling cfg ctx.
Proof.
  unfold chunk_base, chunk_ceiling, chunk_base, context_aware_leaf_cap, capped. case_bool_decide; lia.
Qed.

(** The size of a leaf chunk: the doubling always ends, between the configured size
    and the dynamic maximum, both cut to the share of the context a leaf may take; it
    stops at the first size that holds half of the raw tokens, and never reaches past
    them when it grows. *)
Theorem chunk_size_bounded cfg ctx raw : ∃ n, working_leaf_chunk_tokens cfg ctx raw = Some n ∧
  chunk_base cfg ctx <= n <= chunk_ceiling cfg ctx ∧
  (50000 <= ctx → n <= ctx * 2 / 5) ∧
  (dynamic_leaf_chunk_enabled cfg = true → n = chunk_ceiling cfg ctx ∨ raw <= 2 * n) ∧
  (n = chunk_base cfg ctx ∨ n < raw).
Proof.
  pose proof (chunk_bounds cfg ctx) as Hb.
  assert (∀ n, n <= chunk_ceiling cfg ctx → 50000 <= ctx → n <= ctx * 2 / 5) as Hcap.
  { intros n Hn Hc. unfold chunk_ceiling, context_aware_leaf_cap in Hn. rewrite bool_decide_eq_false_2 in Hn by lia.
    cbn [capped] in Hn. pose proof (Z.div_le_lower_bound (ctx * 2) 5 1 ltac:(lia) ltac:(lia)). lia. }
  unfold working_leaf_chunk_tokens. destruct (dynamic_leaf_chunk_enabled cfg).
  - destruct (double_chunk_spec (chunk_ceiling cfg ctx) raw (Z.to_nat (chunk_ceiling cfg ctx - chunk_base cfg ctx)) (chunk_base cfg ctx))
      as (n & E & Hn & H1 & H2); [lia|lia|]. exists n. split; [done|]. split; [lia|]. split; [apply Hcap; lia|]. by split.
  - exists (chunk_base cfg ctx). split; [done|]. split; [lia|]. split; [apply Hcap; lia|]. split; [done|by left].
Qed.

(** ** Which rows are chosen *)

Section chosen.
Context `{!Tokens}.

Lemma tokens_prefix `{!TokensOk} (ms : list row) i j : (i <= j)%nat → count_messages_tokens (take i ms) <= count_messages_tokens (take j ms).
Proof.
  intros Hij. replace (take i ms) with (take i (take j ms)) by (rewrite take_take; f_equal; lia).
  rewrite <-(take_drop i (take j ms)) at 2. rewrite count_messages_tokens_app.
  pose proof (count_messages_tokens_nonneg (drop i (take j ms))). lia.
Qed.

Lemma fitting_spec limit ms : ∀ used selected,
  ∃ k, fitting limit used selected ms = (selected + k)%nat ∧ (k ≤ length ms)%nat ∧
    (selected = O → ms ≠ [] → 0 < k)%nat ∧
    (k = O ∨ selected = O ∧ k = 1%nat ∨ used + count_messages_tokens (take k ms) <= limit) ∧
    (k = length ms ∨ limit < used + count_messages_tokens (take (S k) ms)).
Proof.
  induction ms as [|m ms IH]; intros used selected; cbn [fitting].
  { exists O. cbn. split_and!; [lia|lia|done|by left|by left]. }
  destruct (bool_decide (limit < used + count_message_tokens m) && bool_decide (selected ≠ O)) eqn:Hstop.
  - apply andb_true_iff in Hstop as [Ho%bool_decide_eq_true Hs%bool_decide_eq_true].
    exists O. cbn [take]. rewrite count_messages_tokens_cons. change (count_messages_tokens (take 0 ms)) with 0.
    split_and!; [lia|lia|lia|by left|right; lia].
  - destruct (IH (used + count_message_tokens m) (S selected)) as (k & -> & Hk & _ & Hfit & Hmax).
    exists (S k). cbn [length take]. rewrite count_messages_tokens_cons.
    split; [lia|]. split; [lia|]. split; [lia|]. split.
    + destruct Hfit as [->|[[? _]|Hfit]]; [|lia|right; right; lia].
      right. apply andb_false_iff in Hstop as [Ho|Hs].
      * apply bool_decide_eq_false in Ho. right. change (count_messages_tokens (take 0 ms)) with 0. lia.
      * apply bool_decide_eq_false in Hs. left. split; [|done]. destruct selected; [done|]. exfalso. by apply Hs.
    + destruct Hmax as [?|Hmax]; [left; lia|right]. rewrite count_messages_tokens_cons. lia.
Qed.

(** The oldest chunk of some rows: it is a prefix that is not empty and cuts no tool
    group; it keeps within the limit unless its first row or its first group alone
    exceeds it; and a longer prefix would exceed the limit, or cut the group that the
    chunk stops before. *)
Theorem oldest_chunk_whole `{!TokensOk} candidates limit : candidates ≠ [] →
  let n := length (select_oldest_leaf_chunk candidates limit) in
  select_oldest_leaf_chunk candidates limit = take n candidates ∧ (0 < n)%nat ∧ ¬ splits candidates n ∧
  (n = 1%nat ∨ (∃ e, (e < n)%nat ∧ FreshTail.opens candidates 0 e) ∨ count_messages_tokens (take n candidates) <= limit) ∧
  (n = length candidates ∨ limit < count_messages_tokens (take (S n) candidates) ∨ ∃ e, (n < e)%nat ∧ FreshTail.opens candidates n e).
Proof.
  intros Hne. cbv zeta. unfold select_oldest_leaf_chunk. rewrite length_take.
  destruct (fitting_spec limit candidates 0 0) as (k & -> & Hk & Hpos & Hfit & Hmax). cbn [Nat.add]. specialize (Hpos eq_refl Hne).
  destruct (safe_end_whole candidates k) as (Hw & Hb & Hup & Hdown & _); [lia|].
  rewrite (Nat.min_l _ (length candidates)) by lia. revert Hw Hb Hup Hdown.
  generalize (tool_group_safe_end candidates k). intros n Hw Hb Hup Hdown.
  split; [done|]. split; [lia|]. split; [done|]. split.
  - destruct (decide (k < n)%nat) as [Hlt|Hge]; [right; left; exists k; split; [done|by apply Hup]|].
    destruct Hfit as [?|[[_ ?]|Hfit]]; [lia|left; lia|]. right. right.
    pose proof (tokens_prefix candidates n k ltac:(lia)). lia.
  - destruct (decide (n < k)%nat) as [Hlt|Hge]; [right; right; exists k; split; [done|by apply Hdown]|].
    destruct Hmax as [?|Hmax]; [left; lia|]. right. left. pose proof (tokens_prefix candidates (S k) (S n) ltac:(lia)). lia.
Qed.

End chosen.

(** ** What the rescue returns *)

Section rescued.
Context `{!Tokens} {Σ : Type}.
Variable cfg : leaf_config.
Variable count : text → Z.
Variable service : service Σ.

Lemma splits_take ms k i : (i < k)%nat → splits (take k ms) i ↔ splits ms i.
Proof.
  intros Hi. unfold splits, FreshTail.opens. apply exist_proper. intros j.
  assert (∀ x, (x < k)%nat → take k ms !! x = ms !! x) as Hl by (intros x Hx; by rewrite lookup_take_lt by lia).
  split; intros (m & r & Hm & Hr & Hj & H1 & H2 & H3 & H4 & Hb); exists m, r.
  - rewrite Hl in Hm, Hr by lia. split_and!; try done. intros x y Hx Hy. apply (Hb x y Hx). by rewrite Hl by lia.
  - rewrite !Hl by lia. split_and!; try done. intros x y Hx Hy. apply (Hb x y Hx). by rewrite Hl in Hy by lia.
Qed.

(** [c] is a prefix of [ms] that is not empty and cuts no tool group. *)
Definition whole_prefix (c ms : list row) : Prop :=
  ∃ n, c = take n ms ∧ (0 < n ≤ length ms)%nat ∧ (n = length ms ∨ ¬ splits ms n).

Lemma whole_prefix_refl ms : ms ≠ [] → whole_prefix ms ms.
Proof.
  intros Hne. exists (length ms). rewrite firstn_all. split_and!; [done| |done|by left]. destruct ms; [done|cbn; lia].
Qed.
Lemma whole_prefix_trans c d ms : whole_prefix c d → whole_prefix d ms → whole_prefix c ms.
Proof.
  intros (n & -> & Hn & Hs) (k & -> & Hk & Hs'). rewrite length_take in Hn, Hs. exists n. rewrite take_take, Nat.min_l by lia.
  split; [done|]. split; [lia|]. destruct (decide (n = k)) as [->|Hne]; [done|].
  right. destruct Hs as [?|Hs]; [lia|]. by rewrite splits_take in Hs by lia.
Qed.
Lemma whole_prefix_not_nil c ms : whole_prefix c ms → c ≠ [].
Proof. intros (n & -> & Hn & _). intros E%(f_equal length). rewrite length_take in E. cbn in E. lia. Qed.

Lemma safe_prefix ms e : (0 < e ≤ length ms)%nat → whole_prefix (take (tool_group_safe_end ms e) ms) ms.
Proof.
  intros He. destruct (safe_end_whole ms e He) as (Hw & Hb & _). exists (tool_group_safe_end ms e). split; [done|]. split; [done|by right].
Qed.

Lemma oldest_prefix ms limit : ms ≠ [] → whole_prefix (select_oldest_leaf_chunk ms limit) ms.
Proof.
  intros Hne. apply safe_prefix. destruct (fitting_spec limit ms 0 0) as (k & -> & Hk & Hpos & _). specialize (Hpos eq_refl Hne). lia.
Qed.

Lemma rescue_chunk_prefix c tokens final : next_leaf_rescue_chunk cfg c tokens final = [] ∨
  whole_prefix (next_leaf_rescue_chunk cfg c tokens final) c.
Proof.
  unfold next_leaf_rescue_chunk. case_bool_decide as Hl; [by left|right].
  assert (c ≠ []) as Hne by (intros ->; cbn in Hl; lia).
  destruct (omap _ _) as [|smaller l] eqn:E; [apply safe_prefix; lia|].
  assert (smaller ∈ omap (shrunk c tokens) (shrink_targets cfg tokens final)) as (t & _ & Ht)%list_elem_of_omap by (rewrite E; left).
  unfold shrunk in Ht. case_bool_decide; [done|]. destruct (_ && _); [|done]. injection Ht as <-. by apply oldest_prefix.
Qed.

(** The next attempt is smaller: fewer rows, or the same rows clipped to the floor for
    the first time. *)
Lemma rescue_plan_smaller more c tokens ser clip c' clip' : c ≠ [] → rescue_plan cfg count more c tokens ser clip = Some (c', clip') →
  more ≠ O ∧ whole_prefix c' c ∧ ((length c' < length c)%nat ∨ c' = c ∧ clip' < clip) ∧ (clip' = clip ∨ clip' = clip_floor cfg).
Proof.
  intros Hne. unfold rescue_plan. cbn zeta.
  set (rc := if bool_decide (more = O) then [] else next_leaf_rescue_chunk cfg c tokens (bool_decide (more <= 1)%nat)).
  set (smaller := bool_decide (rc ≠ []) && bool_decide (length rc < length c)%nat).
  assert (smaller = true → more ≠ O ∧ whole_prefix rc c ∧ (length rc < length c)%nat) as Hsm.
  { intros [Hn%bool_decide_eq_true Hlt%bool_decide_eq_true]%andb_true_iff. subst rc. case_bool_decide; [done|].
    split; [done|]. split; [|done]. by destruct (rescue_chunk_prefix c tokens (bool_decide (more <= 1)%nat)). }
  destruct (_ && _ && _ && _) eqn:Hclip.
  - apply andb_true_iff in Hclip as [[[Hl%bool_decide_eq_true Hf%bool_decide_eq_true]%andb_true_iff _]%andb_true_iff _].
    intros [= <- <-]. split; [done|]. destruct smaller; [destruct (Hsm eq_refl) as (_ & ? & ?)|].
    + split; [done|]. split; [by left|by right].
    + split; [by apply whole_prefix_refl|]. split; [right; split; [done|lia]|by right].
  - destruct smaller; [|done]. intros [= <- <-]. destruct (Hsm eq_refl) as (? & ? & ?).
    split; [done|]. split; [done|]. split; [by left|by left].
Qed.

(** The attempt a result comes from: it was asked about the result's chunk, and what it
    answered was returned; a source cut because of its size is returned only when
    nothing smaller could be tried. *)
Definition comes_from (initial : list row) (r : LeafSummaryResult) : Prop :=
  whole_prefix (chunk r) initial ∧ source_tokens r = count_messages_tokens (chunk r) ∧ (1 ≤ attempts r ≤ MAX_ATTEMPTS)%nat ∧
  ∃ rq a clip s0 s1 s2,
    serialize service (chunk r) clip s0 = (Ok (req_text rq, negb (req_verbatim rq)), s1) ∧ attempt service rq s1 = (Ok a, s2) ∧
    req_source_tokens rq = source_tokens r ∧ req_token_budget rq = leaf_target_tokens cfg (source_tokens r) ∧
    summary r = ans_text a ∧ result_level r = ans_level a ∧
    (refused_for_size (req_text rq) a = true → req_rescue rq = false) ∧
    level_3_verbatim r = bool_decide (ans_level a = 3) && req_verbatim rq && bool_decide (summary r = req_text rq).

(** An error that the rescue raises is one of the service's, but for the refusal of a
    rescue chunk. *)
Definition service_error (e : leaf_error) : Prop :=
  e = UnattributedRescueRefused ∨ (∃ c clip s s', serialize service c clip s = (Err e, s')) ∨ ∃ rq s s', attempt service rq s = (Err e, s').

Lemma rescue_loop_spec initial more : ∀ number c clip s, (0 < more)%nat → (number + more = MAX_ATTEMPTS)%nat → whole_prefix c initial →
  match rescue_loop cfg count service more number c clip s with
  | (Ok r, _) => comes_from initial r
  | (Err e, _) => service_error e
  end.
Proof.
  induction more as [|more IH]; intros number c clip s Hl Hn Hc; [lia|]. cbn [rescue_loop].
  pose proof (whole_prefix_not_nil _ _ Hc) as Hne. rewrite bool_decide_eq_false_2 by done.
  unfold mbind, L_bind, attempted. destruct (serialize service c clip s) as [[[ser clipped]|e] s1] eqn:Hser.
  2: { right. left. by eexists _, _, _, _. }
  cbn beta iota. set (plan := rescue_plan cfg count more c (count_messages_tokens c) ser clip).
  set (rq := {| req_text := ser |}). destruct (attempt service rq s1) as [r s2] eqn:Hat. cbn beta iota.
  assert (∀ a, r = Ok a → (plan = None ∨ refused_for_size ser a = false) → comes_from initial (leaf_result c (S number) ser clipped a)) as Hresult.
  { intros a -> Hr. split; [done|]. split; [done|]. split; [cbn; unfold MAX_ATTEMPTS in *; lia|].
    exists rq, a, clip, s, s1, s2. subst rq. cbn. rewrite negb_involutive. split; [done|]. split; [done|].
    do 4 (split; [done|]). split; [|by destruct clipped].
    intros Href. destruct Hr as [->|Hr]; [done|congruence]. }
  assert (∀ c' clip' s', plan = Some (c', clip') →
    match ask_rescue service c' (rescue_loop cfg count service more (S number) c' clip') s' with
    | (Ok r0, _) => comes_from initial r0 | (Err e, _) => service_error e end) as Hretry.
  { intros c' clip' s' Hp. destruct (rescue_plan_smaller _ _ _ _ _ _ _ Hne Hp) as (Hl0 & Hc' & _).
    unfold ask_rescue. destruct (admit_rescue service c' s') as [[] s3]; [|by left].
    apply IH; [lia|lia|by eapply whole_prefix_trans]. }
  destruct r as [a|e].
  2: { assert (service_error e) as He by (right; right; by eexists _, _, _).
    destruct plan as [[c' clip']|] eqn:Hp; [|exact He]. destruct (_ && _); [|exact He]. by apply Hretry. }
  destruct plan as [[c' clip']|] eqn:Hp; [|apply Hresult; [done|by left]].
  destruct (refused_for_size ser a) eqn:Href; [by apply Hretry|]. apply Hresult; [done|by right].
Qed.

End rescued.

(** ** The theorems *)

Section theorems.
Context `{!Tokens}.

(** The rescue ends within three attempts: with a summary that one attempt gave for
    the result's chunk, a prefix of the chunk asked for that is not empty and cuts no
    tool group, or with an error of the serializer or of an attempt, or the refusal of a
    smaller chunk; a source cut for its size is returned only when nothing smaller was
    left to try. *)
Theorem rescue_returns {Σ} cfg count (service : service Σ) initial s : initial ≠ [] →
  match summarize_leaf_chunk_with_rescue cfg count service initial s with
  | (Ok r, _) => comes_from cfg service initial r
  | (Err e, _) => service_error service e
  end.
Proof. intros Hne. apply rescue_loop_spec; [unfold MAX_ATTEMPTS; lia|done|by apply whole_prefix_refl]. Qed.

Section escalated.
Variable clock : nat → Z.
Variable call_model : nat → text → Z → string → option Z → SummaryOutcome.attempt.
Variable enc : option encoder.
Variable l1_prompt l2_prompt : text → Z → text.
Variable base : options.
Variable ratio : Z * Z.
Variable l3_truncate_tokens prompt_version : Z.
Variable ser : list row → Z → L Escalation.state (text * bool).
Variable ask : list row → Escalation.state → bool * Escalation.state.

#[local] Abbreviation leaf_service :=
  (escalating clock call_model (count_tokens enc) l1_prompt l2_prompt (truncate_with enc) base ratio l3_truncate_tokens prompt_version ser ask).

Lemma call_spec r s a s' : 0 <= l3_truncate_tokens →
  escalate clock call_model (count_tokens enc) l1_prompt l2_prompt (truncate_with enc) base ratio l3_truncate_tokens prompt_version r s
    = (Ok a, s') →
  ∃ timeout s0, summary_of (count_tokens enc) (truncate_with enc) (call_options base timeout r) (req_text r) l3_truncate_tokens s0 s'
    (ans_text a) (ans_level a).
Proof.
  intros Hl3. unfold escalate, call, mbind, M_bind. destruct (admission clock base s) as [[e|timeout] s1]; [done|]. cbn.
  pose proof (summarize_result clock call_model (count_tokens enc) l1_prompt l2_prompt (truncate_with enc) (call_options base timeout r) (req_text r)
                (req_token_budget r) ratio l3_truncate_tokens prompt_version (set_prov no_provenance s1) (or_introl Hl3)) as Hw.
  unfold EscalationProofs.wp in Hw. destruct (summarize_with_escalation _ _ _ _ _ _ _ _ _ _ _ _ _) as [[e|[t l]] s2]; [done|].
  cbn in Hw |- *. intros [= <- <-]. eexists _, _. exact Hw.
Qed.


End escalated.
End theorems.

(** ** Witnesses *)

#[local] Instance leaf_tokens : Tokens := {| Messages.count_tokens := λ s, Z.of_nat (String.length s); image_token_cost := 1500 |}.
#[local] Instance leaf_tokens_ok : TokensOk.
Proof. split; cbn; [intros s; apply Nat2Z.is_nonneg|lia]. Qed.

Definition said (r s : string) : row :=
  {| Messages.role := Some r; Messages.text := s; images := 0; tool_calls := []; tool_call_id := Absent |}.
Definition chat : list row := [said "user" "aaaaaa"; said "assistant" "bbbbbb"; said "user" "cccccc"; said "assistant" "dddddd"]%string.
Definition sample_leaf_config : leaf_config :=
  {| leaf_chunk_tokens := 40; dynamic_leaf_chunk_enabled := true; dynamic_leaf_chunk_max := 100; leaf_target_ratio := (1, 5);
     leaf_target_min_tokens := 10; leaf_target_max_tokens := 10 |}.

(** The model refuses more than two rows for their size. *)
Definition small_service : service unit :=
  {| serialize := λ c _ s, (Ok ((λ _, 65) <$> c, false), s);
     attempt := λ r s, (if bool_decide (2 < length (req_text r))%nat then Err (Raised false "Maximum context length exceeded")
                        else Ok {| ans_text := [66]; ans_level := 1; ans_model := "m"; ans_content_filter := false; ans_context_length := false |}, s);
     admit_rescue := λ _ s, (true, s) |}.

Example sizes_double : working_leaf_chunk_tokens sample_leaf_config 1000 170 = Some 100 ∧ working_leaf_chunk_tokens sample_leaf_config 1000 100 = Some 80 ∧
  working_leaf_chunk_tokens sample_leaf_config 1000 80 = Some 40.
Proof. vm_compute. done. Qed.

(** Four rows, then three, then two. *)
Definition rescued : LeafSummaryResult :=
  {| chunk := take 2 chat; source_tokens := 20; summary := [66]; result_level := 1; attempts := 3; result_model := "m"; content_filter := false;
     level_3_verbatim := false |}.
Lemma rescue_shrinks : summarize_leaf_chunk_with_rescue sample_leaf_config (λ t, Z.of_nat (length t)) small_service chat tt = (Ok rescued, tt).
Proof. vm_compute. reflexivity. Qed.

Theorem rescue_returns_witness : comes_from sample_leaf_config small_service chat rescued.
Proof.
  assert (chat ≠ []) as Hne by discriminate.
  pose proof (rescue_returns sample_leaf_config (λ t, Z.of_nat (length t)) small_service chat tt Hne) as H. rewrite rescue_shrinks in H. exact H.
Defined.

Theorem oldest_chunk_whole_witness : ¬ splits chat (length (select_oldest_leaf_chunk chat 25)).
Proof.
  assert (chat ≠ []) as Hne by discriminate.
  exact (proj1 (proj2 (proj2 (oldest_chunk_whole chat 25 Hne)))).
Defined.

(** The escalation over the sample routes: a short answer for a chunk of forty tokens. *)
Definition sample_ser (c : list row) (_ : Z) : L Escalation.state (text * bool) := λ s, (Ok (sample_source, false), s).
Definition sample_ask (_ : list row) (s : Escalation.state) : bool * Escalation.state := (true, s).
Definition sample_leaf_run : result leaf_error LeafSummaryResult * Escalation.state :=
  summarize_leaf_chunk_with_rescue sample_leaf_config (Truncation.count_tokens None)
    (escalating Z.of_nat sample_model (Truncation.count_tokens None) (λ t _, t) (λ t _, t) (truncate_with None) sample_options (1, 2) 5 1 sample_ser sample_ask)
    chat sample_state.
Definition sample_leaf : LeafSummaryResult :=
  {| chunk := chat; source_tokens := 40; summary := ascii_text "short"; result_level := 1; attempts := 1; result_model := "b"; content_filter := false;
     level_3_verbatim := false |}.
Definition sample_final : Escalation.state := sample_leaf_run.2.
Lemma sample_leaf_returned : sample_leaf_run = (Ok sample_leaf, sample_final).
Proof. vm_compute. reflexivity. Qed.

