(* ===== verification/LeafPrep.v ===== *)
(** Preparing leaves off-turn (leaf_prep.py): the queue of jobs and the cache of prepared
    leaves of the process, and the worker that reads the rows above the durable frontier,
    picks whole chunks of them and summarizes each through the leaf rescue.

    A job is a sequence of accesses: critical sections of the lock, reads of the database
    and of the live objects of the foreground.  Other threads act between them: [others n]
    is what they did before the [n]-th access.  The decoding and redaction of a stored row,
    the hashes and the host's configuration are arguments.  Shares of the context window
    are compared in hundredths of a token; an [OrderedDict] is an association list. *)

From Stdlib Require Import Ascii.
From S2P Require Import Prelude PyText Lifecycle Publication Messages FreshTail Chunking SpendGuard CircuitBreaker SummaryOutcome.
From S2P Require Import Escalation LeafSummary.
From stdpp Require Import options.

#[local] Open Scope Z_scope.

(** ** Ordered dictionaries *)

Section ordered.
Context {K V : Type} `{!EqDecision K}.
Implicit Types (d : list (K * V)) (k : K).

Fixpoint od_get k d : option V :=
  match d with (a, v) :: d => if bool_decide (a = k) then Some v else od_get k d | [] => None end.
Definition od_delete k d : list (K * V) := filter (λ p, p.1 ≠ k) d.
Definition od_set k (v : V) d : list (K * V) :=
  if bool_decide (k ∈ d.*1) then (λ p, if bool_decide (p.1 = k) then (k, v) else p) <$> d else d ++ [(k, v)].
Definition od_move_to_end k d : list (K * V) :=
  match od_get k d with Some v => od_delete k d ++ [(k, v)] | None => d end.

End ordered.

(** ** Data *)

(** A row of [messages] with its [store_id]. *)
Abbreviation stored := (Z * message_row)%type.

Record PreparedLeaf := {
  leaf_session : string; leaf_conversation : string; start_frontier : Z; covered_store_ids : list Z; excluded_store_ids : list Z;
  digest : string; route_fingerprint : string; summary : text; level : Z; leaf_model : string;
  source_tokens : Z; summary_tokens : Z }.
#[global] Instance PreparedLeaf_eq_dec : EqDecision PreparedLeaf.
Proof. solve_decision. Defined.

Definition covered_end (l : PreparedLeaf) : Z := foldr Z.max (start_frontier l) (covered_store_ids l).

Record prep_config := {
  summary_model : string; summary_fallback_models : list string; leaf : leaf_config; fresh_tail_count : Z;
  background_leaf_prep_max_calls : Z; background_leaf_prep_window_s : Z; summary_spend_backoff_seconds : Z }.

(** [store] and [content] of a record of a marked dependent reply. *)
Record dependent_record := { store_fingerprint : option string; content_fingerprint : option string }.

Record Job := {
  db_path : string; hermes_home : string; job_session : string; job_conversation : string; frontier : Z; generation : Z;
  config : prep_config; fingerprint : string; tokens : Z; threshold_tokens : Z; context_length : Z; fresh_tail_max_tokens : Z;
  dependent_records : list dependent_record }.

Definition key : Type := string * string.
Definition job_key (j : Job) : key := (db_path j, job_conversation j).

(** The process-wide state under the lock. *)
Record prep := {
  jobs : list (key * Job); cache : list (key * list PreparedLeaf); generations : gmap string Z;
  counters : gmap string Z; running : bool }.

Definition _LEAF_PREP : prep := {| jobs := []; cache := []; generations := ∅; counters := ∅; running := false |}.

Definition set_jobs (js : list (key * Job)) (p : prep) : prep :=
  {| jobs := js; cache := cache p; generations := generations p; counters := counters p; running := running p |}.
Definition set_cache (c : list (key * list PreparedLeaf)) (p : prep) : prep :=
  {| jobs := jobs p; cache := c; generations := generations p; counters := counters p; running := running p |}.
Definition set_generations (g : gmap string Z) (p : prep) : prep :=
  {| jobs := jobs p; cache := cache p; generations := g; counters := counters p; running := running p |}.
Definition set_running (b : bool) (p : prep) : prep :=
  {| jobs := jobs p; cache := cache p; generations := generations p; counters := counters p; running := b |}.
Definition count_by (name : string) (n : Z) (p : prep) : prep :=
  {| jobs := jobs p; cache := cache p; generations := generations p;
     counters := <[name := default 0 (counters p !! name) + n]> (counters p); running := running p |}.

Definition PER_CONVERSATION : nat := 16.
Definition PER_PROCESS : nat := 64.
Definition SCAN_LIMIT : nat := 2000.
Definition MIN_FOREGROUND_SLOTS : Z := 2.

(** ** The queue and the cache *)

Definition generation_of (path : string) (p : prep) : Z := default 0 (generations p !! path).

Definition enqueue (j : Job) (p : prep) : prep * bool :=
  if bool_decide (generation j ≠ generation_of (db_path j) p) then (p, false)
  else
    let p := if bool_decide (job_key j ∈ (jobs p).*1) then count_by "jobs_superseded" 1 p else p in
    let p := set_jobs (od_delete (job_key j) (jobs p) ++ [(job_key j, j)]) p in
    (count_by "jobs_enqueued" 1 p, true).

Definition cached (k : key) (p : prep) : list PreparedLeaf := default [] (od_get k (cache p)).

Definition discard (path : string) (p : prep) : prep :=
  let p := set_generations (<[path := generation_of path p + 1]> (generations p)) p in
  let p := set_jobs (filter (λ e, e.1.1 ≠ path) (jobs p)) p in
  let gone := filter (λ e, e.1.1 = path) (cache p) in
  let p := foldl (λ p e, count_by "wasted" (Z.of_nat (length e.2)) p) p gone in
  set_cache (filter (λ e, e.1.1 ≠ path) (cache p)) p.

Definition remove_locked (k : key) (leaves : list PreparedLeaf) (reason : option string) (p : prep) : prep :=
  match cached k p with
  | [] => p
  | here =>
      let dropped := filter (λ l, l ∈ leaves) here in
      let p := match reason with Some r => count_by ("rejected_" +:+ r) (Z.of_nat (length dropped)) p | None => p end in
      match filter (λ l, l ∉ leaves) here with
      | [] => set_cache (od_delete k (cache p)) p
      | remaining => set_cache (od_set k remaining (cache p)) p
      end
  end.

(** [{leaf.start_frontier: leaf for leaf in leaves}] at [f]: the last one. *)
Definition by_start (leaves : list PreparedLeaf) (f : Z) : option PreparedLeaf :=
  last (filter (λ l, start_frontier l = f) leaves).

(** [while cursor in by_start], with a bound on its rounds: [None] if it is spent. *)
Fixpoint follow (fuel : nat) (leaves : list PreparedLeaf) (cursor : Z) : option (list PreparedLeaf) :=
  match by_start leaves cursor with
  | None => Some []
  | Some l =>
      match fuel with
      | O => None
      | S fuel => cons l <$> follow fuel leaves (covered_end l)
      end
  end.

Definition ready_chain (path conversation : string) (f : Z) (p : prep) : option (prep * list PreparedLeaf) :=
  let k := (path, conversation) in
  match cached k p with
  | [] => Some (p, [])
  | leaves =>
      let p := set_cache (od_move_to_end k (cache p)) p in
      chain ← follow (length leaves) leaves f;
      let stale := filter (λ l, l ∉ chain) leaves in
      Some (if bool_decide (stale = []) then p else remove_locked k stale (Some "frontier_moved") p, chain)
  end.

Definition reject (path conversation : string) (leaves : list PreparedLeaf) (reason : string) (p : prep) : prep :=
  remove_locked (path, conversation) leaves (Some reason) p.

Definition promoted (path conversation : string) (l : PreparedLeaf) (p : prep) : prep :=
  count_by "promoted" 1 (remove_locked (path, conversation) [l] None p).

Definition cached_leaves (p : prep) : nat := sum_list_with (λ e, length e.2) (cache p).

(** [while sum(...) > _PER_PROCESS], which removes a key each round. *)
Fixpoint evict (fuel : nat) (k : key) (p : prep) : prep :=
  match fuel, cache p with
  | S fuel, (oldest, leaves) :: _ =>
      if bool_decide (PER_PROCESS < cached_leaves p)%nat && bool_decide (oldest ≠ k)
      then evict fuel k (remove_locked oldest leaves (Some "stale_evicted") p) else p
  | _, _ => p
  end.

Definition cache_leaf (j : Job) (l : PreparedLeaf) (p : prep) : prep * bool :=
  if bool_decide (generation_of (db_path j) p ≠ generation j) then (p, false)
  else
    let p := set_cache (od_move_to_end (job_key j) (od_set (job_key j) (cached (job_key j) p ++ [l]) (cache p))) p in
    let p := count_by "prepared" 1 p in
    (evict (length (cache p)) (job_key j) p, true).

(** The lock's part of a turn of the worker: the oldest job, when there is one. *)
Definition take_job (p : prep) : prep * option Job :=
  match jobs p with
  | [] => (set_running false p, None)
  | (_, j) :: js => (set_running true (set_jobs js p), Some j)
  end.

(** What [wait_idle] waits for. *)
Definition idle (p : prep) : bool := bool_decide (jobs p = []) && negb (running p).

(** ** Rows *)

Definition stored_le (x y : stored) : Prop := x.1 <= y.1.
#[global] Instance stored_le_dec : RelDecision stored_le.
Proof. intros x y. unfold stored_le. apply _. Defined.

Definition limited {A} (limit : option nat) (l : list A) : list A := match limit with Some n => take n l | None => l end.

Definition in_range (session : string) (after : Z) (end_store_id : option Z) (r : stored) : bool :=
  bool_decide (message_session_id r.2 = session) && bool_decide (after < r.1)
  && match end_store_id with Some e => bool_decide (r.1 <= e) | None => true end.

(** The rows of a session under one stored value. *)
Definition rows_under (session : string) (after : Z) (end_store_id : option Z) (db : database) (value : option string) : list stored :=
  merge_sort stored_le (filter (λ r : stored, message_conversation_id r.2 = value ∧ in_range session after end_store_id r = true)
    (map_to_list (messages db))).

(** One seek per owned value, each limited, then sorted and limited again. *)
Definition select_conversation_range (legacy : string → list (option string)) (session conversation : string) (after : Z)
    (end_store_id : option Z) (limit : option nat) (db : database) : list stored :=
  limited limit (merge_sort stored_le
    (owned_conversation_values legacy conversation ≫= λ value, limited limit (rows_under session after end_store_id db value))).

Section digests.
(** sha256 of the JSON of the pairs *)
Variable hash : list (Z * option string) → string.

Definition pair_le (x y : Z * option string) : Prop := x.1 <= y.1.
#[global] Instance pair_le_dec : RelDecision pair_le.
Proof. intros x y. unfold pair_le. apply _. Defined.

Definition coverage_digest (rows : list stored) : string :=
  hash (merge_sort pair_le ((λ r : stored, (r.1, content r.2)) <$> rows)).

(** [None] when a row is missing *)
Definition committed_coverage_digest (ids : list Z) (db : database) : option string :=
  let ids := merge_sort Z.le (remove_dups ids) in
  let rows := omap (λ i, pair i <$> messages db !! i) ids in
  if bool_decide (rows.*1 = ids) then Some (coverage_digest rows) else None.

(** [_prepared_leaf_revalidation], in the publication transaction: the route of the engine
    is [route]. *)
Definition revalidate (route : string) (l : PreparedLeaf) (db : database) : bool :=
  bool_decide (route = route_fingerprint l) && bool_decide (committed_coverage_digest (covered_store_ids l) db = Some (digest l)).

End digests.

(** ** Rows the worker stops before *)

Fixpoint skip_digits (s : string) : option string :=
  match s with
  | String a t => if bool_decide (is_Some (digit a)) then Some (default t (skip_digits t)) else None
  | EmptyString => None
  end.

(** The scaffold of a replayed summary, at the beginning of [s]. *)
Definition scaffold_here (s : string) : bool :=
  let label :=
    match after_prefix "[Recent" s, after_prefix "[Session Arc" s, after_prefix "[Durable" s with
    | Some t, _, _ | None, Some t, _ | None, None, Some t => Some t
    | None, None, None => after_prefix "[Depth-" s ≫= skip_digits
    end in
  bool_decide (is_Some (t ← label; t ← after_prefix " Summary (d" t; t ← skip_digits t; t ← after_prefix ", node " t;
                        t ← skip_digits t; after_prefix ")]" t)).
Fixpoint has_scaffold (s : string) : bool :=
  scaffold_here s || match s with String _ t => has_scaffold t | EmptyString => false end.

Definition starts_with (p s : string) : bool := bool_decide (is_Some (after_prefix p s)).

Section rows.
Context `{!Tokens}.
(** [sha256(...).hexdigest()[:16]], and [_stable_tool_calls_identity] of the column *)
Variable short_hash : string → string.
Variable tool_calls_identity : option string → string.
Variable shown : message_row → row.

Definition NUL : string := String (Ascii.ascii_of_nat 0) EmptyString.

Definition row_store_fingerprint (session : string) (r : stored) : string := short_hash (session +:+ NUL +:+ pretty r.1).
Definition row_content_fingerprint (r : stored) (t : string) : string :=
  short_hash (Publication.role r.2 +:+ NUL +:+ default "" (Publication.tool_call_id r.2) +:+ NUL +:+
              tool_calls_identity (Publication.tool_calls r.2) +:+ NUL +:+ t).

Definition excluded_from_summary_input (session : string) (dependent : list dependent_record) (r : stored) : bool :=
  let t := default "" (content r.2) in
  let role := Publication.role r.2 in
  if starts_with "[LCM active replay placeholder:" (PyText.strip t) then true
  else if bool_decide (role ≠ "tool")
          && (starts_with "[Current user objective preserved from compacted history]" (PyText.lstrip t)
              || starts_with "[Your active task list was preserved across context compression]" (PyText.lstrip t)
              || occurs "[Expand for details:" t && has_scaffold t) then true
  else if negb (bool_decide (role ∈ ["assistant"; "tool"])) then false
  else existsb (λ d, bool_decide (store_fingerprint d = Some (row_store_fingerprint session r))
                     || bool_decide (content_fingerprint d = Some (row_content_fingerprint r t))) dependent.

(** Between two stored rows the host cannot merge. *)
Definition host_unit_boundary (previous following : option stored) : bool :=
  match previous, following with
  | Some p, Some f =>
      let role := Publication.role f.2 in
      bool_decide (role ∈ ["user"; "system"]) || bool_decide (Publication.role p.2 = "tool") && bool_decide (role ≠ "tool")
  | _, _ => false
  end.

(** The row read after that of [id]. *)
Fixpoint following (rows : list stored) (id : Z) : option stored :=
  match rows with
  | r :: rows => if bool_decide (r.1 = id) then head rows else following rows id
  | [] => None
  end.

(** (P, L), in hundredths *)
Definition levels (threshold window chunk_tokens : Z) : option (Z * Z) :=
  if bool_decide (window <= 0) || bool_decide (threshold <= 0) then None
  else
    let prepare := 100 * threshold - 15 * window in
    let low_water := 100 * threshold - Z.max (200 * chunk_tokens) (10 * window) in
    if bool_decide (prepare <= 30 * window) || bool_decide (low_water <= 0) then None else Some (prepare, low_water).

(** ** Where a chunk ends *)

Section ends.
(** All the rows read, and the eligible ones among them. *)
Variables all rows : list stored.

Definition unit_end (e : nat) : bool :=
  let previous := match e with O => last rows | S i => rows !! i end in
  host_unit_boundary previous (previous ≫= λ r, following all r.1).

(** [while end > position and not unit_end(end): end -= 1], from [end = position + k] *)
Fixpoint back_to_unit (position k : nat) : nat :=
  match k with
  | O => position
  | S k' => if unit_end (position + k) then (position + k)%nat else back_to_unit position k'
  end.

(** [while end < len(rows) and not unit_end(end): end += 1], from [len(rows) = end + k] *)
Fixpoint forward_to_unit (e k : nat) : nat :=
  match k with
  | O => e
  | S k => if unit_end e then e else forward_to_unit (S e) k
  end.

Definition chunk_end (position selected : nat) : option nat :=
  let e := back_to_unit position selected in
  if bool_decide (e = position) then
    let e := forward_to_unit (S position) (length rows - S position) in
    if unit_end e then Some e else None
  else Some e.

End ends.

(** The leaves of a chain that still match the rows, from [position] on; then the rest,
    the position reached and the tokens freed. *)
Fixpoint matching_chain (hash : list (Z * option string) → string) (route : string) (rows : list stored) (chain : list PreparedLeaf)
    (position : nat) (freed : Z) : list PreparedLeaf * list PreparedLeaf * nat * Z :=
  match chain with
  | [] => ([], [], position, freed)
  | l :: rest =>
      let covered := take (length (covered_store_ids l)) (drop position rows) in
      if bool_decide (covered.*1 = covered_store_ids l) && bool_decide (coverage_digest hash covered = digest l)
         && bool_decide (route_fingerprint l = route)
      then
        let '(kept, gone, position, freed) :=
          matching_chain hash route rows rest (position + length covered) (freed + (source_tokens l - summary_tokens l)) in
        (l :: kept, gone, position, freed)
      else ([], chain, position, freed)
  end.

End rows.

(** ** The worker *)

(** How a job's body ends early: a [return], or an exception that [_run] catches. *)
Inductive exit := Returned | Uncaught.

(** [noted]: the leaves the worker cached, each with its job; [seen]: the lock's state
    after each access; both for the statements about them. *)
Record world := {
  process : prep; store : database; accesses : nat; call_slot : bool;
  spend_guards : list ((string * string) * ((Z * Z * Z) * guard)); noted : list (Job * PreparedLeaf); seen : list prep }.

Definition set_call_slot (b : bool) (w : world) : world :=
  {| process := process w; store := store w; accesses := accesses w; call_slot := b; spend_guards := spend_guards w;
     noted := noted w; seen := seen w |}.
Definition set_spend_guards (g : list ((string * string) * ((Z * Z * Z) * guard))) (w : world) : world :=
  {| process := process w; store := store w; accesses := accesses w; call_slot := call_slot w; spend_guards := g;
     noted := noted w; seen := seen w |}.
Definition note_leaf (j : Job) (l : PreparedLeaf) (w : world) : world :=
  {| process := process w; store := store w; accesses := accesses w; call_slot := call_slot w; spend_guards := spend_guards w;
     noted := noted w ++ [(j, l)]; seen := seen w |}.

Definition W (A : Type) : Type := world → result exit A * world.
#[export] Instance W_ret : MRet W := λ A a w, (Ok a, w).
#[export] Instance W_bind : MBind W := λ A C f m w, match m w with (Ok a, w) => f a w | (Err e, w) => (Err e, w) end.
Definition leave {A} : W A := λ w, (Err Returned, w).
Definition change (f : world → world) : W unit := λ w, (Ok tt, f w).
Definition look {A} (f : world → A) : W A := λ w, (Ok (f w), w).

(** What a model call sees and leaves: the state of the rescue's service, entered with the
    worker's guard. *)
Record summarizer := {
  call_state : Type;
  call_service : Job → service call_state;
  enter_call : nat → guard → call_state;
  leave_call : call_state → guard }.

(** What the worker reads of the code and the host around it. *)
Record surroundings := {
  legacy : string → list (option string);
  hash : list (Z * option string) → string;
  short_hash : string → string;
  tool_calls_identity : option string → string;
  shown : message_row → row;
  text_tokens : text → Z;
  (** the reads that raise, the host's number of auxiliary slots, the clock, the
      foreground's guard and breaker *)
  read_fails : nat → bool;
  aux_slots : string → nat → Z;
  now : nat → Z;
  foreground_guard : nat → guard;
  breaker : nat → CircuitBreaker.breaker;
  model : summarizer }.

Section worker.
Context `{!Tokens}.
Variable env : surroundings.
Variable others : nat → prep * database → prep * database.

(** One access, after what the others did. *)
Definition access {A} (f : nat → prep → database → prep * result exit A) : W A := λ w,
  let '(p, d) := others (accesses w) (process w, store w) in
  let '(p, r) := f (accesses w) p d in
  (r, {| process := p; store := d; accesses := S (accesses w); call_slot := call_slot w; spend_guards := spend_guards w;
         noted := noted w; seen := seen w ++ [p] |}).
Definition locked {A} (f : prep → prep * A) : W A := access (λ _ p _, let '(p, a) := f p in (p, Ok a)).
Definition observe {A} (f : nat → A) : W A := access (λ n p _, (p, Ok (f n))).
(** A read of the database, which may raise. *)
Definition query {A} (f : database → A) : W A := access (λ n p d, (p, if read_fails env n then Err Uncaught else Ok (f d))).

Definition bump (name : string) : W unit := locked (λ p, (count_by name 1 p, tt)).
Definition current_generation (j : Job) : W bool := locked (λ p, (p, bool_decide (generation_of (db_path j) p = generation j))).

(** [_current]: the job's binding and frontier still hold. *)
Definition bound (j : Job) (d : database) : bool :=
  match lifecycle d !! job_conversation j with
  | Some row => bool_decide (default "" (current_session_id row) = job_session j) && bool_decide (current_frontier_store_id row = frontier j)
  | None => false
  end.
Definition current (j : Job) : W bool :=
  g ← current_generation j; if g : bool then query (bound j) else mret false.

(** ** Its spend guards *)

Definition guard_shape (c : prep_config) : Z * Z * Z :=
  (background_leaf_prep_max_calls c, background_leaf_prep_window_s c, summary_spend_backoff_seconds c).

(** A guard with no call in its window and no backoff left. *)
Definition unobliged (t : Z) (g : guard) : bool :=
  bool_decide (max_calls g <= 0) || match remaining t g with Some r => bool_decide (max_calls g <= r) | None => true end.

(** The guards kept and the job's own; [None] when every kept guard still carries an
    obligation. *)
Definition job_guard (t : Z) (j : Job) (guards : list ((string * string) * ((Z * Z * Z) * guard)))
    : option (list ((string * string) * ((Z * Z * Z) * guard)) * guard) :=
  let shape := guard_shape (config j) in
  let identity := (hermes_home j, db_path j) in
  let room :=
    if negb (bool_decide (identity ∈ guards.*1)) && bool_decide (PER_PROCESS <= length guards)%nat
    then (λ e, od_delete e.1 guards) <$> find_first (λ e, unobliged t e.2.2 = true) guards
    else Some guards in
  guards ← room;
  let kept := match od_get identity guards with
              | Some (s, g) => if bool_decide (s = shape) then g else SpendGuard.fresh shape.1.1 shape.1.2 shape.2
              | None => SpendGuard.fresh shape.1.1 shape.1.2 shape.2
              end in
  Some (od_move_to_end identity (od_set identity (shape, kept) guards), kept).

(** [_guard] *)
Definition get_guard (j : Job) : W guard :=
  t ← observe (now env);
  guards ← look spend_guards;
  match job_guard t j guards with
  | Some (guards, g) => _ ← change (set_spend_guards guards); mret g
  | None => _ ← bump "prep_guard_full"; leave
  end.

Definition guard_id (j : Job) : string * string := (hermes_home j, db_path j).
Definition guard_now (j : Job) (w : world) : guard :=
  default (SpendGuard.fresh 0 0 0) (snd <$> od_get (guard_id j) (spend_guards w)).
Definition put_guard (j : Job) (g : guard) : W unit :=
  change (λ w, set_spend_guards (od_set (guard_id j) (guard_shape (config j), g) (spend_guards w)) w).

(** ** What a job reads *)

(** [_eligible_prefix]: the ids of the leading system prompts, and the rows up to the first
    one that the preparation cannot account for. *)
Definition is_system (r : stored) : bool := bool_decide (Publication.role r.2 = "system").
Fixpoint lead_count (rows : list stored) : nat :=
  match rows with r :: rows => if is_system r then S (lead_count rows) else O | [] => O end.

Definition covered_rows (rows : list stored) (d : database) : gset Z :=
  list_to_set (filter (λ i, node_covered (summary_nodes d) i = true) rows.*1).
Definition foreign_row (j : Job) (last_id : Z) (d : database) : option Z :=
  head (merge_sort Z.le (filter (λ r : stored,
    frontier j < r.1 ∧ r.1 <= last_id ∧ message_session_id r.2 ≠ job_session j ∧ message_conversation_id r.2 = Some (job_conversation j))
    (map_to_list (messages d))).*1).

Definition stops (j : Job) (covered : gset Z) (foreign : option Z) (r : stored) : bool :=
  is_system r || bool_decide (r.1 ∈ covered)
  || match foreign with Some f => bool_decide (f < r.1) | None => false end
  || excluded_from_summary_input (short_hash env) (tool_calls_identity env) (job_session j) (dependent_records j) r.
Fixpoint until_stop (stop : stored → bool) (rows : list stored) : list stored :=
  match rows with r :: rows => if stop r then [] else r :: until_stop stop rows | [] => [] end.

Definition eligible_prefix (j : Job) (rows : list stored) : W (list Z * list stored) :=
  match last rows with
  | None => mret ([], [])
  | Some (last_id, _) =>
      covered ← query (covered_rows rows);
      foreign ← query (foreign_row j last_id);
      let lead := lead_count rows in
      mret ((take lead rows).*1, until_stop (stops j covered foreign) (drop lead rows))
  end.

Definition messages_of (rows : list stored) : list row := (λ r : stored, shown env r.2) <$> rows.

(** [summary_route_available(..., prune=False)] *)
Definition route_available (c : prep_config) (n : nat) : bool :=
  existsb (λ m, (CircuitBreaker.allows m (now env n) false (breaker env n)).2)
    (summary_model_chain (summary_model c) (summary_fallback_models c)).

(** [job.foreground_guard.remaining() < _MIN_FOREGROUND_SLOTS] *)
Definition foreground_short (n : nat) : bool :=
  match remaining (now env n) (foreground_guard env n) with Some r => bool_decide (r < MIN_FOREGROUND_SLOTS) | None => false end.

(** ** One leaf *)

(** The summary, with the slot of the process held: [None] ends the job. *)
Definition summarize (j : Job) (chunk : list row) : W (option LeafSummaryResult) :=
  free ← look call_slot;
  if negb free then mret None
  else
    _ ← change (set_call_slot false);
    g ← current_generation j;
    if negb g then _ ← change (set_call_slot true); mret None
    else
      w ← look id;
      let '(r, s) := summarize_leaf_chunk_with_rescue (leaf (config j)) (text_tokens env) (call_service (model env) j) chunk
                       (enter_call (model env) (accesses w) (guard_now j w)) in
      _ ← put_guard j (leave_call (model env) s);
      match r with
      | Ok r => _ ← change (set_call_slot true); mret (Some r)
      | Err LeafPrepUnavailable => _ ← change (set_call_slot true); mret None
      | Err _ => _ ← bump "failed"; _ ← change (set_call_slot true); mret None
      end.

Definition make_leaf (j : Job) (start : Z) (anchors : list Z) (rows : list stored) (r : LeafSummaryResult) : PreparedLeaf :=
  {| leaf_session := job_session j; leaf_conversation := job_conversation j; start_frontier := start;
     covered_store_ids := rows.*1; excluded_store_ids := anchors; digest := coverage_digest (hash env) rows;
     route_fingerprint := fingerprint j; summary := LeafSummary.summary r; level := result_level r; leaf_model := result_model r;
     source_tokens := LeafSummary.source_tokens r; summary_tokens := text_tokens env (LeafSummary.summary r) |}.

(** The guards before a call (D-6). *)
Definition may_call (j : Job) : W bool :=
  open ← observe (route_available (config j));
  if negb open then mret false
  else
    short ← observe foreground_short;
    if short : bool then mret false
    else
      t ← observe (now env);
      w ← look id;
      let '(g, ok) := SpendGuard.allows t (guard_now j w) in
      _ ← put_guard j g;
      mret ok.

Definition chain_end (j : Job) (chain : list PreparedLeaf) : Z := default (frontier j) (covered_end <$> last chain).

(** [_cache_leaf], noted in the same access. *)
Definition store_leaf (j : Job) (l : PreparedLeaf) : W bool := λ w,
  let '(r, w) := locked (cache_leaf j l) w in
  (r, match r with Ok true => note_leaf j l w | _ => w end).

(** One round of the loop: [None] ends the job. *)
Definition prepare_one (j : Job) (all rows : list stored) (anchors : list Z) (chunk_tokens : Z) (chain : list PreparedLeaf) (position : nat)
    : W (option PreparedLeaf) :=
  let remaining := messages_of (drop position rows) in
  if bool_decide (count_messages_tokens remaining < chunk_tokens) then mret None
  else
    match chunk_end all rows position (length (select_oldest_leaf_chunk remaining chunk_tokens)) with
    | None => mret None
    | Some e =>
        let chunk := messages_of (take (e - position) (drop position rows)) in
        ok ← may_call j;
        if negb ok then mret None
        else
          r ← summarize j chunk;
          match r with
          | None => mret None
          | Some r =>
              if bool_decide (result_level r = 3) && negb (level_3_verbatim r) then mret None
              else
                let covered := take (length (LeafSummary.chunk r)) (drop position rows) in
                if negb (unit_end all rows (position + length covered)) then mret None
                else
                  let anchors := match chain with [] => anchors | _ => [] end in
                  let l := make_leaf j (chain_end j chain) anchors covered r in
                  still ← current j;
                  if negb still then mret None
                  else
                    kept ← store_leaf j l;
                    mret (if kept : bool then Some l else None)
          end
    end.

(** [while freed < need and len(chain) < _PER_CONVERSATION and position < len(rows)], from
    [len(chain) + more = _PER_CONVERSATION] *)
Fixpoint prepare_loop (more : nat) (j : Job) (all rows : list stored) (anchors : list Z) (chunk_tokens need : Z)
    (chain : list PreparedLeaf) (position : nat) (freed : Z) : W unit :=
  match more with
  | O => mret tt
  | S more =>
      if bool_decide (100 * freed < need) && bool_decide (position < length rows)%nat then
        r ← prepare_one j all rows anchors chunk_tokens chain position;
        match r with
        | None => mret tt
        | Some l =>
            prepare_loop more j all rows anchors chunk_tokens need (chain ++ [l]) (position + length (covered_store_ids l))
              (freed + (source_tokens l - summary_tokens l))
        end
      else mret tt
  end.

(** ** A job *)

Definition prepare_on (j : Job) : W unit :=
  ok ← current j;
  if negb ok then mret tt
  else
    all ← query (select_conversation_range (legacy env) (job_session j) (job_conversation j) (frontier j) None (Some SCAN_LIMIT));
    if bool_decide (SCAN_LIMIT <= length all)%nat then mret tt
    else
      let tail := FreshTail.start (resolve_fresh_tail_boundary (messages_of all) (fresh_tail_count (config j)) (fresh_tail_max_tokens j)) in
      '(anchors, rows) ← eligible_prefix j (take tail all);
      if bool_decide (rows = []) then mret tt
      else
        let chunk_tokens :=
          default 0 (working_leaf_chunk_tokens (leaf (config j)) (context_length j) (count_messages_tokens (messages_of rows))) in
        match levels (threshold_tokens j) (context_length j) chunk_tokens with
        | None => mret tt
        | Some (prepare, low_water) =>
            if bool_decide (100 * tokens j < prepare) then mret tt
            else
              let need := 100 * tokens j - low_water + 100 * chunk_tokens in
              chain ← locked (λ p, match ready_chain (db_path j) (job_conversation j) (frontier j) p with
                                   | Some (p, chain) => (p, chain)
                                   | None => (p, [])
                                   end);
              let '(chain, gone, position, freed) := matching_chain (hash env) (fingerprint j) rows chain 0 0 in
              _ ← (if bool_decide (gone = []) then mret tt
                   else locked (λ p, (remove_locked (job_key j) gone None (count_by "wasted" (Z.of_nat (length gone)) p), tt)));
              _ ← get_guard j;
              prepare_loop (PER_CONVERSATION - length chain) j all rows anchors chunk_tokens need chain position freed
        end.

Definition prepare (j : Job) : W unit :=
  g ← current_generation j;
  if negb g then mret tt
  else
    slots ← observe (aux_slots env (hermes_home j));
    if bool_decide (slots = 1) then mret tt else prepare_on j.

(** [except Exception: self._count("failed")] around a job *)
Definition caught (m : W unit) : W unit := λ w,
  match m w with (Err Uncaught, w) => bump "failed" w | (_, w) => (Ok tt, w) end.

(** One turn of [_run]. *)
Definition run_once : W unit :=
  j ← locked take_job;
  match j with None => mret tt | Some j => caught (prepare j) end.

Fixpoint run (turns : nat) : W unit :=
  match turns with O => mret tt | S turns => _ ← run_once; run turns end.

End worker.
