(* ===== verification/LeafPrepProofs.v ===== *)
(** The cache of prepared leaves under its lock: what each operation does to the leaves of
    a conversation, the invariant [sound] of the cache, and that whatever the other threads
    do between two accesses of the worker only takes leaves away. *)

From S2P Require Import Prelude PyText Lifecycle Publication Messages FreshTail Chunking SpendGuard CircuitBreaker SummaryOutcome.
From S2P Require Import Escalation LeafSummary LeafPrep.
From stdpp Require Import options.

#[local] Open Scope Z_scope.
#[local] Arguments od_get : simpl never.

(** ** Lists *)

Section lists.
Context {A : Type}.
Implicit Types (P Q : A → Prop) (p q : A → bool) (l : list A).

Lemma filter_agree P Q `{!∀ x, Decision (P x), !∀ x, Decision (Q x)} l : (∀ x, x ∈ l → P x ↔ Q x) → filter P l = filter Q l.
Proof.
  induction l as [|x l IH]; intros Hl; [done|]. rewrite !filter_cons, IH by (intros y Hy; apply Hl; by right).
  specialize (Hl x ltac:(left)). repeat case_decide; tauto.
Qed.
Lemma filter_kept P `{!∀ x, Decision (P x)} l : (∀ x, x ∈ l → P x) → filter P l = l.
Proof.
  induction l as [|x l IH]; intros Hl; [done|]. rewrite filter_cons, decide_True by (apply Hl; left). f_equal. apply IH. intros y Hy. apply Hl. by right.
Qed.

Lemma tally_lt p q l x : (∀ y, y ∈ l → p y = true → q y = true) → x ∈ l → p x = false → q x = true → (tally p l < tally q l)%nat.
Proof.
  intros Hpq (l1 & l2 & ->)%list_elem_of_split Hp Hq. rewrite !tally_app. cbn. rewrite Hp, Hq.
  assert (tally p l1 ≤ tally q l1)%nat by (apply tally_le; intros y Hy; apply Hpq; set_solver).
  assert (tally p l2 ≤ tally q l2)%nat by (apply tally_le; intros y Hy; apply Hpq; set_solver). cbn in *. lia.
Qed.
Lemma tally_bound p l : (tally p l ≤ length l)%nat.
Proof. rewrite tally_length. apply sublist_length, sublist_filter. Qed.

End lists.

(** ** Ordered dictionaries *)

Section ordered.
Context {K V : Type} `{!EqDecision K}.
Implicit Types (d : list (K * V)) (k : K).

Lemma od_get_cons k a v d : od_get k ((a, v) :: d) = if bool_decide (a = k) then Some v else od_get k d.
Proof. done. Qed.

Lemma od_delete_cons k a v d : od_delete k ((a, v) :: d) = if bool_decide (a = k) then od_delete k d else (a, v) :: od_delete k d.
Proof. unfold od_delete. rewrite filter_cons. cbn. case_bool_decide; case_decide; tauto. Qed.

Lemma od_get_app k d1 d2 : od_get k (d1 ++ d2) = match od_get k d1 with Some v => Some v | None => od_get k d2 end.
Proof.
  induction d1 as [|[a v] d1 IH]; [done|]. cbn [app]. rewrite !od_get_cons, IH. by case_bool_decide.
Qed.

Lemma od_get_None k d : od_get k d = None ↔ k ∉ d.*1.
Proof.
  induction d as [|[a v] d IH]; [split; [intros _; apply not_elem_of_nil|done]|].
  rewrite od_get_cons. cbn. rewrite not_elem_of_cons, <-IH. case_bool_decide; [split; [done|]; by intros [? _]|].
  split; [by split|by intros [_ ?]].
Qed.

Lemma od_get_delete k k' d : od_get k' (od_delete k d) = if bool_decide (k' = k) then None else od_get k' d.
Proof.
  induction d as [|[a v] d IH]; [by case_bool_decide|]. rewrite od_delete_cons, od_get_cons.
  destruct (decide (a = k)) as [->|Ha].
  - rewrite (bool_decide_eq_true_2 (k = k)), IH by done. repeat case_bool_decide; by subst.
  - rewrite (bool_decide_eq_false_2 (a = k)), od_get_cons, IH by done. repeat case_bool_decide; by subst.
Qed.

Lemma od_get_replace k v k' d : k' ≠ k → od_get k' ((λ p : K * V, if bool_decide (p.1 = k) then (k, v) else p) <$> d) = od_get k' d.
Proof.
  intros Hk. induction d as [|[a w] d IH]; [done|]. rewrite fmap_cons, od_get_cons. cbn [fst]. case_bool_decide as Ha.
  - by rewrite od_get_cons, IH, !bool_decide_eq_false_2 by congruence.
  - by rewrite od_get_cons, IH.
Qed.

Lemma od_get_replaced k v d : k ∈ d.*1 → od_get k ((λ p : K * V, if bool_decide (p.1 = k) then (k, v) else p) <$> d) = Some v.
Proof.
  induction d as [|[a w] d IH]; [by intros ?%not_elem_of_nil|]. rewrite !fmap_cons. cbn [fst]. rewrite elem_of_cons.
  intros Hin. case_bool_decide as Ha; rewrite od_get_cons; [by rewrite bool_decide_eq_true_2|].
  rewrite bool_decide_eq_false_2 by done. apply IH. destruct Hin; [by subst|done].
Qed.

Lemma od_get_set k v k' d : od_get k' (od_set k v d) = if bool_decide (k' = k) then Some v else od_get k' d.
Proof.
  unfold od_set. case_bool_decide as Hin; case_bool_decide as Hk; subst.
  - by apply od_get_replaced.
  - by apply od_get_replace.
  - apply od_get_None in Hin. by rewrite od_get_app, Hin, od_get_cons, bool_decide_eq_true_2.
  - rewrite od_get_app, od_get_cons, bool_decide_eq_false_2 by done. by destruct (od_get k' d).
Qed.

Lemma od_get_move k k' d : od_get k' (od_move_to_end k d) = od_get k' d.
Proof.
  unfold od_move_to_end. destruct (od_get k d) as [v|] eqn:E; [|done].
  rewrite od_get_app, od_get_delete, od_get_cons. destruct (decide (k' = k)) as [->|Hk].
  - rewrite E. by rewrite !bool_decide_eq_true_2 by done.
  - rewrite !bool_decide_eq_false_2 by done. by destruct (od_get k' d).
Qed.

Lemma od_delete_not_in k d : k ∉ (od_delete k d).*1.
Proof. rewrite list_elem_of_fmap. intros ([a v] & -> & H). unfold od_delete in H. apply list_elem_of_filter in H. by destruct H. Qed.

Lemma od_delete_id k d : k ∉ d.*1 → od_delete k d = d.
Proof.
  induction d as [|[a v] d IH]; [done|]. rewrite fmap_cons, not_elem_of_cons, od_delete_cons. cbn [fst]. intros [Ha Hd].
  rewrite bool_decide_eq_false_2 by done. by rewrite IH.
Qed.

(** A dictionary with distinct keys is one of its entries and the others, in some order. *)
Lemma od_get_perm k v d : NoDup d.*1 → od_get k d = Some v → d ≡ₚ (k, v) :: od_delete k d.
Proof.
  induction d as [|[a w] d IH]; [done|]. rewrite fmap_cons. intros [Ha Hd]%NoDup_cons. rewrite od_get_cons, od_delete_cons. cbn [fst] in *.
  case_bool_decide as E; [subst|].
  - intros [= ->]. by rewrite od_delete_id.
  - intros Hg. rewrite (IH Hd Hg) at 1. by rewrite Permutation_swap.
Qed.

Lemma od_delete_nodup k d : NoDup d.*1 → NoDup (od_delete k d).*1.
Proof. intros H. eapply sublist_NoDup; [exact H|]. apply fmap_sublist, sublist_filter. Qed.
Lemma od_set_keys k v d : (od_set k v d).*1 = if bool_decide (k ∈ d.*1) then d.*1 else d.*1 ++ [k].
Proof.
  unfold od_set. case_bool_decide; [|by rewrite fmap_app]. rewrite <-list_fmap_compose. apply list_fmap_ext. intros _ [a w] _. cbn.
  by case_bool_decide.
Qed.
Lemma od_set_nodup k v d : NoDup d.*1 → NoDup (od_set k v d).*1.
Proof.
  intros H. rewrite od_set_keys. case_bool_decide as Hin; [done|]. apply NoDup_app. split; [done|].
  split; [by intros x Hx ->%list_elem_of_singleton|apply NoDup_singleton].
Qed.
Lemma od_move_perm k d : NoDup d.*1 → od_move_to_end k d ≡ₚ d.
Proof.
  intros H. unfold od_move_to_end. destruct (od_get k d) as [v|] eqn:E; [|done].
  rewrite (od_get_perm k v d H E) at 2. by rewrite Permutation_app_comm.
Qed.
Lemma od_set_perm k v d : NoDup d.*1 → od_set k v d ≡ₚ (k, v) :: od_delete k d.
Proof.
  intros H. rewrite (od_get_perm k v (od_set k v d)); [|by apply od_set_nodup|by rewrite od_get_set, bool_decide_eq_true_2].
  f_equiv. unfold od_set. case_bool_decide as Hin.
  - clear Hin H. induction d as [|[a w] d IH]; [done|]. cbn [fmap list_fmap]. rewrite od_delete_cons. cbn [fst].
    case_bool_decide as Ha; rewrite od_delete_cons; [by rewrite bool_decide_eq_true_2 by done|].
    rewrite bool_decide_eq_false_2 by done. by rewrite IH.
  - unfold od_delete. rewrite filter_app, filter_cons. cbn. rewrite decide_False by (intros Hn; by apply Hn). by rewrite app_nil_r.
Qed.

Lemma od_get_elem k v d : NoDup d.*1 → od_get k d = Some v ↔ (k, v) ∈ d.
Proof.
  intros Hnd. split; [intros Hg; rewrite (od_get_perm k v d Hnd Hg); by left|]. intros Hin.
  destruct (od_get k d) as [w|] eqn:E.
  - f_equal. apply (NoDup_fst_fun d k w v Hnd); [|done]. rewrite (od_get_perm k w d Hnd E). by left.
  - apply od_get_None in E. destruct E. apply list_elem_of_fmap. by exists (k, v).
Qed.
Lemma od_get_sublist k v d d' : NoDup d'.*1 → d `sublist_of` d' → od_get k d = Some v → od_get k d' = Some v.
Proof.
  intros Hnd Hs Hg. apply od_get_elem; [done|]. eapply elem_of_sublist; [|exact Hs]. apply od_get_elem; [|done].
  eapply sublist_NoDup; [exact Hnd|by apply fmap_sublist].
Qed.

End ordered.

(** ** One entry of the cache *)

Definition leaf_count (d : list (key * list PreparedLeaf)) : nat := sum_list_with (λ e, length e.2) d.

Lemma leaf_count_split (k : key) d : NoDup d.*1 → leaf_count d = (length (default [] (od_get k d)) + leaf_count (od_delete k d))%nat.
Proof.
  intros H. unfold leaf_count. destruct (od_get k d) as [v|] eqn:E; cbn [default].
  - by rewrite (od_get_perm k v d H E) at 1.
  - apply od_get_None in E. by rewrite (od_delete_id k d E).
Qed.
Lemma leaf_count_set (k : key) v d : NoDup d.*1 → leaf_count (od_set k v d) = (length v + leaf_count (od_delete k d))%nat.
Proof. intros H. unfold leaf_count. by rewrite (od_set_perm k v d H). Qed.
Lemma leaf_count_move (k : key) d : NoDup d.*1 → leaf_count (od_move_to_end k d) = leaf_count d.
Proof. intros H. unfold leaf_count. by rewrite (od_move_perm k d H). Qed.
Lemma leaf_count_sublist d d' : d `sublist_of` d' → (leaf_count d ≤ leaf_count d')%nat.
Proof. unfold leaf_count. induction 1 as [|[a v] d d' _ IH|[a v] d d' _ IH]; cbn; lia. Qed.

Lemma od_move_nodup (k : key) (d : list (key * list PreparedLeaf)) : NoDup d.*1 → NoDup (od_move_to_end k d).*1.
Proof. intros H. by rewrite (od_move_perm k d H). Qed.

Lemma cached_set_cache k c p : cached k (set_cache c p) = default [] (od_get k c).
Proof. done. Qed.

Lemma remove_locked_cache k leaves reason p : cached k p ≠ [] →
  cache (remove_locked k leaves reason p) =
    match filter (λ l, l ∉ leaves) (cached k p) with [] => od_delete k (cache p) | remaining => od_set k remaining (cache p) end.
Proof.
  intros Hne. unfold remove_locked. destruct (cached k p) as [|l here]; [done|].
  destruct reason; by destruct (filter (λ l, l ∉ leaves) (l :: here)).
Qed.
Lemma remove_locked_none k leaves reason p : cached k p = [] → remove_locked k leaves reason p = p.
Proof. intros H. unfold remove_locked. by rewrite H. Qed.
Lemma remove_locked_generations k leaves reason p : generations (remove_locked k leaves reason p) = generations p.
Proof.
  unfold remove_locked. destruct (cached k p); [done|]. destruct reason; by destruct (filter _ (_ :: _)) in |- *.
Qed.

Lemma cached_remove_locked k leaves reason k' p : cached k' (remove_locked k leaves reason p) =
  if bool_decide (k' = k) then filter (λ l, l ∉ leaves) (cached k p) else cached k' p.
Proof.
  destruct (decide (cached k p = [])) as [E|Hne].
  { rewrite remove_locked_none by done. case_bool_decide; [subst; by rewrite E|done]. }
  unfold cached at 1. rewrite (remove_locked_cache _ _ _ _ Hne).
  destruct (filter (λ l, l ∉ leaves) (cached k p)) as [|l ls].
  - rewrite od_get_delete. by case_bool_decide.
  - rewrite od_get_set. by case_bool_decide.
Qed.

(** ** What holds of the cache *)

(** A leaf covers rows above its start, in order, of its conversation. *)
Record leaf_shape (k : key) (l : PreparedLeaf) : Prop := {
  shape_conversation : leaf_conversation l = k.2;
  shape_covers : covered_store_ids l ≠ [];
  shape_sorted : StronglySorted Z.lt (start_frontier l :: covered_store_ids l) }.

(** No leaf starts before the one before it ends. *)
Definition disjoint_in_order : list PreparedLeaf → Prop := StronglySorted (λ a b, covered_end a <= start_frontier b).

Definition conversation_leaves (k : key) (leaves : list PreparedLeaf) : Prop :=
  disjoint_in_order leaves ∧ Forall (leaf_shape k) leaves ∧ (length leaves ≤ PER_CONVERSATION)%nat.

Record sound (p : prep) : Prop := {
  sound_keys : NoDup (cache p).*1;
  sound_entries : ∀ k, od_get k (cache p) ≠ Some [];
  sound_each : ∀ k, conversation_leaves k (cached k p);
  sound_total : (cached_leaves p ≤ PER_PROCESS)%nat }.

Lemma sorted_sublist {A} (R : relation A) l l' : l `sublist_of` l' → StronglySorted R l' → StronglySorted R l.
Proof.
  induction 1 as [|x l l' Hs IH|x l l' Hs IH]; intros Hl'; [constructor| |apply StronglySorted_cons in Hl' as [_ ?]; auto].
  apply StronglySorted_cons in Hl' as [Hx Hl']. apply StronglySorted_cons. split; [|auto].
  rewrite Forall_forall in Hx |- *. intros y Hy. apply Hx. by eapply elem_of_sublist.
Qed.

Lemma conversation_sublist k l l' : l `sublist_of` l' → conversation_leaves k l' → conversation_leaves k l.
Proof.
  intros Hs (Ho & Hf & Hn). split; [by eapply sorted_sublist|]. split.
  - rewrite Forall_forall in Hf |- *. intros x Hx. apply Hf. by eapply elem_of_sublist.
  - apply sublist_length in Hs. lia.
Qed.

Lemma leaf_grows k l : leaf_shape k l → start_frontier l < covered_end l.
Proof.
  intros [_ Hne Hs]. destruct (covered_store_ids l) as [|i ids] eqn:E; [done|].
  apply StronglySorted_cons in Hs as [Hall _]. rewrite Forall_cons in Hall. destruct Hall as [Hi _].
  unfold covered_end. rewrite E. pose proof (foldr_max_ge (i :: ids) (start_frontier l) i) as Hge.
  specialize (Hge ltac:(right; left)). lia.
Qed.

(** The leaves of a conversation grow along the list. *)
Lemma disjoint_chain k leaves i j a b : disjoint_in_order leaves → Forall (leaf_shape k) leaves → (i < j)%nat →
  leaves !! i = Some a → leaves !! j = Some b → covered_end a <= start_frontier b.
Proof.
  revert i j. induction leaves as [|l leaves IH]; intros i j Hd Hf Hij Ha Hb; [done|].
  apply StronglySorted_cons in Hd as [Hall Hd]. rewrite Forall_cons in Hf. destruct Hf as [_ Hf].
  destruct j as [|j]; [lia|]. destruct i as [|i].
  - injection Ha as <-. rewrite Forall_forall in Hall. apply Hall. by eapply list_elem_of_lookup_2.
  - by apply (IH i j Hd Hf ltac:(lia)).
Qed.

(** ** Removing leaves *)

(** Leaves were only taken away, and all those of a path whose generation changed. *)
Definition takes (p p' : prep) : Prop :=
  (∀ k, cached k p' `sublist_of` cached k p) ∧
  (∀ path, generation_of path p' = generation_of path p ∨
     generation_of path p < generation_of path p' ∧ ∀ k, k.1 = path → cached k p' = []).

#[export] Instance takes_preorder : PreOrder takes.
Proof.
  split; [by split; [|by left]|]. intros p1 p2 p3 [S12 G12] [S23 G23]. split; [by intros k; rewrite S23, S12|].
  intros path. destruct (G23 path) as [->|[H E]].
  - destruct (G12 path) as [->|[H E]]; [by left|right]. split; [done|]. intros k Hk. apply sublist_nil_r. by rewrite S23, E.
  - right. split; [|done]. destruct (G12 path) as [<-|[? _]]; [done|lia].
Qed.

Definition entries_ok (c : list (key * list PreparedLeaf)) : Prop := NoDup c.*1 ∧ ∀ k, od_get k c ≠ Some [].

Lemma sound_entries_ok p : sound p → entries_ok (cache p).
Proof. intros [H1 H2 _ _]. done. Qed.

Lemma sound_taken p p' : sound p → takes p p' → entries_ok (cache p') → (cached_leaves p' ≤ cached_leaves p)%nat → sound p'.
Proof.
  intros [_ _ He Ht] [Hs _] [Hk Hn] Hle. split; [done|done| |lia]. intros k. by eapply conversation_sublist, He.
Qed.

Lemma removed_entries k leaves reason p : entries_ok (cache p) → entries_ok (cache (remove_locked k leaves reason p)).
Proof.
  intros [Hk Hn]. destruct (decide (cached k p = [])) as [E|Hne]; [by rewrite remove_locked_none|].
  rewrite (remove_locked_cache _ _ _ _ Hne). destruct (filter _ _) as [|l ls].
  - split; [by apply od_delete_nodup|]. intros k'. rewrite od_get_delete. by case_bool_decide.
  - split; [by apply od_set_nodup|]. intros k'. rewrite od_get_set. by case_bool_decide.
Qed.

Lemma removed_count k leaves reason p : NoDup (cache p).*1 → (cached_leaves (remove_locked k leaves reason p) ≤ cached_leaves p)%nat.
Proof.
  intros Hk. destruct (decide (cached k p = [])) as [E|Hne]; [by rewrite remove_locked_none|].
  change (leaf_count (cache (remove_locked k leaves reason p)) ≤ leaf_count (cache p))%nat.
  rewrite (remove_locked_cache _ _ _ _ Hne). pose proof (leaf_count_split k (cache p) Hk) as Hsplit.
  change (default [] (od_get k (cache p))) with (cached k p) in Hsplit.
  pose proof (sublist_length _ _ (sublist_filter (λ l, l ∉ leaves) (cached k p))) as Hf.
  destruct (filter _ _) as [|l ls]; [lia|]. rewrite leaf_count_set by done. lia.
Qed.

Lemma removed_takes k leaves reason p : takes p (remove_locked k leaves reason p).
Proof.
  split; [|intros path; left; unfold generation_of; by rewrite remove_locked_generations].
  intros k'. rewrite cached_remove_locked. case_bool_decide; [subst; apply sublist_filter|done].
Qed.

Lemma removed_sound k leaves reason p : sound p → sound (remove_locked k leaves reason p).
Proof.
  intros H. apply (sound_taken p); [done|apply removed_takes|by apply removed_entries, sound_entries_ok|by apply removed_count, sound_keys].
Qed.

(** States with the same cache, in some order, and the same generations. *)
Definition same_leaves (p p' : prep) : Prop :=
  (∀ k, cached k p' = cached k p) ∧ cache p' ≡ₚ cache p ∧ (∀ k, od_get k (cache p') = od_get k (cache p)) ∧ generations p' = generations p.

Lemma same_leaves_takes p p' : same_leaves p p' → takes p p'.
Proof. intros (Hc & _ & _ & Hg). split; [intros k; by rewrite Hc|]. intros path. left. unfold generation_of. by rewrite Hg. Qed.
Lemma same_leaves_sound p p' : same_leaves p p' → sound p → sound p'.
Proof.
  intros (Hc & Hp & Hg & _) [H1 H2 H3 H4]. split; [by rewrite Hp|intros k; by rewrite Hg|intros k; by rewrite Hc|].
  unfold cached_leaves. by rewrite Hp.
Qed.
Lemma same_leaves_cache p p' : cache p' = cache p → generations p' = generations p → same_leaves p p'.
Proof. intros Hc Hg. unfold same_leaves, cached. by rewrite Hc. Qed.
Lemma same_leaves_move k p : NoDup (cache p).*1 → same_leaves p (set_cache (od_move_to_end k (cache p)) p).
Proof.
  intros H. split; [intros k'; rewrite cached_set_cache; by rewrite od_get_move|]. split; [by apply od_move_perm|].
  split; [intros k'; apply od_get_move|done].
Qed.

(** ** The chain *)

(** The leaves follow one another from [f]; where they end. *)
Fixpoint contiguous (f : Z) (chain : list PreparedLeaf) : Prop :=
  match chain with [] => True | l :: chain => start_frontier l = f ∧ contiguous (covered_end l) chain end.
Definition chain_stop (f : Z) (chain : list PreparedLeaf) : Z := default f (covered_end <$> last chain).

Lemma chain_stop_cons f l chain : chain_stop f (l :: chain) = chain_stop (covered_end l) chain.
Proof. unfold chain_stop. rewrite last_cons. by destruct (last chain). Qed.

Lemma by_start_Some leaves f l : by_start leaves f = Some l → l ∈ leaves ∧ start_frontier l = f.
Proof.
  unfold by_start. intros H. apply last_Some in H as [ls H].
  assert (l ∈ filter (λ l, start_frontier l = f) leaves) as Hin by (rewrite H; apply elem_of_app; right; by left).
  by apply list_elem_of_filter in Hin as [? ?].
Qed.
Lemma by_start_None leaves f : by_start leaves f = None → ∀ l, l ∈ leaves → start_frontier l ≠ f.
Proof.
  unfold by_start. intros H%last_None l Hl Hf. assert (l ∈ filter (λ l, start_frontier l = f) leaves) as Hin by by apply list_elem_of_filter.
  rewrite H in Hin. by apply not_elem_of_nil in Hin.
Qed.

Definition ahead (f : Z) (l : PreparedLeaf) : bool := bool_decide (f <= start_frontier l).

Lemma follow_spec k leaves fuel : Forall (leaf_shape k) leaves → ∀ f, (tally (ahead f) leaves ≤ fuel)%nat →
  ∃ chain, follow fuel leaves f = Some chain ∧ contiguous f chain ∧ (∀ l, l ∈ chain → l ∈ leaves ∧ f <= start_frontier l) ∧
    ∀ l, l ∈ leaves → start_frontier l ≠ chain_stop f chain.
Proof.
  intros Hf. induction fuel as [|fuel IH]; intros f Hfuel; cbn [follow]; destruct (by_start leaves f) as [l|] eqn:E.
  2,4: exists []; split; [done|]; split; [done|]; split; [by intros l ?%not_elem_of_nil|]; by apply by_start_None.
  - apply by_start_Some in E as [Hl <-]. assert (0 < tally (ahead (start_frontier l)) leaves)%nat; [|lia].
    apply tally_pos. exists l. split; [done|]. by apply bool_decide_eq_true_2.
  - apply by_start_Some in E as [Hl <-]. rewrite Forall_forall in Hf. pose proof (leaf_grows k l (Hf l Hl)) as Hgrow.
    destruct (IH (covered_end l)) as (chain & -> & Hc & Hin & Hstop).
    { assert (tally (ahead (covered_end l)) leaves < tally (ahead (start_frontier l)) leaves)%nat; [|lia].
      apply (tally_lt _ _ _ l); [|done|by apply bool_decide_eq_false_2; lia|by apply bool_decide_eq_true_2].
      intros x _ Hx%bool_decide_eq_true. apply bool_decide_eq_true_2. lia. }
    exists (l :: chain). split; [done|]. split; [done|]. split; [|by rewrite chain_stop_cons].
    intros x [->|Hx]%elem_of_cons; [by split; [|lia]|]. destruct (Hin x Hx). split; [done|lia].
Qed.

Lemma follow_total k leaves f : Forall (leaf_shape k) leaves →
  ∃ chain, follow (length leaves) leaves f = Some chain ∧ contiguous f chain ∧ (∀ l, l ∈ chain → l ∈ leaves ∧ f <= start_frontier l) ∧
    ∀ l, l ∈ leaves → start_frontier l ≠ chain_stop f chain.
Proof.
  intros Hf. apply (follow_spec k); [done|]. apply tally_bound.
Qed.

(** A chain among disjoint leaves is what is kept of them, in their order. *)
Definition before (a b : PreparedLeaf) : Prop := start_frontier a < start_frontier b.

Lemma contiguous_sorted k chain : ∀ f, contiguous f chain → Forall (leaf_shape k) chain → StronglySorted before chain ∧ Forall (λ l, f <= start_frontier l) chain.
Proof.
  induction chain as [|l chain IH]; intros f; [by split; constructor|]. intros [<- Hc] [Hl Hf]%Forall_cons.
  destruct (IH _ Hc Hf) as [Hs Hb]. pose proof (leaf_grows k l Hl). split.
  - apply StronglySorted_cons. split; [|done]. eapply Forall_impl; [exact Hb|]. intros x Hx. unfold before. cbn in Hx. lia.
  - apply Forall_cons. split; [done|]. eapply Forall_impl; [exact Hb|]. intros x Hx. cbn in Hx. lia.
Qed.

Lemma disjoint_sorted k leaves : disjoint_in_order leaves → Forall (leaf_shape k) leaves → StronglySorted before leaves.
Proof.
  induction leaves as [|l leaves IH]; [constructor|]. intros [Hall Hd]%StronglySorted_cons [Hl Hf]%Forall_cons.
  apply StronglySorted_cons. split; [|by apply IH]. eapply Forall_impl; [exact Hall|]. intros x Hx. unfold before. cbn in Hx.
  pose proof (leaf_grows k l Hl). lia.
Qed.

Lemma sorted_before_unique l1 : ∀ l2, StronglySorted before l1 → StronglySorted before l2 → (∀ x, x ∈ l1 ↔ x ∈ l2) → l1 = l2.
Proof.
  assert (∀ x l, StronglySorted before (x :: l) → x ∉ l) as Hirr.
  { intros x l [Hall _]%StronglySorted_cons Hx. rewrite Forall_forall in Hall. specialize (Hall x Hx). unfold before in Hall. lia. }
  induction l1 as [|a l1 IH]; intros [|b l2] H1 H2 Hx; [done|specialize (Hx b)|specialize (Hx a)|].
  { destruct Hx as [_ Hx]. specialize (Hx ltac:(left)). by apply not_elem_of_nil in Hx. }
  { destruct Hx as [Hx _]. specialize (Hx ltac:(left)). by apply not_elem_of_nil in Hx. }
  pose proof (Hirr _ _ H1) as Ha. pose proof (Hirr _ _ H2) as Hb.
  apply StronglySorted_cons in H1 as [A1 S1]. apply StronglySorted_cons in H2 as [A2 S2]. rewrite Forall_forall in A1, A2.
  assert (a = b) as ->.
  { pose proof (proj1 (Hx a) ltac:(left)) as Hab. pose proof (proj2 (Hx b) ltac:(left)) as Hba.
    apply elem_of_cons in Hab as [?|Hab]; [done|]. apply elem_of_cons in Hba as [?|Hba]; [done|].
    specialize (A2 a Hab). specialize (A1 b Hba). unfold before in *. lia. }
  f_equal. apply IH; [done..|]. intros x. specialize (Hx x). rewrite !elem_of_cons in Hx. split; intros Hin.
  - destruct (proj1 Hx (or_intror Hin)) as [->|?]; [done|done].
  - destruct (proj2 Hx (or_intror Hin)) as [->|?]; [done|done].
Qed.

Lemma chain_kept k leaves f chain : disjoint_in_order leaves → Forall (leaf_shape k) leaves → contiguous f chain →
  (∀ l, l ∈ chain → l ∈ leaves) → filter (λ l, l ∈ chain) leaves = chain.
Proof.
  intros Hd Hf Hc Hin. apply sorted_before_unique.
  - eapply sorted_sublist; [apply sublist_filter|by eapply disjoint_sorted].
  - apply (contiguous_sorted k chain f Hc). rewrite Forall_forall in Hf |- *. auto.
  - intros x. rewrite list_elem_of_filter. split; [by intros [? _]|]. intros Hx. by split; [|apply Hin].
Qed.

(** What [ready_chain] leaves cached, and returns. *)
Lemma ready_chain_spec path conversation f p : sound p →
  ∃ p' chain, ready_chain path conversation f p = Some (p', chain) ∧ sound p' ∧ takes p p' ∧
    cached (path, conversation) p' = chain ∧ contiguous f chain ∧ (∀ l, l ∈ chain → l ∈ cached (path, conversation) p) ∧
    ∀ l, l ∈ cached (path, conversation) p → start_frontier l ≠ chain_stop f chain.
Proof.
  intros Hp. set (k := (path, conversation)). unfold ready_chain. fold k.
  destruct (cached k p) as [|l0 leaves0] eqn:E.
  { exists p, []. split; [done|]. split; [done|]. split; [done|]. split; [done|]. split; [done|].
    by split; intros l ?%not_elem_of_nil. }
  rewrite <-E. clear E. set (leaves := cached k p). destruct (sound_each p Hp k) as (Hd & Hf & Hn). fold leaves in Hd, Hf, Hn.
  set (p1 := set_cache (od_move_to_end k (cache p)) p).
  assert (same_leaves p p1) as Hsame by (apply same_leaves_move; by destruct Hp).
  assert (sound p1) as Hp1 by (by eapply same_leaves_sound). assert (cached k p1 = leaves) as Hc1 by apply Hsame.
  destruct (follow_total k leaves f Hf) as (chain & -> & Hc & Hin & Hstop). cbn [mbind option_bind].
  assert (filter (λ l, l ∈ chain) leaves = chain) as Hkept by (eapply chain_kept; [done|done|done|]; intros l Hl; by apply Hin).
  eexists _, chain. split; [done|]. set (stale := filter (λ l, l ∉ chain) leaves).
  assert (∀ l, l ∈ leaves → l ∉ stale ↔ l ∈ chain) as Hstale.
  { intros l Hl. unfold stale. rewrite list_elem_of_filter. destruct (decide (l ∈ chain)); tauto. }
  case_bool_decide as Hs.
  - split; [done|]. split; [by apply same_leaves_takes|]. split; [|split; [done|split; [by apply Hin|done]]].
    rewrite Hc1, <-Hkept. symmetry. apply filter_kept. intros l Hl. apply Hstale; [done|]. rewrite Hs. apply not_elem_of_nil.
  - split; [by apply removed_sound|]. split; [transitivity p1; [by apply same_leaves_takes|apply removed_takes]|].
    split; [|split; [done|split; [by apply Hin|done]]].
    rewrite cached_remove_locked, bool_decide_eq_true_2, Hc1 by done. transitivity (filter (λ l, l ∈ chain) leaves); [by apply filter_agree|done].
Qed.

(** ** The other threads *)

(** The critical sections of the turn threads. *)
Inductive turn_step : prep → prep → Prop :=
  | Turn_enqueue j p : turn_step p (enqueue j p).1
  | Turn_discard path p : turn_step p (discard path p)
  | Turn_ready path conversation f p p' chain : ready_chain path conversation f p = Some (p', chain) → turn_step p p'
  | Turn_reject path conversation leaves reason p : turn_step p (reject path conversation leaves reason p)
  | Turn_promoted path conversation l p : turn_step p (promoted path conversation l p).

Lemma enqueue_same j p : same_leaves p (enqueue j p).1.
Proof.
  apply same_leaves_cache; unfold enqueue; case_bool_decide; try done; cbn; by case_bool_decide.
Qed.

Lemma counts_cache (f : key * list PreparedLeaf → Z) gone : ∀ p,
  cache (foldl (λ p e, count_by "wasted" (f e) p) p gone) = cache p ∧ generations (foldl (λ p e, count_by "wasted" (f e) p) p gone) = generations p.
Proof. induction gone as [|e gone IH]; intros p; [done|]. cbn. by destruct (IH (count_by "wasted" (f e) p)) as [-> ->]. Qed.

Lemma od_get_filter (P : key → Prop) `{!∀ k, Decision (P k)} k (d : list (key * list PreparedLeaf)) :
  od_get k (filter (λ e, P e.1) d) = if bool_decide (P k) then od_get k d else None.
Proof.
  induction d as [|[a v] d IH]; [by case_bool_decide|]. rewrite filter_cons. cbn [fst]. case_decide as Ha; rewrite ?od_get_cons, IH.
  - destruct (decide (a = k)) as [->|Hk]; [by rewrite !bool_decide_eq_true_2 by done|by rewrite (bool_decide_eq_false_2 (a = k))].
  - case_bool_decide as Hk; [|done]. by rewrite bool_decide_eq_false_2 by congruence.
Qed.

Lemma discard_view path p :
  cache (discard path p) = filter (λ e, e.1.1 ≠ path) (cache p) ∧
  generations (discard path p) = <[path := generation_of path p + 1]> (generations p).
Proof.
  unfold discard. cbn zeta.
  set (q := set_jobs _ (set_generations _ p)). set (gone := filter _ (cache q)).
  destruct (counts_cache (λ e, Z.of_nat (length e.2)) gone q) as [Hc Hg].
  split; [cbn [cache set_cache]; by rewrite Hc|]. cbn [generations set_cache]. by rewrite Hg.
Qed.
Lemma discard_cache path p : cache (discard path p) = filter (λ e, e.1.1 ≠ path) (cache p).
Proof. apply discard_view. Qed.
Lemma discard_generations path p : generations (discard path p) = <[path := generation_of path p + 1]> (generations p).
Proof. apply discard_view. Qed.

Lemma discard_get path k p : od_get k (cache (discard path p)) = if bool_decide (k.1 = path) then None else od_get k (cache p).
Proof.
  rewrite discard_cache. etransitivity; [exact (od_get_filter (λ k, k.1 ≠ path) k (cache p))|].
  by destruct (decide (k.1 = path)) as [E|E]; [rewrite bool_decide_eq_false_2, bool_decide_eq_true_2 by tauto|
    rewrite bool_decide_eq_true_2, bool_decide_eq_false_2 by done].
Qed.

Lemma cached_discard path k p : cached k (discard path p) = if bool_decide (k.1 = path) then [] else cached k p.
Proof.
  unfold cached. rewrite discard_get. case_bool_decide; done.
Qed.

Lemma discard_takes path p : takes p (discard path p).
Proof.
  split.
  - intros k. rewrite cached_discard. case_bool_decide; [apply sublist_nil_l|done].
  - intros path'. unfold generation_of. rewrite discard_generations. destruct (decide (path' = path)) as [->|Hne].
    + right. rewrite lookup_insert_eq. cbn. unfold generation_of. split; [lia|]. intros k Hk. rewrite cached_discard. by rewrite bool_decide_eq_true_2.
    + left. by rewrite lookup_insert_ne.
Qed.

Lemma turn_step_sound p p' : turn_step p p' → sound p → sound p' ∧ takes p p'.
Proof.
  intros [j q|path q|path c f q q' chain H|path c leaves reason q|path c l q] Hq.
  - pose proof (enqueue_same j q). split; [by eapply same_leaves_sound|by apply same_leaves_takes].
  - split; [|apply discard_takes]. apply (sound_taken q); [done|apply discard_takes| |].
    + destruct (sound_entries_ok q Hq) as [Hk Hn]. rewrite discard_cache. split.
      * eapply sublist_NoDup; [exact Hk|]. apply fmap_sublist, sublist_filter.
      * intros k. rewrite <-discard_cache, discard_get. by case_bool_decide.
    + unfold cached_leaves. rewrite discard_cache. apply leaf_count_sublist, sublist_filter.
  - destruct (ready_chain_spec path c f q Hq) as (q2 & chain2 & E & Hs & Ht & _). rewrite E in H. by injection H as <- <-.
  - split; [by apply removed_sound|apply removed_takes].
  - assert (same_leaves (remove_locked (path, c) [l] None q) (promoted path c l q)) as Hsame by by apply same_leaves_cache.
    split; [eapply same_leaves_sound; [exact Hsame|by apply removed_sound]|].
    transitivity (remove_locked (path, c) [l] None q); [apply removed_takes|by apply same_leaves_takes].
Qed.

Lemma turns_sound p p' : rtc turn_step p p' → sound p → sound p' ∧ takes p p'.
Proof.
  induction 1 as [p|p1 p2 p3 Hstep _ IH]; intros Hp; [done|]. destruct (turn_step_sound _ _ Hstep Hp) as [H2 T12].
  destruct (IH H2) as [H3 T23]. split; [done|by transitivity p2].
Qed.

(** ** Caching a leaf *)

Lemma evict_spec k v d : ∀ fuel p, cache p = d ++ [(k, v)] → entries_ok (cache p) → (length d ≤ fuel)%nat →
  ∃ d', cache (evict fuel k p) = d' ++ [(k, v)] ∧ d' `sublist_of` d ∧ generations (evict fuel k p) = generations p ∧
    ((cached_leaves (evict fuel k p) ≤ PER_PROCESS)%nat ∨ d' = []).
Proof.
  induction d as [|[a w] d IH]; intros fuel p Hc Hok Hfuel.
  - exists []. destruct fuel as [|fuel]; cbn [evict]; [by split; [|split; [|split; [|right]]]|]. rewrite Hc. cbn [app].
    rewrite (bool_decide_eq_false_2 (k ≠ k)), andb_false_r by (intros Hn; by apply Hn). rewrite Hc. by split; [|split; [|split; [|right]]].
  - cbn [app] in Hc. destruct fuel as [|fuel]; [cbn in Hfuel; lia|]. cbn [evict]. rewrite Hc.
    destruct (decide (PER_PROCESS < cached_leaves p)%nat) as [Hmany|Hfew]; cycle 1.
    { rewrite (bool_decide_eq_false_2 (_ < _)%nat) by done. cbn [andb]. exists ((a, w) :: d). split; [done|]. split; [done|].
      split; [done|]. left. lia. }
    rewrite (bool_decide_eq_true_2 (_ < _)%nat) by done. cbn [andb].
    destruct Hok as [Hk Hn]. rewrite Hc in Hk, Hn. cbn in Hk. apply NoDup_cons in Hk as [Ha Hk].
    assert (a ≠ k) as Hak. { intros ->. apply Ha. rewrite fmap_app. apply elem_of_app. right. by left. }
    rewrite bool_decide_eq_true_2 by done.
    assert (cached a p = w) as Hw. { unfold cached. by rewrite Hc, od_get_cons, bool_decide_eq_true_2. }
    assert (w ≠ []) as Hwne. { intros ->. apply (Hn a). by rewrite od_get_cons, bool_decide_eq_true_2. }
    assert (cache (remove_locked a w (Some "stale_evicted") p) = d ++ [(k, v)]) as Hrest.
    { rewrite remove_locked_cache, Hw by congruence. replace (filter (λ l, l ∉ w) w) with (@nil PreparedLeaf).
      - rewrite Hc, od_delete_cons, bool_decide_eq_true_2 by done. by apply od_delete_id.
      - symmetry. apply elem_of_nil_inv. intros x Hx. apply list_elem_of_filter in Hx as [Hx Hx']. by apply Hx. }
    destruct (IH fuel (remove_locked a w (Some "stale_evicted") p)) as (d' & E & Hs & Hg & Hend); [done| |cbn in Hfuel; lia|].
    { rewrite Hrest. split; [done|]. intros k'. specialize (Hn k'). rewrite od_get_cons in Hn.
      destruct (decide (a = k')) as [->|Hne]; [|by rewrite bool_decide_eq_false_2 in Hn by done].
      apply od_get_None in Ha. by rewrite Ha. }
    exists d'. split; [done|]. split; [by constructor|]. split; [by rewrite Hg, remove_locked_generations|done].
Qed.

Lemma sorted_snoc_disjoint leaves l : disjoint_in_order leaves → (∀ x, x ∈ leaves → covered_end x <= start_frontier l) → disjoint_in_order (leaves ++ [l]).
Proof.
  intros Hd He. apply StronglySorted_app_2; [|done|by repeat constructor].
  intros x y Hx ->%list_elem_of_singleton. by apply He.
Qed.

(** A leaf is cached after those of its conversation; what else goes is evicted. *)
Lemma cache_leaf_spec j l p : sound p → generation_of (db_path j) p = generation j → leaf_shape (job_key j) l →
  (∀ x, x ∈ cached (job_key j) p → covered_end x <= start_frontier l) → (length (cached (job_key j) p) < PER_CONVERSATION)%nat →
  let p' := (cache_leaf j l p).1 in
  (cache_leaf j l p).2 = true ∧ sound p' ∧ cached (job_key j) p' = cached (job_key j) p ++ [l] ∧
  (∀ k, k ≠ job_key j → cached k p' `sublist_of` cached k p) ∧ generations p' = generations p.
Proof.
  intros Hp Hgen Hl Hends Hlen. cbv zeta. unfold cache_leaf. rewrite bool_decide_eq_false_2 by tauto. cbn [fst snd].
  set (k := job_key j) in *. set (v := cached k p ++ [l]). set (c := od_move_to_end k (od_set k v (cache p))).
  destruct (sound_entries_ok p Hp) as [Hk Hn].
  assert (c = od_delete k (od_set k v (cache p)) ++ [(k, v)]) as Hc.
  { subst c. unfold od_move_to_end. by rewrite od_get_set, bool_decide_eq_true_2. }
  assert (∀ k', od_get k' c = if bool_decide (k' = k) then Some v else od_get k' (cache p)) as Hget.
  { intros k'. subst c. by rewrite od_get_move, od_get_set. }
  assert (entries_ok c) as Hok.
  { split; [apply od_move_nodup, od_set_nodup, Hk|]. intros k'. rewrite Hget. case_bool_decide; [|done]. intros [= E]. by apply app_nil in E as [_ ?]. }
  set (p1 := count_by "prepared" 1 (set_cache c p)). change (cache p1) with c.
  destruct (evict_spec k v (od_delete k (od_set k v (cache p))) (length c) p1) as (d' & E & Hs & Hg & Hend);
    [exact Hc|exact Hok|rewrite Hc, length_app; cbn; lia|].
  set (p' := evict (length c) k p1) in *. split; [done|].
  assert (k ∉ d'.*1) as Hk'.
  { intros Hin. apply (od_delete_not_in k (od_set k v (cache p))). eapply elem_of_sublist; [exact Hin|by apply fmap_sublist]. }
  assert (NoDup (cache p').*1) as Hnd.
  { rewrite E. destruct Hok as [Hnd _]. rewrite Hc in Hnd. eapply sublist_NoDup; [exact Hnd|]. apply fmap_sublist. by apply sublist_app. }
  assert (∀ k', k' ≠ k → od_get k' (cache p') = None ∨ od_get k' (cache p') = od_get k' (cache p)) as Hother.
  { intros k' Hne. rewrite E, od_get_app, od_get_cons, (bool_decide_eq_false_2 (k = k')) by done.
    destruct (od_get k' d') as [w|] eqn:Ew; [right|by left].
    pose proof (od_get_sublist k' w _ _ (od_delete_nodup k _ (od_set_nodup k v _ Hk)) Hs Ew) as G.
    by rewrite od_get_delete, od_get_set, (bool_decide_eq_false_2 (k' = k)) in G by done. }
  assert (od_get k (cache p') = Some v) as Hmine.
  { rewrite E, od_get_app. apply od_get_None in Hk'. by rewrite Hk', od_get_cons, bool_decide_eq_true_2. }
  assert (∀ k', k' ≠ k → cached k' p' `sublist_of` cached k' p) as Hsub.
  { intros k' Hne. unfold cached. destruct (Hother k' Hne) as [->| ->]; [apply sublist_nil_l|done]. }
  split; [|split; [unfold cached at 1; by rewrite Hmine|by split]].
  split; [exact Hnd| | |].
  - intros k'. destruct (decide (k' = k)) as [->|Hne]; [rewrite Hmine; intros [= H0]; by apply app_nil in H0 as [_ ?]|].
    by destruct (Hother k' Hne) as [->| ->].
  - intros k'. destruct (decide (k' = k)) as [->|Hne]; [|eapply conversation_sublist; [by apply Hsub|apply sound_each, Hp]].
    unfold cached. rewrite Hmine. change (default [] (Some v)) with v. destruct (sound_each p Hp k) as (Hd & Hf & _). split; [by apply sorted_snoc_disjoint|].
    split; [by apply Forall_app; split; [|constructor]|]. subst v. rewrite length_app. cbn [length]. lia.
  - destruct Hend as [?|Hd]; [done|]. unfold cached_leaves. rewrite E, Hd.
    cbn [app sum_list_with snd]. subst v. rewrite length_app. cbn [length].
    unfold PER_PROCESS, PER_CONVERSATION in *. lia.
Qed.

Lemma cache_leaf_refused j l p : generation_of (db_path j) p ≠ generation j → cache_leaf j l p = (p, false).
Proof. intros H. unfold cache_leaf. by rewrite bool_decide_eq_true_2. Qed.
