(* ===== verification/LeafPrepResults.v ===== *)
(** What preparing leaves promises: every leaf in the cache summarizes exactly the rows its
    job read above the durable frontier, whatever the other threads do meanwhile; and what
    its promotion then publishes.

    The worker is reasoned about by its weakest precondition [wp]. *)

From S2P Require Import Prelude PyText Lifecycle Publication Messages FreshTail Chunking SpendGuard CircuitBreaker SummaryOutcome.
From S2P Require Import Escalation LeafSummary LeafPrep LeafPrepProofs.
From stdpp Require Import options.

#[local] Open Scope Z_scope.
#[local] Arguments od_get : simpl never.

(** ** The rows of a range *)

(** The map cached for the store, of some earlier probe of it. *)
Definition probed (legacy : string → list (option string)) : Prop := ∃ ms, legacy = refresh_legacy_conversation_ids ms.

Lemma owned_values_NoDup legacy conversation : probed legacy → NoDup (owned_conversation_values legacy conversation).
Proof.
  intros [ms ->]. unfold owned_conversation_values. set (wanted := remove_dups _).
  assert (∀ s, s ∈ wanted → s = PyText.strip s) as Hw.
  { intros s Hs. unfold wanted in Hs. rewrite elem_of_remove_dups in Hs. apply elem_of_cons in Hs as [->|Hs%list_elem_of_singleton].
    - by rewrite strip_idemp.
    - subst. by rewrite strip_empty. }
  apply NoDup_app. split; [apply NoDup_fmap_2; [apply _|apply NoDup_remove_dups]|]. split.
  - intros x (s & -> & Hs)%list_elem_of_fmap (k & Hk & _)%list_elem_of_bind.
    apply list_elem_of_filter in Hk as [[Hu _] _]. cbn in Hu. apply bool_decide_eq_true in Hu. by apply Hu, Hw.
  - apply NoDup_bind.
    + intros k1 k2 v _ _ H1 H2. apply list_elem_of_filter in H1 as [[_ <-] _]. by apply list_elem_of_filter in H2 as [[_ <-] _].
    + intros k _. apply NoDup_filter, NoDup_remove_dups.
    + apply NoDup_remove_dups.
Qed.

Lemma take_short {A} n (l : list A) : (length (take n l) < n)%nat → take n l = l.
Proof. rewrite length_take. intros H. apply take_ge. lia. Qed.

Lemma take_length_take {A} n (l : list A) : take (length (take n l)) l = take n l.
Proof.
  rewrite length_take. destruct (decide (n ≤ length l)%nat); [by rewrite Nat.min_l|]. by rewrite Nat.min_r, !take_ge by lia.
Qed.

Definition owned_above (legacy : string → list (option string)) (session conversation : string) (after : Z) (d : database) (r : stored) : Prop :=
  messages d !! r.1 = Some r.2 ∧ message_session_id r.2 = session ∧
  message_conversation_id r.2 ∈ owned_conversation_values legacy conversation ∧ after < r.1.

Lemma strictly_sorted (l : list stored) : StronglySorted stored_le l → NoDup l.*1 → StronglySorted Z.lt l.*1.
Proof.
  induction l as [|r l IH]; [constructor|]. rewrite fmap_cons. intros [Hall Hs]%StronglySorted_cons [Hr Hnd]%NoDup_cons.
  apply StronglySorted_cons. split; [|by apply IH]. rewrite Forall_forall in Hall. apply Forall_forall. intros i Hi.
  assert (i ≠ r.1) by congruence. apply list_elem_of_fmap in Hi as (x & -> & Hx). specialize (Hall x Hx). unfold stored_le in Hall. lia.
Qed.

(** A range read within its limit is complete, in the order of the store. *)
Lemma range_complete legacy session conversation after n d : probed legacy →
  (length (select_conversation_range legacy session conversation after None (Some n) d) < n)%nat →
  let rows := select_conversation_range legacy session conversation after None (Some n) d in
  StronglySorted Z.lt rows.*1 ∧ ∀ r, r ∈ rows ↔ owned_above legacy session conversation after d r.
Proof.
  intros Hl. unfold select_conversation_range, limited.
  set (all := rows_under session after None d).
  set (S := owned_conversation_values legacy conversation ≫= _). cbv zeta. intros Hn.
  pose proof (take_short _ _ Hn) as Hfull. rewrite Hfull in Hn |- *.
  assert (∀ v r, r ∈ all v ↔ message_conversation_id r.2 = v ∧ in_range session after None r = true ∧ messages d !! r.1 = Some r.2) as Hall.
  { intros v [i r]. unfold all, rows_under. rewrite merge_sort_Permutation, list_elem_of_filter, elem_of_map_to_list. cbn. tauto. }
  rewrite (merge_sort_Permutation stored_le S) in Hn.
  assert (∀ v, v ∈ owned_conversation_values legacy conversation → take n (all v) = all v) as Hseek.
  { intros v Hv. apply take_short. apply list_elem_of_split in Hv as (l1 & l2 & E). unfold S in Hn. rewrite E in Hn.
    rewrite bind_app, length_app, bind_cons, length_app in Hn. lia. }
  assert (∀ r, r ∈ S ↔ owned_above legacy session conversation after d r) as Hin.
  { intros r. unfold S, owned_above. rewrite list_elem_of_bind. split.
    - intros (v & Hr & Hv). rewrite (Hseek v Hv), Hall in Hr. destruct Hr as (<- & Hr & Hm). unfold in_range in Hr.
      rewrite andb_true_r, andb_true_iff, !bool_decide_eq_true in Hr. tauto.
    - intros (Hm & Hs & Hv & Ha). exists (message_conversation_id r.2). split; [|done]. rewrite (Hseek _ Hv), Hall.
      split; [done|]. split; [|done]. unfold in_range. by rewrite !bool_decide_eq_true_2 by done. }
  assert (NoDup S) as HS.
  { unfold S. apply NoDup_bind; [| |by apply owned_values_NoDup].
    - intros v1 v2 r Hv1 Hv2 H1 H2. rewrite Hseek in H1, H2 by done. apply Hall in H1 as [<- _]. by apply Hall in H2 as [<- _].
    - intros v Hv. rewrite Hseek by done. unfold all, rows_under. rewrite merge_sort_Permutation. apply NoDup_filter, NoDup_map_to_list. }
  assert (NoDup (merge_sort stored_le S).*1) as Hnd.
  { rewrite merge_sort_Permutation. apply NoDup_fmap_2_strong; [|done]. intros [i r] [i' r'] H1 H2 E. cbn in E. subst i'.
    apply Hin in H1 as [H1 _]. apply Hin in H2 as [H2 _]. cbn in H1, H2. by rewrite H1 in H2; injection H2 as ->. }
  split; [|intros r; by rewrite merge_sort_Permutation, Hin].
  apply strictly_sorted; [|done]. apply StronglySorted_merge_sort; [|].
  - intros x y z. unfold stored_le. lia.
  - intros x y. unfold stored_le. lia.
Qed.

(** ** Sorted ids *)

Lemma sorted_app_lt (l1 l2 : list Z) x y : StronglySorted Z.lt (l1 ++ l2) → x ∈ l1 → y ∈ l2 → x < y.
Proof. intros Hs. by eapply StronglySorted_app_1_elem_of. Qed.

Lemma sorted_max s ids x : StronglySorted Z.lt (s :: ids) → last ids = Some x → foldr Z.max s ids = x.
Proof.
  intros Hs Hx. apply last_Some in Hx as [ids' ->]. apply StronglySorted_cons in Hs as [Hall Hs].
  rewrite Forall_forall in Hall. apply Z.le_antisymm.
  - pose proof (foldr_max_in (ids' ++ [x]) s) as [E|[Hin|Hin%list_elem_of_singleton]%elem_of_app]%elem_of_cons.
    + rewrite E. specialize (Hall x). assert (s < x); [|lia]. apply Hall. apply elem_of_app. right. by left.
    + pose proof (sorted_app_lt ids' [x] _ x Hs Hin ltac:(by left)). lia.
    + lia.
  - apply foldr_max_ge. right. apply elem_of_app. right. by left.
Qed.

Lemma following_next all pre r rest : all = pre ++ r :: rest → NoDup all.*1 → following all r.1 = head rest.
Proof.
  intros ->. induction pre as [|x pre IH]; cbn [app following fmap list_fmap]; intros Hnd.
  - by rewrite bool_decide_eq_true_2.
  - apply NoDup_cons in Hnd as [Hx Hnd]. rewrite bool_decide_eq_false_2; [by apply IH|].
    intros E. apply Hx. rewrite E. apply list_elem_of_fmap. exists r. split; [done|]. apply elem_of_app. right. by left.
Qed.

Lemma sorted_ids_NoDup (l : list Z) : StronglySorted Z.lt l → NoDup l.
Proof.
  induction l as [|x l IH]; [constructor|]. intros [Hall Hs]%StronglySorted_cons. apply NoDup_cons. split; [|by apply IH].
  intros Hx. rewrite Forall_forall in Hall. specialize (Hall x Hx). lia.
Qed.

(** ** Why a leaf may be promoted *)

Section justified.
Context {HT : Tokens}.
Variable env : surroundings.

(** The first row of [all] that the fresh tail protects. *)
Definition tail_start (j : Job) (all : list stored) : nat :=
  FreshTail.start (resolve_fresh_tail_boundary (messages_of env all) (fresh_tail_count (config j)) (fresh_tail_max_tokens j)).

(** Rows that the preparation accounts for: in some state of the database no node covered
    them, and in some state no other session's row of the conversation lay below them. *)
Record eligible (j : Job) (rows : list stored) : Prop := {
  eligible_row : ∀ r, r ∈ rows → is_system r = false ∧
    excluded_from_summary_input (short_hash env) (tool_calls_identity env) (job_session j) (dependent_records j) r = false;
  eligible_uncovered : ∃ d, ∀ r, r ∈ rows → node_covered (summary_nodes d) r.1 = false;
  eligible_own : ∃ d, ∀ r i other, r ∈ rows → messages d !! i = Some other → frontier j < i → i < r.1 →
    message_conversation_id other = Some (job_conversation j) → message_session_id other = job_session j }.

(** What a leaf of a job says of a state of the database: the rows read above the
    frontier are some rows that earlier leaves account for, or else the excluded system
    prompts, then the rows that the leaf covers, outside the fresh tail, and the rest; and
    the summary is what the rescue gave for the covered rows. *)
Definition accounted (j : Job) (l : PreparedLeaf) (d : database) : Prop :=
  ∃ earlier covered rest,
    select_conversation_range (legacy env) (job_session j) (job_conversation j) (frontier j) None (Some SCAN_LIMIT) d
      = earlier ++ covered ++ rest ∧
    (length (earlier ++ covered ++ rest) < SCAN_LIMIT)%nat ∧
    covered ≠ [] ∧ covered.*1 = covered_store_ids l ∧ digest l = coverage_digest (hash env) covered ∧
    (length (earlier ++ covered) ≤ tail_start j (earlier ++ covered ++ rest))%nat ∧
    (start_frontier l = frontier j ∧ Forall (λ r, is_system r = true) earlier ∧ excluded_store_ids l = earlier.*1 ∨
     (∃ r, last earlier = Some r ∧ start_frontier l = r.1) ∧ excluded_store_ids l = []) ∧
    eligible j covered ∧
    host_unit_boundary (last covered) (head rest) = true ∧
    ∃ chunk r, LeafSummary.chunk r = messages_of env covered ∧
      comes_from (leaf (config j)) (call_service (model env) j) chunk r ∧
      summary l = LeafSummary.summary r ∧ level l = result_level r ∧ source_tokens l = count_messages_tokens (messages_of env covered) ∧
      summary_tokens l = text_tokens env (summary l) ∧ (level l = 3 → level_3_verbatim r = true).

(** A leaf that its job may publish: it was read in some state of the database. *)
Record justified (j : Job) (l : PreparedLeaf) : Prop := {
  just_owner : leaf_session l = job_session j ∧ leaf_conversation l = job_conversation j ∧ route_fingerprint l = fingerprint j;
  just_read : ∃ d, accounted j l d }.

(** ** The invariant of the process *)

(** Each cached leaf was cached by a job of its conversation and of the current
    generation of its database. *)
Definition fenced (log : list (Job * PreparedLeaf)) (p : prep) : Prop :=
  ∀ k l, l ∈ cached k p → ∃ j, (j, l) ∈ log ∧ job_key j = k ∧ generation j = generation_of k.1 p.

Definition good (log : list (Job * PreparedLeaf)) (p : prep) : Prop := sound p ∧ fenced log p.

Record inv (w : world) : Prop := {
  inv_good : good (noted w) (process w);
  inv_seen : Forall (good (noted w)) (seen w);
  inv_noted : ∀ j l, (j, l) ∈ noted w → justified j l }.

Lemma fenced_takes log p p' : fenced log p → takes p p' → fenced log p'.
Proof.
  intros Hf [Hs Hg] k l Hl. destruct (Hf k l) as (j & Hj & Hk & Hgen); [by eapply elem_of_sublist|].
  exists j. split; [done|]. split; [done|]. destruct (Hg k.1) as [->|[_ Hnone]]; [done|].
  rewrite Hnone in Hl by done. by apply not_elem_of_nil in Hl.
Qed.
Lemma good_takes log p p' : good log p → sound p' → takes p p' → good log p'.
Proof. intros [_ Hf] Hs Ht. split; [done|by eapply fenced_takes]. Qed.
Lemma good_log log x p : good log p → good (log ++ [x]) p.
Proof.
  intros [Hs Hf]. split; [done|]. intros k l Hl. destruct (Hf k l Hl) as (j & Hj & ?). exists j. split; [|done]. apply elem_of_app. by left.
Qed.

(** ** Weakest preconditions *)

Definition wp {A} (m : W A) (P : A → world → Prop) (E : exit → world → Prop) (w : world) : Prop :=
  match m w with (Ok a, w') => P a w' | (Err e, w') => E e w' end.

Lemma wpw_bind {A C} (m : W A) (f : A → W C) P E w : wp m (λ a, wp (f a) P E) E w → wp (m ≫= f) P E w.
Proof. unfold wp, mbind, W_bind. by destruct (m w) as [[a|e] w']. Qed.
Lemma wpw_mono {A} (m : W A) (P Q : A → world → Prop) (E F : exit → world → Prop) w :
  wp m P E w → (∀ a w', P a w' → Q a w') → (∀ e w', E e w' → F e w') → wp m Q F w.
Proof. unfold wp. destruct (m w) as [[a|e] w']; auto. Qed.
Lemma wpw_then {A} (m : W A) (P Q : A → world → Prop) E w : wp m P E w → (∀ a w', P a w' → Q a w') → wp m Q E w.
Proof. intros. by eapply wpw_mono. Qed.
Lemma wpw_ret {A} (a : A) (P : A → world → Prop) (E : exit → world → Prop) w : P a w → wp (mret a) P E w.
Proof. done. Qed.
Lemma wpw_change f (P : unit → world → Prop) (E : exit → world → Prop) w : P tt (f w) → wp (change f) P E w.
Proof. done. Qed.
Lemma wpw_look {A} (f : world → A) (P : A → world → Prop) (E : exit → world → Prop) w : P (f w) w → wp (look f) P E w.
Proof. done. Qed.

Variable others : nat → prep * database → prep * database.
Hypothesis others_turn : ∀ n p d, rtc turn_step p (others n (p, d)).1.

(** The world after an access that left the lock's state [p] and found the database [d]. *)
Definition arrive (p : prep) (d : database) (w : world) : world :=
  {| process := p; store := d; accesses := S (accesses w); call_slot := call_slot w; spend_guards := spend_guards w;
     noted := noted w; seen := seen w ++ [p] |}.

Lemma wpw_access {A} (f : nat → prep → database → prep * result exit A) (P : A → world → Prop) E w : inv w →
  (∀ p d, sound p → takes (process w) p →
     match f (accesses w) p d with (p', Ok a) => P a (arrive p' d w) | (p', Err e) => E e (arrive p' d w) end) →
  wp (access others f) P E w.
Proof using others_turn.
  intros Hw H. unfold wp, access. destruct (others (accesses w) (process w, store w)) as [p d] eqn:E0.
  pose proof (others_turn (accesses w) (process w) (store w)) as Ht. rewrite E0 in Ht. cbn in Ht.
  destruct (turns_sound _ _ Ht) as [Hp Htakes]; [apply Hw|]. specialize (H p d Hp Htakes).
  destruct (f (accesses w) p d) as [p' [a|e]]; exact H.
Qed.

(** What is kept when leaves go: [inv] and [S] of the lock's state. *)
Definition hold (S : prep → Prop) (w : world) : Prop := inv w ∧ S (process w).
Definition persists (S : prep → Prop) : Prop := ∀ p p', takes p p' → S p → S p'.

Lemma hold_arrive S w p d : persists S → hold S w → sound p → takes (process w) p → hold S (arrive p d w).
Proof.
  intros HS [[Hg Hs Hn] Hh] Hp Ht. assert (good (noted w) p) as Hgp by by eapply good_takes.
  split; [|by apply (HS (process w))]. split; cbn; [done| |done]. apply Forall_app. by split; [|constructor].
Qed.

Lemma hold_same S w w' : hold S w → process w' = process w → noted w' = noted w → seen w' = seen w → hold S w'.
Proof. intros [[Hg Hs Hn] Hh] Ep En Es. split; [split|]; by rewrite ?En, ?Ep, ?Es. Qed.

Definition out : exit → world → Prop := λ _ w, inv w.

Section accesses.
Context (S : prep → Prop) (HS : persists S).

(** A critical section that only takes leaves away. *)
Lemma wpw_locked {A} (f : prep → prep * A) (P : A → world → Prop) w : hold S w →
  (∀ p d, sound p → takes (process w) p →
     (sound (f p).1 ∧ takes p (f p).1) ∧ (hold S (arrive (f p).1 d w) → P (f p).2 (arrive (f p).1 d w))) →
  wp (locked others f) P out w.
Proof using HS others_turn.
  intros Hw H. apply wpw_access; [apply Hw|]. intros p d Hp Ht. destruct (H p d Hp Ht) as [[Hs Htk] HP].
  destruct (f p) as [p' a]. cbn in *. apply HP. apply hold_arrive; [done|done|done|by transitivity p].
Qed.

Lemma wpw_observe {A} (f : nat → A) (P : A → world → Prop) w : hold S w → (∀ w', hold S w' → P (f (accesses w)) w') → wp (observe others f) P out w.
Proof using HS others_turn.
  intros Hw H. apply wpw_access; [apply Hw|]. intros p d Hp Ht. apply H. by apply hold_arrive.
Qed.

Lemma wpw_query {A} (f : database → A) (P : A → world → Prop) w : hold S w → (∀ d w', hold S w' → P (f d) w') → wp (query env others f) P out w.
Proof using HS others_turn.
  intros Hw H. apply wpw_access; [apply Hw|]. intros p d Hp Ht. pose proof (hold_arrive S w p d HS Hw Hp Ht) as Hh.
  destruct (read_fails env (accesses w)); [apply Hh|by apply H].
Qed.

Lemma wpw_bump name (P : unit → world → Prop) w : hold S w → (∀ w', hold S w' → P tt w') → wp (bump others name) P out w.
Proof using HS others_turn.
  intros Hw H. apply wpw_locked; [done|]. intros p d Hp Ht. cbn. split; [|apply H].
  assert (same_leaves p (count_by name 1 p)) as Hsame by by apply same_leaves_cache.
  split; [by eapply same_leaves_sound|by apply same_leaves_takes].
Qed.

Lemma wpw_generation j (P : bool → world → Prop) w : hold S w → (∀ b w', hold S w' → P b w') → wp (current_generation others j) P out w.
Proof using HS others_turn. intros Hw H. apply wpw_locked; [done|]. intros p d Hp Ht. cbn. split; [done|apply H]. Qed.

Lemma wpw_current j (P : bool → world → Prop) w : hold S w → (∀ b w', hold S w' → P b w') → wp (current env others j) P out w.
Proof using HS others_turn.
  intros Hw H. apply wpw_bind, wpw_generation; [done|]. intros [] w' Hw'; [|by apply wpw_ret, H].
  apply wpw_query; [done|]. intros d. apply H.
Qed.

Lemma wpw_put_guard j g (P : unit → world → Prop) w : hold S w → (∀ w', hold S w' → P tt w') → wp (put_guard j g) P out w.
Proof using Type. intros Hw H. apply H. by apply (hold_same S w). Qed.

Lemma wpw_may_call j (P : bool → world → Prop) w : hold S w → (∀ b w', hold S w' → P b w') → wp (may_call env others j) P out w.
Proof using HS others_turn.
  intros Hw H. apply wpw_bind, wpw_observe; [done|]. intros w1 H1. destruct (negb _); [by apply wpw_ret, H|].
  apply wpw_bind, wpw_observe; [done|]. intros w2 H2. destruct (foreground_short env _); [by apply wpw_ret, H|].
  apply wpw_bind, wpw_observe; [done|]. intros w3 H3. apply wpw_bind, wpw_look.
  destruct (SpendGuard.allows _ _) as [g ok]. apply wpw_bind, wpw_put_guard; [done|]. intros w4 H4. by apply wpw_ret, H.
Qed.

Lemma wpw_get_guard j (P : guard → world → Prop) w : hold S w → (∀ g w', hold S w' → P g w') → wp (get_guard env others j) P out w.
Proof using HS others_turn.
  intros Hw H. apply wpw_bind, wpw_observe; [done|]. intros w1 H1. apply wpw_bind, wpw_look.
  destruct (job_guard _ j (spend_guards w1)) as [[guards g]|].
  - apply wpw_bind, wpw_change, wpw_ret, H. by apply (hold_same S w1).
  - apply wpw_bind, wpw_bump; [done|]. intros w2 H2. apply H2.
Qed.

(** The summary is what the rescue gives for the chunk. *)
Lemma wpw_summarize j chunk (P : option LeafSummaryResult → world → Prop) w : hold S w → chunk ≠ [] →
  (∀ w', hold S w' → P None w') →
  (∀ r w', hold S w' → comes_from (leaf (config j)) (call_service (model env) j) chunk r → P (Some r) w') →
  wp (summarize env others j chunk) P out w.
Proof using HS others_turn.
  intros Hw Hne HN HR. apply wpw_bind, wpw_look. destruct (negb (call_slot w)); [by apply wpw_ret, HN|].
  apply wpw_bind, wpw_change. assert (hold S (set_call_slot false w)) as H0 by by apply (hold_same S w).
  assert (∀ w', hold S w' → hold S (set_call_slot true w')) as Hfree by (intros w' H'; by apply (hold_same S w')).
  apply wpw_bind, wpw_generation; [done|]. intros b w1 H1. destruct (negb b).
  { apply wpw_bind, wpw_change, wpw_ret, HN. by apply Hfree. }
  apply wpw_bind, wpw_look.
  pose proof (rescue_loop_spec (leaf (config j)) (text_tokens env) (call_service (model env) j) chunk MAX_ATTEMPTS 0 chunk
    (leaf_chunk_tokens (leaf (config j))) (enter_call (model env) (accesses w1) (guard_now j w1))
    ltac:(unfold MAX_ATTEMPTS; lia) eq_refl (whole_prefix_refl _ Hne)) as Hr.
  unfold id, summarize_leaf_chunk_with_rescue. destruct (rescue_loop _ _ _ _ _ _ _ _) as [r s].
  apply wpw_bind, wpw_put_guard; [done|]. intros w2 H2. destruct r as [r|e].
  - apply wpw_bind, wpw_change, wpw_ret, HR; [by apply Hfree|exact Hr].
  - destruct e; try (apply wpw_bind, wpw_bump; [done|]; intros w3 H3); apply wpw_bind, wpw_change, wpw_ret, HN; by apply Hfree.
Qed.

End accesses.

(** ** A leaf *)

Hypothesis legacy_probed : probed (legacy env).

(** How the rows read are laid out: system prompts, the rows for leaves, and the rest. *)
Record layout (j : Job) (all rows : list stored) (anchors : list Z) : Prop := {
  lay_read : ∃ d, all = select_conversation_range (legacy env) (job_session j) (job_conversation j) (frontier j) None (Some SCAN_LIMIT) d;
  lay_limit : (length all < SCAN_LIMIT)%nat;
  lay_split : ∃ lead rest, all = lead ++ rows ++ rest ∧ Forall (λ r, is_system r = true) lead ∧ anchors = lead.*1 ∧
    (length (lead ++ rows) ≤ tail_start j all)%nat;
  lay_eligible : eligible j rows }.

(** Where the chain ends among the rows. *)
Record placed (j : Job) (rows : list stored) (chain : list PreparedLeaf) (position : nat) : Prop := {
  placed_contiguous : contiguous (frontier j) chain;
  placed_shapes : Forall (leaf_shape (job_key j)) chain;
  placed_at : chain = [] ∧ position = O ∨
    chain ≠ [] ∧ ∃ r, last (take position rows) = Some r ∧ chain_stop (frontier j) chain = r.1 }.

Lemma layout_sorted j all rows anchors : layout j all rows anchors → StronglySorted Z.lt all.*1 ∧ ∀ r, r ∈ all → frontier j < r.1.
Proof using legacy_probed.
  intros [[d E] Hl _ _]. rewrite E in Hl |- *. destruct (range_complete _ _ _ _ _ _ legacy_probed Hl) as [Hs Hin].
  split; [done|]. intros r Hr. by apply Hin in Hr as (_ & _ & _ & ?).
Qed.

Lemma contiguous_app f chain l : contiguous f (chain ++ [l]) ↔ contiguous f chain ∧ start_frontier l = chain_stop f chain.
Proof using Type.
  revert f. induction chain as [|m chain IH]; intros f; [cbn; tauto|]. cbn [app contiguous]. rewrite IH, chain_stop_cons. tauto.
Qed.
Lemma contiguous_prefix f c1 c2 : contiguous f (c1 ++ c2) → contiguous f c1.
Proof using Type. revert f. induction c1 as [|l c1 IH]; intros f; [done|]. cbn. intros [? ?]. split; [done|by apply IH]. Qed.
Lemma chain_stop_snoc f chain l : chain_stop f (chain ++ [l]) = covered_end l.
Proof using Type. unfold chain_stop. by rewrite last_snoc. Qed.

Lemma eligible_sub j rows rows' : (∀ r, r ∈ rows' → r ∈ rows) → eligible j rows → eligible j rows'.
Proof using Type.
  intros Hsub [H1 [d2 H2] [d3 H3]]. split; [by intros r Hr; apply H1, Hsub|exists d2; by intros r Hr; apply H2, Hsub|].
  exists d3. intros r i o Hr. apply H3. by apply Hsub.
Qed.

(** The rows around a leaf that takes the next [covered] ones. *)
Lemma split_rows j all rows anchors position n covered : layout j all rows anchors → covered = take n (drop position rows) → covered ≠ [] →
  ∃ lead rest, all = (lead ++ take position rows) ++ covered ++ rest ∧ Forall (λ r, is_system r = true) lead ∧ anchors = lead.*1 ∧
    (length ((lead ++ take position rows) ++ covered) ≤ tail_start j all)%nat ∧ rows = take position rows ++ covered ++ drop n (drop position rows).
Proof using Type.
  intros [_ _ (lead & rest & Hall & Hsys & Hanch & Htail) _] Hc Hne. exists lead, (drop n (drop position rows) ++ rest).
  assert (rows = take position rows ++ covered ++ drop n (drop position rows)) as Hrows by (subst covered; by rewrite !take_drop).
  split; [rewrite Hall; rewrite Hrows at 1; by rewrite <-!app_assoc|]. split; [done|]. split; [done|]. split; [|done].
  rewrite Hrows in Htail. rewrite !length_app in *. lia.
Qed.

(** The new leaf starts below its rows. *)
Lemma start_below j all rows anchors chain position n covered : layout j all rows anchors → placed j rows chain position →
  covered = take n (drop position rows) → covered ≠ [] → StronglySorted Z.lt (chain_stop (frontier j) chain :: covered.*1).
Proof using legacy_probed.
  intros Hlay Hpl Hc Hne. destruct (layout_sorted _ _ _ _ Hlay) as [Hs Habove].
  destruct (split_rows _ _ _ _ _ _ _ Hlay Hc Hne) as (lead & rest & Hall & _ & _ & _ & _). rewrite Hall, !fmap_app in Hs.
  apply StronglySorted_cons. split; [|by apply StronglySorted_app_1_r, StronglySorted_app_1_l in Hs].
  apply Forall_forall. intros i Hi. destruct (placed_at _ _ _ _ Hpl) as [[-> _]|(_ & r & Hr & ->)].
  - apply list_elem_of_fmap in Hi as (r & -> & Hr). apply Habove. rewrite Hall, !elem_of_app. tauto.
  - apply (sorted_app_lt _ _ _ _ Hs); [|apply elem_of_app; by left]. apply elem_of_app. right.
    apply last_Some in Hr as [l' ->]. rewrite fmap_app. apply elem_of_app. right. by left.
Qed.

Lemma unit_end_next j all rows anchors position n covered lead rest : layout j all rows anchors →
  covered = take n (drop position rows) → covered ≠ [] → all = (lead ++ take position rows) ++ covered ++ rest →
  unit_end all rows (position + length covered) = true → host_unit_boundary (last covered) (head rest) = true.
Proof using legacy_probed.
  intros Hlay Hc Hne Hall. destruct (layout_sorted _ _ _ _ Hlay) as [Hs _].
  destruct (last covered) as [r|] eqn:Hr; [|by apply last_None in Hr]. apply last_Some in Hr as [c' Hc'].
  assert (position ≤ length rows)%nat as Hpos.
  { destruct (decide (position ≤ length rows)%nat) as [|Hgt]; [done|]. rewrite drop_ge, take_nil in Hc by lia. done. }
  unfold unit_end. destruct (position + length covered)%nat as [|i] eqn:Ei; [rewrite Hc', length_app in Ei; cbn in Ei; lia|].
  assert (rows !! i = Some r) as ->.
  { assert (i = position + length c')%nat as -> by (rewrite Hc', length_app in Ei; cbn in Ei; lia).
    rewrite <-lookup_drop. assert (covered !! length c' = Some r) as Hl by (rewrite Hc'; by apply list_lookup_middle).
    rewrite Hc in Hl. by apply lookup_take_Some in Hl as [? _]. }
  cbn [mbind option_bind]. rewrite (following_next all ((lead ++ take position rows) ++ c') r rest); [done| |by apply sorted_ids_NoDup].
  rewrite Hall, Hc'. by rewrite <-!app_assoc.
Qed.

Lemma placed_step j rows chain position l covered n : placed j rows chain position → start_frontier l = chain_stop (frontier j) chain →
  leaf_shape (job_key j) l → covered_store_ids l = covered.*1 → covered = take n (drop position rows) →
  placed j rows (chain ++ [l]) (position + length covered).
Proof using Type.
  intros Hpl Hstart Hl Hids Hc. destruct (last covered) as [x|] eqn:Hx; cycle 1.
  { apply last_None in Hx. rewrite Hx in Hids. by destruct (shape_covers _ _ Hl). }
  split; [by apply contiguous_app; split; [apply Hpl|]|apply Forall_app; split; [apply Hpl|by apply Forall_singleton]|].
  right. split; [by intros [_ ?]%app_nil|]. exists x. split.
  - replace (take (position + length covered) rows) with (take position rows ++ covered); [by rewrite last_app, Hx|].
    rewrite <-take_take_drop. f_equal. rewrite Hc. symmetry. apply take_length_take.
  - rewrite chain_stop_snoc. apply sorted_max; [apply Hl|]. by rewrite Hids, fmap_last, Hx.
Qed.

(** A leaf made of the next rows. *)
Section made.
Context (j : Job) (all rows : list stored) (anchors : list Z) (chain : list PreparedLeaf) (position n : nat) (covered : list stored).
Context (Hlay : layout j all rows anchors) (Hpl : placed j rows chain position).
Context (Hc : covered = take n (drop position rows)) (Hne : covered ≠ []).
Context (chunk : list row) (r : LeafSummaryResult).
Context (Hchunk : LeafSummary.chunk r = messages_of env covered) (Hfrom : comes_from (leaf (config j)) (call_service (model env) j) chunk r).

Local Definition made : PreparedLeaf :=
  make_leaf env j (chain_end j chain) (match chain with [] => anchors | _ => [] end) covered r.

Lemma made_shape : leaf_shape (job_key j) made.
Proof using Hlay Hpl Hc Hne legacy_probed.
  split; [done| |].
  - cbn. intros E%fmap_nil_inv. done.
  - by apply (start_below j all rows anchors chain position n covered).
Qed.

Lemma made_placed : placed j rows (chain ++ [made]) (position + length (covered_store_ids made)).
Proof using Hlay Hpl Hc Hne legacy_probed.
  cbn. rewrite length_fmap. by eapply placed_step; [exact Hpl|done|apply made_shape|done|exact Hc].
Qed.

Lemma made_justified : unit_end all rows (position + length covered) = true → (result_level r = 3 → level_3_verbatim r = true) → justified j made.
Proof using Hlay Hpl Hc Hne Hchunk Hfrom legacy_probed.
  intros Hend Hlevel. split; [done|].
  destruct (split_rows _ _ _ _ _ _ _ Hlay Hc Hne) as (lead & rest & Hall & Hsys & Hanch & Htail & Hrows).
  destruct (lay_read _ _ _ _ Hlay) as [d Hd]. exists d, (lead ++ take position rows), covered, rest.
  split; [by rewrite <-Hd, Hall|]. split; [rewrite <-Hall; apply Hlay|]. split; [done|]. split; [done|]. split; [done|].
  split; [by rewrite <-Hall|]. split.
  { destruct (placed_at _ _ _ _ Hpl) as [[Ech Epos]|(Hch & x & Hx & Hstop)].
    - left. cbn. unfold chain_end. rewrite Ech, Epos. cbn [take]. rewrite app_nil_r. done.
    - right. split; [|cbn; by destruct chain]. exists x. split; [by rewrite last_app, Hx|exact Hstop]. }
  split; [eapply eligible_sub; [|apply Hlay]; intros y Hy; rewrite Hrows, !elem_of_app; tauto|].
  split; [by eapply unit_end_next|].
  exists chunk, r. destruct Hfrom as (Hwp & Hsrc & Hrest). split; [done|]. split; [done|]. split; [done|]. split; [done|].
  split; [cbn; by rewrite Hsrc, Hchunk|]. by split.
Qed.

End made.

(** ** Caching it *)

Definition only (k : key) (chain : list PreparedLeaf) (p : prep) : Prop := ∀ l, l ∈ cached k p → l ∈ chain.
Lemma only_persists k chain : persists (only k chain).
Proof using Type. intros p p' [Hs _] Ho l Hl. apply Ho. by eapply elem_of_sublist. Qed.

Lemma chain_before_stop k f chain l : contiguous f chain → Forall (leaf_shape k) chain → l ∈ chain → covered_end l <= chain_stop f chain.
Proof using Type.
  revert f. induction chain as [|m chain IH]; intros f Hc Hf Hl; [by apply not_elem_of_nil in Hl|].
  destruct Hc as [<- Hc]. apply Forall_cons in Hf as [Hm Hf]. rewrite chain_stop_cons. apply elem_of_cons in Hl as [->|Hl]; [|by apply IH].
  destruct (last chain) as [x|] eqn:Hx; [|by apply last_None in Hx as ->].
  unfold chain_stop. rewrite Hx. cbn. pose proof (contiguous_sorted k chain _ Hc Hf) as [_ Hge]. rewrite Forall_forall in Hge, Hf.
  assert (x ∈ chain) as Hin by (apply last_Some in Hx as [c' ->]; apply elem_of_app; right; by left).
  specialize (Hge x Hin). cbn in Hge. pose proof (leaf_grows k x (Hf x Hin)). lia.
Qed.

Lemma only_short k chain p : sound p → only k chain p → (length (cached k p) ≤ length chain)%nat.
Proof using Type.
  intros Hp Ho. apply submseteq_length, NoDup_submseteq; [|exact Ho].
  destruct (sound_each p Hp k) as (Hd & Hf & _). pose proof (disjoint_sorted k _ Hd Hf) as Hs. revert Hs. clear.
  induction (cached k p) as [|l ls IH]; [constructor|]. intros [Hall Hs]%StronglySorted_cons. apply NoDup_cons. split; [|by apply IH].
  intros Hl. rewrite Forall_forall in Hall. specialize (Hall l Hl). unfold before in Hall. lia.
Qed.

Lemma wpw_store_leaf j l chain (P : bool → world → Prop) w : hold (only (job_key j) chain) w → justified j l →
  contiguous (frontier j) (chain ++ [l]) → Forall (leaf_shape (job_key j)) (chain ++ [l]) → (length chain < PER_CONVERSATION)%nat →
  (∀ w', hold (only (job_key j) (chain ++ [l])) w' → P true w') → (∀ w', inv w' → P false w') → wp (store_leaf others j l) P out w.
Proof using others_turn.
  intros Hw Hjust Hcont Hshapes Hlen HT1 HF. pose proof (only_persists (job_key j) chain) as Hpers.
  apply contiguous_app in Hcont as [Hcont Hstart]. apply Forall_app in Hshapes as [Hshapes [Hl _]%Forall_cons].
  unfold wp, store_leaf, locked, access. destruct (others (accesses w) (process w, store w)) as [p d] eqn:E0.
  pose proof (others_turn (accesses w) (process w) (store w)) as Ht. rewrite E0 in Ht. cbn in Ht.
  destruct (turns_sound _ _ Ht) as [Hp Htakes]; [apply Hw|].
  pose proof (hold_arrive _ w p d Hpers Hw Hp Htakes) as Hh.
  destruct (decide (generation_of (db_path j) p = generation j)) as [Hgen|Hgen]; cycle 1.
  { rewrite cache_leaf_refused by done. apply HF, Hh. }
  destruct Hh as [[[Hsd Hf] Hseen Hn] Honly]. cbn in Hsd, Hf, Hseen, Hn, Honly.
  destruct (cache_leaf_spec j l p Hp Hgen Hl) as (Hok & Hs' & Hmine & Hothers & Hgens).
  { intros x Hx. rewrite Hstart. apply (chain_before_stop (job_key j)); [done|done|by apply Honly]. }
  { pose proof (only_short _ _ _ Hp Honly). lia. }
  destruct (cache_leaf j l p) as [p' b]. cbn in Hok, Hs', Hmine, Hothers, Hgens. subst b. apply HT1.
  assert (good (noted w ++ [(j, l)]) p') as Hgood.
  { split; [done|]. intros k x Hx. unfold generation_of. rewrite Hgens. destruct (decide (k = job_key j)) as [->|Hk].
    - rewrite Hmine in Hx. apply elem_of_app in Hx as [Hx| ->%list_elem_of_singleton].
      + destruct (Hf _ _ Hx) as (j' & Hj' & ?). exists j'. split; [|done].
        apply elem_of_app. by left.
      + exists j. split; [apply elem_of_app; right; by left|]. split; [done|]. by rewrite <-Hgen.
    - destruct (Hf k x) as (j' & Hj' & ?); [by eapply elem_of_sublist, Hothers|]. exists j'. split; [|done]. apply elem_of_app. by left. }
  split; [split|]; cbn.
  - done.
  - apply Forall_app. split; [|by constructor]. apply Forall_app in Hseen as [Hseen _].
    eapply Forall_impl; [exact Hseen|]. intros q. apply good_log.
  - intros j' l' [Hin|Hin%list_elem_of_singleton]%elem_of_app; [by apply Hn|by injection Hin as -> ->].
  - intros x Hx. rewrite Hmine in Hx. apply elem_of_app in Hx as [Hx|Hx]; apply elem_of_app; [left; by apply Honly|by right].
Qed.

(** ** The loop and the job *)

Lemma back_to_unit_ge all rows position k : (position ≤ back_to_unit all rows position k)%nat.
Proof using Type. induction k as [|k IH]; cbn [back_to_unit]; [done|]. destruct (unit_end _ _ _); lia. Qed.
Lemma forward_to_unit_ge all rows k : ∀ e, (e ≤ forward_to_unit all rows e k)%nat.
Proof using Type.
  induction k as [|k IH]; intros e; cbn [forward_to_unit]; [done|]. destruct (unit_end _ _ _); [done|]. specialize (IH (S e)). lia.
Qed.
Lemma chunk_end_after all rows position k e : chunk_end all rows position k = Some e → (position < e)%nat.
Proof using Type.
  unfold chunk_end. pose proof (back_to_unit_ge all rows position k). case_bool_decide as Hb; cycle 1; [intros [= <-]; lia|].
  pose proof (forward_to_unit_ge all rows (length rows - S position) (S position)). destruct (unit_end _ _ _); [|done]. intros [= <-]. lia.
Qed.

Lemma covered_messages rows m c : whole_prefix c (messages_of env (take m rows)) →
  c = messages_of env (take (length c) rows) ∧ take (length c) rows ≠ [].
Proof using Type.
  intros Hp. pose proof (whole_prefix_not_nil _ _ Hp) as Hne. destruct Hp as (n & -> & Hn & _).
  unfold messages_of in *. rewrite length_fmap, length_take in Hn.
  assert (take n ((λ r : stored, shown env r.2) <$> take m rows) = (λ r : stored, shown env r.2) <$> take n rows) as E.
  { rewrite <-fmap_take, take_take. by rewrite Nat.min_l by lia. }
  rewrite E in Hne |- *. rewrite length_fmap, length_take, Nat.min_l by lia. split; [done|]. intros E'. by rewrite E' in Hne.
Qed.

Lemma wpw_prepare_one j all rows anchors tokens chain position (P : option PreparedLeaf → world → Prop) w :
  hold (only (job_key j) chain) w → layout j all rows anchors → placed j rows chain position →
  (position < length rows)%nat → (length chain < PER_CONVERSATION)%nat →
  (∀ w', inv w' → P None w') →
  (∀ l w', hold (only (job_key j) (chain ++ [l])) w' → placed j rows (chain ++ [l]) (position + length (covered_store_ids l)) → P (Some l) w') →
  wp (prepare_one env others j all rows anchors tokens chain position) P out w.
Proof using others_turn legacy_probed.
  intros Hw Hlay Hpl Hpos Hlen HN HS. pose proof (only_persists (job_key j) chain) as Hpers. unfold prepare_one.
  case_bool_decide; [by apply wpw_ret, HN, Hw|].
  destruct (chunk_end _ _ _ _) as [e|] eqn:He; [|by apply wpw_ret, HN, Hw]. apply chunk_end_after in He.
  apply wpw_bind, (wpw_may_call _ Hpers); [done|]. intros b w1 H1. destruct (negb b); [apply wpw_ret, HN, H1|].
  apply wpw_bind, (wpw_summarize _ Hpers); [done| |intros w2 H2; apply wpw_ret, HN, H2|].
  { intros E%(f_equal length). unfold messages_of in E. rewrite length_fmap, length_take, length_drop in E. cbn in E. lia. }
  intros r w2 H2 Hfrom. destruct (bool_decide (result_level r = 3) && negb (level_3_verbatim r)) eqn:Hl3; [apply wpw_ret, HN, H2|].
  destruct (covered_messages _ _ _ (proj1 Hfrom)) as [Hchunk Hne].
  remember (take (length (LeafSummary.chunk r)) (drop position rows)) as covered eqn:Hc.
  destruct (unit_end all rows (position + length covered)) eqn:Hend; cbn [negb]; [|apply wpw_ret, HN, H2].
  apply wpw_bind, (wpw_current _ Hpers); [done|]. intros still w3 H3. destruct (negb still); [apply wpw_ret, HN, H3|].
  pose proof (made_placed j all rows anchors chain position _ covered Hlay Hpl Hc Hne r) as Hplaced.
  apply wpw_bind. eapply wpw_store_leaf; [exact H3| |apply Hplaced|apply Hplaced|done|intros w4 H4; apply wpw_ret, HS; [exact H4|exact Hplaced]|
    intros w4 H4; by apply wpw_ret, HN].
  eapply (made_justified j all rows anchors chain position _ covered Hlay Hpl Hc Hne); [done|done|done|].
  intros Hlv. rewrite (bool_decide_eq_true_2 _ Hlv) in Hl3. by destruct (level_3_verbatim r).
Qed.

Lemma wpw_prepare_loop j all rows anchors tokens need more : ∀ chain position freed w,
  hold (only (job_key j) chain) w → layout j all rows anchors → placed j rows chain position →
  (length chain + more ≤ PER_CONVERSATION)%nat →
  wp (prepare_loop env others more j all rows anchors tokens need chain position freed) (λ _ w', inv w') out w.
Proof using others_turn legacy_probed.
  induction more as [|more IH]; intros chain position freed w Hw Hlay Hpl Hlen; cbn [prepare_loop]; [apply wpw_ret, Hw|].
  destruct (bool_decide (100 * freed < need) && bool_decide (position < length rows)%nat) eqn:Hgo; [|apply wpw_ret, Hw].
  apply andb_true_iff in Hgo as [_ Hpos%bool_decide_eq_true].
  apply wpw_bind. eapply wpw_prepare_one; [done|done|done|done|lia|by intros w' H'; apply wpw_ret|].
  intros l w' Hw' Hpl'. apply IH; [done|done|done|]. rewrite length_app. cbn [length]. lia.
Qed.

(** The leading rows and the eligible ones are a prefix of the rows before the tail. *)
Lemma lead_split rows : rows = take (lead_count rows) rows ++ drop (lead_count rows) rows ∧ Forall (λ r, is_system r = true) (take (lead_count rows) rows).
Proof using Type.
  split; [by rewrite take_drop|]. induction rows as [|r rows IH]; [constructor|]. cbn [lead_count]. destruct (is_system r) eqn:E; [|constructor].
  cbn [take]. by constructor.
Qed.
Lemma until_stop_split stop rows : ∃ rest, rows = until_stop stop rows ++ rest ∧ ∀ r, r ∈ until_stop stop rows → stop r = false.
Proof using Type.
  induction rows as [|r rows (rest & E & H)]; [exists []; split; [done|]; by intros r ?%not_elem_of_nil|]. cbn [until_stop].
  destruct (stop r) eqn:Hs; [exists (r :: rows); split; [done|]; by intros x ?%not_elem_of_nil|].
  exists rest. split; [cbn; by rewrite <-E|]. intros x [->|Hx]%elem_of_cons; [done|by apply H].
Qed.

Lemma foreign_below j last_id d i other : messages d !! i = Some other → frontier j < i → i <= last_id →
  message_conversation_id other = Some (job_conversation j) →
  match foreign_row j last_id d with Some f => i < f | None => True end → message_session_id other = job_session j.
Proof using Type.
  unfold foreign_row. set (rows := (filter _ (map_to_list (messages d))).*1). intros Hi Hfr Hlast Hconv Hbelow.
  destruct (decide (message_session_id other = job_session j)) as [|Hne]; [done|exfalso].
  assert (i ∈ rows) as Hin.
  { apply list_elem_of_fmap. exists (i, other). split; [done|]. apply list_elem_of_filter. split; [done|]. by apply elem_of_map_to_list. }
  rewrite <-(merge_sort_Permutation Z.le) in Hin. pose proof (StronglySorted_merge_sort Z.le rows) as Hs.
  destruct (merge_sort Z.le rows) as [|x xs]; [by apply not_elem_of_nil in Hin|]. cbn in Hbelow. apply StronglySorted_cons in Hs as [Hall _].
  apply elem_of_cons in Hin as [->|Hin]; [lia|]. rewrite Forall_forall in Hall. specialize (Hall i Hin). lia.
Qed.

Lemma stops_eligible j rows0 last_row d2 d3 rows : StronglySorted Z.lt rows0.*1 → last rows0 = Some last_row →
  (∀ r, r ∈ rows → r ∈ rows0 ∧ stops env j (covered_rows rows0 d2) (foreign_row j last_row.1 d3) r = false) → eligible j rows.
Proof using Type.
  intros Hs Hlast Hrows.
  assert (∀ r, r ∈ rows → is_system r = false ∧ (r.1 ∉ covered_rows rows0 d2) ∧
    match foreign_row j last_row.1 d3 with Some f => ¬ (f < r.1) | None => True end ∧
    excluded_from_summary_input (short_hash env) (tool_calls_identity env) (job_session j) (dependent_records j) r = false) as Hstop.
  { intros r Hr. destruct (Hrows r Hr) as [_ Hst]. unfold stops in Hst. rewrite !orb_false_iff, bool_decide_eq_false in Hst.
    destruct Hst as [[[? ?] Hf] ?]. split; [done|]. split; [done|]. split; [|done]. destruct (foreign_row _ _ _); [by apply bool_decide_eq_false in Hf|done]. }
  split.
  - intros r Hr. by destruct (Hstop r Hr) as (? & _ & _ & ?).
  - exists d2. intros r Hr. destruct (Hstop r Hr) as (_ & Hn & _ & _). destruct (Hrows r Hr) as [Hin _].
    unfold covered_rows in Hn. rewrite elem_of_list_to_set, list_elem_of_filter in Hn. apply not_true_is_false. intros Hcov. apply Hn.
    split; [done|]. apply list_elem_of_fmap. by exists r.
  - exists d3. intros r i other Hr Hi Hfr Hir Hconv. destruct (Hstop r Hr) as (_ & _ & Hf & _). destruct (Hrows r Hr) as [Hin _].
    apply (foreign_below j last_row.1 d3 i); [done|done| |done|destruct (foreign_row _ _ _); [lia|done]].
    assert (r.1 <= last_row.1); [|lia]. apply last_Some in Hlast as [l' ->]. rewrite fmap_app in Hs.
    apply elem_of_app in Hin as [Hin|Hin%list_elem_of_singleton]; [|by subst r].
    apply Z.lt_le_incl, (sorted_app_lt _ _ _ _ Hs); [by apply list_elem_of_fmap; exists r|by left].
Qed.

Lemma wpw_eligible_prefix S (HS : persists S) j all (P : list Z * list stored → world → Prop) w : hold S w →
  (∃ d, all = select_conversation_range (legacy env) (job_session j) (job_conversation j) (frontier j) None (Some SCAN_LIMIT) d) →
  (length all < SCAN_LIMIT)%nat →
  (∀ anchors rows w', hold S w' → rows = [] ∨ layout j all rows anchors → P (anchors, rows) w') →
  wp (eligible_prefix env others j (take (tail_start j all) all)) P out w.
Proof using others_turn legacy_probed.
  intros Hw Hread Hlim HP. unfold eligible_prefix. set (rows0 := take (tail_start j all) all).
  destruct (last rows0) as [[last_id last_row]|] eqn:Hlast; [|by apply wpw_ret, HP; [|left]].
  apply wpw_bind, (wpw_query _ HS); [done|]. intros d2 w2 H2. apply wpw_bind, (wpw_query _ HS); [done|]. intros d3 w3 H3.
  apply wpw_ret, HP; [done|right]. destruct (lead_split rows0) as [Hlead Hsys].
  destruct (until_stop_split (stops env j (covered_rows rows0 d2) (foreign_row j last_id d3)) (drop (lead_count rows0) rows0)) as (rest & Hrest & Hstop).
  set (rows := until_stop _ _) in *.
  assert (StronglySorted Z.lt all.*1) as Hs by (destruct Hread as [d E]; rewrite E in Hlim |- *; apply (range_complete _ _ _ _ _ _ legacy_probed Hlim)).
  assert (rows0 = take (lead_count rows0) rows0 ++ rows ++ rest) as Hrows0 by (by rewrite <-Hrest).
  split; [done|done| |].
  - exists (take (lead_count rows0) rows0), (rest ++ drop (tail_start j all) all).
    split; [|split; [done|split; [done|]]].
    + rewrite <-(take_drop (tail_start j all) all) at 1. fold rows0. rewrite Hrows0 at 1. by rewrite <-!app_assoc.
    + pose proof (f_equal length Hrows0) as Hlen. rewrite !length_app in Hlen. rewrite length_app.
      assert (length rows0 ≤ tail_start j all)%nat by (unfold rows0; rewrite length_take; lia). lia.
  - apply (stops_eligible j rows0 (last_id, last_row) d2 d3); [|done|].
    + unfold rows0. rewrite fmap_take. eapply StronglySorted_app_1_l. by rewrite take_drop.
    + intros r Hr. split; [|by apply Hstop]. rewrite Hrows0, !elem_of_app. tauto.
Qed.

Lemma matching_chain_spec j rows chain : ∀ before position freed kept gone position' freed',
  placed j rows before position → contiguous (frontier j) (before ++ chain) → Forall (leaf_shape (job_key j)) (before ++ chain) →
  matching_chain (hash env) (fingerprint j) rows chain position freed = (kept, gone, position', freed') →
  chain = kept ++ gone ∧ placed j rows (before ++ kept) position'.
Proof using Type.
  induction chain as [|l chain IH]; intros before position freed kept gone position' freed' Hpl Hc Hf; cbn [matching_chain].
  { intros [= <- <- <- _]. split; [done|by rewrite app_nil_r]. }
  destruct (_ && _ && _) eqn:Hm; [|intros [= <- <- <- _]; split; [done|by rewrite app_nil_r]].
  apply andb_true_iff in Hm as [[Hids%bool_decide_eq_true _]%andb_true_iff _].
  rewrite cons_middle, app_assoc in Hc, Hf.
  assert (contiguous (frontier j) (before ++ [l])) as Hc1 by by eapply contiguous_prefix.
  destruct (matching_chain _ _ _ _ _ _) as [[[kept1 gone1] position1] freed1] eqn:E. intros [= <- <- <- <-].
  apply (IH (before ++ [l])) in E as [-> Hpl']; [by rewrite <-app_assoc in Hpl'| |done|done].
  apply contiguous_app in Hc1 as [_ Hstart].
  eapply placed_step; [done|done| |done|done]. rewrite Forall_app in Hf. destruct Hf as [Hf _]. by apply Forall_app in Hf as [_ [? _]%Forall_cons].
Qed.

Definition anything (_ : prep) : Prop := True.
Lemma anything_persists : persists anything.
Proof using Type. done. Qed.
Lemma hold_anything w : inv w → hold anything w.
Proof using Type. done. Qed.
Lemma hold_only k chain w : hold anything w → only k chain (process w) → hold (only k chain) w.
Proof using Type. intros [? _]. done. Qed.

(** The chain that the job starts from: what of the cached one still matches. *)
Lemma wpw_kept j chain kept gone (P : unit → world → Prop) w : hold (only (job_key j) chain) w → chain = kept ++ gone →
  (∀ w', hold (only (job_key j) kept) w' → P tt w') →
  wp (if bool_decide (gone = []) then mret tt
      else locked others (λ p, (remove_locked (job_key j) gone None (count_by "wasted" (Z.of_nat (length gone)) p), tt))) P out w.
Proof using others_turn.
  intros Hw -> HP. case_bool_decide as Hg; [apply wpw_ret, HP; subst; by rewrite app_nil_r in Hw|].
  apply (wpw_locked _ (only_persists (job_key j) (kept ++ gone))); [done|]. intros p d Hp Ht. cbn [fst snd].
  set (q := count_by "wasted" (Z.of_nat (length gone)) p).
  assert (same_leaves p q) as Hsame by by apply same_leaves_cache.
  assert (sound q) as Hq by by eapply same_leaves_sound.
  split; [split; [by apply removed_sound|transitivity q; [by apply same_leaves_takes|apply removed_takes]]|].
  intros [Hi Ho]. apply HP. split; [done|]. cbn in Ho |- *. intros l Hl. pose proof (Ho l Hl) as Hin.
  rewrite cached_remove_locked, bool_decide_eq_true_2 in Hl by done. apply list_elem_of_filter in Hl as [Hng _].
  by apply elem_of_app in Hin as [?|?].
Qed.

Lemma wpw_prepare_on j w : inv w → wp (prepare_on env others j) (λ _ w', inv w') out w.
Proof using others_turn legacy_probed.
  intros Hw. pose proof anything_persists as HA. unfold prepare_on.
  apply wpw_bind, (wpw_current _ HA); [by apply hold_anything|]. intros ok w1 H1. destruct (negb ok); [apply wpw_ret, H1|].
  apply wpw_bind, (wpw_query _ HA); [done|]. intros d w2 H2. set (all := select_conversation_range _ _ _ _ _ _ d).
  case_bool_decide as Hlim; [apply wpw_ret, H2|].
  apply wpw_bind. change (FreshTail.start _) with (tail_start j all).
  apply (wpw_eligible_prefix _ HA); [done|by exists d|lia|]. intros anchors rows w3 H3 Hlay.
  case_bool_decide as Hrows; [apply wpw_ret, H3|]. destruct Hlay as [?|Hlay]; [done|].
  destruct (levels _ _ _) as [[prep low]|]; [|apply wpw_ret, H3]. case_bool_decide; [apply wpw_ret, H3|].
  apply wpw_bind, (wpw_locked _ HA); [done|]. intros p d2 Hp Ht.
  destruct (ready_chain_spec (db_path j) (job_conversation j) (frontier j) p Hp) as (p' & chain & E & Hp' & Ht' & Hcached & Hcont & _).
  rewrite E. cbn [fst snd]. split; [done|]. intros Hh.
  assert (hold (only (job_key j) chain) (arrive p' d2 w3)) as Hh' by (apply hold_only; [done|]; intros l; cbn; by rewrite <-Hcached).
  destruct (sound_each p' Hp' (job_key j)) as (_ & Hshapes & Hlen).
  change (cached (job_key j) p') with (cached (db_path j, job_conversation j) p') in Hshapes, Hlen. rewrite Hcached in Hshapes, Hlen.
  destruct (matching_chain _ _ _ _ _ _) as [[[kept gone] position] freed] eqn:Em.
  apply (matching_chain_spec j rows chain []) in Em as [Hsplit Hpl]; [|split; [done|by constructor|by left]|done|done].
  apply wpw_bind. eapply wpw_kept; [exact Hh'|done|]. intros w4 H4.
  apply wpw_bind, (wpw_get_guard _ (only_persists (job_key j) kept)); [done|]. intros g w5 H5.
  apply (wpw_prepare_loop j all rows anchors); [done|done|done|]. rewrite Hsplit, length_app in Hlen. lia.
Qed.

Lemma wpw_run_once w : inv w → wp (run_once env others) (λ _ w', inv w') out w.
Proof using others_turn legacy_probed.
  intros Hw. pose proof anything_persists as HA. apply wpw_bind, (wpw_locked _ HA); [by apply hold_anything|]. intros p d Hp Ht.
  assert (same_leaves p (take_job p).1) as Hsame by (unfold take_job; destruct (jobs p) as [|[k j] js]; by apply same_leaves_cache).
  split; [split; [by eapply same_leaves_sound|by apply same_leaves_takes]|]. intros Hh. destruct (take_job p) as [p' [j|]]; [|apply wpw_ret, Hh].
  cbn [fst snd] in *. unfold wp, caught.
  assert (wp (prepare env others j) (λ _ w', inv w') out (arrive p' d w)) as Hj.
  { apply wpw_bind, (wpw_generation _ HA); [done|]. intros g w1 H1. destruct (negb g); [apply wpw_ret, H1|].
    apply wpw_bind, (wpw_observe _ HA); [done|]. intros w2 H2. case_bool_decide; [apply wpw_ret, H2|]. apply wpw_prepare_on, H2. }
  unfold wp in Hj. destruct (prepare env others j (arrive p' d w)) as [[u|[]] w1]; [done|done|].
  exact (wpw_bump _ HA "failed" (λ _ w', inv w') w1 (hold_anything _ Hj) (λ w2 H2, proj1 H2)).
Qed.

Lemma wpw_run turns : ∀ w, inv w → wp (run env others turns) (λ _ w', inv w') out w.
Proof using others_turn legacy_probed.
  induction turns as [|turns IH]; intros w Hw; [by apply wpw_ret|]. cbn [run]. apply wpw_bind. eapply wpw_then; [by apply wpw_run_once|].
  intros u w1 H1. by apply IH.
Qed.

(** The world after some turns of the worker. *)
Definition after (turns : nat) (w : world) : world := (run env others turns w).2.

Lemma inv_after turns w : inv w → inv (after turns w).
Proof using others_turn legacy_probed.
  intros Hw. pose proof (wpw_run turns w Hw) as H. unfold wp in H. unfold after. by destruct (run env others turns w) as [[?|?] ?].
Qed.

(** A process whose worker has not run yet. *)
Definition starting (w : world) : Prop := (∃ p, rtc turn_step _LEAF_PREP p ∧ process w = p) ∧ noted w = [] ∧ seen w = [].

Lemma sound_initial : sound _LEAF_PREP.
Proof using Type.
  split; [constructor|done| |unfold PER_PROCESS; cbn; lia]. intros k. split; [constructor|]. split; [constructor|]. change (0 ≤ PER_CONVERSATION)%nat. unfold PER_CONVERSATION. lia.
Qed.

Lemma inv_starting w : starting w → inv w.
Proof using Type.
  intros [(p & Hp & Ew) [En Es]]. destruct (turns_sound _ _ Hp sound_initial) as [Hs [Hsub _]].
  split; rewrite ?En, ?Es, ?Ew; [|constructor|by intros j l ?%not_elem_of_nil].
  split; [done|]. intros k l Hl. eapply elem_of_sublist in Hl; [|apply Hsub]. by apply not_elem_of_nil in Hl.
Qed.

End justified.
