(* ===== verification/LeafPromotion.v ===== *)
(** The theorems on prepared leaves: the cache whatever the threads do, what a cached leaf
    stands for, and its promotion through the publication of summaries. *)

From S2P Require Import Prelude PyText Lifecycle Publication Messages FreshTail Chunking SpendGuard CircuitBreaker SummaryOutcome.
From S2P Require Import Escalation LeafSummary LeafPrep LeafPrepProofs LeafPrepResults.
From stdpp Require Import options.

#[local] Open Scope Z_scope.

(** ** The claim of a leaf *)

(** The claim of a promotion with no rows carried over from another session: it consumes
    the leaf's covered rows, which [_match_prepared_leaf] checks, and excludes the system
    prompts before them, which the compaction finds in the host's messages again. *)
Definition leaf_claim (l : PreparedLeaf) : claim :=
  {| expected_frontier_store_id := start_frontier l; Publication.covered_store_ids := covered_store_ids l;
     Publication.excluded_store_ids := excluded_store_ids l; filter_exclusion_proofs := ∅; carried_ranges := []; copy_exclusion_proofs := ∅ |}.

Section claims.
Context {HT : Tokens}.
Variable env : surroundings.
Hypothesis legacy_probed : probed (legacy env).
Variables (j : Job) (l : PreparedLeaf) (d : database) (earlier covered rest : list stored).
Hypothesis frontier_nonneg : 0 <= frontier j.
Hypothesis read : select_conversation_range (legacy env) (job_session j) (job_conversation j) (frontier j) None (Some SCAN_LIMIT) d
  = earlier ++ covered ++ rest.
Hypothesis short : (length (earlier ++ covered ++ rest) < SCAN_LIMIT)%nat.
Hypothesis covers : covered ≠ [].
Hypothesis ids : covered.*1 = covered_store_ids l.
Hypothesis start : start_frontier l = frontier j ∧ Forall (λ r, is_system r = true) earlier ∧ excluded_store_ids l = earlier.*1 ∨
  (∃ r, last earlier = Some r ∧ start_frontier l = r.1) ∧ excluded_store_ids l = [].

Lemma read_rows : StronglySorted Z.lt (earlier.*1 ++ covered.*1 ++ rest.*1) ∧
  ∀ r, r ∈ earlier ++ covered ++ rest ↔ owned_above (legacy env) (job_session j) (job_conversation j) (frontier j) d r.
Proof using legacy_probed read short.
  destruct (range_complete (legacy env) (job_session j) (job_conversation j) (frontier j) SCAN_LIMIT d legacy_probed) as [Hs Hin];
    rewrite read in *; [done|]. split; [by rewrite !fmap_app in Hs|done].
Qed.

Lemma start_range : frontier j <= start_frontier l.
Proof using legacy_probed read short start.
  destruct start as [[-> _]|[(r & Hr & ->) _]]; [done|]. destruct read_rows as [_ Hin].
  apply last_Some in Hr as [l' ->]. assert (owned_above (legacy env) (job_session j) (job_conversation j) (frontier j) d r) as H; [|apply Z.lt_le_incl, H].
  apply Hin. rewrite !elem_of_app. left. right. by left.
Qed.

(** The covered ids, strictly above the start. *)
Lemma claim_sorted : StronglySorted Z.lt (start_frontier l :: covered_store_ids l).
Proof using legacy_probed read short ids start.
  destruct read_rows as [Hs Hin]. rewrite <-ids. apply StronglySorted_cons. split; [|by apply StronglySorted_app_1_r, StronglySorted_app_1_l in Hs].
  apply Forall_forall. intros i Hi. destruct start as [[-> _]|[(r & Hr & ->) _]].
  - apply list_elem_of_fmap in Hi as (x & -> & Hx). assert (owned_above (legacy env) (job_session j) (job_conversation j) (frontier j) d x) as H; [|apply H].
    apply Hin. rewrite !elem_of_app. tauto.
  - apply (sorted_app_lt _ _ _ _ Hs); [|apply elem_of_app; by left]. apply last_Some in Hr as [l' ->]. rewrite fmap_app. apply elem_of_app. right. by left.
Qed.

Lemma claim_above i : i ∈ covered_store_ids l → start_frontier l < i.
Proof using legacy_probed read short ids start.
  intros Hi. pose proof claim_sorted as [Hall _]%StronglySorted_cons. rewrite Forall_forall in Hall. by apply Hall.
Qed.

Lemma claim_frontier : expected_frontier (leaf_claim l) = start_frontier l.
Proof using legacy_probed frontier_nonneg read short start. unfold expected_frontier. cbn. pose proof start_range. lia. Qed.

Lemma claim_all : ∀ i, i ∈ all_covered_ids (leaf_claim l) ↔ i ∈ covered_store_ids l.
Proof using legacy_probed frontier_nonneg read short ids start.
  intros i. rewrite elem_all_covered. cbn. split; [by intros [_ ?]|]. intros Hi. split; [|done].
  pose proof (claim_above i Hi). pose proof start_range. lia.
Qed.

Lemma claim_end : Publication.covered_end (leaf_claim l) = covered_end l.
Proof using legacy_probed frontier_nonneg read short ids start.
  unfold Publication.covered_end, covered_end. rewrite claim_frontier. apply Z.le_antisymm.
  - pose proof (foldr_max_in (elements (all_covered_ids (leaf_claim l))) (start_frontier l)) as [E|Hin]%elem_of_cons.
    + rewrite E. apply foldr_max_ge. by left.
    + apply elem_of_elements, claim_all in Hin. apply foldr_max_ge. by right.
  - pose proof (foldr_max_in (covered_store_ids l) (start_frontier l)) as [E|Hin]%elem_of_cons.
    + rewrite E. apply foldr_max_ge. by left.
    + apply foldr_max_ge. right. by apply elem_of_elements, claim_all.
Qed.

(** The last covered row is the end. *)
Lemma covered_le_end i : i ∈ covered_store_ids l → i <= covered_end l.
Proof using Type. intros Hi. apply foldr_max_ge. by right. Qed.
Lemma end_covered : covered_end l ∈ covered.*1.
Proof using legacy_probed read short covers ids start.
  destruct (last covered) as [x|] eqn:Hx; [|by apply last_None in Hx].
  assert (last (covered_store_ids l) = Some x.1) as Hl by (by rewrite <-ids, fmap_last, Hx).
  unfold covered_end. rewrite (sorted_max _ _ _ claim_sorted Hl). apply last_Some in Hx as [c ->]. rewrite fmap_app. apply elem_of_app. right. by left.
Qed.

Lemma claim_covered i : i ∈ covered_ids (leaf_claim l) ↔ i ∈ covered.*1.
Proof using legacy_probed frontier_nonneg read short ids start.
  rewrite elem_covered, claim_frontier, claim_all, ids. split; [by intros [_ ?]|]. intros Hi. split; [by apply claim_above|done].
Qed.

Lemma earlier_below i k : i ∈ earlier.*1 → k ∈ covered.*1 → i < k.
Proof using legacy_probed read short.
  intros Hi Hk. destruct read_rows as [Hs _]. apply (sorted_app_lt _ _ _ _ Hs); [done|]. apply elem_of_app. by left.
Qed.
Lemma rest_above i : i ∈ rest.*1 → covered_end l < i.
Proof using legacy_probed read short covers ids start.
  intros Hi. destruct read_rows as [Hs _]. apply StronglySorted_app_1_r in Hs. apply (sorted_app_lt _ _ _ _ Hs); [apply end_covered|done].
Qed.

Lemma claim_excluded i : i ∈ excluded_ids (leaf_claim l) ↔ i ∈ excluded_store_ids l.
Proof using legacy_probed frontier_nonneg read short covers ids start.
  rewrite elem_excluded, claim_frontier, claim_end. cbn. split; [by intros [_ ?]|]. intros Hi. split; [|done].
  destruct start as [(-> & _ & Hex)|[_ Hex]]; [|rewrite Hex in Hi; by apply not_elem_of_nil in Hi]. rewrite Hex in Hi.
  split; [|apply Z.lt_le_incl, earlier_below; [done|apply end_covered]].
  destruct read_rows as [_ Hin]. apply list_elem_of_fmap in Hi as (x & -> & Hx).
  assert (owned_above (legacy env) (job_session j) (job_conversation j) (frontier j) d x) as H; [|apply H]. apply Hin. rewrite !elem_of_app. tauto.
Qed.

(** The rows read between the start and the end are those of the claim. *)
Lemma claim_rows r : r ∈ earlier ++ covered ++ rest → start_frontier l < r.1 <= covered_end l ↔ r.1 ∈ covered.*1 ∨ r.1 ∈ excluded_store_ids l.
Proof using legacy_probed frontier_nonneg read short covers ids start.
  intros Hr. pose proof (list_elem_of_fmap_2 fst _ _ Hr) as Hi. rewrite !fmap_app, !elem_of_app in Hi. split.
  - intros [Hlo Hhi]. destruct Hi as [Hi|[Hi|Hi]]; [|by left|pose proof (rest_above _ Hi); lia]. right.
    destruct start as [(_ & _ & ->)|[(x & Hx & Hst) _]]; [done|]. exfalso. rewrite Hst in Hlo.
    destruct read_rows as [Hs _]. apply StronglySorted_app_1_l in Hs. apply last_Some in Hx as [e' E]. rewrite E, fmap_app in Hi, Hs.
    apply elem_of_app in Hi as [Hi|Hi%list_elem_of_singleton]; [|lia]. pose proof (sorted_app_lt _ _ _ x.1 Hs Hi ltac:(by left)). lia.
  - intros [Hc|He]; [rewrite ids in Hc; split; [by apply claim_above|by apply covered_le_end]|].
    apply claim_excluded in He. apply elem_excluded in He as [He _]. by rewrite claim_frontier, claim_end in He.
Qed.

(** The conversation owns what the claim accounts for, and nothing else up to its end. *)
Lemma claim_tiles : authoritative_ids (legacy env) (job_conversation j) (job_session j) (leaf_claim l) (messages d)
  = covered_ids (leaf_claim l) ∪ excluded_ids (leaf_claim l).
Proof using legacy_probed frontier_nonneg read short covers ids start.
  destruct read_rows as [_ Hin]. apply set_eq. intros i. rewrite elem_of_union, claim_covered, claim_excluded.
  unfold authoritative_ids. rewrite elem_of_dom. unfold is_Some. setoid_rewrite map_lookup_filter_Some. cbn [fst snd].
  setoid_rewrite in_ranges_iff. rewrite claim_frontier, claim_end. unfold row_is_owned. cbn [allowed_carry_ranges carried_ranges leaf_claim filter list_filter existsb].
  split.
  - intros (row & Hm & (Ho & Hrange) & Hv). rewrite orb_false_r, bool_decide_eq_true in Ho. apply (claim_rows (i, row)); [|done].
    apply Hin. split; [done|]. split; [done|]. split; [done|]. cbn. pose proof start_range. lia.
  - intros Hi. assert (i ∈ (earlier ++ covered ++ rest).*1) as Hrow.
    { rewrite !fmap_app, !elem_of_app. destruct Hi as [?|He]; [by right; left|]. left.
      destruct start as [(_ & _ & Hex)|[_ Hex]]; rewrite Hex in He; [done|by apply not_elem_of_nil in He]. }
    apply list_elem_of_fmap in Hrow as ([i' row] & -> & Hr). pose proof (proj1 (Hin _) Hr) as (Hm & Hs & Hv & _). cbn in *.
    exists row. split; [done|]. split; [|done]. split; [by rewrite (bool_decide_eq_true_2 _ Hs)|]. by apply (claim_rows (i', row) Hr).
Qed.

End claims.

(** ** The digest of stored rows *)

Lemma sorted_remove_dups ids : StronglySorted Z.lt ids → merge_sort Z.le (remove_dups ids) = ids.
Proof.
  intros Hs. apply (StronglySorted_unique Z.le).
  - apply StronglySorted_merge_sort; [intros x y z; lia|intros x y; lia].
  - clear -Hs. induction ids as [|x l IH]; [constructor|]. apply StronglySorted_cons in Hs as [Hall Hs]. apply StronglySorted_cons. split; [|by apply IH].
    eapply Forall_impl; [exact Hall|]. cbn. lia.
  - rewrite merge_sort_Permutation. apply NoDup_Permutation; [apply NoDup_remove_dups|by apply sorted_ids_NoDup|]. intros x. by rewrite elem_of_remove_dups.
Qed.

Lemma stored_again d (rows : list stored) : (∀ r, r ∈ rows → messages d !! r.1 = Some r.2) → omap (λ i, pair i <$> messages d !! i) rows.*1 = rows.
Proof.
  induction rows as [|[i row] rows IH]; intros H; [done|]. rewrite fmap_cons. cbn [omap list_omap fst].
  pose proof (H (i, row) (list_elem_of_here _ _)) as Hi. cbn [fst snd] in Hi. rewrite Hi. cbn [fmap option_fmap option_map]. f_equal. apply IH. intros r Hr. apply H. by right.
Qed.

Lemma digest_again hash d rows : StronglySorted Z.lt rows.*1 → (∀ r, r ∈ rows → messages d !! r.1 = Some r.2) →
  committed_coverage_digest hash rows.*1 d = Some (coverage_digest hash rows).
Proof.
  intros Hs Hm. unfold committed_coverage_digest. rewrite sorted_remove_dups, stored_again by done. by rewrite bool_decide_eq_true_2.
Qed.

(** Equal digests are equal contents, where the hash has no collision. *)
Lemma digest_contents hash d rows : Inj (=) (=) hash → committed_coverage_digest hash rows.*1 d = Some (coverage_digest hash rows) →
  ∀ r, r ∈ rows → content <$> messages d !! r.1 = Some (content r.2).
Proof.
  intros Hinj. unfold committed_coverage_digest. case_bool_decide; [|done]. intros [= E] r Hr.
  assert ((r.1, content r.2) ∈ (λ r : stored, (r.1, content r.2)) <$> rows) as Hin by (apply list_elem_of_fmap; by exists r).
  rewrite <-(merge_sort_Permutation pair_le) in Hin. apply Hinj in E. rewrite <-E, merge_sort_Permutation in Hin.
  apply list_elem_of_fmap in Hin as ([i row] & Heq & Hin). cbn in Heq. injection Heq as -> ->.
  apply list_elem_of_omap in Hin as (i' & _ & Hi). destruct (messages d !! i') as [row'|] eqn:Em; [|done]. cbn in Hi. injection Hi as <- <-. by rewrite Em.
Qed.

Lemma publish_revalidated legacy conversation session node lvl model p promoted now d id d' : session ≠ "" → conversation ≠ "" →
  publish_leaf_node legacy conversation session node lvl model p promoted now d = Ok (id, d') →
  ∃ d1, messages d1 = messages d ∧ promoted d1 = true.
Proof.
  intros Hs Hc. unfold publish_leaf_node, add_node. set (lv := if bool_decide (lvl = 0) then None else Some lvl).
  destruct (insert_node_spec node lv model now d) as (node' & _ & _ & Hspec). destruct (insert_node node lv model now d) as [nid d1].
  cbn in Hspec. rewrite !bool_decide_eq_true_2 by done. cbn [andb]. intros H. inv_ok. exists d1. split; [apply Hspec|].
  by destruct (promoted d1).
Qed.

Section theorems.
Context {HT : Tokens}.
Variable env : surroundings.
Variable others : nat → prep * database → prep * database.

(** The states of the lock in a run, as the worker leaves them. *)
Definition passed (turns : nat) (w : world) (p : prep) : Prop :=
  p = process (after env others turns w) ∨ p ∈ seen (after env others turns w).

Lemma passed_good turns w p : (∀ n p d, rtc turn_step p (others n (p, d)).1) → probed (legacy env) → starting w → passed turns w p →
  good (noted (after env others turns w)) p.
Proof.
  intros Ho Hl Hw Hp. destruct (inv_after env others Ho Hl turns w (inv_starting env w Hw)) as [Hg Hs _].
  destruct Hp as [->|Hp]; [done|]. rewrite Forall_forall in Hs. by apply Hs.
Qed.

Lemma passed_justified turns w p k l : (∀ n p d, rtc turn_step p (others n (p, d)).1) → probed (legacy env) → starting w → passed turns w p →
  l ∈ cached k p → ∃ j, job_key j = k ∧ generation j = generation_of k.1 p ∧ justified env j l.
Proof.
  intros Ho Hl Hw Hp Hin. destruct (passed_good turns w p Ho Hl Hw Hp) as [_ Hf]. destruct (Hf k l Hin) as (j & Hj & Hk & Hgen).
  exists j. split; [done|]. split; [done|]. by apply (inv_noted _ _ (inv_after env others Ho Hl turns w (inv_starting env w Hw))).
Qed.

(** C23: the cache stays within its bounds whatever the turn threads do between the
    worker's accesses: at most 64 leaves, 16 of a conversation, and these do not overlap
    and come in the order of their rows. *)
Theorem prepared_cache_bounded turns w p : (∀ n p d, rtc turn_step p (others n (p, d)).1) → probed (legacy env) → starting w →
  passed turns w p →
  (cached_leaves p ≤ 64)%nat ∧
  ∀ k, (length (cached k p) ≤ 16)%nat ∧
    (∀ l, l ∈ cached k p → leaf_conversation l = k.2 ∧ covered_store_ids l ≠ [] ∧ StronglySorted Z.lt (start_frontier l :: covered_store_ids l)) ∧
    ∀ i i' a b, (i < i')%nat → cached k p !! i = Some a → cached k p !! i' = Some b → covered_end a <= start_frontier b.
Proof.
  intros Ho Hl Hw Hp. destruct (passed_good turns w p Ho Hl Hw Hp) as [[_ _ He Ht] _]. split; [exact Ht|]. intros k.
  destruct (He k) as (Hd & Hf & Hn). split; [done|]. split; [|intros i i' a b; by apply (disjoint_chain k)].
  intros l Hin. rewrite Forall_forall in Hf. by destruct (Hf l Hin).
Qed.

(** C9: a leaf in the cache is its job's: of the job's conversation and of the generation
    that its database still has, so none survives a discard; and it accounts for what a
    read of the database showed above the frontier: its rows follow those of earlier
    leaves or the excluded system prompts without a gap, end where the host cannot merge
    two rows, outside the fresh tail, and its summary is what the rescue gave for them. *)
Theorem cached_leaf_accounted turns w p k l : (∀ n p d, rtc turn_step p (others n (p, d)).1) → probed (legacy env) → starting w →
  passed turns w p → l ∈ cached k p →
  ∃ j, job_key j = k ∧ generation j = generation_of k.1 p ∧
    leaf_session l = job_session j ∧ leaf_conversation l = job_conversation j ∧ route_fingerprint l = fingerprint j ∧
    ∃ d, accounted env j l d.
Proof.
  intros Ho Hl Hw Hp Hin. destruct (passed_justified turns w p k l Ho Hl Hw Hp Hin) as (j & Hk & Hg & [(H1 & H2 & H3) Hd]).
  by exists j.
Qed.

(** The ready chain is found, whatever is cached: it starts at the frontier asked for
    and each leaf starts where the one before ends, until no cached leaf continues it;
    the leaves it does not reach are dropped, and nothing else of the conversation. *)
Theorem ready_chain_longest path conversation f p : sound p →
  ∃ p' chain, ready_chain path conversation f p = Some (p', chain) ∧ sound p' ∧
    contiguous f chain ∧ (∀ l, l ∈ chain → l ∈ cached (path, conversation) p) ∧
    (∀ l, l ∈ cached (path, conversation) p → start_frontier l ≠ chain_stop f chain) ∧
    cached (path, conversation) p' = chain ∧ ∀ k, cached k p' `sublist_of` cached k p.
Proof.
  intros Hp. destruct (ready_chain_spec path conversation f p Hp) as (p' & chain & H1 & H2 & [H3 _] & H4 & H5 & H6 & H7).
  by exists p', chain.
Qed.

(** C11: a leaf whose promotion is published stands for the committed rows: where the
    digest's hash has no collision, the contents of its covered rows are, in the
    transaction, those of the rows whose messages its summary was made from. *)
Theorem promoted_leaf_current turns w p k l legacy' conversation session route node lvl model c now d id d' :
  (∀ n p d, rtc turn_step p (others n (p, d)).1) → probed (legacy env) → starting w → passed turns w p → l ∈ cached k p →
  Inj (=) (=) (hash env) → session ≠ "" → conversation ≠ "" →
  publish_leaf_node legacy' conversation session node lvl model c (revalidate (hash env) route l) now d = Ok (id, d') →
  ∃ j covered chunk r, job_key j = k ∧ route = fingerprint j ∧ covered.*1 = covered_store_ids l ∧
    (∀ x, x ∈ covered → content <$> messages d !! x.1 = Some (content x.2)) ∧
    LeafSummary.chunk r = messages_of env covered ∧ comes_from (leaf (config j)) (call_service (LeafPrep.model env) j) chunk r ∧
    summary l = LeafSummary.summary r.
Proof.
  intros Ho Hl Hw Hp Hin Hinj Hs Hc Hpub.
  destruct (passed_justified turns w p k l Ho Hl Hw Hp Hin) as (j & Hk & _ & [(_ & _ & Hroute) (d0 & e & covered & rest & Hacc)]).
  destruct Hacc as (_ & _ & _ & Hids & Hdig & _ & _ & _ & _ & chunk & r & Hchunk & Hfrom & Hsum & _).
  destruct (publish_revalidated _ _ _ _ _ _ _ _ _ _ _ _ Hs Hc Hpub) as (d1 & Hm & Hre). unfold revalidate in Hre.
  apply andb_true_iff in Hre as [Hrt%bool_decide_eq_true Hd1%bool_decide_eq_true]. rewrite Hdig, <-Hids in Hd1.
  exists j, covered, chunk, r. split; [done|]. split; [congruence|]. split; [done|]. split; [|done].
  intros x Hx. rewrite <-Hm. by apply (digest_contents (hash env) d1 covered).
Qed.

End theorems.

(** ** Promotion in the state that was read *)

Section accepted.
Context {HT : Tokens}.
Variable env : surroundings.
Hypothesis legacy_probed : probed (legacy env).
Variables (j : Job) (l : PreparedLeaf) (d : database).
Hypothesis frontier_nonneg : 0 <= frontier j.
Hypothesis acc : accounted env j l d.

(** The rows of the claim are stored, under the session and the conversation. *)
Lemma claim_row_stored i : i ∈ all_covered_ids (leaf_claim l) ∪ excluded_ids (leaf_claim l) →
  ∃ row, messages d !! i = Some row ∧ message_session_id row = job_session j ∧
    message_conversation_id row ∈ owned_conversation_values (legacy env) (job_conversation j).
Proof using legacy_probed frontier_nonneg acc.
  destruct acc as (earlier & covered & rest & Hread & Hshort & Hcov & Hids & _ & _ & Hstart & _).
  rewrite elem_of_union, (claim_all env legacy_probed j l d earlier covered rest frontier_nonneg Hread Hshort Hids Hstart),
    (claim_excluded env legacy_probed j l d earlier covered rest frontier_nonneg Hread Hshort Hcov Hids Hstart), <-Hids.
  intros Hi. assert (i ∈ (earlier ++ covered ++ rest).*1) as Hrow.
  { rewrite !fmap_app, !elem_of_app. destruct Hi as [?|He]; [by right; left|]. left.
    destruct Hstart as [(_ & _ & Hex)|[_ Hex]]; rewrite Hex in He; [done|by apply not_elem_of_nil in He]. }
  apply list_elem_of_fmap in Hrow as ([i' row] & -> & Hr). exists row.
  apply (read_rows env legacy_probed j d earlier covered rest Hread Hshort) in Hr as (Hm & Hs & Hv & _). done.
Qed.

Lemma owned_value_normalized v : v ∈ owned_conversation_values (legacy env) (job_conversation j) →
  normalized v = PyText.strip (job_conversation j) ∨ normalized v = "".
Proof using legacy_probed.
  destruct legacy_probed as [ms ->]. unfold owned_conversation_values. rewrite elem_of_app, list_elem_of_fmap, list_elem_of_bind.
  setoid_rewrite elem_of_remove_dups. setoid_rewrite elem_of_cons. setoid_rewrite list_elem_of_singleton.
  intros [(s & -> & [-> | ->])|(k & Hk & Hor)]; [left; apply strip_idemp|by right|].
  apply list_elem_of_filter in Hk as [[_ Hk] _]. rewrite Hk. destruct Hor as [-> | ->]; [by left|by right].
Qed.

Lemma claim_snapshot i : i ∈ snapshot_ids (leaf_claim l) → i ∈ all_covered_ids (leaf_claim l) ∪ excluded_ids (leaf_claim l).
Proof using Type.
  clear acc legacy_probed frontier_nonneg. unfold snapshot_ids, twin_ids, copy_proofs. cbn [filter_exclusion_proofs copy_exclusion_proofs leaf_claim].
  rewrite map_filter_empty, map_to_list_empty, dom_empty_L. cbn. set_solver.
Qed.

(** The publication proof succeeds at the state that was read. *)
Lemma claim_staged node_id now nodes row : job_session j ≠ "" → PyText.strip (job_conversation j) = job_conversation j →
  lifecycle d !! job_conversation j = Some row → current_session_id row = Some (job_session j) →
  current_frontier_store_id row = start_frontier l →
  (∀ n node i, nodes !! n = Some node → n ≠ node_id → session_id node = job_session j → i ∈ covered_store_ids l → ¬ summarizes node i) →
  ∀ d1, lifecycle d1 = lifecycle d → messages d1 = messages d → summary_nodes d1 = nodes →
  stage_compaction_publication (legacy env) (job_conversation j) (job_session j) (leaf_claim l) node_id now d1 =
    Ok (covered_end l, <[job_conversation j := advanced_row (covered_end l) now row]> (lifecycle d)).
Proof using legacy_probed frontier_nonneg acc.
  intros Hses Hconv Hrow Hcur Hfr Hnodes d1 El Em En. pose proof acc as (earlier & covered & rest & Hread & Hshort & Hcov & Hids & _ & _ & Hstart & _).
  pose proof (claim_all env legacy_probed j l d earlier covered rest frontier_nonneg Hread Hshort Hids Hstart) as Hall.
  pose proof (claim_excluded env legacy_probed j l d earlier covered rest frontier_nonneg Hread Hshort Hcov Hids Hstart) as Hex.
  pose proof (claim_covered env legacy_probed j l d earlier covered rest frontier_nonneg Hread Hshort Hids Hstart) as Hcvd.
  pose proof (claim_end env legacy_probed j l d earlier covered rest frontier_nonneg Hread Hshort Hids Hstart) as Hend.
  pose proof (claim_frontier env legacy_probed j l d earlier covered rest frontier_nonneg Hread Hshort Hstart) as Hexp.
  unfold stage_compaction_publication. rewrite El, Em, En, Hrow, Hend, Hexp, Hfr, Hcur.
  rewrite (bool_decide_eq_false_2 (all_covered_ids _ = ∅)); cycle 1.
  { intros E. destruct covered as [|x c]; [done|]. assert (x.1 ∈ all_covered_ids (leaf_claim l)) as Hx by (apply Hall; rewrite <-Hids; by left).
    rewrite E in Hx. set_solver. }
  rewrite (bool_decide_eq_true_2 (covered_ids _ ∩ _ = ∅)); cycle 1.
  { apply set_eq. intros i. rewrite elem_of_intersection, Hcvd, Hex. split; [|set_solver]. intros [Hc He]. exfalso.
    destruct Hstart as [(_ & _ & Hexc)|[_ Hexc]]; rewrite Hexc in He; [|by apply not_elem_of_nil in He].
    pose proof (earlier_below env legacy_probed j d earlier covered rest Hread Hshort i i He Hc). lia. }
  rewrite (bool_decide_eq_true_2 (dom (copy_proofs _) ⊆ _)); cycle 1.
  { unfold copy_proofs. cbn [copy_exclusion_proofs leaf_claim]. rewrite map_filter_empty, dom_empty_L. set_solver. }
  assert (snapshot_owned (job_session j) (leaf_claim l) (messages d) = true) as ->.
  { apply forallb_forall. intros i Hi. apply list_elem_of_In, elem_of_elements, claim_snapshot, claim_row_stored in Hi as (x & -> & Hs & _).
    unfold row_is_owned. by rewrite (bool_decide_eq_true_2 _ Hs). }
  assert (snapshot_conversation (job_conversation j) (leaf_claim l) (messages d) = true) as ->.
  { apply forallb_forall. intros i Hi. apply list_elem_of_In, elem_of_elements, claim_snapshot, claim_row_stored in Hi as (x & -> & _ & Hv).
    apply bool_decide_eq_true. apply owned_value_normalized in Hv. rewrite Hconv in Hv. rewrite !elem_of_cons. tauto. }
  assert (filter_exclusion_changed (leaf_claim l) (messages d) = false) as -> by done.
  assert (copy_exclusion_changed (leaf_claim l) d1 = false) as ->.
  { unfold copy_exclusion_changed, copy_proofs. cbn [copy_exclusion_proofs leaf_claim]. by rewrite map_filter_empty, map_to_list_empty. }
  rewrite (claim_tiles env legacy_probed j l d earlier covered rest frontier_nonneg Hread Hshort Hcov Hids Hstart).
  rewrite (bool_decide_eq_true_2 (_ ∪ _ = _)) by done.
  assert (already_claimed (job_session j) (leaf_claim l) node_id nodes = false) as ->.
  { apply bool_decide_eq_false. rewrite Exists_exists. intros ([n node] & Hn & Hs & Hne & Hsum). apply elem_of_map_to_list in Hn.
    apply Exists_exists in Hsum as (i & Hi & Hsum). apply elem_of_elements, Hall in Hi. by apply (Hnodes n node i). }
  cbn [negb raise_if default]. rewrite !bool_decide_eq_false_2 by (intros Hn; by apply Hn). cbn [raise_if].
  unfold stage_frontier_advance, execute_advance. rewrite Hrow, bool_decide_eq_true_2 by done. done.
Qed.

(** C15: nothing in between, a prepared leaf is accepted: promoted at the frontier where it
    starts, in the state of the database it was read in, the publication proves the claim
    of its rows, the revalidation finds them unchanged, and the frontier moves to its end;
    so preparation never costs a refused publication of its own making. *)
Theorem undisturbed_promotion_accepted row node lvl model now : job_session j ≠ "" → job_conversation j ≠ "" →
  PyText.strip (job_conversation j) = job_conversation j →
  lifecycle d !! job_conversation j = Some row → current_session_id row = Some (job_session j) →
  current_frontier_store_id row = start_frontier l →
  (∀ n other i, summary_nodes d !! n = Some other → session_id other = job_session j → i ∈ covered_store_ids l → ¬ summarizes other i) →
  ∃ id d', publish_leaf_node (legacy env) (job_conversation j) (job_session j) node lvl model (leaf_claim l)
             (revalidate (hash env) (route_fingerprint l) l) now d = Ok (id, d') ∧
    frontier_at (job_conversation j) (job_session j) d' (covered_end l).
Proof using legacy_probed frontier_nonneg acc.
  intros Hs Hc Hconv Hrow Hcur Hfr Hnodes. unfold publish_leaf_node, add_node. set (lv := if bool_decide (lvl = 0) then None else Some lvl).
  destruct (insert_node_spec node lv model now d) as (node' & _ & Hid & Hspec). destruct (insert_node node lv model now d) as [nid d1].
  cbn in Hid, Hspec. subst nid. destruct Hspec as (El & Em & _ & En & _). rewrite !bool_decide_eq_true_2 by done. cbn [andb].
  assert (revalidate (hash env) (route_fingerprint l) l d1 = true) as ->.
  { pose proof acc as (earlier & covered & rest & Hread & Hshort & _ & Hids & Hdig & _). unfold revalidate. rewrite bool_decide_eq_true_2 by done.
    destruct (read_rows env legacy_probed j d earlier covered rest Hread Hshort) as [Hsort Hin].
    apply bool_decide_eq_true. rewrite <-Hids, Hdig. apply digest_again; [by apply StronglySorted_app_1_r, StronglySorted_app_1_l in Hsort|].
    intros r Hr. rewrite Em. assert (owned_above (legacy env) (job_session j) (job_conversation j) (frontier j) d r) as H; [|apply H].
    apply Hin. rewrite !elem_of_app. tauto. }
  cbn [negb raise_if].
  rewrite (claim_staged (node_sequence d + 1) now (<[node_sequence d + 1 := node']> (summary_nodes d)) row Hs Hconv Hrow Hcur Hfr);
    [|intros n other i Hn Hne; rewrite lookup_insert_ne in Hn by done; by apply (Hnodes n)|exact El|exact Em|exact En].
  cbn. eexists _, _. split; [done|]. exists (advanced_row (covered_end l) now row). cbn.
  rewrite lookup_insert_eq. split; [done|]. split; [done|]. rewrite Hfr. apply Z.max_r. apply foldr_max_ge. by left.
Qed.

End accepted.

(** ** Witnesses *)

(** Nine rows of the session S in the conversation C: a system prompt, then turns of the
    user and the assistant; a service that answers with one token. *)
#[local] Instance prep_tokens : Tokens := {| count_tokens := λ s, Z.of_nat (String.length s); image_token_cost := 1500 |}.

Definition turn (r : string) : message_row :=
  {| message_session_id := "S"; message_conversation_id := Some "C"%string; content := Some "123456"%string; Publication.role := r;
     Publication.tool_call_id := None; Publication.tool_calls := None; tool_name := None |}.
Definition prep_db : database :=
  {| lifecycle := {["C"%string := fresh_row "S" 1]};
     messages := {[1 := turn "system"; 2 := turn "user"; 3 := turn "assistant"; 4 := turn "user"; 5 := turn "assistant"; 6 := turn "user";
                   7 := turn "assistant"; 8 := turn "user"; 9 := turn "assistant"]};
     message_sequence := 9; summary_nodes := ∅; summary_node_provenance := ∅; node_sequence := 0 |}.

Definition prep_leaf_config : leaf_config :=
  {| leaf_chunk_tokens := 18; dynamic_leaf_chunk_enabled := false; dynamic_leaf_chunk_max := 0; leaf_target_ratio := (1, 5);
     leaf_target_min_tokens := 10; leaf_target_max_tokens := 10 |}.
Definition prep_job : Job :=
  {| db_path := "db"; hermes_home := "h"; job_session := "S"; job_conversation := "C"; frontier := 0; generation := 0;
     config := {| summary_model := "m"; summary_fallback_models := []; leaf := prep_leaf_config; fresh_tail_count := 2;
                  background_leaf_prep_max_calls := 8; background_leaf_prep_window_s := 600; summary_spend_backoff_seconds := 600 |};
     fingerprint := "f"; tokens := 80; threshold_tokens := 90; context_length := 100; fresh_tail_max_tokens := 0; dependent_records := [] |}.

Definition prep_answer : answer :=
  {| ans_text := [66]; ans_level := 1; ans_model := "m"; ans_content_filter := false; ans_context_length := false |}.
Definition prep_service : service guard :=
  {| serialize := λ c _ g, (Ok ((λ _, 65) <$> c, false), g); attempt := λ _ g, (Ok prep_answer, record_call 5 g); admit_rescue := λ _ g, (true, g) |}.

Definition prep_hash (l : list (Z * option string)) : string := pretty (Zpos (encode l)).
#[local] Instance prep_hash_inj : Inj (=) (=) prep_hash.
Proof. intros l l' H. unfold prep_hash in H. apply pretty_Z_inj in H. apply (inj encode). congruence. Qed.

Definition prep_env : surroundings :=
  {| LeafPrep.legacy := refresh_legacy_conversation_ids (messages prep_db); hash := prep_hash; short_hash := λ s, s;
     tool_calls_identity := λ _, EmptyString;
     shown := λ r, {| Messages.role := Some (Publication.role r); Messages.text := default EmptyString (content r); images := 0;
                      Messages.tool_calls := []; Messages.tool_call_id := Absent |};
     text_tokens := λ t, Z.of_nat (length t); read_fails := λ _, false; aux_slots := λ _ _, 2; now := λ n, Z.of_nat n;
     foreground_guard := λ _, SpendGuard.fresh 8 600 600; breaker := λ _, CircuitBreaker.fresh 3 60 3;
     LeafPrep.model := {| call_state := guard; call_service := λ _, prep_service; enter_call := λ _ g, g; leave_call := λ g, g |} |}.

Definition quiet (_ : nat) (s : prep * database) : prep * database := s.
Definition prep_start : world :=
  {| process := (enqueue prep_job _LEAF_PREP).1; store := prep_db; accesses := 0; call_slot := true; spend_guards := []; noted := []; seen := [] |}.
Definition prep_key : key := ("db", "C")%string.
Definition prep_end : prep := process (after prep_env quiet 1 prep_start).
Definition first_leaf : PreparedLeaf :=
  make_leaf prep_env prep_job 0 [1] [(2, turn "user"); (3, turn "assistant")]
    (leaf_result (messages_of prep_env [(2, turn "user"); (3, turn "assistant")]) 1 [65; 65] false prep_answer).

Example prep_runs : length (cached prep_key prep_end) = 3%nat ∧ length (noted (after prep_env quiet 1 prep_start)) = 3%nat.
Proof. vm_compute. done. Qed.

Lemma quiet_turns n p d : rtc turn_step p (quiet n (p, d)).1.
Proof. done. Qed.
Lemma prep_probed : probed (legacy prep_env).
Proof. by eexists. Qed.
Lemma prep_starting : starting prep_start.
Proof. split; [|done]. eexists. split; [|done]. apply rtc_once, Turn_enqueue. Qed.
Lemma prep_passed : passed prep_env quiet 1 prep_start prep_end.
Proof. by left. Qed.
Lemma first_leaf_cached : first_leaf ∈ cached prep_key prep_end.
Proof. apply (bool_decide_eq_true_1 _). vm_compute. reflexivity. Qed.

Theorem prepared_cache_bounded_witness : (cached_leaves prep_end ≤ 64)%nat.
Proof. exact (proj1 (prepared_cache_bounded prep_env quiet 1 prep_start prep_end quiet_turns prep_probed prep_starting prep_passed)). Defined.

Theorem cached_leaf_accounted_witness : ∃ j, job_key j = prep_key ∧ ∃ d, accounted prep_env j first_leaf d.
Proof.
  destruct (cached_leaf_accounted prep_env quiet 1 prep_start prep_end prep_key first_leaf quiet_turns prep_probed prep_starting prep_passed
    first_leaf_cached) as (j & Hk & _ & _ & _ & _ & Hd). exact (ex_intro _ j (conj Hk Hd)).
Defined.

Definition promoted_db : database :=
  match publish_leaf_node (legacy prep_env) "C" "S" (example_leaf [2; 3]) 1 "m" (leaf_claim first_leaf)
          (revalidate (hash prep_env) "f" first_leaf) 9 prep_db with Ok (_, d) => d | Err _ => prep_db end.
Lemma prep_published : publish_leaf_node (legacy prep_env) "C" "S" (example_leaf [2; 3]) 1 "m" (leaf_claim first_leaf)
  (revalidate (hash prep_env) "f" first_leaf) 9 prep_db = Ok (1, promoted_db).
Proof. vm_compute. reflexivity. Qed.

Theorem promoted_leaf_current_witness : ∃ covered : list stored, covered.*1 = [2; 3] ∧
  ∀ x, x ∈ covered → content <$> messages prep_db !! x.1 = Some (content x.2).
Proof.
  destruct (promoted_leaf_current prep_env quiet 1 prep_start prep_end prep_key first_leaf (legacy prep_env) "C" "S" "f" (example_leaf [2; 3]) 1 "m"
    (leaf_claim first_leaf) 9 prep_db 1 promoted_db quiet_turns prep_probed prep_starting prep_passed first_leaf_cached prep_hash_inj
    ltac:(discriminate) ltac:(discriminate) prep_published) as (_ & covered & _ & _ & _ & _ & Hids & Hc & _).
  exact (ex_intro _ covered (conj Hids Hc)).
Defined.

Theorem ready_chain_longest_witness : ∃ p' chain, ready_chain "db" "C" 3 prep_end = Some (p', chain) ∧ contiguous 3 chain.
Proof.
  destruct (ready_chain_longest "db" "C" 3 prep_end
    (proj1 (passed_good prep_env quiet 1 prep_start prep_end quiet_turns prep_probed prep_starting prep_passed))) as (p' & chain & H1 & _ & H2 & _).
  exact (ex_intro _ p' (ex_intro _ chain (conj H1 H2))).
Defined.
Example ready_chain_drops : ∃ p' chain, ready_chain "db" "C" 3 prep_end = Some (p', chain) ∧ covered_store_ids <$> chain = [[4; 5]; [6; 7]] ∧
  length (cached prep_key p') = 2%nat.
Proof. eexists _, _. split; [vm_compute; reflexivity|]. vm_compute. done. Qed.

Lemma prep_eligible : eligible prep_env prep_job [(2, turn "user"); (3, turn "assistant")].
Proof.
  split.
  - intros r [->|[->|Hr%not_elem_of_nil]%elem_of_cons]%elem_of_cons; [by vm_compute|by vm_compute|done].
  - exists prep_db. intros r [->|[->|Hr%not_elem_of_nil]%elem_of_cons]%elem_of_cons; [by vm_compute|by vm_compute|done].
  - exists prep_db. intros r i other _ Hi _ _ _. 
    assert (map_Forall (λ _ row, message_session_id row = "S") (messages prep_db)) as H by (apply (bool_decide_eq_true_1 _); vm_compute; reflexivity).
    by apply (H i).
Qed.

Lemma prep_accounted : accounted prep_env prep_job first_leaf prep_db.
Proof.
  exists [(1, turn "system")], [(2, turn "user"); (3, turn "assistant")],
    [(4, turn "user"); (5, turn "assistant"); (6, turn "user"); (7, turn "assistant"); (8, turn "user"); (9, turn "assistant")].
  split; [vm_compute; reflexivity|]. split; [unfold SCAN_LIMIT; cbn; lia|]. split; [done|]. split; [done|]. split; [done|].
  split; [vm_compute; lia|]. split; [left; split; [done|]; split; [by repeat constructor|done]|]. split; [apply prep_eligible|]. split; [done|].
  exists (messages_of prep_env [(2, turn "user"); (3, turn "assistant")]).
  exists (leaf_result (messages_of prep_env [(2, turn "user"); (3, turn "assistant")]) 1 [65; 65] false prep_answer).
  split; [done|]. split; [|by split].
  split; [by apply whole_prefix_refl|]. split; [done|]. split; [unfold MAX_ATTEMPTS; cbn; lia|].
  exists {| req_text := [65; 65]; req_source_tokens := 20; req_token_budget := 10; req_verbatim := true; req_rescue := false |}, prep_answer, 18,
    (SpendGuard.fresh 8 600 600), (SpendGuard.fresh 8 600 600), (record_call 5 (SpendGuard.fresh 8 600 600)).
  by vm_compute.
Qed.

Theorem undisturbed_promotion_accepted_witness : ∃ id d', publish_leaf_node (legacy prep_env) "C" "S" (example_leaf [2; 3]) 1 "m" (leaf_claim first_leaf)
  (revalidate (hash prep_env) "f" first_leaf) 9 prep_db = Ok (id, d') ∧ frontier_at "C" "S" d' 3.
Proof.
  refine (undisturbed_promotion_accepted prep_env prep_probed prep_job first_leaf prep_db _ prep_accounted (fresh_row "S" 1) (example_leaf [2; 3]) 1 "m" 9
    _ _ _ _ _ _ _); [done|discriminate|discriminate|reflexivity|vm_compute; reflexivity|reflexivity|reflexivity|].
  intros n other i H. cbn in H. by rewrite lookup_empty in H.
Defined.
