(* ===== verification/LeafMatch.v ===== *)
(** The turn thread's side of leaf preparation: the job enqueued after a turn
    (leaf_prep.py [enqueue_after_turn]), the match of the host's rows with the prepared leaf
    at the durable frontier (compaction.py [_match_prepared_leaf],
    [_reject_prepared_chain]), and what its publication does to the cache
    ([_publish_selected_leaf]).

    The worker acts between two accesses of the cache: [others n] is what it did before the
    [n]-th.  What a chunk of host rows consumes is an argument, and so are the identity
    anchors that extend it. *)

From S2P Require Import Prelude PyText Lifecycle Publication Messages FreshTail Chunking SpendGuard CircuitBreaker SummaryOutcome.
From S2P Require Import Escalation LeafSummary LeafPrep LeafPrepProofs LeafPrepResults LeafPromotion.
From stdpp Require Import options.

#[local] Open Scope Z_scope.

(** ** The end of a turn *)

(** What the engine's snapshot reads. *)
Record engine := {
  bypasses : bool; session_of : string; conversation_of : string; consecutive_ingest_failures : Z;
  compiled_ignore_message_patterns : list string; engine_threshold_tokens : Z; engine_context_length : Z; last_prompt_tokens : Z;
  store_path : string; engine_home : string; engine_config : prep_config; effective_fresh_tail_max_tokens : Z;
  ignored_dependent_replies : list dependent_record }.

Section turn.
(** The sha256 of the settings that shape a summary. *)
Variable fingerprint_of : prep_config → string.

Definition frontier_now (conversation : string) (d : database) : Z :=
  match lifecycle d !! conversation with Some row => current_frontier_store_id row | None => 0 end.

Definition job_of (e : engine) (g : Z) (d : database) : Job :=
  {| db_path := store_path e; hermes_home := engine_home e; job_session := session_of e; job_conversation := conversation_of e;
     frontier := frontier_now (conversation_of e) d; generation := g; config := engine_config e;
     fingerprint := fingerprint_of (engine_config e); tokens := last_prompt_tokens e; threshold_tokens := engine_threshold_tokens e;
     context_length := engine_context_length e; fresh_tail_max_tokens := effective_fresh_tail_max_tokens e;
     dependent_records := ignored_dependent_replies e |}.

Definition worth_preparing (e : engine) (d : database) : bool :=
  negb (bypasses e) && bool_decide (session_of e ≠ "") && bool_decide (conversation_of e ≠ "")
  && bool_decide (consecutive_ingest_failures e = 0) && bool_decide (compiled_ignore_message_patterns e = [])
  && bool_decide (0 < engine_threshold_tokens e) && bool_decide (0 < engine_context_length e)
  && bool_decide (100 * engine_threshold_tokens e - 15 * engine_context_length e <= 100 * last_prompt_tokens e)
  && match lifecycle d !! conversation_of e with
     | Some row => bool_decide (default "" (current_session_id row) = session_of e)
     | None => false
     end.

(** The generation is read before the job is enqueued: [others] acted in between. *)
Definition enqueue_after_turn (others : prep → prep) (e : engine) (d : database) (p : prep) : prep * bool :=
  if worth_preparing e d then enqueue (job_of e (generation_of (store_path e) p) d) (others p) else (p, false).

End turn.

(** ** Where the leaf ends in the host's rows *)

(** [next(...)]: the first row mapped past [last_id], else their number. *)
Fixpoint k_high (last_id : Z) (mapped : list (option Z)) : nat :=
  match mapped with
  | Some i :: mapped => if bool_decide (last_id < i) then O else S (k_high last_id mapped)
  | None :: mapped => S (k_high last_id mapped)
  | [] => O
  end.

(** [1 + max(...)]: after the last row that is mapped. *)
Fixpoint mapped_end (mapped : list (option Z)) : nat :=
  match mapped with
  | [] => O
  | m :: mapped =>
      match mapped_end mapped, m with
      | S k, _ => S (S k)
      | O, Some _ => 1%nat
      | O, None => O
      end
  end.
Definition k_low (last_id : Z) (mapped : list (option Z)) : nat := mapped_end (take (k_high last_id mapped) mapped).

(** ** The match *)

(** What the compaction knows of the engine when it matches. *)
Record matching := {
  match_path : string; match_session : string; match_conversation : string; match_route : string; match_config : leaf_config;
  match_threshold : Z; match_window : Z; estimated_active_tokens : Z; raw_tokens_outside_tail : Z }.

Section match_leaf.
Context `{!Tokens}.
(** [_identity_anchor_extend_chunk], and the summarized and the consumed ids of a chunk. *)
Variable extend_chunk : list row → list row.
Variable consumption : list row → option (list Z * list Z).
(** The candidates, and the stored row each is mapped to. *)
Variables (candidates : list row) (mapped : list (option Z)).
Variable others : nat → prep → prep.

Definition range_of (l : PreparedLeaf) (k : nat) : option (list row) :=
  if bool_decide (k = O) || negb (bool_decide (tool_group_safe_end candidates k = k)) then None
  else
    let chunk := extend_chunk (take k candidates) in
    if bool_decide (consumption chunk = Some (covered_store_ids l, covered_store_ids l)) then Some chunk else None.

Definition host_range (l : PreparedLeaf) : option (list row) :=
  let last_id := default 0 (last (covered_store_ids l)) in
  head (omap (range_of l) (remove_dups [k_high last_id mapped; k_low last_id mapped])).

(** [_reject_prepared_chain], its accesses counted from [n]. *)
Definition reject_prepared_chain (n : nat) (path conversation : string) (l : PreparedLeaf) (reason : string) (p : prep) : prep :=
  match ready_chain path conversation (start_frontier l) (others n p) with
  | Some (p, chain) => reject path conversation (match chain with [] => [l] | _ => chain end) reason (others (S n) p)
  | None => others n p
  end.

(** [_match_prepared_leaf]: the leaf, the chunk and the low water, in hundredths. *)
Definition match_prepared_leaf (m : matching) (d : database) (p : prep) : prep * option (PreparedLeaf * list row * Z) :=
  if bool_decide (match_session m = "") || bool_decide (match_conversation m = "") || bool_decide (candidates = []) then (p, None)
  else
    match ready_chain (match_path m) (match_conversation m) (frontier_now (match_conversation m) d) (others 0 p) with
    | None => (others 0 p, None)
    | Some (p, chain) =>
        let chunk_tokens := default 0 (working_leaf_chunk_tokens (match_config m) (match_window m) (raw_tokens_outside_tail m)) in
        match chain, levels (match_threshold m) (match_window m) chunk_tokens with
        | l :: _, Some (_, low_water) =>
            if bool_decide (100 * estimated_active_tokens m <= low_water) then (p, None)
            else
              let refused reason := (reject_prepared_chain 1 (match_path m) (match_conversation m) l reason p, None) in
              if negb (bool_decide (leaf_session l = match_session m)) then refused "binding_changed"
              else if negb (bool_decide (route_fingerprint l = match_route m)) then refused "route_fingerprint_mismatch"
              else match host_range l with
                   | Some chunk => (p, Some (l, chunk, low_water))
                   | None => refused "host_unit_split"
                   end
        | _, _ => (p, None)
        end
    end.

(** ** Its publication *)

(** Why an exception of its publication rejects a leaf; [None] keeps it. *)
Definition rejection (route : string) (l : PreparedLeaf) (e : publication_error) : option string :=
  match e with
  | PromotionRejected =>
      Some (if bool_decide (route = route_fingerprint l) then "coverage_digest_mismatch" else "route_fingerprint_mismatch")
  | Lifecycle_error BindingChanged => Some "binding_changed"
  | PublicationConflict FrontierGenerationChanged => Some "frontier_moved"
  | PublicationConflict _ => Some "fence_conflict"
  | Lifecycle_error MissingState => None
  end.

(** The publication of a matched leaf, as far as the cache and the tables see it. *)
Definition publish_prepared (legacy : string → list (option string)) (hash : list (Z * option string) → string)
    (path conversation session route : string) (node : SummaryNode) (l : PreparedLeaf) (c : claim) (now : Z) (d : database) (p : prep)
    : prep * result publication_error (Z * database) :=
  match publish_leaf_node legacy conversation session node (level l) (leaf_model l) c (revalidate hash route l) now d with
  | Ok (id, d') => (promoted path conversation l (others 0 p), Ok (id, d'))
  | Err e => (match rejection route l e with Some reason => reject_prepared_chain 0 path conversation l reason p | None => p end, Err e)
  end.

End match_leaf.

(** ** The job of a turn *)

Lemma enqueue_newest j p p' : enqueue j p = (p', true) →
  last (jobs p') = Some (job_key j, j) ∧ (∀ j', (job_key j, j') ∈ jobs p' → j' = j) ∧
  generation j = generation_of (db_path j) p' ∧ generations p' = generations p.
Proof.
  unfold enqueue. case_bool_decide as Hg; [done|]. intros [= <-].
  split; [cbn; by rewrite last_snoc|]. split; [|case_bool_decide; by unfold generation_of in *].
  intros j' [Hin|Hin%list_elem_of_singleton]%elem_of_app; [|by injection Hin]. by apply list_elem_of_filter in Hin as [? _].
Qed.

(** A job enqueued after a turn is the newest and the only one of its conversation, of
    the generation the database has, and what the lifecycle table binds: its session, and
    the frontier its rows start above. *)
Theorem enqueued_job_bound fingerprint_of others e d p p' : enqueue_after_turn fingerprint_of others e d p = (p', true) →
  ∃ j, last (jobs p') = Some (job_key j, j) ∧ (∀ j', (job_key j, j') ∈ jobs p' → j' = j) ∧
    generation j = generation_of (db_path j) p' ∧ bound j d = true ∧ job_session j = session_of e ∧ session_of e ≠ "".
Proof.
  unfold enqueue_after_turn. destruct (worth_preparing e d) eqn:Hw; [|done]. intros Hq.
  exists (job_of fingerprint_of e (generation_of (store_path e) p) d). destruct (enqueue_newest _ _ _ Hq) as (H1 & H2 & H3 & _).
  split; [done|]. split; [done|]. split; [done|]. unfold worth_preparing in Hw. rewrite !andb_true_iff in Hw.
  destruct Hw as [[[[[[[[_ Hs%bool_decide_eq_true] _] _] _] _] _] _] Hb]. split; [|done].
  unfold bound, job_of, frontier_now; cbn. destruct (lifecycle d !! conversation_of e) as [row|]; [|done].
  by rewrite Hb, (bool_decide_eq_true_2 (_ = _)).
Qed.

(** ** The range of a leaf *)

Lemma k_high_spec last_id mapped : ∀ i x, mapped !! i = Some (Some x) → (i < k_high last_id mapped)%nat → x <= last_id.
Proof.
  induction mapped as [|[y|] mapped IH]; intros [|i] x Hx Hi; cbn in *; try done.
  - case_bool_decide; [lia|]. injection Hx as ->. lia.
  - case_bool_decide; [lia|]. apply (IH i); [done|lia].
  - apply (IH i); [done|lia].
Qed.

Lemma k_high_length last_id (ms : list (option Z)) : (k_high last_id ms ≤ length ms)%nat.
Proof. induction ms as [|[y|] ms IH]; cbn; [lia|case_bool_decide; lia|lia]. Qed.

Lemma mapped_end_spec mapped : (mapped_end mapped ≤ length mapped)%nat ∧
  ∀ i m, (mapped_end mapped ≤ i)%nat → mapped !! i = Some m → m = None.
Proof.
  induction mapped as [|m mapped [Hle IH]]; [by split; intros|]. cbn. split.
  - destruct (mapped_end mapped); [destruct m; lia|lia].
  - intros [|i] m' Hi Hm; cbn in Hm.
    + injection Hm as <-. destruct (mapped_end mapped), m; by try lia.
    + apply (IH i); [|done]. destruct (mapped_end mapped), m; lia.
Qed.

Lemma k_low_spec last_id mapped : (k_low last_id mapped ≤ k_high last_id mapped)%nat ∧
  ∀ i m, (k_low last_id mapped ≤ i < k_high last_id mapped)%nat → mapped !! i = Some m → m = None.
Proof.
  destruct (mapped_end_spec (take (k_high last_id mapped) mapped)) as [Hle Hn]. rewrite length_take in Hle. split; [unfold k_low; lia|].
  intros i m [Hlo Hhi] Hm. apply (Hn i); [done|]. by rewrite lookup_take_lt.
Qed.

(** ** A chain is determined by its leaves *)

Lemma contiguous_above k f chain a : Forall (leaf_shape k) chain → contiguous f chain → a ∈ chain → f <= start_frontier a.
Proof.
  revert f. induction chain as [|l chain IH]; intros f Hf Hc Ha; [by apply not_elem_of_nil in Ha|].
  rewrite Forall_cons in Hf. destruct Hf as [Hl Hf], Hc as [Hs Hc]. apply elem_of_cons in Ha as [->|Ha]; [lia|].
  pose proof (IH _ Hf Hc Ha). pose proof (leaf_grows _ _ Hl). lia.
Qed.

Lemma contiguous_same k f chain chain' : Forall (leaf_shape k) chain → contiguous f chain → contiguous f chain' →
  (∀ l, l ∈ chain' → l ∈ chain) → (∀ l, l ∈ chain → start_frontier l ≠ chain_stop f chain') → chain' = chain.
Proof.
  revert f chain'. induction chain as [|l chain IH]; intros f [|b chain'] Hf Hc Hc' Hsub Hstop; [done| | |].
  - specialize (Hsub b ltac:(by left)). by apply not_elem_of_nil in Hsub.
  - destruct Hc as [Hs _]. by specialize (Hstop l ltac:(by left)).
  - rewrite Forall_cons in Hf. destruct Hf as [Hl Hf], Hc as [Hs Hc], Hc' as [Hs' Hc']. pose proof (leaf_grows _ _ Hl) as Hgrow.
    assert (∀ a, a ∈ chain → covered_end l <= start_frontier a) as Habove by (intros a; by eapply contiguous_above).
    assert (b = l) as ->.
    { specialize (Hsub b ltac:(by left)). apply elem_of_cons in Hsub as [->|Hb]; [done|]. specialize (Habove b Hb). lia. }
    f_equal. apply (IH (covered_end l)); [done|done|done| |].
    + intros a Ha. pose proof (Hsub a ltac:(by right)) as Hin. apply elem_of_cons in Hin as [->|Hin]; [|done].
      assert (Forall (leaf_shape k) chain') as Hf'.
      { rewrite Forall_forall in Hf |- *. intros x Hx. pose proof (Hsub x ltac:(by right)) as Hin.
        apply elem_of_cons in Hin as [->|Hin]; [done|by apply Hf]. }
      pose proof (contiguous_above k _ _ l Hf' Hc' Ha). lia.
    + intros a Ha. specialize (Hstop a ltac:(by right)). by rewrite chain_stop_cons in Hstop.
Qed.

(** What is left of a chain whose first leaf goes. *)
Lemma first_removed k l rest reason p : sound p → cached k p = l :: rest → contiguous (start_frontier l) (l :: rest) →
  cached k (remove_locked k [l] reason p) = rest.
Proof.
  intros Hp Hc [_ Hr]. rewrite cached_remove_locked, bool_decide_eq_true_2, Hc by done. rewrite filter_cons, decide_False by set_solver.
  destruct (sound_each p Hp k) as (_ & Hf & _). rewrite Hc in Hf. rewrite Forall_cons in Hf. destruct Hf as [Hl Hf].
  apply filter_kept. intros a Ha Hal%list_elem_of_singleton. subst a.
  pose proof (contiguous_above _ _ _ _ Hf Hr Ha). pose proof (leaf_grows _ _ Hl). lia.
Qed.

Lemma chain_at path conversation f p chain : sound p → cached (path, conversation) p = chain → contiguous f chain →
  ∃ p', ready_chain path conversation f p = Some (p', chain) ∧ sound p' ∧ cached (path, conversation) p' = chain.
Proof.
  intros Hp Hc Hcon. destruct (ready_chain_spec path conversation f p Hp) as (p' & chain' & E & Hs & _ & Hc' & Hcon' & Hin & Hstop).
  destruct (sound_each p Hp (path, conversation)) as (_ & Hf & _). rewrite Hc in Hf, Hin, Hstop.
  assert (chain' = chain) as -> by by eapply contiguous_same. by exists p'.
Qed.

Lemma all_removed k chain reason p : cached k p = chain → cached k (remove_locked k chain reason p) = [].
Proof.
  intros <-. rewrite cached_remove_locked, bool_decide_eq_true_2 by done.
  destruct (filter _ _) as [|a l] eqn:E; [done|]. assert (a ∈ a :: l) as Ha by by left. rewrite <-E in Ha.
  by apply list_elem_of_filter in Ha as [? ?].
Qed.

Lemma chain_rejected others n path conversation l rest reason p : (∀ n q, others n q = q) → sound p →
  cached (path, conversation) p = l :: rest → contiguous (start_frontier l) (l :: rest) →
  cached (path, conversation) (reject_prepared_chain others n path conversation l reason p) = [].
Proof.
  intros Ho Hp Hc Hcon. unfold reject_prepared_chain. rewrite Ho.
  destruct (chain_at _ _ _ _ _ Hp Hc Hcon) as (p' & -> & _ & Hc'). rewrite Ho. by apply all_removed.
Qed.

(** ** The theorems *)

Section matched.
Context {HT : Tokens}.
Variable extend_chunk : list row → list row.
Variable consumption : list row → option (list Z * list Z).
Variables (candidates : list row) (mapped : list (option Z)).
Hypothesis mapped_length : length mapped = length candidates.

Lemma host_range_spec l chunk : covered_store_ids l ≠ [] → host_range extend_chunk consumption candidates mapped l = Some chunk →
  ∃ e, (0 < e ≤ length candidates)%nat ∧ chunk = extend_chunk (take e candidates) ∧
    consumption chunk = Some (covered_store_ids l, covered_store_ids l) ∧ ¬ splits candidates e ∧
    ∀ i x, (i < e)%nat → mapped !! i = Some (Some x) → x <= covered_end l.
Proof using mapped_length.
  intros Hne H. unfold host_range in H. set (last_id := default 0 (last (covered_store_ids l))) in *.
  apply head_Some_elem_of, list_elem_of_omap in H as (e & He & H).
  assert (e ≤ k_high last_id mapped)%nat as Hle.
  { apply elem_of_remove_dups, elem_of_cons in He as [->|He]; [done|]. apply list_elem_of_singleton in He as ->. apply k_low_spec. }
  pose proof (k_high_length last_id mapped) as Hlen. unfold range_of in H.
  destruct (bool_decide_reflect (e = O)) as [H0|H0]; [done|]. destruct (bool_decide_reflect (tool_group_safe_end candidates e = e)) as [Hsafe|]; [|done].
  cbn [orb negb] in H. case_bool_decide as Hcons; [|done]. injection H as <-.
  exists e. split; [lia|]. split; [done|]. split; [done|]. split.
  - destruct (safe_end_whole candidates e ltac:(lia)) as (Hw & _). by rewrite Hsafe in Hw.
  - intros i x Hi Hx. pose proof (k_high_spec last_id mapped i x Hx ltac:(lia)). transitivity last_id; [done|].
    destruct (last (covered_store_ids l)) as [y|] eqn:E; [|by apply last_None in E]. apply (foldr_max_ge (covered_store_ids l)).
    right. apply last_Some in E as [ys ->]. apply elem_of_app. right. by left.
Qed.

(** A matched leaf is the ready one of the engine's binding: the head of the chain at the
    durable frontier, of its session and route, and the compaction is above the low water;
    the host's chunk ends between tool groups, no row of it is mapped past the leaf, and
    it consumes and summarizes exactly the leaf's rows. *)
Theorem matched_leaf_ready others m d p p' l chunk low : sound (others 0%nat p) →
  match_prepared_leaf extend_chunk consumption candidates mapped others m d p = (p', Some (l, chunk, low)) →
  (∃ rest, cached (match_path m, match_conversation m) p' = l :: rest ∧
     contiguous (frontier_now (match_conversation m) d) (l :: rest)) ∧
  leaf_session l = match_session m ∧ route_fingerprint l = match_route m ∧ low < 100 * estimated_active_tokens m ∧
  ∃ e, (0 < e ≤ length candidates)%nat ∧ chunk = extend_chunk (take e candidates) ∧
    consumption chunk = Some (covered_store_ids l, covered_store_ids l) ∧ ¬ splits candidates e ∧
    ∀ i x, (i < e)%nat → mapped !! i = Some (Some x) → x <= covered_end l.
Proof using mapped_length.
  intros Hp H. unfold match_prepared_leaf in H. destruct (_ || _); [done|].
  destruct (ready_chain_spec (match_path m) (match_conversation m) (frontier_now (match_conversation m) d) _ Hp)
    as (p1 & chain & E & Hs & _ & Hc & Hcon & _). rewrite E in H.
  destruct chain as [|l' rest]; [done|]. destruct (levels _ _ _) as [[prepare low']|]; [|done].
  case_bool_decide as Hlow; [done|]. case_bool_decide as Hses; [|done]. cbn [negb] in H. case_bool_decide as Hroute; [|done]. cbn [negb] in H.
  destruct (host_range _ _ _ _ _) as [c|] eqn:Hr; [|done]. injection H as <- -> -> ->.
  split; [by exists rest|]. split; [done|]. split; [done|]. split; [lia|]. apply host_range_spec; [|done].
  destruct (sound_each p1 Hs (match_path m, match_conversation m)) as (_ & Hf & _). rewrite Hc, Forall_cons in Hf. by destruct Hf as [[] _].
Qed.

End matched.

Lemma published_frontier legacy conversation session node lvl model c promoted now d id d' : session ≠ "" → conversation ≠ "" →
  publish_leaf_node legacy conversation session node lvl model c promoted now d = Ok (id, d') →
  frontier_now conversation d' = Publication.covered_end c.
Proof.
  intros Hs Hc H. destruct (publish_Ok _ _ _ _ _ _ _ _ _ _ _ _ Hs Hc H)
    as (_ & node' & e & t & db1 & _ & _ & _ & _ & Hst & Ht & _).
  apply stage_Ok in Hst as (-> & _ & _ & _ & _ & _ & _ & row & _ & _ & Hfr & -> & _).
  unfold frontier_now. rewrite Ht, lookup_insert_eq. cbn. pose proof (expected_le_end c). lia.
Qed.

(** What a promotion leaves in the cache: published, the leaf is gone and the rest of its
    chain is ready at the frontier the tables then have, so nothing prepared behind it is
    lost; rejected, nothing of the conversation is left; refused for another reason, all
    of it is. *)
Theorem promotion_settles legacy hash path conversation session route f node l rest c now d p0 p p' r :
  sound p0 → ready_chain path conversation f p0 = Some (p, l :: rest) → session ≠ "" → conversation ≠ "" →
  Publication.covered_end c = covered_end l →
  publish_prepared (λ _ q, q) legacy hash path conversation session route node l c now d p = (p', r) →
  match r with
  | Ok (id, d') => ∃ p'', ready_chain path conversation (frontier_now conversation d') p' = Some (p'', rest)
  | Err e => cached (path, conversation) p' = match rejection route l e with Some _ => [] | None => l :: rest end
  end.
Proof.
  intros Hp0 Hready Hs Hc Hend H.
  destruct (ready_chain_spec path conversation f p0 Hp0) as (p1 & chain & E & Hp & _ & Hcached & Hcon & _).
  rewrite Hready in E. injection E as <- <-. pose proof Hcon as [Hstart Hrest].
  assert (contiguous (start_frontier l) (l :: rest)) as Hself by by rewrite Hstart.
  unfold publish_prepared in H. destruct (publish_leaf_node _ _ _ _ _ _ _ _ _ _) as [[id d']|e] eqn:Hpub.
  - injection H as <- <-. rewrite (published_frontier _ _ _ _ _ _ _ _ _ _ _ _ Hs Hc Hpub), Hend.
    assert (sound (promoted path conversation l p)) as Hp' by by apply (turn_step_sound p); [constructor|].
    edestruct (chain_at path conversation (covered_end l) _ rest Hp') as (p'' & Hr & _); [|done|by exists p''].
    exact (first_removed (path, conversation) l rest None p Hp Hcached Hself).
  - injection H as <- <-. destruct (rejection route l e) as [reason|]; [|done]. by eapply chain_rejected.
Qed.

(** ** Examples *)

#[local] Existing Instance prep_tokens.

(** The host shows the rows of the sample job again, the first user row not recognized. *)
Definition host_rows : list row := messages_of prep_env ((λ i, (i, turn (if Z.odd i then "assistant" else "user"))) <$> [2; 3; 4; 5; 6]).
Definition host_mapped : list (option Z) := [None; Some 3; Some 4; Some 5; Some 6].
Definition host_consumption (chunk : list row) : option (list Z * list Z) :=
  let ids := take (length chunk) [2; 3; 4; 5; 6] in Some (ids, ids).
Definition sample_matching : matching :=
  {| match_path := "db"; match_session := "S"; match_conversation := "C"; match_route := "f"; match_config := prep_leaf_config;
     match_threshold := 90; match_window := 100; estimated_active_tokens := 80; raw_tokens_outside_tail := 50 |}.
Definition nobody (_ : nat) (p : prep) : prep := p.

Lemma prep_end_sound : sound prep_end.
Proof. exact (proj1 (passed_good prep_env quiet 1 prep_start prep_end quiet_turns prep_probed prep_starting prep_passed)). Qed.

Definition matched_end : prep := (match_prepared_leaf id host_consumption host_rows host_mapped nobody sample_matching prep_db prep_end).1.
Lemma first_leaf_matched : match_prepared_leaf id host_consumption host_rows host_mapped nobody sample_matching prep_db prep_end
  = (matched_end, Some (first_leaf, take 2 host_rows, 5400)).
Proof. vm_compute. reflexivity. Qed.

Theorem matched_leaf_ready_witness : ¬ splits host_rows 2 ∧ 5400 < 100 * estimated_active_tokens sample_matching.
Proof.
  destruct (matched_leaf_ready id host_consumption host_rows host_mapped eq_refl nobody sample_matching prep_db prep_end matched_end first_leaf
    (take 2 host_rows) 5400 prep_end_sound first_leaf_matched) as (_ & _ & _ & Hlow & e & He & Hchunk & _ & Hsplit & _).
  split; [|exact Hlow]. apply (f_equal length) in Hchunk. cbn [id] in Hchunk. rewrite !length_take in Hchunk.
  replace e with 2%nat in Hsplit; [exact Hsplit|]. cbn in He, Hchunk. lia.
Defined.

(** A host that maps no row into the leaf: the chain goes. *)
Example unmatched_chain_dropped :
  let r := match_prepared_leaf id (λ _, None) host_rows host_mapped nobody sample_matching prep_db prep_end in
  r.2 = None ∧ cached prep_key r.1 = [] ∧ counters r.1 !! "rejected_host_unit_split"%string = Some 3.
Proof. vm_compute. done. Qed.

Definition rest_of_chain : list PreparedLeaf := drop 1 (cached prep_key matched_end).
Lemma chain_of_end : ready_chain "db" "C" 0 prep_end = Some (matched_end, first_leaf :: rest_of_chain).
Proof. vm_compute. reflexivity. Qed.

Lemma first_leaf_published : publish_prepared nobody (legacy prep_env) (hash prep_env) "db" "C" "S" "f" (example_leaf [2; 3]) first_leaf
  (leaf_claim first_leaf) 9 prep_db matched_end = (promoted "db" "C" first_leaf matched_end, Ok (1, promoted_db)).
Proof. vm_compute. reflexivity. Qed.

Theorem promotion_settles_witness : ∃ p, ready_chain "db" "C" (frontier_now "C" promoted_db) (promoted "db" "C" first_leaf matched_end)
  = Some (p, rest_of_chain).
Proof.
  exact (promotion_settles (legacy prep_env) (hash prep_env) "db" "C" "S" "f" 0 (example_leaf [2; 3]) first_leaf rest_of_chain
    (leaf_claim first_leaf) 9 prep_db prep_end matched_end _ _ prep_end_sound chain_of_end ltac:(discriminate) ltac:(discriminate)
    ltac:(vm_compute; reflexivity) first_leaf_published).
Defined.

Definition sample_engine : engine :=
  {| bypasses := false; session_of := "S"; conversation_of := "C"; consecutive_ingest_failures := 0; compiled_ignore_message_patterns := [];
     engine_threshold_tokens := 90; engine_context_length := 100; last_prompt_tokens := 80; store_path := "db"; engine_home := "h";
     engine_config := config prep_job; effective_fresh_tail_max_tokens := 0; ignored_dependent_replies := [] |}.

(** The turn's job is the sample job; a discard before it is enqueued refuses it. *)
Example turn_enqueues : enqueue_after_turn (λ _, "f"%string) id sample_engine prep_db _LEAF_PREP = enqueue prep_job _LEAF_PREP ∧
  (enqueue_after_turn (λ _, "f"%string) (discard "db") sample_engine prep_db _LEAF_PREP).2 = false.
Proof. vm_compute. done. Qed.

Theorem enqueued_job_bound_witness : ∃ j, bound j prep_db = true ∧ job_session j = "S"%string.
Proof.
  destruct (enqueued_job_bound (λ _, "f"%string) id sample_engine prep_db _LEAF_PREP _ ltac:(vm_compute; reflexivity))
    as (j & _ & _ & _ & Hb & Hs & _). exact (ex_intro _ j (conj Hb Hs)).
Defined.
